(* ===== verification/_CoqProject ===== *)
-Q . S2P
Prelude.v
Async.v
Str.v
Net.v
F64.v
Jitter.v
Ipv6.v
Names.v
Lookup.v
Routing.v
Protocol.v
Reader.v
SpillVec.v
Hello.v
Records.v
Framing.v
Builder.v
Parser.v
Fixtures.v
HelloReader.v
ParserTests.v
Metrics.v
Gate.v
Metered.v
Splice.v
SpliceProofs.v
Proxy.v
Resolver.v
ResolverProofs.v
Connection.v
Pipeline.v
ResolverCalls.v
DeliveryTests.v
Server.v
ServerProofs.v
Routes.v
Config.v
Reload.v
ConfigTests.v
Admin.v
Exporter.v
Gauge.v
App.v
AppProofs.v
Testing.v
RouteTests.v
Cache.v
CacheProofs.v
CacheStore.v
CacheTests.v
Embedded.v
