(* ===== verification/Prelude.v ===== *)
(** * sni_router: a TLS router that picks a backend by SNI, verified

    [sni_router] accepts TCP connections, reads the TLS ClientHello without
    terminating TLS, finds the backend for the server name, replays the bytes
    read so far to it and copies both directions until the end.  The workspace
    has a library crate ([src/crates/sni_router]) and a binary crate
    ([src/crates/sni_router_app]); paths below are relative to their [src/].

    ** How the program's parts interact

    [Server] accepts connections and spawns a task per connection; each task
    runs the pipeline of [Connection]: the hello reader calls the parser until
    it decides; the name goes to [Routing], which builds the candidate keys and
    asks a route lookup (the in-memory table, the file's swappable table, or
    the cache in front of either); [Resolver] turns the backend's name into
    addresses; the connection is opened and the hello replayed; the [Gate]
    admits the connection to the proxy stage, and [Proxy] races the copy
    ([Splice] or the portable one over [Metered] streams) against the idle
    watchdog and the forced shutdown.  The application loads its [Config],
    binds the sockets and runs the server, the SIGHUP [Reload] task, the
    [Admin] listener and the drain watch side by side; the [Exporter] turns the
    pipeline's metric events into series.

    ** Files

    Shared vocabulary (the parts of Rust and tokio the code uses):
    - [Prelude]: results, panics and fuel, fixed-width arithmetic, slices,
      list and map lemmas, the hint databases and tactics.
    - [Async]: instants, durations, futures with a time of readiness, and the
      classes [Timeout], [Semaphore] and [AsyncRead] with their documented
      behaviour ([TimeoutSpec], [SemaphoreSpec], [ByteSource]).
    - [F64]: the operations of [f64] and its conversions from and to durations,
      with the error bound of each.
    - [Str], [Net], [Ipv6]: the [str] operations, and the parser and printer of
      IP addresses of [core::net]; [Ipv6] proves that an IPv6 address is read
      back from its display form.

    The library crate:
    - [Names] — lookup/types.rs: hostnames, route keys, backends.
    - [Lookup] — lookup/mod.rs, lookup/memory.rs: the trait as the class
      [RouteLookup], its contract as [LookupContract], the table.
    - [Routing] — routing/mod.rs.
    - [Protocol], [Reader], [SpillVec], [Hello], [Records], [Framing],
      [Parser] — protocol/: limits, errors and alerts, the cursor, the
      inline-then-heap vectors, the hello body, the record walk and
      reassembly; [Framing] and [Parser] hold the theorems.
    - [Fixtures] — protocol/fixtures.rs: three captured handshakes, which tie the
      wire grammar to what real clients send.
    - [HelloReader] — delivery/hello_reader.rs.
    - [Metrics] — metrics.rs: the events, the outcomes and their labels.
    - [Gate], [Metered], [Proxy] — delivery/gate.rs, metered.rs, proxy.rs.
    - [Splice], [SpliceProofs] — delivery/splice.rs.
    - [Resolver], [ResolverProofs] — delivery/resolver.rs.
    - [Connection], [Pipeline] — delivery/connection.rs, delivery/mod.rs.
    - [ResolverCalls] — delivery/resolver.rs: calls of [resolve] with the lookups
      behind them, and the pipeline over the resolver.
    - [Server], [ServerProofs] — delivery/server.rs.
    - [Jitter], [Cache], [CacheProofs], [CacheStore] — cache.rs: [CacheStore] runs
      the calls and their loads against a store that changes.
    - [Embedded] — the library put together as docs/knowledge/embedding.md does:
      the pipeline over the caching lookup and the resolver.
    - [Builder], [Testing] — testing.rs: the ClientHello builder; the scripted
      lookup and the recording sink.

    The binary crate:
    - [Config], [Routes] — config/mod.rs, config/routes.rs.
    - [Reload] — reload.rs.  [Admin] — admin.rs.
    - [Exporter], [Gauge] — otel_metrics.rs; [Gauge] composes it with [Server].
    - [App], [AppProofs] — lib.rs, main.rs.

    The unit tests of both crates, evaluated on the definitions above:
    - [ParserTests] — of protocol/reader.rs, hello.rs, record.rs and of
      delivery/hello_reader.rs; [RouteTests] — of lookup/, routing/ and
      config/routes.rs; [CacheTests] — of cache.rs, on a harness that keeps the
      paused clock; [DeliveryTests] — of delivery/gate.rs, splice.rs and
      resolver.rs; [ConfigTests] — of config/mod.rs and reload.rs.

    ** How the code is rendered

    A fallible call is a [res]: [Ok], [Err], or [Stuck] when it panics or the
    model ran out of fuel; theorems of the form [returns] rule out both.
    Machine integers are [N] kept at their width: [Prelude]'s checked, wrapping
    and saturating operations are the ones the code calls.  Text and wire data
    are lists of bytes.  A handler that is atomic under a mutex is one
    function of the locked state; what runs concurrently is a step relation
    ([gate_step], [resolver_step] and [calls_step], [step] and [store_step] of
    the cache, [conn_step] and [server_step], [reload_step], [admin_step],
    [app_step]) whose reachable states carry an invariant, each proved by rule
    induction ([gate_wf], [resolver_wf], [calls_wf], [world_wf], [store_wf],
    [server_wf], [admin_wf], [app_wf]).  The pipeline of a connection is a term
    of [prog], a program stopped at each [await]; [Pipeline.trace] is every run
    of it, and the server runs the same term.  Interfaces are classes: the
    operations, and a second class with what they promise; clients are proved
    against the second one, and the implementations of the program (the
    in-memory table, the file's table, the cache) are shown to keep it.

    ** What is shown

    - The parser.  [parse_client_hello] accepts exactly a wire grammar written
      as encoders ([Hello], [Records]), equals a reference parser on lists,
      never panics, never revises a decision as bytes arrive, does not depend
      on the fragmentation into records, rejects garbage at the first byte
      that shows it, and inverts the builder.  The read loop over any stream
      ends, keeps every byte and stays within [max_wire_bytes].
    - Names and routes.  [Hostname], [RouteKey] and [Backend] parse exactly
      what they document and read back what they print.  With any lookup that
      keeps its contract the route is the best one of the table; whatever a
      lookup answers, a route is one of its hits under a candidate key.
    - The cache.  In every interleaving of lookups, loads and invalidations:
      the capacity, the order index and the in-flight slots stay consistent;
      answers come from a load no older than the last invalidation; over a
      store that changes, an answer is what a load recorded on its channel, read
      from the store at one instant, and that load ended after the call began or
      at most its jittered TTL before (the stale window more only for a call that
      recorded a stale answer), and a waiting call is always woken; a cache over a faithful lookup is faithful; nothing panics
      while the clock is away from the end of time; a jittered TTL stays within
      the configured fraction, computed in the floating point the code uses.
    - Delivery.  The gate puts each connection on exactly one side; the meter
      counts what moved; the splice copy under every schedule and every kernel
      answer loses, invents and reorders nothing; pipes stay within half the
      descriptor limit; the watchdog fires when, and only when, a connection
      is idle; the resolver runs one lookup per name, a bounded number at a
      time, a call of it returns a logged answer of the system lookup, stored
      within the TTL and its windows and turned by a counter that moves on by
      one, and every call can return if the system lookup answers; a pipeline takes at most
      fourteen steps, and connects to, replays to and proxies to the backend
      of the best route for its own SNI, or closes with the outcome of the
      step that failed.
    - Embedded over a cached store ([Embedded]): in one run of the cache and one
      of the resolver, every proxied connection goes to an address logged for the
      best route of its own SNI in a table the store held while a load of that
      run was answered, no longer before the connection's own call than the cache
      allows, and gets what [read_client_hello] returned for it.
    - The server.  Capacity, a fair accept, one [ConnectionOpened] and one
      [ConnectionClosed] per connection; once the gate is closed nothing that
      is not proxying gets any answer but a cancellation, also when one is there;
      and a forced shutdown ends by the router's own steps whatever the futures
      its tasks poll ([Futures]) answer, and if they never do ([pending]).
    - The application.  [load] accepts exactly valid files and only yields
      configurations the router can run; a reload is all or nothing; health
      drains only after the signal and the admin listener outlives the server;
      the exported gauge is the number of open connections at any time; and
      every connection of the running app goes where a table that was in place
      sends it.
    - The definitions answer as the code does: each unit test, apart from
      those named below, is a boolean of the model under its own name, and the
      lemmas [cursor_tests_pass], [hello_tests_pass], [record_tests_pass],
      [large_hello_test_passes], [reader_tests_pass], [route_tests_pass],
      [cache_tests_pass], [splice_tests_pass], [delivery_tests_pass] and
      [config_tests_pass] compute them.

    ** Fuel and bounds

    Most loops recurse on the list they walk.  Those that recurse by fuel are
    proved to have enough: [scan_loop] and the reference [walk],
    [server_name_loop] and [extension_loop] start with one more than the bytes
    they have, each iteration consumes at least a byte, and the [returns] lemmas
    rule out running out; [chunks_fuel] of the builder starts with the input's
    length and takes at least one byte per chunk; [read_loop] starts with one
    more than the wire limit, and a read that does not end it brings a byte;
    [hex_digits] and [dec_digits] have a step per digit of the number printed;
    [idle_loop] of the watchdog takes any fuel above the time until the bytes
    stop.  What tasks do over time is a step relation, and its termination a
    measure ([shutdown_terminates], [admin_progress]).

    ** Parameters of the model

    What is not the program's own code enters as an argument with documented
    behaviour, and every theorem with such a hypothesis is applied to a concrete
    instance: [tokio]'s timeout and semaphore; byte streams; the
    seeded hasher of the standard library; [splice(2)],
    [shutdown(2)] and the pipe they fill; DNS; connecting and replaying to an
    address; the inner stream of a metered one; TOML parsing and the file's
    contents; HTTP and the Prometheus encoding; the OpenTelemetry instruments;
    the arrival of signals.  A schedule is an arbitrary sequence of steps.

    ** Abstractions

    A socket address is an address and a port, without the scope and flow of
    IPv6.  The exporter records events one after another, as its instruments
    are documented to be linearizable.  A [Mutex] that was poisoned is not
    considered: no critical section panics under the hypotheses stated.
    Dropping a future cancels it at its last await.  Making a semaphore with more
    than [MAX_PERMITS] permits panics, and the reachable states of a component
    start where that succeeded ([loaded_app_starts]: it does for every
    configuration that loads); [release] is the drop of a permit that was taken.
    The meter stands for the instruments' aggregates: its export as floating
    point and the SDK's limit on label sets are not modelled.  Vectors are unbounded,
    while lengths that the code computes at 64 bits are kept at that width.

    ** Not modelled, and why

    - Logging: text for operators.
    - The unsafe wrappers of [libc] calls (splice.rs) beyond their results: the
      kernel's behaviour is a parameter, as named above.
    - The portable copy: third-party code.
    - The construction of the meter (otel_metrics.rs): bucket boundaries and
      descriptions, data for OpenTelemetry.
    - Of the unit tests: those that race threads or open sockets; the ones about
      the capacity of a [Vec], the identity of a shared pointer, the source of
      a [LookupError] and the number of lookups of one routing; and the cases
      of unknown fields, which the TOML reader refuses. *)

From Stdlib Require Import Strings.String Strings.Byte.
From Stdlib Require Export NArith Lia.
From stdpp Require Export base tactics option list gmap strings fin_maps sorting.

#[global] Open Scope N_scope.

(** ** Rust results, panics and fuel

    A Rust call ends in one of three ways: it returns [Ok], it returns [Err],
    or it panics (a slice out of range, an arithmetic overflow).  A model with
    a loop may also run out of the fuel it was given; that is kept apart from a
    panic so that a theorem can rule out both. *)
Inductive stuck := SPanic | SFuel.

Inductive res (E A : Type) :=
| Ok (a : A)
| Err (e : E)
| Stuck (s : stuck).
Arguments Ok {E A} _.
Arguments Err {E A} _.
Arguments Stuck {E A} _.

#[global] Instance stuck_eq_dec : EqDecision stuck.
Proof. solve_decision. Defined.
#[global] Instance res_eq_dec `{EqDecision E, EqDecision A} : EqDecision (res E A).
Proof. solve_decision. Defined.

#[global] Instance res_ret {E} : MRet (res E) := λ A a, Ok a.
#[global] Instance res_bind {E} : MBind (res E) := λ A B f m,
  match m with Ok a => f a | Err e => Err e | Stuck s => Stuck s end.
#[global] Instance res_fmap {E} : FMap (res E) := λ A B f m,
  match m with Ok a => Ok (f a) | Err e => Err e | Stuck s => Stuck s end.

(** [Option::ok_or] and [Result::map_err]. *)
Definition ok_or {E A} (o : option A) (e : E) : res E A :=
  match o with Some a => Ok a | None => Err e end.
Definition map_err {E F A} (f : E → F) (m : res E A) : res F A :=
  match m with Ok a => Ok a | Err e => Err (f e) | Stuck s => Stuck s end.
(** An early [return Err(e)] guarded by a condition. *)
Definition guard_err {E} (b : bool) (e : E) : res E unit :=
  if b then Err e else Ok ().

(** The call returned: it neither panicked nor ran out of fuel. *)
Definition returns {E A} (m : res E A) : Prop := ∀ s, m ≠ Stuck s.

Section Res.
Context {E A B : Type}.
Implicit Types (m : res E A) (f : A → res E B).

Lemma bind_Ok m f b : m ≫= f = Ok b ↔ ∃ a, m = Ok a ∧ f a = Ok b.
Proof. destruct m; simpl; naive_solver. Qed.
Lemma bind_unit_Ok (m : res E unit) (k : res E B) b :
  m ≫= (λ _, k) = Ok b ↔ m = Ok () ∧ k = Ok b.
Proof. destruct m as [[]| |]; simpl; naive_solver. Qed.
Lemma bind_Err m f e : m ≫= f = Err e ↔ m = Err e ∨ ∃ a, m = Ok a ∧ f a = Err e.
Proof. destruct m; simpl; naive_solver. Qed.
Lemma bind_Stuck m f s :
  m ≫= f = Stuck s ↔ m = Stuck s ∨ ∃ a, m = Ok a ∧ f a = Stuck s.
Proof. destruct m; simpl; naive_solver. Qed.
Lemma fmap_Ok (g : A → B) m b : g <$> m = Ok b ↔ ∃ a, m = Ok a ∧ b = g a.
Proof. destruct m; simpl; naive_solver. Qed.
Lemma ok_or_Ok (o : option A) (e : E) a : ok_or o e = Ok a ↔ o = Some a.
Proof. destruct o; simpl; naive_solver. Qed.
Lemma guard_err_Ok c (e : E) u : guard_err c e = Ok u ↔ c = false.
Proof. destruct c, u; simpl; naive_solver. Qed.
Lemma map_err_Ok {F} (g : E → F) m a : map_err g m = Ok a ↔ m = Ok a.
Proof. destruct m; simpl; naive_solver. Qed.

Lemma returns_Ok (a : A) : returns (Ok (E := E) a).
Proof. by intros s. Qed.
Lemma returns_Err (e : E) : returns (Err (A := A) e).
Proof. by intros s. Qed.
Lemma returns_bind m f :
  returns m → (∀ a, m = Ok a → returns (f a)) → returns (m ≫= f).
Proof. intros Hm Hf s. rewrite bind_Stuck. intros [?|(a & ? & ?)]; [by eapply Hm|by eapply Hf]. Qed.
Lemma returns_ok_or (o : option A) (e : E) : returns (ok_or o e).
Proof. by destruct o. Qed.
Lemma returns_guard_err c (e : E) : returns (guard_err c e).
Proof. by destruct c. Qed.
Lemma returns_map_err {F} (g : E → F) m : returns m → returns (map_err g m).
Proof. intros Hm s. destruct m; simpl; try done. intros [= ->]. by apply (Hm s). Qed.
Lemma returns_fmap (g : A → B) m : returns m → returns (g <$> m).
Proof. intros Hm s. destruct m; simpl; try done. intros [= ->]. by apply (Hm s). Qed.
End Res.

Create HintDb returns.
#[export] Hint Resolve returns_Ok returns_Err returns_ok_or returns_guard_err
  returns_map_err returns_fmap : returns.
#[export] Hint Extern 2 (returns (if ?b then _ else _)) => destruct b : returns.
#[export] Hint Extern 3 (returns (_ ≫= _)) => apply returns_bind; [|intros] : returns.

(** [res_inv] opens every successful call of a hypothesis. *)
Ltac res_inv :=
  repeat match goal with
  | H : (_ ≫= _) = Ok _ |- _ => apply bind_Ok in H as (? & ? & H)
  | H : (_ <$> _) = Ok _ |- _ => apply fmap_Ok in H as (? & ? & ?)
  | H : ok_or _ _ = Ok _ |- _ => apply ok_or_Ok in H
  | H : guard_err _ _ = Ok _ |- _ => apply guard_err_Ok in H
  | H : map_err _ _ = Ok _ |- _ => apply map_err_Ok in H
  | H : Ok _ = Ok _ |- _ => injection H as H
  | H : prod _ _ |- _ => destruct H
  | H : unit |- _ => destruct H
  end; simplify_eq/=.

(** [res_simpl] runs the calls whose results are known, and nothing else. *)
Ltac res_simpl :=
  cbn [mbind res_bind fmap res_fmap mret res_ret ok_or map_err guard_err fst snd negb orb andb].

(** Code that can only panic (a critical section, a destructor): its error type is empty. *)
Abbreviation section := (res Empty_set).

(** ** Bytes and machine integers

    A [u8] is a [Byte.byte]; wider unsigned integers are [N], with their width
    written out where the code can overflow it. *)
Abbreviation bytes := (list byte).

#[global] Instance byte_eq_decision : EqDecision byte := Byte.byte_eq_dec.
#[global] Program Instance byte_countable : Countable byte :=
  inj_countable Byte.to_N Byte.of_N _.
Next Obligation. intros b. apply Byte.of_to_N. Qed.

Definition b2n (b : byte) : N := Byte.to_N b.
(** A value cast with [as u8]: the low eight bits. *)
Definition n2b (n : N) : byte := default x00 (Byte.of_N (n mod 256)).

#[global] Arguments b2n : simpl never.
#[global] Arguments n2b : simpl never.

Lemma b2n_lt b : b2n b < 256.
Proof. unfold b2n. pose proof (Byte.to_N_bounded b). lia. Qed.
Lemma b2n_n2b n : b2n (n2b n) = n mod 256.
Proof.
  unfold b2n, n2b. pose proof (N.mod_lt n 256).
  pose proof (Byte.to_of_N_option_map (n mod 256)) as H1.
  destruct (Byte.of_N (n mod 256)) as [b|] eqn:Hb; simpl in *.
  - by apply Byte.to_of_N.
  - destruct (N.leb_spec (n mod 256) 255); [done|lia].
Qed.
Lemma b2n_inj a b : b2n a = b2n b → a = b.
Proof.
  unfold b2n. intros H. apply (f_equal Byte.of_N) in H. rewrite !Byte.of_to_N in H.
  by injection H.
Qed.
Lemma n2b_b2n b : n2b (b2n b) = b.
Proof. apply b2n_inj. rewrite b2n_n2b. apply N.mod_small, b2n_lt. Qed.

(** Text literals: a Rust [&str] is its UTF-8 bytes. *)
Definition lit (s : string) : bytes := String.list_byte_of_string s.

(** [u16::from_be_bytes] and [u16::to_be_bytes]. *)
Definition be16 (hi lo : byte) : N := 256 * b2n hi + b2n lo.
Definition to_be16 (n : N) : bytes := [n2b (N.shiftr n 8); n2b n].

#[global] Arguments to_be16 : simpl never.

Lemma be16_lt hi lo : be16 hi lo < 65536.
Proof. unfold be16. pose proof (b2n_lt hi). pose proof (b2n_lt lo). lia. Qed.
Lemma be16_to_be16 n :
  n < 65536 → be16 (n2b (N.shiftr n 8)) (n2b n) = n.
Proof.
  intros Hn. unfold be16. rewrite !b2n_n2b, N.shiftr_div_pow2. change (2 ^ 8) with 256.
  assert (n / 256 < 256) by (apply N.Div0.div_lt_upper_bound; lia).
  rewrite (N.mod_small (n / 256)) by done. symmetry. apply N.div_mod. done.
Qed.
Lemma to_be16_be16 hi lo : to_be16 (be16 hi lo) = [hi; lo].
Proof.
  pose proof (b2n_lt hi). pose proof (b2n_lt lo). unfold to_be16.
  rewrite N.shiftr_div_pow2. change (2 ^ 8) with 256. unfold be16.
  f_equal; [|f_equal]; apply b2n_inj; rewrite b2n_n2b.
  - rewrite (N.add_comm (256 * _)), (N.mul_comm 256), N.div_add by done.
    rewrite (N.div_small (b2n lo)), N.mod_small by lia. lia.
  - rewrite (N.add_comm (256 * _)), (N.mul_comm 256), N.Div0.mod_add.
    by apply N.mod_small.
Qed.
Lemma be16_inj a b c d : be16 a b = be16 c d → a = c ∧ b = d.
Proof.
  intros H. apply (f_equal to_be16) in H. rewrite !to_be16_be16 in H. by injection H.
Qed.

(** [usize] arithmetic on a 64-bit target, checked as a debug build checks it. *)
Definition usize_max : N := 2 ^ 64 - 1.
Definition isize_max : N := 2 ^ 63 - 1.
Definition u64_max : N := 2 ^ 64 - 1.
Definition uadd {E} (a b : N) : res E N :=
  if a + b <=? usize_max then Ok (a + b) else Stuck SPanic.
Definition umul {E} (a b : N) : res E N :=
  if a * b <=? usize_max then Ok (a * b) else Stuck SPanic.
Definition usub {E} (a b : N) : res E N :=
  if b <=? a then Ok (a - b) else Stuck SPanic.

Lemma uadd_Ok {E} a b : a + b ≤ usize_max → uadd (E := E) a b = Ok (a + b).
Proof. unfold uadd. by intros ->%N.leb_le. Qed.
Lemma umul_Ok {E} a b : a * b ≤ usize_max → umul (E := E) a b = Ok (a * b).
Proof. unfold umul. by intros ->%N.leb_le. Qed.
Lemma usub_Ok {E} a b : b ≤ a → usub (E := E) a b = Ok (a - b).
Proof. unfold usub. by intros ->%N.leb_le. Qed.

(** ** Slices *)
Definition len {A} (l : list A) : N := N.of_nat (length l).
Definition is_empty {A} (l : list A) : bool := match l with [] => true | _ => false end.
Definition takeN {A} (n : N) (l : list A) : list A := take (N.to_nat n) l.
Definition dropN {A} (n : N) (l : list A) : list A := drop (N.to_nat n) l.
Definition get {A} (n : N) (l : list A) : option A := l !! N.to_nat n.

(** [&l[a..b]] and [&l[a..]], which panic out of range; [l[i]]. *)
Definition slice {E A} (a b : N) (l : list A) : res E (list A) :=
  if (a <=? b) && (b <=? len l) then Ok (takeN (b - a) (dropN a l)) else Stuck SPanic.
Definition slice_from {E A} (a : N) (l : list A) : res E (list A) :=
  if a <=? len l then Ok (dropN a l) else Stuck SPanic.
Definition index {E A} (l : list A) (i : N) : res E A :=
  match get i l with Some a => Ok a | None => Stuck SPanic end.
(** [l[i] = x], which panics out of range. *)
Definition index_set {E A} (i : N) (x : A) (l : list A) : res E (list A) :=
  if i <? len l then Ok (<[N.to_nat i := x]> l) else Stuck SPanic.

Section Slices.
Context {A : Type}.
Implicit Types l k : list A.

Lemma len_nil : len (A := A) [] = 0. Proof. done. Qed.
Lemma len_cons x l : len (x :: l) = 1 + len l.
Proof. unfold len. simpl. lia. Qed.
Lemma len_app l k : len (l ++ k) = len l + len k.
Proof. unfold len. rewrite length_app. lia. Qed.
Lemma len_takeN n l : len (takeN n l) = n `min` len l.
Proof. unfold len, takeN. rewrite length_take. lia. Qed.
Lemma len_dropN n l : len (dropN n l) = len l - n.
Proof. unfold len, dropN. rewrite length_drop. lia. Qed.
Lemma len_0 l : len l = 0 ↔ l = [].
Proof. unfold len. destruct l; simpl; split; intros; (done || lia). Qed.
Lemma is_empty_true l : is_empty l = true ↔ l = [].
Proof. by destruct l. Qed.
Lemma is_empty_false l : is_empty l = false ↔ l ≠ [].
Proof. by destruct l. Qed.

Lemma takeN_dropN n l : takeN n l ++ dropN n l = l.
Proof. apply take_drop. Qed.
Lemma takeN_ge n l : len l ≤ n → takeN n l = l.
Proof. unfold len, takeN. intros. apply take_ge. lia. Qed.
Lemma takeN_0 l : takeN 0 l = []. Proof. done. Qed.
Lemma dropN_0 l : dropN 0 l = l. Proof. done. Qed.
Lemma dropN_ge n l : len l ≤ n → dropN n l = [].
Proof. unfold len, dropN. intros. apply drop_ge. lia. Qed.
Lemma takeN_app n l k : takeN n (l ++ k) = takeN n l ++ takeN (n - len l) k.
Proof. unfold takeN, len. rewrite take_app. f_equal. f_equal. lia. Qed.
Lemma dropN_app n l k : dropN n (l ++ k) = dropN n l ++ dropN (n - len l) k.
Proof. unfold dropN, len. rewrite drop_app. f_equal. f_equal. lia. Qed.
Lemma takeN_app_le n l k : n ≤ len l → takeN n (l ++ k) = takeN n l.
Proof. unfold takeN, len. intros. apply take_app_le. lia. Qed.
Lemma dropN_app_le n l k : n ≤ len l → dropN n (l ++ k) = dropN n l ++ k.
Proof. unfold dropN, len. intros. apply drop_app_le. lia. Qed.
Lemma takeN_app_len n l k : n = len l → takeN n (l ++ k) = l.
Proof. intros ->. unfold takeN, len. by rewrite Nat2N.id, take_app_length. Qed.
Lemma dropN_app_len n l k : n = len l → dropN n (l ++ k) = k.
Proof. intros ->. unfold dropN, len. by rewrite Nat2N.id, drop_app_length. Qed.
Lemma dropN_dropN n m l : dropN n (dropN m l) = dropN (m + n) l.
Proof. unfold dropN. rewrite drop_drop. f_equal. lia. Qed.
Lemma takeN_takeN n m l : takeN n (takeN m l) = takeN (n `min` m) l.
Proof. unfold takeN. rewrite take_take. f_equal. lia. Qed.
Lemma takeN_split n m l : n ≤ m → takeN m l = takeN n l ++ takeN (m - n) (dropN n l).
Proof.
  intros. unfold takeN, dropN. rewrite take_drop_commute.
  replace (N.to_nat n + N.to_nat (m - n))%nat with (N.to_nat m) by lia.
  rewrite <- (take_drop (N.to_nat n) (take (N.to_nat m) l)) at 1.
  rewrite take_take. do 2 f_equal. lia.
Qed.

Lemma slice_Ok {E} a b l :
  a ≤ b → b ≤ len l → slice (E := E) a b l = Ok (takeN (b - a) (dropN a l)).
Proof. unfold slice. by intros ->%N.leb_le ->%N.leb_le. Qed.
Lemma slice_from_Ok {E} a l : a ≤ len l → slice_from (E := E) a l = Ok (dropN a l).
Proof. unfold slice_from. by intros ->%N.leb_le. Qed.
Lemma index_set_Ok {E} i x l :
  i < len l → index_set (E := E) i x l = Ok (<[N.to_nat i := x]> l).
Proof. unfold index_set. by intros ->%N.ltb_lt. Qed.
Lemma get_lt n l : n < len l → is_Some (get n l).
Proof. unfold get, len. intros. apply lookup_lt_is_Some. lia. Qed.
End Slices.

Create Rewrite HintDb len.
#[export] Hint Rewrite @len_nil @len_cons @len_app @len_takeN @len_dropN : len.
(** [len_lia]: arithmetic about the lengths of slices. *)
Ltac len_lia := autorewrite with len in *; first [lia | exfalso; lia].

(** ** Sums and counts over the values of a map *)
Section Totals.
Context `{Countable K} {A : Type} (f : A → N).
Implicit Types m : gmap K A.

Definition total m : N := map_fold (λ _ x n, f x + n) 0 m.

Lemma total_empty : total ∅ = 0.
Proof. done. Qed.
Lemma total_new m i x : m !! i = None → total (<[i := x]> m) = total m + f x.
Proof.
  intros Hi. unfold total. rewrite map_fold_insert_L; [lia| |done]. intros. lia.
Qed.
Lemma total_delete m i x : m !! i = Some x → total m = total (delete i m) + f x.
Proof.
  intros Hi. rewrite <- (insert_id m i x) at 1 by done. rewrite <- insert_delete_eq.
  apply total_new, lookup_delete_eq.
Qed.
Lemma total_replace m i x y : m !! i = Some x → total (<[i := y]> m) + f x = total m + f y.
Proof.
  intros Hi. rewrite (total_delete m i x) by done. rewrite <- insert_delete_eq.
  rewrite total_new by apply lookup_delete_eq. lia.
Qed.
Lemma total_le b m : (∀ x, f x ≤ b) → total m ≤ b * N.of_nat (size m).
Proof.
  intros Hb. induction m as [|i x m Hi IH] using map_ind; [rewrite total_empty; lia|].
  rewrite total_new, map_size_insert_None by done. specialize (Hb x). lia.
Qed.
End Totals.

(** How many values satisfy a test. *)
Definition weight {A} (f : A → bool) (x : A) : N := if f x then 1 else 0.
Definition count `{Countable K} {A} (f : A → bool) (m : gmap K A) : N := total (weight f) m.
Lemma count_size `{Countable K} {A} (f : A → bool) (m : gmap K A) : count f m ≤ N.of_nat (size m).
Proof.
  unfold count. rewrite <- (N.mul_1_l (N.of_nat _)). apply total_le. intros x. unfold weight. destruct (f x); lia.
Qed.

Lemma count_pos `{Countable K} {A} (f : A → bool) (m : gmap K A) :
  0 < count f m → ∃ i x, m !! i = Some x ∧ f x = true.
Proof.
  unfold count. induction m as [|i x m Hi IH] using map_ind; [rewrite total_empty; lia|].
  rewrite total_new by done. intros Hpos. destruct (f x) eqn:Hf.
  - exists i, x. by rewrite lookup_insert_eq.
  - assert (weight f x = 0) as Hw by (unfold weight; by rewrite Hf).
    destruct IH as (j & y & Hj & Hy); [lia|].
    exists j, y. rewrite lookup_insert_ne; [done|congruence].
Qed.

(** ** Decidable tests on [N] *)
Lemma N_ltb_false a b : (a <? b) = false ↔ b ≤ a.
Proof. apply N.ltb_ge. Qed.

(** Case analysis on the comparisons of a goal. *)
Ltac case_N :=
  match goal with
  | |- context [?a <? ?b] => destruct (N.ltb_spec a b)
  | |- context [?a <=? ?b] => destruct (N.leb_spec a b)
  | |- context [?a =? ?b] => destruct (N.eqb_spec a b)
  | H : context [?a <? ?b] |- _ => destruct (N.ltb_spec a b)
  | H : context [?a <=? ?b] |- _ => destruct (N.leb_spec a b)
  | H : context [?a =? ?b] |- _ => destruct (N.eqb_spec a b)
  end.

(** [vm_decide]: a decidable, closed goal by evaluation. *)
Ltac vm_decide := apply (bool_decide_unpack _); vm_compute; exact I.
