(* ===== verification/Async.v ===== *)
(** * Time, futures and timeouts

    What the source takes from [std::time] and [tokio]: durations, futures as
    values that become ready at some time, and [tokio::time::timeout], which is
    third-party code and so a parameter with its documented behaviour. *)

From S2P Require Import Prelude.
From Stdlib Require Import Strings.Byte.

(** A [Duration] in nanoseconds; an [Instant] in nanoseconds since an epoch. *)
Definition Duration := N.
Definition Instant := N.

Definition from_secs (n : N) : Duration := n * 1000000000.
Definition from_millis (n : N) : Duration := n * 1000000.

(** The largest [Instant] (a signed 64-bit count of seconds), and addition. *)
Definition instant_max : Instant := (2 ^ 63 - 1) * 1000000000 + 999999999.
Definition instant_checked_add (i : Instant) (d : Duration) : option Instant :=
  if i + d <=? instant_max then Some (i + d) else None.
(** [i + d], which panics on overflow. *)
Definition instant_add {E} (i : Instant) (d : Duration) : res E Instant :=
  match instant_checked_add i d with Some j => Ok j | None => Stuck SPanic end.
(** [i.duration_since(j)], zero when [j] is later. *)
Definition duration_since (i j : Instant) : Duration := i - j.

(** A future: the value it yields, and how long after it is first polled
    ([None]: never). *)
Record fut (A : Type) := mkFut { fut_value : A; fut_after : option Duration }.
Arguments mkFut {A} _ _.
Arguments fut_value {A} _.
Arguments fut_after {A} _.

Definition ready {A} (a : A) : fut A := mkFut a (Some 0).
Definition completes_before {A} (f : fut A) (d : Duration) : Prop :=
  ∃ t, fut_after f = Some t ∧ t < d.
Definition exceeds {A} (f : fut A) (d : Duration) : Prop :=
  match fut_after f with Some t => d < t | None => True end.

(** [tokio::time::timeout d f]: [None] stands for [Err(Elapsed)]. *)
Class Timeout := timeout : ∀ {A : Type}, Duration → fut A → option A.

(** Its documentation: a future that completes before the duration has elapsed
    gives its value, otherwise an error is returned and the future dropped. *)
Class TimeoutSpec `{Timeout} := {
  timeout_in_time {A} d (f : fut A) : completes_before f d → timeout d f = Some (fut_value f);
  timeout_elapsed {A} d (f : fut A) : exceeds f d → timeout d f = None;
  timeout_value {A} d (f : fut A) a : timeout d f = Some a → a = fut_value f;
}.

(** An instance, for examples: elapsed at exactly [d] is still in time. *)
Definition simple_timeout : Timeout := λ A d f,
  match fut_after f with
  | Some t => if t <=? d then Some (fut_value f) else None
  | None => None
  end.
Lemma simple_timeout_spec : TimeoutSpec (H := simple_timeout).
Proof.
  split; unfold timeout, simple_timeout, completes_before, exceeds; intros A d [v t] *; simpl.
  - intros (t' & -> & Ht). case_N; [done|lia].
  - destruct t as [t|]; [|done]. intros. case_N; [lia|done].
  - destruct t as [t|]; [|done]. case_N; congruence.
Qed.

(** ** Semaphores

    [tokio::sync::Semaphore]: [Semaphore::new] panics above [MAX_PERMITS]; a
    permit is taken when one is available and comes back when it is dropped
    ([release] is that drop).  An awaited [acquire_owned] is a [try_acquire] that
    is retried until it succeeds. *)
Definition MAX_PERMITS : N := N.shiftr usize_max 3.
Class Semaphore (Sem : Type) := {
  sem_new : N → section Sem;
  try_acquire : Sem → option Sem;
  release : Sem → Sem;
}.
Class SemaphoreSpec (Sem : Type) `{Semaphore Sem} (available : Sem → N) := {
  sem_new_makes n : (∃ s, sem_new n = Ok s) ↔ n ≤ MAX_PERMITS;
  sem_new_permits n s : sem_new n = Ok s → available s = n;
  try_acquire_None s : try_acquire s = None ↔ available s = 0;
  try_acquire_Some s s' : try_acquire s = Some s' → available s = available s' + 1;
  release_permit s : available (release s) = available s + 1;
}.
(** The instance the examples use: the number of permits. *)
#[global] Instance counter_semaphore : Semaphore N := {
  sem_new n := if n <=? MAX_PERMITS then Ok n else Stuck SPanic;
  try_acquire s := if s =? 0 then None else Some (s - 1);
  release s := s + 1;
}.
#[global] Instance counter_semaphore_spec : SemaphoreSpec N (λ n, n).
Proof.
  split; cbn.
  - intros n. case_N; [split; eauto|split; [by intros []|lia]].
  - intros n s. case_N; congruence.
  - intros s. case_N; split; congruence.
  - intros s s'. case_N; intros; simplify_eq; lia.
  - done.
Qed.

(** A century: how far a saturated deadline lies ahead. *)
Definition century : Duration := from_secs (100 * 365 * 24 * 3600).
(** An [Instant] a century before the end of time: any real clock reading. *)
Definition clock_ok (now : Instant) : Prop := now + 2 * century ≤ instant_max.

(** ** I/O errors

    [std::io::Error]: the kinds the source tests or creates, and any other. *)
Inductive io_error_kind := KNotFound | KInterrupted | KNotConnected | KWriteZero | KOther | KAny (code : N).
#[global] Instance io_error_kind_eq_dec : EqDecision io_error_kind.
Proof. solve_decision. Defined.
Record io_error := mkIoError { ioe_kind : io_error_kind; ioe_message : bytes }.
#[global] Instance io_error_eq_dec : EqDecision io_error.
Proof. solve_decision. Defined.

(** ** Byte streams

    [stream.take(n).read_buf(buf)], awaited: at most [n] bytes appended to the
    buffer, none at the end of the stream, or an error. *)
Class AsyncRead (S : Type) := read_buf : S → N → (io_error + bytes) * S.

(** A stream that delivers [content] and then ends: a read takes the next bytes
    of it, at most as many as asked for, and none only at the end. *)
Class ByteSource (S : Type) `{AsyncRead S} (content : S → bytes) := {
  read_delivers s n : ∃ bs s', read_buf s n = (inr bs, s') ∧ content s = bs ++ content s' ∧ len bs ≤ n ∧
    (bs = [] → n = 0 ∨ content s = []);
}.

(** The instance the examples use: the chunks in which the bytes arrive. *)
Definition chunk_stream := list bytes.
#[global] Instance chunk_stream_read : AsyncRead chunk_stream := λ s n,
  match List.filter (λ c, negb (is_empty c)) s with
  | [] => (inr [], [])
  | c :: s => (inr (takeN n c), dropN n c :: s)
  end.
Lemma concat_filter_nonempty {A} (s : list (list A)) :
  concat (List.filter (λ c, negb (is_empty c)) s) = concat s.
Proof. induction s as [|[|x c] s IH]; simpl; [done|done|by rewrite IH]. Qed.
#[global] Instance chunk_stream_source : ByteSource chunk_stream (@concat byte).
Proof.
  split. intros s n. unfold read_buf, chunk_stream_read. rewrite <- (concat_filter_nonempty s).
  assert (Forall (λ c, c ≠ []) (List.filter (λ c : bytes, negb (is_empty c)) s)) as Hne.
  { apply Forall_forall. intros c Hc%list_elem_of_In%filter_In. by destruct c, Hc. }
  destruct Hne as [|c s' Hc _].
  - exists [], []. split_and!; [done|done|rewrite len_nil; lia|by right].
  - exists (takeN n c), (dropN n c :: s'). split_and!; [done| |len_lia|].
    + simpl. by rewrite app_assoc, takeN_dropN.
    + intros Ht. left. apply (f_equal len) in Ht. rewrite len_takeN, len_nil in Ht.
      assert (len c ≠ 0) by by rewrite len_0. lia.
Qed.
