(* ===== verification/Str.v ===== *)
(** * Text: the [str] operations of the standard library the router uses

    A [&str] is the list of its UTF-8 bytes.  The separators and patterns the
    code searches for are ASCII, so a search over bytes finds what Rust's search
    over characters finds. *)

From S2P Require Import Prelude.
From Stdlib Require Import Strings.Byte.

(** ** Bytes of interest *)
Definition dot : byte := "."%byte.
Definition colon : byte := ":"%byte.
Definition star : byte := "*"%byte.

Definition in_byte_range (lo hi b : byte) : bool := (b2n lo <=? b2n b) && (b2n b <=? b2n hi).
Definition is_ascii_lowercase : byte → bool := in_byte_range "a"%byte "z"%byte.
Definition is_ascii_uppercase : byte → bool := in_byte_range "A"%byte "Z"%byte.
Definition is_ascii_digit : byte → bool := in_byte_range "0"%byte "9"%byte.

Definition to_lower (b : byte) : byte :=
  if is_ascii_uppercase b then n2b (b2n b + 32) else b.
Definition to_ascii_lowercase (s : bytes) : bytes := to_lower <$> s.

(** ** Searching and splitting *)
Definition contains (c : byte) (s : bytes) : bool := existsb (Byte.eqb c) s.

Fixpoint strip_prefix (p s : bytes) : option bytes :=
  match p, s with
  | [], _ => Some s
  | _ :: _, [] => None
  | a :: p', b :: s' => if Byte.eqb a b then strip_prefix p' s' else None
  end.

(** [s.split_once(c)]: around the first [c]. *)
Fixpoint split_once (c : byte) (s : bytes) : option (bytes * bytes) :=
  match s with
  | [] => None
  | b :: s' =>
    if Byte.eqb b c then Some ([], s')
    else '(l, r) ← split_once c s'; Some (b :: l, r)
  end.

(** [s.rsplit_once(c)]: around the last [c]. *)
Fixpoint rsplit_once (c : byte) (s : bytes) : option (bytes * bytes) :=
  match s with
  | [] => None
  | b :: s' =>
    match rsplit_once c s' with
    | Some (l, r) => Some (b :: l, r)
    | None => if Byte.eqb b c then Some ([], s') else None
    end
  end.

(** [s.split(c)]: every piece, at least one. *)
Fixpoint split (c : byte) (s : bytes) : list bytes :=
  match s with
  | [] => [[]]
  | b :: s' =>
    if Byte.eqb b c then [] :: split c s'
    else match split c s' with
         | [] => [[b]]
         | h :: t => (b :: h) :: t
         end
  end.

(** The inverse of [split]. *)
Fixpoint join (c : byte) (ls : list bytes) : bytes :=
  match ls with
  | [] => []
  | [l] => l
  | l :: ls' => l ++ c :: join c ls'
  end.

(** ** Numbers *)
Definition digit_val (b : byte) : option N :=
  if is_ascii_digit b then Some (b2n b - 48) else None.

Fixpoint parse_digits (max acc : N) (s : bytes) : option N :=
  match s with
  | [] => Some acc
  | b :: s' =>
    d ← digit_val b;
    if acc * 10 + d <=? max then parse_digits max (acc * 10 + d) s' else None
  end.

(** [s.parse::<uN>()], [max] being [uN::MAX]: an optional [+], then at least one
    digit, leading zeros allowed. *)
Definition parse_uint (max : N) (s : bytes) : option N :=
  match s with
  | [] => None
  | b :: s' =>
    if Byte.eqb b "+"%byte then
      match s' with [] => None | _ => parse_digits max 0 s' end
    else parse_digits max 0 s
  end.

(** [Display] of an unsigned integer; twenty digits hold a [u64]. *)
Definition digit (n : N) : byte := n2b (48 + n).
Fixpoint dec_digits (fuel : nat) (n : N) : bytes :=
  match fuel with
  | O => []
  | S f => if n <? 10 then [digit n] else dec_digits f (n / 10) ++ [digit (n mod 10)]
  end.
Definition dec (n : N) : bytes := dec_digits 20 n.

(** ** [str::from_utf8] *)
Definition is_cont : byte → bool := in_byte_range x80 xbf.

(** The ranges of a second byte, by first byte (Unicode table 3-7). *)
Definition utf8_second (b0 b1 : byte) : bool :=
  if Byte.eqb b0 xe0 then in_byte_range xa0 xbf b1
  else if Byte.eqb b0 xed then in_byte_range x80 x9f b1
  else if Byte.eqb b0 xf0 then in_byte_range x90 xbf b1
  else if Byte.eqb b0 xf4 then in_byte_range x80 x8f b1
  else is_cont b1.

Fixpoint utf8_valid (s : bytes) : bool :=
  match s with
  | [] => true
  | b0 :: s1 =>
    if b2n b0 <? 128 then utf8_valid s1
    else if in_byte_range xc2 xdf b0 then
      match s1 with b1 :: s2 => is_cont b1 && utf8_valid s2 | _ => false end
    else if in_byte_range xe0 xef b0 then
      match s1 with
      | b1 :: b2 :: s3 => utf8_second b0 b1 && is_cont b2 && utf8_valid s3
      | _ => false
      end
    else if in_byte_range xf0 xf4 b0 then
      match s1 with
      | b1 :: b2 :: b3 :: s4 =>
        utf8_second b0 b1 && is_cont b2 && is_cont b3 && utf8_valid s4
      | _ => false
      end
    else false
  end.

Definition from_utf8 (s : bytes) : option bytes := if utf8_valid s then Some s else None.

(** ** Lemmas *)
#[global] Arguments Byte.eqb : simpl never.
Lemma byte_eqb_eq a b : Byte.eqb a b = true ↔ a = b.
Proof. split; [apply Byte.byte_dec_bl|apply Byte.byte_dec_lb]. Qed.
Lemma byte_eqb_refl a : Byte.eqb a a = true.
Proof. by apply byte_eqb_eq. Qed.
Lemma byte_eqb_neq a b : Byte.eqb a b = false ↔ a ≠ b.
Proof. rewrite <- not_true_iff_false, byte_eqb_eq. done. Qed.
Lemma byte_eqb_spec a b : reflect (a = b) (Byte.eqb a b).
Proof. apply iff_reflect. symmetry. apply byte_eqb_eq. Qed.
Tactic Notation "case_byte" "as" simple_intropattern(p) :=
  match goal with
  | |- context [Byte.eqb ?a ?b] => destruct (byte_eqb_spec a b) as p
  | H : context [Byte.eqb ?a ?b] |- _ => destruct (byte_eqb_spec a b) as p
  end.
Tactic Notation "case_byte" := case_byte as [?|?].

Lemma contains_spec c s : contains c s = true ↔ c ∈ s.
Proof.
  unfold contains. rewrite existsb_exists. setoid_rewrite byte_eqb_eq.
  rewrite list_elem_of_In. naive_solver.
Qed.
Lemma contains_false c s : contains c s = false ↔ c ∉ s.
Proof. rewrite <- not_true_iff_false, contains_spec. done. Qed.
Lemma contains_app c s t : contains c (s ++ t) = contains c s || contains c t.
Proof. apply existsb_app. Qed.
Lemma contains_join_free c d ls :
  c ≠ d → Forall (λ l, c ∉ l) ls → c ∉ join d ls.
Proof.
  intros Hcd. induction 1 as [|l ls Hl Hls IH]; simpl; [apply not_elem_of_nil|].
  destruct ls as [|l' ls]; [done|].
  rewrite not_elem_of_app, not_elem_of_cons. done.
Qed.

Lemma strip_prefix_spec p s r : strip_prefix p s = Some r ↔ s = p ++ r.
Proof.
  revert s. induction p as [|a p IH]; intros s; simpl; [naive_solver|].
  destruct s as [|b s]; [done|]. case_byte; rewrite ?IH; naive_solver.
Qed.
Lemma strip_prefix_app p r : strip_prefix p (p ++ r) = Some r.
Proof. by apply strip_prefix_spec. Qed.

Lemma split_once_None c s : split_once c s = None ↔ c ∉ s.
Proof.
  induction s as [|b s IH]; simpl; [split; intros; [apply not_elem_of_nil|done]|].
  rewrite not_elem_of_cons. case_byte; [naive_solver|].
  destruct (split_once c s) as [[]|]; simpl; naive_solver.
Qed.
Lemma split_once_Some c s l r : split_once c s = Some (l, r) ↔ s = l ++ c :: r ∧ c ∉ l.
Proof.
  revert l. induction s as [|b s IH]; intros l; simpl.
  { split; [done|]. intros [H _]. by destruct l. }
  case_byte as [->|Hne].
  - split.
    + intros [= <- <-]. split; [done|apply not_elem_of_nil].
    + intros [H Hl]. destruct l as [|x l]; [naive_solver|].
      injection H as -> _. rewrite not_elem_of_cons in Hl. naive_solver.
  - destruct (split_once c s) as [[l' r']|] eqn:Hs; simpl.
    + split.
      * intros [= <- <-]. destruct (IH l') as [[-> ?] _]; [done|].
        split; [done|]. rewrite not_elem_of_cons. naive_solver.
      * intros [H Hl]. destruct l as [|x l]; [naive_solver|].
        injection H as -> Hs'. rewrite not_elem_of_cons in Hl.
        destruct (IH l) as [_ H2]. specialize (H2 (conj Hs' (proj2 Hl))). naive_solver.
    + split; [done|]. intros [H Hl]. destruct l as [|x l]; [naive_solver|].
      injection H as -> Hs'. rewrite not_elem_of_cons in Hl.
      destruct (IH l) as [_ H2]. specialize (H2 (conj Hs' (proj2 Hl))). done.
Qed.

Lemma rsplit_once_None c s : rsplit_once c s = None ↔ c ∉ s.
Proof.
  induction s as [|b s IH]; simpl; [split; intros; [apply not_elem_of_nil|done]|].
  rewrite not_elem_of_cons. destruct (rsplit_once c s) as [[]|]; [naive_solver|].
  case_byte; naive_solver.
Qed.
Lemma rsplit_once_Some c s l r : rsplit_once c s = Some (l, r) ↔ s = l ++ c :: r ∧ c ∉ r.
Proof.
  revert l. induction s as [|b s IH]; intros l; simpl.
  { split; [done|]. intros [H _]. by destruct l. }
  destruct (rsplit_once c s) as [[l' r']|] eqn:Hs.
  - split.
    + intros [= <- <-]. destruct (IH l') as [[-> ?] _]; done.
    + intros [H Hr]. destruct l as [|x l].
      * injection H as -> ->. apply rsplit_once_None in Hr. congruence.
      * injection H as -> Hs'. destruct (IH l) as [_ H2].
        specialize (H2 (conj Hs' Hr)). naive_solver.
  - assert (c ∉ s) as Hc by by apply rsplit_once_None.
    case_byte as [->|Hne].
    + split; [by intros [= <- <-]|]. intros [H _]. destruct l as [|x l]; [naive_solver|].
      injection H as -> ->. rewrite not_elem_of_app, not_elem_of_cons in Hc. naive_solver.
    + split; [done|]. intros [H _]. destruct l as [|x l]; [naive_solver|].
      injection H as -> ->. rewrite not_elem_of_app, not_elem_of_cons in Hc. naive_solver.
Qed.

Lemma split_nonempty c s : split c s ≠ [].
Proof. destruct s as [|b s]; simpl; [done|]. case_byte; [done|]. by destruct (split c s). Qed.
Lemma join_cons c l ls : ls ≠ [] → join c (l :: ls) = l ++ c :: join c ls.
Proof. by destruct ls. Qed.
Lemma join_split c s : join c (split c s) = s.
Proof.
  induction s as [|b s IH]; [done|]. simpl. pose proof (split_nonempty c s) as Hne.
  case_byte as [->|].
  - rewrite join_cons by done. by rewrite IH.
  - destruct (split c s) as [|h [|h' t]]; [done|simpl in *; congruence|].
    rewrite join_cons in * by done. simpl. by rewrite <- IH.
Qed.
Lemma split_free c s : Forall (λ l, c ∉ l) (split c s).
Proof.
  induction s as [|b s IH]; simpl; [constructor; [apply not_elem_of_nil|done]|].
  case_byte as [->|]; [constructor; [apply not_elem_of_nil|done]|].
  destruct (split c s) as [|h t]; constructor.
  - apply not_elem_of_cons. split; [done|apply not_elem_of_nil].
  - done.
  - inversion IH; subst. apply not_elem_of_cons. done.
  - by inversion IH.
Qed.
Lemma split_app c l r :
  c ∉ l → split c (l ++ c :: r) = l :: split c r.
Proof.
  induction l as [|b l IH]; intros Hl; simpl; [by rewrite byte_eqb_refl|].
  apply not_elem_of_cons in Hl as [Hb Hl]. rewrite IH by done.
  case_byte; [congruence|done].
Qed.
Lemma split_single c l : c ∉ l → split c l = [l].
Proof.
  induction l as [|b l IH]; intros Hl; simpl; [done|].
  apply not_elem_of_cons in Hl as [Hb Hl]. rewrite IH by done.
  case_byte; [congruence|done].
Qed.
Lemma split_join c ls : ls ≠ [] → Forall (λ l, c ∉ l) ls → split c (join c ls) = ls.
Proof.
  intros Hne Hf. induction Hf as [|l ls Hl Hls IH]; [done|].
  destruct ls as [|l' ls]; [by apply split_single|].
  rewrite join_cons, split_app, IH by done. done.
Qed.
Lemma split_once_split c s l r : split_once c s = Some (l, r) → split c s = l :: split c r.
Proof. intros [-> Hl]%split_once_Some. by apply split_app. Qed.

(** *** Lowercasing *)
Lemma b2n_to_lower b :
  b2n (to_lower b) = if is_ascii_uppercase b then b2n b + 32 else b2n b.
Proof.
  unfold to_lower, is_ascii_uppercase, in_byte_range.
  change (b2n "A"%byte) with 65. change (b2n "Z"%byte) with 90.
  destruct (N.leb_spec 65 (b2n b)); simpl; [|done].
  destruct (N.leb_spec (b2n b) 90); simpl; [|done].
  rewrite b2n_n2b, N.mod_small; lia.
Qed.
Lemma to_lower_not_upper b : is_ascii_uppercase (to_lower b) = false.
Proof. by destruct b. Qed.
Lemma to_lower_id b : is_ascii_uppercase b = false → to_lower b = b.
Proof. unfold to_lower. by intros ->. Qed.
Lemma to_lower_idem b : to_lower (to_lower b) = to_lower b.
Proof. apply to_lower_id, to_lower_not_upper. Qed.
Lemma to_ascii_lowercase_idem s :
  to_ascii_lowercase (to_ascii_lowercase s) = to_ascii_lowercase s.
Proof.
  unfold to_ascii_lowercase. rewrite <- list_fmap_compose. apply list_fmap_ext.
  intros ? b _. apply to_lower_idem.
Qed.
Lemma to_ascii_lowercase_id s :
  Forall (λ b, is_ascii_uppercase b = false) s → to_ascii_lowercase s = s.
Proof.
  unfold to_ascii_lowercase. induction 1; [done|]. rewrite fmap_cons.
  f_equal; [by apply to_lower_id|done].
Qed.
Lemma to_ascii_lowercase_app s t :
  to_ascii_lowercase (s ++ t) = to_ascii_lowercase s ++ to_ascii_lowercase t.
Proof. apply fmap_app. Qed.
Lemma len_to_ascii_lowercase s : len (to_ascii_lowercase s) = len s.
Proof. unfold len, to_ascii_lowercase. by rewrite length_fmap. Qed.

(** *** Numbers *)
Lemma b2n_digit n : n < 10 → b2n (digit n) = 48 + n.
Proof. intros. unfold digit. rewrite b2n_n2b, N.mod_small; lia. Qed.
Lemma digit_val_digit n : n < 10 → digit_val (digit n) = Some n.
Proof.
  intros Hn. unfold digit_val, is_ascii_digit, in_byte_range. rewrite b2n_digit by done.
  change (b2n "0"%byte) with 48. change (b2n "9"%byte) with 57.
  repeat (case_N; simpl; try lia). f_equal. lia.
Qed.
Lemma digit_val_lt b d : digit_val b = Some d → d < 10.
Proof.
  unfold digit_val, is_ascii_digit, in_byte_range.
  change (b2n "0"%byte) with 48. change (b2n "9"%byte) with 57.
  case_N; simpl; [|done]. case_N; simpl; [|done]. intros [= <-]. lia.
Qed.
Lemma parse_digits_app max acc s t :
  parse_digits max acc (s ++ t) = (acc' ← parse_digits max acc s; parse_digits max acc' t).
Proof.
  revert acc. induction s as [|b s IH]; intros acc; simpl; [done|].
  destruct (digit_val b) as [d|]; simpl; [|done]. case_N; [apply IH|done].
Qed.
Lemma parse_digits_max max acc s n : acc ≤ max → parse_digits max acc s = Some n → n ≤ max.
Proof.
  revert acc. induction s as [|b s IH]; intros acc Hacc; simpl; [naive_solver|].
  destruct (digit_val b) as [d|]; simpl; [|done]. case_N; [by apply IH|done].
Qed.
Lemma parse_uint_max max s n : parse_uint max s = Some n → n ≤ max.
Proof.
  unfold parse_uint. destruct s as [|b s]; [done|].
  case_byte; [destruct s; [done|]|]; apply parse_digits_max; lia.
Qed.
Lemma dec_digits_S fuel n :
  dec_digits (S fuel) n =
  if n <? 10 then [digit n] else dec_digits fuel (n / 10) ++ [digit (n mod 10)].
Proof. done. Qed.
Lemma parse_dec_digits max fuel n :
  n ≤ max → n < 10 ^ N.of_nat fuel → parse_digits max 0 (dec_digits fuel n) = Some n.
Proof.
  revert n. induction fuel as [|fuel IH]; intros n Hmax Hn.
  { change (10 ^ N.of_nat 0) with 1 in Hn. simpl. f_equal. lia. }
  rewrite dec_digits_S. destruct (N.ltb_spec n 10) as [H10|H10].
  - simpl. rewrite digit_val_digit by done. simpl.
    case_N; [f_equal; lia|lia].
  - rewrite Nat2N.inj_succ, N.pow_succ_r' in Hn.
    assert (n / 10 < 10 ^ N.of_nat fuel) by (apply N.Div0.div_lt_upper_bound; lia).
    assert (n / 10 ≤ max) by (pose proof (N.Div0.div_le_upper_bound n 10 n); lia).
    rewrite parse_digits_app, IH by done. simpl.
    rewrite digit_val_digit by (apply N.mod_lt; done). simpl.
    pose proof (N.div_mod n 10). case_N; [f_equal|]; lia.
Qed.
Lemma dec_digits_are_digits fuel n b :
  b ∈ dec_digits fuel n → is_ascii_digit b = true.
Proof.
  assert (∀ m, m < 10 → is_ascii_digit (digit m) = true) as Hd.
  { intros m Hm. unfold is_ascii_digit, in_byte_range. rewrite b2n_digit by done.
    change (b2n "0"%byte) with 48. change (b2n "9"%byte) with 57.
    repeat (case_N; simpl; try lia); done. }
  revert n. induction fuel as [|fuel IH]; intros n; [by intros ?%elem_of_nil|].
  rewrite dec_digits_S. destruct (N.ltb_spec n 10).
  - intros ->%list_elem_of_singleton. by apply Hd.
  - rewrite elem_of_app, list_elem_of_singleton. intros [?| ->]; [by eapply IH|].
    apply Hd, N.mod_lt. done.
Qed.
Lemma dec_nonempty n : dec n ≠ [].
Proof.
  unfold dec. rewrite dec_digits_S. case_N; [done|]. by destruct (dec_digits 19 (n / 10)).
Qed.
Lemma parse_uint_dec max n :
  n ≤ max → n ≤ u64_max → parse_uint max (dec n) = Some n.
Proof.
  intros Hmax Hn. pose proof (dec_nonempty n).
  assert (parse_digits max 0 (dec n) = Some n) as Hp.
  { apply parse_dec_digits; [done|]. unfold u64_max in Hn.
    change (10 ^ N.of_nat 20) with 100000000000000000000. lia. }
  unfold parse_uint. destruct (dec n) as [|b s] eqn:Hs; [done|].
  case_byte as [->|]; [|done]. exfalso.
  pose proof (dec_digits_are_digits 20 n "+"%byte) as Hd.
  unfold dec in Hs. rewrite Hs in Hd. by specialize (Hd ltac:(left)).
Qed.
Lemma dec_free c n : is_ascii_digit c = false → c ∉ dec n.
Proof. intros Hc Hin. apply dec_digits_are_digits in Hin. congruence. Qed.

(** *** UTF-8 *)
Lemma utf8_valid_ascii s : Forall (λ b, b2n b < 128) s → utf8_valid s = true.
Proof. induction 1 as [|b s Hb Hs IH]; simpl; [done|]. by case_N; [|lia]. Qed.
Lemma from_utf8_Some s t : from_utf8 s = Some t → t = s.
Proof. unfold from_utf8. case_match; naive_solver. Qed.
