(* ===== verification/Net.v ===== *)
(** * IP addresses: [std::net] parsing and printing, as the router uses them

    The recursive-descent parser of [core::net]: [Ipv4Addr], [Ipv6Addr] and
    [IpAddr] [FromStr], and the [Display] of an address. *)

From S2P Require Import Prelude Str.
From Stdlib Require Import Strings.Byte.

(** Four octets and eight 16-bit groups. *)
Inductive IpAddr :=
| V4 (a b c d : N)
| V6 (groups : list N).

#[global] Instance IpAddr_eq_dec : EqDecision IpAddr.
Proof. solve_decision. Defined.
#[global] Program Instance IpAddr_countable : Countable IpAddr :=
  inj_countable (λ ip, match ip with V4 a b c d => inl (a, b, c, d) | V6 gs => inr gs end)
    (λ x, Some match x with inl (a, b, c, d) => V4 a b c d | inr gs => V6 gs end) _.
Next Obligation. by intros []. Qed.

(** A parser consumes a prefix or leaves the input alone. *)
Definition parser A := bytes → option (A * bytes).

Definition read_given_char (c : byte) : parser unit := λ p,
  match p with b :: p' => if Byte.eqb b c then Some ((), p') else None | [] => None end.

Definition hex_val (b : byte) : option N :=
  if is_ascii_digit b then Some (b2n b - 48)
  else if in_byte_range "a"%byte "f"%byte b then Some (b2n b - 87)
  else if in_byte_range "A"%byte "F"%byte b then Some (b2n b - 55)
  else None.
Definition to_digit (radix : N) (b : byte) : option N :=
  d ← hex_val b; if d <? radix then Some d else None.

(** The digits of a number and its value, [None] past [fuel] digits. *)
Fixpoint read_digits (fuel : nat) (radix acc count : N) (p : bytes) {struct p} :
    option (N * N * bytes) :=
  match p with
  | b :: p' =>
    match to_digit radix b with
    | Some d =>
      match fuel with
      | O => None
      | S f => read_digits f radix (acc * radix + d) (count + 1) p'
      end
    | None => Some (acc, count, p)
    end
  | [] => Some (acc, count, p)
  end.

Definition read_number (radix : N) (max_digits : nat) (allow_zero_prefix : bool) (max : N) :
    parser N := λ p,
  let has_leading_zero := match p with b :: _ => Byte.eqb b "0"%byte | [] => false end in
  '(v, count, p') ← read_digits max_digits radix 0 0 p;
  if count =? 0 then None
  else if negb allow_zero_prefix && has_leading_zero && (1 <? count) then None
  else if v <=? max then Some (v, p') else None.

Definition read_separator {A} (c : byte) (i : nat) (inner : parser A) : parser A := λ p,
  match i with
  | O => inner p
  | S _ => '(_, p') ← read_given_char c p; inner p'
  end.

Definition read_octet (i : nat) : parser N :=
  read_separator dot i (read_number 10 3 false 255).
Definition read_ipv4_addr : parser (N * N * N * N) := λ p,
  '(a, p) ← read_octet 0 p;
  '(b, p) ← read_octet 1 p;
  '(c, p) ← read_octet 2 p;
  '(d, p) ← read_octet 3 p;
  Some ((a, b, c, d), p).

(** Up to [slots] groups from position [i] of [limit]; the flag says an embedded
    IPv4 address ended the run. *)
Fixpoint read_groups (limit i slots : nat) (p : bytes) : list N * bool * bytes :=
  match slots with
  | O => ([], false, p)
  | S s =>
    let v4 := if (i <? limit - 1)%nat then read_separator colon i read_ipv4_addr p else None in
    match v4 with
    | Some ((a, b, c, d), p') => ([256 * a + b; 256 * c + d], true, p')
    | None =>
      match read_separator colon i (read_number 16 4 true 65535) p with
      | Some (g, p') =>
        let '(gs, f, p'') := read_groups limit (S i) s p' in (g :: gs, f, p'')
      | None => ([], false, p)
      end
    end
  end.

Definition read_ipv6_addr : parser (list N) := λ p,
  let '(head, head_ipv4, p) := read_groups 8 0 8 p in
  if (length head =? 8)%nat then Some (head, p)
  else if head_ipv4 then None
  else
    '(_, p) ← read_given_char colon p;
    '(_, p) ← read_given_char colon p;
    let limit := (8 - (length head + 1))%nat in
    let '(tail, _, p) := read_groups limit 0 limit p in
    Some (head ++ replicate (8 - length head - length tail)%nat 0 ++ tail, p).

(** [parse_with]: the whole text must be consumed. *)
Definition parse_all {A} (inner : parser A) (s : bytes) : option A :=
  match inner s with Some (a, []) => Some a | _ => None end.

Definition parse_ipv6 (s : bytes) : option (list N) := parse_all read_ipv6_addr s.
Definition parse_ip (s : bytes) : option IpAddr :=
  parse_all (λ p,
    match read_ipv4_addr p with
    | Some ((a, b, c, d), p') => Some (V4 a b c d, p')
    | None => '(gs, p') ← read_ipv6_addr p; Some (V6 gs, p')
    end) s.

(** ** Display *)
Definition fmt_v4 (a b c d : N) : bytes :=
  join dot [dec a; dec b; dec c; dec d].

Definition hex_digit (n : N) : byte := if n <? 10 then n2b (48 + n) else n2b (87 + n).
Fixpoint hex_digits (fuel : nat) (n : N) : bytes :=
  match fuel with
  | O => []
  | S f => if n <? 16 then [hex_digit n] else hex_digits f (n / 16) ++ [hex_digit (n mod 16)]
  end.
Definition fmt_groups (gs : list N) : bytes := join colon (hex_digits 4 <$> gs).

(** The first longest run of zero groups: its start and length. *)
Fixpoint longest_zeroes (i : nat) (cur best : nat * nat) (gs : list N) : nat * nat :=
  match gs with
  | [] => best
  | g :: gs' =>
    if g =? 0 then
      let cur := if (cur.2 =? 0)%nat then (i, 1%nat) else (cur.1, S cur.2) in
      longest_zeroes (S i) cur (if (best.2 <? cur.2)%nat then cur else best) gs'
    else longest_zeroes (S i) (0%nat, 0%nat) best gs'
  end.

Definition fmt_v6 (gs : list N) : bytes :=
  match gs with
  | [0; 0; 0; 0; 0; 65535; ab; cd] =>
    lit "::ffff:" ++ fmt_v4 (ab / 256) (ab mod 256) (cd / 256) (cd mod 256)
  | _ =>
    let '(start, n) := longest_zeroes 0 (0%nat, 0%nat) (0%nat, 0%nat) gs in
    if (1 <? n)%nat then
      fmt_groups (take start gs) ++ lit "::" ++ fmt_groups (drop (start + n) gs)
    else fmt_groups gs
  end.

Example parse_ip_v4 : parse_ip (lit "10.0.0.5") = Some (V4 10 0 0 5).
Proof. vm_compute. reflexivity. Qed.
Example parse_ip_octal : parse_ip (lit "10.0.0.05") = None.
Proof. vm_compute. reflexivity. Qed.
Example parse_ip_v6 : parse_ip (lit "2001:db8::1:0:0:1") = Some (V6 [8193; 3512; 0; 0; 1; 0; 0; 1]).
Proof. vm_compute. reflexivity. Qed.
Example parse_ip_v6_mapped : parse_ip (lit "::ffff:1.2.3.4") = Some (V6 [0; 0; 0; 0; 0; 65535; 258; 772]).
Proof. vm_compute. reflexivity. Qed.
Example fmt_v6_ex : fmt_v6 [8193; 3512; 0; 0; 1; 0; 0; 1] = lit "2001:db8::1:0:0:1".
Proof. vm_compute. reflexivity. Qed.
Example fmt_v6_lo : fmt_v6 [0; 0; 0; 0; 0; 0; 0; 1] = lit "::1".
Proof. vm_compute. reflexivity. Qed.

(** ** Lemmas *)

(** Text without a colon parses, if at all, as IPv4. *)
Lemma read_groups_no_colon limit slots p gs f p' :
  colon ∉ p → read_groups limit 1 slots p = (gs, f, p') → gs = [] ∧ f = false ∧ p' = p.
Proof.
  intros Hp. assert (read_given_char colon p = None) as Hc.
  { destruct p as [|b p]; [done|]. simpl. case_byte as [->|]; [|done].
    exfalso. apply Hp. left. }
  destruct slots; simpl; [naive_solver|].
  unfold read_separator. rewrite Hc. simpl. destruct (1 <? limit - 1)%nat; naive_solver.
Qed.

Lemma read_digits_suffix fuel radix acc count p v n p' :
  read_digits fuel radix acc count p = Some (v, n, p') → p' `suffix_of` p.
Proof.
  revert fuel acc count. induction p as [|b p IH]; intros fuel acc count; simpl.
  { intros [= _ _ <-]. done. }
  destruct (to_digit radix b); [|by intros [= _ _ <-]].
  destruct fuel; [done|]. intros ?%IH. by apply suffix_cons_r.
Qed.
Lemma read_number_suffix radix m z max p v p' :
  read_number radix m z max p = Some (v, p') → p' `suffix_of` p.
Proof.
  unfold read_number. destruct (read_digits m radix 0 0 p) as [[[v' n] p1]|] eqn:Hr; [|done].
  simpl. repeat case_match; intros; simplify_eq; by eapply read_digits_suffix.
Qed.
Lemma read_separator_suffix {A} c i (inner : parser A) p v p' :
  (∀ q w q', inner q = Some (w, q') → q' `suffix_of` q) →
  read_separator c i inner p = Some (v, p') → p' `suffix_of` p.
Proof.
  intros Hi. unfold read_separator. destruct i; [apply Hi|].
  destruct p as [|b p]; simpl; [done|]. case_byte; simpl; [|done].
  intros ?%Hi. by apply suffix_cons_r.
Qed.
Lemma read_ipv4_suffix p v p' : read_ipv4_addr p = Some (v, p') → p' `suffix_of` p.
Proof.
  unfold read_ipv4_addr, read_octet. intros H.
  repeat match goal with
  | H : (_ ≫= _) = Some _ |- _ => apply bind_Some in H as ([] & ? & H)
  | H : read_separator _ _ _ _ = _ |- _ =>
    apply read_separator_suffix in H; [|by intros; eapply read_number_suffix]
  end. simplify_eq. by do 3 (etrans; [eassumption|]).
Qed.

Lemma suffix_free {c : byte} {p p' : bytes} : p' `suffix_of` p → c ∉ p → c ∉ p'.
Proof. intros [k ->]. rewrite not_elem_of_app. naive_solver. Qed.

Lemma parse_ipv6_no_colon s : colon ∉ s → read_ipv6_addr s = None.
Proof.
  intros Hs. unfold read_ipv6_addr.
  assert (∀ p, colon ∉ p → read_given_char colon p = None) as Hc.
  { intros p Hp. destruct p as [|b p]; [done|]. simpl. case_byte as [->|]; [|done].
    exfalso. apply Hp. left. }
  destruct (read_groups 8 0 8 s) as [[gs f] p] eqn:Hr.
  change (read_groups 8 0 8 s) with
    (match read_ipv4_addr s with
     | Some ((a, b, c, d), p') => ([256 * a + b; 256 * c + d], true, p')
     | None => match read_number 16 4 true 65535 s with
               | Some (g, p') => let '(gs, f, p'') := read_groups 8 1 7 p' in (g :: gs, f, p'')
               | None => ([], false, s) end end) in Hr.
  destruct (read_ipv4_addr s) as [[[[[a b] c] d] p1]|].
  { by simplify_eq. }
  destruct (read_number 16 4 true 65535 s) as [[g p1]|] eqn:Hn.
  - assert (colon ∉ p1) by by eapply suffix_free; [eapply read_number_suffix|].
    destruct (read_groups 8 1 7 p1) as [[gs1 f1] p2] eqn:Hg.
    apply read_groups_no_colon in Hg as (-> & -> & ->); [|done]. simplify_eq. simpl.
    by rewrite Hc.
  - simplify_eq. simpl. by rewrite Hc.
Qed.

(** *** IPv4: the printed address reads back *)
Lemma to_digit_10 b : to_digit 10 b = digit_val b.
Proof. by destruct b. Qed.

Lemma read_digits_dec s : ∀ fuel acc count rest,
  Forall (λ b, is_ascii_digit b = true) s →
  (length s ≤ fuel)%nat →
  match rest with b :: _ => is_ascii_digit b = false | [] => True end →
  read_digits fuel 10 acc count (s ++ rest) =
  (v ← parse_digits u64_max acc s; Some (v, count + len s, rest)) ∨ parse_digits u64_max acc s = None.
Proof.
  induction s as [|b s IH]; intros fuel acc count rest Hs Hf Hr.
  - left. simpl. rewrite len_nil, N.add_0_r. destruct rest as [|b rest]; [done|].
    simpl. rewrite to_digit_10. unfold digit_val. by rewrite Hr.
  - inversion Hs as [|? ? Hb Hs']; subst. destruct fuel as [|fuel]; simpl in *; [lia|].
    rewrite to_digit_10. unfold digit_val. rewrite Hb. simpl.
    case_N; [|by right]. rewrite len_cons.
    destruct (IH fuel (acc * 10 + (b2n b - 48)) (count + 1) rest) as [->|?]; [done|lia|done| |by right].
    left. destruct (parse_digits _ _ s); simpl; [|done]. do 3 f_equal. lia.
Qed.

Lemma dec_small n : n < 256 →
  (length (dec n) ≤ 3)%nat ∧ len (dec n) ≠ 0 ∧
  match dec n with b :: _ => Byte.eqb b "0"%byte && (1 <? len (dec n)) = false | [] => False end.
Proof.
  intros Hn.
  assert (n ∈ N.of_nat <$> seq 0 256) as Hin.
  { apply list_elem_of_fmap. exists (N.to_nat n). split; [lia|]. apply elem_of_seq. lia. }
  revert n Hin Hn. apply (Forall_forall (λ n, n < 256 → _) _).
  set (P := λ n, (length (dec n) <=? 3)%nat && negb (len (dec n) =? 0) &&
    match dec n with b :: _ => negb (Byte.eqb b "0"%byte && (1 <? len (dec n))) | [] => false end).
  assert (forallb P (N.of_nat <$> seq 0 256) = true) as Hall by (vm_compute; reflexivity).
  rewrite forallb_forall in Hall. apply Forall_forall. intros n Hin _.
  apply list_elem_of_In, Hall in Hin. unfold P in Hin.
  apply andb_true_iff in Hin as [[H1%Nat.leb_le H2%negb_true_iff%N.eqb_neq]%andb_true_iff H3].
  split_and!; [done|done|]. destruct (dec n); [done|]. by apply negb_true_iff.
Qed.

Lemma read_number_dec n rest :
  n < 256 →
  match rest with b :: _ => is_ascii_digit b = false | [] => True end →
  read_number 10 3 false 255 (dec n ++ rest) = Some (n, rest).
Proof.
  intros Hn Hr. destruct (dec_small n Hn) as (Hl & H0 & Hz). unfold read_number.
  destruct (read_digits_dec (dec n) 3 0 0 rest) as [->|HN]; [|done|done| |].
  { apply Forall_forall. intros b Hb. by eapply dec_digits_are_digits. }
  2: { unfold dec in HN. rewrite parse_dec_digits in HN;
       [done|unfold u64_max; lia|change (10 ^ N.of_nat 20) with 100000000000000000000; lia]. }
  assert (parse_digits u64_max 0 (dec n) = Some n) as ->.
  { apply parse_dec_digits; [unfold u64_max; lia|].
    change (10 ^ N.of_nat 20) with 100000000000000000000; lia. }
  simpl mbind. cbv beta iota. rewrite N.add_0_l.
  rewrite (proj2 (N.eqb_neq (len (dec n)) 0)) by done.
  destruct (dec n) as [|b s] eqn:Hd; [done|]. simpl app. cbv iota beta. rewrite Hz.
  case_N; [done|lia].
Qed.

Lemma read_ipv4_fmt a b c d rest :
  a < 256 → b < 256 → c < 256 → d < 256 →
  match rest with b :: _ => is_ascii_digit b = false | [] => True end →
  read_ipv4_addr (fmt_v4 a b c d ++ rest) = Some ((a, b, c, d), rest).
Proof.
  intros Ha Hb Hc Hd Hr. unfold fmt_v4. simpl. rewrite <- !app_assoc. simpl.
  rewrite <- !app_assoc. simpl. rewrite <- !app_assoc. unfold read_ipv4_addr, read_octet, read_separator.
  rewrite read_number_dec by done. simpl. rewrite read_number_dec by done. simpl.
  rewrite read_number_dec by done. simpl. by rewrite read_number_dec.
Qed.
Lemma parse_ip_fmt_v4 a b c d :
  a < 256 → b < 256 → c < 256 → d < 256 → parse_ip (fmt_v4 a b c d) = Some (V4 a b c d).
Proof.
  intros. unfold parse_ip, parse_all.
  rewrite <- (app_nil_r (fmt_v4 a b c d)), read_ipv4_fmt by done. done.
Qed.

(** *** What a parse returns is an address *)
Definition wf_ip (ip : IpAddr) : Prop :=
  match ip with
  | V4 a b c d => a < 256 ∧ b < 256 ∧ c < 256 ∧ d < 256
  | V6 gs => length gs = 8%nat ∧ Forall (λ g, g < 65536) gs
  end.

Lemma read_number_max radix m z max p v p' :
  read_number radix m z max p = Some (v, p') → v ≤ max.
Proof.
  unfold read_number. destruct (read_digits m radix 0 0 p) as [[[v' n] p1]|]; [|done].
  simpl. destruct (N.leb_spec v' max); repeat case_match; intros; by simplify_eq.
Qed.
Lemma read_separator_inv {A} c i (inner : parser A) p v p' :
  read_separator c i inner p = Some (v, p') → ∃ q, inner q = Some (v, p').
Proof.
  unfold read_separator. destruct i; [eauto|].
  intros ([] & _ & ?)%bind_Some. eauto.
Qed.
Lemma read_octet_max i p v p' : read_octet i p = Some (v, p') → v < 256.
Proof. intros (q & Hq)%read_separator_inv. apply read_number_max in Hq. lia. Qed.
Lemma read_ipv4_wf p a b c d p' :
  read_ipv4_addr p = Some ((a, b, c, d), p') → a < 256 ∧ b < 256 ∧ c < 256 ∧ d < 256.
Proof.
  unfold read_ipv4_addr. intros H.
  repeat match goal with
  | H : (_ ≫= _) = Some _ |- _ => apply bind_Some in H as ([] & ? & H)
  | H : read_octet _ _ = _ |- _ => apply read_octet_max in H
  end. by simplify_eq.
Qed.
Lemma read_groups_wf limit slots : ∀ i p gs f p',
  slots = (limit - i)%nat → read_groups limit i slots p = (gs, f, p') →
  (length gs ≤ slots)%nat ∧ Forall (λ g, g < 65536) gs.
Proof.
  induction slots as [|s IH]; intros i p gs f p' Hs; simpl; [by intros [= <- _ _]|].
  destruct (if (i <? limit - 1)%nat then _ else None) as [[[[[a b] c] d] p1]|] eqn:H4.
  - intros [= <- _ _]. destruct (Nat.ltb_spec i (limit - 1)); [|done].
    apply read_separator_inv in H4 as (q & Hq). apply read_ipv4_wf in Hq as (?&?&?&?).
    simpl. split; [lia|]. repeat constructor; lia.
  - destruct (read_separator colon i (read_number 16 4 true 65535) p) as [[g p1]|] eqn:Hg.
    2: { intros [= <- _ _]. simpl. split; [lia|done]. }
    apply read_separator_inv in Hg as (q & Hq). apply read_number_max in Hq.
    destruct (read_groups limit (S i) s p1) as [[gs1 f1] p2] eqn:Hr.
    intros [= <- _ _]. apply IH in Hr as [? ?]; [|lia]. simpl. split; [lia|].
    constructor; [lia|done].
Qed.
Lemma read_ipv6_wf p gs p' :
  read_ipv6_addr p = Some (gs, p') → length gs = 8%nat ∧ Forall (λ g, g < 65536) gs.
Proof.
  unfold read_ipv6_addr. destruct (read_groups 8 0 8 p) as [[h f] p1] eqn:Hh.
  apply read_groups_wf in Hh as [Hl Hf]; [|done].
  destruct (Nat.eqb_spec (length h) 8); [by intros [= <- _]|]. destruct f; [done|].
  intros ([] & _ & ([] & _ & H)%bind_Some)%bind_Some.
  destruct (read_groups _ 0 _ _) as [[t ft] p4] eqn:Ht. injection H as <- _.
  apply read_groups_wf in Ht as [Htl Htf]; [|lia].
  rewrite !length_app, length_replicate. split; [lia|].
  apply Forall_app_2; [done|]. apply Forall_app_2; [|done].
  apply Forall_replicate. lia.
Qed.
Lemma parse_ip_wf s ip : parse_ip s = Some ip → wf_ip ip.
Proof.
  unfold parse_ip, parse_all. destruct (read_ipv4_addr s) as [[[[[a b] c] d] [|]]|] eqn:H4.
  - intros [= <-]. by eapply read_ipv4_wf.
  - done.
  - destruct (read_ipv6_addr s) as [[gs [|]]|] eqn:H6; simpl; try done.
    intros [= <-]. by eapply read_ipv6_wf.
Qed.

(** *** Lowercasing does not change an IPv4 reading *)
Definition lower_rest {A} (r : A * bytes) : A * bytes := (r.1, to_ascii_lowercase r.2).

Lemma read_digits_lower fuel acc count s :
  read_digits fuel 10 acc count (to_ascii_lowercase s) =
  lower_rest <$> read_digits fuel 10 acc count s.
Proof.
  revert fuel acc count. induction s as [|b s IH]; intros fuel acc count; [done|].
  change (to_ascii_lowercase (b :: s)) with (to_lower b :: to_ascii_lowercase s). simpl.
  assert (to_digit 10 (to_lower b) = to_digit 10 b) as -> by by destruct b.
  destruct (to_digit 10 b); [destruct fuel; [done|apply IH]|done].
Qed.
Lemma read_number_lower m z max s :
  read_number 10 m z max (to_ascii_lowercase s) = lower_rest <$> read_number 10 m z max s.
Proof.
  unfold read_number. rewrite read_digits_lower.
  assert (match to_ascii_lowercase s with b :: _ => Byte.eqb b "0"%byte | [] => false end
    = match s with b :: _ => Byte.eqb b "0"%byte | [] => false end) as ->.
  { destruct s as [|b s]; [done|]. by destruct b. }
  destruct (read_digits m 10 0 0 s) as [[[v n] r]|]; simpl; [|done].
  repeat case_match; done.
Qed.
Lemma read_octet_lower i s :
  read_octet i (to_ascii_lowercase s) = lower_rest <$> read_octet i s.
Proof.
  unfold read_octet, read_separator. destruct i; [apply read_number_lower|].
  destruct s as [|b s]; [done|].
  change (to_ascii_lowercase (b :: s)) with (to_lower b :: to_ascii_lowercase s). simpl.
  assert (Byte.eqb (to_lower b) dot = Byte.eqb b dot) as -> by by destruct b.
  destruct (Byte.eqb b dot); simpl; [apply read_number_lower|done].
Qed.
#[local] Arguments read_octet : simpl never.
Lemma read_ipv4_lower s :
  read_ipv4_addr (to_ascii_lowercase s) = lower_rest <$> read_ipv4_addr s.
Proof.
  unfold read_ipv4_addr.
  repeat (rewrite read_octet_lower;
    match goal with |- context [read_octet ?i ?t] => destruct (read_octet i t) as [[? ?]|] end;
    simpl; [|done]).
  done.
Qed.

Lemma parse_ip_lower_None s :
  colon ∉ to_ascii_lowercase s → parse_ip s = None → parse_ip (to_ascii_lowercase s) = None.
Proof.
  unfold parse_ip, parse_all. rewrite read_ipv4_lower. intros Hc.
  destruct (read_ipv4_addr s) as [[[[[a b] c] d] r]|]; simpl.
  - by destruct r.
  - intros _. by rewrite parse_ipv6_no_colon.
Qed.
