(* ===== verification/F64.v ===== *)
(** * Floating point: [f64] as the router uses it

    The binary64 operations of Rust are those of IEEE 754, rounding to nearest,
    ties to even: [SpecFloat]'s, at 53 bits of precision.  Each is given its
    error bound, and the conversions of [std::time::Duration] are added. *)

From Stdlib Require Import ZArith QArith Qpower Qabs Lqa SpecFloat.
From S2P Require Import Prelude Async.

Declare Scope f64_scope.
Delimit Scope f64_scope with f64.

Abbreviation f64 := spec_float.
Abbreviation prec := 53%Z.
Abbreviation emax := 1024%Z.
Abbreviation fexp64 := (fexp prec emax).
Definition f64_add : f64 → f64 → f64 := SFadd prec emax.
Definition f64_sub : f64 → f64 → f64 := SFsub prec emax.
Definition f64_mul : f64 → f64 → f64 := SFmul prec emax.
Definition f64_div : f64 → f64 → f64 := SFdiv prec emax.
Notation "x + y" := (f64_add x y) : f64_scope.
Notation "x - y" := (f64_sub x y) : f64_scope.
Notation "x * y" := (f64_mul x y) : f64_scope.
Notation "x / y" := (f64_div x y) : f64_scope.

(** [n as f64]. *)
Definition as_f64 (n : N) : f64 := binary_normalize prec emax (Z.of_N n) 0 false.

(** [f64::clamp]: a NaN stays one. *)
Definition f64_clamp (x lo hi : f64) : f64 :=
  let x := if SFltb x lo then lo else x in
  if SFltb hi x then hi else x.

Lemma f64_clamp_nan lo hi : f64_clamp S754_nan lo hi = S754_nan.
Proof. unfold f64_clamp. by destruct hi. Qed.
Lemma f64_mul_nan_l x : (S754_nan * x)%f64 = S754_nan.
Proof. done. Qed.
Lemma f64_mul_nan_r x : (x * S754_nan)%f64 = S754_nan.
Proof. by destruct x. Qed.
Lemma f64_add_nan_r x : (x + S754_nan)%f64 = S754_nan.
Proof. by destruct x. Qed.

(** ** Values *)
Definition pow2 (e : Z) : Q := Qpower 2 e.
Definition signed (s : bool) (x : Q) : Q := if s then Qopp x else x.
(** The value of a finite number; junk for the others. *)
Definition value (x : f64) : Q :=
  match x with S754_finite s m e => signed s (inject_Z (Zpos m) * pow2 e) | _ => 0 end.
Definition finite (x : f64) : Prop :=
  match x with S754_finite _ _ _ | S754_zero _ => True | _ => False end.

(** The error of one operation: relative [ulp], or absolute [tiny] near zero. *)
Definition ulp : Q := 1 # 2251799813685248.
Definition tiny : Q := pow2 (-1073).
(** [y] is within [e] of [x]. *)
Definition within (e x y : Q) : Prop := (x - e <= y <= x + e)%Q.

#[global] Instance within_proper : Proper (Qeq ==> Qeq ==> Qeq ==> iff) within.
Proof. intros e e' He x x' Hx y y' Hy. unfold within. by rewrite He, Hx, Hy. Qed.
#[global] Instance signed_proper s : Proper (Qeq ==> Qeq) (signed s).
Proof. intros x x' Hx. unfold signed. destruct s; by rewrite Hx. Qed.

Lemma pow2_pos e : (0 < pow2 e)%Q.
Proof. by apply Qpower_0_lt. Qed.
Lemma pow2_plus e e' : (pow2 (e + e') == pow2 e * pow2 e')%Q.
Proof. by apply Qpower_plus. Qed.
Lemma pow2_mono e e' : (e <= e')%Z → (pow2 e <= pow2 e')%Q.
Proof. intros. by apply Qpower_le_compat_l. Qed.
Lemma pow2_scale e x y : (x <= y)%Q → (pow2 e * x <= pow2 e * y)%Q.
Proof. intros. apply Qmult_le_l; [apply pow2_pos|done]. Qed.
Lemma pow2_Z n : (0 <= n)%Z → (pow2 n == inject_Z (2 ^ n))%Q.
Proof. intros. unfold pow2. by rewrite Zpower_Qpower. Qed.
Lemma inject_Z_le x y : (x <= y)%Z → (inject_Z x <= inject_Z y)%Q.
Proof. by rewrite Zle_Qle. Qed.
Lemma inject_Z_lt x y : (x < y)%Z → (inject_Z x < inject_Z y)%Q.
Proof. by rewrite Zlt_Qlt. Qed.

(** ** Shifting right keeps where the exact value lies *)

(** [x] lies where the mantissa and the two bits shifted out last say. *)
Definition located (r : shr_record) (x : Q) : Prop :=
  let m := inject_Z (shr_m r) in
  (0 <= shr_m r)%Z ∧
  match shr_r r, shr_s r with
  | false, false => (x == m)%Q
  | false, true => (m < x /\ x < m + (1#2))%Q
  | true, false => (x == m + (1#2))%Q
  | true, true => (m + (1#2) < x /\ x < m + 1)%Q
  end.

Ltac qlra :=
  change (inject_Z 0) with 0%Q in *; change (inject_Z 1) with 1%Q in *; change (inject_Z 2) with 2%Q in *;
  repeat match goal with |- _ ∧ _ => split | H : _ ∧ _ |- _ => destruct H end; lra.

Lemma shr_1_located r x : located r x → located (shr_1 r) (x * (1#2)).
Proof.
  destruct r as [[|[p|p|]|p] [] []]; unfold located; cbn [shr_1 shr_m shr_r shr_s orb]; intros [Hm Hx];
    try (exfalso; lia); (split; [lia|]);
    rewrite ?(Pos2Z.inj_xI p), ?(Pos2Z.inj_xO p), ?inject_Z_plus, ?inject_Z_mult in Hx; qlra.
Qed.

#[global] Instance located_proper r : Proper (Qeq ==> iff) (located r).
Proof. intros x y Hxy. unfold located. destruct (shr_r r), (shr_s r); by rewrite Hxy. Qed.

Lemma iter_shr_located p r x : located r x → located (SpecFloat.iter_pos shr_1 p r) (x * pow2 (- Zpos p)).
Proof.
  revert r x. induction p as [p IH|p IH|]; intros r x Hr; cbn [SpecFloat.iter_pos].
  - apply shr_1_located, IH, IH in Hr. revert Hr. apply located_proper.
    rewrite <- !Qmult_assoc, <- pow2_plus. rewrite (Pos2Z.inj_xI p).
    replace (- (2 * Z.pos p + 1))%Z with (-1 + (- Z.pos p + - Z.pos p))%Z by lia. by rewrite (pow2_plus (-1)).
  - apply IH, IH in Hr. revert Hr. apply located_proper.
    rewrite <- !Qmult_assoc, <- pow2_plus. by replace (- Z.pos p~0)%Z with (- Z.pos p + - Z.pos p)%Z by lia.
  - by apply shr_1_located.
Qed.

(** Rounding to nearest is within a half. *)
Lemma round_located r x :
  located r x →
  let m := round_nearest_even (shr_m r) (loc_of_shr_record r) in
  (0 <= m)%Z ∧ within (1#2) x (inject_Z m).
Proof.
  unfold located, within. destruct r as [m [] []]; cbn; intros [Hm Hx]; try destruct (Z.even m);
    (split; [lia|]); rewrite ?inject_Z_plus; qlra.
Qed.

Lemma shr_fexp_located m e l X r e' :
  located (shr_record_of_loc m l) (X * pow2 (- e)) → shr_fexp prec emax m e l = (r, e') →
  located r (X * pow2 (- e')) ∧
  (r = shr_record_of_loc m l ∧ e' = e ∧ (fexp64 (Zdigits2 m + e) <= e)%Z ∨
   e' = fexp64 (Zdigits2 m + e) ∧ (e < e')%Z).
Proof.
  unfold shr_fexp. intros Hx Hr. set (k := (fexp64 (Zdigits2 m + e) - e)%Z) in Hr.
  destruct k as [|p|p] eqn:Hk; cbn [shr] in Hr; injection Hr as <- <-.
  1, 3: by split; [done|left; repeat split; lia].
  split; [|right; lia]. apply (iter_shr_located p) in Hx. revert Hx. apply located_proper.
  replace (- (e + Z.pos p))%Z with (- e + - Z.pos p)%Z by lia. by rewrite pow2_plus, Qmult_assoc.
Qed.

Lemma digits2_lower p : (2 ^ (Zpos (digits2_pos p) - 1) <= Zpos p < 2 ^ Zpos (digits2_pos p))%Z.
Proof.
  induction p as [p IH|p IH|]; cbn [digits2_pos]; [| |done];
    rewrite Pos2Z.inj_succ; replace (Z.succ (Zpos (digits2_pos p)) - 1)%Z with (Z.succ (Zpos (digits2_pos p) - 1)) by lia;
    rewrite !Z.pow_succ_r by lia; lia.
Qed.

(** Half a unit in the last place, against the value. *)
Lemma half_unit m e X :
  (0 <= m)%Z → (inject_Z m * pow2 e <= X)%Q → (m = 0 → e <= -1074)%Z →
  (pow2 (fexp64 (Zdigits2 m + e)) * (1#2) <= pow2 (-53) * X + pow2 (-1075))%Q.
Proof.
  intros Hm HX H0. change (1#2)%Q with (pow2 (-1)). rewrite <- pow2_plus. unfold fexp, emin.
  assert (0 <= X)%Q as HX0.
  { eapply Qle_trans; [|done]. apply Qmult_le_0_compat; [by apply (inject_Z_le 0)|apply Qlt_le_weak, pow2_pos]. }
  assert (0 <= pow2 (-53) * X)%Q as Hpos by (apply Qmult_le_0_compat; [done|done]).
  destruct (Z.max_spec (Zdigits2 m + e - 53) (3 - 1024 - 53)) as [[_ ->]|[Hd ->]].
  - change (3 - 1024 - 53 + -1)%Z with (-1075)%Z. lra.
  - destruct m as [|p|p]; [specialize (H0 eq_refl); cbn [Zdigits2] in Hd; lia| |lia].
    destruct (digits2_lower p) as [Hp _]. cbn [Zdigits2] in *.
    assert (pow2 (Z.pos (digits2_pos p) - 1) <= inject_Z (Zpos p))%Q as Hq by (rewrite pow2_Z by lia; by apply inject_Z_le).
    assert (pow2 (Z.pos (digits2_pos p) - 1) * pow2 e <= X)%Q as Hx.
    { eapply Qle_trans; [|exact HX]. apply Qmult_le_compat_r; [done|apply Qlt_le_weak, pow2_pos]. }
    replace (Z.pos (digits2_pos p) + e - 53 + -1)%Z with (-53 + (Z.pos (digits2_pos p) - 1 + e))%Z by lia.
    rewrite (pow2_plus (-53)), (pow2_plus (_ - 1)).
    pose proof (pow2_pos (-1075)). apply (pow2_scale (-53)) in Hx. lra.
Qed.

Lemma pow2_cancel e X : (X * pow2 (- e) * pow2 e == X)%Q.
Proof. rewrite <- Qmult_assoc, <- pow2_plus. replace (- e + e)%Z with 0%Z by lia. apply Qmult_1_r. Qed.
Lemma pow2_le_move a e X : (a <= X * pow2 (- e))%Q → (a * pow2 e <= X)%Q.
Proof. intros H. rewrite <- (pow2_cancel e X). apply Qmult_le_compat_r; [done|apply Qlt_le_weak, pow2_pos]. Qed.
Lemma pow2_move_le a e X : (X * pow2 (- e) <= a)%Q → (X <= a * pow2 e)%Q.
Proof. intros H. rewrite <- (pow2_cancel e X). apply Qmult_le_compat_r; [done|apply Qlt_le_weak, pow2_pos]. Qed.

Lemma located_bounds r x : located r x → (0 <= shr_m r)%Z ∧ (inject_Z (shr_m r) <= x <= inject_Z (shr_m r) + 1)%Q.
Proof. unfold located. destruct (shr_r r), (shr_s r); intros [Hm Hx]; (split; [done|qlra]). Qed.
Lemma shr_m_of_loc m l : shr_m (shr_record_of_loc m l) = m.
Proof. by destruct l as [|[]]. Qed.
Lemma loc_of_of_loc m l : loc_of_shr_record (shr_record_of_loc m l) = l.
Proof. by destruct l as [|[]]. Qed.

(** The first shift, rounded to nearest. *)
Lemma round_error m e l X r e' :
  located (shr_record_of_loc m l) (X * pow2 (- e)) →
  (l = loc_Exact ∨ e <= fexp64 (Zdigits2 m + e))%Z →
  shr_fexp prec emax m e l = (r, e') →
  let M := round_nearest_even (shr_m r) (loc_of_shr_record r) in
  (0 <= M)%Z ∧ (0 <= X)%Q ∧ within (pow2 (-53) * X + pow2 (-1075)) X (inject_Z M * pow2 e').
Proof.
  intros Hl He Hr M.
  destruct (shr_fexp_located _ _ _ _ _ _ Hl Hr) as [Hr1 Hcase].
  destruct (round_located _ _ Hr1) as [HM Hround]. fold M in HM, Hround.
  destruct (located_bounds _ _ Hl) as [Hm [Hlow _]]. rewrite shr_m_of_loc in Hm, Hlow.
  apply pow2_le_move in Hlow as HX.
  assert (0 <= X)%Q as HX0.
  { eapply Qle_trans; [|exact HX]. apply Qmult_le_0_compat; [by apply (inject_Z_le 0)|apply Qlt_le_weak, pow2_pos]. }
  assert (0 <= pow2 (-53) * X)%Q by (apply (pow2_scale (-53)) in HX0; lra).
  pose proof (pow2_pos (-1075)).
  split_and!; [done|done|].
  assert (l = loc_Exact ∧ e' = e ∧ r = shr_record_of_loc m l ∨ e' = fexp64 (Zdigits2 m + e) ∧ (e <= e')%Z)
    as [(-> & -> & ->)|[He' Hle]] by naive_solver lia.
  - cbn in M. unfold located in Hl. cbn in Hl. destruct Hl as [_ Hl]. subst M.
    unfold within. assert (inject_Z m * pow2 e == X)%Q as ->; [by rewrite <- Hl, pow2_cancel|]. qlra.
  - assert (pow2 e' * (1 # 2) <= pow2 (-53) * X + pow2 (-1075))%Q as Hhalf.
    { rewrite He'. apply half_unit; [done|done|]. intros ->. cbn [Zdigits2] in *. unfold fexp, emin in *. lia. }
    destruct Hround as [Hge Hle2]. unfold within.
    assert (inject_Z M * pow2 e' <= (X * pow2 (- e') + (1#2)) * pow2 e')%Q as H1
      by (apply Qmult_le_compat_r; [done|apply Qlt_le_weak, pow2_pos]).
    assert ((X * pow2 (- e') - (1#2)) * pow2 e' <= inject_Z M * pow2 e')%Q as H2
      by (apply Qmult_le_compat_r; [done|apply Qlt_le_weak, pow2_pos]).
    pose proof (pow2_cancel e' X) as Hc. split; lra.
Qed.

(** The second shift, truncated. *)
Lemma truncate_error M e r e' :
  (0 <= M)%Z → shr_fexp prec emax M e loc_Exact = (r, e') →
  let Y := (inject_Z M * pow2 e)%Q in
  (0 <= shr_m r)%Z ∧
  (Y - (pow2 (-52) * Y + pow2 (-1074)) <= inject_Z (shr_m r) * pow2 e' <= Y)%Q.
Proof.
  intros HM Hr Y.
  assert (located (shr_record_of_loc M loc_Exact) (Y * pow2 (- e))) as Hl.
  { split; [done|]. cbn. subst Y. rewrite <- Qmult_assoc, <- pow2_plus.
    replace (e + - e)%Z with 0%Z by lia. apply Qmult_1_r. }
  destruct (shr_fexp_located _ _ _ _ _ _ Hl Hr) as [Hr1 Hcase].
  destruct (located_bounds _ _ Hr1) as [Hm [Hlow Hup]]. split; [done|].
  apply pow2_le_move in Hlow. apply pow2_move_le in Hup.
  assert (0 <= Y)%Q as HY by (apply Qmult_le_0_compat; [by apply (inject_Z_le 0)|apply Qlt_le_weak, pow2_pos]).
  assert (0 <= pow2 (-52) * Y)%Q by (apply (pow2_scale (-52)) in HY; lra).
  pose proof (pow2_pos (-1074)).
  destruct Hcase as [(-> & -> & _)|[He' Hlt]]; [rewrite shr_m_of_loc; fold Y; split; lra|].
  assert (pow2 e' * (1 # 2) <= pow2 (-53) * Y + pow2 (-1075))%Q as Hhalf.
  { rewrite He'. apply half_unit; [done|apply Qle_refl|]. intros ->. cbn [Zdigits2] in *. unfold fexp, emin in *. lia. }
  assert (pow2 (-52) == 2 * pow2 (-53))%Q as -> by (by vm_compute).
  assert (pow2 (-1074) == 2 * pow2 (-1075))%Q as -> by (by vm_compute).
  split; lra.
Qed.

(** Rounding: the value of a finite result is within the error of the exact one. *)
Lemma binary_round_aux_error s m e l X :
  located (shr_record_of_loc m l) (X * pow2 (- e)) →
  (l = loc_Exact ∨ e <= fexp64 (Zdigits2 m + e))%Z →
  finite (binary_round_aux prec emax s m e l) →
  (0 <= X)%Q ∧ within (ulp * X + tiny) (signed s X) (value (binary_round_aux prec emax s m e l)).
Proof.
  intros Hl He. unfold binary_round_aux.
  destruct (shr_fexp _ _ m e l) as [r1 e1] eqn:H1.
  destruct (round_error _ _ _ _ _ _ Hl He H1) as (HM & HX & [Hlo Hup]).
  destruct (shr_fexp _ _ _ e1 loc_Exact) as [r2 e2] eqn:H2.
  destruct (truncate_error _ _ _ _ HM H2) as (Hm & Hlo2 & Hup2).
  set (Y := (inject_Z _ * pow2 e1)%Q) in *. clearbody Y.
  assert (within (ulp * X + tiny) X (inject_Z (shr_m r2) * pow2 e2)) as Hw.
  { clear H1 H2 He Hl HM. unfold within, tiny, ulp.
    assert (pow2 (-1073) == 4 * pow2 (-1075))%Q as -> by (by vm_compute).
    assert (pow2 (-1074) == 2 * pow2 (-1075))%Q as Ht by (by vm_compute). rewrite Ht in *. clear Ht.
    pose proof (pow2_pos (-1075)). set (t := pow2 (-1075)) in *. clearbody t.
    unfold pow2 in *. change (2 ^ (-53))%Q with (1 # 9007199254740992)%Q in *.
    change (2 ^ (-52))%Q with (1 # 4503599627370496)%Q in *.
    split; lra. }
  destruct (shr_m r2) as [|p|p] eqn:Hr2; [| |lia].
  - intros _. split; [done|]. revert Hw. unfold within, value, signed. destruct s; qlra.
  - destruct (e2 <=? 1024 - 53)%Z; [|done]. intros _. split; [done|].
    revert Hw. unfold within, value, signed. destruct s; qlra.
Qed.

(** ** One operation: the exact result, rounded *)
Definition rounds_to (x r : Q) : Prop := within (ulp * Qabs x + tiny) x r.

Lemma ulp_tiny_nonneg x : (0 <= ulp * Qabs x + tiny)%Q.
Proof.
  assert (0 <= ulp * Qabs x)%Q by (apply Qmult_le_0_compat; [done|apply Qabs_nonneg]).
  assert (0 <= tiny)%Q by done. lra.
Qed.
Lemma rounds_to_refl x y : (x == y)%Q → rounds_to x y.
Proof. intros Hxy. pose proof (ulp_tiny_nonneg x). unfold rounds_to, within. split; lra. Qed.
#[global] Instance rounds_to_proper : Proper (Qeq ==> Qeq ==> iff) rounds_to.
Proof. intros x x' Hx y y' Hy. unfold rounds_to. by rewrite Hx, Hy. Qed.

Lemma signed_abs s X : (0 <= X)%Q → (Qabs (signed s X) == X)%Q.
Proof. intros. destruct s; cbn [signed]; rewrite ?Qabs_opp; by apply Qabs_pos. Qed.

Lemma binary_round_aux_rounds s m e l X :
  located (shr_record_of_loc m l) (X * pow2 (- e)) →
  (l = loc_Exact ∨ e <= fexp64 (Zdigits2 m + e))%Z →
  finite (binary_round_aux prec emax s m e l) →
  rounds_to (signed s X) (value (binary_round_aux prec emax s m e l)).
Proof.
  intros Hl He Hf. destruct (binary_round_aux_error s m e l X Hl He Hf) as [HX Hw].
  unfold rounds_to. by rewrite (signed_abs s X HX).
Qed.

Lemma located_exact m e : (0 <= m)%Z → located (shr_record_of_loc m loc_Exact) (inject_Z m * pow2 e * pow2 (- e)).
Proof.
  intros Hm. split; [done|]. cbn [shr_record_of_loc shr_m shr_r shr_s]. rewrite <- Qmult_assoc, <- pow2_plus.
  replace (e + - e)%Z with 0%Z by lia. apply Qmult_1_r.
Qed.

Lemma shl_align_value m e e' :
  (inject_Z (Zpos (shl_align m e e').1) * pow2 (shl_align m e e').2 == inject_Z (Zpos m) * pow2 e)%Q ∧
  (shl_align m e e').2 = Z.min e e'.
Proof.
  unfold shl_align. destruct (e' - e)%Z as [|d|d] eqn:Hd; cbn [fst snd]; [split; [done|lia]..|].
  split; [|lia]. replace e' with (- Zpos d + e)%Z by lia. rewrite pow2_plus, Qmult_assoc.
  apply Qmult_comp; [|done].
  assert (Zpos (Pos.iter xO m d) = Zpos m * 2 ^ Zpos d)%Z as ->.
  { clear Hd. induction d as [|d IH] using Pos.peano_ind; [cbn; lia|].
    rewrite Pos.iter_succ, Pos2Z.inj_succ, Z.pow_succ_r, Pos2Z.inj_xO, IH by lia. ring. }
  rewrite inject_Z_mult, <- pow2_Z, <- Qmult_assoc, <- pow2_plus by lia.
  replace (Zpos d + - Zpos d)%Z with 0%Z by lia. apply Qmult_1_r.
Qed.

Lemma binary_round_rounds s m e :
  finite (binary_round prec emax s m e) →
  rounds_to (signed s (inject_Z (Zpos m) * pow2 e)) (value (binary_round prec emax s m e)).
Proof.
  unfold binary_round. destruct (shl_align_value m e (fexp64 (Zpos (digits2_pos m) + e))) as [Hv _].
  destruct (shl_align m e _) as [mz ez]. cbn [fst snd] in Hv. intros Hf.
  assert (signed s (inject_Z (Zpos m) * pow2 e) == signed s (inject_Z (Zpos mz) * pow2 ez))%Q as ->
    by (by rewrite Hv).
  apply binary_round_aux_rounds; [by apply located_exact|by left|done].
Qed.

Lemma binary_normalize_rounds m e sz :
  finite (binary_normalize prec emax m e sz) →
  rounds_to (inject_Z m * pow2 e) (value (binary_normalize prec emax m e sz)).
Proof.
  destruct m as [|p|p]; cbn [binary_normalize].
  - intros _. apply rounds_to_refl. apply Qmult_0_l.
  - intros Hf. by apply (binary_round_rounds false).
  - intros Hf. apply (binary_round_rounds true) in Hf. revert Hf. apply rounds_to_proper; [|done].
    cbn [signed]. rewrite <- (Pos2Z.opp_pos p), inject_Z_opp. ring.
Qed.

Lemma f64_mul_rounds x y :
  finite (x * y)%f64 → finite x ∧ finite y ∧ rounds_to (value x * value y) (value (x * y)%f64).
Proof.
  unfold f64_mul, SFmul. destruct x as [sx|sx| |sx mx ex], y as [sy|sy| |sy my ey];
    cbn [finite]; try done; intros Hf; (split; [done|split; [done|]]); try (apply rounds_to_refl; cbn [value]; ring).
  apply (binary_round_aux_rounds _ _ _ _ (inject_Z (Zpos (mx * my)) * pow2 (ex + ey))) in Hf;
    [|by apply located_exact|by left].
  revert Hf. apply rounds_to_proper; [|done]. cbn [value]. rewrite pow2_plus, Pos2Z.inj_mul, inject_Z_mult.
  destruct sx, sy; cbn [signed xorb]; ring.
Qed.

Lemma aligned_value s m e e' :
  (e' <= e)%Z →
  (inject_Z (cond_Zopp s (Zpos (shl_align m e e').1)) * pow2 e' == value (S754_finite s m e))%Q.
Proof.
  intros He. destruct (shl_align_value m e e') as [Hv Hmin]. rewrite Hmin, Z.min_r in Hv by done.
  destruct s; cbn [cond_Zopp value signed]; rewrite ?inject_Z_opp, <- Hv; ring.
Qed.

Lemma f64_add_rounds x y :
  finite (x + y)%f64 → finite x ∧ finite y ∧ rounds_to (value x + value y) (value (x + y)%f64).
Proof.
  unfold f64_add, SFadd. destruct x as [sx|sx| |sx mx ex], y as [sy|sy| |sy my ey];
    try (destruct sx, sy; cbn [finite]; (done || (intros _; split; [done|split; [done|by apply rounds_to_refl]])));
    cbn [finite]; try done; intros Hf; (split; [done|split; [done|]]);
    try (apply rounds_to_refl; cbn [value]; ring).
  apply binary_normalize_rounds in Hf. revert Hf. apply rounds_to_proper; [|done].
  rewrite inject_Z_plus, Qmult_plus_distr_l, !aligned_value by lia. done.
Qed.
Lemma f64_sub_rounds x y :
  finite (x - y)%f64 → finite x ∧ finite y ∧ rounds_to (value x - value y) (value (x - y)%f64).
Proof.
  unfold f64_sub, SFsub. destruct x as [sx|sx| |sx mx ex], y as [sy|sy| |sy my ey];
    try (destruct sx, sy; cbn [finite]; (done || (intros _; split; [done|split; [done|by apply rounds_to_refl]])));
    cbn [finite]; try done; intros Hf; (split; [done|split; [done|]]);
    try (apply rounds_to_refl; destruct sy; cbn [value signed negb]; ring);
    try (apply rounds_to_refl; cbn [value]; ring).
  apply binary_normalize_rounds in Hf. revert Hf. apply rounds_to_proper; [|done].
  unfold Z.sub. rewrite inject_Z_plus, inject_Z_opp, Qmult_plus_distr_l, <- (aligned_value sx mx ex (Z.min ex ey)),
    <- (aligned_value sy my ey (Z.min ex ey)) by lia. ring.
Qed.

Lemma quotient_located m n :
  (0 <= m)%Z → (0 < n)%Z →
  located (shr_record_of_loc (m / n) (new_location n (m mod n))) (inject_Z m / inject_Z n).
Proof.
  intros Hm Hn. pose proof (Z.div_mod m n ltac:(lia)) as Hd. pose proof (Z.mod_pos_bound m n Hn) as Hr.
  assert (0 <= m / n)%Z by (apply Z.div_pos; lia).
  set (q := (m / n)%Z) in *. set (r := (m mod n)%Z) in *. clearbody q r.
  assert (0 < inject_Z n)%Q as Hn' by (by apply (inject_Z_lt 0)).
  assert (inject_Z m / inject_Z n == inject_Z q + inject_Z r / inject_Z n)%Q as ->.
  { rewrite Hd, inject_Z_plus, inject_Z_mult. field. lra. }
  assert ((r = 0)%Z → (inject_Z r / inject_Z n == 0)%Q) as H0.
  { intros ->. unfold Qdiv. apply Qmult_0_l. }
  assert ((0 < r)%Z → (0 < inject_Z r / inject_Z n)%Q) as Hpos.
  { intros. apply Qlt_shift_div_l; [done|]. rewrite Qmult_0_l. by apply (inject_Z_lt 0). }
  assert ((2 * r < n)%Z → (inject_Z r / inject_Z n < 1#2)%Q) as Hlt.
  { intros Hx%inject_Z_lt. rewrite inject_Z_mult in Hx. apply Qlt_shift_div_r; [done|]. qlra. }
  assert ((2 * r = n)%Z → (inject_Z r / inject_Z n == 1#2)%Q) as Heq.
  { intros <-. rewrite inject_Z_mult in *. field. qlra. }
  assert ((n < 2 * r)%Z → (1#2 < inject_Z r / inject_Z n)%Q) as Hgt.
  { intros Hx%inject_Z_lt. rewrite inject_Z_mult in Hx. apply Qlt_shift_div_l; [done|]. qlra. }
  assert (inject_Z r / inject_Z n < 1)%Q as H1.
  { apply Qlt_shift_div_r; [done|]. rewrite Qmult_1_l. apply inject_Z_lt. lia. }
  set (z := (inject_Z r / inject_Z n)%Q) in *. clearbody z.
  unfold located, new_location, new_location_even, new_location_odd.
  destruct r as [|p|p]; [| |lia].
  { destruct (Z.even n); cbn; (split; [done|]); specialize (H0 eq_refl); qlra. }
  specialize (Hpos eq_refl).
  destruct (Z.even n) eqn:Hev.
  - destruct (Z.compare_spec (2 * Zpos p) n) as [Hc|Hc|Hc]; cbn; (split; [done|]);
      [specialize (Heq Hc)|specialize (Hlt Hc)|specialize (Hgt Hc)]; qlra.
  - assert (2 * Zpos p ≠ n)%Z as Hne by (intros <-; by rewrite Z.even_mul in Hev).
    destruct (Z.compare_spec (2 * Zpos p + 1) n) as [Hc|Hc|Hc]; cbn; (split; [done|]);
      [specialize (Hlt ltac:(lia))|specialize (Hlt ltac:(lia))|specialize (Hgt ltac:(lia))]; qlra.
Qed.

Lemma quotient_digits p n s :
  (0 <= s)%Z →
  (Zdigits2 (Zpos p) + s - Zdigits2 (Zpos n) <= Zdigits2 (Zpos p * 2 ^ s / Zpos n))%Z.
Proof.
  intros Hs. destruct (digits2_lower p) as [Hp _], (digits2_lower n) as [_ Hn]. cbn [Zdigits2].
  set (dp := Zpos (digits2_pos p)) in *. set (dn := Zpos (digits2_pos n)) in *.
  assert (0 <= Zpos p * 2 ^ s / Zpos n)%Z as Hq by (apply Z.div_pos; lia).
  destruct (Z.leb_spec (dp + s) dn) as [Hle|Hlt].
  { destruct (Zpos p * 2 ^ s / Zpos n)%Z; cbn [Zdigits2]; lia. }
  assert (2 ^ (dp + s - 1 - dn) <= Zpos p * 2 ^ s / Zpos n)%Z as Hlow.
  { apply Z.div_le_lower_bound; [lia|].
    transitivity (2 ^ dn * 2 ^ (dp + s - 1 - dn))%Z; [apply Z.mul_le_mono_nonneg_r; lia|].
    rewrite <- Z.pow_add_r by lia. replace (dn + (dp + s - 1 - dn))%Z with (dp - 1 + s)%Z by lia.
    rewrite Z.pow_add_r by lia. apply Z.mul_le_mono_nonneg_r; lia. }
  destruct (Zpos p * 2 ^ s / Zpos n)%Z as [|q|q]; [lia| |lia].
  destruct (digits2_lower q) as [_ Hq2]. cbn [Zdigits2].
  assert (2 ^ (dp + s - 1 - dn) < 2 ^ Zpos (digits2_pos q))%Z as Hpow by lia.
  apply Z.pow_lt_mono_r_iff in Hpow; lia.
Qed.

Lemma f64_div_rounds x sy my ey :
  finite (x / S754_finite sy my ey)%f64 →
  finite x ∧ rounds_to (value x / value (S754_finite sy my ey)) (value (x / S754_finite sy my ey)%f64).
Proof.
  unfold f64_div, SFdiv. destruct x as [sx|sx| |sx mx ex]; cbn [finite]; try done.
  unfold SFdiv_core_binary. set (e' := Z.min _ _). set (s := (ex - ey - e')%Z).
  assert (0 <= s)%Z as Hs by lia.
  assert (match s with Z0 => Zpos mx | Zpos _ => Z.shiftl (Zpos mx) s | Zneg _ => 0 end = Zpos mx * 2 ^ s)%Z as ->.
  { destruct s eqn:Hse; [lia| |lia]. rewrite Z.shiftl_mul_pow2; lia. }
  pose proof (quotient_located (Zpos mx * 2 ^ s) (Zpos my) ltac:(lia) ltac:(lia)) as Hl.
  pose proof (quotient_digits mx my s Hs) as Hd.
  unfold Z.div, Z.modulo in Hl, Hd. destruct (Z.div_eucl _ _) as [q r]. intros Hf. split; [done|].
  apply (binary_round_aux_rounds _ _ _ _ (inject_Z (Zpos mx) * pow2 ex / (inject_Z (Zpos my) * pow2 ey))) in Hf.
  - revert Hf. apply rounds_to_proper; [|done]. cbn [value].
    destruct sx, sy; cbn [signed xorb]; field; split; apply Qnot_eq_sym, Qlt_not_eq; (apply pow2_pos || done).
  - revert Hl. apply located_proper. rewrite inject_Z_mult, <- pow2_Z by done. subst s.
    unfold Z.sub. rewrite !pow2_plus. assert (pow2 (- ey) == / pow2 ey)%Q as -> by apply Qpower_opp.
    field. split; apply Qnot_eq_sym, Qlt_not_eq; (apply pow2_pos || done).
  - right. etrans; [apply Z.le_min_l|]. unfold fexp. cbn [Zdigits2] in *. lia.
Qed.

Lemma as_f64_rounds n : finite (as_f64 n) → rounds_to (inject_Z (Z.of_N n)) (value (as_f64 n)).
Proof.
  intros Hf. apply binary_normalize_rounds in Hf. revert Hf. apply rounds_to_proper; [|done].
  symmetry. apply Qmult_1_r.
Qed.

(** ** [std::time::Duration] in seconds *)
Definition NANOS_PER_SEC : N := 1000000000.
Definition duration_max : Duration := usize_max * NANOS_PER_SEC + (NANOS_PER_SEC - 1).

Definition as_secs_f64 (d : Duration) : f64 :=
  (as_f64 (d / NANOS_PER_SEC) + as_f64 (d mod NANOS_PER_SEC) / as_f64 NANOS_PER_SEC)%f64.

(** The nearest nanosecond, ties to even; [None] for a number that is negative,
    too large or not finite. *)
Definition try_from_secs_f64 (secs : f64) : option Duration :=
  match secs with
  | S754_zero _ => Some 0
  | S754_finite false m e =>
    let nanos := (Zpos m * Z.of_N NANOS_PER_SEC)%Z in
    let nanos :=
      match e with
      | Zneg k => round_nearest_even (nanos / 2 ^ Zpos k) (new_location (2 ^ Zpos k) (nanos mod 2 ^ Zpos k))
      | _ => (nanos * 2 ^ e)%Z
      end in
    if (nanos <=? Z.of_N duration_max)%Z then Some (Z.to_N nanos) else None
  | _ => None
  end.

(** The examples of its documentation. *)
Example try_from_secs_f64_documented :
  let decimal n k := try_from_secs_f64 (as_f64 n / as_f64 (10 ^ k))%f64 in
  decimal 27 1 = Some 2700000000 ∧ decimal 3 10 = Some 0 ∧ decimal 999 12 = Some 1 ∧
  decimal 999999999499 12 = Some 999999999 ∧ decimal 999999999501 12 = Some 1000000000 ∧
  try_from_secs_f64 (as_f64 0 - as_f64 5)%f64 = None ∧ try_from_secs_f64 (as_f64 (2 ^ 64)) = None.
Proof. vm_compute. done. Qed.

Definition secs (d : Duration) : Q := inject_Z (Z.of_N d) / inject_Z (Z.of_N NANOS_PER_SEC).

Lemma try_from_secs_f64_near x d :
  try_from_secs_f64 x = Some d →
  finite x ∧ d ≤ duration_max ∧
  within (1#2) (value x * inject_Z (Z.of_N NANOS_PER_SEC)) (inject_Z (Z.of_N d)).
Proof.
  destruct x as [s| | |[] m e]; cbn [try_from_secs_f64]; try done.
  { intros [= <-]. split_and!; [done|done|]. unfold within. split; cbn [value]; rewrite Qmult_0_l; done. }
  set (n := Z.of_N NANOS_PER_SEC). assert (0 < n)%Z as Hn by done. clearbody n.
  assert (∃ r, (match e with
                | Zneg k => round_nearest_even (Zpos m * n / 2 ^ Zpos k) (new_location (2 ^ Zpos k) (Zpos m * n mod 2 ^ Zpos k))
                | _ => Zpos m * n * 2 ^ e
                end = r ∧ 0 <= r)%Z ∧ within (1#2) (inject_Z (Zpos m) * pow2 e * inject_Z n) (inject_Z r)) as (r & [-> Hr] & Hw).
  { eexists. split; [split; [done|]|].
    all: destruct e as [|k|k]; try lia.
    - pose proof (quotient_located (Zpos m * n) (2 ^ Zpos k) ltac:(lia) ltac:(lia)) as Hl.
      apply round_located in Hl. rewrite shr_m_of_loc, loc_of_of_loc in Hl. apply Hl.
    - rewrite Z.mul_1_r, inject_Z_mult. unfold within. change (pow2 0) with 1%Q. split; lra.
    - rewrite !inject_Z_mult, <- pow2_Z by done. unfold within. split; lra.
    - pose proof (quotient_located (Zpos m * n) (2 ^ Zpos k) ltac:(lia) ltac:(lia)) as Hl.
      apply round_located in Hl. rewrite shr_m_of_loc, loc_of_of_loc in Hl. destruct Hl as [_ Hl].
      revert Hl. apply within_proper; [done| |done].
      rewrite inject_Z_mult, <- pow2_Z by done. change (Zneg k) with (- Zpos k)%Z.
      assert (pow2 (- Zpos k) == / pow2 (Zpos k))%Q as -> by apply Qpower_opp.
      field. apply Qnot_eq_sym, Qlt_not_eq, pow2_pos. }
  destruct (Z.leb_spec r (Z.of_N duration_max)) as [Hle|]; [|done]. intros [= <-].
  split_and!; [done|lia|]. by rewrite Z2N.id.
Qed.

(** The chain of operations, each error at most [ulp] of the size. *)
Lemma rounds_bounded B x r : (- B <= x <= B)%Q → rounds_to x r → within (ulp * B + tiny) x r.
Proof.
  intros Hx%Qabs_Qle_condition [Hlo Hup].
  assert (ulp * Qabs x <= ulp * B)%Q by (apply Qmult_le_l; done). unfold within. split; lra.
Qed.
Lemma mul_bounded a b x y : (- a <= x <= a)%Q → (- b <= y <= b)%Q → (- (a * b) <= x * y <= a * b)%Q.
Proof.
  intros [Hx1 Hx2] [Hy1 Hy2].
  assert (∀ u v, 0 <= u → 0 <= v → 0 <= u * v)%Q as Hm by apply Qmult_le_0_compat.
  pose proof (Hm (a - x)%Q (b + y)%Q ltac:(lra) ltac:(lra)). pose proof (Hm (a + x)%Q (b - y)%Q ltac:(lra) ltac:(lra)).
  pose proof (Hm (a - x)%Q (b - y)%Q ltac:(lra) ltac:(lra)). pose proof (Hm (a + x)%Q (b + y)%Q ltac:(lra) ltac:(lra)).
  split; lra.
Qed.
Lemma tiny_small : (0 < tiny)%Q ∧ (tiny <= ulp * ulp)%Q.
Proof. split; [apply pow2_pos|by vm_compute]. Qed.
Lemma per_sec x : (x / inject_Z (Z.of_N NANOS_PER_SEC) == x * (1 # 1000000000))%Q.
Proof. reflexivity. Qed.
Lemma inject_N_nonneg n : (0 <= inject_Z (Z.of_N n))%Q.
Proof. apply (inject_Z_le 0). lia. Qed.
Lemma secs_nonneg d : (0 <= secs d)%Q.
Proof. unfold secs. rewrite per_sec. pose proof (inject_N_nonneg d). lra. Qed.

Lemma as_secs_f64_near d :
  finite (as_secs_f64 d) → within (4 * ulp * secs d + 4 * tiny) (secs d) (value (as_secs_f64 d)).
Proof.
  unfold as_secs_f64. intros Hf.
  destruct (f64_add_rounds _ _ Hf) as (Hs & Hd & Hsum).
  apply as_f64_rounds in Hs.
  assert (∃ m e, as_f64 NANOS_PER_SEC = S754_finite false m e ∧ (value (S754_finite false m e) == inject_Z (Z.of_N NANOS_PER_SEC))%Q)
    as (m & e & Hn & Hv).
  { eexists _, _. split; [vm_compute; reflexivity|by vm_compute]. }
  rewrite Hn in *. destruct (f64_div_rounds _ _ _ _ Hd) as [Hnan Hdiv]. rewrite Hv, per_sec in Hdiv.
  apply as_f64_rounds in Hnan.
  set (S := value (as_f64 (d / NANOS_PER_SEC))) in *. set (M := value (as_f64 (d mod NANOS_PER_SEC))) in *.
  set (F := value (_ / _)%f64) in *. set (V := value (_ + _)%f64) in *. clearbody S M F V.
  pose proof (inject_N_nonneg (d / NANOS_PER_SEC)) as Hs0. pose proof (inject_N_nonneg (d mod NANOS_PER_SEC)) as Hm0.
  assert (secs d == inject_Z (Z.of_N (d / NANOS_PER_SEC)) + inject_Z (Z.of_N (d mod NANOS_PER_SEC)) * (1 # 1000000000))%Q as ->.
  { unfold secs. rewrite per_sec. rewrite (N.div_mod d NANOS_PER_SEC) at 1 by done.
    rewrite N2Z.inj_add, N2Z.inj_mul, inject_Z_plus, inject_Z_mult.
    change (inject_Z (Z.of_N NANOS_PER_SEC)) with (1000000000 # 1)%Q. ring. }
  set (s := inject_Z (Z.of_N (d / NANOS_PER_SEC))) in *. set (n := inject_Z (Z.of_N (d mod NANOS_PER_SEC))) in *.
  clearbody s n. clear Hf Hd Hn Hv. destruct tiny_small as [Ht1 Ht2].
  apply (rounds_bounded s) in Hs; [|split; lra]. apply (rounds_bounded n) in Hnan; [|split; lra].
  set (t := tiny) in *. unfold within, ulp in *.
  apply (rounds_bounded (n * (1 # 1000000000) * (1 + ulp) + t)) in Hdiv; [|unfold ulp; split; lra].
  apply (rounds_bounded ((s + n * (1 # 1000000000)) * (1 + 4 * ulp) + 3 * t)) in Hsum;
    unfold within, ulp in *; fold t in Hdiv; [|split; lra].
  fold t in Hsum. split; lra.
Qed.

(** [x.clamp(0.0, 1.0)] lies between the two, unless it is a NaN. *)
Lemma f64_clamp_unit x :
  valid_binary prec emax x = true → finite (f64_clamp x (as_f64 0) (as_f64 1)) →
  (0 <= value (f64_clamp x (as_f64 0) (as_f64 1)) <= 1)%Q.
Proof.
  change (as_f64 0) with (S754_zero false). change (as_f64 1) with (S754_finite false 4503599627370496 (-52)).
  unfold f64_clamp, SFltb. destruct x as [s|[]| |[] m e]; try (intros; split; by vm_compute).
  cbn [SFcompare valid_binary]. unfold bounded, canonical_mantissa. intros [He _]%andb_prop _.
  apply Z.eqb_eq in He. unfold fexp, emin in He. destruct (digits2_lower m) as [_ Hm].
  set (d := Zpos (digits2_pos m)) in *.
  assert (0 <= value (S754_finite false m e))%Q as H0.
  { cbn. apply Qmult_le_0_compat; [done|apply Qlt_le_weak, pow2_pos]. }
  assert (∀ M, (Zpos m <= M)%Z → (inject_Z M * pow2 e <= 1)%Q → (value (S754_finite false m e) <= 1)%Q) as Hle.
  { intros M HM H1. eapply Qle_trans; [|exact H1]. cbn [value signed].
    apply Qmult_le_compat_r; [by apply inject_Z_le|apply Qlt_le_weak, pow2_pos]. }
  destruct (Z.compare_spec (-52) e) as [<-|Hlt|Hgt]; [|split; by vm_compute|].
  - change (PosDef.Pos.compare_cont Eq ?x m) with (Pos.compare x m).
    destruct (Pos.compare_spec 4503599627370496 m) as [Hc|Hc|Hc]; [subst m|split; by vm_compute|apply Pos.lt_le_incl in Hc];
      (split; [exact H0|apply (Hle 4503599627370496%Z); [|by vm_compute]]); [reflexivity|by apply Pos2Z.pos_le_pos].
  - split; [done|]. apply (Hle (2 ^ 53)%Z); [|].
    + transitivity (2 ^ d)%Z; [lia|]. apply Z.pow_le_mono_r; lia.
    + rewrite <- pow2_Z, <- pow2_plus by lia. apply (pow2_mono _ 0). lia.
Qed.
Lemma clamped_unit x :
  valid_binary prec emax x = true → (0 <= value (f64_clamp x (as_f64 0) (as_f64 1)) <= 1)%Q.
Proof.
  intros Hv. pose proof (f64_clamp_unit x Hv) as H.
  destruct (f64_clamp x (as_f64 0) (as_f64 1)) as [s|s| |s m e]; try (by apply H); by split.
Qed.
