(* ===== verification/Jitter.v ===== *)
(** * The jitter of a TTL ([cache.rs])

    [jittered] scales a TTL by a random factor of at most the configured
    fraction either way.  The factor is drawn from a keyed hash of the entry's
    id; the hasher is the standard library's, seeded at random, and so a
    parameter. *)

From Stdlib Require Import ZArith QArith Qpower Qabs Lqa SpecFloat.
From S2P Require Import Prelude Async F64.

Section Jitter.
(** [jitter_seed.hash_one(id)], a [u64]. *)
Context (hash_one : N → N).

(** Uniform in [[0, 1)] from the top 53 bits of the hash. *)
Definition jitter_unit (id : N) : f64 := (as_f64 (N.shiftr (hash_one id) 11) / as_f64 (2 ^ 53))%f64.
Definition jitter_scaled (ttl : Duration) (jitter : f64) (id : N) : f64 :=
  let jitter := f64_clamp jitter (as_f64 0) (as_f64 1) in
  (as_secs_f64 ttl * (as_f64 1 + jitter * (as_f64 2 * jitter_unit id - as_f64 1)))%f64.
Definition jittered (ttl : Duration) (jitter : f64) (id : N) : Duration :=
  default ttl (try_from_secs_f64 (jitter_scaled ttl jitter id)).

(** What a TTL can become: at most the fraction away, up to rounding. *)
Definition jitter_range (ttl : Duration) (jitter : f64) (d : Duration) : Prop :=
  d ≤ duration_max ∧
  within (inject_Z (Z.of_N ttl) * (value (f64_clamp jitter (as_f64 0) (as_f64 1)) + 60 * ulp) + (1#2) + ulp)
    (inject_Z (Z.of_N ttl)) (inject_Z (Z.of_N d)).

Lemma jitter_unit_bounds id :
  hash_one id < 2 ^ 64 → finite (jitter_unit id) →
  (- (2 * ulp) <= value (jitter_unit id) <= 1 + 4 * ulp)%Q.
Proof.
  intros Hh Hf. unfold jitter_unit in *. set (w := N.shiftr (hash_one id) 11) in *.
  assert (w < 2 ^ 53) as Hw.
  { subst w. rewrite N.shiftr_div_pow2. by apply N.Div0.div_lt_upper_bound. }
  assert (∃ m e, as_f64 (2 ^ 53) = S754_finite false m e ∧ (/ value (S754_finite false m e) == 1 # 9007199254740992)%Q)
    as (m & e & Hn & Hv).
  { eexists _, _. split; [vm_compute; reflexivity|by vm_compute]. }
  rewrite Hn in *. destruct (f64_div_rounds _ _ _ _ Hf) as [Hw1 Hdiv]. unfold Qdiv in Hdiv. rewrite Hv in Hdiv.
  apply as_f64_rounds in Hw1. pose proof (inject_N_nonneg w) as Hw0.
  assert (inject_Z (Z.of_N w) <= 9007199254740992 # 1)%Q as Hw2 by (apply (inject_Z_le _ 9007199254740992); lia).
  set (x := inject_Z (Z.of_N w)) in *. set (X := value (as_f64 w)) in *. set (U := value (_ / _)%f64) in *.
  clearbody x X U. destruct tiny_small as [Ht1 Ht2].
  apply (rounds_bounded x) in Hw1; [|split; lra]. unfold within, ulp in *. set (t := tiny) in *.
  apply (rounds_bounded (1 + 2 * ulp)) in Hdiv; unfold within, ulp in *; fold t in Hdiv; split; lra.
Qed.

Lemma jitter_spread_bounds id :
  hash_one id < 2 ^ 64 → finite (as_f64 2 * jitter_unit id - as_f64 1)%f64 →
  (- (1 + 16 * ulp) <= value (as_f64 2 * jitter_unit id - as_f64 1)%f64 <= 1 + 16 * ulp)%Q.
Proof.
  intros Hh Hf. destruct (f64_sub_rounds _ _ Hf) as (Hm & _ & Hsub).
  destruct (f64_mul_rounds _ _ Hm) as (_ & Hu & Hmul).
  pose proof (jitter_unit_bounds id Hh Hu) as HU.
  assert (value (as_f64 2) == 2)%Q as H2 by by vm_compute. assert (value (as_f64 1) == 1)%Q as H1 by by vm_compute.
  rewrite H2 in Hmul. rewrite H1 in Hsub.
  set (U := value (jitter_unit id)) in *. set (A := value (_ * _)%f64) in *. set (B := value (_ - _)%f64) in *.
  clearbody U A B. destruct tiny_small as [Ht1 Ht2].
  apply (rounds_bounded (2 + 8 * ulp)) in Hmul; [|unfold ulp in *; split; lra].
  unfold within in Hmul. set (t := tiny) in *.
  apply (rounds_bounded (1 + 12 * ulp)) in Hsub; unfold within, ulp in *; fold t in Hsub; split; lra.
Qed.

(** The scaled TTL in seconds. *)
Lemma jitter_scaled_near ttl jitter id :
  hash_one id < 2 ^ 64 → valid_binary prec emax jitter = true → finite (jitter_scaled ttl jitter id) →
  let J := value (f64_clamp jitter (as_f64 0) (as_f64 1)) in
  (0 <= J <= 1)%Q ∧
  within (secs ttl * (J + 60 * ulp) + 40 * tiny) (secs ttl) (value (jitter_scaled ttl jitter id)).
Proof.
  intros Hh Hv Hf J. unfold jitter_scaled in *.
  destruct (f64_mul_rounds _ _ Hf) as (HS & HD & HP).
  destruct (f64_add_rounds _ _ HD) as (_ & HC & HDr).
  destruct (f64_mul_rounds _ _ HC) as (Hj & HB & HCr).
  pose proof (f64_clamp_unit jitter Hv Hj) as HJ. fold J in HJ, HCr.
  pose proof (jitter_spread_bounds id Hh HB) as HBb. pose proof (as_secs_f64_near ttl HS) as HSn.
  pose proof (secs_nonneg ttl) as HT. split; [done|].
  assert (value (as_f64 1) == 1)%Q as H1 by by vm_compute. rewrite H1 in HDr.
  set (B := value (_ - _)%f64) in *. set (C := value (f64_clamp _ _ _ * _)%f64) in *.
  set (S := value (as_secs_f64 ttl)) in *. set (D := value (as_f64 1 + _)%f64) in *.
  set (P := value (as_secs_f64 ttl * _)%f64) in *. set (T := secs ttl) in *.
  clearbody J B C S D P T. clear Hf HS HD HC Hj HB Hv Hh H1.
  destruct tiny_small as [Ht1 Ht2]. unfold within, ulp in *. set (t := tiny) in *.
  assert (- (J * (1 + 16 * ulp)) <= J * B <= J * (1 + 16 * ulp))%Q as HJB
    by (apply mul_bounded; unfold ulp; [split; lra|done]).
  apply (rounds_bounded (J * (1 + 16 * ulp))) in HCr; unfold within, ulp in *; fold t in HCr; [|done].
  apply (rounds_bounded 3) in HDr; unfold within, ulp in *; fold t in HDr; [|split; lra].
  assert (- (T * (J + 22 * ulp)) <= T * (D - 1) <= T * (J + 22 * ulp))%Q as HTD
    by (apply mul_bounded; unfold ulp; split; lra).
  assert (- ((4 * ulp * T + 4 * t) * 3) <= (S - T) * D <= (4 * ulp * T + 4 * t) * 3)%Q as HST
    by (apply mul_bounded; unfold ulp; split; lra).
  assert (- (T * 1) <= T * J <= T * 1)%Q as HTJ by (apply mul_bounded; split; lra).
  apply (rounds_bounded (3 * T + 12 * t)) in HP; unfold within, ulp in *; fold t in HP; split; lra.
Qed.

Lemma secs_nanos ttl : (secs ttl * inject_Z (Z.of_N NANOS_PER_SEC) == inject_Z (Z.of_N ttl))%Q.
Proof. unfold secs. by field. Qed.

Lemma jittered_near ttl jitter id :
  hash_one id < 2 ^ 64 → valid_binary prec emax jitter = true → ttl ≤ duration_max →
  jitter_range ttl jitter (jittered ttl jitter id).
Proof.
  intros Hh Hv Httl. pose proof (inject_N_nonneg ttl) as HT. unfold jittered, jitter_range.
  set (J := value (f64_clamp jitter (as_f64 0) (as_f64 1))).
  destruct (try_from_secs_f64 (jitter_scaled ttl jitter id)) as [d|] eqn:Hd;
    [change (default ttl (Some d)) with d|change (default ttl None) with ttl].
  - apply try_from_secs_f64_near in Hd as (Hf & Hmax & Hd). split; [done|].
    destruct (jitter_scaled_near ttl jitter id Hh Hv Hf) as [HJ Hn]. fold J in HJ, Hn.
    pose proof (secs_nanos ttl) as Hs. set (P := value (jitter_scaled _ _ _)) in *. set (T := secs ttl) in *.
    rewrite <- Hs in *. change (inject_Z (Z.of_N NANOS_PER_SEC)) with (1000000000 # 1)%Q in *.
    set (D := inject_Z (Z.of_N d)) in *. clearbody P T D J. clear Hs.
    destruct tiny_small as [Ht1 Ht2]. set (t := tiny) in *. unfold within, ulp in *. clearbody t. split; lra.
  - split; [done|]. destruct (clamped_unit jitter Hv) as [HJ _]. fold J in HJ.
    assert (0 <= inject_Z (Z.of_N ttl) * J)%Q by by apply Qmult_le_0_compat.
    unfold within, ulp. split; lra.
Qed.
End Jitter.

Lemma jitter_range_le ttl jitter d :
  valid_binary prec emax jitter = true → jitter_range ttl jitter d → d ≤ 3 * ttl + 1.
Proof.
  intros Hv [_ [_ Hd]]. pose proof (inject_N_nonneg ttl) as HT.
  assert (inject_Z (Z.of_N ttl) * value (f64_clamp jitter (as_f64 0) (as_f64 1)) <= inject_Z (Z.of_N ttl) * 1)%Q as Hm
    by (apply Qmult_le_compat_nonneg; [split; [done|apply Qle_refl]|by apply clamped_unit]).
  assert (inject_Z (Z.of_N d) <= inject_Z (3 * Z.of_N ttl + 1))%Q as Hle.
  { rewrite inject_Z_plus, inject_Z_mult. change (inject_Z 3) with 3%Q. change (inject_Z 1) with 1%Q. unfold ulp in Hd. lra. }
  rewrite <- Zle_Qle in Hle. lia.
Qed.

(** C38: the TTL of an entry is scaled by at most the configured fraction,
    clamped to [[0, 1]], either way, up to the rounding of the arithmetic; a NaN
    leaves it alone, and so does no jitter, up to two hours. *)
Theorem jittered_within hash_one ttl jitter id :
  hash_one id < 2 ^ 64 → valid_binary prec emax jitter = true → ttl ≤ duration_max →
  let J := value (f64_clamp jitter (as_f64 0) (as_f64 1)) in
  let d := jittered hash_one ttl jitter id in
  jitter_range ttl jitter d ∧ (0 <= J <= 1)%Q ∧
  (jitter = S754_nan → d = ttl) ∧
  ((J == 0)%Q → ttl < 2 ^ 43 → d = ttl).
Proof.
  intros Hh Hv Httl J d. pose proof (jittered_near hash_one ttl jitter id Hh Hv Httl) as Hnear.
  split; [done|]. split; [by apply clamped_unit|]. destruct Hnear as [Hmax Hd]. fold J d in Hmax, Hd. split.
  - intros ->. subst d. unfold jittered, jitter_scaled. by rewrite f64_clamp_nan, f64_mul_nan_l, f64_add_nan_r, f64_mul_nan_r.
  - intros H0 Hlt. assert (inject_Z (Z.of_N ttl) <= 8796093022208 # 1)%Q as Ht
      by (apply (inject_Z_le _ 8796093022208); lia).
    pose proof (inject_N_nonneg ttl). unfold within in Hd. rewrite H0 in Hd. unfold ulp in Hd.
    assert (inject_Z (Z.of_N ttl + -1) < inject_Z (Z.of_N d) /\ inject_Z (Z.of_N d) < inject_Z (Z.of_N ttl + 1))%Q as [H1 H2].
    { rewrite !inject_Z_plus. change (inject_Z (-1)) with (-1 # 1)%Q. change (inject_Z 1) with 1%Q. split; lra. }
    rewrite <- Zlt_Qlt in H1, H2. lia.
Qed.
Lemma jittered_within_witness :
  let d := jittered (λ id, id * 2 ^ 60) (from_secs 30) (S754_finite false 7205759403792794 (-56)) 15 in
  jitter_range (from_secs 30) (S754_finite false 7205759403792794 (-56)) d ∧ d = 32625000000.
Proof.
  split; [|vm_compute; reflexivity].
  by apply (jittered_within (λ id, id * 2 ^ 60) (from_secs 30) (S754_finite false 7205759403792794 (-56)) 15).
Defined.
