(* ===== verification/Ipv6.v ===== *)
(** * IPv6 addresses read back from their display form *)

From S2P Require Import Prelude Str Net.
From Stdlib Require Import Strings.Byte.

(** ** One group *)
Definition is_hex (b : byte) : bool := bool_decide (is_Some (hex_val b)).
(** A text that ends a run of digits, and is no dotted address. *)
Definition stops (p : bytes) : Prop :=
  match p with b :: _ => is_hex b = false ∧ b ≠ dot | [] => True end.

Lemma hex_digit_ok d : d < 16 → to_digit 16 (hex_digit d) = Some d ∧ is_hex (hex_digit d) = true.
Proof.
  intros Hd. assert (d ∈ N.of_nat <$> seq 0 16) as Hin.
  { apply list_elem_of_fmap. exists (N.to_nat d). split; [lia|]. apply elem_of_seq. lia. }
  assert (Forall (λ d, to_digit 16 (hex_digit d) = Some d ∧ is_hex (hex_digit d) = true) (N.of_nat <$> seq 0 16)) as Hall
    by (repeat constructor; vm_compute; reflexivity).
  rewrite Forall_forall in Hall. by apply Hall.
Qed.
Lemma to_digit_not_hex b : is_hex b = false → to_digit 16 b = None ∧ to_digit 10 b = None.
Proof. unfold is_hex, to_digit. by destruct (hex_val b). Qed.

(** Reading the digits of a number adds its value to what was read before. *)
Lemma read_hex_digits f : ∀ n fuel acc count rest,
  n < 16 ^ N.of_nat f → (0 < f ≤ fuel)%nat →
  ∃ k, (0 < k ≤ f)%nat ∧ length (hex_digits f n) = k ∧ Forall (λ b, is_hex b = true) (hex_digits f n) ∧
    read_digits fuel 16 acc count (hex_digits f n ++ rest) =
    read_digits (fuel - k) 16 (acc * 16 ^ N.of_nat k + n) (count + N.of_nat k) rest.
Proof.
  induction f as [|f IH]; intros n fuel acc count rest Hn Hf; [lia|]. cbn [hex_digits].
  destruct fuel as [|fuel]; [lia|]. destruct (N.ltb_spec n 16) as [Hlt|Hge].
  - exists 1%nat. destruct (hex_digit_ok n Hlt) as [Hd Hh]. split_and!; [lia|lia|done|by constructor|].
    cbn [app read_digits]. rewrite Hd. replace (S fuel - 1)%nat with fuel by lia. by rewrite N.pow_1_r.
  - rewrite Nat2N.inj_succ, N.pow_succ_r' in Hn.
    assert (n / 16 < 16 ^ N.of_nat f) as Hdiv by (apply N.Div0.div_lt_upper_bound; lia).
    assert (f ≠ 0%nat) by (intros ->; cbn in Hn; lia).
    destruct (IH (n / 16) (S fuel) acc count (hex_digit (n mod 16) :: rest) Hdiv ltac:(lia)) as (k & Hk & Hl & Hhex & Heq).
    destruct (hex_digit_ok (n mod 16)) as [Hd Hh]; [by apply N.mod_lt|].
    exists (S k). rewrite length_app, Hl. split_and!; [lia|lia|cbn; lia| |].
    + apply Forall_app. split; [done|by constructor].
    + rewrite <- app_assoc. cbn [app]. rewrite Heq. destruct (S fuel - k)%nat as [|m] eqn:Hm; [lia|].
      cbn [read_digits]. rewrite Hd. replace (S fuel - S k)%nat with m by lia.
      rewrite Nat2N.inj_succ, N.pow_succ_r'. f_equal; [|lia].
      pose proof (N.div_mod n 16 ltac:(done)). nia.
Qed.

Definition group (g : N) : bytes := hex_digits 4 g.
Lemma group_spec g rest :
  g < 65536 → stops rest →
  group g ≠ [] ∧ Forall (λ b, is_hex b = true) (group g) ∧
  read_number 16 4 true 65535 (group g ++ rest) = Some (g, rest).
Proof.
  intros Hg Hr. destruct (read_hex_digits 4 g 4 0 0 rest Hg ltac:(lia)) as (k & Hk & Hl & Hhex & Heq).
  split_and!; [intros Hnil; unfold group in Hnil; rewrite Hnil in Hl; cbn in Hl; lia|done|].
  unfold read_number, group. rewrite Heq, N.mul_0_l, !N.add_0_l.
  assert (read_digits (4 - k) 16 g (N.of_nat k) rest = Some (g, N.of_nat k, rest)) as ->.
  { destruct rest as [|b rest]; [by destruct (4 - k)%nat|]. destruct Hr as [Hb _].
    apply to_digit_not_hex in Hb as [Hb _]. destruct (4 - k)%nat; cbn [read_digits]; by rewrite Hb. }
  cbn [mbind option_bind negb andb]. destruct (N.eqb_spec (N.of_nat k) 0); [lia|].
  destruct (N.leb_spec g 65535); [done|lia].
Qed.

(** ** No group is taken for a dotted address *)
Lemma read_digits_inside s rest : ∀ fuel acc count v n p,
  Forall (λ b, is_hex b = true) s → stops rest →
  read_digits fuel 10 acc count (s ++ rest) = Some (v, n, p) → stops p ∨ ∃ b p', p = b :: p' ∧ is_hex b = true.
Proof.
  induction s as [|b s IH]; intros fuel acc count v n p Hs Hr.
  - intros H. left. destruct rest as [|b rest]; cbn in *; [by destruct fuel; simplify_eq|].
    destruct Hr as [Hb Hd]. destruct (to_digit_not_hex b Hb) as [_ Hb']. rewrite Hb' in H. by simplify_eq.
  - apply Forall_cons in Hs as [Hb Hs]. cbn [app read_digits]. destruct (to_digit 10 b).
    + destruct fuel; [done|]. by apply IH.
    + intros [= <- <- <-]. right. by exists b, (s ++ rest).
Qed.
Lemma hex_not_dot b : is_hex b = true → b ≠ dot.
Proof. intros Hb ->. by vm_compute in Hb. Qed.
Lemma read_ipv4_group s rest :
  Forall (λ b, is_hex b = true) s → stops rest → read_ipv4_addr (s ++ rest) = None.
Proof.
  intros Hs Hr. unfold read_ipv4_addr.
  destruct (read_octet 0 (s ++ rest)) as [[a p]|] eqn:Ho; [|done]. cbn.
  assert (read_given_char dot p = None) as Hdot.
  { cbn in Ho. unfold read_number in Ho. destruct (read_digits 3 10 0 0 (s ++ rest)) as [[[v n] q]|] eqn:Hd; [|done].
    apply read_digits_inside in Hd; [|done..]. cbn in Ho.
    assert (q = p) as -> by (repeat case_match; by simplify_eq).
    destruct Hd as [Hp|(b & p' & -> & Hb)].
    - destruct p as [|b p]; [done|]. destruct Hp as [_ Hne]. cbn. by case_byte.
    - apply hex_not_dot in Hb. cbn. by case_byte. }
  by rewrite Hdot.
Qed.

(** ** Runs of groups *)
Definition groups_tail (gs : list N) : bytes := concat ((λ g, colon :: group g) <$> gs).
Lemma fmt_groups_cons g gs : fmt_groups (g :: gs) = group g ++ groups_tail gs.
Proof.
  revert g. induction gs as [|g' gs IH]; intros g; [symmetry; apply app_nil_r|].
  change (fmt_groups (g :: g' :: gs)) with (join colon (group g :: (hex_digits 4 <$> (g' :: gs)))).
  rewrite join_cons by done. by rewrite (IH g' : join colon (hex_digits 4 <$> g' :: gs) = _).
Qed.

(** Where a run of groups ends: at the end of the text, or at a [::]. *)
Definition run_ends (p : bytes) : Prop := p = [] ∨ ∃ p', p = colon :: colon :: p'.
Lemma run_ends_stops p : run_ends p → stops p.
Proof. by intros [->|[p' ->]]. Qed.
Lemma tail_stops gs rest : run_ends rest → stops (groups_tail gs ++ rest).
Proof. destruct gs; [apply run_ends_stops|done]. Qed.

Lemma run_ends_no_group limit i slots p : run_ends p → read_groups limit i slots p = ([], false, p).
Proof.
  intros Hp. destruct slots as [|slots]; [done|]. cbn [read_groups].
  assert (read_separator colon i read_ipv4_addr p = None ∧
    read_separator colon i (read_number 16 4 true 65535) p = None) as [-> ->].
  { destruct Hp as [->|[p' ->]]; by destruct i. }
  by destruct (i <? limit - 1)%nat.
Qed.

Lemma read_groups_tail limit gs : ∀ i slots rest,
  Forall (λ g, g < 65536) gs → (length gs ≤ slots)%nat → run_ends rest →
  read_groups limit (S i) slots (groups_tail gs ++ rest) = (gs, false, rest).
Proof.
  induction gs as [|g gs IH]; intros i slots rest Hgs Hl Hr; [by apply run_ends_no_group|].
  apply Forall_cons in Hgs as [Hg Hgs]. destruct slots as [|slots]; [cbn in Hl; lia|].
  change (groups_tail (g :: gs) ++ rest) with (colon :: (group g ++ groups_tail gs) ++ rest). rewrite <- app_assoc.
  destruct (group_spec g (groups_tail gs ++ rest) Hg (tail_stops gs rest Hr)) as (_ & Hhex & Hn).
  cbn [read_groups]. unfold read_separator. cbn [read_given_char]. rewrite byte_eqb_refl.
  cbn [mbind option_bind]. rewrite read_ipv4_group by (done || by apply tail_stops). rewrite Hn.
  rewrite IH; [by destruct (S i <? limit - 1)%nat|done|cbn in Hl; lia|done].
Qed.
Lemma read_fmt_groups limit slots gs rest :
  Forall (λ g, g < 65536) gs → (length gs ≤ slots)%nat → run_ends rest →
  read_groups limit 0 slots (fmt_groups gs ++ rest) = (gs, false, rest).
Proof.
  destruct gs as [|g gs]; intros Hgs Hl Hr; [by apply run_ends_no_group|].
  apply Forall_cons in Hgs as [Hg Hgs]. destruct slots as [|slots]; [cbn in Hl; lia|].
  rewrite fmt_groups_cons, <- app_assoc.
  destruct (group_spec g (groups_tail gs ++ rest) Hg (tail_stops gs rest Hr)) as (_ & Hhex & Hn).
  cbn [read_groups]. unfold read_separator. rewrite read_ipv4_group by (done || by apply tail_stops). rewrite Hn.
  rewrite read_groups_tail; [by destruct (0 <? limit - 1)%nat|done|cbn in Hl; lia|done].
Qed.

(** ** The run of zeroes a display leaves out *)
Definition zero_run (l : list N) (r : nat * nat) : Prop :=
  (r.1 + r.2 ≤ length l)%nat ∧ take r.2 (drop r.1 l) = replicate r.2 0.
Lemma zero_run_app l l' r : zero_run l r → zero_run (l ++ l') r.
Proof.
  intros [Hl Hz]. split; [rewrite length_app; lia|]. rewrite drop_app_le by lia. rewrite take_app_le; [done|].
  rewrite length_drop. lia.
Qed.
Lemma longest_zeroes_run gs : ∀ pre i cur best,
  length pre = i → zero_run pre best → (cur.2 = 0%nat ∨ (zero_run pre cur ∧ (cur.1 + cur.2)%nat = i)) →
  zero_run (pre ++ gs) (longest_zeroes i cur best gs).
Proof.
  induction gs as [|g gs IH]; intros pre i cur best Hi Hb Hc; cbn [longest_zeroes]; [by rewrite app_nil_r|].
  assert (pre ++ g :: gs = (pre ++ [g]) ++ gs) as -> by by rewrite <- app_assoc.
  destruct (N.eqb_spec g 0) as [->|].
  - set (cur' := if (cur.2 =? 0)%nat then (i, 1%nat) else (cur.1, S cur.2)).
    assert (zero_run (pre ++ [0]) cur' ∧ (cur'.1 + cur'.2)%nat = S i) as [Hz He].
    { unfold cur'. destruct (Nat.eqb_spec cur.2 0) as [H0|H0].
      - split; [|cbn; lia]. split; cbn [fst snd]; [rewrite length_app; cbn; lia|].
        rewrite drop_app_length' by done. done.
      - destruct Hc as [|[[Hl Hz] He]]; [done|]. split; [|cbn; lia]. split; cbn [fst snd]; [rewrite length_app; cbn; lia|].
        rewrite drop_app_le by lia.
        assert (length (drop cur.1 pre) = cur.2) as Hlen by (rewrite length_drop; lia).
        rewrite take_ge in Hz by lia. rewrite Hz. rewrite take_ge by (rewrite length_app, length_replicate; cbn; lia).
        change [0] with (replicate 1 0). rewrite <- replicate_add. f_equal. lia. }
    apply IH; [rewrite length_app; cbn; lia| |by right]. case_match; [done|by apply zero_run_app].
  - apply IH; [rewrite length_app; cbn; lia|by apply zero_run_app|by left].
Qed.
Lemma longest_zeroes_split gs start n :
  longest_zeroes 0 (0%nat, 0%nat) (0%nat, 0%nat) gs = (start, n) →
  (start + n ≤ length gs)%nat ∧ gs = take start gs ++ replicate n 0 ++ drop (start + n) gs.
Proof.
  intros Hz. pose proof (longest_zeroes_run gs [] 0 (0%nat, 0%nat) (0%nat, 0%nat)) as Hr.
  rewrite Hz in Hr. destruct Hr as [Hl Hr]; [done|by split|by left|]. cbn [app fst snd] in *. split; [done|].
  rewrite <- Hr. rewrite <- drop_drop, take_drop, take_drop. done.
Qed.

(** ** The display form *)
Lemma read_colon p : read_given_char colon (colon :: p) = Some ((), p).
Proof. cbn. by rewrite byte_eqb_refl. Qed.

Definition fmt_v6_plain (gs : list N) : bytes :=
  let '(start, n) := longest_zeroes 0 (0%nat, 0%nat) (0%nat, 0%nat) gs in
  if (1 <? n)%nat then fmt_groups (take start gs) ++ lit "::" ++ fmt_groups (drop (start + n) gs)
  else fmt_groups gs.
Lemma fmt_v6_cases gs :
  (∃ ab cd, gs = [0; 0; 0; 0; 0; 65535; ab; cd]) ∨ fmt_v6 gs = fmt_v6_plain gs.
Proof.
  unfold fmt_v6. fold (fmt_v6_plain gs).
  repeat match goal with |- context [match ?x with _ => _ end] => is_var x; destruct x end;
    solve [right; reflexivity | left; eauto].
Qed.

Lemma read_ipv6_plain gs :
  length gs = 8%nat → Forall (λ g, g < 65536) gs → read_ipv6_addr (fmt_v6_plain gs) = Some (gs, []).
Proof.
  intros Hl Hgs. unfold fmt_v6_plain. destruct (longest_zeroes _ _ _ gs) as [start n] eqn:Hz.
  apply longest_zeroes_split in Hz as [Hn Hsplit]. unfold read_ipv6_addr. destruct (Nat.ltb_spec 1 n) as [H1|_].
  - set (head := take start gs) in *. set (tail := drop (start + n) gs) in *.
    assert (length head = start) as Hhead by (unfold head; rewrite length_take; lia).
    assert (length tail = (8 - (start + n))%nat) as Htail by (unfold tail; rewrite length_drop; lia).
    assert (Forall (λ g, g < 65536) head ∧ Forall (λ g, g < 65536) tail) as [Hfh Hft].
    { split; [by apply Forall_take|by apply Forall_drop]. }
    change (lit "::" ++ fmt_groups tail) with (colon :: colon :: fmt_groups tail).
    rewrite read_fmt_groups; [|done|lia|right; by eexists].
    destruct (Nat.eqb_spec (length head) 8); [lia|]. rewrite read_colon. cbn [mbind option_bind].
    rewrite read_colon. cbn [mbind option_bind]. rewrite <- (app_nil_r (fmt_groups tail)).
    rewrite read_fmt_groups; [|done|lia|by left].
    replace (8 - length head - length tail)%nat with n by lia. by rewrite <- Hsplit.
  - rewrite <- (app_nil_r (fmt_groups gs)), read_fmt_groups; [|done|lia|by left]. by rewrite Hl.
Qed.
Lemma read_ipv6_mapped ab cd :
  ab < 65536 → cd < 65536 →
  read_ipv6_addr (lit "::ffff:" ++ fmt_v4 (ab / 256) (ab mod 256) (cd / 256) (cd mod 256)) =
  Some ([0; 0; 0; 0; 0; 65535; ab; cd], []).
Proof.
  intros Hab Hcd. unfold read_ipv6_addr. set (v4 := fmt_v4 _ _ _ _).
  change (lit "::ffff:" ++ v4) with (colon :: colon :: lit "ffff:" ++ v4).
  rewrite run_ends_no_group by (right; by eexists). cbn [length Nat.eqb]. rewrite read_colon. cbn [mbind option_bind].
  rewrite read_colon. cbn [mbind option_bind Nat.add Nat.sub].
  assert (read_ipv4_addr v4 = Some ((ab / 256, ab mod 256, cd / 256, cd mod 256), [])) as Hv4.
  { unfold v4. rewrite <- (app_nil_r (fmt_v4 _ _ _ _)). apply read_ipv4_fmt; try apply N.mod_lt; try done;
      apply N.Div0.div_lt_upper_bound; lia. }
  assert (read_groups 7 0 7 (lit "ffff:" ++ v4) = ([65535; ab; cd], true, [])) as ->; [|done].
  destruct (group_spec 65535 (colon :: v4) ltac:(lia) ltac:(done)) as (_ & Hhex & Hn).
  change (lit "ffff:" ++ v4) with (group 65535 ++ colon :: v4). cbn [read_groups Nat.ltb Nat.leb Nat.sub].
  unfold read_separator at 1. rewrite read_ipv4_group by done. unfold read_separator at 1. rewrite Hn.
  unfold read_separator at 1. rewrite read_colon. cbn [mbind option_bind]. rewrite Hv4.
  by rewrite <- !N.div_mod.
Qed.

(** Every IPv6 address is read back from its display form. *)
Lemma read_ipv6_fmt gs :
  wf_ip (V6 gs) → read_ipv6_addr (fmt_v6 gs) = Some (gs, []) ∧ read_ipv4_addr (fmt_v6 gs) = None.
Proof.
  intros [Hl Hgs]. destruct (fmt_v6_cases gs) as [(ab & cd & ->)|Hf].
  - do 6 (apply Forall_cons in Hgs as [_ Hgs]). apply Forall_cons in Hgs as [Hab Hgs].
    apply Forall_cons in Hgs as [Hcd _]. split; [by apply read_ipv6_mapped|done].
  - rewrite Hf. split; [by apply read_ipv6_plain|]. unfold fmt_v6_plain.
    destruct (longest_zeroes _ _ _ gs) as [start n]. 
    assert (∀ gs' rest, gs' ≠ [] ∨ rest ≠ [] → Forall (λ g, g < 65536) gs' → run_ends rest → read_ipv4_addr (fmt_groups gs' ++ rest) = None) as Hno.
    { intros [|g gs'] rest Hne Hfa Hr; [destruct Hr as [->|[p' ->]]; [by destruct Hne|done]|].
      apply Forall_cons in Hfa as [Hg _]. rewrite fmt_groups_cons, <- app_assoc.
      apply read_ipv4_group; [by apply (group_spec g [] Hg)|by apply tail_stops]. }
    case_match.
    + apply Hno; [by right|by apply Forall_take|right; by eexists].
    + rewrite <- (app_nil_r (fmt_groups gs)). apply Hno; [left; by intros ->|done|by left].
Qed.
Lemma parse_ip_fmt_v6 gs :
  wf_ip (V6 gs) → parse_ip (fmt_v6 gs) = Some (V6 gs) ∧ parse_ipv6 (fmt_v6 gs) = Some gs.
Proof.
  intros [H6 H4]%read_ipv6_fmt. unfold parse_ip, parse_ipv6, parse_all. by rewrite H4, H6.
Qed.

(** A printed address holds no bracket. *)
Lemma fmt_groups_free gs c :
  Forall (λ g, g < 65536) gs → is_hex c = false → c ≠ colon → c ∉ fmt_groups gs.
Proof.
  intros Hgs Hc Hcol.
  assert (∀ g, g < 65536 → c ∉ group g) as Hg.
  { intros g Hg Hin. destruct (group_spec g [] Hg I) as (_ & Hhex & _). rewrite Forall_forall in Hhex.
    apply Hhex in Hin. congruence. }
  destruct gs as [|g gs]; [by intros ?%elem_of_nil|]. rewrite fmt_groups_cons, elem_of_app.
  apply Forall_cons in Hgs as [H1 Hgs]. intros [Hin|Hin]; [by eapply Hg|]. revert Hin.
  unfold groups_tail. induction Hgs as [|g' gs Hg' _ IH]; cbn; [by intros ?%elem_of_nil|].
  rewrite elem_of_cons, elem_of_app. intros [|[?|?]]; [done|by eapply Hg|by apply IH].
Qed.
Lemma fmt_v4_free a b c d x : is_ascii_digit x = false → x ≠ dot → x ∉ fmt_v4 a b c d.
Proof.
  intros Hx Hd. assert (∀ n, x ∉ dec n) as Hn by (intros n Hin%dec_digits_are_digits; congruence).
  unfold fmt_v4. simpl. rewrite !elem_of_app, !elem_of_cons, !elem_of_app, !elem_of_cons, !elem_of_app, !elem_of_cons.
  intros Hin. repeat match type of Hin with _ ∨ _ => destruct Hin as [Hin|Hin] end; done || by eapply Hn.
Qed.
Lemma fmt_v6_no_bracket gs : wf_ip (V6 gs) → "]"%byte ∉ fmt_v6 gs.
Proof.
  intros [_ Hgs]. destruct (fmt_v6_cases gs) as [(ab & cd & ->)|Hf]; [|rewrite Hf].
  - cbn [fmt_v6]. intros [Hin|Hin]%elem_of_app; [|by eapply fmt_v4_free in Hin].
    revert Hin. by vm_decide.
  - unfold fmt_v6_plain. destruct (longest_zeroes _ _ _ gs) as [start n].
    assert (∀ gs', Forall (λ g, g < 65536) gs' → "]"%byte ∉ fmt_groups gs') as Hfree by (intros; by apply fmt_groups_free).
    case_match; [|by apply Hfree]. intros [Hin|[Hin|Hin]%elem_of_app]%elem_of_app.
    + revert Hin. by apply Hfree, Forall_take.
    + revert Hin. by vm_decide.
    + revert Hin. by apply Hfree, Forall_drop.
Qed.
