(* ===== verification/Names.v ===== *)
(** * Hostnames, route keys and backends ([lookup/types.rs]) *)

From S2P Require Import Prelude Str Net Ipv6.
From Stdlib Require Import Strings.Byte.

Definition MAX_NAME_LEN : N := 253.
Definition MAX_LABEL_LEN : N := 63.
Definition WILDCARD_PREFIX : bytes := lit "*.".

(** Why a hostname, route key or backend string was rejected. *)
Inductive NameError :=
| Empty | TooLong | EmptyLabel | LabelTooLong | InvalidCharacter
| IpLiteral | InvalidWildcard | MissingPort | InvalidPort | InvalidBackendHost.
#[global] Instance NameError_eq_dec : EqDecision NameError.
Proof. solve_decision. Defined.

Definition NameError_fmt (e : NameError) : bytes :=
  match e with
  | Empty => lit "name is empty"
  | TooLong => lit "name is longer than 253 bytes"
  | EmptyLabel => lit "name has an empty label (leading, trailing, or double dot)"
  | LabelTooLong => lit "name has a label longer than 63 bytes"
  | InvalidCharacter => lit "name contains a character outside [a-z0-9-_]"
  | IpLiteral => lit "name is an IP address literal"
  | InvalidWildcard =>
    lit "wildcard must be `*.` followed by at least two labels (e.g. `*.example.com`)"
  | MissingPort => lit "backend is missing a `:port` suffix"
  | InvalidPort => lit "backend port must be an integer in 1..=65535"
  | InvalidBackendHost => lit "backend host is not a valid DNS name or IP address"
  end.

(** ** Validation *)
Definition label_char (b : byte) : bool :=
  is_ascii_lowercase b || is_ascii_digit b || Byte.eqb b "-"%byte || Byte.eqb b "_"%byte.

Definition validate_label (label : bytes) : res NameError unit :=
  if is_empty label then Err EmptyLabel
  else if MAX_LABEL_LEN <? len label then Err LabelTooLong
  else if negb (forallb label_char label) then Err InvalidCharacter
  else Ok ().

Fixpoint validate_labels (labels : list bytes) : res NameError unit :=
  match labels with
  | [] => Ok ()
  | label :: rest => _ ← validate_label label; validate_labels rest
  end.

Definition validate_dns_name (name : bytes) : res NameError unit :=
  if is_empty name then Err Empty
  else if MAX_NAME_LEN <? len name then Err TooLong
  else validate_labels (split dot name).

(** ** Hostname *)
Record Hostname := mkHostname { host_text : bytes }.
#[global] Instance Hostname_eq_dec : EqDecision Hostname.
Proof. solve_decision. Defined.

Module Hostname.
Definition parse (name : bytes) : res NameError Hostname :=
  let lowered := to_ascii_lowercase name in
  _ ← validate_dns_name lowered;
  match parse_ip lowered with
  | Some _ => Err IpLiteral
  | None => Ok (mkHostname lowered)
  end.

Definition as_str (h : Hostname) : bytes := host_text h.

Definition parent (h : Hostname) : option bytes :=
  '(_, rest) ← split_once dot (host_text h); Some rest.
End Hostname.

(** ** RouteKey *)
Record RouteKey := mkRouteKey { key_text : bytes; key_wildcard : bool }.
#[global] Instance RouteKey_eq_dec : EqDecision RouteKey.
Proof. solve_decision. Defined.
#[global] Program Instance RouteKey_countable : Countable RouteKey :=
  inj_countable (λ k, (key_text k, key_wildcard k)) (λ '(t, w), Some (mkRouteKey t w)) _.
Next Obligation. by intros []. Qed.

Module RouteKey.
(** The key that matches exactly [host]. *)
Definition exact (h : Hostname) : RouteKey := mkRouteKey (host_text h) false.

Definition parse (key : bytes) : res NameError RouteKey :=
  let lowered := to_ascii_lowercase key in
  match strip_prefix WILDCARD_PREFIX lowered with
  | Some parent =>
    p ← map_err (λ e, match e with InvalidCharacter => InvalidWildcard | other => other end)
          (Hostname.parse parent);
    if negb (contains dot (Hostname.as_str p)) then Err InvalidWildcard
    else Ok (mkRouteKey lowered true)
  | None =>
    if contains star lowered then Err InvalidWildcard
    else h ← Hostname.parse lowered; Ok (exact h)
  end.

(** The wildcard key that covers [host]. *)
Definition wildcard_for (h : Hostname) : option RouteKey :=
  parent ← Hostname.parent h;
  if negb (contains dot parent) then None
  else Some (mkRouteKey (WILDCARD_PREFIX ++ parent) true).

Definition as_str (k : RouteKey) : bytes := key_text k.
Definition is_wildcard (k : RouteKey) : bool := key_wildcard k.
End RouteKey.

(** ** Backend *)
Inductive BackendHost :=
| Ip (addr : IpAddr)
| Dns (name : bytes).
#[global] Instance BackendHost_eq_dec : EqDecision BackendHost.
Proof. solve_decision. Defined.

(** [port] is a [NonZeroU16]. *)
Record Backend := mkBackend { backend_host : BackendHost; backend_port : N }.
#[global] Instance Backend_eq_dec : EqDecision Backend.
Proof. solve_decision. Defined.

Module Backend.
Definition split_host_port (value : bytes) : res NameError (bytes * bytes) :=
  match strip_prefix (lit "[") value with
  | Some rest =>
    '(host, after) ← ok_or (split_once "]"%byte rest) InvalidBackendHost;
    port ← ok_or (strip_prefix (lit ":") after) MissingPort;
    _ ← ok_or (parse_ipv6 host) InvalidBackendHost;
    Ok (host, port)
  | None =>
    '(host, port) ← ok_or (rsplit_once colon value) MissingPort;
    if contains colon host then Err InvalidBackendHost else Ok (host, port)
  end.

Definition parse_backend_host (host : bytes) : res NameError BackendHost :=
  match parse_ip host with
  | Some ip => Ok (Ip ip)
  | None =>
    let lowered := to_ascii_lowercase host in
    _ ← map_err (λ _, InvalidBackendHost) (validate_dns_name lowered);
    Ok (Dns lowered)
  end.

Definition NonZeroU16_new (n : N) : option N := if n =? 0 then None else Some n.

Definition from_str (value : bytes) : res NameError Backend :=
  '(host, port) ← split_host_port value;
  port ← ok_or (parse_uint 65535 port ≫= NonZeroU16_new) InvalidPort;
  h ← parse_backend_host host;
  Ok (mkBackend h port).

Definition fmt (b : Backend) : bytes :=
  match backend_host b with
  | Ip (V6 gs) => lit "[" ++ fmt_v6 gs ++ lit "]:" ++ dec (backend_port b)
  | Ip (V4 a1 a2 a3 a4) => fmt_v4 a1 a2 a3 a4 ++ lit ":" ++ dec (backend_port b)
  | Dns name => name ++ lit ":" ++ dec (backend_port b)
  end.
End Backend.

(** ** Well-formed names *)
Definition label_ok (l : bytes) : Prop :=
  l ≠ [] ∧ len l ≤ MAX_LABEL_LEN ∧ Forall (λ b, label_char b = true) l.
Definition dns_name (n : bytes) : Prop :=
  n ≠ [] ∧ len n ≤ MAX_NAME_LEN ∧ Forall label_ok (split dot n).
Definition valid_hostname (n : bytes) : Prop := dns_name n ∧ parse_ip n = None.
Definition wf_host (h : Hostname) : Prop := valid_hostname (host_text h).
(** A stored key is a hostname, or [*.] and a hostname of at least two labels. *)
Definition wf_key (k : RouteKey) : Prop :=
  if key_wildcard k
  then ∃ p, key_text k = WILDCARD_PREFIX ++ p ∧ valid_hostname p ∧ dot ∈ p
  else valid_hostname (key_text k).
Definition wf_backend (b : Backend) : Prop :=
  1 ≤ backend_port b ≤ 65535 ∧
  match backend_host b with
  | Ip ip => wf_ip ip
  | Dns n => dns_name n ∧ parse_ip n = None
  end.

(** ** Lemmas about validation *)
Lemma validate_label_Ok l u : validate_label l = Ok u ↔ label_ok l.
Proof.
  unfold validate_label, label_ok. destruct u. rewrite <- is_empty_false.
  destruct (is_empty l); [naive_solver|].
  destruct (N.ltb_spec MAX_LABEL_LEN (len l)); [split; [done|]; intros (_ & ? & _); lia|].
  assert (forallb label_char l = true ↔ Forall (λ b, label_char b = true) l) as Hf.
  { rewrite forallb_forall, Forall_forall. split; intros Hf b Hb; apply Hf; by apply list_elem_of_In. }
  destruct (forallb label_char l); simpl; naive_solver.
Qed.
Lemma validate_labels_Ok ls u : validate_labels ls = Ok u ↔ Forall label_ok ls.
Proof.
  induction ls as [|l ls IH]; simpl; [destruct u; naive_solver|].
  by rewrite bind_unit_Ok, Forall_cons, validate_label_Ok, IH.
Qed.
Lemma validate_dns_name_Ok n u : validate_dns_name n = Ok u ↔ dns_name n.
Proof.
  unfold validate_dns_name, dns_name. rewrite <- is_empty_false.
  destruct (is_empty n); [naive_solver|].
  destruct (N.ltb_spec MAX_NAME_LEN (len n)); [split; [done|]; intros (_ & ? & _); lia|].
  rewrite validate_labels_Ok. naive_solver.
Qed.

Lemma validate_labels_returns ls : returns (validate_labels ls).
Proof.
  induction ls as [|l ls IH]; simpl; auto with returns.
  apply returns_bind; [|done]. unfold validate_label. auto with returns.
Qed.
Lemma validate_dns_name_returns n : returns (validate_dns_name n).
Proof. unfold validate_dns_name. pose proof validate_labels_returns. auto with returns. Qed.
Lemma hostname_parse_returns s : returns (Hostname.parse s).
Proof.
  unfold Hostname.parse. apply returns_bind; [apply validate_dns_name_returns|].
  intros _ _. case_match; auto with returns.
Qed.
#[export] Hint Resolve validate_labels_returns validate_dns_name_returns
  hostname_parse_returns : returns.

(** *** The characters of a name *)
Lemma label_char_cases b :
  label_char b = true → is_ascii_uppercase b = false ∧ b ≠ dot ∧ b ≠ colon ∧ b ≠ star ∧ b2n b < 128.
Proof. destruct b; vm_compute; try done; intros _; split_and!; done. Qed.

Lemma dns_name_chars n b : dns_name n → b ∈ n → b = dot ∨ label_char b = true.
Proof.
  intros (_ & _ & Hls). rewrite <- (join_split dot n). revert Hls.
  generalize (split dot n) as ls. induction 1 as [|l ls Hl Hls IH]; simpl.
  { by intros ?%elem_of_nil. }
  destruct Hl as (_ & _ & Hl). rewrite Forall_forall in Hl.
  destruct ls as [|l' ls]; [naive_solver|].
  rewrite elem_of_app, elem_of_cons. naive_solver.
Qed.
Lemma dns_name_free c n : dns_name n → c ≠ dot → label_char c = false → c ∉ n.
Proof. intros Hn Hc Hl Hin. destruct (dns_name_chars n c Hn Hin); congruence. Qed.
Lemma dns_name_no_star n : dns_name n → star ∉ n.
Proof. intros. by apply dns_name_free. Qed.
Lemma dns_name_no_colon n : dns_name n → colon ∉ n.
Proof. intros. by apply dns_name_free. Qed.
Lemma dns_name_lower n : dns_name n → to_ascii_lowercase n = n.
Proof.
  intros Hn. apply to_ascii_lowercase_id, Forall_forall. intros b Hb.
  destruct (dns_name_chars n b Hn Hb) as [->|Hl]; [done|]. by apply label_char_cases.
Qed.
Lemma dns_name_ascii n : dns_name n → Forall (λ b, b2n b < 128) n.
Proof.
  intros Hn. apply Forall_forall. intros b Hb.
  destruct (dns_name_chars n b Hn Hb) as [->|Hl]; [done|]. by apply label_char_cases.
Qed.

(** *** Parsing hostnames *)
Lemma hostname_parse_iff s h :
  Hostname.parse s = Ok h ↔
  host_text h = to_ascii_lowercase s ∧ valid_hostname (to_ascii_lowercase s).
Proof.
  unfold Hostname.parse, valid_hostname. rewrite bind_unit_Ok, validate_dns_name_Ok.
  destruct h as [t]; simpl. destruct (parse_ip _) eqn:Hip; naive_solver.
Qed.
Lemma hostname_parse_valid n : valid_hostname n → Hostname.parse n = Ok (mkHostname n).
Proof.
  intros Hn. apply hostname_parse_iff. rewrite dns_name_lower by apply Hn. done.
Qed.
Lemma hostname_parse_wf s h : Hostname.parse s = Ok h → wf_host h.
Proof. intros [Ht Hv]%hostname_parse_iff. unfold wf_host. by rewrite Ht. Qed.

(** *** Route keys *)
Lemma wildcard_prefix_star p : star ∈ WILDCARD_PREFIX ++ p.
Proof. left. Qed.
Lemma route_key_parse_iff s k :
  RouteKey.parse s = Ok k ↔ key_text k = to_ascii_lowercase s ∧ wf_key k.
Proof.
  unfold RouteKey.parse, wf_key. set (l := to_ascii_lowercase s).
  assert (to_ascii_lowercase l = l) as Hl by apply to_ascii_lowercase_idem.
  destruct (strip_prefix WILDCARD_PREFIX l) as [p|] eqn:Hp.
  - apply strip_prefix_spec in Hp. split.
    + intros (h' & HP & H)%bind_Ok. apply map_err_Ok, hostname_parse_iff in HP as [Ht Hv].
      unfold Hostname.as_str in H. destruct (contains dot (host_text h')) eqn:Hd; [|done].
      injection H as <-. simpl.
      split; [done|]. exists p. apply contains_spec in Hd.
      assert (to_ascii_lowercase p = p) as Hlp.
      { rewrite Hp, to_ascii_lowercase_app in Hl. by apply app_inj_1 in Hl as [_ ?]. }
      rewrite Hlp in *. rewrite Ht in Hd. done.
    + intros (Hk & Hw). destruct k as [t []]; simpl in *; subst t.
      * destruct Hw as (p' & Hp' & Hv & Hd). rewrite Hp in Hp'. injection Hp' as <-.
        rewrite hostname_parse_valid by done. simpl. unfold Hostname.as_str. simpl.
        by rewrite (proj2 (contains_spec dot p) Hd).
      * exfalso. destruct Hw as [Hw _]. apply (dns_name_no_star _ Hw). rewrite Hp. left.
  - assert (∀ p, l ≠ WILDCARD_PREFIX ++ p) as Hno.
    { intros p H. apply strip_prefix_spec in H. congruence. }
    destruct (contains star l) eqn:Hs.
    + split; [done|]. intros (Hk & Hw). exfalso. apply contains_spec in Hs.
      destruct k as [t []]; simpl in *; subst t; [naive_solver|].
      by apply (dns_name_no_star l); [apply Hw|].
    + rewrite bind_Ok. split.
      * intros (h & HP & [= <-]). apply hostname_parse_iff in HP as [Ht Hv].
        rewrite Hl in *. simpl. by rewrite Ht.
      * intros (Hk & Hw). destruct k as [t []]; simpl in *; subst t; [naive_solver|].
        exists (mkHostname l). by rewrite hostname_parse_valid.
Qed.
Lemma wf_key_lower k : wf_key k → to_ascii_lowercase (key_text k) = key_text k.
Proof.
  unfold wf_key. destruct (key_wildcard k).
  - intros (p & -> & Hv & _). rewrite to_ascii_lowercase_app.
    f_equal. apply dns_name_lower, Hv.
  - intros Hv. apply dns_name_lower, Hv.
Qed.
Lemma route_key_parse_text k : wf_key k → RouteKey.parse (key_text k) = Ok k.
Proof. intros Hk. apply route_key_parse_iff. by rewrite wf_key_lower. Qed.
Lemma route_key_parse_wf s k : RouteKey.parse s = Ok k → wf_key k.
Proof. by intros [_ ?]%route_key_parse_iff. Qed.
#[global] Instance wf_key_dec k : Decision (wf_key k).
Proof.
  refine (cast_if (decide (RouteKey.parse (key_text k) = Ok k))).
  - by eapply route_key_parse_wf.
  - intros Hk. by apply n, route_key_parse_text.
Defined.
Lemma route_key_parse_returns s : returns (RouteKey.parse s).
Proof.
  unfold RouteKey.parse. case_match; [|case_match; auto with returns].
  apply returns_bind; auto with returns.
Qed.
#[export] Hint Resolve route_key_parse_returns : returns.

(** *** Parents and wildcards *)
Lemma parent_Some h p :
  Hostname.parent h = Some p ↔ (∃ l, host_text h = l ++ dot :: p ∧ dot ∉ l).
Proof.
  unfold Hostname.parent. rewrite bind_Some. split.
  - intros ([l r] & H & [= ->]). apply split_once_Some in H. eauto.
  - intros (l & H). apply split_once_Some in H. by exists (l, p).
Qed.
Lemma parent_dns_name h p : dns_name (host_text h) → Hostname.parent h = Some p → dns_name p.
Proof.
  intros (Hne & Hlen & Hls) (l & Ht & Hl)%parent_Some. rewrite Ht in *.
  rewrite split_app in Hls by done. apply Forall_cons in Hls as [_ Hls].
  assert (p ≠ []) as Hp.
  { intros ->. simpl in Hls. apply Forall_cons in Hls as [(? & _) _]. done. }
  split_and!; [done| |done]. rewrite len_app, len_cons in Hlen. lia.
Qed.
Lemma wildcard_for_Some h k :
  RouteKey.wildcard_for h = Some k ↔
  (∃ l p, host_text h = l ++ dot :: p ∧ (dot ∉ l) ∧ dot ∈ p ∧
     k = mkRouteKey (WILDCARD_PREFIX ++ p) true).
Proof.
  unfold RouteKey.wildcard_for. rewrite bind_Some. setoid_rewrite parent_Some. split.
  - intros (p & (l & Ht & Hl) & Hk). destruct (contains dot p) eqn:Hd; [|done].
    apply contains_spec in Hd. naive_solver.
  - intros (l & p & Ht & Hl & Hd & ->). exists p. split; [naive_solver|].
    by rewrite (proj2 (contains_spec dot p) Hd).
Qed.

(** *** Backends *)
Lemma backend_from_str_wf s b : Backend.from_str s = Ok b → wf_backend b.
Proof.
  unfold Backend.from_str, wf_backend.
  intros ([host port] & _ & (p & Hp%ok_or_Ok & (h & Hh & [= <-])%bind_Ok)%bind_Ok)%bind_Ok.
  simpl. split.
  - apply bind_Some in Hp as (n & Hn%parse_uint_max & Hz).
    unfold Backend.NonZeroU16_new in Hz. destruct (N.eqb_spec n 0); simplify_eq. lia.
  - unfold Backend.parse_backend_host in Hh. destruct (parse_ip host) as [ip|] eqn:Hip.
    + injection Hh as <-. by eapply parse_ip_wf.
    + apply bind_unit_Ok in Hh as [Hv%map_err_Ok%validate_dns_name_Ok [= <-]].
      split; [done|]. apply parse_ip_lower_None; [by apply dns_name_no_colon|done].
Qed.

Lemma backend_from_str_returns s : returns (Backend.from_str s).
Proof.
  unfold Backend.from_str, Backend.split_host_port, Backend.parse_backend_host.
  apply returns_bind.
  - case_match; (apply returns_bind; [by auto with returns|]); intros [host port] _; auto with returns.
  - intros [host port] _. apply returns_bind; [by auto with returns|]. intros n _.
    apply returns_bind; [|by auto with returns]. case_match; auto 6 with returns.
Qed.
#[export] Hint Resolve backend_from_str_returns : returns.

Lemma dns_name_no_bracket n : dns_name n → "["%byte ∉ n.
Proof. intros. by apply dns_name_free. Qed.
Lemma fmt_v4_chars a b c d x : x ∈ fmt_v4 a b c d → x = dot ∨ is_ascii_digit x = true.
Proof.
  assert (∀ n, x ∈ dec n → is_ascii_digit x = true) as Hd by (intros n; apply dec_digits_are_digits).
  unfold fmt_v4. simpl. intros H.
  repeat (apply elem_of_app in H as [H|H] || apply elem_of_cons in H as [H|H]); eauto.
Qed.

(** [split_host_port] on a printed host without brackets. *)
Lemma split_host_port_plain host port :
  colon ∉ host → "["%byte ∉ host →
  Backend.split_host_port (host ++ lit ":" ++ dec port) = Ok (host, dec port).
Proof.
  intros Hc Hb. unfold Backend.split_host_port.
  assert (strip_prefix (lit "[") (host ++ lit ":" ++ dec port) = None) as ->.
  { destruct (strip_prefix _ _) as [r|] eqn:Hr; [|done]. apply strip_prefix_spec in Hr.
    exfalso. destruct host as [|x host]; [done|]. injection Hr as -> _. apply Hb. left. }
  assert (rsplit_once colon (host ++ lit ":" ++ dec port) = Some (host, dec port)) as ->.
  { apply rsplit_once_Some. split; [done|]. by apply dec_free. }
  simpl. by rewrite (proj2 (contains_false colon host) Hc).
Qed.
Lemma parse_port_dec port :
  1 ≤ port ≤ 65535 → parse_uint 65535 (dec port) ≫= Backend.NonZeroU16_new = Some port.
Proof.
  intros Hp. rewrite parse_uint_dec by (unfold u64_max; lia). simpl.
  unfold Backend.NonZeroU16_new. by destruct (N.eqb_spec port 0); [lia|].
Qed.
(** A bracketed IPv6 address and a port. *)
Lemma bracketed_roundtrip gs port :
  wf_ip (V6 gs) → 1 ≤ port ≤ 65535 →
  Backend.from_str (Backend.fmt (mkBackend (Ip (V6 gs)) port)) = Ok (mkBackend (Ip (V6 gs)) port).
Proof.
  intros Hgs Hp. destruct (parse_ip_fmt_v6 gs Hgs) as [Hip H6]. unfold Backend.from_str, Backend.fmt.
  cbn [backend_host backend_port]. unfold Backend.split_host_port. rewrite strip_prefix_app.
  assert (split_once "]"%byte (fmt_v6 gs ++ lit "]:" ++ dec port) = Some (fmt_v6 gs, lit ":" ++ dec port)) as ->.
  { apply split_once_Some. split; [done|by apply fmt_v6_no_bracket]. }
  res_simpl. rewrite strip_prefix_app, H6. res_simpl. rewrite parse_port_dec by done. res_simpl.
  unfold Backend.parse_backend_host. by rewrite Hip.
Qed.
Lemma backend_roundtrip b :
  wf_backend b → Backend.from_str (Backend.fmt b) = Ok b.
Proof.
  destruct b as [[[a1 a2 a3 a4|gs]|n] port]; unfold wf_backend; simpl; [| |];
    intros [Hp Hh]; [|by apply (bracketed_roundtrip gs)|]; unfold Backend.from_str, Backend.fmt; simpl backend_host; cbv iota.
  - destruct Hh as (?&?&?&?). simpl backend_port.
    rewrite split_host_port_plain; simpl.
    + rewrite parse_port_dec by done. simpl. unfold Backend.parse_backend_host.
      by rewrite parse_ip_fmt_v4.
    + by intros [|]%fmt_v4_chars.
    + by intros [|]%fmt_v4_chars.
  - destruct Hh as [Hn Hip]. simpl backend_port.
    rewrite split_host_port_plain by by auto using dns_name_no_colon, dns_name_no_bracket.
    simpl. rewrite parse_port_dec by done. simpl. unfold Backend.parse_backend_host.
    rewrite Hip, dns_name_lower by done.
    by rewrite (proj2 (validate_dns_name_Ok n ()) Hn).
Qed.

(** ** Properties *)

(** C29: [Hostname::parse] always returns; it accepts exactly the names of 1 to
    253 bytes whose dot-separated labels, lowercased, have 1 to 63 bytes of
    [a-z0-9-_], and that are not IP literals; the result is the lowercased text,
    and parsing it again changes nothing, so equal hostnames have equal text. *)
Theorem hostname_parse_spec s :
  returns (Hostname.parse s) ∧
  (∀ h, Hostname.parse s = Ok h ↔
     Hostname.as_str h = to_ascii_lowercase s ∧ 1 ≤ len s ≤ 253 ∧
     Forall label_ok (split dot (to_ascii_lowercase s)) ∧ parse_ip (to_ascii_lowercase s) = None) ∧
  (∀ h, Hostname.parse s = Ok h → Hostname.parse (Hostname.as_str h) = Ok h).
Proof.
  split_and!; [apply hostname_parse_returns| |].
  - intros h. rewrite hostname_parse_iff. unfold Hostname.as_str, valid_hostname, dns_name.
    rewrite len_to_ascii_lowercase. unfold MAX_NAME_LEN.
    assert (to_ascii_lowercase s ≠ [] ↔ 1 ≤ len s) as ->; [|naive_solver].
    rewrite <- (len_0 (to_ascii_lowercase s)), len_to_ascii_lowercase. lia.
  - intros [t] Hh. apply hostname_parse_wf in Hh as Hwf. unfold Hostname.as_str. simpl.
    by apply hostname_parse_valid.
Qed.

(** C30: [RouteKey::parse] always returns; it accepts exactly a hostname, or
    [*.] followed by a hostname of at least two labels; the key keeps the
    lowercased text, so printing and parsing a key gives it back; and the keys
    derived from a host, [exact] and [wildcard_for], are keys it would parse,
    except a wildcard over an IPv4 literal. *)
Theorem route_key_parse_spec s :
  returns (RouteKey.parse s) ∧
  (∀ k, RouteKey.parse s = Ok k ↔ RouteKey.as_str k = to_ascii_lowercase s ∧ wf_key k) ∧
  (∀ k, RouteKey.parse s = Ok k → RouteKey.parse (RouteKey.as_str k) = Ok k) ∧
  (∀ h, Hostname.parse s = Ok h →
     RouteKey.parse (RouteKey.as_str (RouteKey.exact h)) = Ok (RouteKey.exact h) ∧
     ∀ k p, RouteKey.wildcard_for h = Some k → Hostname.parent h = Some p →
       RouteKey.parse (RouteKey.as_str k) = Ok k ↔ parse_ip p = None).
Proof.
  split_and!; [apply route_key_parse_returns|intros k; apply route_key_parse_iff| |].
  - intros k Hk. by apply route_key_parse_text, (route_key_parse_wf s).
  - intros h Hh%hostname_parse_wf. split; [by apply route_key_parse_text|].
    intros k p Hk Hp. pose proof Hp as Hp'. apply parent_dns_name in Hp'; [|apply Hh].
    unfold RouteKey.wildcard_for in Hk. rewrite Hp in Hk. simpl in Hk.
    destruct (contains dot p) eqn:Hd; [|done]. injection Hk as <-. apply contains_spec in Hd.
    rewrite route_key_parse_iff. unfold RouteKey.as_str, wf_key, valid_hostname. cbn [key_text key_wildcard].
    split; [by intros [_ (p' & [= <-] & [_ ?] & _)]|]. intros Hip. split; [|by exists p].
    change (WILDCARD_PREFIX ++ p = to_ascii_lowercase (WILDCARD_PREFIX ++ p)).
    rewrite to_ascii_lowercase_app, (dns_name_lower p) by done. done.
Qed.

(** C40: a parsed backend is well formed (a port in 1..=65535, a valid DNS name
    that is not an IP address, or an address), and every well-formed backend is
    parsed back from its display form, IPv6 hosts and their shortened zeroes
    included. *)
Theorem backend_parse_display s b :
  (Backend.from_str s = Ok b → wf_backend b) ∧
  (wf_backend b → Backend.from_str (Backend.fmt b) = Ok b).
Proof. split; [apply backend_from_str_wf|apply backend_roundtrip]. Qed.
Lemma backend_parse_display_witness :
  Backend.from_str (lit "Api:8443") = Ok (mkBackend (Dns (lit "api")) 8443) ∧
  Backend.from_str (Backend.fmt (mkBackend (Dns (lit "api")) 8443)) = Ok (mkBackend (Dns (lit "api")) 8443).
Proof.
  pose (b := mkBackend (Dns (lit "api")) 8443).
  assert (Backend.from_str (lit "Api:8443") = Ok b) as H by (vm_compute; reflexivity).
  split; [exact H|].
  exact (proj2 (backend_parse_display (lit "Api:8443") b) (proj1 (backend_parse_display (lit "Api:8443") b) H)).
Defined.
