(* ===== verification/Lookup.v ===== *)
(** * The route-lookup contract and the in-memory table
      ([lookup/mod.rs], [lookup/memory.rs]) *)

From S2P Require Import Prelude Async Str Net Names.

(** ** Candidates: the exact key, then the wildcard key *)
Record RouteCandidates := mkCandidates { rc_exact : RouteKey; rc_wildcard : option RouteKey }.
#[global] Instance RouteCandidates_eq_dec : EqDecision RouteCandidates.
Proof. solve_decision. Defined.
#[global] Program Instance RouteCandidates_countable : Countable RouteCandidates :=
  inj_countable (λ c, (rc_exact c, rc_wildcard c)) (λ '(e, w), Some (mkCandidates e w)) _.
Next Obligation. by intros []. Qed.

Module RouteCandidates.
Definition for_hostname (host : Hostname) : RouteCandidates :=
  mkCandidates (RouteKey.exact host) (RouteKey.wildcard_for host).

(** Keys in precedence order (exact first). *)
Definition keys (c : RouteCandidates) : list RouteKey :=
  rc_exact c :: option_list (rc_wildcard c).

Definition contains (c : RouteCandidates) (key : RouteKey) : bool :=
  existsb (λ candidate, bool_decide (candidate = key)) (keys c).
End RouteCandidates.

(** ** Hits, in any order *)
Definition RouteHits := list (RouteKey * Backend).

Module RouteHits.
Definition new : RouteHits := [].
Definition push (hits : RouteHits) (key : RouteKey) (b : Backend) : RouteHits :=
  hits ++ [(key, b)].
(** The backend stored under exactly [key], if present: the first one. *)
Definition get (hits : RouteHits) (key : RouteKey) : option Backend :=
  snd <$> find (λ h, bool_decide (h.1 = key)) hits.
End RouteHits.

(** A transient lookup failure carries the store's message. *)
Record LookupError := mkLookupError { lookup_message : bytes }.
#[global] Instance LookupError_eq_dec : EqDecision LookupError.
Proof. solve_decision. Defined.
Definition LookupError_fmt (e : LookupError) : bytes :=
  lit "route lookup failed: " ++ lookup_message e.

(** ** The trait

    A lookup is asynchronous: it answers a set of candidates with hits or a
    transient error at some later time.  The
    contract is that a successful answer holds exactly the stored routes whose
    key is literally a candidate; [stored] is the store's content. *)
Class RouteLookup (L : Type) := lookup : L → RouteCandidates → fut (res LookupError RouteHits).

Class LookupContract (L : Type) `{RouteLookup L} (stored : L → gmap RouteKey Backend) := {
  lookup_returns (l : L) c : returns (fut_value (lookup l c));
  lookup_literal (l : L) c hits k b :
    fut_value (lookup l c) = Ok hits →
    (k, b) ∈ hits ↔ k ∈ RouteCandidates.keys c ∧ stored l !! k = Some b;
}.

(** ** InMemoryLookup *)
Record InMemoryLookup := mkInMemory { im_routes : gmap RouteKey Backend }.
#[global] Instance InMemoryLookup_eq_dec : EqDecision InMemoryLookup.
Proof. solve_decision. Defined.

Module InMemoryLookup.
Definition new : InMemoryLookup := mkInMemory ∅.
(** Adds or replaces a route, returning the previous backend. *)
Definition insert (t : InMemoryLookup) (key : RouteKey) (b : Backend) :
    InMemoryLookup * option Backend :=
  (mkInMemory (<[key := b]> (im_routes t)), im_routes t !! key).
Definition get (t : InMemoryLookup) (key : RouteKey) : option Backend := im_routes t !! key.
Definition len (t : InMemoryLookup) : N := N.of_nat (size (im_routes t)).
Definition is_empty (t : InMemoryLookup) : bool := len t =? 0.
(** The synchronous form of the lookup. *)
Definition hits (t : InMemoryLookup) (c : RouteCandidates) : RouteHits :=
  omap (λ key, b ← im_routes t !! key; Some (key, b)) (RouteCandidates.keys c).
(** Collecting pairs into the map: a later pair wins. *)
Definition from_iter (l : list (RouteKey * Backend)) : InMemoryLookup :=
  mkInMemory (foldl (λ m '(k, b), <[k := b]> m) ∅ l).
End InMemoryLookup.

#[global] Instance InMemoryLookup_lookup : RouteLookup InMemoryLookup :=
  λ t c, ready (Ok (InMemoryLookup.hits t c)).

(** ** Lemmas *)
Lemma contains_keys c k : RouteCandidates.contains c k = true ↔ k ∈ RouteCandidates.keys c.
Proof.
  unfold RouteCandidates.contains. rewrite existsb_exists, list_elem_of_In.
  setoid_rewrite bool_decide_eq_true. naive_solver.
Qed.

(** [find] returns the first match. *)
Lemma find_Some_iff {A} (f : A → bool) l x :
  find f l = Some x ↔ ∃ l1 l2, l = l1 ++ x :: l2 ∧ f x = true ∧ Forall (λ y, f y = false) l1.
Proof.
  induction l as [|y l IH]; simpl.
  { split; [done|]. intros ([|] & ? & ? & _); done. }
  destruct (f y) eqn:Hy.
  - split.
    + intros [= ->]. by exists [], l.
    + intros ([|z l1] & l2 & Hl & Hx & Hf); simplify_eq/=; [done|].
      inversion Hf; congruence.
  - rewrite IH. split.
    + intros (l1 & l2 & -> & Hx & Hf). exists (y :: l1), l2. eauto.
    + intros ([|z l1] & l2 & Hl & Hx & Hf); simplify_eq/=; [congruence|].
      inversion Hf; subst. by exists l1, l2.
Qed.
Lemma find_None_iff {A} (f : A → bool) l : find f l = None ↔ ∀ x, x ∈ l → f x = false.
Proof.
  split.
  - intros H x Hx%list_elem_of_In. by eapply find_none.
  - induction l as [|y l IH]; simpl; intros H; [done|].
    rewrite H by left. apply IH. intros x Hx. apply H. by right.
Qed.

Lemma hits_get_elem hits k b : RouteHits.get hits k = Some b → (k, b) ∈ hits.
Proof.
  unfold RouteHits.get. intros ([k' b'] & Hf & ->)%fmap_Some.
  apply find_Some_iff in Hf as (l1 & l2 & -> & Hk & _).
  apply bool_decide_eq_true in Hk. simpl in *. subst. set_solver.
Qed.
Lemma hits_get_None hits k : RouteHits.get hits k = None ↔ ∀ b, (k, b) ∉ hits.
Proof.
  unfold RouteHits.get. split.
  - intros H%fmap_None b Hin. pose proof (proj1 (find_None_iff _ _) H _ Hin) as Hf.
    by apply bool_decide_eq_false in Hf.
  - intros H. apply fmap_None, find_None_iff. intros [k' b'] Hin.
    apply bool_decide_eq_false. simpl. intros ->. by eapply H.
Qed.

Lemma in_memory_hits_elem t c k b :
  (k, b) ∈ InMemoryLookup.hits t c ↔ k ∈ RouteCandidates.keys c ∧ im_routes t !! k = Some b.
Proof.
  unfold InMemoryLookup.hits. rewrite list_elem_of_omap. split.
  - intros (k' & Hk & (b' & Hb & [= <- <-])%bind_Some). done.
  - intros [Hk Hb]. exists k. split; [done|]. by rewrite Hb.
Qed.

#[global] Instance InMemoryLookup_contract : LookupContract InMemoryLookup im_routes.
Proof.
  split.
  - by intros t c s.
  - intros t c hits k b [= <-]. apply in_memory_hits_elem.
Qed.

(** The candidates of a host are distinct and well formed up to the store. *)
Lemma candidates_keys host :
  RouteCandidates.keys (RouteCandidates.for_hostname host) =
  RouteKey.exact host :: option_list (RouteKey.wildcard_for host).
Proof. done. Qed.

(** ** Matching, on labels

    What a stored key means: it covers a host when their labels agree, a
    leading [*] standing for exactly one label. *)
Definition covers (k : RouteKey) (h : Hostname) : Prop :=
  let kl := split dot (key_text k) in
  let hl := split dot (host_text h) in
  if key_wildcard k
  then ∃ t l, kl = [star] :: t ∧ hl = l :: t
  else kl = hl.
#[global] Instance covers_dec k h : Decision (covers k h).
Proof.
  unfold covers. destruct (key_wildcard k); [|apply _].
  destruct (split dot (key_text k)) as [|x t]; [right; naive_solver|].
  destruct (split dot (host_text h)) as [|l t']; [right; naive_solver|].
  destruct (decide (x = [star] ∧ t = t')) as [[-> ->]|]; [left; eauto|right; naive_solver].
Defined.

Lemma split_inj c s t : split c s = split c t → s = t.
Proof. intros H. rewrite <- (join_split c s), <- (join_split c t). by rewrite H. Qed.

Lemma elem_of_option_list {A} (o : option A) x : x ∈ option_list o ↔ o = Some x.
Proof. destruct o; simpl; [rewrite list_elem_of_singleton|rewrite elem_of_nil]; naive_solver. Qed.

Lemma covers_candidates k h :
  wf_key k → covers k h ↔ k ∈ RouteCandidates.keys (RouteCandidates.for_hostname h).
Proof.
  intros Hk. rewrite candidates_keys, elem_of_cons, elem_of_option_list.
  destruct k as [text []]; unfold covers, wf_key in *; simpl in *.
  - destruct Hk as (p & -> & _ & Hd). rewrite wildcard_for_Some.
    change (split dot (WILDCARD_PREFIX ++ p)) with ([star] :: split dot p). split.
    + intros (t & l & [= <-] & Hh). right. exists l, p.
      assert (host_text h = l ++ dot :: p) as Ht.
      { rewrite <- (join_split dot (host_text h)), Hh, join_cons by apply split_nonempty.
        by rewrite join_split. }
      split_and!; [done| |done|done].
      pose proof (split_free dot (host_text h)) as Hf. rewrite Hh in Hf. by inversion Hf.
    + intros [[=]|(l & p' & Ht & Hl & _ & [= <-])]. exists (split dot p), l.
      split; [done|]. rewrite Ht. by apply split_app.
  - split.
    + intros Heq%split_inj. left. unfold RouteKey.exact. by rewrite Heq.
    + intros [[= ->]|(l & p & _ & _ & _ & [=])%wildcard_for_Some]. done.
Qed.
