(* ===== verification/Routing.v ===== *)
(** * Hostname routing ([routing/mod.rs]) *)

From S2P Require Import Prelude Async Str Net Names Lookup.

Record RouteMatch := mkRouteMatch { match_key : RouteKey; match_backend : Backend }.
#[global] Instance RouteMatch_eq_dec : EqDecision RouteMatch.
Proof. solve_decision. Defined.

(** Why no route was chosen. *)
Inductive RouteError :=
| RouteNotFound
| RouteLookupFailed (e : LookupError)
| RouteTimeout.
#[global] Instance RouteError_eq_dec : EqDecision RouteError.
Proof. solve_decision. Defined.

Definition RouteError_fmt (e : RouteError) : bytes :=
  match e with
  | RouteNotFound => lit "no route for hostname"
  | RouteLookupFailed e => LookupError_fmt e
  | RouteTimeout => lit "route lookup timed out"
  end.

Definition candidate_keys (host : Hostname) : RouteCandidates :=
  RouteCandidates.for_hostname host.

(** [Iterator::find_map]. *)
Fixpoint find_map {A B} (f : A → option B) (l : list A) : option B :=
  match l with
  | [] => None
  | x :: l => match f x with Some y => Some y | None => find_map f l end
  end.

Record Selection := mkSelection { matched : option RouteMatch; ignored_hits : N }.
#[global] Instance Selection_eq_dec : EqDecision Selection.
Proof. solve_decision. Defined.

Definition select_route (candidates : RouteCandidates) (hits : RouteHits) : Selection :=
  mkSelection
    (find_map (λ key, b ← RouteHits.get hits key; Some (mkRouteMatch key b))
       (RouteCandidates.keys candidates))
    (len (List.filter (λ h, negb (RouteCandidates.contains candidates h.1)) hits)).

Section Resolve.
Context `{RouteLookup L} `{Timeout}.

(** One lookup call bounded by [limit]; errors and timeouts fail closed. *)
Definition resolve_route (l : L) (host : Hostname) (limit : Duration) : res RouteError RouteMatch :=
  let candidates := candidate_keys host in
  hits ← match timeout limit (lookup l candidates) with
         | Some (Ok hits) => Ok hits
         | Some (Err error) => Err (RouteLookupFailed error)
         | Some (Stuck s) => Stuck s
         | None => Err RouteTimeout
         end;
  let selection := select_route candidates hits in
  ok_or (matched selection) RouteNotFound.
End Resolve.

(** ** Specification

    What a table of routes assigns to a host: a stored key that covers it, an
    exact one whenever there is one. *)
Definition best_route (t : gmap RouteKey Backend) (h : Hostname) (m : RouteMatch) : Prop :=
  t !! match_key m = Some (match_backend m) ∧ covers (match_key m) h ∧
  ∀ k, is_Some (t !! k) → covers k h → key_wildcard k = false → k = match_key m.
Definition wf_table (t : gmap RouteKey Backend) : Prop := map_Forall (λ k _, wf_key k) t.

(** ** Lemmas *)
Lemma find_map_Some {A B} (f : A → option B) l y :
  find_map f l = Some y ↔
  ∃ l1 x l2, l = l1 ++ x :: l2 ∧ f x = Some y ∧ Forall (λ z, f z = None) l1.
Proof.
  induction l as [|z l IH]; simpl.
  { split; [done|]. by intros ([|] & ? & ? & ? & _). }
  destruct (f z) as [y'|] eqn:Hz.
  - split; [intros [= ->]; by exists [], z, l|].
    intros ([|z' l1] & x & l2 & Hl & Hx & Hf); simplify_eq/=; [done|]. inversion Hf; congruence.
  - rewrite IH. split.
    + intros (l1 & x & l2 & -> & Hx & Hf). exists (z :: l1), x, l2. eauto.
    + intros ([|z' l1] & x & l2 & Hl & Hx & Hf); simplify_eq/=. inversion Hf; subst. eauto 6.
Qed.
Lemma find_map_None {A B} (f : A → option B) l :
  find_map f l = None ↔ ∀ x, x ∈ l → f x = None.
Proof.
  induction l as [|z l IH]; simpl; [split; [by intros _ x ?%elem_of_nil|done]|].
  setoid_rewrite elem_of_cons. destruct (f z) eqn:?; naive_solver.
Qed.
Lemma find_map_ext {A B} (f g : A → option B) l :
  (∀ x, x ∈ l → f x = g x) → find_map f l = find_map g l.
Proof.
  induction l as [|z l IH]; simpl; [done|]. intros Hfg. rewrite (Hfg z) by left.
  rewrite IH; [done|]. intros x Hx. apply Hfg. by right.
Qed.

(** Keys of a host: exact ones first, and each kind once. *)
Lemma candidate_keys_cases h k :
  k ∈ RouteCandidates.keys (candidate_keys h) ↔
  k = RouteKey.exact h ∨ RouteKey.wildcard_for h = Some k.
Proof.
  unfold candidate_keys. by rewrite candidates_keys, elem_of_cons, elem_of_option_list.
Qed.
Lemma wildcard_for_is_wildcard h k : RouteKey.wildcard_for h = Some k → key_wildcard k = true.
Proof. by intros (l & p & _ & _ & _ & ->)%wildcard_for_Some. Qed.

(** Selecting from hits that agree with a partial table on the candidates. *)
Definition table_route (f : RouteKey → option Backend) (h : Hostname) : option RouteMatch :=
  find_map (λ key, b ← f key; Some (mkRouteMatch key b)) (RouteCandidates.keys (candidate_keys h)).

Lemma table_route_best t h m :
  wf_table t → table_route (λ k, t !! k) h = Some m ↔ best_route t h m.
Proof.
  intros Hwf. unfold table_route, candidate_keys, best_route. rewrite candidates_keys.
  assert (∀ k, is_Some (t !! k) → covers k h ↔ k = RouteKey.exact h ∨ RouteKey.wildcard_for h = Some k)
    as Hcov.
  { intros k [b Hb]. rewrite covers_candidates by by eapply Hwf. apply candidate_keys_cases. }
  destruct m as [k b]; simpl. split.
  - destruct (t !! RouteKey.exact h) as [b'|] eqn:Hex; simpl.
    + intros [= <- <-]. split_and!; [done|by apply Hcov; eauto|].
      intros k' Hk' [->|?%wildcard_for_is_wildcard]%Hcov Hw; [done|congruence|done].
    + destruct (RouteKey.wildcard_for h) as [w|] eqn:Hw; simpl; [|done].
      destruct (t !! w) as [b'|] eqn:Hb'; simpl; [|done]. intros [= <- <-].
      split_and!; [done|apply Hcov; eauto|].
      intros k' [b'' Hk'] Hc Hkw. apply Hcov in Hc as [->|[= ->]]; [congruence| |eauto].
      by apply wildcard_for_is_wildcard in Hw; congruence.
  - intros (Hk & Hc & Hbest). apply Hcov in Hc as [->|Hw]; [by rewrite Hk| |eauto].
    destruct (t !! RouteKey.exact h) as [b'|] eqn:Hex; simpl.
    + rewrite <- (Hbest (RouteKey.exact h)) in Hk; [|eauto|apply Hcov; eauto|done].
      exfalso. specialize (Hbest (RouteKey.exact h)). rewrite <- Hbest in Hw; [|eauto|apply Hcov; eauto|done].
      by apply wildcard_for_is_wildcard in Hw.
    + rewrite Hw. simpl. by rewrite Hk.
Qed.

Lemma hits_get_contract (t : gmap RouteKey Backend) c hits k :
  (∀ k b, (k, b) ∈ hits ↔ k ∈ RouteCandidates.keys c ∧ t !! k = Some b) →
  k ∈ RouteCandidates.keys c → RouteHits.get hits k = t !! k.
Proof.
  intros Hc Hk. destruct (RouteHits.get hits k) as [b|] eqn:Hg.
  - apply hits_get_elem, Hc in Hg as [_ Hg]. done.
  - rewrite hits_get_None in Hg. destruct (t !! k) as [b|] eqn:Ht; [|done].
    exfalso. apply (Hg b), Hc. done.
Qed.

(** A lookup that fulfils its contract selects what the table holds. *)
Lemma select_route_contract (t : gmap RouteKey Backend) h hits :
  (∀ k b, (k, b) ∈ hits ↔ k ∈ RouteCandidates.keys (candidate_keys h) ∧ t !! k = Some b) →
  select_route (candidate_keys h) hits = mkSelection (table_route (λ k, t !! k) h) 0.
Proof.
  intros Hc. unfold select_route, table_route. f_equal.
  - apply find_map_ext. intros k Hk. by rewrite (hits_get_contract t (candidate_keys h)).
  - assert (List.filter (λ h0, negb (RouteCandidates.contains (candidate_keys h) h0.1)) hits = [])
      as ->; [|done].
    assert (∀ x, x ∈ hits → RouteCandidates.contains (candidate_keys h) x.1 = true) as Hin.
    { intros [k b] Hx. apply contains_keys. apply Hc in Hx. apply Hx. }
    clear Hc. induction hits as [|x hits IH]; simpl; [done|].
    rewrite Hin by left. apply IH. intros y Hy. apply Hin. by right.
Qed.

(** The routes of a table, as a lookup sees them. *)
Lemma best_route_unique t h m m' :
  wf_table t → best_route t h m → best_route t h m' → m = m'.
Proof. intros Hwf Hm Hm'. apply (table_route_best t h) in Hm, Hm'; [congruence|done..]. Qed.

Lemma hits_get_filter (P : RouteKey → bool) hits k :
  P k = true → RouteHits.get (List.filter (λ h, P h.1) hits) k = RouteHits.get hits k.
Proof.
  intros HP. unfold RouteHits.get. f_equal.
  induction hits as [|[k' b] hits IH]; [done|]. simpl.
  destruct (P k') eqn:Hk'; simpl; [by rewrite IH|].
  rewrite bool_decide_eq_false_2; [done|]. congruence.
Qed.

(** ** Properties *)

(** A resolved route was selected from the hits the lookup answered. *)
Lemma resolve_route_Ok `{RouteLookup L, TimeoutSpec} (l : L) h limit m :
  resolve_route l h limit = Ok m →
  ∃ hits, fut_value (lookup l (candidate_keys h)) = Ok hits ∧ matched (select_route (candidate_keys h) hits) = Some m.
Proof.
  unfold resolve_route. intros (hits & Ha & Hm)%bind_Ok.
  destruct (timeout limit _) as [a|] eqn:Ht; [|done]. apply timeout_value in Ht.
  destruct a as [hits'|e|s]; simplify_eq. apply ok_or_Ok in Hm. eauto.
Qed.
(** A route that was resolved is the table's best one, in time or late. *)
Lemma resolve_route_best `{LookupContract L stored, TimeoutSpec} (l : L) h limit m :
  wf_table (stored l) → resolve_route l h limit = Ok m → best_route (stored l) h m.
Proof.
  intros Hwf (hits & Ha & Hm)%resolve_route_Ok.
  rewrite (select_route_contract (stored l)) in Hm; [by apply table_route_best|].
  intros k b. by apply lookup_literal.
Qed.

(** C15: with a lookup that fulfils its contract and answers in time,
    [resolve_route] returns a route exactly when it is the table's best one for
    the host: a stored key that covers the host label by label, the exact key
    whenever it is stored; otherwise it fails with [NotFound]. *)
Theorem resolve_route_refines_table `{LookupContract L stored, TimeoutSpec} (l : L) h limit hits :
  wf_table (stored l) →
  fut_value (lookup l (candidate_keys h)) = Ok hits →
  completes_before (lookup l (candidate_keys h)) limit →
  (∀ m, resolve_route l h limit = Ok m ↔ best_route (stored l) h m) ∧
  (resolve_route l h limit = Err RouteNotFound ↔
   ∀ k, covers k h → stored l !! k = None) ∧
  ignored_hits (select_route (candidate_keys h) hits) = 0.
Proof.
  intros Hwf Hv Hin. unfold resolve_route. rewrite timeout_in_time, Hv by done.
  cbn [mbind res_bind].
  pose proof (λ k b, lookup_literal l (candidate_keys h) hits k b Hv) as Hc.
  rewrite (select_route_contract (stored l)) by done. cbn [matched]. split_and!; [| |done].
  - intros m. by rewrite ok_or_Ok, table_route_best.
  - unfold table_route. destruct (find_map _ _) as [m|] eqn:Hm; simpl.
    + split; [done|]. intros Hno. apply (table_route_best (stored l)) in Hm as (Hm & Hcov & _); [|done].
      by rewrite Hno in Hm.
    + split; [|done]. intros _ k Hk. destruct (stored l !! k) as [b|] eqn:Hb; [|done].
      rewrite find_map_None in Hm. apply covers_candidates in Hk; [|by eapply Hwf].
        specialize (Hm k Hk). by rewrite Hb in Hm.
Qed.

(** A table with an exact and a wildcard route, and a shadowed sibling. *)
Definition example_table : InMemoryLookup :=
  InMemoryLookup.from_iter
    [(mkRouteKey (lit "*.example.com") true, mkBackend (Dns (lit "wild")) 443);
     (mkRouteKey (lit "api.example.com") false, mkBackend (Dns (lit "exact")) 8443)].
Lemma resolve_route_refines_table_witness :
  let h := mkHostname (lit "api.example.com") in
  best_route (im_routes example_table) h
    (mkRouteMatch (mkRouteKey (lit "api.example.com") false) (mkBackend (Dns (lit "exact")) 8443)).
Proof.
  intros h.
  refine (proj1 (proj1 (resolve_route_refines_table (H0 := InMemoryLookup_contract)
    (H2 := simple_timeout_spec) example_table h 1 (InMemoryLookup.hits example_table (candidate_keys h))
    _ eq_refl _) _) _).
  - unfold wf_table. vm_decide.
  - exists 0. done.
  - vm_compute. reflexivity.
Defined.

(** C24: [resolve_route] fails closed.  Whatever the lookup answers (stray or
    repeated hits, an error, no answer), a returned route is one of the
    answer's hits under a candidate key of the host, hits under other keys
    change nothing, an exact hit is never passed over for a wildcard one, and
    an error or an expired timeout never yields a route. *)
Theorem resolve_route_fails_closed `{RouteLookup L, TimeoutSpec} (l : L) h limit :
  let answer := fut_value (lookup l (candidate_keys h)) in
  let stray hits := List.filter (λ x, RouteCandidates.contains (candidate_keys h) x.1) hits in
  (∀ m, resolve_route l h limit = Ok m →
     ∃ hits, answer = Ok hits ∧ (match_key m, match_backend m) ∈ hits ∧
       match_key m ∈ RouteCandidates.keys (candidate_keys h) ∧
       matched (select_route (candidate_keys h) (stray hits)) = Some m ∧
       (∀ b, (RouteKey.exact h, b) ∈ hits → match_key m = RouteKey.exact h)) ∧
  (exceeds (lookup l (candidate_keys h)) limit → resolve_route l h limit = Err RouteTimeout) ∧
  (∀ e, answer = Err e →
     resolve_route l h limit = Err RouteTimeout ∨
     resolve_route l h limit = Err (RouteLookupFailed e)).
Proof.
  intros answer stray. unfold resolve_route. split_and!.
  - intros m (hits & Ha & Hm)%bind_Ok. exists hits.
    destruct (timeout limit _) as [a|] eqn:Ht; [|done]. apply timeout_value in Ht as ->.
    fold answer in Ha. destruct answer as [hits'| |]; simplify_eq. split; [done|].
    apply ok_or_Ok in Hm. pose proof Hm as Hsel. unfold select_route in Hm. cbn [matched] in Hm.
    apply find_map_Some in Hm as (l1 & k & l2 & Hkeys & (b & Hb & [= <-])%bind_Some & Hl1).
    cbn [match_key match_backend]. split_and!.
    + by apply hits_get_elem.
    + rewrite Hkeys. set_solver.
    + rewrite <- Hsel. unfold select_route, stray. cbn [matched].
      apply find_map_ext. intros k' Hk'%contains_keys.
      by rewrite (hits_get_filter (RouteCandidates.contains (candidate_keys h))).
    + intros b' Hb'. unfold candidate_keys in Hkeys. rewrite candidates_keys in Hkeys.
      destruct l1 as [|k0 l1]; [by injection Hkeys|]. injection Hkeys as <- _.
      inversion Hl1 as [|? ? Hnone _]; subst. exfalso.
      destruct (RouteHits.get hits (RouteKey.exact h)) eqn:Hg; [done|].
      rewrite hits_get_None in Hg. by apply (Hg b').
  - intros Hex. by rewrite timeout_elapsed.
  - intros e He. destruct (timeout limit _) as [a|] eqn:Ht; [|by left].
    apply timeout_value in Ht as ->. fold answer. rewrite He. by right.
Qed.
Lemma resolve_route_fails_closed_witness :
  mkRouteKey (lit "api.example.com") false ∈
    RouteCandidates.keys (candidate_keys (mkHostname (lit "api.example.com"))).
Proof.
  destruct (proj1 (resolve_route_fails_closed (H1 := simple_timeout_spec) example_table
    (mkHostname (lit "api.example.com")) 1)
    (mkRouteMatch (mkRouteKey (lit "api.example.com") false) (mkBackend (Dns (lit "exact")) 8443)))
    as (hits & _ & _ & Hk & _).
  - vm_compute. reflexivity.
  - exact Hk.
Defined.
