(* ===== verification/Protocol.v ===== *)
(** * The ClientHello parser's shared types ([protocol/mod.rs], [protocol/alert.rs]) *)

From S2P Require Import Prelude Str Net Names.
From Stdlib Require Import Strings.Byte.

Definition MAX_RECORD_PAYLOAD : N := 16384.
Definition RECORD_HEADER_LEN : N := 5.
Definition HANDSHAKE_HEADER_LEN : N := 4.

Record HelloLimits := mkHelloLimits { max_handshake_bytes : N; max_records : N }.
#[global] Instance HelloLimits_eq_dec : EqDecision HelloLimits.
Proof. solve_decision. Defined.

Module HelloLimits.
Definition DEFAULT_MAX_HANDSHAKE_BYTES : N := 32 * 1024.
Definition DEFAULT_MAX_RECORDS : N := 32.
Definition new (max_handshake_bytes max_records : N) : HelloLimits :=
  mkHelloLimits max_handshake_bytes max_records.
Definition default : HelloLimits := new DEFAULT_MAX_HANDSHAKE_BYTES DEFAULT_MAX_RECORDS.

(** The handshake header and body plus one record header per allowed record,
    in [usize] arithmetic. *)
Definition max_wire_bytes {E} (l : HelloLimits) : res E N :=
  a ← uadd HANDSHAKE_HEADER_LEN (max_handshake_bytes l);
  b ← umul (max_records l) RECORD_HEADER_LEN;
  uadd a b.
End HelloLimits.

(** What the router learned from a complete ClientHello. *)
Record ClientHelloInfo := mkClientHelloInfo { sni : option Hostname; consumed : N }.
#[global] Instance ClientHelloInfo_eq_dec : EqDecision ClientHelloInfo.
Proof. solve_decision. Defined.

(** Why a buffer is not (yet) a usable ClientHello. *)
Inductive ParseError :=
| Incomplete
| NotHandshake
| InvalidRecord
| NotClientHello
| TooLargeHello
| Malformed (what : bytes)
| InvalidServerName (error : NameError).
#[global] Instance ParseError_eq_dec : EqDecision ParseError.
Proof. solve_decision. Defined.

Definition ParseError_fmt (e : ParseError) : bytes :=
  match e with
  | Incomplete => lit "incomplete ClientHello"
  | NotHandshake => lit "not a TLS handshake record"
  | InvalidRecord => lit "invalid TLS record"
  | NotClientHello => lit "first handshake message is not ClientHello"
  | TooLargeHello => lit "ClientHello exceeds configured limits"
  | Malformed what => lit "malformed ClientHello: " ++ what
  | InvalidServerName error => lit "invalid SNI host_name: " ++ NameError_fmt error
  end.

(** The plaintext fatal [unrecognized_name] alert. *)
Definition UNRECOGNIZED_NAME_ALERT : bytes := [x15; x03; x03; x00; x02; x02; x70].

(** ** Limits *)
Definition wire_bound (l : HelloLimits) : N :=
  HANDSHAKE_HEADER_LEN + max_handshake_bytes l + max_records l * RECORD_HEADER_LEN.
Lemma max_wire_bytes_Ok {E} l :
  wire_bound l ≤ usize_max → HelloLimits.max_wire_bytes (E := E) l = Ok (wire_bound l).
Proof.
  unfold wire_bound, HelloLimits.max_wire_bytes. intros Hl.
  rewrite uadd_Ok by lia. simpl. rewrite umul_Ok by lia. simpl. by rewrite uadd_Ok.
Qed.
Lemma default_wire_bound : wire_bound HelloLimits.default = 32932.
Proof. done. Qed.
