(* ===== verification/Reader.v ===== *)
(** * The bounds-checked cursor ([protocol/reader.rs]) and the TLS vectors it reads *)

From S2P Require Import Prelude.
From Stdlib Require Import Strings.Byte.

Record Reader := mkReader { remaining : bytes }.

(** Every read takes [&mut self]: it returns the value and the cursor after it.
    A byte array of a fixed size is matched as such. *)
Module Reader.
Definition new (bytes : bytes) : Reader := mkReader bytes.
Definition is_empty (r : Reader) : bool := Prelude.is_empty (remaining r).
Definition bytes (n : N) (r : Reader) : option bytes * Reader :=
  if len (remaining r) <? n then (None, r)
  else (Some (takeN n (remaining r)), mkReader (dropN n (remaining r))).
Definition u8 (r : Reader) : option byte * Reader :=
  match bytes 1 r with
  | (Some [b], r) => (Some b, r)
  | (_, r) => (None, r)
  end.
Definition u16 (r : Reader) : option N * Reader :=
  match bytes 2 r with
  | (Some [hi; lo], r) => (Some (be16 hi lo), r)
  | (_, r) => (None, r)
  end.
(** A vector with a one-byte, and with a two-byte, length prefix. *)
Definition vec8 (r : Reader) : option Prelude.bytes * Reader :=
  match u8 r with
  | (Some n, r) => bytes (b2n n) r
  | (None, r) => (None, r)
  end.
Definition vec16 (r : Reader) : option Prelude.bytes * Reader :=
  match u16 r with
  | (Some n, r) => bytes n r
  | (None, r) => (None, r)
  end.
End Reader.

#[global] Arguments Reader.bytes : simpl never.
#[global] Arguments Reader.u8 : simpl never.
#[global] Arguments Reader.u16 : simpl never.
#[global] Arguments Reader.vec8 : simpl never.
#[global] Arguments Reader.vec16 : simpl never.

(** ** The vectors on the wire *)
Definition enc8 (d : bytes) : bytes := n2b (len d) :: d.
Definition enc16 (d : bytes) : bytes := to_be16 (len d) ++ d.

#[global] Arguments enc8 : simpl never.
#[global] Arguments enc16 : simpl never.

(** ** Lemmas: a read succeeds exactly on an encoding *)
Lemma reader_bytes_Some n r d r' :
  Reader.bytes n r = (Some d, r') ↔ remaining r = d ++ remaining r' ∧ len d = n.
Proof.
  unfold Reader.bytes. destruct r as [l], r' as [l']; simpl. case_N.
  - split; [done|]. intros [-> Hd]. len_lia.
  - split.
    + intros [= <- <-]. rewrite takeN_dropN. split; [done|len_lia].
    + intros [-> <-]. by rewrite takeN_app_len, dropN_app_len.
Qed.
Lemma reader_u8_Some r b r' :
  Reader.u8 r = (Some b, r') ↔ remaining r = b :: remaining r'.
Proof.
  unfold Reader.u8. destruct (Reader.bytes 1 r) as [[d|] r1] eqn:Hb.
  - pose proof Hb as [Hr Hd]%reader_bytes_Some. destruct d as [|x [|y d]]; [len_lia| |].
    + destruct r1 as [l1], r' as [l']. simpl in *. rewrite Hr. split; by intros [= -> ->].
    + len_lia.
  - split; [done|]. intros Hr. destruct r as [l], r' as [l']; simpl in *. subst.
    unfold Reader.bytes in Hb. simpl in Hb. destruct (N.ltb_spec (len (b :: l')) 1); [|done]. len_lia.
Qed.
Lemma reader_u16_Some r n r' :
  Reader.u16 r = (Some n, r') ↔ ∃ hi lo, remaining r = hi :: lo :: remaining r' ∧ n = be16 hi lo.
Proof.
  unfold Reader.u16. destruct (Reader.bytes 2 r) as [[d|] r1] eqn:Hb.
  - pose proof Hb as [Hr Hd]%reader_bytes_Some. destruct d as [|x [|y [|z d]]]; [len_lia|len_lia| |].
    + destruct r1 as [l1], r' as [l']. simpl in *. rewrite Hr. split.
      * intros [= <- <-]. eauto.
      * by intros (hi & lo & [= -> -> ->] & ->).
    + len_lia.
  - split; [done|]. intros (hi & lo & Hr & _). destruct r as [l], r' as [l']; simpl in *. subst.
    unfold Reader.bytes in Hb. simpl in Hb. destruct (N.ltb_spec (len (hi :: lo :: l')) 2); [|done].
    len_lia.
Qed.
Lemma reader_u16_be r n r' :
  Reader.u16 r = (Some n, r') ↔ remaining r = to_be16 n ++ remaining r' ∧ n < 65536.
Proof.
  rewrite reader_u16_Some. split.
  - intros (hi & lo & -> & ->). rewrite to_be16_be16. split; [done|]. apply be16_lt.
  - intros [-> Hn]. exists (n2b (N.shiftr n 8)), (n2b n). by rewrite be16_to_be16.
Qed.
Lemma reader_vec8_Some r d r' :
  Reader.vec8 r = (Some d, r') ↔ remaining r = enc8 d ++ remaining r' ∧ len d < 256.
Proof.
  unfold Reader.vec8, enc8. destruct (Reader.u8 r) as [[n|] r1] eqn:Hu.
  - apply reader_u8_Some in Hu. rewrite reader_bytes_Some, Hu. simpl. split.
    + intros [-> Hd]. rewrite Hd, n2b_b2n. split; [done|apply b2n_lt].
    + intros [[= -> ->] Hd]. split; [done|]. by rewrite b2n_n2b, N.mod_small.
  - split; [done|]. intros [Hr _]. assert (Reader.u8 r = (Some (n2b (len d)), mkReader (d ++ remaining r')))
      by by apply reader_u8_Some. congruence.
Qed.
Lemma reader_vec16_Some r d r' :
  Reader.vec16 r = (Some d, r') ↔ remaining r = enc16 d ++ remaining r' ∧ len d < 65536.
Proof.
  unfold Reader.vec16, enc16. rewrite <- app_assoc. destruct (Reader.u16 r) as [[n|] r1] eqn:Hu.
  - apply reader_u16_be in Hu as [Hu Hn]. rewrite reader_bytes_Some, Hu. split.
    + intros [-> <-]. done.
    + intros [[= Hhi Hlo ->] Hd]. split; [done|].
      rewrite <- (be16_to_be16 (len d)), <- (be16_to_be16 n) by done. by rewrite Hhi, Hlo.
  - split; [done|]. intros [Hr Hd].
    assert (Reader.u16 r = (Some (len d), mkReader (d ++ remaining r'))) by by apply reader_u16_be.
    congruence.
Qed.
Lemma len_enc8 d : len (enc8 d) = 1 + len d.
Proof. unfold enc8. len_lia. Qed.
Lemma len_enc16 d : len (enc16 d) = 2 + len d.
Proof. unfold enc16, to_be16. len_lia. Qed.
Lemma len_to_be16 n : len (to_be16 n) = 2.
Proof. done. Qed.
Lemma len_replicate {A} n (x : A) : len (replicate n x) = N.of_nat n.
Proof. unfold len. by rewrite length_replicate. Qed.
#[export] Hint Rewrite len_enc8 len_enc16 len_to_be16 @len_replicate : len.
