(* ===== verification/SpillVec.v ===== *)
(** * A list that lives in a fixed array until it outgrows it

    The shape shared by [Payloads] ([protocol/record.rs]) and [SeenTypes]
    ([protocol/hello.rs]): an array of [cap] entries with a length, spilled to a
    heap vector by the push that does not fit. *)

From S2P Require Import Prelude.

Inductive spill_vec (A : Type) :=
| Inline (items : list A) (used : N)
| Heap (items : list A).
Arguments Inline {A} _ _.
Arguments Heap {A} _.

Section SpillVec.
Context {A : Type} (cap : N) (zero : A).

Definition spill_new : spill_vec A := Inline (replicate (N.to_nat cap) zero) 0.

(** [&items[..len]], or the heap vector. *)
Definition spill_slice {E} (v : spill_vec A) : res E (list A) :=
  match v with
  | Inline items used => slice 0 used items
  | Heap items => Ok items
  end.

Definition spill_push {E} (v : spill_vec A) (x : A) : res E (spill_vec A) :=
  match v with
  | Inline items used =>
    if used <? cap then
      items ← index_set used x items;
      used ← uadd used 1;
      Ok (Inline items used)
    else
      prefix ← slice 0 used items;
      Ok (Heap (prefix ++ [x]))
  | Heap items => Ok (Heap (items ++ [x]))
  end.

Definition spill_len (v : spill_vec A) : N :=
  match v with Inline _ used => used | Heap items => len items end.

(** ** The contents, and that every operation implements the list one *)
Definition spill_repr (v : spill_vec A) (l : list A) : Prop :=
  match v with
  | Inline items used => len items = cap ∧ used = len l ∧ used ≤ cap ∧ takeN used items = l
  | Heap items => items = l ∧ cap < len l
  end.

Lemma spill_new_repr : spill_repr spill_new [].
Proof.
  unfold spill_new, spill_repr. split_and!; [|done|lia|done].
  unfold len. rewrite length_replicate. lia.
Qed.
Lemma spill_len_repr v l : spill_repr v l → spill_len v = len l.
Proof. destruct v; simpl; [by intros (_ & ? & _)|by intros [-> _]]. Qed.
Lemma spill_repr_inj v l l' : spill_repr v l → spill_repr v l' → l = l'.
Proof. destruct v; simpl; [intros (_ & _ & _ & <-) (_ & _ & _ & <-)|intros [<- _] [<- _]]; done. Qed.
Lemma spill_slice_repr {E} v l : spill_repr v l → spill_slice (E := E) v = Ok l.
Proof.
  destruct v as [items used|items]; simpl; [|by intros [-> _]].
  intros (Hi & -> & Hc & Ht). rewrite slice_Ok by lia. by rewrite dropN_0, N.sub_0_r, Ht.
Qed.
Lemma spill_push_repr {E} v l x :
  cap < usize_max → spill_repr v l →
  ∃ v', spill_push (E := E) v x = Ok v' ∧ spill_repr v' (l ++ [x]).
Proof.
  intros Hmax. destruct v as [items used|items]; simpl.
  - intros (Hi & -> & Hc & Ht). case_N.
    + rewrite index_set_Ok by lia. simpl. rewrite uadd_Ok by lia. simpl.
      eexists. split; [done|]. simpl. split_and!; [|len_lia|lia|].
      * unfold len in *. by rewrite length_insert.
      * rewrite <- Ht at 3. unfold takeN, len in *.
        replace (N.to_nat (N.of_nat (length l) + 1)) with (S (length l)) by lia.
        rewrite (take_S_r _ _ x).
        -- f_equal. rewrite take_insert_ge by lia. by rewrite Nat2N.id.
        -- rewrite Nat2N.id. apply list_lookup_insert_eq. lia.
    + rewrite slice_Ok by lia. simpl. rewrite dropN_0, N.sub_0_r, Ht.
      eexists. split; [done|]. simpl. split; [done|]. len_lia.
  - intros [-> Hc]. eexists. split; [done|]. simpl. split; [done|]. len_lia.
Qed.
End SpillVec.
