(* ===== verification/Hello.v ===== *)
(** * ClientHello body and extension parsing ([protocol/hello.rs]) *)

From S2P Require Import Prelude Str Net Names Protocol Reader SpillVec.
From Stdlib Require Import Strings.Byte.

Definition EXTENSION_SERVER_NAME : N := 0.
Definition NAME_TYPE_HOST_NAME : byte := x00.
Definition RANDOM_LEN : N := 32.
Definition MAX_SESSION_ID_LEN : N := 32.
Definition INLINE_EXTENSIONS : N := 32.

(** Extension types seen so far, for duplicate detection. *)
Module SeenTypes.
Definition t := spill_vec N.
Definition new : t := spill_new INLINE_EXTENSIONS 0.
Definition push (v : t) (value : N) : res ParseError t := spill_push INLINE_EXTENSIONS v value.
Definition as_mut_slice (v : t) : res ParseError (list N) := spill_slice v.
End SeenTypes.

(** [r.op().ok_or(Malformed(what))?]: the value and the cursor after it. *)
Definition read {A} (op : option A * Reader) (what : bytes) : res ParseError (A * Reader) :=
  a ← ok_or op.1 (Malformed what); Ok (a, op.2).

(** The [while] loop of [parse_server_name]; [fuel] bounds its iterations. *)
Fixpoint server_name_loop (fuel : nat) (reader : Reader) (host_name : option Hostname) :
    res ParseError (option Hostname) :=
  match fuel with
  | O => Stuck SFuel
  | S fuel =>
    if Reader.is_empty reader then Ok host_name
    else
      '(name_type, reader) ← read (Reader.u8 reader) (lit "truncated server name type");
      '(name, reader) ← read (Reader.vec16 reader) (lit "truncated server name");
      _ ← guard_err (is_empty name) (Malformed (lit "empty server name"));
      if negb (Byte.eqb name_type NAME_TYPE_HOST_NAME) then server_name_loop fuel reader host_name
      else
        _ ← guard_err (bool_decide (is_Some host_name)) (Malformed (lit "multiple host_name entries"));
        name ← ok_or (from_utf8 name) (InvalidServerName InvalidCharacter);
        h ← map_err InvalidServerName (Hostname.parse name);
        server_name_loop fuel reader (Some h)
  end.

Definition parse_server_name (data : bytes) : res ParseError (option Hostname) :=
  '(list, outer) ← read (Reader.vec16 (Reader.new data)) (lit "truncated server_name_list");
  _ ← guard_err (negb (Reader.is_empty outer)) (Malformed (lit "trailing bytes after server_name_list"));
  _ ← guard_err (is_empty list) (Malformed (lit "empty server_name_list"));
  server_name_loop (S (length list)) (Reader.new list) None.

(** The [while] loop of [parse_extensions]. *)
Fixpoint extension_loop (fuel : nat) (reader : Reader) (seen_types : SeenTypes.t)
    (sni : option Hostname) : res ParseError (SeenTypes.t * option Hostname) :=
  match fuel with
  | O => Stuck SFuel
  | S fuel =>
    if Reader.is_empty reader then Ok (seen_types, sni)
    else
      '(extension_type, reader) ← read (Reader.u16 reader) (lit "truncated extension type");
      '(data, reader) ← read (Reader.vec16 reader) (lit "truncated extension data");
      seen_types ← SeenTypes.push seen_types extension_type;
      sni ← (if extension_type =? EXTENSION_SERVER_NAME then parse_server_name data else Ok sni);
      extension_loop fuel reader seen_types sni
  end.

(** [sort_unstable] on integers, and [windows(2).any(|p| p[0] == p[1])]. *)
Definition sort_unstable (l : list N) : list N := merge_sort N.le l.
Fixpoint any_adjacent_equal (l : list N) : bool :=
  match l with
  | a :: (b :: _) as l' => (a =? b) || any_adjacent_equal l'
  | _ => false
  end.

Definition parse_extensions (extensions : bytes) : res ParseError (option Hostname) :=
  '(seen_types, sni) ← extension_loop (S (length extensions)) (Reader.new extensions) SeenTypes.new None;
  seen_types ← SeenTypes.as_mut_slice seen_types;
  _ ← guard_err (any_adjacent_equal (sort_unstable seen_types)) (Malformed (lit "duplicate extension type"));
  Ok sni.

Definition parse_client_hello_body (body : bytes) : res ParseError (option Hostname) :=
  '(version, reader) ← read (Reader.u16 (Reader.new body)) (lit "truncated legacy_version");
  _ ← guard_err (negb (N.shiftr version 8 =? 3)) (Malformed (lit "unsupported legacy_version"));
  '(_, reader) ← read (Reader.bytes RANDOM_LEN reader) (lit "truncated random");
  '(session_id, reader) ← read (Reader.vec8 reader) (lit "truncated legacy_session_id");
  _ ← guard_err (MAX_SESSION_ID_LEN <? len session_id)
        (Malformed (lit "legacy_session_id longer than 32 bytes"));
  '(cipher_suites, reader) ← read (Reader.vec16 reader) (lit "truncated cipher_suites");
  _ ← guard_err (is_empty cipher_suites || negb (len cipher_suites mod 2 =? 0))
        (Malformed (lit "cipher_suites length is empty or odd"));
  '(compression, reader) ← read (Reader.vec8 reader) (lit "truncated legacy_compression_methods");
  _ ← guard_err (is_empty compression) (Malformed (lit "empty legacy_compression_methods"));
  if Reader.is_empty reader then Ok None
  else
    '(extensions, reader) ← read (Reader.vec16 reader) (lit "truncated extensions");
    _ ← guard_err (negb (Reader.is_empty reader)) (Malformed (lit "trailing bytes after extensions"));
    parse_extensions extensions.

(** ** The wire grammar

    What a body is, independent of how it is parsed: each part by its encoding. *)
Definition enc_name (p : byte * bytes) : bytes := p.1 :: enc16 p.2.
Definition enc_names (ps : list (byte * bytes)) : bytes := concat (enc_name <$> ps).
Definition name_ok (p : byte * bytes) : Prop := p.2 ≠ [] ∧ len p.2 < 65536.
Definition host_names (ps : list (byte * bytes)) : list bytes :=
  snd <$> filter (λ p, p.1 = NAME_TYPE_HOST_NAME) ps.
(** At most one host_name, and it is a valid hostname. *)
Definition names_give (ns : list bytes) (o : option Hostname) : Prop :=
  match ns with
  | [] => o = None
  | [n] => ∃ h, Hostname.parse n = Ok h ∧ o = Some h
  | _ => False
  end.
Definition server_name_gives (data : bytes) (o : option Hostname) : Prop :=
  ∃ ps, ps ≠ [] ∧ Forall name_ok ps ∧ len (enc_names ps) < 65536 ∧
    data = enc16 (enc_names ps) ∧ names_give (host_names ps) o.

Definition enc_ext (x : N * bytes) : bytes := to_be16 x.1 ++ enc16 x.2.
Definition enc_exts (xs : list (N * bytes)) : bytes := concat (enc_ext <$> xs).
Definition ext_ok (x : N * bytes) : Prop := x.1 < 65536 ∧ len x.2 < 65536.
(** No extension type twice; the SNI is what a server_name extension gives. *)
Definition exts_give (xs : list (N * bytes)) (o : option Hostname) : Prop :=
  NoDup xs.*1 ∧
  ((∃ data, (EXTENSION_SERVER_NAME, data) ∈ xs ∧ server_name_gives data o) ∨
   (EXTENSION_SERVER_NAME ∉ xs.*1) ∧ o = None).

Record HelloBody := mkHelloBody {
  hb_minor : byte;
  hb_random : bytes;
  hb_session_id : bytes;
  hb_cipher_suites : bytes;
  hb_compression : bytes;
  hb_extensions : option (list (N * bytes));
}.
Definition enc_body (b : HelloBody) : bytes :=
  [x03; hb_minor b] ++ hb_random b ++ enc8 (hb_session_id b) ++ enc16 (hb_cipher_suites b) ++
  enc8 (hb_compression b) ++ from_option (enc16 ∘ enc_exts) [] (hb_extensions b).
Definition body_ok (b : HelloBody) : Prop :=
  len (hb_random b) = 32 ∧ len (hb_session_id b) ≤ 32 ∧
  (hb_cipher_suites b ≠ [] ∧ len (hb_cipher_suites b) < 65536 ∧ len (hb_cipher_suites b) mod 2 = 0) ∧
  (hb_compression b ≠ [] ∧ len (hb_compression b) < 256) ∧
  (∀ xs, hb_extensions b = Some xs → Forall ext_ok xs ∧ len (enc_exts xs) < 65536).
Definition body_gives (b : HelloBody) (o : option Hostname) : Prop :=
  match hb_extensions b with None => o = None | Some xs => exts_give xs o end.

(** ** Lemmas *)
Lemma read_Ok {A} (op : option A * Reader) what a r :
  read op what = Ok (a, r) ↔ op = (Some a, r).
Proof. destruct op as [[]]; unfold read; simpl; naive_solver. Qed.
Lemma read_Some {A} (a : A) r what : read (Some a, r) what = Ok (a, r).
Proof. done. Qed.
Lemma read_returns {A} (op : option A * Reader) what : returns (read op what).
Proof. unfold read. auto with returns. Qed.
#[export] Hint Resolve read_returns : returns.

Lemma reader_is_empty r : Reader.is_empty r = true ↔ remaining r = [].
Proof. apply is_empty_true. Qed.
Lemma enc_name_nonempty p : enc_name p ≠ [].
Proof. done. Qed.
Lemma enc_names_cons p ps : enc_names (p :: ps) = enc_name p ++ enc_names ps.
Proof. done. Qed.
Lemma enc_exts_cons x xs : enc_exts (x :: xs) = enc_ext x ++ enc_exts xs.
Proof. done. Qed.
Lemma enc_names_nil ps : enc_names ps = [] ↔ ps = [].
Proof. by destruct ps. Qed.
Lemma enc_exts_nil xs : enc_exts xs = [] ↔ xs = [].
Proof. by destruct xs. Qed.

Lemma to_lower_ascii b : b2n (to_lower b) < 128 → b2n b < 128.
Proof. destruct b; vm_compute; done. Qed.
Lemma hostname_parse_utf8 s h : Hostname.parse s = Ok h → from_utf8 s = Some s.
Proof.
  intros [_ [Hd _]]%hostname_parse_iff. unfold from_utf8. rewrite utf8_valid_ascii; [done|].
  apply dns_name_ascii in Hd. unfold to_ascii_lowercase in Hd. apply Forall_fmap in Hd.
  eapply Forall_impl; [done|]. intros b. apply to_lower_ascii.
Qed.

(** *** Server names *)
Lemma server_name_step fuel r acc o :
  remaining r ≠ [] →
  server_name_loop (S fuel) r acc = Ok o ↔
  ∃ p r', remaining r = enc_name p ++ remaining r' ∧ name_ok p ∧
    if decide (p.1 = NAME_TYPE_HOST_NAME)
    then acc = None ∧ ∃ h, Hostname.parse p.2 = Ok h ∧ server_name_loop fuel r' (Some h) = Ok o
    else server_name_loop fuel r' acc = Ok o.
Proof.
  intros Hne. cbn [server_name_loop]. apply is_empty_false in Hne. unfold Reader.is_empty. rewrite Hne. split.
  - intros ([ty r1] & Hu%read_Ok%reader_u8_Some & H)%bind_Ok.
    apply bind_Ok in H as ([nm r2] & [Hr Hl]%read_Ok%reader_vec16_Some & H).
    apply bind_unit_Ok in H as [Hn%guard_err_Ok%is_empty_false H].
    exists (ty, nm), r2. unfold enc_name, name_ok. simpl. rewrite Hu, Hr. split_and!; [done..|].
    destruct (byte_eqb_spec ty NAME_TYPE_HOST_NAME); simpl in H.
    + rewrite decide_True by done.
      apply bind_unit_Ok in H as [Ha%guard_err_Ok%bool_decide_eq_false H].
      apply bind_Ok in H as (nm' & ->%ok_or_Ok%from_utf8_Some & (h & Hh%map_err_Ok & H)%bind_Ok).
      split; [by destruct acc; [destruct Ha|]|eauto].
    + by rewrite decide_False.
  - intros ([ty nm] & r2 & Hr & [Hn Hl] & H). cbn [fst snd] in *.
    assert (Reader.u8 r = (Some ty, mkReader (enc16 nm ++ remaining r2))) as ->
      by by apply reader_u8_Some.
    rewrite read_Some. res_simpl.
    assert (Reader.vec16 (mkReader (enc16 nm ++ remaining r2)) = (Some nm, r2)) as ->
      by by apply reader_vec16_Some.
    rewrite read_Some. res_simpl. rewrite (proj2 (is_empty_false nm) Hn). res_simpl.
    destruct (byte_eqb_spec ty NAME_TYPE_HOST_NAME); res_simpl; [|by rewrite decide_False in H].
    rewrite decide_True in H by done. destruct H as (-> & h & Hh & H).
    rewrite bool_decide_eq_false_2 by by intros []. res_simpl.
    rewrite (hostname_parse_utf8 _ _ Hh). res_simpl. by rewrite Hh.
Qed.

(** What the loop adds to the host_name it has. *)
Definition names_add (acc : option Hostname) (ns : list bytes) (o : option Hostname) : Prop :=
  match acc with None => names_give ns o | Some h => ns = [] ∧ o = Some h end.
Lemma names_add_skip acc p ps o :
  p.1 ≠ NAME_TYPE_HOST_NAME → names_add acc (host_names (p :: ps)) o ↔ names_add acc (host_names ps) o.
Proof. intros Hp. unfold host_names. by rewrite filter_cons_False. Qed.
Lemma names_add_host acc p ps o :
  p.1 = NAME_TYPE_HOST_NAME →
  names_add acc (host_names (p :: ps)) o ↔
  acc = None ∧ ∃ h, Hostname.parse p.2 = Ok h ∧ names_add (Some h) (host_names ps) o.
Proof.
  intros Hp. unfold host_names. rewrite filter_cons_True by done. rewrite fmap_cons.
  set (ns := snd <$> filter _ ps). destruct acc as [h|]; simpl.
  - split; [intros [? _]; done|intros [? _]; done].
  - destruct ns as [|n ns]; simpl; naive_solver.
Qed.

Lemma server_name_loop_Ok fuel r acc o :
  (length (remaining r) < fuel)%nat →
  server_name_loop fuel r acc = Ok o ↔
  ∃ ps, remaining r = enc_names ps ∧ Forall name_ok ps ∧ names_add acc (host_names ps) o.
Proof.
  revert r acc. induction fuel as [|fuel IH]; intros r acc Hf; [lia|].
  destruct (decide (remaining r = [])) as [He|Hne].
  - simpl. rewrite (proj2 (reader_is_empty r) He). split.
    + intros [= ->]. exists []. split_and!; [done..|]. by destruct o.
    + intros (ps & Hr & _ & H). rewrite He in Hr. symmetry in Hr. apply enc_names_nil in Hr as ->.
      destruct acc; simpl in H; [by destruct H as [_ ->]|by subst].
  - rewrite server_name_step by done. split.
    + intros (p & r' & Hr & Hp & H).
      assert (length (remaining r') < fuel)%nat as Hf'.
      { rewrite Hr in Hf. unfold enc_name in Hf. simpl in Hf. rewrite length_app in Hf. lia. }
      destruct (decide _) as [Ht|Ht].
      * destruct H as (-> & h & Hh & (ps & Hr' & Hps & H)%IH); [|done].
        exists (p :: ps). rewrite enc_names_cons, Hr, Hr'. split_and!; [done|by constructor|].
        apply names_add_host; eauto.
      * apply IH in H as (ps & Hr' & Hps & H); [|done].
        exists (p :: ps). rewrite enc_names_cons, Hr, Hr'. split_and!; [done|by constructor|].
        by apply names_add_skip.
    + intros (ps & Hr & Hps & H). destruct ps as [|p ps]; [done|].
      inversion Hps as [|? ? Hp Hps']; subst.
      exists p, (mkReader (enc_names ps)). simpl. split_and!; [done..|].
      assert (length (enc_names ps) < fuel)%nat as Hf'.
      { rewrite Hr, enc_names_cons in Hf. unfold enc_name in Hf. simpl in Hf.
        rewrite length_app in Hf. lia. }
      destruct (decide _) as [Ht|Ht].
      * apply names_add_host in H as (-> & h & Hh & H); [|done]. split; [done|].
        exists h. split; [done|]. apply IH; eauto.
      * apply names_add_skip in H; [|done]. apply IH; eauto.
Qed.

Lemma parse_server_name_Ok data o :
  parse_server_name data = Ok o ↔ server_name_gives data o.
Proof.
  unfold parse_server_name, server_name_gives. split.
  - intros ([l r] & [Hr Hl]%read_Ok%reader_vec16_Some & H)%bind_Ok.
    apply bind_unit_Ok in H as [He%guard_err_Ok H].
    apply bind_unit_Ok in H as [Hne%guard_err_Ok%is_empty_false H].
    apply negb_false_iff, reader_is_empty in He. rewrite He, app_nil_r in Hr.
    apply server_name_loop_Ok in H as (ps & Hps' & Hps & H); [|simpl; lia].
    cbn [Reader.new remaining] in *. subst l.
    exists ps. split_and!; try done. by intros ->.
  - intros (ps & Hne & Hps & Hl & -> & H).
    assert (Reader.vec16 (Reader.new (enc16 (enc_names ps))) = (Some (enc_names ps), mkReader [])) as ->.
    { apply reader_vec16_Some. split; [|done]. simpl. by rewrite app_nil_r. }
    rewrite read_Some. res_simpl. assert (is_empty (enc_names ps) = false) as ->.
    { apply is_empty_false. by rewrite enc_names_nil. }
    res_simpl. apply server_name_loop_Ok; [simpl; lia|]. eauto.
Qed.

(** *** Extensions *)
Definition seen_repr (v : SeenTypes.t) (l : list N) : Prop := spill_repr INLINE_EXTENSIONS v l.

(** The SNI after a list of extensions: a later server_name replaces an earlier. *)
Fixpoint sni_fold (s : option Hostname) (xs : list (N * bytes)) (o : option Hostname) : Prop :=
  match xs with
  | [] => o = s
  | x :: xs =>
    if x.1 =? EXTENSION_SERVER_NAME
    then ∃ s', server_name_gives x.2 s' ∧ sni_fold s' xs o
    else sni_fold s xs o
  end.

Lemma seen_push v l x :
  seen_repr v l → ∃ v', SeenTypes.push v x = Ok v' ∧ seen_repr v' (l ++ [x]).
Proof. apply spill_push_repr. done. Qed.

Lemma extension_step fuel r v l s res :
  seen_repr v l → remaining r ≠ [] →
  extension_loop (S fuel) r v s = Ok res ↔
  ∃ x r' v' s', remaining r = enc_ext x ++ remaining r' ∧ ext_ok x ∧
    seen_repr v' (l ++ [x.1]) ∧ SeenTypes.push v x.1 = Ok v' ∧
    (if x.1 =? EXTENSION_SERVER_NAME then parse_server_name x.2 else Ok s) = Ok s' ∧
    extension_loop fuel r' v' s' = Ok res.
Proof.
  intros Hv Hne. cbn [extension_loop]. apply is_empty_false in Hne. unfold Reader.is_empty. rewrite Hne. split.
  - intros ([t r1] & [Hu Ht]%read_Ok%reader_u16_be & H)%bind_Ok.
    apply bind_Ok in H as ([d r2] & [Hr Hl]%read_Ok%reader_vec16_Some & H).
    apply bind_Ok in H as (v' & Hpush & (s' & Hs & H)%bind_Ok).
    exists (t, d), r2, v', s'. cbn [fst snd]. unfold enc_ext, ext_ok. cbn [fst snd].
    destruct (seen_push v l t Hv) as (v'' & Hv'' & Hrepr). rewrite Hpush in Hv''. injection Hv'' as <-.
    rewrite Hu, Hr, <- app_assoc. done.
  - intros ([t d] & r2 & v' & s' & Hr & [Ht Hd] & _ & Hpush & Hs & H). cbn [fst snd] in *.
    unfold enc_ext in Hr. rewrite <- app_assoc in Hr. cbn [fst snd] in Hr.
    assert (Reader.u16 r = (Some t, mkReader (enc16 d ++ remaining r2))) as ->
      by by apply reader_u16_be.
    rewrite read_Some. res_simpl.
    assert (Reader.vec16 (mkReader (enc16 d ++ remaining r2)) = (Some d, r2)) as ->
      by by apply reader_vec16_Some.
    rewrite read_Some. res_simpl. rewrite Hpush. res_simpl. by rewrite Hs.
Qed.

Lemma sni_fold_cons s x xs o :
  sni_fold s (x :: xs) o ↔
  ∃ s', (if x.1 =? EXTENSION_SERVER_NAME then parse_server_name x.2 else Ok s) = Ok s' ∧
    sni_fold s' xs o.
Proof.
  simpl. destruct (x.1 =? EXTENSION_SERVER_NAME).
  - by setoid_rewrite parse_server_name_Ok.
  - split; [eauto|]. by intros (s' & [= ->] & H).
Qed.

Lemma length_enc_ext x : (0 < length (enc_ext x))%nat.
Proof. unfold enc_ext, to_be16. simpl. lia. Qed.

Lemma extension_loop_Ok fuel r v l s o lout :
  (length (remaining r) < fuel)%nat → seen_repr v l →
  (∃ v', extension_loop fuel r v s = Ok (v', o) ∧ seen_repr v' lout) ↔
  ∃ xs, remaining r = enc_exts xs ∧ Forall ext_ok xs ∧ lout = l ++ xs.*1 ∧ sni_fold s xs o.
Proof.
  revert r v l s lout. induction fuel as [|fuel IH]; intros r v l s lout Hf Hv; [lia|].
  destruct (decide (remaining r = [])) as [He|Hne].
  - simpl. rewrite (proj2 (reader_is_empty r) He). split.
    + intros (v' & [= -> ->] & Hv'). exists []. rewrite app_nil_r. split_and!; try done.
      by eapply spill_repr_inj.
    + intros (xs & Hr & _ & -> & H). rewrite He in Hr. symmetry in Hr. apply enc_exts_nil in Hr as ->.
      exists v. simpl in *. subst. by rewrite app_nil_r.
  - assert (∀ x r', remaining r = enc_ext x ++ remaining r' → length (remaining r') < fuel)%nat as Hlt.
    { intros x r' Hr. rewrite Hr, length_app in Hf. pose proof (length_enc_ext x). lia. }
    split.
    + intros (vout & H & Hvout).
      eapply extension_step in H as (x & r' & v' & s' & Hr & Hx & Hv' & _ & Hs & H); [|done..].
      edestruct (proj1 (IH r' v' (l ++ [x.1]) s' lout (Hlt x r' Hr) Hv')) as (xs & Hr' & Hxs & -> & Hf');
        [by exists vout|].
      exists (x :: xs). rewrite enc_exts_cons, Hr, Hr', fmap_cons, <- app_assoc.
      split_and!; [done|by constructor|done|]. apply sni_fold_cons. eauto.
    + intros (xs & Hr & Hxs & -> & H). destruct xs as [|x xs]; [done|].
      inversion Hxs as [|? ? Hx Hxs']; subst. apply sni_fold_cons in H as (s' & Hs & H).
      destruct (seen_push v l x.1 Hv) as (v' & Hpush & Hv').
      destruct (proj2 (IH (mkReader (enc_exts xs)) v' (l ++ [x.1]) s' ((l ++ [x.1]) ++ xs.*1) (Hlt x (mkReader (enc_exts xs)) Hr) Hv'))
        as (vout & Hl & Hvout).
      { by exists xs. }
      exists vout. split; [|by rewrite <- app_assoc in Hvout].
      eapply extension_step; [done..|]. by exists x, (mkReader (enc_exts xs)), v', s'.
Qed.

(** Duplicate detection by sorting. *)
Lemma any_adjacent_equal_sorted l :
  StronglySorted N.le l → any_adjacent_equal l = false ↔ NoDup l.
Proof.
  induction 1 as [|a l Hs IH Ha]; [split; [constructor|done]|].
  destruct l as [|b l]; [split; [intros; apply NoDup_singleton|done]|].
  change (any_adjacent_equal (a :: b :: l)) with ((a =? b) || any_adjacent_equal (b :: l)).
  rewrite orb_false_iff, IH, (NoDup_cons _ (b :: l)), N.eqb_neq. split; intros [Hab Hnd]; (split; [|done]).
  - intros [->|Hin]%elem_of_cons; [done|]. apply Hab. inversion Hs as [|? ? _ Hb]; subst.
    rewrite Forall_forall in Ha, Hb. specialize (Ha b). specialize (Hb a Hin).
    assert (a ≤ b) by (apply Ha; left). lia.
  - intros ->. apply Hab. left.
Qed.
Lemma any_adjacent_equal_sort l : any_adjacent_equal (sort_unstable l) = false ↔ NoDup l.
Proof.
  unfold sort_unstable. rewrite any_adjacent_equal_sorted.
  - by rewrite merge_sort_Permutation.
  - apply StronglySorted_merge_sort; try apply _.
Qed.

Lemma sni_fold_gives xs o : NoDup xs.*1 → sni_fold None xs o ↔ exts_give xs o.
Proof.
  intros Hnd. unfold exts_give. transitivity
    ((∃ data, (EXTENSION_SERVER_NAME, data) ∈ xs ∧ server_name_gives data o) ∨
     (EXTENSION_SERVER_NAME ∉ xs.*1) ∧ o = None); [|naive_solver].
  generalize (None (A := Hostname)) as s. induction xs as [|[t d] xs IH]; intros s.
  { simpl. split; [|by intros [(? & ?%elem_of_nil & _)|[_ ->]]]. intros ->. right.
    split; [apply not_elem_of_nil|done]. }
  rewrite fmap_cons, NoDup_cons in Hnd. destruct Hnd as [Ht Hnd]. simpl in *.
  setoid_rewrite elem_of_cons. destruct (N.eqb_spec t EXTENSION_SERVER_NAME) as [->|Hne].
  - assert (∀ s, sni_fold s xs o ↔ o = s) as Hid.
    { clear IH Hnd. induction xs as [|[t' d'] xs IH]; [done|]. simpl in *.
      intros s'. rewrite not_elem_of_cons in Ht. destruct Ht as [Hne Ht].
      destruct (N.eqb_spec t' EXTENSION_SERVER_NAME); [done|]. by apply IH. }
    setoid_rewrite Hid. split.
    + intros (s' & Hg & ->). left. eauto.
    + intros [(data & [[= ->]|Hin] & Hg)|[Hno _]]; [eauto| |].
      * exfalso. apply Ht. apply list_elem_of_fmap. by exists (EXTENSION_SERVER_NAME, data).
      * exfalso. apply Hno. by left.
  - rewrite (IH Hnd). naive_solver.
Qed.

Lemma extension_loop_repr fuel r v l s v' o :
  seen_repr v l → extension_loop fuel r v s = Ok (v', o) → ∃ l', seen_repr v' l'.
Proof.
  revert r v l s. induction fuel as [|fuel IH]; intros r v l s Hv H; [done|].
  destruct (decide (remaining r = [])) as [He|Hne].
  - cbn [extension_loop] in H. rewrite (proj2 (reader_is_empty r) He) in H. injection H as <- <-. eauto.
  - apply (extension_step fuel r v l s (v', o) Hv Hne) in H
      as (x & r' & w & s' & _ & _ & Hw & _ & _ & H).
    by eapply IH.
Qed.

Lemma parse_extensions_Ok e o :
  parse_extensions e = Ok o ↔ ∃ xs, Forall ext_ok xs ∧ e = enc_exts xs ∧ exts_give xs o.
Proof.
  assert (seen_repr SeenTypes.new []) as Hnew by apply spill_new_repr.
  assert (length (remaining (Reader.new e)) < S (length e))%nat as Hf by (simpl; lia).
  unfold parse_extensions. split.
  - intros ([v o'] & Hl & (l & Hs & H)%bind_Ok)%bind_Ok.
    apply bind_unit_Ok in H as [Hd%guard_err_Ok [= ->]].
    assert (∃ lv, seen_repr v lv) as [lv Hv] by by eapply extension_loop_repr.
    edestruct (proj1 (extension_loop_Ok _ (Reader.new e) _ _ None o lv Hf Hnew))
      as (xs & He & Hxs & -> & Hfold); [by exists v|].
    unfold SeenTypes.as_mut_slice in Hs. rewrite (spill_slice_repr _ _ _ Hv) in Hs.
    injection Hs as <-. apply any_adjacent_equal_sort in Hd.
    exists xs. split_and!; [done..|]. by apply sni_fold_gives.
  - intros (xs & Hxs & -> & Hg). pose proof (proj1 Hg) as Hnd.
    destruct (proj2 (extension_loop_Ok _ (Reader.new (enc_exts xs)) _ _ None o xs.*1 Hf Hnew))
      as (v & Hl & Hv).
    { exists xs. split_and!; try done. by apply sni_fold_gives. }
    rewrite Hl. res_simpl. unfold SeenTypes.as_mut_slice. rewrite (spill_slice_repr _ _ _ Hv).
    res_simpl. rewrite (proj2 (any_adjacent_equal_sort _) Hnd). done.
Qed.

(** *** The body *)
Lemma version_major v : v < 65536 → N.shiftr v 8 = 3 ↔ ∃ m, to_be16 v = [x03; m].
Proof.
  intros Hv. unfold to_be16. split.
  - intros ->. by exists (n2b v).
  - intros (m & [= H _]). apply (f_equal b2n) in H. rewrite b2n_n2b in H.
    rewrite N.shiftr_div_pow2 in *. change (2 ^ 8) with 256 in *.
    rewrite N.mod_small in H; [done|]. apply N.Div0.div_lt_upper_bound. lia.
Qed.
Lemma to_be16_major m : to_be16 (be16 x03 m) = [x03; m].
Proof. apply to_be16_be16. Qed.

Lemma parse_body_sound bs o :
  parse_client_hello_body bs = Ok o → ∃ b, body_ok b ∧ bs = enc_body b ∧ body_gives b o.
Proof.
  unfold parse_client_hello_body. intros ([v r1] & [H1 Hv]%read_Ok%reader_u16_be & H)%bind_Ok.
    apply bind_unit_Ok in H as [Hm%guard_err_Ok%negb_false_iff%N.eqb_eq H].
    apply (version_major v Hv) in Hm as (minor & Hm).
    apply bind_Ok in H as ([rnd r2] & [H2 Hrnd]%read_Ok%reader_bytes_Some & H).
    apply bind_Ok in H as ([sid r3] & [H3 Hsid]%read_Ok%reader_vec8_Some & H).
    apply bind_unit_Ok in H as [Hsl%guard_err_Ok%N.ltb_ge H].
    apply bind_Ok in H as ([cs r4] & [H4 Hcs]%read_Ok%reader_vec16_Some & H).
    apply bind_unit_Ok in H as [[Hcn%is_empty_false Hce%negb_false_iff%N.eqb_eq]%guard_err_Ok%orb_false_iff H].
    apply bind_Ok in H as ([cm r5] & [H5 Hcm]%read_Ok%reader_vec8_Some & H).
    apply bind_unit_Ok in H as [Hcmn%guard_err_Ok%is_empty_false H].
    assert (∀ e, body_gives (mkHelloBody minor rnd sid cs cm e) o →
      (∀ xs, e = Some xs → Forall ext_ok xs ∧ len (enc_exts xs) < 65536) →
      remaining r5 = from_option (enc16 ∘ enc_exts) [] e →
      ∃ b, body_ok b ∧ bs = enc_body b ∧ body_gives b o) as Hfin.
    { intros e Hg He Hr5. exists (mkHelloBody minor rnd sid cs cm e). split_and!; [|..]; try done.
      unfold enc_body. cbn [hb_minor hb_random hb_session_id hb_cipher_suites hb_compression hb_extensions].
      cbn [Reader.new remaining] in H1. by rewrite H1, Hm, H2, H3, H4, H5, Hr5. }
    destruct (Reader.is_empty r5) eqn:Hemp.
    + injection H as <-. apply reader_is_empty in Hemp. by apply (Hfin None).
    + apply bind_Ok in H as ([e r6] & [H6 He]%read_Ok%reader_vec16_Some & H).
      apply bind_unit_Ok in H as [H7%guard_err_Ok%negb_false_iff%reader_is_empty H].
      apply parse_extensions_Ok in H as (xs & Hxs & -> & Hg).
      apply (Hfin (Some xs)); [done| |by rewrite H6, H7, app_nil_r].
      intros ? [= <-]. done.
Qed.
Lemma parse_body_complete b o :
  body_ok b → body_gives b o → parse_client_hello_body (enc_body b) = Ok o.
Proof.
  unfold parse_client_hello_body.
  destruct b as [minor rnd sid cs cm e]. intros (Hrnd & Hsid & (Hcn & Hcl & Hce) & (Hcmn & Hcml) & He) Hg.
    unfold enc_body, body_gives in *.
    cbn [hb_minor hb_random hb_session_id hb_cipher_suites hb_compression hb_extensions] in *.
    set (tail := from_option (enc16 ∘ enc_exts) [] e) in *.
    assert (Reader.u16 (Reader.new ([x03; minor] ++ rnd ++ enc8 sid ++ enc16 cs ++ enc8 cm ++ tail)) =
      (Some (be16 x03 minor), mkReader (rnd ++ enc8 sid ++ enc16 cs ++ enc8 cm ++ tail))) as ->.
    { apply reader_u16_be. rewrite to_be16_major. split; [done|apply be16_lt]. }
    rewrite read_Some. res_simpl.
    rewrite (proj2 (version_major _ (be16_lt x03 minor)) (ex_intro _ minor (to_be16_major minor))).
    cbn [N.eqb Pos.eqb]. res_simpl.
    assert (Reader.bytes RANDOM_LEN (mkReader (rnd ++ enc8 sid ++ enc16 cs ++ enc8 cm ++ tail)) =
      (Some rnd, mkReader (enc8 sid ++ enc16 cs ++ enc8 cm ++ tail))) as ->
      by by apply reader_bytes_Some.
    rewrite read_Some. res_simpl.
    assert (Reader.vec8 (mkReader (enc8 sid ++ enc16 cs ++ enc8 cm ++ tail)) =
      (Some sid, mkReader (enc16 cs ++ enc8 cm ++ tail))) as ->.
    { apply reader_vec8_Some. split; [done|]. lia. }
    rewrite read_Some. res_simpl. rewrite (proj2 (N.ltb_ge MAX_SESSION_ID_LEN (len sid)) Hsid). res_simpl.
    assert (Reader.vec16 (mkReader (enc16 cs ++ enc8 cm ++ tail)) =
      (Some cs, mkReader (enc8 cm ++ tail))) as -> by by apply reader_vec16_Some.
    rewrite read_Some. res_simpl. rewrite (proj2 (is_empty_false cs) Hcn), Hce. res_simpl.
    cbn [N.eqb]. res_simpl.
    assert (Reader.vec8 (mkReader (enc8 cm ++ tail)) = (Some cm, mkReader tail)) as ->
      by by apply reader_vec8_Some.
    rewrite read_Some. res_simpl. rewrite (proj2 (is_empty_false cm) Hcmn). res_simpl.
    destruct e as [xs|]; subst tail; cbn [from_option compose]; [|by subst o].
    destruct (He xs eq_refl) as [Hxs Hlen].
    assert (Reader.is_empty (mkReader (enc16 (enc_exts xs))) = false) as -> by done.
    assert (Reader.vec16 (mkReader (enc16 (enc_exts xs))) = (Some (enc_exts xs), mkReader [])) as ->.
    { apply reader_vec16_Some. cbn [remaining]. by rewrite app_nil_r. }
    rewrite read_Some. res_simpl. apply parse_extensions_Ok. eauto.
Qed.
Lemma parse_client_hello_body_Ok bs o :
  parse_client_hello_body bs = Ok o ↔ ∃ b, body_ok b ∧ bs = enc_body b ∧ body_gives b o.
Proof.
  split; [apply parse_body_sound|]. intros (b & Hb & -> & Hg). by apply parse_body_complete.
Qed.

(** *** Totality: the loops have enough fuel, and nothing panics *)
Lemma server_name_loop_returns fuel r acc :
  (length (remaining r) < fuel)%nat → returns (server_name_loop fuel r acc).
Proof.
  revert r acc. induction fuel as [|fuel IH]; intros r acc Hf; [lia|]. cbn [server_name_loop].
  destruct (Reader.is_empty r); [auto with returns|].
  apply returns_bind; [auto with returns|]. intros [ty r1] Hu%read_Ok%reader_u8_Some.
  apply returns_bind; [auto with returns|]. intros [nm r2] [Hr _]%read_Ok%reader_vec16_Some.
  assert (length (remaining r2) < fuel)%nat as Hf2.
  { rewrite Hu in Hf. simpl in Hf. rewrite Hr, length_app in Hf. lia. }
  apply returns_bind; [auto with returns|]. intros _ _.
  destruct (negb _); [by apply IH|].
  apply returns_bind; [auto with returns|]. intros _ _.
  apply returns_bind; [auto with returns|]. intros n _.
  apply returns_bind; [auto with returns|]. intros h _. by apply IH.
Qed.
Lemma parse_server_name_returns data : returns (parse_server_name data).
Proof.
  unfold parse_server_name. apply returns_bind; [auto with returns|]. intros [l r] _.
  apply returns_bind; [auto with returns|]. intros _ _.
  apply returns_bind; [auto with returns|]. intros _ _.
  apply server_name_loop_returns. simpl. lia.
Qed.
#[export] Hint Resolve parse_server_name_returns : returns.
Lemma extension_loop_returns fuel r v l s :
  (length (remaining r) < fuel)%nat → seen_repr v l → returns (extension_loop fuel r v s).
Proof.
  revert r v l s. induction fuel as [|fuel IH]; intros r v l s Hf Hv; [lia|]. cbn [extension_loop].
  destruct (Reader.is_empty r); [auto with returns|].
  apply returns_bind; [auto with returns|]. intros [t r1] [Hu _]%read_Ok%reader_u16_be.
  apply returns_bind; [auto with returns|]. intros [d r2] [Hr _]%read_Ok%reader_vec16_Some.
  assert (length (remaining r2) < fuel)%nat as Hf2.
  { rewrite Hu, length_app in Hf. rewrite Hr, length_app in Hf. simpl in Hf. lia. }
  destruct (seen_push v l t Hv) as (v' & Hpush & Hv'). rewrite Hpush. res_simpl.
  apply returns_bind; [auto with returns|]. intros s' _. by eapply IH.
Qed.
Lemma parse_extensions_returns e : returns (parse_extensions e).
Proof.
  assert (seen_repr SeenTypes.new []) as Hnew by apply spill_new_repr.
  unfold parse_extensions. apply returns_bind.
  { eapply extension_loop_returns; [simpl; lia|done]. }
  intros [v o] Hl. destruct (extension_loop_repr _ _ _ _ _ _ _ Hnew Hl) as [l Hv].
  unfold SeenTypes.as_mut_slice. rewrite (spill_slice_repr _ _ _ Hv). res_simpl.
  apply returns_bind; auto with returns.
Qed.
#[export] Hint Resolve parse_extensions_returns : returns.
Lemma parse_client_hello_body_returns b : returns (parse_client_hello_body b).
Proof.
  unfold parse_client_hello_body.
  repeat match goal with
  | |- returns (_ ≫= _) => apply returns_bind; [auto with returns|]
  | |- returns (if _ then _ else _) => case_match
  | |- ∀ _, _ => intros
  | p : _ * _ |- _ => destruct p
  end; auto with returns.
Qed.
#[export] Hint Resolve parse_client_hello_body_returns : returns.
