(* ===== verification/Records.v ===== *)
(** * TLS record walking and handshake reassembly ([protocol/record.rs]) *)

From S2P Require Import Prelude Str Net Names Protocol Reader SpillVec Hello.
From Stdlib Require Import Strings.Byte.

Definition CONTENT_TYPE_HANDSHAKE : byte := x16.
Definition HANDSHAKE_TYPE_CLIENT_HELLO : byte := x01.
Definition RECORD_VERSION_MAJOR : byte := x03.
Definition INLINE_RECORDS : N := 4.

(** ** Payload ranges *)
Definition range : Type := N * N.
Definition range_len (r : range) : N := r.2 - r.1.

Module Payloads.
Definition t := spill_vec range.
Definition new : t := spill_new INLINE_RECORDS (0, 0).
Definition len (v : t) : N := spill_len v.
Definition push (v : t) (r : range) : res ParseError t := spill_push INLINE_RECORDS v r.
Definition as_slice (v : t) : res ParseError (list range) := spill_slice v.
End Payloads.

(** Where a complete ClientHello's handshake bytes sit in the wire buffer. *)
Record RecordLayout := mkRecordLayout {
  rl_payloads : Payloads.t;
  rl_handshake_len : N;
  rl_consumed : N;
}.

(** ** Record headers *)
Definition check_partial_record_header (header : bytes) (first_record : bool) :
    res ParseError unit :=
  _ ← guard_err (match get 0 header with
                 | Some content_type => negb (Byte.eqb content_type CONTENT_TYPE_HANDSHAKE)
                 | None => false
                 end) (if first_record then NotHandshake else InvalidRecord);
  guard_err (match get 1 header with
             | Some major => negb (Byte.eqb major RECORD_VERSION_MAJOR)
             | None => false
             end) InvalidRecord.

Definition check_record_header (header : bytes) (first_record : bool) : res ParseError N :=
  _ ← check_partial_record_header header first_record;
  hi ← index header 3;
  lo ← index header 4;
  let len := be16 hi lo in
  if (len =? 0) || (MAX_RECORD_PAYLOAD <? len) then Err InvalidRecord else Ok len.

(** ** The handshake header, possibly split across records *)
Record HandshakeHeader := mkHandshakeHeader { hh_bytes : bytes; hh_known : N }.

Module HandshakeHeader.
Definition default : HandshakeHeader := mkHandshakeHeader [x00; x00; x00; x00] 0.

(** The [for] loop of [observe]. *)
Fixpoint store (self : HandshakeHeader) (payload : bytes) : res ParseError HandshakeHeader :=
  match payload with
  | [] => Ok self
  | byte :: payload =>
    stored ← index_set (hh_known self) byte (hh_bytes self);
    known ← uadd (hh_known self) 1;
    store (mkHandshakeHeader stored known) payload
  end.

Definition observe (self : HandshakeHeader) (payload : bytes) (limits : HelloLimits) :
    res ParseError (HandshakeHeader * option N) :=
  missing ← usub HANDSHAKE_HEADER_LEN (hh_known self);
  self ← store self (takeN missing payload);
  _ ← (if 1 <=? hh_known self then
         first ← index (hh_bytes self) 0;
         guard_err (negb (Byte.eqb first HANDSHAKE_TYPE_CLIENT_HELLO)) NotClientHello
       else Ok ());
  if hh_known self <? HANDSHAKE_HEADER_LEN then Ok (self, None)
  else
    match hh_bytes self with
    | [_; high; mid; low] =>
      let len := N.lor (N.lor (N.shiftl (b2n high) 16) (N.shiftl (b2n mid) 8)) (b2n low) in
      if max_handshake_bytes limits <? len then Err TooLargeHello else Ok (self, Some len)
    | _ => Stuck SPanic
    end.
End HandshakeHeader.

(** ** The record walk

    One [loop] iteration per record; [fuel] bounds the iterations. *)
Fixpoint scan_loop (fuel : nat) (buf : bytes) (limits : HelloLimits) (offset : N)
    (payloads : Payloads.t) (header : HandshakeHeader) (payload_total : N) :
    res ParseError RecordLayout :=
  match fuel with
  | O => Stuck SFuel
  | S fuel =>
    rest ← slice_from offset buf;
    if len rest <? RECORD_HEADER_LEN then
      _ ← check_partial_record_header rest (offset =? 0);
      Err Incomplete
    else
      payload_len ← check_record_header (takeN RECORD_HEADER_LEN rest) (offset =? 0);
      if Payloads.len payloads =? max_records limits then Err TooLargeHello
      else
        payload_start ← uadd offset RECORD_HEADER_LEN;
        payload_end ← uadd payload_start payload_len;
        available ← slice payload_start (payload_end `min` len buf) buf;
        '(header, handshake_len) ← HandshakeHeader.observe header available limits;
        if len available <? payload_len then Err Incomplete
        else
          payloads ← Payloads.push payloads (payload_start, payload_end);
          payload_total ← uadd payload_total payload_len;
          let offset := payload_end in
          match handshake_len with
          | Some handshake_len =>
            needed ← uadd HANDSHAKE_HEADER_LEN handshake_len;
            if needed <=? payload_total then Ok (mkRecordLayout payloads handshake_len offset)
            else scan_loop fuel buf limits offset payloads header payload_total
          | None => scan_loop fuel buf limits offset payloads header payload_total
          end
  end.

Definition scan_records (buf : bytes) (limits : HelloLimits) : res ParseError RecordLayout :=
  scan_loop (S (length buf)) buf limits 0 Payloads.new HandshakeHeader.default 0.

(** The [for] loop that copies the fragments into one message. *)
Fixpoint reassemble (buf : bytes) (message_len : N) (message : bytes) (fragments : list range) :
    res ParseError bytes :=
  match fragments with
  | [] => Ok message
  | fragment :: fragments =>
    missing ← usub message_len (len message);
    let take := missing `min` range_len fragment in
    stop ← uadd fragment.1 take;
    part ← slice fragment.1 stop buf;
    reassemble buf message_len (message ++ part) fragments
  end.

Definition parse_client_hello (buf : bytes) (limits : HelloLimits) : res ParseError ClientHelloInfo :=
  layout ← scan_records buf limits;
  message_len ← uadd HANDSHAKE_HEADER_LEN (rl_handshake_len layout);
  fragments ← Payloads.as_slice (rl_payloads layout);
  sni ← match fragments with
        | [only] =>
          first ← uadd only.1 HANDSHAKE_HEADER_LEN;
          stop ← uadd only.1 message_len;
          body ← slice first stop buf;
          parse_client_hello_body body
        | fragments =>
          message ← reassemble buf message_len [] fragments;
          body ← slice_from HANDSHAKE_HEADER_LEN message;
          parse_client_hello_body body
        end;
  Ok (mkClientHelloInfo sni (rl_consumed layout)).

(** ** The wire grammar: records, and the message they carry *)
Definition record : Type := byte * bytes.
Definition enc_record (r : record) : bytes :=
  [CONTENT_TYPE_HANDSHAKE; RECORD_VERSION_MAJOR; r.1] ++ enc16 r.2.
Definition enc_records (rs : list record) : bytes := concat (enc_record <$> rs).
Definition record_ok (r : record) : Prop := 1 ≤ len r.2 ≤ MAX_RECORD_PAYLOAD.
Definition payload_of (rs : list record) : bytes := concat rs.*2.

(** [u24] big-endian. *)
Definition be24 (high mid low : byte) : N := 65536 * b2n high + 256 * b2n mid + b2n low.
Definition to_be24 (n : N) : bytes := [n2b (N.shiftr n 16); n2b (N.shiftr n 8); n2b n].
Definition enc_message (body : bytes) : bytes :=
  HANDSHAKE_TYPE_CLIENT_HELLO :: to_be24 (len body) ++ body.

(** The declared body length, once four bytes of the handshake are known. *)
Definition declared_len (m : bytes) : option N :=
  match m with _ :: high :: mid :: low :: _ => Some (be24 high mid low) | _ => None end.
Definition is_complete (m : bytes) : bool :=
  match declared_len m with Some hl => HANDSHAKE_HEADER_LEN + hl <=? len m | None => false end.

(** ** A reference parser without indices

    [walk] reads one record after another off the remaining bytes and keeps the
    payloads as a list; no offsets, no array, no partial header. *)
Definition check_message (m : bytes) (limits : HelloLimits) : res ParseError (option N) :=
  _ ← guard_err (match m with b :: _ => negb (Byte.eqb b HANDSHAKE_TYPE_CLIENT_HELLO) | [] => false end)
        NotClientHello;
  match declared_len m with
  | Some hl => if max_handshake_bytes limits <? hl then Err TooLargeHello else Ok (Some hl)
  | None => Ok None
  end.

Fixpoint walk (fuel : nat) (limits : HelloLimits) (got : list bytes) (rest : bytes) :
    res ParseError (list bytes * N * bytes) :=
  match fuel with
  | O => Stuck SFuel
  | S fuel =>
    if len rest <? RECORD_HEADER_LEN then
      _ ← check_partial_record_header rest (is_empty got); Err Incomplete
    else
      plen ← check_record_header (takeN RECORD_HEADER_LEN rest) (is_empty got);
      if len got =? max_records limits then Err TooLargeHello
      else
        let avail := takeN plen (dropN RECORD_HEADER_LEN rest) in
        ol ← check_message (concat got ++ avail) limits;
        if len avail <? plen then Err Incomplete
        else
          let got := got ++ [avail] in
          let rest := dropN (RECORD_HEADER_LEN + plen) rest in
          match ol with
          | Some hl =>
            if HANDSHAKE_HEADER_LEN + hl <=? len (concat got) then Ok (got, hl, rest)
            else walk fuel limits got rest
          | None => walk fuel limits got rest
          end
  end.

Definition parse_reference (limits : HelloLimits) (buf : bytes) : res ParseError ClientHelloInfo :=
  '(payloads, hl, rest) ← walk (S (length buf)) limits [] buf;
  sni ← parse_client_hello_body (takeN hl (dropN HANDSHAKE_HEADER_LEN (concat payloads)));
  Ok (mkClientHelloInfo sni (len buf - len rest)).

(** ** Lemmas *)

(** *** Big-endian lengths *)
Lemma lor_shiftl_add h l k : l < 2 ^ k → N.lor (N.shiftl h k) l = h * 2 ^ k + l.
Proof.
  intros Hl. apply N.bits_inj. intros n. rewrite N.lor_spec.
  destruct (N.lt_ge_cases n k) as [Hn|Hn].
  - rewrite N.shiftl_spec_low by done. simpl.
    rewrite <- (N.mod_pow2_bits_low (h * 2 ^ k + l) k n) by done.
    rewrite N.add_comm, N.Div0.mod_add, N.mod_small by done. done.
  - rewrite N.shiftl_spec_high' by done.
    replace n with ((n - k) + k) at 2 3 by lia. rewrite <- !N.div_pow2_bits.
    rewrite N.div_add_l by by apply N.pow_nonzero. rewrite (N.div_small l) by done.
    by rewrite N.bits_0, orb_false_r, N.add_0_r.
Qed.
Lemma be24_bits h m l :
  N.lor (N.lor (N.shiftl (b2n h) 16) (N.shiftl (b2n m) 8)) (b2n l) = be24 h m l.
Proof.
  pose proof (b2n_lt m). pose proof (b2n_lt l).
  change 16 with (8 + 8). rewrite <- N.shiftl_shiftl, <- N.shiftl_lor, !lor_shiftl_add by done.
  unfold be24. change (2 ^ 8) with 256. lia.
Qed.
Lemma be24_lt h m l : be24 h m l < 2 ^ 24.
Proof.
  pose proof (b2n_lt h). pose proof (b2n_lt m). pose proof (b2n_lt l). unfold be24. simpl. lia.
Qed.
Lemma be24_to_be24 n :
  n < 2 ^ 24 → be24 (n2b (N.shiftr n 16)) (n2b (N.shiftr n 8)) (n2b n) = n.
Proof.
  intros Hn. unfold be24. rewrite !b2n_n2b, !N.shiftr_div_pow2.
  change (2 ^ 24) with (256 * 256 * 256) in Hn. change (2 ^ 16) with (256 * 256). change (2 ^ 8) with 256.
  rewrite <- N.Div0.div_div.
  rewrite (N.mod_small (n / 256 / 256)) by (repeat apply N.Div0.div_lt_upper_bound; lia).
  pose proof (N.div_mod n 256 ltac:(done)). pose proof (N.div_mod (n / 256) 256 ltac:(done)). lia.
Qed.
Lemma to_be24_be24 h m l : to_be24 (be24 h m l) = [h; m; l].
Proof.
  pose proof (be24_lt h m l) as Hlt. pose proof (be24_to_be24 _ Hlt) as H.
  unfold to_be24. revert H. generalize (n2b (N.shiftr (be24 h m l) 16)) as a,
    (n2b (N.shiftr (be24 h m l) 8)) as b, (n2b (be24 h m l)) as c. intros a b c H.
  unfold be24 in H. pose proof (b2n_lt a). pose proof (b2n_lt b). pose proof (b2n_lt c).
  pose proof (b2n_lt h). pose proof (b2n_lt m). pose proof (b2n_lt l).
  f_equal; [|f_equal; [|f_equal]]; apply b2n_inj; lia.
Qed.

(** *** The incremental header is the first four bytes *)
Definition header_of (m : bytes) : HandshakeHeader :=
  mkHandshakeHeader (takeN 4 (m ++ [x00; x00; x00; x00])) (4 `min` len m).

Lemma store_header_of m p :
  len m + len p ≤ 4 → HandshakeHeader.store (header_of m) p = Ok (header_of (m ++ p)).
Proof.
  revert m. induction p as [|b p IH]; intros m Hm; [by rewrite app_nil_r|].
  assert (HandshakeHeader.store (header_of m) (b :: p) =
    HandshakeHeader.store (header_of (m ++ [b])) p) as ->.
  { destruct m as [|b0 [|b1 [|b2 [|b3 m]]]]; [done..|]. len_lia. }
  rewrite IH; [by rewrite <- app_assoc|]. len_lia.
Qed.
Lemma header_of_take m p : header_of (m ++ takeN (4 - len m) p) = header_of (m ++ p).
Proof.
  unfold header_of. f_equal.
  - destruct (N.le_gt_cases 4 (len m)).
    + replace (4 - len m) with 0 by lia. by rewrite <- !app_assoc, !takeN_app_le.
    + destruct (N.le_gt_cases (len p) (4 - len m)); [by rewrite (takeN_ge (4 - len m) p)|].
      rewrite <- !app_assoc, !(takeN_app 4 m). f_equal.
      rewrite takeN_app_len by (rewrite len_takeN; lia). by rewrite takeN_app_le by lia.
  - len_lia.
Qed.
Lemma observe_header_of m p limits :
  HandshakeHeader.observe (header_of m) p limits =
  (λ ol, (header_of (m ++ p), ol)) <$> check_message (m ++ p) limits.
Proof.
  unfold HandshakeHeader.observe.
  assert (hh_known (header_of m) = 4 `min` len m) as -> by done.
  rewrite usub_Ok by (unfold HANDSHAKE_HEADER_LEN; lia). res_simpl.
  replace (HANDSHAKE_HEADER_LEN - 4 `min` len m) with (4 - len m) by (unfold HANDSHAKE_HEADER_LEN; lia).
  assert (HandshakeHeader.store (header_of m) (takeN (4 - len m) p) = Ok (header_of (m ++ p))) as ->.
  { destruct (N.le_gt_cases (len m) 4).
    - rewrite store_header_of by len_lia. by rewrite header_of_take.
    - replace (4 - len m) with 0 by lia. simpl. rewrite <- (header_of_take m p).
      replace (4 - len m) with 0 by lia. simpl. by rewrite app_nil_r. }
  res_simpl. unfold check_message.
  destruct (m ++ p) as [|b0 [|b1 [|b2 [|b3 q]]]]; [done|by (cbv - [Byte.eqb]; destruct (Byte.eqb _ _))..|].
  assert (hh_known (header_of (b0 :: b1 :: b2 :: b3 :: q)) = 4) as Hk.
  { unfold header_of. cbn [hh_known]. len_lia. }
  rewrite Hk. change (1 <=? 4) with true. change (4 <? HANDSHAKE_HEADER_LEN) with false. cbv iota.
  assert (hh_bytes (header_of (b0 :: b1 :: b2 :: b3 :: q)) = [b0; b1; b2; b3]) as -> by done.
  change (index (E := ParseError) [b0; b1; b2; b3] 0) with (Ok (E := ParseError) b0).
  cbn [declared_len]. res_simpl. rewrite be24_bits.
  destruct (negb (Byte.eqb b0 _)); res_simpl; [done|].
  by destruct (max_handshake_bytes limits <? be24 b1 b2 b3).
Qed.

(** *** Record headers *)
Lemma check_record_header_Ok hdr first plen :
  len hdr = RECORD_HEADER_LEN →
  check_record_header hdr first = Ok plen ↔
  ∃ minor, hdr = [CONTENT_TYPE_HANDSHAKE; RECORD_VERSION_MAJOR; minor] ++ to_be16 plen ∧
    1 ≤ plen ≤ MAX_RECORD_PAYLOAD.
Proof.
  unfold RECORD_HEADER_LEN. intros Hlen.
  destruct hdr as [|t [|v [|minor [|hi [|lo [|? hdr]]]]]]; try len_lia.
  clear Hlen. unfold check_record_header, check_partial_record_header.
  change (get 0 [t; v; minor; hi; lo]) with (Some t).
  change (get 1 [t; v; minor; hi; lo]) with (Some v).
  change (index (E := ParseError) [t; v; minor; hi; lo] 3) with (Ok (E := ParseError) hi).
  change (index (E := ParseError) [t; v; minor; hi; lo] 4) with (Ok (E := ParseError) lo).
  cbv iota beta. destruct (byte_eqb_spec t CONTENT_TYPE_HANDSHAKE) as [->|Ht]; res_simpl.
  2: { split; [done|]. by intros (m & [= -> _] & _). }
  destruct (byte_eqb_spec v RECORD_VERSION_MAJOR) as [->|Hv]; res_simpl.
  2: { split; [done|]. by intros (m & [= -> _] & _). }
  destruct ((be16 hi lo =? 0) || (MAX_RECORD_PAYLOAD <? be16 hi lo)) eqn:Hl.
  - split; [done|]. intros (m & [= -> -> ->] & Hp). exfalso.
    unfold MAX_RECORD_PAYLOAD in *. rewrite be16_to_be16 in Hl by lia.
    apply orb_true_iff in Hl as [?%N.eqb_eq|?%N.ltb_lt]; lia.
  - apply orb_false_iff in Hl as [H0%N.eqb_neq H1%N.ltb_ge]. split.
    + intros [= <-]. exists minor. rewrite to_be16_be16. split; [done|lia].
    + intros (m & [= -> -> ->] & Hp). unfold MAX_RECORD_PAYLOAD in *. by rewrite be16_to_be16 by lia.
Qed.
Lemma check_partial_returns hdr first : returns (check_partial_record_header hdr first).
Proof. unfold check_partial_record_header. apply returns_bind; auto with returns. Qed.
#[export] Hint Resolve check_partial_returns : returns.
Lemma index_Ok {E A} (l : list A) i : i < len l → ∃ x, index (E := E) l i = Ok x.
Proof. intros [x Hx]%get_lt. exists x. unfold index. by rewrite Hx. Qed.
Lemma check_record_header_returns hdr first :
  len hdr = RECORD_HEADER_LEN → returns (check_record_header hdr first).
Proof.
  unfold RECORD_HEADER_LEN. intros Hl. unfold check_record_header.
  apply returns_bind; [auto with returns|]. intros _ _.
  destruct (index_Ok (E := ParseError) hdr 3) as [hi ->]; [lia|]. res_simpl.
  destruct (index_Ok (E := ParseError) hdr 4) as [lo ->]; [lia|]. res_simpl. auto with returns.
Qed.
Lemma check_message_returns m limits : returns (check_message m limits).
Proof.
  unfold check_message. apply returns_bind; [auto with returns|]. intros _ _.
  destruct (declared_len m); auto with returns.
Qed.
#[export] Hint Resolve check_message_returns : returns.

(** *** The walk over indices refines the walk over lists *)
Definition range_at (buf : bytes) (r : range) (p : bytes) : Prop :=
  r.1 + len p = r.2 ∧ r.2 ≤ len buf ∧ takeN (len p) (dropN r.1 buf) = p.

Definition layout_at (buf : bytes) (l : RecordLayout) (w : list bytes * N * bytes) : Prop :=
  let '(payloads, hl, rest) := w in
  rl_handshake_len l = hl ∧ rl_consumed l + len rest = len buf ∧
  ∃ ranges, spill_repr INLINE_RECORDS (rl_payloads l) ranges ∧ Forall2 (range_at buf) ranges payloads.

Definition res_rel {E A B} (R : A → B → Prop) (a : res E A) (b : res E B) : Prop :=
  match a, b with
  | Ok a, Ok b => R a b
  | Err e, Err e' => e = e'
  | Stuck s, Stuck s' => s = s'
  | _, _ => False
  end.

Lemma res_rel_bind {E A B A' B'} (R : A → B → Prop) (R' : A' → B' → Prop) (a : res E A) (b : res E B)
    (f : A → res E A') (g : B → res E B') :
  res_rel R a b → (∀ x y, a = Ok x → b = Ok y → R x y → res_rel R' (f x) (g y)) →
  res_rel R' (a ≫= f) (b ≫= g).
Proof. destruct a, b; simpl; intros HR H; subst; by auto || done. Qed.
Lemma res_rel_refl {E A} (a : res E A) : res_rel (=) a a.
Proof. by destruct a. Qed.

Lemma declared_len_lt m hl : declared_len m = Some hl → hl < 2 ^ 24.
Proof. destruct m as [|? [|? [|? [|? m]]]]; simpl; try done. intros [= <-]. apply be24_lt. Qed.
Lemma check_message_lt m limits hl : check_message m limits = Ok (Some hl) → hl < 2 ^ 24.
Proof.
  unfold check_message. intros (_ & _ & H)%bind_Ok.
  destruct (declared_len m) eqn:Hd; [|done]. apply declared_len_lt in Hd. case_match; naive_solver.
Qed.

(** The bytes of the record at [offset] that are there. *)
Lemma slice_record (buf : bytes) offset plen :
  offset + RECORD_HEADER_LEN ≤ len buf →
  slice (E := ParseError) (offset + RECORD_HEADER_LEN) ((offset + RECORD_HEADER_LEN + plen) `min` len buf) buf =
  Ok (takeN plen (dropN RECORD_HEADER_LEN (dropN offset buf))).
Proof.
  unfold RECORD_HEADER_LEN. intros Hl. rewrite slice_Ok by lia. rewrite dropN_dropN. f_equal.
  destruct (N.le_gt_cases (offset + 5 + plen) (len buf)).
  - f_equal. lia.
  - rewrite !takeN_ge by len_lia. done.
Qed.
(** One more record, whole, in the list of ranges. *)
Lemma range_at_snoc (buf : bytes) offset plen ranges got :
  Forall2 (range_at buf) ranges got → offset + RECORD_HEADER_LEN + plen ≤ len buf →
  Forall2 (range_at buf) (ranges ++ [(offset + RECORD_HEADER_LEN, offset + RECORD_HEADER_LEN + plen)])
    (got ++ [takeN plen (dropN RECORD_HEADER_LEN (dropN offset buf))]).
Proof.
  unfold RECORD_HEADER_LEN. intros Hr Hl. apply Forall2_app; [done|]. constructor; [|done]. unfold range_at. simpl.
  rewrite dropN_dropN, len_takeN, len_dropN. split_and!; [lia|done|]. f_equal. lia.
Qed.

Lemma payloads_len buf payloads ranges (got : list bytes) :
  spill_repr INLINE_RECORDS payloads ranges → Forall2 (range_at buf) ranges got → Payloads.len payloads = len got.
Proof.
  intros Hrepr Hranges. unfold Payloads.len. rewrite (spill_len_repr _ _ _ Hrepr). unfold len.
  by rewrite (Forall2_length _ _ _ Hranges).
Qed.

Lemma scan_loop_walk fuel limits buf offset payloads total ranges got :
  len buf ≤ isize_max → offset ≤ len buf →
  spill_repr INLINE_RECORDS payloads ranges → Forall2 (range_at buf) ranges got →
  (offset =? 0) = is_empty got → total = len (concat got) → total ≤ offset →
  res_rel (layout_at buf)
    (scan_loop fuel buf limits offset payloads (header_of (concat got)) total)
    (walk fuel limits got (dropN offset buf)).
Proof.
  intros Hmax. revert offset payloads total ranges got. unfold isize_max in Hmax.
  induction fuel as [|fuel IH]; intros offset payloads total ranges got Hoff Hrepr Hranges Hfirst Htot Hle;
    [done|]. cbn [scan_loop walk].
  rewrite slice_from_Ok by done. res_simpl. set (rest := dropN offset buf) in *.
  assert (len rest = len buf - offset) as Hrest by (unfold rest; len_lia).
  rewrite Hfirst. destruct (N.ltb_spec (len rest) RECORD_HEADER_LEN) as [|H5].
  { eapply res_rel_bind; [apply res_rel_refl|]. done. }
  unfold RECORD_HEADER_LEN in *.
  eapply res_rel_bind; [apply res_rel_refl|]. intros plen ? Hplen _ <-.
  apply check_record_header_Ok in Hplen as (_ & _ & Hplen); [|unfold RECORD_HEADER_LEN; len_lia].
  unfold MAX_RECORD_PAYLOAD in Hplen.
  rewrite (payloads_len _ _ _ _ Hrepr Hranges).
  destruct (len got =? max_records limits); [done|].
  rewrite (uadd_Ok offset 5) by (unfold usize_max; lia). res_simpl.
  rewrite (uadd_Ok (offset + 5) plen) by (unfold usize_max; lia). res_simpl.
  pose proof (slice_record buf offset plen ltac:(unfold RECORD_HEADER_LEN; lia)) as Hslice.
  unfold RECORD_HEADER_LEN in Hslice. rewrite Hslice. res_simpl. fold rest.
  set (avail := takeN plen (dropN 5 rest)).
  rewrite observe_header_of. destruct (check_message (concat got ++ avail) limits) as [ol| |] eqn:Hol;
    res_simpl; [|done..].
  destruct (N.ltb_spec (len avail) plen) as [|Hav]; [done|].
  assert (len avail = plen ∧ offset + 5 + plen ≤ len buf) as [Hlav Hend].
  { unfold avail in *. rewrite len_takeN, len_dropN in *. lia. }
  destruct (spill_push_repr (E := ParseError) INLINE_RECORDS payloads ranges
    (offset + 5, offset + 5 + plen) ltac:(done) Hrepr) as (payloads' & Hpush & Hrepr').
  unfold Payloads.push. rewrite Hpush. res_simpl.
  rewrite uadd_Ok by (unfold usize_max; lia). res_simpl.
  assert (concat (got ++ [avail]) = concat got ++ avail) as Hcat by by rewrite concat_app; simpl; rewrite app_nil_r.
  pose proof (range_at_snoc buf offset plen _ _ Hranges Hend) as Hr'.
  assert (dropN (5 + plen) rest = dropN (offset + 5 + plen) buf) as ->.
  { unfold rest. rewrite dropN_dropN. f_equal. lia. }
  assert (res_rel (layout_at buf)
    (scan_loop fuel buf limits (offset + 5 + plen) payloads' (header_of (concat got ++ avail)) (total + plen))
    (walk fuel limits (got ++ [avail]) (dropN (offset + 5 + plen) buf))) as Hnext.
  { rewrite <- Hcat. eapply IH; [done|done|done| | |lia].
    - destruct got; simpl; apply N.eqb_neq; lia.
    - rewrite Hcat, len_app. lia. }
  destruct ol as [hl|]; [|done].
  pose proof (check_message_lt _ _ _ Hol) as Hhl. change (2 ^ 24) with 16777216 in Hhl.
  unfold HANDSHAKE_HEADER_LEN. rewrite uadd_Ok by (unfold usize_max; lia). res_simpl.
  rewrite Hcat, len_app, Htot, Hlav.
  destruct (4 + hl <=? len (concat got) + plen); [|by rewrite <- Htot].
  simpl. split_and!; [done|len_lia|]. eauto.
Qed.

(** *** Copying the fragments *)
Lemma reassemble_takes buf ml message ranges ps :
  len buf ≤ isize_max → len message ≤ ml → ml < 2 ^ 25 → Forall2 (range_at buf) ranges ps →
  reassemble buf ml message ranges = Ok (message ++ takeN (ml - len message) (concat ps)).
Proof.
  intros Hbuf Hm Hml Hr. revert message Hm. unfold isize_max in Hbuf. change (2 ^ 25) with 33554432 in Hml.
  induction Hr as [|[a b] p ranges ps (Hab & Hb & Hp) Hr IH]; intros message Hm.
  { cbn [reassemble concat]. by rewrite takeN_ge, app_nil_r by len_lia. }
  cbn [reassemble concat fst snd] in *. rewrite usub_Ok by done. res_simpl.
  unfold range_len. cbn [fst snd].
  set (n := (ml - len message) `min` (b - a)).
  rewrite uadd_Ok by (unfold usize_max; lia). res_simpl. rewrite slice_Ok by lia. res_simpl.
  assert (takeN (a + n - a) (dropN a buf) = takeN (ml - len message) p) as ->.
  { rewrite <- Hp. rewrite takeN_takeN. f_equal. lia. }
  rewrite IH by len_lia. rewrite takeN_app, <- app_assoc. do 4 f_equal. len_lia.
Qed.

Lemma slice_of_range {E} buf a b p i j :
  len buf ≤ isize_max → range_at buf (a, b) p → i ≤ j → j ≤ len p →
  slice (E := E) (a + i) (a + j) buf = Ok (takeN (j - i) (dropN i p)).
Proof.
  intros Hbuf (Hab & Hb & Hp) Hij Hj. cbn [fst snd] in *. rewrite slice_Ok by lia. f_equal.
  rewrite <- Hp. unfold takeN, dropN. rewrite skipn_firstn_comm, take_take, drop_drop. f_equal; [lia|].
  f_equal. lia.
Qed.

(** What a finished walk has read: enough bytes for the declared message. *)
Lemma walk_complete fuel limits got rest ps hl rest' :
  walk fuel limits got rest = Ok (ps, hl, rest') →
  HANDSHAKE_HEADER_LEN + hl ≤ len (concat ps) ∧ hl < 2 ^ 24 ∧ ps ≠ [].
Proof.
  revert got rest. induction fuel as [|fuel IH]; intros got rest H; [done|]. cbn [walk] in H.
  destruct (len rest <? RECORD_HEADER_LEN); [by apply bind_Ok in H as (? & ? & ?)|].
  apply bind_Ok in H as (plen & _ & H). case_match; [done|].
  apply bind_Ok in H as (ol & Hol & H). case_match; [done|].
  destruct ol as [hl'|]; [|by eapply IH].
  destruct (N.leb_spec (HANDSHAKE_HEADER_LEN + hl')
    (len (concat (got ++ [takeN plen (dropN RECORD_HEADER_LEN rest)])))); [|by eapply IH].
  injection H as <- <- <-. split_and!; [done|by eapply check_message_lt|]. by destruct got.
Qed.

(** The parser and the reference parser agree, results and errors alike. *)
Lemma parse_client_hello_reference buf limits :
  len buf ≤ isize_max → parse_client_hello buf limits = parse_reference limits buf.
Proof.
  intros Hbuf. unfold parse_client_hello, parse_reference, scan_records.
  pose proof (scan_loop_walk (S (length buf)) limits buf 0 Payloads.new 0 [] [] Hbuf) as Hscan.
  cbn [concat] in Hscan. change (header_of []) with HandshakeHeader.default in Hscan.
  rewrite dropN_0 in Hscan. specialize (Hscan ltac:(lia) (spill_new_repr _ _) (List.Forall2_nil _)
    eq_refl eq_refl ltac:(lia)).
  destruct (scan_loop _ _ _ _ _ _ _) as [l| |]; destruct (walk _ _ _ _) as [[[ps hl] rest]| |] eqn:Hw;
    simpl in Hscan; try done; [|by subst..].
  destruct Hscan as (Hhl & Hcons & ranges & Hrepr & Hranges).
  apply walk_complete in Hw as (Hlen & Hlt & Hne). change (2 ^ 24) with 16777216 in Hlt.
  unfold HANDSHAKE_HEADER_LEN in *. res_simpl. rewrite Hhl. rewrite uadd_Ok by (unfold usize_max; lia).
  res_simpl. unfold Payloads.as_slice. rewrite (spill_slice_repr _ _ _ Hrepr). res_simpl.
  replace (rl_consumed l) with (len buf - len rest) by lia.
  assert (∀ m : bytes, takeN (4 + hl) m = m → 4 ≤ len m → dropN 4 m = takeN hl (dropN 4 m)) as Hdrop.
  { intros m Hm _. rewrite takeN_ge; [done|]. rewrite <- Hm. len_lia. }
  destruct Hranges as [|[a b] p ranges ps Hp Hranges]; [done|].
  destruct ranges as [|r2 ranges].
  - inversion Hranges; subst. cbn [concat] in *. rewrite app_nil_r in *. cbn [fst snd].
    pose proof Hp as (Hab & Hb & _). cbn [fst snd] in *. unfold isize_max in *.
    rewrite !uadd_Ok by (unfold usize_max; lia). res_simpl.
    rewrite (slice_of_range buf a b p) by (done || lia). res_simpl.
    by replace (4 + rl_handshake_len l - 4) with (rl_handshake_len l) by lia.
  - rewrite (reassemble_takes buf (4 + hl) [] _ (p :: ps)); [|done|len_lia| |by constructor].
    2: { change (2 ^ 25) with 33554432. lia. }
    res_simpl. rewrite app_nil_l, len_nil, N.sub_0_r.
    rewrite slice_from_Ok by len_lia. res_simpl.
    assert (dropN 4 (takeN (4 + hl) (concat (p :: ps))) = takeN hl (dropN 4 (concat (p :: ps)))) as ->; [|done].
    unfold takeN, dropN. rewrite skipn_firstn_comm. f_equal. lia.
Qed.
