(* ===== verification/Framing.v ===== *)
(** * What the ClientHello parser accepts, and how it behaves on a growing buffer

    The characterisation of [parse_client_hello] by the wire grammar of
    [Records] and [Hello], its stability as more bytes arrive, and its
    independence of how the handshake is fragmented into records. *)

From S2P Require Import Prelude Str Net Names Protocol Reader SpillVec Hello Records.
From Stdlib Require Import Strings.Byte.

(** ** One record of the walk *)
Lemma check_message_Ok m limits ol :
  check_message m limits = Ok ol ↔
  ol = declared_len m ∧ (∀ b m', m = b :: m' → b = HANDSHAKE_TYPE_CLIENT_HELLO) ∧
  (∀ hl, declared_len m = Some hl → hl ≤ max_handshake_bytes limits).
Proof.
  unfold check_message. rewrite bind_unit_Ok, guard_err_Ok.
  assert ((match m with b :: _ => negb (Byte.eqb b HANDSHAKE_TYPE_CLIENT_HELLO) | [] => false end)
    = false ↔ (∀ b m', m = b :: m' → b = HANDSHAKE_TYPE_CLIENT_HELLO)) as ->.
  { destruct m as [|b m]; [done|]. rewrite negb_false_iff, byte_eqb_eq. naive_solver. }
  destruct (declared_len m) as [hl|].
  - destruct (N.ltb_spec (max_handshake_bytes limits) hl); [|naive_solver].
    split; [by intros [_ ?]|]. intros (_ & _ & H'). specialize (H' hl eq_refl). lia.
  - naive_solver.
Qed.
Lemma declared_len_app m x hl : declared_len m = Some hl → declared_len (m ++ x) = Some hl.
Proof. by destruct m as [|? [|? [|? [|? m]]]]. Qed.
Lemma check_message_prefix m x limits ol :
  check_message (m ++ x) limits = Ok ol → check_message m limits = Ok (declared_len m).
Proof.
  rewrite !check_message_Ok. intros (_ & Hb & Hd). split_and!; [done| |].
  - intros b m' ->. by eapply Hb.
  - intros hl Hhl. by apply Hd, declared_len_app.
Qed.
Lemma is_complete_app m x : is_complete m = true → is_complete (m ++ x) = true.
Proof.
  unfold is_complete. destruct (declared_len m) as [hl|] eqn:Hd; [|done].
  rewrite (declared_len_app _ _ _ Hd), len_app. intros ?%N.leb_le. apply N.leb_le. lia.
Qed.

Lemma enc_records_cons r rs : enc_records (r :: rs) = enc_record r ++ enc_records rs.
Proof. done. Qed.
Lemma len_enc_record r : len (enc_record r) = 5 + len r.2.
Proof. unfold enc_record. len_lia. Qed.
Lemma payload_of_cons r rs : payload_of (r :: rs) = r.2 ++ payload_of rs.
Proof. done. Qed.
Lemma payload_of_app rs rs' : payload_of (rs ++ rs') = payload_of rs ++ payload_of rs'.
Proof. unfold payload_of. by rewrite fmap_app, concat_app. Qed.
Lemma concat_snoc {A} (ls : list (list A)) l : concat (ls ++ [l]) = concat ls ++ l.
Proof. rewrite concat_app. simpl. by rewrite app_nil_r. Qed.

(** Reading a record: exactly when the bytes start with the encoding of one. *)
Lemma record_of_header rest is_first plen :
  RECORD_HEADER_LEN ≤ len rest →
  check_record_header (takeN RECORD_HEADER_LEN rest) is_first = Ok plen →
  plen ≤ len (takeN plen (dropN RECORD_HEADER_LEN rest)) →
  ∃ r, rest = enc_record r ++ dropN (RECORD_HEADER_LEN + plen) rest ∧ record_ok r ∧
    r.2 = takeN plen (dropN RECORD_HEADER_LEN rest).
Proof.
  intros H5 Hh Hav. unfold RECORD_HEADER_LEN in *.
  apply check_record_header_Ok in Hh as (minor & Hhdr & Hp); [|unfold RECORD_HEADER_LEN; len_lia].
  set (avail := takeN plen (dropN 5 rest)) in *.
  assert (len avail = plen) as Hlen by (unfold avail in *; len_lia).
  exists (minor, avail). unfold record_ok, enc_record, enc16. cbn [fst snd].
  rewrite Hlen. split_and!; [|apply Hp|apply Hp|done].
  transitivity (takeN 5 rest ++ avail ++ dropN (5 + plen) rest).
  - rewrite <- dropN_dropN. unfold avail. by rewrite !takeN_dropN.
  - by rewrite Hhdr.
Qed.
Lemma header_of_record r rest is_first :
  record_ok r →
  check_record_header (takeN RECORD_HEADER_LEN (enc_record r ++ rest)) is_first = Ok (len r.2) ∧
  takeN (len r.2) (dropN RECORD_HEADER_LEN (enc_record r ++ rest)) = r.2 ∧
  dropN (RECORD_HEADER_LEN + len r.2) (enc_record r ++ rest) = rest.
Proof.
  intros Hr. unfold record_ok in Hr.
  set (hdr := [CONTENT_TYPE_HANDSHAKE; RECORD_VERSION_MAJOR; r.1] ++ to_be16 (len r.2)).
  assert (enc_record r ++ rest = hdr ++ r.2 ++ rest) as -> by done.
  assert (RECORD_HEADER_LEN = len hdr) as Hh by done.
  split_and!.
  - rewrite takeN_app_len by done. apply check_record_header_Ok; [done|]. by exists r.1.
  - rewrite dropN_app_len by done. by rewrite takeN_app_len.
  - rewrite <- dropN_dropN, dropN_app_len by done. by rewrite dropN_app_len.
Qed.

Lemma walk_step fuel limits got rest w :
  walk (S fuel) limits got rest = Ok w ↔
  ∃ r rest1, rest = enc_record r ++ rest1 ∧ record_ok r ∧ len got ≠ max_records limits ∧
    check_message (concat got ++ r.2) limits = Ok (declared_len (concat got ++ r.2)) ∧
    if is_complete (concat got ++ r.2)
    then ∃ hl, declared_len (concat got ++ r.2) = Some hl ∧ w = (got ++ [r.2], hl, rest1)
    else walk fuel limits (got ++ [r.2]) rest1 = Ok w.
Proof.
  cbn [walk]. split.
  - intros H. destruct (N.ltb_spec (len rest) RECORD_HEADER_LEN) as [|H5];
      [by apply bind_Ok in H as (? & _ & ?)|].
    apply bind_Ok in H as (plen & Hplen & H).
    destruct (N.eqb_spec (len got) (max_records limits)); [done|].
    apply bind_Ok in H as (ol & Hol & H).
    destruct (N.ltb_spec (len (takeN plen (dropN RECORD_HEADER_LEN rest))) plen) as [|Hav]; [done|].
    destruct (record_of_header _ _ _ H5 Hplen Hav) as (r & Hrest & Hr & Hr2). rewrite <- Hr2 in *.
    exists r, (dropN (RECORD_HEADER_LEN + plen) rest).
    pose proof (proj1 (check_message_Ok _ _ _) Hol) as (-> & _). rewrite concat_snoc in H.
    split_and!; [done..|]. unfold is_complete.
    destruct (declared_len (concat got ++ r.2)) as [hl|] eqn:Hd; [|done].
    destruct (HANDSHAKE_HEADER_LEN + hl <=? _); [|done]. injection H as <-. eauto.
  - intros (r & rest1 & -> & Hr & Hmax & Hol & H).
    destruct (header_of_record r rest1 (is_empty got) Hr) as (Hh & Hav & Hdrop).
    destruct (N.ltb_spec (len (enc_record r ++ rest1)) RECORD_HEADER_LEN) as [Hlt|_].
    { rewrite len_app, len_enc_record in Hlt. unfold RECORD_HEADER_LEN in Hlt. lia. }
    rewrite Hh. res_simpl. rewrite (proj2 (N.eqb_neq _ _) Hmax), Hav, Hol. res_simpl.
    rewrite N.ltb_irrefl, Hdrop, concat_snoc. unfold is_complete in H.
    destruct (declared_len (concat got ++ r.2)) as [hl|]; [|done].
    destruct (HANDSHAKE_HEADER_LEN + hl <=? _); [|done]. by destruct H as (? & [= ->] & ->).
Qed.

(** ** The whole walk *)
Definition walk_reads (limits : HelloLimits) (got : list bytes) (rs : list record)
    (ps : list bytes) (hl : N) : Prop :=
  rs ≠ [] ∧ Forall record_ok rs ∧ ps = got ++ rs.*2 ∧ len ps ≤ max_records limits ∧
  check_message (concat ps) limits = Ok (Some hl) ∧ is_complete (concat ps) = true ∧
  (∀ rs1 rs2, rs = rs1 ++ rs2 → rs1 ≠ [] → rs2 ≠ [] → is_complete (concat got ++ payload_of rs1) = false).

Lemma walk_Ok fuel limits got rest ps hl rest' :
  (length rest < fuel)%nat → len got ≤ max_records limits →
  walk fuel limits got rest = Ok (ps, hl, rest') ↔
  ∃ rs, rest = enc_records rs ++ rest' ∧ walk_reads limits got rs ps hl.
Proof.
  revert got rest. induction fuel as [|fuel IH]; intros got rest Hf Hgot; [lia|].
  rewrite walk_step. split.
  - intros (r & rest1 & -> & Hr & Hmax & Hol & H).
    assert (length rest1 < fuel)%nat as Hf1.
    { rewrite length_app in Hf. unfold enc_record in Hf. simpl in Hf. lia. }
    destruct (is_complete (concat got ++ r.2)) eqn:Hc.
    + destruct H as (hl' & Hd & [= -> -> ->]). exists [r]. rewrite Hd in Hol. split.
      { unfold enc_records. simpl. by rewrite app_nil_r. }
      unfold walk_reads. rewrite concat_snoc. split_and!; [done|by constructor|done|len_lia|done|done|].
      intros [|r1 [|]] [|] [=] ? ?; by simplify_list_eq.
    + apply IH in H as (rs & -> & Hne & Hrs & -> & Hl & Hm & Hcm & Hinc); [|done|len_lia].
      exists (r :: rs). rewrite enc_records_cons, <- app_assoc. split; [done|].
      unfold walk_reads. rewrite fmap_cons, <- app_assoc in *. split_and!; try done; [by constructor|].
      intros [|r1 rs1] rs2 Hrs2 H1 H2; [done|]. injection Hrs2 as <- ->. rewrite payload_of_cons, app_assoc.
      destruct rs1 as [|r1' rs1]; [by rewrite app_nil_r|].
      rewrite <- concat_snoc. by eapply Hinc.
  - intros (rs & -> & Hne & Hrs & -> & Hl & Hm & Hcm & Hinc).
    destruct rs as [|r rs]; [done|]. inversion Hrs as [|? ? Hr Hrs']; subst.
    exists r, (enc_records rs ++ rest'). rewrite enc_records_cons, <- app_assoc.
    split; [done|]. split; [done|].
    rewrite fmap_cons in *. split; [rewrite len_app, len_cons in Hl; lia|].
    assert (concat (got ++ r.2 :: rs.*2) = (concat got ++ r.2) ++ payload_of rs) as Hcat.
    { rewrite concat_app. simpl. by rewrite app_assoc. }
    rewrite Hcat in Hm, Hcm. split; [by eapply check_message_prefix|].
    destruct rs as [|r2 rs].
    + unfold payload_of in Hm, Hcm. simpl in Hm, Hcm. rewrite app_nil_r in Hm, Hcm. rewrite Hcm.
      exists hl. split; [|done]. by apply check_message_Ok in Hm as (-> & _).
    + assert (is_complete (concat got ++ r.2) = false) as ->.
      { specialize (Hinc [r] (r2 :: rs) eq_refl ltac:(done) ltac:(done)).
        by rewrite payload_of_cons, app_nil_r in Hinc. }
      apply IH.
      * rewrite enc_records_cons, <- app_assoc, length_app in Hf.
        pose proof (len_enc_record r) as Hlr. unfold len in Hlr. lia.
      * rewrite len_app, !len_cons in Hl. len_lia.
      * exists (r2 :: rs). split; [done|]. unfold walk_reads.
        rewrite concat_snoc, <- app_assoc. simpl app at 1. split_and!; try done.
        -- by rewrite Hcat.
        -- by rewrite Hcat.
        -- intros rs1 rs2 Hrs2 H1 H2. specialize (Hinc (r :: rs1) rs2).
           rewrite payload_of_cons, app_assoc in Hinc. apply Hinc; [by rewrite Hrs2|done|done].
Qed.

(** ** The message *)
Lemma declared_len_message body extra :
  len body < 2 ^ 24 → declared_len (enc_message body ++ extra) = Some (len body).
Proof. intros Hb. simpl. by rewrite be24_to_be24. Qed.
Lemma len_enc_message body : len (enc_message body) = 4 + len body.
Proof. unfold enc_message, to_be24. len_lia. Qed.

Lemma message_body body extra :
  takeN (len body) (dropN HANDSHAKE_HEADER_LEN (enc_message body ++ extra)) = body.
Proof. unfold enc_message, to_be24. by apply takeN_app_len. Qed.

Lemma declared_len_of_prefix p x body :
  p ++ x = enc_message body → len body < 2 ^ 24 →
  declared_len p = if len p <? 4 then None else Some (len body).
Proof.
  intros Hp Hb. assert (p ++ x = enc_message body ++ []) as Hp' by by rewrite app_nil_r.
  pose proof (declared_len_message body [] Hb) as Hd. rewrite <- Hp' in Hd.
  destruct p as [|b0 [|b1 [|b2 [|b3 p]]]]; try done.
  destruct (N.ltb_spec (len (b0 :: b1 :: b2 :: b3 :: p)) 4); [len_lia|]. by injection Hd as <-.
Qed.
Lemma message_head p x body b p' :
  p ++ x = enc_message body → p = b :: p' → b = HANDSHAKE_TYPE_CLIENT_HELLO.
Proof. intros Hp ->. by injection Hp. Qed.

Lemma complete_message m limits hl :
  check_message m limits = Ok (Some hl) ∧ is_complete m = true ↔
  ∃ body extra, m = enc_message body ++ extra ∧ len body = hl ∧ hl < 2 ^ 24 ∧
    hl ≤ max_handshake_bytes limits.
Proof.
  rewrite check_message_Ok. split.
  - intros [(Hd & Hb & Hmax) Hc]. unfold is_complete in Hc. rewrite <- Hd in Hc.
    apply N.leb_le in Hc. unfold HANDSHAKE_HEADER_LEN in Hc.
    destruct m as [|b0 [|b1 [|b2 [|b3 m]]]]; try done. injection Hd as ->.
    rewrite !len_cons in Hc. pose proof (be24_lt b1 b2 b3) as Hlt.
    set (hl := be24 b1 b2 b3) in *. exists (takeN hl m), (dropN hl m).
    assert (len (takeN hl m) = hl) as Hl by len_lia.
    split_and!; [|done|done|by apply Hmax]. unfold enc_message. rewrite Hl. unfold hl at 1.
    rewrite to_be24_be24. rewrite (Hb b0 _ eq_refl). cbn [app]. by rewrite takeN_dropN.
  - intros (body & extra & -> & <- & Hlt & Hmax). unfold is_complete.
    rewrite declared_len_message by done. split_and!; [done|by intros b m' [= -> _]| |].
    + by intros ? [= <-].
    + apply N.leb_le. unfold HANDSHAKE_HEADER_LEN. rewrite len_app, len_enc_message. lia.
Qed.
Lemma is_complete_prefix p x body extra :
  p ++ x = enc_message body ++ extra → len body < 2 ^ 24 →
  is_complete p = false ↔ len p < 4 + len body.
Proof.
  intros Hp Hb. unfold is_complete, HANDSHAKE_HEADER_LEN.
  pose proof (declared_len_message body extra Hb) as Hd. rewrite <- Hp in Hd.
  destruct (declared_len p) as [hl|] eqn:Hdp.
  - rewrite (declared_len_app _ _ _ Hdp) in Hd. injection Hd as ->. apply N.leb_gt.
  - split; [|done]. intros _.
    destruct p as [|b0 [|b1 [|b2 [|b3 p]]]]; try done; len_lia.
Qed.

(** ** Acceptance by the grammar *)
Definition hello_on_wire (limits : HelloLimits) (buf : bytes) (info : ClientHelloInfo) : Prop :=
  ∃ rs rest b extra,
    buf = enc_records rs ++ rest ∧ Forall record_ok rs ∧ len rs ≤ max_records limits ∧
    payload_of rs = enc_message (enc_body b) ++ extra ∧
    len (enc_body b) ≤ max_handshake_bytes limits ∧ len (enc_body b) < 2 ^ 24 ∧
    (∀ rs1 rs2, rs = rs1 ++ rs2 → rs2 ≠ [] → len (payload_of rs1) < 4 + len (enc_body b)) ∧
    body_ok b ∧ body_gives b (sni info) ∧ consumed info = len (enc_records rs).

Lemma walk_reads_message limits rs ps hl :
  walk_reads limits [] rs ps hl ↔
  Forall record_ok rs ∧ ps = rs.*2 ∧ len rs ≤ max_records limits ∧
  ∃ body extra, payload_of rs = enc_message body ++ extra ∧ len body = hl ∧ hl < 2 ^ 24 ∧
    hl ≤ max_handshake_bytes limits ∧
    (∀ rs1 rs2, rs = rs1 ++ rs2 → rs2 ≠ [] → len (payload_of rs1) < 4 + hl).
Proof.
  unfold walk_reads. rewrite app_nil_l. split.
  - intros (Hne & Hrs & -> & Hl & Hm & Hc & Hinc).
    destruct (proj1 (complete_message (concat rs.*2) limits hl) (conj Hm Hc))
      as (body & extra & Hp & Hlb & Hlt & Hmax).
    split; [done|]. split; [done|]. split; [unfold len in *; by rewrite length_fmap in Hl|].
    exists body, extra. split_and!; try done. intros [|r1 rs1] rs2 Hrs' H2; [change (len (payload_of [])) with 0; lia|].
    rewrite <- Hlb. apply (is_complete_prefix _ (payload_of rs2) body extra); [|by rewrite Hlb|by eapply Hinc].
    rewrite <- payload_of_app, <- Hrs'. done.
  - intros (Hrs & -> & Hl & body & extra & Hp & <- & Hlt & Hmax & Hinc).
    destruct (proj2 (complete_message (payload_of rs) limits (len body))) as [Hm Hc].
    { exists body, extra. done. }
    split_and!; try done.
    + by intros ->.
    + unfold len in *. by rewrite length_fmap.
    + intros rs1 rs2 Hrs' H1 H2. cbn [concat app].
      apply (is_complete_prefix _ (payload_of rs2) body extra); [|done|by eapply Hinc].
      by rewrite <- payload_of_app, <- Hrs'.
Qed.

Lemma parse_client_hello_iff buf limits info :
  len buf ≤ isize_max →
  parse_client_hello buf limits = Ok info ↔ hello_on_wire limits buf info.
Proof.
  intros Hbuf. rewrite parse_client_hello_reference by done. unfold parse_reference, hello_on_wire.
  assert (length buf < S (length buf))%nat as Hf by lia. split.
  - intros ([[ps hl] rest] & Hw & (o & Ho & [= <-])%bind_Ok)%bind_Ok.
    apply walk_Ok in Hw as (rs & -> & Hr); [|done|rewrite len_nil; lia].
    apply walk_reads_message in Hr as (Hrs & -> & Hl & body & extra & Hp & <- & Hlt & Hmax & Hinc).
    change (concat rs.*2) with (payload_of rs) in Ho. rewrite Hp in Ho.
    rewrite message_body in Ho. apply parse_client_hello_body_Ok in Ho as (b & Hb & -> & Hg).
    exists rs, rest, b, extra. cbn [sni consumed]. split_and!; try done. len_lia.
  - intros (rs & rest & b & extra & -> & Hrs & Hl & Hp & Hmax & Hlt & Hinc & Hb & Hg & Hc).
    rewrite (proj2 (walk_Ok _ limits [] _ rs.*2 (len (enc_body b)) rest Hf ltac:(rewrite len_nil; lia))).
    2: { exists rs. split; [done|]. apply walk_reads_message. split_and!; try done.
         exists (enc_body b), extra. done. }
    res_simpl. change (concat rs.*2) with (payload_of rs). rewrite Hp.
    rewrite message_body.
    rewrite (parse_body_complete b (sni info)) by done. res_simpl.
    destruct info as [o c]. cbn [sni consumed] in *. rewrite Hc. do 2 f_equal. len_lia.
Qed.

(** ** Totality *)
Lemma walk_returns fuel limits got rest :
  (length rest < fuel)%nat → returns (walk fuel limits got rest).
Proof.
  revert got rest. induction fuel as [|fuel IH]; intros got rest Hf; [lia|]. cbn [walk].
  destruct (N.ltb_spec (len rest) RECORD_HEADER_LEN) as [|H5]; [auto with returns|].
  unfold RECORD_HEADER_LEN in *. apply returns_bind.
  { apply check_record_header_returns. unfold RECORD_HEADER_LEN. len_lia. }
  intros plen Hplen. case_match; [auto with returns|].
  apply returns_bind; [auto with returns|]. intros ol _. case_match; [auto with returns|].
  assert (∀ got', returns (walk fuel limits got' (dropN (5 + plen) rest))) as Hnext.
  { intros got'. apply IH. unfold dropN. rewrite length_drop. unfold len in *. lia. }
  destruct ol as [hl|]; [|done]. case_match; [auto with returns|done].
Qed.
Lemma parse_client_hello_returns buf limits :
  len buf ≤ isize_max → returns (parse_client_hello buf limits).
Proof.
  intros Hb. rewrite parse_client_hello_reference by done. unfold parse_reference.
  apply returns_bind; [apply walk_returns; lia|]. intros [[ps hl] rest] _.
  apply returns_bind; auto with returns.
Qed.

(** ** A decision stands when more bytes arrive *)
Lemma get_app {A} i (l k : list A) x : get i l = Some x → get i (l ++ k) = Some x.
Proof. unfold get. apply lookup_app_l_Some. Qed.
Lemma check_partial_Err_app p x is_first e :
  check_partial_record_header p is_first = Err e → check_partial_record_header (p ++ x) is_first = Err e.
Proof.
  unfold check_partial_record_header. intros H.
  destruct (get 0 p) as [t|] eqn:H0; [rewrite (get_app _ _ _ _ H0)|by destruct p].
  destruct (negb (Byte.eqb t _)); res_simpl; [done|]. cbn [guard_err mbind res_bind] in H.
  destruct (get 1 p) as [v|] eqn:H1; [rewrite (get_app _ _ _ _ H1); done|done].
Qed.
Lemma check_record_header_partial hdr is_first e :
  check_partial_record_header hdr is_first = Err e → check_record_header hdr is_first = Err e.
Proof. unfold check_record_header. by intros ->. Qed.
Lemma check_message_Err_app m x limits e :
  check_message m limits = Err e → check_message (m ++ x) limits = Err e.
Proof.
  unfold check_message. destruct m as [|b m]; [done|]. cbn [app].
  destruct (negb (Byte.eqb b _)); res_simpl; [done|].
  destruct (declared_len (b :: m)) as [hl|] eqn:Hd; [|done].
  pose proof (declared_len_app _ x _ Hd) as Hd'. cbn [app] in Hd'. by rewrite Hd'.
Qed.

(** The result on a longer buffer: the same, with the new bytes left over. *)
Definition extend (more : bytes) (w : res ParseError (list bytes * N * bytes)) :=
  (λ '(ps, hl, rest), (ps, hl, rest ++ more)) <$> w.

Lemma walk_stable fuel limits got rest more :
  (length rest < fuel)%nat →
  walk fuel limits got rest ≠ Err Incomplete →
  walk (fuel + length more) limits got (rest ++ more) = extend more (walk fuel limits got rest).
Proof.
  revert got rest. induction fuel as [|fuel IH]; intros got rest Hf Hr; [lia|]. cbn [Nat.add walk] in *.
  unfold RECORD_HEADER_LEN in *. destruct (N.ltb_spec (len rest) 5) as [H5|H5].
  - destruct (check_partial_record_header rest (is_empty got)) as [u|e|] eqn:Hc; try done.
    2: { exfalso. by eapply check_partial_returns. }
    apply (check_partial_Err_app _ more) in Hc as Hc'. res_simpl.
    destruct (N.ltb_spec (len (rest ++ more)) 5); [by rewrite Hc'|].
    apply (check_partial_Err_app _ (takeN (5 - len rest) more)) in Hc.
    rewrite takeN_app, (takeN_ge 5 rest) by lia. by rewrite (check_record_header_partial _ _ _ Hc).
  - destruct (N.ltb_spec (len (rest ++ more)) 5) as [|_]; [len_lia|].
    rewrite takeN_app_le, dropN_app_le by done.
    destruct (check_record_header (takeN 5 rest) (is_empty got)) as [plen|e|] eqn:Hh; try done. res_simpl.
    cbn [mbind res_bind] in Hr. destruct (len got =? max_records limits); [done|].
    destruct (check_message (concat got ++ takeN plen (dropN 5 rest)) limits) as [ol|e|] eqn:Hol.
    3: { exfalso. by eapply check_message_returns. }
    2: { rewrite takeN_app, app_assoc. by rewrite (check_message_Err_app _ _ _ _ Hol). }
    cbn [mbind res_bind] in Hr. destruct (N.ltb_spec (len (takeN plen (dropN 5 rest))) plen) as [|Hav]; [done|].
    assert (plen ≤ len (dropN 5 rest)) by len_lia.
    rewrite takeN_app_le by done. rewrite Hol. res_simpl.
    destruct (N.ltb_spec (len (takeN plen (dropN 5 rest))) plen) as [|_]; [lia|].
    rewrite dropN_app_le by len_lia.
    assert (length (dropN (5 + plen) rest) < fuel)%nat as Hf'.
    { unfold dropN. rewrite length_drop. unfold len in *. lia. }
    destruct ol as [hl|]; [|by apply IH]. case_match; [done|]. by apply IH.
Qed.

Lemma parse_client_hello_stable buf more limits :
  len (buf ++ more) ≤ isize_max →
  parse_client_hello buf limits ≠ Err Incomplete →
  parse_client_hello (buf ++ more) limits = parse_client_hello buf limits.
Proof.
  intros Hlen. rewrite !parse_client_hello_reference by len_lia. unfold parse_reference. intros Hr.
  rewrite length_app. change (S (length buf + length more)) with (S (length buf) + length more)%nat.
  rewrite walk_stable; [|lia|by intros Hw; rewrite Hw in Hr].
  destruct (walk (S (length buf)) limits [] buf) as [[[ps hl] rest]| |]; [|done..].
  unfold extend. res_simpl. by replace (len (buf ++ more) - len (rest ++ more)) with (len buf - len rest) by len_lia.
Qed.
Lemma parse_client_hello_consumed buf limits info :
  len buf ≤ isize_max → parse_client_hello buf limits = Ok info → consumed info ≤ len buf.
Proof.
  intros Hb. rewrite parse_client_hello_iff by done.
  intros (rs & rest & b & extra & -> & _ & _ & _ & _ & _ & _ & _ & _ & ->). len_lia.
Qed.

(** Every strict prefix of an accepted hello is incomplete. *)
Lemma parse_client_hello_prefix buf limits info n :
  len buf ≤ isize_max → parse_client_hello buf limits = Ok info → n < consumed info →
  parse_client_hello (takeN n buf) limits = Err Incomplete.
Proof.
  intros Hb Hp Hn. pose proof (parse_client_hello_consumed _ _ _ Hb Hp) as Hc.
  destruct (decide (parse_client_hello (takeN n buf) limits = Err Incomplete)) as [|Hne]; [done|].
  assert (parse_client_hello (takeN n buf ++ dropN n buf) limits = parse_client_hello (takeN n buf) limits)
    as Hs by (apply parse_client_hello_stable; [by rewrite takeN_dropN|done]).
  rewrite takeN_dropN, Hp in Hs. symmetry in Hs.
  apply parse_client_hello_consumed in Hs; len_lia.
Qed.

Lemma message_type_ok p q body :
  p ++ q = enc_message body →
  match p with b :: _ => negb (Byte.eqb b HANDSHAKE_TYPE_CLIENT_HELLO) | [] => false end = false.
Proof. intros Hm. destruct p as [|b p]; [done|]. by rewrite (message_head _ _ _ _ _ Hm eq_refl). Qed.
Lemma payload_of_pos rs : Forall record_ok rs → rs ≠ [] → 1 ≤ len (payload_of rs).
Proof.
  intros Hrs Hne. destruct rs as [|r rs]; [done|]. inversion Hrs as [|? ? Hr _]; subst. unfold record_ok in Hr.
  rewrite payload_of_cons. len_lia.
Qed.

(** ** Any fragmentation of one message *)
Lemma walk_message limits body fuel got rs rest :
  (length (enc_records rs ++ rest) < fuel)%nat →
  len body < 2 ^ 24 → Forall record_ok rs → rs ≠ [] → len got ≤ max_records limits →
  concat got ++ payload_of rs = enc_message body →
  walk fuel limits got (enc_records rs ++ rest) =
  if (max_handshake_bytes limits <? len body) || (max_records limits <? len got + len rs)
  then Err TooLargeHello else Ok (got ++ rs.*2, len body, rest).
Proof.
  intros Hf Hb Hrs. revert fuel got Hf.
  induction Hrs as [|r rs Hr Hrs IH]; intros fuel got Hf Hne Hgot Hm; [done|].
  destruct fuel as [|fuel]; [lia|]. rewrite enc_records_cons, <- app_assoc in *.
  destruct (header_of_record r (enc_records rs ++ rest) (is_empty got) Hr) as (Hh & Hav & Hdrop).
  cbn [walk].
  destruct (N.ltb_spec (len (enc_record r ++ enc_records rs ++ rest)) RECORD_HEADER_LEN) as [Hlt|_].
  { rewrite len_app, len_enc_record in Hlt. unfold RECORD_HEADER_LEN in Hlt. lia. }
  rewrite Hh. res_simpl. rewrite len_cons, Hav, Hdrop.
  destruct (N.eqb_spec (len got) (max_records limits)) as [Heq|Hneq].
  { destruct (N.ltb_spec (max_records limits) (len got + (1 + len rs))); [by rewrite orb_true_r|lia]. }
  rewrite payload_of_cons, app_assoc in Hm.
  pose proof (declared_len_of_prefix _ _ _ Hm Hb) as Hd.
  unfold check_message. rewrite Hd.
  rewrite (message_type_ok _ _ _ Hm).
  res_simpl. rewrite concat_snoc. unfold record_ok in Hr.
  assert (len (concat got ++ r.2) + len (payload_of rs) = 4 + len body) as Htot.
  { rewrite <- len_app, Hm. apply len_enc_message. }
  assert (rs ≠ [] → walk fuel limits (got ++ [r.2]) (enc_records rs ++ rest) =
    if (max_handshake_bytes limits <? len body) || (max_records limits <? len got + (1 + len rs))
    then Err TooLargeHello else Ok (got ++ (r :: rs).*2, len body, rest)) as Hnext.
  { intros Hne'. rewrite IH; [|..]; [|rewrite length_app in Hf; pose proof (len_enc_record r) as Hlr;
      unfold len in Hlr; lia|done|len_lia|by rewrite concat_snoc].
    rewrite len_app, len_cons, len_nil, <- app_assoc.
    by replace (len got + (1 + 0) + len rs) with (len got + (1 + len rs)) by lia. }
  assert (rs = [] ∨ rs ≠ []) as [->|Hne'] by (destruct rs; [by left|by right]).
  - unfold payload_of in Htot. cbn in Htot. rewrite N.add_0_r in Htot. rewrite Htot.
    destruct (N.ltb_spec (4 + len body) 4) as [|_]; [lia|].
    destruct (N.ltb_spec (max_handshake_bytes limits) (len body)); [done|]. res_simpl.
    rewrite N.ltb_irrefl. rewrite N.leb_refl.
    rewrite len_nil. destruct (N.ltb_spec (max_records limits) (len got + (1 + 0))); [lia|done].
  - pose proof (payload_of_pos _ Hrs Hne') as Hpos.
    destruct (N.ltb_spec (len (concat got ++ r.2)) 4); res_simpl.
    { rewrite N.ltb_irrefl. by apply Hnext. }
    destruct (N.ltb_spec (max_handshake_bytes limits) (len body)) as [Hbig|Hok]; [done|].
    res_simpl. rewrite N.ltb_irrefl.
    destruct (N.leb_spec (HANDSHAKE_HEADER_LEN + len body) (len (concat got ++ r.2))) as [Hc|_].
    { unfold HANDSHAKE_HEADER_LEN in Hc. lia. }
    rewrite (Hnext Hne'). by destruct (N.ltb_spec (max_handshake_bytes limits) (len body)); [lia|].
Qed.

Lemma parse_client_hello_any_message limits body rs rest :
  len (enc_records rs ++ rest) ≤ isize_max → len body < 2 ^ 24 → Forall record_ok rs →
  payload_of rs = enc_message body →
  parse_client_hello (enc_records rs ++ rest) limits =
  if (max_handshake_bytes limits <? len body) || (max_records limits <? len rs)
  then Err TooLargeHello
  else sni ← parse_client_hello_body body; Ok (mkClientHelloInfo sni (len (enc_records rs))).
Proof.
  intros Hb Hlen Hrs Hp. rewrite parse_client_hello_reference by done. unfold parse_reference.
  rewrite (walk_message limits body); [|lia|done|done|by intros ->|rewrite len_nil; lia|done].
  change (len (A := bytes) [] + len rs) with (0 + len rs). rewrite N.add_0_l.
  destruct (_ || _); [done|]. res_simpl. rewrite app_nil_l.
  change (concat rs.*2) with (payload_of rs). rewrite Hp, <- (app_nil_r (enc_message body)), message_body.
  by replace (len (enc_records rs ++ rest) - len rest) with (len (enc_records rs)) by len_lia.
Qed.
