(* ===== verification/Builder.v ===== *)
(** * The ClientHello builder ([testing.rs])

    [ClientHelloBuilder] is public API of the crate, for its own tests and its
    embedders'.  It is an encoder for the grammar the parser reads, so the two
    are proved inverse.  The [expect]s of the source are panics of the model. *)

From S2P Require Import Prelude Str Net Names Protocol Reader Hello Records Framing.
From Stdlib Require Import Strings.Byte.

Definition EXTENSION_PADDING : N := 21.

Record ClientHelloBuilder := mkBuilder {
  legacy_version : N;
  session_id : bytes;
  cipher_suites : bytes;
  compression_methods : bytes;
  server_names : option (list (byte * bytes));
  extensions : list (N * bytes);
  padded_body_len : option N;
  omit_extensions : bool;
  trailing_body_bytes : bytes;
}.

Section Push.
Context {E : Type}.
Definition push_vec8 (out d : bytes) : res E bytes :=
  if len d <? 256 then Ok (out ++ n2b (len d) :: d) else Stuck SPanic.
Definition push_vec16 (out d : bytes) : res E bytes :=
  if len d <? 65536 then Ok (out ++ to_be16 (len d) ++ d) else Stuck SPanic.
Definition push_record (wire fragment : bytes) : res E bytes :=
  push_vec16 (wire ++ [x16; x03; x01]) fragment.
End Push.

(** [slice.chunks(n)]. *)
Fixpoint chunks_fuel {A} (fuel : nat) (n : N) (l : list A) : list (list A) :=
  match fuel, l with
  | S fuel, _ :: _ => takeN n l :: chunks_fuel fuel n (dropN n l)
  | _, _ => []
  end.
Definition chunks {E A} (n : N) (l : list A) : res E (list (list A)) :=
  if n =? 0 then Stuck SPanic else Ok (chunks_fuel (length l) n l).

Module ClientHelloBuilder.
Definition new : ClientHelloBuilder :=
  mkBuilder 0x0303 (replicate 32 x5a) [x13; x01; x13; x02] [x00] None [] None false [].

Definition raw_server_names (b : ClientHelloBuilder) (names : list (byte * bytes)) : ClientHelloBuilder :=
  mkBuilder (legacy_version b) (session_id b) (cipher_suites b) (compression_methods b)
    (Some names) (extensions b) (padded_body_len b) (omit_extensions b) (trailing_body_bytes b).
Definition sni (b : ClientHelloBuilder) (name : bytes) : ClientHelloBuilder :=
  raw_server_names b [(x00, name)].
Definition extension (b : ClientHelloBuilder) (extension_type : N) (data : bytes) : ClientHelloBuilder :=
  mkBuilder (legacy_version b) (session_id b) (cipher_suites b) (compression_methods b)
    (server_names b) (extensions b ++ [(extension_type, data)]) (padded_body_len b)
    (omit_extensions b) (trailing_body_bytes b).
Definition padding_to (b : ClientHelloBuilder) (body_len : N) : ClientHelloBuilder :=
  mkBuilder (legacy_version b) (session_id b) (cipher_suites b) (compression_methods b)
    (server_names b) (extensions b) (Some body_len) (omit_extensions b) (trailing_body_bytes b).
Definition with_omit_extensions (b : ClientHelloBuilder) : ClientHelloBuilder :=
  mkBuilder (legacy_version b) (session_id b) (cipher_suites b) (compression_methods b)
    (server_names b) (extensions b) (padded_body_len b) true (trailing_body_bytes b).
Definition with_legacy_version (b : ClientHelloBuilder) (version : N) : ClientHelloBuilder :=
  mkBuilder version (session_id b) (cipher_suites b) (compression_methods b)
    (server_names b) (extensions b) (padded_body_len b) (omit_extensions b) (trailing_body_bytes b).
Definition with_session_id (b : ClientHelloBuilder) (id : bytes) : ClientHelloBuilder :=
  mkBuilder (legacy_version b) id (cipher_suites b) (compression_methods b)
    (server_names b) (extensions b) (padded_body_len b) (omit_extensions b) (trailing_body_bytes b).
Definition with_cipher_suites (b : ClientHelloBuilder) (suites : bytes) : ClientHelloBuilder :=
  mkBuilder (legacy_version b) (session_id b) suites (compression_methods b)
    (server_names b) (extensions b) (padded_body_len b) (omit_extensions b) (trailing_body_bytes b).
Definition with_compression_methods (b : ClientHelloBuilder) (methods : bytes) : ClientHelloBuilder :=
  mkBuilder (legacy_version b) (session_id b) (cipher_suites b) methods
    (server_names b) (extensions b) (padded_body_len b) (omit_extensions b) (trailing_body_bytes b).
Definition with_trailing_body_bytes (b : ClientHelloBuilder) (trailing : bytes) : ClientHelloBuilder :=
  mkBuilder (legacy_version b) (session_id b) (cipher_suites b) (compression_methods b)
    (server_names b) (extensions b) (padded_body_len b) (omit_extensions b) trailing.

Section Encode.
Context {E : Type}.

Fixpoint push_names (out : bytes) (names : list (byte * bytes)) : res E bytes :=
  match names with
  | [] => Ok out
  | (kind, name) :: names => out ← push_vec16 (out ++ [kind]) name; push_names out names
  end.
Fixpoint push_extensions (out : bytes) (xs : list (N * bytes)) : res E bytes :=
  match xs with
  | [] => Ok out
  | (t, data) :: xs => out ← push_vec16 (out ++ to_be16 t) data; push_extensions out xs
  end.

Definition extension_bytes (b : ClientHelloBuilder) : res E bytes :=
  out ← match server_names b with
        | Some names =>
          list ← push_names [] names;
          data ← push_vec16 [] list;
          push_vec16 (to_be16 0) data
        | None => Ok []
        end;
  push_extensions out (extensions b).

Definition body (b : ClientHelloBuilder) : res E bytes :=
  let out := to_be16 (legacy_version b) ++ replicate 32 x42 in
  out ← push_vec8 out (session_id b);
  out ← push_vec16 out (cipher_suites b);
  out ← push_vec8 out (compression_methods b);
  out ← (if omit_extensions b then Ok out
         else
           exts ← extension_bytes b;
           exts ← match padded_body_len b with
                  | Some target =>
                    let fixed := len out + 2 + len exts + 4 + len (trailing_body_bytes b) in
                    pad ← usub target fixed;
                    push_vec16 (exts ++ to_be16 EXTENSION_PADDING) (replicate (N.to_nat pad) x00)
                  | None => Ok exts
                  end;
           push_vec16 out exts);
  Ok (out ++ trailing_body_bytes b).

(** Type, 24-bit length (the high bytes are cut), body. *)
Definition handshake (b : ClientHelloBuilder) : res E bytes :=
  out ← body b;
  let n := len out in
  Ok ([x01; n2b (N.shiftr n 16); n2b (N.shiftr n 8); n2b n] ++ out).

Fixpoint push_records (wire : bytes) (fragments : list bytes) : res E bytes :=
  match fragments with
  | [] => Ok wire
  | fragment :: fragments => wire ← push_record wire fragment; push_records wire fragments
  end.
Definition records_of (hs : bytes) (chunk : N) : res E bytes :=
  fragments ← chunks chunk hs; push_records [] fragments.

Fixpoint push_splits (wire hs : bytes) (start : N) (splits : list N) : res E bytes :=
  match splits with
  | [] => Ok wire
  | split :: splits =>
    fragment ← slice start split hs;
    wire ← push_record wire fragment;
    push_splits wire hs split splits
  end.
Definition records_from_splits (hs : bytes) (splits : list N) : res E bytes :=
  push_splits [] hs 0 (splits ++ [len hs]).

(** The handshake in maximum-size records. *)
Definition build (b : ClientHelloBuilder) : res E bytes :=
  hs ← handshake b; records_of hs MAX_RECORD_PAYLOAD.
End Encode.
End ClientHelloBuilder.

(** What the parser tests build. *)
Definition hello_for (name : string) : ClientHelloBuilder :=
  ClientHelloBuilder.sni ClientHelloBuilder.new (lit name).
Definition many_extensions (b : ClientHelloBuilder) : ClientHelloBuilder :=
  foldl (λ b i, ClientHelloBuilder.extension b (100 + N.of_nat i) []) b (seq 0 40).

(** ** What a builder describes *)
Definition server_name_exts (b : ClientHelloBuilder) : list (N * bytes) :=
  from_option (λ names, [(EXTENSION_SERVER_NAME, enc16 (enc_names names))]) [] (server_names b).
(** The body length without the padding extension's data. *)
Definition unpadded_len (b : ClientHelloBuilder) : N :=
  34 + (1 + len (session_id b)) + (2 + len (cipher_suites b)) + (1 + len (compression_methods b)) +
  2 + len (enc_exts (server_name_exts b ++ extensions b)) + 4 + len (trailing_body_bytes b).
Definition padding_exts (b : ClientHelloBuilder) : list (N * bytes) :=
  from_option (λ target, [(EXTENSION_PADDING, replicate (N.to_nat (target - unpadded_len b)) x00)]) []
    (padded_body_len b).
Definition all_exts (b : ClientHelloBuilder) : list (N * bytes) :=
  (server_name_exts b ++ extensions b) ++ padding_exts b.
Definition builder_body (b : ClientHelloBuilder) : HelloBody :=
  mkHelloBody (n2b (legacy_version b)) (replicate 32 x42) (session_id b) (cipher_suites b)
    (compression_methods b) (if omit_extensions b then None else Some (all_exts b)).

(** A builder for a well-formed hello. *)
Definition builder_ok (b : ClientHelloBuilder) : Prop :=
  legacy_version b < 65536 ∧ N.shiftr (legacy_version b) 8 = 3 ∧ trailing_body_bytes b = [] ∧
  (∀ names, server_names b = Some names → Forall (λ p, len p.2 < 65536) names ∧ len (enc_names names) < 65536) ∧
  (∀ target, padded_body_len b = Some target → unpadded_len b ≤ target) ∧
  body_ok (builder_body b).

(** ** Lemmas *)
Section BuilderLemmas.
Context {E : Type}.

Lemma push_vec16_Ok out d : len d < 65536 → push_vec16 (E := E) out d = Ok (out ++ enc16 d).
Proof. intros Hd. unfold push_vec16. by destruct (N.ltb_spec (len d) 65536); [|lia]. Qed.
Lemma push_vec8_Ok out d : len d < 256 → push_vec8 (E := E) out d = Ok (out ++ enc8 d).
Proof. intros Hd. unfold push_vec8. by destruct (N.ltb_spec (len d) 256); [|lia]. Qed.
Lemma push_record_Ok wire p :
  record_ok (x01, p) → push_record (E := E) wire p = Ok (wire ++ enc_record (x01, p)).
Proof.
  unfold record_ok, MAX_RECORD_PAYLOAD. cbn [snd]. intros Hp. unfold push_record.
  rewrite push_vec16_Ok by lia. by rewrite <- app_assoc.
Qed.
Lemma push_names_Ok out names :
  Forall (λ p, len p.2 < 65536) names →
  ClientHelloBuilder.push_names (E := E) out names = Ok (out ++ enc_names names).
Proof.
  intros Hn. revert out. induction Hn as [|[kind name] names Hp Hn IH]; intros out.
  { by rewrite app_nil_r. }
  cbn [ClientHelloBuilder.push_names snd] in *. rewrite push_vec16_Ok by done. res_simpl.
  rewrite IH, enc_names_cons. unfold enc_name. cbn [fst snd]. f_equal. by rewrite <- !app_assoc.
Qed.
Lemma push_extensions_Ok out xs :
  Forall ext_ok xs → ClientHelloBuilder.push_extensions (E := E) out xs = Ok (out ++ enc_exts xs).
Proof.
  intros Hx. revert out. induction Hx as [|[t d] xs [Ht Hd] Hx IH]; intros out.
  { by rewrite app_nil_r. }
  cbn [ClientHelloBuilder.push_extensions fst snd] in *. rewrite push_vec16_Ok by done. res_simpl.
  rewrite IH, enc_exts_cons. unfold enc_ext. cbn [fst snd]. f_equal. by rewrite <- !app_assoc.
Qed.
Lemma enc_exts_app xs ys : enc_exts (xs ++ ys) = enc_exts xs ++ enc_exts ys.
Proof. unfold enc_exts. by rewrite fmap_app, concat_app. Qed.

Lemma extension_bytes_Ok b :
  (∀ names, server_names b = Some names → Forall (λ p, len p.2 < 65536) names ∧ len (enc_names names) < 65536) →
  Forall ext_ok (server_name_exts b ++ extensions b) →
  ClientHelloBuilder.extension_bytes (E := E) b = Ok (enc_exts (server_name_exts b ++ extensions b)).
Proof.
  intros Hnames [Hs Hx]%Forall_app. unfold ClientHelloBuilder.extension_bytes, server_name_exts in *.
  destruct (server_names b) as [names|]; cbn [from_option] in *; res_simpl.
  - destruct (Hnames names eq_refl) as [Hn Hl]. rewrite push_names_Ok by done. res_simpl.
    rewrite app_nil_l, push_vec16_Ok by done. res_simpl. rewrite app_nil_l.
    apply Forall_cons in Hs as [[_ Hl2] _]. cbn [snd] in Hl2.
    rewrite push_vec16_Ok by done. res_simpl. rewrite push_extensions_Ok by done.
    cbn [app]. by rewrite enc_exts_cons.
  - by rewrite push_extensions_Ok.
Qed.

Lemma builder_body_Ok b :
  builder_ok b → ClientHelloBuilder.body (E := E) b = Ok (enc_body (builder_body b)).
Proof.
  intros (Hv & Hmaj & Htr & Hnames & Hpad & Hrnd & Hsid & (_ & Hcs & _) & (_ & Hcm) & Hexts).
  cbn [builder_body hb_random hb_session_id hb_cipher_suites hb_compression hb_extensions] in *.
  unfold ClientHelloBuilder.body. rewrite Htr.
  rewrite push_vec8_Ok by lia. res_simpl. rewrite push_vec16_Ok by lia. res_simpl.
  rewrite push_vec8_Ok by lia. res_simpl.
  assert (to_be16 (legacy_version b) = [x03; n2b (legacy_version b)]) as ->.
  { destruct (proj1 (version_major _ Hv) Hmaj) as (m & Hm). unfold to_be16 in *. congruence. }
  unfold enc_body, builder_body.
  cbn [hb_minor hb_random hb_session_id hb_cipher_suites hb_compression hb_extensions].
  set (prefix := ((([x03; n2b (legacy_version b)] ++ replicate 32 x42) ++ enc8 (session_id b)) ++
    enc16 (cipher_suites b)) ++ enc8 (compression_methods b)).
  assert (∀ tail, [x03; n2b (legacy_version b)] ++ replicate 32 x42 ++ enc8 (session_id b) ++
    enc16 (cipher_suites b) ++ enc8 (compression_methods b) ++ tail = prefix ++ tail) as Hprefix.
  { intros tail. unfold prefix. by rewrite <- !app_assoc. }
  rewrite Hprefix. destruct (omit_extensions b); [res_simpl; cbn [from_option]; by rewrite !app_nil_r|].
  destruct (Hexts _ eq_refl) as [Hx Hl]. unfold all_exts in Hx. apply Forall_app in Hx as [Hx Hp].
  rewrite extension_bytes_Ok by done. res_simpl.
  assert (len prefix + 2 + len (enc_exts (server_name_exts b ++ extensions b)) + 4 + len (A := byte) []
    = unpadded_len b) as Hfixed.
  { unfold prefix, unpadded_len. rewrite Htr. autorewrite with len.
    change (N.of_nat 32) with 32. lia. }
  rewrite Hfixed. cbn [from_option compose].
  assert (match padded_body_len b with
    | Some target => pad ← usub target (unpadded_len b);
        push_vec16 (enc_exts (server_name_exts b ++ extensions b) ++ to_be16 EXTENSION_PADDING)
          (replicate (N.to_nat pad) x00)
    | None => Ok (enc_exts (server_name_exts b ++ extensions b))
    end = Ok (E := E) (enc_exts (all_exts b))) as ->.
  { unfold all_exts, padding_exts in *. rewrite (enc_exts_app (_ ++ _)).
    destruct (padded_body_len b) as [target|]; [|by rewrite app_nil_r].
    rewrite usub_Ok by by apply Hpad. res_simpl. cbn [from_option] in *.
    apply Forall_cons in Hp as [[_ Hp] _]. cbn [snd] in Hp. rewrite push_vec16_Ok by done.
    f_equal. rewrite <- app_assoc. f_equal. unfold enc_exts, enc_ext. simpl fmap. cbn [concat fst snd].
    by rewrite app_nil_r. }
  res_simpl. rewrite push_vec16_Ok by done. res_simpl. by rewrite app_nil_r.
Qed.

Lemma builder_padding b target :
  builder_ok b → padded_body_len b = Some target → omit_extensions b = false →
  len (enc_body (builder_body b)) = target.
Proof.
  intros (Hv & Hmaj & Htr & Hnames & Hpad & _) Ht Ho. specialize (Hpad target Ht).
  unfold enc_body, builder_body.
  cbn [hb_minor hb_random hb_session_id hb_cipher_suites hb_compression hb_extensions].
  rewrite Ho. cbn [from_option compose]. unfold all_exts. rewrite enc_exts_app.
  assert (len (enc_exts (padding_exts b)) = 4 + (target - unpadded_len b)) as Hp.
  { unfold padding_exts. rewrite Ht. cbn [from_option]. unfold enc_exts, enc_ext. simpl fmap.
    cbn [concat fst snd]. autorewrite with len. lia. }
  autorewrite with len. rewrite Hp. change (N.of_nat 32) with 32.
  unfold unpadded_len in *. rewrite Htr in *. change (len (A := byte) []) with 0 in *. lia.
Qed.
End BuilderLemmas.

(** *** Fragments *)
Lemma chunks_fuel_spec {A} fuel n (l : list A) :
  1 ≤ n → (length l ≤ fuel)%nat →
  concat (chunks_fuel fuel n l) = l ∧ Forall (λ c, 1 ≤ len c ≤ n) (chunks_fuel fuel n l) ∧
  (len (chunks_fuel fuel n l) - 1) * n ≤ len l - 1.
Proof.
  intros Hn. revert l. induction fuel as [|fuel IH]; intros l Hf; [by destruct l; [|simpl in Hf; lia]|].
  destruct l as [|x l]; [done|]. cbn [chunks_fuel].
  destruct (IH (dropN n (x :: l))) as (Hc & Hl & Hk).
  { unfold dropN. rewrite length_drop. simpl in *. lia. }
  split_and!.
  - cbn [concat]. by rewrite Hc, takeN_dropN.
  - constructor; [len_lia|done].
  - rewrite len_cons. rewrite len_dropN in Hk.
    destruct (N.le_gt_cases (len (x :: l)) n) as [Hle|Hgt].
    + rewrite dropN_ge by done. destruct fuel; cbn [chunks_fuel]; change (len (A := list A) []) with 0; lia.
    + assert (1 ≤ len (chunks_fuel fuel n (dropN n (x :: l)))) as H1.
      { destruct (dropN n (x :: l)) as [|y k] eqn:Hd.
        - apply (f_equal len) in Hd. rewrite len_dropN, len_nil in Hd. lia.
        - destruct fuel; [|cbn [chunks_fuel]; len_lia]. apply (f_equal length) in Hd.
          unfold dropN in Hd. rewrite length_drop in Hd. simpl in *. lia. }
      replace (1 + len (chunks_fuel fuel n (dropN n (x :: l))) - 1) with
        ((len (chunks_fuel fuel n (dropN n (x :: l))) - 1) + 1) by lia.
      rewrite N.mul_add_distr_r. lia.
Qed.

Definition as_records (fragments : list bytes) : list record := (λ p, (x01, p)) <$> fragments.
Lemma payload_of_as_records ps : payload_of (as_records ps) = concat ps.
Proof. unfold payload_of, as_records. rewrite <- list_fmap_compose. by rewrite list_fmap_id. Qed.
Lemma push_records_Ok {E} wire ps :
  Forall record_ok (as_records ps) →
  ClientHelloBuilder.push_records (E := E) wire ps = Ok (wire ++ enc_records (as_records ps)).
Proof.
  revert wire. induction ps as [|p ps IH]; intros wire Hps; [by rewrite app_nil_r|].
  apply Forall_cons in Hps as [Hp Hps]. cbn [ClientHelloBuilder.push_records].
  rewrite push_record_Ok by done. res_simpl. rewrite IH by done.
  by rewrite <- app_assoc.
Qed.
Lemma handshake_Ok {E} b :
  builder_ok b →
  ClientHelloBuilder.handshake (E := E) b = Ok (enc_message (enc_body (builder_body b))).
Proof. intros Hb. unfold ClientHelloBuilder.handshake. rewrite builder_body_Ok by done. done. Qed.
Lemma records_of_Ok {E} hs chunk :
  1 ≤ chunk ≤ MAX_RECORD_PAYLOAD →
  ∃ ps, ClientHelloBuilder.records_of (E := E) hs chunk = Ok (enc_records (as_records ps)) ∧
    concat ps = hs ∧ Forall record_ok (as_records ps) ∧ (len ps - 1) * chunk ≤ len hs - 1.
Proof.
  intros [H1 Hmax]. unfold ClientHelloBuilder.records_of, chunks.
  destruct (N.eqb_spec chunk 0); [lia|]. res_simpl.
  destruct (chunks_fuel_spec (length hs) chunk hs H1 (le_n _)) as (Hc & Hl & Hk).
  exists (chunks_fuel (length hs) chunk hs).
  assert (Forall record_ok (as_records (chunks_fuel (length hs) chunk hs))) as Hrec.
  { unfold as_records. apply Forall_fmap. eapply Forall_impl; [exact Hl|]. intros p Hp.
    cbv beta in Hp. unfold compose, record_ok; cbn [snd]. split; [apply Hp|]. destruct Hp. by etransitivity. }
  rewrite push_records_Ok by done. by rewrite app_nil_l.
Qed.
