(* ===== verification/Parser.v ===== *)
(** * Theorems about the ClientHello parser *)

From S2P Require Import Prelude Str Net Names Protocol Reader SpillVec Hello Records Framing.
From S2P Require Import Builder.
From Stdlib Require Import Strings.Byte.

(** A hello for [a.test], in one record and in records of seven bytes. *)
Definition example_handshake : bytes := Eval vm_compute in
  match ClientHelloBuilder.handshake (E := unit) (hello_for "a.test") with Ok hs => hs | _ => [] end.
Definition wire_of (chunk : N) : bytes :=
  match ClientHelloBuilder.records_of (E := unit) example_handshake chunk with Ok w => w | _ => [] end.
Definition example_wire : bytes := Eval vm_compute in wire_of 16384.
Definition example_split_wire : bytes := Eval vm_compute in wire_of 7.
Definition example_info : ClientHelloInfo :=
  mkClientHelloInfo (Some (mkHostname (lit "a.test"))) (len example_wire).

(** C4: [parse_client_hello] accepts exactly the ClientHellos of the wire
    grammar.  It returns a hostname and a length just when the buffer starts
    with handshake records, at most [max_records] of them, whose payloads
    concatenate to a ClientHello message of at most [max_handshake_bytes] bytes
    (completed by the last of the records), its body is well formed with no
    repeated extension, and the hostname is what its server_name extension
    gives; the length is that of those records. *)
Theorem parse_client_hello_accepts_exactly buf limits info :
  len buf ≤ isize_max →
  parse_client_hello buf limits = Ok info ↔ hello_on_wire limits buf info.
Proof. apply parse_client_hello_iff. Qed.
Lemma parse_client_hello_accepts_exactly_witness :
  hello_on_wire HelloLimits.default (example_wire ++ [x17; x03; x03]) example_info.
Proof.
  refine (proj1 (parse_client_hello_accepts_exactly _ _ _ _) _); [done|vm_compute; reflexivity].
Defined.

(** C14: the index-based parser (inline or spilled payload ranges, a partial
    handshake header, a zero-copy path for one record, usize arithmetic) is the
    reference parser that reads record after record off a list and parses the
    concatenated payloads: same results, same errors, and never a panic or an
    endless loop, on every buffer a [Vec] can hold. *)
Theorem parse_client_hello_refines_reference buf limits :
  len buf ≤ isize_max →
  parse_client_hello buf limits = parse_reference limits buf ∧
  ((∃ info, parse_client_hello buf limits = Ok info ∧ consumed info ≤ len buf) ∨
   (∃ e, parse_client_hello buf limits = Err e)).
Proof.
  intros Hb. pose proof (parse_client_hello_reference buf limits Hb) as Href.
  pose proof (parse_client_hello_returns buf limits Hb) as Hret.
  split; [done|].
  destruct (parse_client_hello buf limits) as [info|e|s] eqn:Hp; [| |by destruct (Hret s)].
  - left. exists info. split; [done|]. by eapply parse_client_hello_consumed.
  - right. by exists e.
Qed.
Lemma parse_client_hello_refines_reference_witness :
  parse_reference HelloLimits.default example_split_wire =
  Ok (mkClientHelloInfo (Some (mkHostname (lit "a.test"))) (len example_split_wire)).
Proof.
  destruct (parse_client_hello_refines_reference example_split_wire HelloLimits.default ltac:(done))
    as [<- _]. vm_compute. reflexivity.
Defined.

(** C8: the read loop may re-parse a growing buffer.  A decision other than
    [Incomplete] never changes when more bytes arrive, and every strict prefix
    of an accepted hello's records is [Incomplete]: a hello is never rejected or
    accepted early because of where the network cut it. *)
Theorem parse_client_hello_incremental buf more limits :
  len (buf ++ more) ≤ isize_max →
  (parse_client_hello buf limits ≠ Err Incomplete →
   parse_client_hello (buf ++ more) limits = parse_client_hello buf limits) ∧
  (∀ info n, parse_client_hello buf limits = Ok info → n < consumed info →
   parse_client_hello (takeN n buf) limits = Err Incomplete).
Proof.
  intros Hlen. split; [by apply parse_client_hello_stable|]. intros info n.
  apply parse_client_hello_prefix. len_lia.
Qed.
Lemma parse_client_hello_incremental_witness :
  parse_client_hello (example_wire ++ [x17]) HelloLimits.default = Ok example_info ∧
  parse_client_hello (takeN 11 example_wire) HelloLimits.default = Err Incomplete.
Proof.
  destruct (parse_client_hello_incremental example_wire [x17] HelloLimits.default ltac:(done)) as [H1 H2].
  split.
  - rewrite H1; vm_compute; [reflexivity|discriminate].
  - apply (H2 example_info 11); vm_compute; reflexivity.
Defined.

(** C7: fragmentation does not matter.  However a ClientHello message is cut
    into nonempty records, and whatever follows it, the parser's answer is that
    of parsing the body, with the records' length; a body over
    [max_handshake_bytes] or more than [max_records] records give [TooLarge]. *)
Theorem parse_client_hello_any_fragmentation limits body rs rest :
  len (enc_records rs ++ rest) ≤ isize_max → len body < 2 ^ 24 → Forall record_ok rs →
  payload_of rs = enc_message body →
  parse_client_hello (enc_records rs ++ rest) limits =
  if (max_handshake_bytes limits <? len body) || (max_records limits <? len rs)
  then Err TooLargeHello
  else sni ← parse_client_hello_body body; Ok (mkClientHelloInfo sni (len (enc_records rs))).
Proof.
  apply parse_client_hello_any_message.
Qed.
Lemma parse_client_hello_any_fragmentation_witness :
  parse_client_hello (enc_records [(x01, takeN 3 example_handshake); (x03, dropN 3 example_handshake)] ++ [xff])
    HelloLimits.default = Ok (mkClientHelloInfo (Some (mkHostname (lit "a.test"))) (len example_wire + 5)).
Proof.
  rewrite (parse_client_hello_any_fragmentation HelloLimits.default (dropN 4 example_handshake)).
  - vm_compute. reflexivity.
  - done.
  - done.
  - repeat constructor; done.
  - vm_compute. reflexivity.
Defined.

(** C33: garbage and oversized hellos are rejected on the first bytes that show
    them, whatever follows: a first byte that is not a handshake record, a first
    handshake byte that is not a ClientHello, and a declared length over the
    limit as soon as the handshake header is visible, before the body. *)
Theorem parse_client_hello_rejects_early limits minor plen first h m l more :
  1 ≤ max_records limits → 4 ≤ plen ≤ MAX_RECORD_PAYLOAD →
  let header := [CONTENT_TYPE_HANDSHAKE; RECORD_VERSION_MAJOR; minor] ++ to_be16 plen in
  len (header ++ [first; h; m; l] ++ more) ≤ isize_max →
  (first ≠ CONTENT_TYPE_HANDSHAKE → parse_client_hello (first :: h :: more) limits = Err NotHandshake) ∧
  (first ≠ HANDSHAKE_TYPE_CLIENT_HELLO →
   parse_client_hello (header ++ [first]) limits = Err NotClientHello ∧
   parse_client_hello (header ++ [first; h; m; l] ++ more) limits = Err NotClientHello) ∧
  (first = HANDSHAKE_TYPE_CLIENT_HELLO → max_handshake_bytes limits < be24 h m l →
   parse_client_hello (header ++ [first; h; m; l] ++ more) limits = Err TooLargeHello).
Proof.
  intros Hmax Hplen header Hlen.
  assert (len header = 5) as Hh by done.
  assert (∀ p, check_record_header (takeN 5 (header ++ p)) true = Ok plen) as Hcheck.
  { intros p. rewrite takeN_app_len by done. apply check_record_header_Ok; [done|].
    exists minor. split; [done|lia]. }
  assert (∀ p e, len (header ++ p) ≤ isize_max →
    check_message (takeN plen p) limits = Err e → parse_client_hello (header ++ p) limits = Err e) as Hwalk.
  { intros p e Hp He. rewrite parse_client_hello_reference by done. unfold parse_reference. cbn [walk].
    unfold RECORD_HEADER_LEN. destruct (N.ltb_spec (len (header ++ p)) 5); [len_lia|].
    rewrite Hcheck. res_simpl. change (len (A := bytes) []) with 0.
    destruct (N.eqb_spec 0 (max_records limits)); [lia|]. rewrite dropN_app_len by done.
    cbn [concat app]. by rewrite He. }
  split_and!.
  - intros Hf. assert (parse_client_hello [first] limits = Err NotHandshake) as Hone.
    { rewrite parse_client_hello_reference by done. unfold parse_reference. cbn [walk].
      unfold check_partial_record_header. change (get 0 [first]) with (Some first). cbv iota beta.
      cbn [len length N.of_nat]. destruct (byte_eqb_spec first CONTENT_TYPE_HANDSHAKE); done. }
    change (first :: h :: more) with ([first] ++ h :: more). rewrite <- Hone.
    apply parse_client_hello_stable; [len_lia|by rewrite Hone].
  - intros Hf. assert (∀ p, check_message (takeN plen (first :: p)) limits = Err NotClientHello) as Hn.
    { intros p. unfold takeN. destruct (N.to_nat plen) as [|n] eqn:Hpl; [lia|]. cbn [take]. unfold check_message.
      by destruct (byte_eqb_spec first HANDSHAKE_TYPE_CLIENT_HELLO). }
    split; (apply Hwalk; [len_lia|apply Hn]).
  - intros -> Hbig. apply Hwalk; [done|]. rewrite takeN_app, takeN_ge by (change (len [HANDSHAKE_TYPE_CLIENT_HELLO; h; m; l]) with 4; lia).
    unfold check_message. cbn [app declared_len]. rewrite byte_eqb_refl. res_simpl.
    by destruct (N.ltb_spec (max_handshake_bytes limits) (be24 h m l)); [|lia].
Qed.
Lemma parse_client_hello_rejects_early_witness :
  parse_client_hello [x16; x03; x01; x40; x00; x01; x00; x80; x01] HelloLimits.default = Err TooLargeHello.
Proof.
  refine (proj2 (proj2 (parse_client_hello_rejects_early HelloLimits.default x01 16384 x01 x00 x80 x01 []
    _ _ _)) eq_refl _); vm_compute; try discriminate; try reflexivity. split; discriminate.
Defined.

(** [parse_client_hello_body] returns on every input, and succeeds exactly
    on the encodings of well-formed bodies: version 3.x, a session id of at most
    32 bytes, a nonempty even list of cipher suites, a nonempty list of
    compression methods, and an optional extension block with no type twice
    whose server_name extension, if any, holds at most one host_name, a valid
    hostname. *)
Theorem parse_client_hello_body_grammar body :
  returns (parse_client_hello_body body) ∧
  (∀ o, parse_client_hello_body body = Ok o ↔ ∃ b, body_ok b ∧ body = enc_body b ∧ body_gives b o).
Proof.
  split; [apply parse_client_hello_body_returns|]. intros o. apply parse_client_hello_body_Ok.
Qed.

(** C34: the builder and the parser are inverse.  A well-formed builder's
    handshake, cut into records of any legal size, parses back to what the
    builder describes and consumes the whole wire; at most
    [(length - 1) / chunk + 1] records are used, and a padded hello has exactly
    the requested body length. *)
Theorem builder_parses_back b o chunk limits :
  builder_ok b → body_gives (builder_body b) o → 1 ≤ chunk ≤ MAX_RECORD_PAYLOAD →
  let n := len (enc_body (builder_body b)) in
  n < 2 ^ 24 → n ≤ max_handshake_bytes limits → (n + 3) / chunk + 1 ≤ max_records limits →
  (omit_extensions b = false → ∀ target, padded_body_len b = Some target → n = target) ∧
  ∃ wire, (hs ← ClientHelloBuilder.handshake b; ClientHelloBuilder.records_of hs chunk)
    = Ok (E := unit) wire ∧
    (len wire ≤ isize_max → parse_client_hello wire limits = Ok (mkClientHelloInfo o (len wire))).
Proof.
  intros Hb Hg Hchunk n Hn Hmax Hrec. split; [intros Ho target Ht; by apply builder_padding|].
  rewrite handshake_Ok by done. res_simpl.
  destruct (records_of_Ok (E := unit) (enc_message (enc_body (builder_body b))) chunk Hchunk)
    as (ps & -> & Hps & Hok & Hk).
  exists (enc_records (as_records ps)). split; [done|]. intros Hlen.
  rewrite <- (app_nil_r (enc_records (as_records ps))) at 1.
  rewrite (parse_client_hello_any_message limits (enc_body (builder_body b))); try done.
  - fold n. rewrite (proj2 (N.ltb_ge (max_handshake_bytes limits) n) Hmax).
    assert (len (as_records ps) = len ps) as -> by (unfold as_records, len; by rewrite length_fmap).
    rewrite len_enc_message in Hk. fold n in Hk.
    destruct (N.ltb_spec (max_records limits) (len ps)) as [Hlt|_].
    { exfalso. assert (len ps - 1 ≤ (n + 3) / chunk); [|lia]. apply N.div_le_lower_bound; lia. }
    res_simpl. rewrite (parse_body_complete (builder_body b) o) by (done || apply Hb). done.
  - by rewrite app_nil_r.
  - by rewrite payload_of_as_records.
Qed.
Lemma builder_parses_back_witness :
  let b := ClientHelloBuilder.padding_to (hello_for "A.Test") 200 in
  ∃ wire, (hs ← ClientHelloBuilder.handshake b; ClientHelloBuilder.records_of hs 7) = Ok (E := unit) wire ∧
  (len wire ≤ isize_max →
   parse_client_hello wire HelloLimits.default = Ok (mkClientHelloInfo (Some (mkHostname (lit "a.test"))) (len wire))).
Proof.
  intros b. refine (proj2 (builder_parses_back b (Some (mkHostname (lit "a.test"))) 7
    HelloLimits.default _ _ _ _ _ _)).
  - split_and!; [done|done|done| | | ].
    + intros names [= <-]. split; [repeat constructor|done].
    + intros target [= <-]. done.
    + split_and!; try done. intros xs [= <-]. split; [repeat constructor|done].
  - split.
    + apply (bool_decide_unpack _). vm_compute. exact I.
    + left. exists (enc16 (enc_names [(x00, lit "A.Test")])). split; [left|].
      exists [(x00, lit "A.Test")]. split_and!; [done|repeat constructor; done|done|done|].
      exists (mkHostname (lit "a.test")). split; [vm_compute|]; reflexivity.
  - done.
  - done.
  - done.
  - done.
Defined.
