(* ===== verification/Fixtures.v ===== *)
(** * Captured ClientHellos ([protocol/fixtures.rs])

    What three real clients send, in hexadecimal, and the program's tests on
    them, evaluated.  They tie the wire grammar of the parser's theorems to
    handshakes seen in the wild. *)

From S2P Require Import Prelude Async Str Net Names Protocol Reader Hello Records Framing Builder.
From S2P Require Import Parser.
From Stdlib Require Import Strings.String Strings.Ascii Strings.Byte.

(** Hexadecimal digits in pairs; other characters are skipped. *)
Definition hex_value (c : ascii) : option N :=
  let n := N_of_ascii c in
  if (48 <=? n) && (n <=? 57) then Some (n - 48)
  else if (97 <=? n) && (n <=? 102) then Some (n - 87)
  else None.
Fixpoint of_hex (high : option N) (s : string) : bytes :=
  match s with
  | EmptyString => []
  | String c s =>
    match hex_value c, high with
    | None, _ => of_hex high s
    | Some v, None => of_hex (Some v) s
    | Some v, Some h => default x00 (Byte.of_N (16 * h + v)) :: of_hex None s
    end
  end.

Record Fixture := mkFixture { name : bytes; wire : bytes; fixture_sni : bytes }.

Definition openssl_s_client : bytes := of_hex None (
  "   160301013c010001380303ec2727c902261f3f25407afedd2fd10e0fbe7c302753df442f2818cfad0aca74202e982283
   e074825276af0f302ef007cbddd55638cc166ea3fca0f7588399cf44003e130213031301c02cc030009fcca9cca8ccaa
   c02bc02f009ec024c028006bc023c0270067c00ac0140039c009c0130033009d009c003d003c0035002f00ff010000b1
   0000001800160000136f70656e73736c2e6578616d706c652e636f6d000b000403000102000a00160014001d0017001e
   0019001801000101010201030104002300000016000000170000000d002a0028040305030603080708080809080a080b
   080408050806040105010601030303010302040205020602002b00050403040303002d00020101003300260024001d00
   205c0dcec821a85c7d0ce6a51df3fb9faf34fa5e25fa7a5366ce76ce39259b466a")%string.
Definition curl : bytes := of_hex None (
  "   1603010200010001fc0303bcb618f46f63b8af9277d11f1c5086b66a97246150ed1a26159adc98a24a85ac206e34f7b8
   d53521217e9e05a7fb8309e5d45dc054158a74d37377ceba1199bc4c003e130213031301c02cc030009fcca9cca8ccaa
   c02bc02f009ec024c028006bc023c0270067c00ac0140039c009c0130033009d009c003d003c0035002f00ff01000175
   0000001500130000106375726c2e6578616d706c652e636f6d000b000403000102000a00160014001d0017001e001900
   18010001010102010301040010000e000c02683208687474702f312e31001600000017000000310000000d002a002804
   0305030603080708080809080a080b080408050806040105010601030303010302040205020602002b00050403040303
   002d00020101003300260024001d0020cc516f9afa13012437882eeb7d6a1397d74847d8d792dc9c5e05b87454e18f6c
   001500b10000000000000000000000000000000000000000000000000000000000000000000000000000000000000000
   000000000000000000000000000000000000000000000000000000000000000000000000000000000000000000000000
   000000000000000000000000000000000000000000000000000000000000000000000000000000000000000000000000
   00000000000000000000000000000000000000000000000000000000000000000000000000")%string.
Definition firefox : bytes := of_hex None (
  "   16030107620100075e0303c1585425bdbdb65724d1b15cfe8077379be3c0c67060acc4d624284dcdf79226201b73c7ec
   a9661c739768197573f36aa13c1fdfa5157521e5bbdf07542118aad0001e130113031302c02bc02fcca9cca8c02cc030
   c013c014009c009d002f0035010006f700000016001400001166697265666f782e6c6f63616c686f737400170000ff01
   000100000a000c000a11ec001d001700180019000b00020100002300000010000e000c02683208687474702f312e3100
   05000501000000000022000a00080403050306030203001200000033052f052d11ec04c0aa734e5d4798fa2027f47139
   3a0b9a5490a57712cbc6d1592df516436a7962343d070993fbe58165eb408932c246b46327d95e55384199e4acabc21c
   e8f83ff5dbb8ca2304be11bf673c00b2d6277643174fd93a61327a1a7cc13a5440b13909de29afa9f94cbc716e920612
   3de729c0732748d52f2826397d0333fad19973f29747d4af583a1a42855520ccbdd9f59c136948904787e8771ffbf89a
   e82bcf3a1badf940726fd4b726a3bba2865aa5f09286303303325be53b9b4a148ce007aa08a7823d38099daacbb1401d
   6c57bd1207207cea82c2fba19dd03308a2473ed6274b1cb49df9c133db2afbe35760e9386529cf8fdc1af1e25ab67076
   202ab0f555a0c60116aad9ca87385418ea64f6b9111bb658b72261b63542069b3ee991c668756953616da66965f3863f
   a30902b1ab11340b02b227b69e477f52683dce1022d7cbaba3569e4104969585280fb5c776020917c207ebf43b46e5b4
   e4d4aecf231c1a7461dfd985a0c02a3f80146c1b77cab36824aab9d03827fa25775ca324d2e5bbe3a92ff150c3ef5764
   6419637814c304cc6a0e8b317f38b1a6cb1c2f3a2e75869b7f0735b562963e69863686acced7073336be8e778681e07d
   1dd7b431bb9bfd76b4ac2a9a1fd2a42c26a261aa4928a1b885263369d0897a3671cb8b3310e07f520abfc79b80ba5b2f
   e0942620251291b160b188a0a0a631d242af3a3616fc23a40c263f90a6b84dda49d3343f49890d8797a23b6b5ec60484
   9af328251c93ffd46a53d9464c316201471a93b75e8c7816ca699108a65a4c873d49a368764574664329aa56415ee2ad
   f8a398e3113ecba577977b6b214472ebd9645f444d9446b39de508b8c48d11d4b74fab7ce4a3a0a89cbe2f14c464b872
   dd020e23ea3dbb81c3282b50bb67b9389a6f589801ca636f7d6a4b411a10ffb74cb662b99690328b59ac8ce3506e5629
   6ef88052981dd2a03b1a40a3cc717d4fbb6882e16582351e40e881521a795ad295755c29795a03b5f66dfba499ae120a
   404935897a2abe95c3c97b6955d3569344a87e17ab3be699bc86692fbc935dd4ac098a099e34a9a5b57a46a346887577
   e9726ee3c93dc8c5356aca2859438a31525ae4035960d4a43e972d0c2c2c3ac917d979ae7199cce092c087799b2aba59
   3249a86ab60307612ec4506689f2bf86a09fe9932bd0c736df32748084395c7309d4070f4d742d5ae6a949a804f2140f
   ea5805ebca176ec9ad74658eb9716bae4462823c8bd33687c4da9c2eb0a4018416cc710f457ba0a0c0c263dba5bb9a5d
   073935fb2b3a9c03c04a245362a7b709a1082ff612bfb5b21d55a1da89be17fac03cc488f7b63ee19a1b0328002d2c0e
   b2ec9a44f67a1e4956c8642e69aaa9464a3dbf7cca743a3683a02d649426fd5cac2cf01963988fc7019ba765619ec212
   18b42cdbcbc34225b4ea4c8275f0266bd6cd1db39e111907a91594e389b756353512f0ce5cd9518d765ffe888bea4bc3
   82a16d5d155a2bfa53b4252e06c68077b227c6e0594077cf6b170f8c9710479b955f08caaf52985ab99695f3757625bd
   29931e9ca153cee46b8a75852be80cfc3a4ea15c09fca1b9e8790c51ba26071ac3267a129f307722c7ca23af32709217
   9cca7f92b6fc4719e4c6e8d3dc9c106bfd74a6fd5211f24232baa37d606110dcd144c712a043b63f7a299e39776d974f
   27fb8e65001d00205211f24232baa37d606110dcd144c712a043b63f7a299e39776d974f27fb8e650017004104aec8b7
   27e4c5b2331e660f9c901ecc9128a8add6d2388458f2a4879fc0416246caafd932e184550a36f6dfdae35e2bcaad5310
   bd056c2a0c59921119c2d1cbce002b00050403040303000d001800160403050306030804080508060401050106010203
   0201002d00020101001c00024001001b000706000100020003fe0d011a0000010003370020e132b6adaf245b82453853
   54db6b1b36c976116d8a620e43b0e8b0f5a8ff162100f05218c01d1d7be1bdd595f40e736d14ae94fb65a54876596333
   384b413ec7bca3cac49a98835e22514e40c6a7adc6d1dc82aec6b8795526d8da3eae5e92602186747c7598da551e8c4c
   5bfd51325908ff0835ff48f76f693f999565895a1b8819c7cbf46af6a5df27c2a88c3405d8a37ecba0c24fb141907183
   8c6de51736a0cfbe68e8ca84f22e43492568f829c256ff1edb64aef3e2a7b4931bdaaa4f3b381ec63442364a55f48555
   9034c98c1aba19b9a1ed9ea111726d339db8745455a62c621826561a354144d40b22df3527e934fd40f06cb4fb8fa848
   acb0669521d702607555ff37cc8ae7c45cc4cc1a0c09a8")%string.

Definition FIXTURES : list Fixture := [
  mkFixture (lit "openssl_s_client") openssl_s_client (lit "openssl.example.com");
  mkFixture (lit "curl") curl (lit "curl.example.com");
  mkFixture (lit "firefox_pq") firefox (lit "firefox.localhost")].

(** [&wire[RECORD_HEADER_LEN..]]. *)
Definition handshake_of (wire : bytes) : res Empty_set bytes := slice_from RECORD_HEADER_LEN wire.

(** ** The tests *)
Definition parses_to (f : Fixture) (data : bytes) : bool :=
  match parse_client_hello data HelloLimits.default with
  | Ok info => bool_decide (host_text <$> sni info = Some (fixture_sni f)) && (consumed info =? len data)
  | _ => false
  end.
Lemma real_clients_parse_under_default_limits : forallb (λ f, parses_to f (wire f)) FIXTURES = true.
Proof. vm_compute. reflexivity. Qed.

Lemma post_quantum_hello_is_the_large_case : 1500 < len firefox.
Proof. vm_compute. reflexivity. Qed.

Definition fragmented_parses (f : Fixture) : bool :=
  match (handshake ← handshake_of (wire f);
         let limit := HelloLimits.DEFAULT_MAX_RECORDS in
         ClientHelloBuilder.records_of handshake ((len handshake + (limit - 1)) / limit)) with
  | Ok data => parses_to f data
  | _ => false
  end.
Lemma real_hellos_fragmented_to_the_record_limit_parse : forallb fragmented_parses FIXTURES = true.
Proof. vm_compute. reflexivity. Qed.

(** What the general theorems need of a fixture, evaluated. *)
Definition fixture_message (f : Fixture) : bool :=
  match handshake_of (wire f) with
  | Ok handshake =>
    let body := dropN 4 handshake in
    (len (wire f) <? 2 ^ 14) && (len body <? 2 ^ 14) && bool_decide (handshake = enc_message body) &&
    match parse_client_hello_body body with Ok (Some h) => bool_decide (host_text h = fixture_sni f) | _ => false end
  | _ => false
  end.
Lemma fixture_messages : forallb fixture_message FIXTURES = true.
Proof. vm_compute. reflexivity. Qed.

Lemma forallb_elem_of {A} (p : A → bool) l x : forallb p l = true → x ∈ l → p x = true.
Proof. intros Hp Hx. apply forallb_forall with (x := x) in Hp; [done|]. by apply list_elem_of_In. Qed.

Lemma fixture_spec f :
  f ∈ FIXTURES →
  ∃ h body, host_text h = fixture_sni f ∧ len (wire f) < 2 ^ 14 ∧
    handshake_of (wire f) = Ok (enc_message body) ∧ len body < 2 ^ 14 ∧
    parse_client_hello_body body = Ok (Some h) ∧
    parse_client_hello (wire f) HelloLimits.default = Ok (mkClientHelloInfo (Some h) (len (wire f))).
Proof.
  intros Hf. pose proof (forallb_elem_of _ _ _ real_clients_parse_under_default_limits Hf) as Hp.
  pose proof (forallb_elem_of _ _ _ fixture_messages Hf) as Hm. cbv beta in *.
  unfold fixture_message in Hm. destruct (handshake_of (wire f)) as [handshake| |] eqn:Hh; [|done..].
  apply andb_true_iff in Hm as [[[Hlen Hbl]%andb_true_iff Hmsg]%andb_true_iff Hbody].
  destruct (parse_client_hello_body _) as [[h|]| |] eqn:Hb; [|done..]. apply bool_decide_eq_true in Hmsg, Hbody.
  apply N.ltb_lt in Hlen, Hbl. unfold parses_to in Hp.
  destruct (parse_client_hello (wire f) _) as [[[h'|] n]| |]; [|done..]. cbn [sni consumed] in Hp.
  apply andb_true_iff in Hp as [Hsni%bool_decide_eq_true ->%N.eqb_eq].
  exists h, (dropN 4 handshake). split_and!; try done.
  - by rewrite <- Hmsg.
  - destruct h as [t], h' as [t']. cbn in *. congruence.
Qed.

Lemma every_prefix_of_real_hellos_is_incomplete f n :
  f ∈ FIXTURES → n < len (wire f) → parse_client_hello (takeN n (wire f)) HelloLimits.default = Err Incomplete.
Proof.
  intros (h & body & _ & Hlen & _ & _ & _ & Hp)%fixture_spec Hn.
  by eapply parse_client_hello_prefix; [|exact Hp|]; [unfold isize_max; lia|].
Qed.

(** The test cuts a handshake in two; any cut into records the limits allow
    parses to the same server name. *)
Lemma every_split_of_real_hellos_parses f rs :
  f ∈ FIXTURES → Forall record_ok rs → handshake_of (wire f) = Ok (payload_of rs) →
  len rs ≤ HelloLimits.DEFAULT_MAX_RECORDS → len (enc_records rs) ≤ isize_max →
  ∃ h, host_text h = fixture_sni f ∧
    parse_client_hello (enc_records rs) HelloLimits.default = Ok (mkClientHelloInfo (Some h) (len (enc_records rs))).
Proof.
  intros (h & body & Hsni & Hlen & Hh & Hle & Hb & _)%fixture_spec Hrs Hpay Hn Hmax. exists h. split; [done|].
  rewrite Hh in Hpay. injection Hpay as Hpay.
  rewrite <- (app_nil_r (enc_records rs)) at 1.
  rewrite (parse_client_hello_any_message _ body) by (rewrite ?app_nil_r; done || lia).
  change (max_handshake_bytes HelloLimits.default) with HelloLimits.DEFAULT_MAX_HANDSHAKE_BYTES.
  change (max_records HelloLimits.default) with HelloLimits.DEFAULT_MAX_RECORDS.
  unfold HelloLimits.DEFAULT_MAX_HANDSHAKE_BYTES.
  destruct (N.ltb_spec (32 * 1024) (len body)); [lia|]. destruct (N.ltb_spec HelloLimits.DEFAULT_MAX_RECORDS (len rs)); [lia|].
  cbn [orb]. by rewrite Hb.
Qed.

Lemma corruption_of_real_hellos_never_panics f index value :
  f ∈ FIXTURES → returns (parse_client_hello (<[index := value]> (wire f)) HelloLimits.default).
Proof.
  intros (_ & _ & _ & Hlen & _)%fixture_spec. apply parse_client_hello_returns.
  unfold len in *. rewrite length_insert. unfold isize_max. lia.
Qed.
