(* ===== verification/HelloReader.v ===== *)
(** * Reading a ClientHello off a stream ([delivery/hello_reader.rs]) *)

From S2P Require Import Prelude Async Str Net Names Protocol Reader Hello Records Framing Builder.
From S2P Require Import Parser.
From Stdlib Require Import Strings.Byte.

Inductive HelloReadError :=
| HelloClosed
| HelloIo (error : io_error)
| HelloParse (error : ParseError).
#[global] Instance HelloReadError_eq_dec : EqDecision HelloReadError.
Proof. solve_decision. Defined.

Section ReadClientHello.
Context `{AsyncRead Src}.

(** The [loop]: every read is parsed; [Incomplete] reads on. *)
Fixpoint read_loop (fuel : nat) (max : N) (limits : HelloLimits) (stream : Src) (buf : bytes) :
    res HelloReadError (bytes * ClientHelloInfo * Src) :=
  match fuel with
  | O => Stuck SFuel
  | S fuel =>
    remaining ← usub max (len buf);
    if remaining =? 0 then Err (HelloParse TooLargeHello)
    else
      match read_buf stream remaining with
      | (inl error, _) => Err (HelloIo error)
      | (inr read, stream) =>
        if is_empty read then Err HelloClosed
        else
          let buf := buf ++ read in
          match parse_client_hello buf limits with
          | Ok info => Ok (buf, info, stream)
          | Err Incomplete => read_loop fuel max limits stream buf
          | Err error => Err (HelloParse error)
          | Stuck s => Stuck s
          end
      end
  end.

Definition read_client_hello (stream : Src) (limits : HelloLimits) :
    res HelloReadError (bytes * ClientHelloInfo * Src) :=
  max ← HelloLimits.max_wire_bytes limits;
  read_loop (S (N.to_nat max)) max limits stream [].
End ReadClientHello.

(** ** The specification: a function of the bytes alone *)
Definition hello_result (limits : HelloLimits) (data : bytes) : res HelloReadError ClientHelloInfo :=
  let max := wire_bound limits in
  match parse_client_hello (takeN max data) limits with
  | Ok info => Ok info
  | Err Incomplete => Err (if max <=? len data then HelloParse TooLargeHello else HelloClosed)
  | Err e => Err (HelloParse e)
  | Stuck s => Stuck s
  end.

Section ReaderProofs.
Context `{ByteSource Src content}.

(** What the loop answers, given that what it has read is incomplete. *)
Definition answers (limits : HelloLimits) (buf : bytes) (stream : Src)
    (out : res HelloReadError (bytes * ClientHelloInfo * Src)) : Prop :=
  match hello_result limits (buf ++ content stream), out with
  | Ok info, Ok (buf', info', stream') =>
    info' = info ∧ buf' ++ content stream' = buf ++ content stream ∧
    consumed info ≤ len buf' ≤ wire_bound limits
  | Err e, Err e' => e' = e
  | _, _ => False
  end.

Lemma hello_result_prefix limits p data :
  len p ≤ wire_bound limits ≤ isize_max → parse_client_hello p limits ≠ Err Incomplete →
  hello_result limits (p ++ data) =
  match parse_client_hello p limits with
  | Ok info => Ok info
  | Err e => Err (HelloParse e)
  | Stuck s => Stuck s
  end.
Proof.
  intros Hp Hne. unfold hello_result. rewrite takeN_app, takeN_ge by lia.
  rewrite parse_client_hello_stable; [| |done].
  - destruct (parse_client_hello p limits) as [|[]|]; done.
  - rewrite len_app, len_takeN. lia.
Qed.

Lemma read_loop_answers fuel limits buf stream :
  wire_bound limits ≤ isize_max → len buf ≤ wire_bound limits →
  (N.to_nat (wire_bound limits - len buf) < fuel)%nat →
  parse_client_hello buf limits = Err Incomplete →
  answers limits buf stream (read_loop fuel (wire_bound limits) limits stream buf).
Proof.
  intros Hmax. revert buf stream. induction fuel as [|fuel IH]; intros buf stream Hbuf Hf Hinc; [lia|].
  cbn [read_loop]. rewrite usub_Ok by done. res_simpl. unfold answers.
  destruct (N.eqb_spec (wire_bound limits - len buf) 0) as [H0'|Hrem].
  { unfold hello_result. rewrite takeN_app, takeN_ge by lia. rewrite H0', takeN_0, app_nil_r, Hinc.
    by destruct (N.leb_spec (wire_bound limits) (len (buf ++ content stream))); [|len_lia]. }
  destruct (read_delivers stream (wire_bound limits - len buf)) as (bs & stream' & -> & Hc & Hl & Hempty).
  destruct bs as [|b bs]; cbn [is_empty].
  { destruct (Hempty eq_refl) as [|Hend]; [lia|]. unfold hello_result.
    rewrite Hend, app_nil_r, takeN_ge, Hinc by lia.
    by destruct (N.leb_spec (wire_bound limits) (len buf)); [lia|]. }
  rewrite Hc, app_assoc. set (buf' := buf ++ b :: bs).
  assert (len buf' ≤ wire_bound limits) as Hbuf' by (unfold buf'; len_lia).
  destruct (decide (parse_client_hello buf' limits = Err Incomplete)) as [Hinc'|Hne].
  - rewrite Hinc'. apply IH; [done| |done]. unfold buf'. rewrite len_app, len_cons in *. lia.
  - rewrite hello_result_prefix by done.
    destruct (parse_client_hello buf' limits) as [info|e|s] eqn:Hp.
    + split_and!; [done|done| |done]. eapply parse_client_hello_consumed; [|done]. lia.
    + by destruct e.
    + exfalso. apply (parse_client_hello_returns buf' limits) with s; [lia|done].
Qed.

Lemma read_client_hello_Ok (stream : Src) limits buf info stream' :
  wire_bound limits ≤ isize_max → read_client_hello stream limits = Ok (buf, info, stream') →
  hello_result limits (content stream) = Ok info ∧ buf ++ content stream' = content stream ∧ consumed info ≤ len buf.
Proof.
  intros Hmax Hr. unfold read_client_hello in Hr. rewrite max_wire_bytes_Ok in Hr.
  2: { unfold isize_max, usize_max in *. lia. }
  cbn [mbind res_bind] in Hr.
  assert (answers limits [] stream (Ok (buf, info, stream'))) as Ha.
  { rewrite <- Hr. apply read_loop_answers; [done|rewrite len_nil; lia|rewrite len_nil; lia|done]. }
  unfold answers in Ha. cbn [app] in Ha.
  destruct (hello_result limits (content stream)) as [i|e|s]; [|done..]. by destruct Ha as (-> & Hb & [Hc _]).
Qed.
End ReaderProofs.

(** C16: reading a ClientHello depends only on the bytes the client sends, not on
    how the network cuts them.  On a stream that delivers [content] the read
    loop terminates without a panic, with the answer [hello_result] computes
    from the first [max_wire_bytes] of [content]: the parser's decision,
    [TooLarge] when they do not contain a whole hello, [Closed] when the client
    stopped before.  On success the returned buffer and what is left of the
    stream are together what the client sent, so that replaying the buffer loses
    nothing; the buffer holds the whole hello and never exceeds the limit. *)
Theorem read_client_hello_chunking_irrelevant `{ByteSource Src content} (stream : Src) limits :
  wire_bound limits ≤ isize_max →
  match hello_result limits (content stream), read_client_hello stream limits with
  | Ok info, Ok (buf, info', stream') =>
    info' = info ∧ buf ++ content stream' = content stream ∧
    consumed info ≤ len buf ≤ wire_bound limits
  | Err e, Err e' => e' = e
  | _, _ => False
  end.
Proof.
  intros Hmax. unfold read_client_hello. rewrite max_wire_bytes_Ok.
  2: { unfold isize_max, usize_max in *. lia. }
  res_simpl. apply (read_loop_answers _ limits [] stream); [done|rewrite len_nil; lia| |done].
  rewrite len_nil. lia.
Qed.
Lemma read_client_hello_chunking_irrelevant_witness :
  ∃ buf stream', read_client_hello [takeN 3 example_wire; dropN 3 example_wire ++ [x17]] HelloLimits.default
    = Ok (buf, example_info, stream') ∧ buf ++ concat stream' = example_wire ++ [x17].
Proof.
  pose proof (read_client_hello_chunking_irrelevant
    [takeN 3 example_wire; dropN 3 example_wire ++ [x17]] HelloLimits.default ltac:(done)) as H.
  assert (hello_result HelloLimits.default (concat [takeN 3 example_wire; dropN 3 example_wire ++ [x17]])
    = Ok example_info) as Hr by (vm_compute; reflexivity).
  rewrite Hr in H. destruct (read_client_hello _ _) as [[[buf info] stream']|e|s]; [|destruct H..].
  destruct H as (-> & Hb & _). exists buf, stream'. split; [reflexivity|]. exact Hb.
Defined.

(** A hello whose only record also carries the first bytes of another handshake
    message. *)
Definition coalesced_wire : bytes := Eval vm_compute in
  match push_record (E := unit) [] (example_handshake ++ [x02; x00; x00; x00]) with Ok w => w | _ => [] end.
Definition exact_limits : HelloLimits := HelloLimits.new (len example_handshake - 4) 1.

(** The bound [max_wire_bytes] covers the ClientHello message and its record
    headers, but not the rest of its last record, which [consumed] counts: under
    limits that admit it exactly, a hello whose last record also carries the
    next handshake message is accepted by the parser with more bytes consumed
    than [max_wire_bytes], and the read loop rejects it as too large. *)
Theorem max_wire_bytes_excludes_coalesced_data :
  (∀ limits buf info, len buf ≤ isize_max → parse_client_hello buf limits = Ok info →
     ∃ rs rest body extra, buf = enc_records rs ++ rest ∧ consumed info = len (enc_records rs) ∧
       payload_of rs = enc_message body ++ extra ∧
       len (enc_message body) + len rs * RECORD_HEADER_LEN ≤ wire_bound limits ∧
       consumed info = len (enc_message body) + len rs * RECORD_HEADER_LEN + len extra) ∧
  (∃ info, parse_client_hello coalesced_wire exact_limits = Ok info ∧
     wire_bound exact_limits < consumed info ∧
     read_client_hello [coalesced_wire] exact_limits = Err (HelloParse TooLargeHello)).
Proof.
  split.
  - intros limits buf info Hb Hp. apply parse_client_hello_iff in Hp; [|done].
    destruct Hp as (rs & rest & b & extra & -> & _ & Hl & Hm & Hmax & _ & _ & _ & _ & Hc).
    exists rs, rest, (enc_body b), extra.
    assert (len (enc_records rs) = len (payload_of rs) + len rs * RECORD_HEADER_LEN) as Hlen.
    { clear. induction rs as [|r rs IH]; [done|].
      rewrite enc_records_cons, payload_of_cons, !len_app, len_cons, len_enc_record, IH.
      unfold RECORD_HEADER_LEN. lia. }
    rewrite Hm, len_app, len_enc_message in Hlen. rewrite Hc, len_enc_message.
    unfold wire_bound, HANDSHAKE_HEADER_LEN, RECORD_HEADER_LEN in *.
    split_and!; [done|done|done|lia|lia].
  - eexists. split_and!; vm_compute; reflexivity.
Qed.
