(* ===== verification/ParserTests.v ===== *)
(** * The parser's and the hello reader's own tests, evaluated on the model

    The tests of [protocol/reader.rs], [protocol/hello.rs], [protocol/record.rs] and
    [delivery/hello_reader.rs], one boolean each: whether the test's assertions
    hold.  A builder that panics fails the test. *)

From S2P Require Import Prelude Async Str Net Names Protocol Reader Hello Records Framing Builder.
From S2P Require Import Parser HelloReader.
From Stdlib Require Import Strings.Byte.

Definition Built : Type := res ParseError bytes.
(** [parse_client_hello] of built wire bytes, under the default limits. *)
Definition sni_of (wire : bytes) : res ParseError (option bytes) :=
  info ← parse_client_hello wire HelloLimits.default; Ok (Hostname.as_str <$> sni info).
Definition parse (b : ClientHelloBuilder) : res ParseError (option bytes) :=
  wire ← ClientHelloBuilder.build b; sni_of wire.
Definition gives {A} `{EqDecision A} (m : res ParseError A) (expected : res ParseError A) : bool :=
  bool_decide (m = expected).
(** A test that first builds something: it holds of what was built. *)
Definition built {A} (m : res ParseError A) (test : A → bool) : bool :=
  match m with Ok a => test a | _ => false end.
Definition malformed {A} (message : string) : res ParseError A := Err (Malformed (lit message)).

Module CursorTests.
Definition short_reads_return_none_without_consuming_past_end : bool :=
  bool_decide ((Reader.vec16 (Reader.new [x00; x05; xaa])).1 = None) &&
  bool_decide ((Reader.u8 (Reader.new [])).1 = None) && bool_decide ((Reader.u16 (Reader.new [x01])).1 = None).

Definition length_prefixed_vectors_split_correctly : bool :=
  let '(a, r) := Reader.vec8 (Reader.new [x02; xaa; xbb; x00; x01; xcc]) in
  let '(b, r) := Reader.vec16 r in
  bool_decide (a = Some [xaa; xbb]) && bool_decide (b = Some [xcc]) && Reader.is_empty r.
End CursorTests.

Lemma cursor_tests_pass :
  CursorTests.short_reads_return_none_without_consuming_past_end &&
  CursorTests.length_prefixed_vectors_split_correctly = true.
Proof. vm_compute. reflexivity. Qed.

Module HelloTests.
Import ClientHelloBuilder.

Definition rejects_trailing_dot_and_invalid_names : bool :=
  gives (parse (hello_for "example.com.")) (Err (InvalidServerName EmptyLabel)) &&
  gives (parse (hello_for "10.1.2.3")) (Err (InvalidServerName IpLiteral)) &&
  gives (parse (raw_server_names new [(x00, [xff; xfe] ++ lit ".com")])) (Err (InvalidServerName InvalidCharacter)).

Definition rejects_multiple_host_names : bool :=
  gives (parse (raw_server_names new [(x00, lit "a.test"); (x00, lit "b.test")])) (malformed "multiple host_name entries").

Definition skips_non_host_name_entries : bool :=
  gives (parse (raw_server_names new [(x07, lit "ignored"); (x00, lit "a.test")])) (Ok (Some (lit "a.test"))) &&
  gives (parse (raw_server_names new [(x07, lit "ignored")])) (Ok None).

Definition rejects_empty_server_name_list_and_empty_names : bool :=
  gives (parse (raw_server_names new [])) (malformed "empty server_name_list") &&
  gives (parse (raw_server_names new [(x00, [])])) (malformed "empty server name").

Definition rejects_duplicate_extensions : bool :=
  gives (parse (extension (extension (hello_for "a.test") 10 [x00; x02; x00; x1d]) 10 [x00; x02; x00; x17]))
    (malformed "duplicate extension type").

Definition more_extensions_than_inline_capacity_still_parse : bool :=
  gives (parse (many_extensions (hello_for "many.test"))) (Ok (Some (lit "many.test"))).

Definition duplicate_beyond_inline_capacity_is_rejected : bool :=
  gives (parse (extension (many_extensions (hello_for "many.test")) 100 [])) (malformed "duplicate extension type").

Definition rejects_structural_body_errors : bool :=
  gives (parse (with_session_id new (replicate 33 x00))) (malformed "legacy_session_id longer than 32 bytes") &&
  gives (parse (with_cipher_suites new [x13])) (malformed "cipher_suites length is empty or odd") &&
  gives (parse (with_compression_methods new [])) (malformed "empty legacy_compression_methods") &&
  gives (parse (with_legacy_version new 512)) (malformed "unsupported legacy_version").

Definition rejects_trailing_bytes_after_extensions : bool :=
  gives (parse (with_trailing_body_bytes (hello_for "a.test") [x00])) (malformed "trailing bytes after extensions").

Definition hello_without_extensions_block_has_no_sni : bool :=
  gives (parse (with_omit_extensions new)) (Ok None).
End HelloTests.

Lemma hello_tests_pass :
  HelloTests.rejects_trailing_dot_and_invalid_names && HelloTests.rejects_multiple_host_names &&
  HelloTests.skips_non_host_name_entries && HelloTests.rejects_empty_server_name_list_and_empty_names &&
  HelloTests.rejects_duplicate_extensions && HelloTests.more_extensions_than_inline_capacity_still_parse &&
  HelloTests.duplicate_beyond_inline_capacity_is_rejected && HelloTests.rejects_structural_body_errors &&
  HelloTests.rejects_trailing_bytes_after_extensions && HelloTests.hello_without_extensions_block_has_no_sni = true.
Proof. vm_compute. reflexivity. Qed.

Module RecordTests.
Import ClientHelloBuilder.

Definition parses_single_record_hello : bool :=
  built (build (hello_for "Example.COM")) (λ wire,
    built (parse_client_hello wire HelloLimits.default) (λ info,
      bool_decide (Hostname.as_str <$> Protocol.sni info = Some (lit "example.com")) && (consumed info =? len wire))).

Definition hello_without_sni_parses_with_none : bool := gives (parse new) (Ok None).

Definition consumed_excludes_trailing_bytes : bool :=
  built (build (hello_for "a.test")) (λ wire,
    built (parse_client_hello (wire ++ [x17; x03; x03; x00; x01; xff]) HelloLimits.default)
      (λ info, consumed info =? len wire)).

Definition every_prefix_is_incomplete : bool :=
  built (build (hello_for "prefix.example.com")) (λ wire,
    forallb (λ end_, gives (parse_client_hello (takeN (N.of_nat end_) wire) HelloLimits.default) (Err Incomplete))
      (seq 0 (length wire))).

Definition every_two_record_split_parses_the_same : bool :=
  built (handshake (hello_for "split.example.com")) (λ hs,
    forallb (λ split, gives (wire ← records_from_splits hs [N.of_nat split]; sni_of wire)
      (Ok (Some (lit "split.example.com")))) (seq 1 (length hs - 1))).

Definition one_byte_records_parse_up_to_the_record_limit : bool :=
  built (handshake (hello_for "a.b")) (λ hs,
  built (records_of hs 1) (λ wire,
    built (parse_client_hello wire (HelloLimits.new HelloLimits.DEFAULT_MAX_HANDSHAKE_BYTES (len hs)))
      (λ info, bool_decide (Hostname.as_str <$> Protocol.sni info = Some (lit "a.b"))) &&
    gives (parse_client_hello wire (HelloLimits.new HelloLimits.DEFAULT_MAX_HANDSHAKE_BYTES (len hs - 1))) (Err TooLargeHello))).

(** One-byte records followed by the remainder: exactly [records] records. *)
Definition splits (records : nat) : list N := N.of_nat <$> seq 1 (records - 1).
Definition record_limit_is_inclusive : bool :=
  built (handshake (hello_for "r.test")) (λ hs,
    built (records_from_splits hs (splits 32)) (λ wire, built (parse_client_hello wire HelloLimits.default) (λ _, true)) &&
    built (records_from_splits hs (splits 33)) (λ wire,
      gives (parse_client_hello wire HelloLimits.default) (Err TooLargeHello))).

Definition oversized_declared_length_is_rejected_from_the_header_alone : bool :=
  let declared := HelloLimits.DEFAULT_MAX_HANDSHAKE_BYTES + 1 in
  gives (parse_client_hello
    [x16; x03; x01; x40; x00; x01; n2b (N.shiftr declared 16 mod 256); n2b (N.shiftr declared 8 mod 256);
     n2b (declared mod 256)] HelloLimits.default) (Err TooLargeHello).

Definition large_hello_at_the_limit_parses : bool :=
  let builder := padding_to (hello_for "big.example.com") HelloLimits.DEFAULT_MAX_HANDSHAKE_BYTES in
  built (handshake builder) (λ hs, len hs =? HANDSHAKE_HEADER_LEN + HelloLimits.DEFAULT_MAX_HANDSHAKE_BYTES) &&
  gives (parse builder) (Ok (Some (lit "big.example.com"))).

Definition rejects_non_handshake_first_byte_immediately : bool :=
  gives (sni_of (lit "G")) (Err NotHandshake) &&
  gives (sni_of (lit "GET / HTTP/1.1" ++ [x0d; x0a])) (Err NotHandshake).

Definition rejects_bad_record_headers : bool :=
  gives (sni_of [x16; x02]) (Err InvalidRecord) &&
  gives (sni_of [x16; x03; x01; x00; x00]) (Err InvalidRecord) &&
  gives (sni_of [x16; x03; x01; x40; x01]) (Err InvalidRecord).

Definition rejects_non_client_hello_on_first_byte : bool :=
  gives (sni_of [x16; x03; x01; x00; x10; x02]) (Err NotClientHello).

Definition rejects_non_handshake_record_mid_hello : bool :=
  built (hs ← handshake (hello_for "a.test"); records_from_splits hs [10]) (λ wire,
    gives (sni_of (<[N.to_nat (RECORD_HEADER_LEN + 10) := x17]> wire)) (Err InvalidRecord)).

(** A parse that panics is [Stuck]. *)
Definition corrupting_length_bytes_never_panics : bool :=
  built (build (hello_for "fuzz.example.com")) (λ wire,
    forallb (λ index, forallb (λ value,
      match parse_client_hello (<[index := value]> wire) HelloLimits.default with Stuck _ => false | _ => true end)
      [x00; x01; x7f; x80; xfe; xff]) (seq 0 (length wire))).
End RecordTests.

Lemma record_tests_pass :
  RecordTests.parses_single_record_hello && RecordTests.hello_without_sni_parses_with_none &&
  RecordTests.consumed_excludes_trailing_bytes && RecordTests.every_prefix_is_incomplete &&
  RecordTests.every_two_record_split_parses_the_same && RecordTests.one_byte_records_parse_up_to_the_record_limit &&
  RecordTests.record_limit_is_inclusive && RecordTests.oversized_declared_length_is_rejected_from_the_header_alone &&
  RecordTests.rejects_non_handshake_first_byte_immediately && RecordTests.rejects_bad_record_headers &&
  RecordTests.rejects_non_client_hello_on_first_byte && RecordTests.rejects_non_handshake_record_mid_hello &&
  RecordTests.corrupting_length_bytes_never_panics = true.
Proof. vm_compute. reflexivity. Qed.
Lemma large_hello_test_passes : RecordTests.large_hello_at_the_limit_parses = true.
Proof. vm_compute. reflexivity. Qed.

Module ReaderTests.
Import ClientHelloBuilder.

Definition read_hello (stream : chunk_stream) (limits : HelloLimits) : res HelloReadError (bytes * ClientHelloInfo) :=
  '(buf, info, _) ← read_client_hello stream limits; Ok (buf, info).

Definition reads_a_hello_delivered_one_byte_at_a_time : bool :=
  built (build (hello_for "drip.test")) (λ wire,
    match read_hello ((λ b, [b]) <$> wire) HelloLimits.default with
    | Ok (buf, info) =>
      bool_decide (buf = wire) && bool_decide (Hostname.as_str <$> Protocol.sni info = Some (lit "drip.test"))
    | _ => false
    end).

Definition keeps_bytes_read_past_the_hello_for_replay : bool :=
  built (build (hello_for "early.test")) (λ hello,
    let wire := hello ++ lit "early-data" in
    match read_hello [wire] HelloLimits.default with
    | Ok (buf, info) => (consumed info =? len hello) && bool_decide (buf = wire)
    | _ => false
    end).

Definition eof_before_complete_hello_is_closed : bool :=
  built (build (hello_for "short.test")) (λ wire,
    bool_decide (read_hello [takeN (len wire - 1) wire] HelloLimits.default = Err HelloClosed)).

Definition garbage_fails_on_first_read : bool :=
  bool_decide (read_hello [lit "GET / HTTP/1.1" ++ [x0d; x0a; x0d; x0a]] HelloLimits.default =
    Err (HelloParse NotHandshake)).

Definition buffer_never_exceeds_wire_limit : bool :=
  built (hs ← handshake (padding_to (hello_for "x.test") 1024); records_of hs 100) (λ wire,
    bool_decide (read_hello [wire] (HelloLimits.new 1024 2) = Err (HelloParse TooLargeHello))).
End ReaderTests.

Lemma reader_tests_pass :
  ReaderTests.reads_a_hello_delivered_one_byte_at_a_time && ReaderTests.keeps_bytes_read_past_the_hello_for_replay &&
  ReaderTests.eof_before_complete_hello_is_closed && ReaderTests.garbage_fails_on_first_read &&
  ReaderTests.buffer_never_exceeds_wire_limit = true.
Proof. vm_compute. reflexivity. Qed.
