(* ===== verification/Metrics.v ===== *)
(** * Metric events ([metrics.rs]) *)

From S2P Require Import Prelude Async Str Net Names.

(** A socket address. *)
Abbreviation SocketAddr := (IpAddr * N)%type.
Definition SocketAddr_fmt (a : SocketAddr) : bytes :=
  match a.1 with
  | V6 gs => lit "[" ++ fmt_v6 gs ++ lit "]:" ++ dec a.2
  | V4 a1 a2 a3 a4 => fmt_v4 a1 a2 a3 a4 ++ lit ":" ++ dec a.2
  end.

(** Identifies the listener a connection arrived on. *)
Record ListenerInfo := mkListenerInfo {
  network : bytes;
  address : SocketAddr;
  listener_name : option bytes;
}.
Module ListenerInfo.
Definition tcp (a : SocketAddr) : ListenerInfo := mkListenerInfo (lit "tcp") a None.
(** [from_listener]: [local_addr] is the answer of the bound socket. *)
Definition from_listener (local_addr : io_error + SocketAddr) : io_error + ListenerInfo :=
  match local_addr with inl error => inl error | inr a => inr (tcp a) end.
Definition with_name (l : ListenerInfo) (name : bytes) : ListenerInfo :=
  mkListenerInfo (network l) (address l) (Some name).
End ListenerInfo.

(** How a connection ended. *)
Inductive ConnectionOutcome :=
| Proxied | ProxyErrorOutcome | ClientClosed | HelloTimeout | InvalidHello | MissingSni | UnknownHost
| LookupFailed | LookupTimeout | UpstreamConnectFailed | UpstreamTimeout | IdleTimeout
| ShutdownCancelled | ShutdownForced | Aborted.
#[global] Instance ConnectionOutcome_eq_dec : EqDecision ConnectionOutcome.
Proof. solve_decision. Defined.

Definition ConnectionOutcome_as_str (o : ConnectionOutcome) : bytes :=
  match o with
  | Proxied => lit "proxied"
  | ProxyErrorOutcome => lit "proxy_error"
  | ClientClosed => lit "client_closed"
  | HelloTimeout => lit "hello_timeout"
  | InvalidHello => lit "invalid_hello"
  | MissingSni => lit "missing_sni"
  | UnknownHost => lit "unknown_host"
  | LookupFailed => lit "lookup_failed"
  | LookupTimeout => lit "lookup_timeout"
  | UpstreamConnectFailed => lit "upstream_connect_failed"
  | UpstreamTimeout => lit "upstream_timeout"
  | IdleTimeout => lit "idle_timeout"
  | ShutdownCancelled => lit "shutdown_cancelled"
  | ShutdownForced => lit "shutdown_forced"
  | Aborted => lit "aborted"
  end.

(** How a route lookup ended. *)
Inductive LookupOutcome := OutcomeFound | OutcomeNotFound | OutcomeError | OutcomeTimeout.
#[global] Instance LookupOutcome_eq_dec : EqDecision LookupOutcome.
Proof. solve_decision. Defined.
Definition LookupOutcome_as_str (o : LookupOutcome) : bytes :=
  match o with
  | OutcomeFound => lit "found"
  | OutcomeNotFound => lit "not_found"
  | OutcomeError => lit "error"
  | OutcomeTimeout => lit "timeout"
  end.

(** Events of the cached lookup. *)
Inductive CacheEvent := Hit | NegativeHit | Miss | Coalesced | StaleServed | LoadError | ShedEvent.
#[global] Instance CacheEvent_eq_dec : EqDecision CacheEvent.
Proof. solve_decision. Defined.
Definition CacheEvent_as_str (e : CacheEvent) : bytes :=
  match e with
  | Hit => lit "hit"
  | NegativeHit => lit "negative_hit"
  | Miss => lit "miss"
  | Coalesced => lit "coalesced"
  | StaleServed => lit "stale_served"
  | LoadError => lit "load_error"
  | ShedEvent => lit "shed"
  end.

(** One observable thing the router did. *)
Inductive MetricEvent :=
| ConnectionOpened (listener : ListenerInfo)
| ConnectionClosed (listener : ListenerInfo) (outcome : ConnectionOutcome) (lifetime : Duration)
| BytesRead (listener : ListenerInfo) (count : N)
| BytesWritten (listener : ListenerInfo) (count : N)
| RouteLookupEvent (listener : ListenerInfo) (outcome : LookupOutcome) (elapsed : Duration)
| UpstreamConnect (listener : ListenerInfo) (ok : bool) (elapsed : Duration)
| CacheMetric (event : CacheEvent).

(** ** Sinks

    [MetricsSink]: what a sink becomes by recording an event.  A shared sink
    ([Arc<T>]) records as the sink it shares. *)
Class MetricsSink (M : Type) := record : M → MetricEvent → M.
Definition record_all `{MetricsSink M} (sink : M) (events : list MetricEvent) : M := foldl record sink events.

(** Discards every event. *)
Inductive NoopMetrics := mkNoopMetrics.
#[global] Instance NoopMetrics_sink : MetricsSink NoopMetrics := λ s _, s.

(** The labels are distinct, so a series never mixes two outcomes. *)
Lemma outcome_labels_distinct o o' : ConnectionOutcome_as_str o = ConnectionOutcome_as_str o' → o = o'.
Proof. destruct o, o'; vm_compute; intros H; done || discriminate H. Qed.
