(* ===== verification/Gate.v ===== *)
(** * The proxy gate ([delivery/gate.rs])

    One definition per critical section of the gate's mutex, and the
    connections and the shutdown that call them in any order, as a step
    relation. *)

From S2P Require Import Prelude.

Record GateState := mkGateState { closed : bool; proxying : N }.
(** [gate_cancelled]: whether the [cancel_handshakes] token is cancelled. *)
Record ProxyGate := mkGate { gate_state : GateState; gate_cancelled : bool }.

Module ProxyGate.
Definition new : ProxyGate := mkGate (mkGateState false 0) false.
Definition handshakes_cancelled (g : ProxyGate) : bool := gate_cancelled g.

(** [true] stands for [Some] pass. *)
Definition enter (g : ProxyGate) : section (bool * ProxyGate) :=
  if closed (gate_state g) then Ok (false, g)
  else
    n ← uadd (proxying (gate_state g)) 1;
    Ok (true, mkGate (mkGateState (closed (gate_state g)) n) (gate_cancelled g)).

Definition close (g : ProxyGate) : N * ProxyGate :=
  (proxying (gate_state g), mkGate (mkGateState true (proxying (gate_state g))) true).

(** [Drop for ProxyPass]. *)
Definition drop_pass (g : ProxyGate) : section ProxyGate :=
  n ← usub (proxying (gate_state g)) 1;
  Ok (mkGate (mkGateState (closed (gate_state g)) n) (gate_cancelled g)).
End ProxyGate.

(** ** Every interleaving

    [held]: the connections holding a pass; [admitted] and [refused]: what
    [enter] ever answered each; [counted]: the connections proxying when the
    gate was closed, once it is. *)
Record GateWorld := mkGateWorld {
  gw_gate : ProxyGate;
  gw_held : gset N;
  gw_admitted : gset N;
  gw_refused : gset N;
  gw_counted : option (gset N);
}.
Definition gate_start : GateWorld := mkGateWorld ProxyGate.new ∅ ∅ ∅ None.

Inductive gate_step : GateWorld → GateWorld → Prop :=
| gate_admit c g g' held ad re co :
    c ∉ ad ∪ re → ProxyGate.enter g = Ok (true, g') →
    gate_step (mkGateWorld g held ad re co) (mkGateWorld g' ({[c]} ∪ held) ({[c]} ∪ ad) re co)
| gate_refuse c g g' held ad re co :
    c ∉ ad ∪ re → ProxyGate.enter g = Ok (false, g') →
    gate_step (mkGateWorld g held ad re co) (mkGateWorld g' held ad ({[c]} ∪ re) co)
| gate_drop c g g' held ad re co :
    c ∈ held → ProxyGate.drop_pass g = Ok g' →
    gate_step (mkGateWorld g held ad re co) (mkGateWorld g' (held ∖ {[c]}) ad re co)
| gate_close g held ad re :
    gate_step (mkGateWorld g held ad re None)
      (mkGateWorld (ProxyGate.close g).2 held ad re (Some held)).

Definition gate_reachable (w : GateWorld) : Prop := rtc gate_step gate_start w.

(** The mutex invariant. *)
Record gate_wf (w : GateWorld) : Prop := {
  gate_count : proxying (gate_state (gw_gate w)) = N.of_nat (size (gw_held w));
  gate_closed_iff : closed (gate_state (gw_gate w)) = bool_decide (is_Some (gw_counted w));
  gate_token : gate_cancelled (gw_gate w) = closed (gate_state (gw_gate w));
  gate_held : gw_held w ⊆ gw_admitted w;
  gate_sides : gw_admitted w ## gw_refused w;
  gate_open : gw_counted w = None → gw_refused w = ∅;
  gate_counted : ∀ s, gw_counted w = Some s → gw_held w ⊆ s ⊆ gw_admitted w;
}.

(** The two arithmetic facts of the gate's counter. *)
Lemma enter_cases g b g' :
  ProxyGate.enter g = Ok (b, g') →
  if b then closed (gate_state g) = false ∧
    g' = mkGate (mkGateState false (proxying (gate_state g) + 1)) (gate_cancelled g)
  else closed (gate_state g) = true ∧ g' = g.
Proof.
  unfold ProxyGate.enter. destruct (closed (gate_state g)) eqn:Hc; intros He; [by simplify_eq|].
  res_inv. unfold uadd in *. case_N; by simplify_eq.
Qed.
Lemma drop_pass_cases g g' :
  ProxyGate.drop_pass g = Ok g' →
  g' = mkGate (mkGateState (closed (gate_state g)) (proxying (gate_state g) - 1)) (gate_cancelled g).
Proof. unfold ProxyGate.drop_pass. intros. res_inv. unfold usub in *. case_N; by simplify_eq. Qed.

Lemma size_insert (c : N) (s : gset N) :
  c ∉ s → N.of_nat (size ({[c]} ∪ s)) = N.of_nat (size s) + 1.
Proof. intros. rewrite size_union, size_singleton by set_solver. lia. Qed.
Lemma size_remove (c : N) (s : gset N) :
  c ∈ s → N.of_nat (size (s ∖ {[c]})) = N.of_nat (size s) - 1.
Proof. intros. rewrite size_difference, size_singleton by set_solver. lia. Qed.

Lemma gate_wf_step w w' : gate_wf w → gate_step w w' → gate_wf w'.
Proof.
  intros [Hn Hc Ht Hh Hs Ho Hco] Hstep.
  destruct Hstep as [c g g' held ad re co Hfresh He|c g g' held ad re co Hfresh He
    |c g g' held ad re co Hin Hd|g held ad re]; cbn in *.
  - apply enter_cases in He as [Hcl ->]. rewrite Hcl in *.
    destruct co as [co|]; [done|].
    split; cbn; [by rewrite size_insert, Hn by set_solver|done|done| | |by auto|done]; set_solver.
  - apply enter_cases in He as [Hcl ->]. rewrite Hcl in *.
    destruct co as [co|]; [|done]. split; cbn; try done; try congruence.
    set_solver.
  - apply drop_pass_cases in Hd as ->. split; cbn; try done.
    + rewrite size_remove, Hn by done. done.
    + set_solver.
    + intros s Hs'. specialize (Hco s Hs'). set_solver.
  - split; cbn; try done. intros s [= <-]. done.
Qed.
Lemma gate_reachable_wf w : gate_reachable w → gate_wf w.
Proof.
  intros Hw. apply (rtc_ind_r (R := gate_step) gate_wf gate_start); [|by eauto using gate_wf_step|done].
  split; cbn; done || set_solver.
Qed.
Lemma gate_step_after_close w w' s :
  gate_wf w → gate_step w w' → gw_counted w = Some s →
  gw_counted w' = Some s ∧ gw_admitted w' = gw_admitted w ∧ gw_held w' ⊆ gw_held w.
Proof.
  intros Hwf Hstep Hs. pose proof (gate_closed_iff _ Hwf) as Hc. rewrite Hs in Hc.
  destruct Hstep as [c g g' held ad re co _ He|c g g' held ad re co _ He|c g g' held ad re co _ _|];
    cbn in *; [|done|set_solver|done].
  by apply enter_cases in He as [He _]; rewrite Hc in He.
Qed.

(** C22: a connection racing shutdown lands on exactly one side of the gate.  In
    every interleaving of entering, dropping and closing, the counter is the
    number of passes held, no connection is both admitted and refused, one is
    refused only once the gate is closed, the token is cancelled exactly when
    the gate is, [close] counts exactly the passes held, nothing is admitted
    after it, and only the counted passes remain to drain; entering and dropping
    a held pass never panic. *)
Theorem gate_one_side w :
  gate_reachable w →
  proxying (gate_state (gw_gate w)) = N.of_nat (size (gw_held w)) ∧
  gw_admitted w ## gw_refused w ∧
  (gw_refused w ≠ ∅ → ProxyGate.handshakes_cancelled (gw_gate w) = true) ∧
  ProxyGate.handshakes_cancelled (gw_gate w) = closed (gate_state (gw_gate w)) ∧
  (ProxyGate.close (gw_gate w)).1 = N.of_nat (size (gw_held w)) ∧
  (∀ s w', gw_counted w = Some s → rtc gate_step w w' →
     gw_admitted w' = gw_admitted w ∧ gw_held w' ⊆ gw_held w ∧ gw_held w ⊆ s) ∧
  (N.of_nat (size (gw_held w)) < usize_max → ∃ r, ProxyGate.enter (gw_gate w) = Ok r) ∧
  (∀ c, c ∈ gw_held w → ∃ g, ProxyGate.drop_pass (gw_gate w) = Ok g).
Proof.
  intros Hw. pose proof (gate_reachable_wf _ Hw) as Hwf.
  pose proof Hwf as [Hn Hc Ht Hh Hs Ho Hco]. unfold ProxyGate.handshakes_cancelled.
  split_and!; try done.
  - intros Hre. rewrite Ht, Hc. destruct (gw_counted w); [done|]. by destruct Hre; apply Ho.
  - intros s w' Hcounted Hrtc. clear Hn Hc Ht Hh Hs Ho.
    assert (gw_held w ⊆ s) by by apply Hco. clear Hco Hw.
    induction Hrtc as [w|w w1 w2 Hstep _ IH]; [done|].
    destruct (gate_step_after_close w w1 s Hwf Hstep Hcounted) as (H1 & H2 & H3).
    destruct IH as (IH1 & IH2 & _); [by eapply gate_wf_step|done|set_solver|].
    split_and!; [congruence|set_solver|done].
  - intros Hlt. unfold ProxyGate.enter. destruct (closed _); [by eexists|].
    rewrite uadd_Ok by lia. by eexists.
  - intros c Hin. unfold ProxyGate.drop_pass. rewrite usub_Ok; [by eexists|].
    assert (size (gw_held w) ≠ 0%nat) by (rewrite size_non_empty_iff; set_solver). lia.
Qed.

(** A pass taken, the gate closed, a connection refused. *)
Definition example_gate : GateWorld :=
  mkGateWorld (mkGate (mkGateState true 1) true) {[1]} {[1]} {[2]} (Some {[1]}).
Lemma example_gate_reachable : gate_reachable example_gate.
Proof.
  assert (∅ ∪ ∅ = (∅ : gset N)) as He by set_solver.
  eapply rtc_l; [apply (gate_admit 1 ProxyGate.new (mkGate (mkGateState false 1) false)); [set_solver|done]|].
  eapply rtc_l; [apply gate_close|].
  eapply rtc_l; [apply (gate_refuse 2); [set_solver|done]|].
  unfold example_gate. cbn. rewrite !(right_id_L ∅ (∪)). apply rtc_refl.
Qed.
Lemma gate_one_side_witness :
  (ProxyGate.close (gw_gate example_gate)).1 = 1 ∧ gw_admitted example_gate ## gw_refused example_gate.
Proof.
  destruct (gate_one_side example_gate example_gate_reachable) as (_ & Hd & _ & _ & Hc & _).
  split; [exact Hc|exact Hd].
Defined.
