(* ===== verification/Metered.v ===== *)
(** * Byte and activity metering ([delivery/metered.rs])

    The atomics are written by the connection's own task only, so a counter is
    a value of the connection's state; [fetch_add] wraps at 64 bits.  The wrapped
    stream is a parameter: what a poll of it answers. *)

From S2P Require Import Prelude Async.

(** ** Activity *)
Record Activity := mkActivity { act_start : Instant; last_millis : N }.

Module Activity.
Definition new (start : Instant) : Activity := mkActivity start 0.

(** [u64::try_from(..).unwrap_or(u64::MAX)] of the elapsed milliseconds. *)
Definition touch (now : Instant) (a : Activity) : Activity :=
  let millis := duration_since now (act_start a) / 1000000 in
  mkActivity (act_start a) (if millis <=? u64_max then millis else u64_max).

Definition last {E} (a : Activity) : res E Instant :=
  instant_add (act_start a) (from_millis (last_millis a)).
End Activity.

(** ** ByteCounters *)
Record ByteCounters := mkByteCounters { bc_read : N; bc_written : N }.
Definition fetch_add (n by_ : N) : N := (n + by_) mod 2 ^ 64.

Module ByteCounters.
Definition default : ByteCounters := mkByteCounters 0 0.
Definition totals (b : ByteCounters) : N * N := (bc_read b, bc_written b).
Definition add_read (count : N) (b : ByteCounters) : ByteCounters :=
  mkByteCounters (fetch_add (bc_read b) count) (bc_written b).
Definition add_written (count : N) (b : ByteCounters) : ByteCounters :=
  mkByteCounters (bc_read b) (fetch_add (bc_written b) count).
End ByteCounters.

(** ** MeteredStream *)
Inductive Poll (A : Type) := Ready (a : A) | Pending.
Arguments Ready {A} _.
Arguments Pending {A}.

(** A stream as its polls: [poll_read] fills a read buffer (given and returned
    as its filled part), [poll_write] takes a prefix of the bytes offered. *)
Class PollIo (S : Type) := {
  poll_read : S → bytes → Poll (io_error + unit) * bytes * S;
  poll_write : S → bytes → Poll (io_error + N) * S;
  poll_shutdown : S → Poll (io_error + unit) * S;
}.

Record MeteredStream (S : Type) := mkMetered {
  ms_inner : S;
  ms_counters : ByteCounters;
  ms_activity : option Activity;
}.
Arguments mkMetered {S} _ _ _.
Arguments ms_inner {S} _.
Arguments ms_counters {S} _.
Arguments ms_activity {S} _.

Module MeteredStream.
Section Metered.
Context `{PollIo Io}.

Definition new (inner : Io) (counters : ByteCounters) (activity : option Activity) : MeteredStream Io :=
  mkMetered inner counters activity.

Definition touch (now : Instant) (m : MeteredStream Io) : MeteredStream Io :=
  mkMetered (ms_inner m) (ms_counters m) (Activity.touch now <$> ms_activity m).

Definition counted (f : ByteCounters → ByteCounters) (m : MeteredStream Io) : MeteredStream Io :=
  mkMetered (ms_inner m) (f (ms_counters m)) (ms_activity m).

(** [buf.filled().len() - before] panics when the inner stream shrinks the
    buffer. *)
Definition read (now : Instant) (m : MeteredStream Io) (filled : bytes) :
    section (Poll (io_error + unit) * bytes * MeteredStream Io) :=
  let before := len filled in
  let '(poll, filled, inner) := poll_read (ms_inner m) filled in
  let m := mkMetered inner (ms_counters m) (ms_activity m) in
  count ← usub (len filled) before;
  Ok (poll, filled, if 0 <? count then touch now (counted (ByteCounters.add_read count) m) else m).

Definition write (now : Instant) (m : MeteredStream Io) (buf : bytes) :
    Poll (io_error + N) * MeteredStream Io :=
  let '(poll, inner) := poll_write (ms_inner m) buf in
  let m := mkMetered inner (ms_counters m) (ms_activity m) in
  match poll with
  | Ready (inr written) =>
    (poll, if 0 <? written then touch now (counted (ByteCounters.add_written written) m) else m)
  | _ => (poll, m)
  end.

Definition shutdown (m : MeteredStream Io) : Poll (io_error + unit) * MeteredStream Io :=
  let '(poll, inner) := poll_shutdown (ms_inner m) in
  (poll, mkMetered inner (ms_counters m) (ms_activity m)).
End Metered.
End MeteredStream.

(** ** What metering is for *)

(** The documented behaviour of a stream's [poll_read]: it only appends to the
    buffer, and nothing unless it is ready; of [poll_write]: it takes at most
    what it is offered.  [given] is all a stream ever handed to its reader,
    [taken] all its writer ever gave it. *)
Class PollIoSpec (S : Type) `{PollIo S} (given taken : S → bytes) := {
  poll_read_spec s filled :
    let '(_, filled', s') := poll_read s filled in
    ∃ bs, filled' = filled ++ bs ∧ given s' = given s ++ bs ∧ taken s' = taken s;
  poll_write_spec s buf :
    let '(p, s') := poll_write s buf in
    given s' = given s ∧
    match p with
    | Ready (inr n) => n ≤ len buf ∧ taken s' = taken s ++ takeN n buf
    | _ => taken s' = taken s
    end;
  poll_shutdown_spec s :
    let '(_, s') := poll_shutdown s in given s' = given s ∧ taken s' = taken s;
}.

(** One poll of a metered stream at a time, and any sequence of them. *)
Inductive IoCall := CallRead (filled : bytes) | CallWrite (buf : bytes) | CallShutdown.
Definition io_call `{PollIo Io} (now : Instant) (m : MeteredStream Io) (c : IoCall) : section (MeteredStream Io) :=
  match c with
  | CallRead filled => '(_, m) ← MeteredStream.read now m filled; Ok m
  | CallWrite buf => Ok (MeteredStream.write now m buf).2
  | CallShutdown => Ok (MeteredStream.shutdown m).2
  end.
Fixpoint io_calls `{PollIo Io} (m : MeteredStream Io) (calls : list (Instant * IoCall)) : section (MeteredStream Io) :=
  match calls with
  | [] => Ok m
  | (now, c) :: calls => m ← io_call now m c; io_calls m calls
  end.

Section MeteredProofs.
Context `{PollIoSpec Io given taken}.
Implicit Types m : MeteredStream Io.

Definition tracks m : Prop :=
  ByteCounters.totals (ms_counters m) =
    (len (given (ms_inner m)) mod 2 ^ 64, len (taken (ms_inner m)) mod 2 ^ 64).
Definition unmoved m m' : Prop :=
  given (ms_inner m') = given (ms_inner m) ∧ taken (ms_inner m') = taken (ms_inner m).

Lemma fetch_add_len {A} (l k : list A) : fetch_add (len l mod 2 ^ 64) (len k) = len (l ++ k) mod 2 ^ 64.
Proof. unfold fetch_add. by rewrite N.Div0.add_mod_idemp_l, len_app. Qed.

Ltac metered_simpl :=
  cbn [ms_inner ms_counters ms_activity MeteredStream.touch MeteredStream.counted ByteCounters.totals
    ByteCounters.add_read ByteCounters.add_written bc_read bc_written snd].

Lemma io_call_spec now m c :
  tracks m → ∃ m', io_call now m c = Ok m' ∧ tracks m' ∧
    (unmoved m m' ∧ ms_activity m' = ms_activity m ∨
     ¬ unmoved m m' ∧ ms_activity m' = Activity.touch now <$> ms_activity m).
Proof.
  unfold tracks, unmoved, ByteCounters.totals. intros [= Hr Hw]. destruct c as [filled|buf|]; cbn [io_call].
  - unfold MeteredStream.read. pose proof (poll_read_spec (ms_inner m) filled) as Hspec.
    destruct (poll_read _ _) as [[p filled'] inner]. destruct Hspec as (bs & -> & Hg & Ht).
    rewrite usub_Ok by len_lia. res_simpl. eexists. split; [done|].
    replace (len (filled ++ bs) - len filled) with (len bs) by len_lia.
    destruct (N.ltb_spec 0 (len bs)) as [Hlt|Hle]; metered_simpl.
    + rewrite Hr, Hw, Hg, Ht, fetch_add_len. split; [done|]. right. split; [|done].
      intros [He _]. apply (f_equal len) in He. len_lia.
    + assert (bs = []) as -> by (apply len_0; lia). rewrite Hr, Hw, Hg, Ht, app_nil_r.
      split; [done|]. by left.
  - unfold MeteredStream.write. pose proof (poll_write_spec (ms_inner m) buf) as Hspec.
    destruct (poll_write _ _) as [p inner]. destruct Hspec as [Hg Hp].
    eexists. split; [done|].
    destruct p as [[e|n]|]; metered_simpl; [by rewrite Hr, Hw, Hg, Hp; auto| |by rewrite Hr, Hw, Hg, Hp; auto].
    destruct Hp as [Hn Ht]. assert (len (takeN n buf) = n) as Hlen by len_lia.
    destruct (N.ltb_spec 0 n) as [Hlt|Hle]; metered_simpl.
    + rewrite Hr, Hw, Hg, Ht, <- Hlen at 1. rewrite fetch_add_len. split; [done|]. right. split; [|done].
      intros [_ He]. rewrite Ht in He. apply (f_equal len) in He. len_lia.
    + assert (takeN n buf = []) as Hnil by (apply len_0; lia).
      rewrite Hr, Hw, Hg, Ht, Hnil, app_nil_r. split; [done|]. by left.
  - unfold MeteredStream.shutdown. pose proof (poll_shutdown_spec (ms_inner m)) as Hspec.
    destruct (poll_shutdown _) as [p inner]. destruct Hspec as [Hg Ht].
    eexists. split; [done|]. metered_simpl. rewrite Hr, Hw, Hg, Ht. split; [done|]. by left.
Qed.

Lemma io_calls_spec calls m : tracks m → ∃ m', io_calls m calls = Ok m' ∧ tracks m'.
Proof.
  revert m. induction calls as [|[now c] calls IH]; intros m Hm; cbn [io_calls]; [by eauto|].
  destruct (io_call_spec now m c Hm) as (m1 & -> & Hm1 & _). by apply IH.
Qed.
End MeteredProofs.

(** C28: the close record's byte totals are exact.  Whatever polls a metered
    stream gets, in whatever order and with whatever answers, none panics; its
    totals are the bytes the stream gave its reader and took from its writer
    (modulo 2^64); and each poll stamps the activity exactly when it moved
    bytes. *)
Theorem metered_totals `{PollIoSpec Io given taken} (inner : Io) activity calls now c :
  given inner = [] → taken inner = [] →
  ∃ m m', io_calls (MeteredStream.new inner ByteCounters.default activity) calls = Ok m ∧
    io_call now m c = Ok m' ∧
    (∀ x, x ∈ [m; m'] → ByteCounters.totals (ms_counters x) =
       (len (given (ms_inner x)) mod 2 ^ 64, len (taken (ms_inner x)) mod 2 ^ 64)) ∧
    (unmoved (given := given) (taken := taken) m m' ∧ ms_activity m' = ms_activity m ∨
     ¬ unmoved (given := given) (taken := taken) m m' ∧
       ms_activity m' = Activity.touch now <$> ms_activity m).
Proof.
  intros Hg Ht.
  destruct (io_calls_spec calls (MeteredStream.new inner ByteCounters.default activity)) as (m & Hm & Htr).
  { unfold tracks. cbn. by rewrite Hg, Ht. }
  destruct (io_call_spec now m c Htr) as (m' & Hm' & Htr' & Hact).
  exists m, m'. split_and!; [done|done| |done].
  intros x [->|[->|[]%not_elem_of_nil]%elem_of_cons]%elem_of_cons; done.
Qed.

(** A stream for examples: what it still has to give, all it gave, all it took. *)
Record pipe_io := mkPipeIo { pi_left : list bytes; pi_given : bytes; pi_taken : bytes }.
#[global] Instance pipe_io_poll : PollIo pipe_io := {
  poll_read s filled := match pi_left s with
    | [] => (Ready (inr ()), filled, s)
    | c :: rest => (Ready (inr ()), filled ++ c, mkPipeIo rest (pi_given s ++ c) (pi_taken s))
    end;
  poll_write s buf := (Ready (inr (1 `min` len buf)), mkPipeIo (pi_left s) (pi_given s) (pi_taken s ++ takeN 1 buf));
  poll_shutdown s := (Ready (inr ()), s);
}.
#[global] Instance pipe_io_spec : PollIoSpec pipe_io pi_given pi_taken.
Proof.
  split.
  - intros [[|c l] g k] filled; cbn; [exists []; by rewrite !app_nil_r|by exists c].
  - intros [l g k] buf. cbn. split_and!; [done|lia|]. f_equal.
    destruct buf as [|b buf]; [done|]. by rewrite N.min_l by len_lia.
  - by intros [].
Qed.

Lemma metered_totals_witness :
  ∃ m, io_calls (MeteredStream.new (mkPipeIo [lit "hello"] [] []) ByteCounters.default None)
    [(1, CallRead []); (2, CallWrite (lit "ok"))] = Ok m ∧ ByteCounters.totals (ms_counters m) = (5, 1).
Proof.
  destruct (metered_totals (mkPipeIo [lit "hello"] [] []) None
    [(1, CallRead []); (2, CallWrite (lit "ok"))] 3 CallShutdown eq_refl eq_refl)
    as (m & m' & Hm & _ & Ht & _).
  exists m. split; [exact Hm|]. rewrite (Ht m) by set_solver. injection Hm as <-. vm_compute. reflexivity.
Defined.

(** The last activity is the last touch, to the millisecond below. *)
Lemma activity_last {E} now a :
  act_start a ≤ now ≤ instant_max → duration_since now (act_start a) / 1000000 ≤ u64_max →
  ∃ l, Activity.last (E := E) (Activity.touch now a) = Ok l ∧ l ≤ now < l + from_millis 1.
Proof.
  unfold Activity.last, Activity.touch, duration_since, from_millis, instant_add, instant_checked_add.
  intros Hn Hm. cbn [act_start last_millis]. destruct (N.leb_spec ((now - act_start a) / 1000000) u64_max); [|lia].
  assert (now - act_start a = 1000000 * ((now - act_start a) / 1000000) + (now - act_start a) mod 1000000)
    as Hdiv by by apply N.div_mod.
  assert ((now - act_start a) mod 1000000 < 1000000) as Hmod by by apply N.mod_lt.
  set (q := (now - act_start a) / 1000000) in *. set (r := (now - act_start a) mod 1000000) in *.
  clearbody q r. unfold Instant in *.
  destruct (N.leb_spec (act_start a + q * 1000000) instant_max); [|lia].
  eexists. split; [done|]. lia.
Qed.
