(* ===== verification/Splice.v ===== *)
(** * The splice fast path ([delivery/splice.rs])

    One direction of a proxied connection is a state machine with a state per
    suspension point of [splice_direction]; a step is one awaited system call
    and what the code does with its answer up to the next one.  The system calls
    are parameters. *)

From S2P Require Import Prelude Async Str Metered.

(** ** Admission *)
Definition MAX_SPLICE_FD_SHARE : N := 2.
Definition FDS_PER_SPLICE_CONNECTION : N := 4.

Definition splice_permits (nofile_limit : N) : N :=
  (nofile_limit / MAX_SPLICE_FD_SHARE) / FDS_PER_SPLICE_CONNECTION.
Definition admission_capacity (override_value : option bytes) (nofile_limit : N) : N :=
  match (value ← override_value; parse_uint usize_max value) with
  | Some permits => permits
  | None => splice_permits nofile_limit
  end.

Record Admission (Sem : Type) := mkAdmission { permits : Sem }.
Arguments mkAdmission {Sem} _.
Arguments permits {Sem} _.
Module Admission.
Section Admission.
Context `{Semaphore Sem}.
(** [nofile_soft_limit] is [None] when [getrlimit] fails; [var] is the
    environment variable [SNI_ROUTER_MAX_SPLICE_CONNECTIONS]. *)
Definition new (nofile_soft_limit : option N) (var : option bytes) : section (Admission Sem) :=
  mkAdmission <$> sem_new (admission_capacity var (default 0 nofile_soft_limit)).
Definition acquire (a : Admission Sem) : option (Admission Sem) := mkAdmission <$> try_acquire (permits a).
End Admission.
End Admission.

(** [available]: the environment variable [SNI_ROUTER_DISABLE_SPLICE] wins;
    otherwise the probe runs once and its answer is kept in the cell. *)
Definition available (disable_var : option bytes) (cell : option bool) (probe : bool) : bool * option bool :=
  match disable_var with
  | Some _ => (false, cell)
  | None => let b := default probe cell in (b, Some b)
  end.
Definition probe (try_probe : io_error + bool) : bool :=
  match try_probe with inr b => b | inl _ => false end.

(** ** Pipes *)
Definition i32_max : N := 2 ^ 31 - 1.

(** [capacity], and what the kernel buffer holds. *)
Record Pipe := mkPipe { capacity : N; pipe_data : bytes }.
Module Pipe.
(** [raw_pipe]: the answer of [pipe2]; [getpipe_sz requested]: the answer of
    [F_GETPIPE_SZ] after [F_SETPIPE_SZ] was asked for [requested]. *)
Definition new (raw_pipe : io_error + unit) (getpipe_sz : N → Z) (buffer_size : N) : io_error + Pipe :=
  match raw_pipe with
  | inl error => inl error
  | inr _ =>
    let requested := buffer_size `min` i32_max in
    let size := getpipe_sz requested in
    inr (mkPipe (if Z.ltb 0 size then Z.to_N size else buffer_size) [])
  end.
End Pipe.

Definition prepare (raw_pipe1 raw_pipe2 : io_error + unit) (getpipe_sz : N → Z) (buffer_size : N) :
    io_error + (Pipe * Pipe) :=
  match Pipe.new raw_pipe1 getpipe_sz buffer_size with
  | inl error => inl error
  | inr to_upstream =>
    match Pipe.new raw_pipe2 getpipe_sz buffer_size with
    | inl error => inl error
    | inr to_client => inr (to_upstream, to_client)
    end
  end.

(** ** System calls *)

(** One iteration of [retry_eintr]: [None] stands for [continue]. *)
Definition retry_eintr {A} (answer : io_error + A) : option (io_error + A) :=
  match answer with
  | inl error => if decide (ioe_kind error = KInterrupted) then None else Some answer
  | inr _ => Some answer
  end.
(** Its loop, over the answers of the successive calls: [None] while all of
    them were interrupted. *)
Fixpoint retry_loop {A} (answers : list (io_error + A)) : option (io_error + A) :=
  match answers with
  | [] => None
  | answer :: answers => match retry_eintr answer with Some result => Some result | None => retry_loop answers end
  end.

(** What a [libc] call returns, and the [errno] it leaves. *)
Definition sys_ret : Type := Z * io_error.
Definition pipe2_result (ret : sys_ret) : io_error + unit :=
  if negb (Z.eqb ret.1 0) then inl ret.2 else inr ().
Definition getrlimit_result (ret : Z) (rlim_cur : N) : option N :=
  if negb (Z.eqb ret 0) then None else if rlim_cur <=? usize_max then Some rlim_cur else None.
Definition write_result (ret : sys_ret) : io_error + unit :=
  if Z.eqb ret.1 1 then inr () else inl ret.2.
Definition splice_result (ret : sys_ret) : io_error + N :=
  if Z.ltb ret.1 0 then inl ret.2 else inr (Z.to_N ret.1).
Definition splice_raw (rets : list sys_ret) : option (io_error + N) := retry_loop (splice_result <$> rets).

(** The probe: two pipes, one byte written to the first and spliced into the
    second.  [None] while a call is still being retried. *)
Definition try_probe (source sink : sys_ret) (writes splices : list sys_ret) : option (io_error + bool) :=
  match pipe2_result source, pipe2_result sink with
  | inl error, _ => Some (inl error)
  | _, inl error => Some (inl error)
  | inr _, inr _ =>
    match retry_loop (write_result <$> writes) with
    | None => None
    | Some (inl error) => Some (inl error)
    | Some (inr _) =>
      match splice_raw splices with
      | None => None
      | Some (inl error) => Some (inl error)
      | Some (inr moved) => Some (inr (moved =? 1))
      end
    end
  end.

(** [splice(2)] between a socket and a pipe, once the socket is ready, and
    [shutdown(2)].  [splice_in] answers the bytes that went into the pipe,
    [splice_out] how many of the pipe's bytes left it. *)
Class SpliceSrc (Src : Type) := splice_in : Src → N → (io_error + bytes) * Src.
Class SpliceDst (Dst : Type) := {
  splice_out : Dst → bytes → (io_error + N) * Dst;
  sys_shutdown : Dst → (io_error + unit) * Dst;
}.

Definition shutdown_result (result : io_error + unit) : io_error + unit :=
  match result with
  | inl error => if decide (ioe_kind error = KNotConnected) then inr () else inl error
  | inr _ => inr ()
  end.

(** ** One direction *)
Inductive SpliceAt :=
| SpliceIn
| SpliceOut (remaining : N)
| ShuttingDown
| Finished (result : io_error + unit).
(** A call of [on_read] or [on_written]. *)
Inductive SpliceCall := OnRead (n : N) | OnWritten (n : N).

Record Direction (Src Dst : Type) := mkDirection {
  d_src : Src;
  d_dst : Dst;
  d_pipe : Pipe;
  d_at : SpliceAt;
}.
Arguments mkDirection {Src Dst} _ _ _ _.
Arguments d_src {Src Dst} _.
Arguments d_dst {Src Dst} _.
Arguments d_pipe {Src Dst} _.
Arguments d_at {Src Dst} _.

Section Splice.
Context `{SpliceSrc Src, SpliceDst Dst}.

Definition splice_direction (src : Src) (dst : Dst) (pipe : Pipe) : Direction Src Dst :=
  mkDirection src dst pipe SpliceIn.

Definition write_zero : io_error := mkIoError KWriteZero (lit "splice returned 0 with bytes still pending").

Definition splice_step (d : Direction Src Dst) : section (Direction Src Dst * list SpliceCall) :=
  let '(mkDirection src dst pipe at_) := d in
  match at_ with
  | SpliceIn =>
    let chunk := capacity pipe in
    let '(answer, src) := splice_in src chunk in
    match retry_eintr answer with
    | None => Ok (mkDirection src dst pipe SpliceIn, [])
    | Some (inl error) => Ok (mkDirection src dst pipe (Finished (inl error)), [])
    | Some (inr data) =>
      let read := len data in
      let pipe := mkPipe (capacity pipe) (pipe_data pipe ++ data) in
      if read =? 0 then Ok (mkDirection src dst pipe ShuttingDown, [])
      else Ok (mkDirection src dst pipe (SpliceOut read), [OnRead read])
    end
  | SpliceOut remaining =>
    let '(answer, dst) := splice_out dst (takeN remaining (pipe_data pipe)) in
    match retry_eintr answer with
    | None => Ok (mkDirection src dst pipe (SpliceOut remaining), [])
    | Some (inl error) => Ok (mkDirection src dst pipe (Finished (inl error)), [])
    | Some (inr written) =>
      if written =? 0 then Ok (mkDirection src dst pipe (Finished (inl write_zero)), [])
      else
        let pipe := mkPipe (capacity pipe) (dropN written (pipe_data pipe)) in
        remaining ← usub remaining written;
        Ok (mkDirection src dst pipe (if 0 <? remaining then SpliceOut remaining else SpliceIn),
            [OnWritten written])
    end
  | ShuttingDown =>
    let '(answer, dst) := sys_shutdown dst in
    match retry_eintr answer with
    | None => Ok (mkDirection src dst pipe ShuttingDown, [])
    | Some result => Ok (mkDirection src dst pipe (Finished (shutdown_result result)), [])
    end
  | Finished _ => Ok (d, [])
  end.
End Splice.

(** ** Both directions

    [try_join!] polls both until one fails or both are done; [schedule] says,
    for each step, which direction makes it and when.  A socket's read half is
    the source of one direction and its write half the destination of the other. *)
Record CopyState (CR CW UR UW : Type) := mkCopy {
  to_upstream : Direction CR UW;
  to_client : Direction UR CW;
  copy_counters : ByteCounters;
  copy_activity : option Activity;
}.
Arguments mkCopy {CR CW UR UW} _ _ _ _.
Arguments to_upstream {CR CW UR UW} _.
Arguments to_client {CR CW UR UW} _.
Arguments copy_counters {CR CW UR UW} _.
Arguments copy_activity {CR CW UR UW} _.

Section Copy.
Context `{SpliceSrc CR, SpliceDst UW, SpliceSrc UR, SpliceDst CW}.

(** The closures given to each direction. *)
Definition counted_read (now : Instant) (c : ByteCounters * option Activity) (call : SpliceCall) :=
  match call with
  | OnRead n => (ByteCounters.add_read n c.1, Activity.touch now <$> c.2)
  | OnWritten _ => c
  end.
Definition counted_written (now : Instant) (c : ByteCounters * option Activity) (call : SpliceCall) :=
  match call with
  | OnRead _ => c
  | OnWritten n => (ByteCounters.add_written n c.1, Activity.touch now <$> c.2)
  end.

Definition try_join (a b : SpliceAt) : option (io_error + unit) :=
  match a, b with
  | Finished (inl error), _ => Some (inl error)
  | _, Finished (inl error) => Some (inl error)
  | Finished (inr _), Finished (inr _) => Some (inr ())
  | _, _ => None
  end.
Definition copy_result (c : CopyState CR CW UR UW) : option (io_error + unit) :=
  try_join (d_at (to_upstream c)) (d_at (to_client c)).

(** The state [copy_bidirectional] starts in. *)
Definition copy_bidirectional (client_r : CR) (client_w : CW) (upstream_r : UR) (upstream_w : UW)
    (pipes : Pipe * Pipe) (counters : ByteCounters) (activity : option Activity) : CopyState CR CW UR UW :=
  mkCopy (splice_direction client_r upstream_w pipes.1) (splice_direction upstream_r client_w pipes.2)
    counters activity.

Definition copy_step (upstream_side : bool) (now : Instant) (c : CopyState CR CW UR UW) :
    section (CopyState CR CW UR UW) :=
  match copy_result c with
  | Some _ => Ok c
  | None =>
    if upstream_side then
      '(d, calls) ← splice_step (to_upstream c);
      let '(k, a) := foldl (counted_read now) (copy_counters c, copy_activity c) calls in
      Ok (mkCopy d (to_client c) k a)
    else
      '(d, calls) ← splice_step (to_client c);
      let '(k, a) := foldl (counted_written now) (copy_counters c, copy_activity c) calls in
      Ok (mkCopy (to_upstream c) d k a)
  end.
Fixpoint copy_steps (schedule : list (bool * Instant)) (c : CopyState CR CW UR UW) :
    section (CopyState CR CW UR UW) :=
  match schedule with
  | [] => Ok c
  | (side, now) :: schedule => c ← copy_step side now c; copy_steps schedule c
  end.
End Copy.
