(* ===== verification/SpliceProofs.v ===== *)
(** * The splice fast path: proofs

    The documented behaviour of [splice(2)] and [shutdown(2)] as classes, the
    invariant of one direction, and the accounting of both under every
    schedule. *)

From S2P Require Import Prelude Async Str Metered Splice.
From Stdlib Require Import Strings.Byte.

(** [content] is what a socket will still deliver before its end, [signals] how
    many more of its calls a signal interrupts. *)
Class SpliceSrcSpec (Src : Type) `{SpliceSrc Src} (content : Src → bytes) (signals : Src → nat) :=
  splice_in_spec s n :
    let '(answer, s') := splice_in s n in
    match answer with
    | inr bs => content s = bs ++ content s' ∧ len bs ≤ n ∧ (bs = [] → n = 0 ∨ content s = []) ∧
        (signals s' ≤ signals s)%nat
    | inl e => content s' = content s ∧ (ioe_kind e = KInterrupted → (signals s' < signals s)%nat)
    end.
(** [sink] is what a socket took, [shut] whether its write half is closed. *)
Class SpliceDstSpec (Dst : Type) `{SpliceDst Dst} (sink : Dst → bytes) (shut : Dst → bool)
    (dst_signals : Dst → nat) := {
  splice_out_spec d data :
    let '(answer, d') := splice_out d data in
    match answer with
    | inr n => n ≤ len data ∧ sink d' = sink d ++ takeN n data ∧ (dst_signals d' ≤ dst_signals d)%nat
    | inl e => sink d' = sink d ∧ (ioe_kind e = KInterrupted → (dst_signals d' < dst_signals d)%nat)
    end;
  sys_shutdown_spec d :
    let '(answer, d') := sys_shutdown d in
    sink d' = sink d ∧
    match answer with
    | inr _ => shut d' = true
    | inl e => (ioe_kind e = KNotConnected → shut d' = true) ∧
        (ioe_kind e = KInterrupted → (dst_signals d' < dst_signals d)%nat)
    end;
}.

(** The fields of [dir_inv] that a step leaves alone. *)
Ltac dir_fields := split; cbn [d_src d_dst d_pipe d_at capacity pipe_data]; try done; try congruence.

Section Direction.
Context `{SpliceSrcSpec Src content signals, SpliceDstSpec Dst sink shut dst_signals}.
Implicit Types d : Direction Src Dst.

(** Of [data], [pulled] has left the source and [written] reached the sink,
    which held [before]. *)
Record dir_inv (data before : bytes) d (pulled written : bytes) : Prop := {
  dir_src : data = pulled ++ content (d_src d);
  dir_dst : sink (d_dst d) = before ++ written;
  dir_pipe : pulled = written ++ pipe_data (d_pipe d);
  dir_bound : len (pipe_data (d_pipe d)) ≤ capacity (d_pipe d);
  dir_cap : 0 < capacity (d_pipe d);
  dir_at : match d_at d with
    | SpliceIn => pipe_data (d_pipe d) = []
    | SpliceOut r => 0 < r ∧ r = len (pipe_data (d_pipe d))
    | ShuttingDown => pipe_data (d_pipe d) = [] ∧ content (d_src d) = []
    | Finished (inr _) => pipe_data (d_pipe d) = [] ∧ content (d_src d) = [] ∧ shut (d_dst d) = true
    | Finished (inl _) => True
    end;
}.

(** How many steps a direction may still take. *)
Definition steps_left d : nat :=
  match d_at d with
  | Finished _ => 0
  | ShuttingDown => 1 + dst_signals (d_dst d)
  | SpliceIn => 2 + 2 * length (content (d_src d)) + signals (d_src d) + dst_signals (d_dst d)
  | SpliceOut r => 2 + N.to_nat r + 2 * length (content (d_src d)) + signals (d_src d) + dst_signals (d_dst d)
  end.

Definition calls_of (p w : bytes) : list SpliceCall :=
  (if is_empty p then [] else [OnRead (len p)]) ++ (if is_empty w then [] else [OnWritten (len w)]).

(** What every step does: it pulls [p] from the source and writes [w] to the
    sink, reports just that, and leaves fewer steps to take. *)
Definition step_ok data before d pulled written : Prop :=
  ∃ d' p w, splice_step d = Ok (d', calls_of p w) ∧
    dir_inv data before d' (pulled ++ p) (written ++ w) ∧
    capacity (d_pipe d') = capacity (d_pipe d) ∧
    (steps_left d' ≤ steps_left d - 1)%nat.

Lemma step_moves_nothing data before d d' pulled written :
  splice_step d = Ok (d', []) → dir_inv data before d' pulled written →
  capacity (d_pipe d') = capacity (d_pipe d) →
  (steps_left d' ≤ steps_left d - 1)%nat →
  step_ok data before d pulled written.
Proof. intros. exists d', [], []. by rewrite !app_nil_r. Qed.

Lemma step_in_ok data before src dst pipe pulled written :
  dir_inv data before (mkDirection src dst pipe SpliceIn) pulled written →
  step_ok data before (mkDirection src dst pipe SpliceIn) pulled written.
Proof.
  intros [Hs Hd Hp Hb Hc Ha]. cbn [d_src d_dst d_pipe d_at] in *.
  pose proof (splice_in_spec src (capacity pipe)) as Hspec.
  destruct (splice_in src (capacity pipe)) as [[e|bs] src'] eqn:Hin.
  - destruct Hspec as [Hcon Hsig]. destruct (decide (ioe_kind e = KInterrupted)) as [Hi|Hi].
    + eapply step_moves_nothing.
      * cbn [splice_step]. rewrite Hin. unfold retry_eintr. by rewrite decide_True.
      * dir_fields.
      * done.
      * unfold steps_left. cbn. rewrite Hcon. specialize (Hsig Hi). lia.
    + eapply step_moves_nothing.
      * cbn [splice_step]. rewrite Hin. unfold retry_eintr. by rewrite decide_False.
      * dir_fields.
      * done.
      * unfold steps_left. cbn. lia.
  - destruct Hspec as (Hcon & Hl & Hemp & Hsig). destruct (N.eqb_spec (len bs) 0) as [H0'|Hne].
    + apply len_0 in H0' as ->. destruct (Hemp eq_refl) as [|Hend]; [lia|]. rewrite Hend in *.
      cbn [app] in Hcon. eapply step_moves_nothing.
      * cbn [splice_step]. rewrite Hin. done.
      * dir_fields; by rewrite app_nil_r.
      * done.
      * unfold steps_left. cbn. lia.
    + eexists _, bs, []. rewrite app_nil_r. split_and!.
      * cbn [splice_step]. rewrite Hin. cbn [retry_eintr]. rewrite (proj2 (N.eqb_neq _ _) Hne).
        unfold calls_of. destruct bs; [by rewrite len_nil in Hne|]. done.
      * rewrite Ha in *. dir_fields; [by rewrite Hs, Hcon, app_assoc|by rewrite Hp, app_nil_r|split; [lia|done]].
      * done.
      * unfold steps_left. cbn. rewrite Hcon, length_app. unfold len in *. lia.
Qed.

Lemma step_out_ok data before src dst pipe r pulled written :
  dir_inv data before (mkDirection src dst pipe (SpliceOut r)) pulled written →
  step_ok data before (mkDirection src dst pipe (SpliceOut r)) pulled written.
Proof.
  intros [Hs Hd Hp Hb Hc Ha]. cbn [d_src d_dst d_pipe d_at] in *. destruct Ha as [Hr ->].
  pose proof (splice_out_spec dst (pipe_data pipe)) as Hspec.
  assert (∀ x, x = splice_out dst (pipe_data pipe) →
    splice_out dst (takeN (len (pipe_data pipe)) (pipe_data pipe)) = x) as Hcall.
  { intros x ->. by rewrite takeN_ge by lia. }
  destruct (splice_out dst (pipe_data pipe)) as [[e|n] dst']; specialize (Hcall _ eq_refl).
  - destruct Hspec as [Hcon Hsig]. destruct (decide (ioe_kind e = KInterrupted)) as [Hi|Hi].
    + eapply step_moves_nothing.
      * cbn [splice_step]. rewrite Hcall. unfold retry_eintr. by rewrite decide_True.
      * dir_fields.
      * done.
      * unfold steps_left. cbn. specialize (Hsig Hi). lia.
    + eapply step_moves_nothing.
      * cbn [splice_step]. rewrite Hcall. unfold retry_eintr. by rewrite decide_False.
      * dir_fields.
      * done.
      * unfold steps_left. cbn. lia.
  - destruct Hspec as (Hn & Hcon & Hsig). destruct (N.eqb_spec n 0) as [->|Hne].
    + rewrite takeN_0, app_nil_r in Hcon. eapply step_moves_nothing.
      * cbn [splice_step]. rewrite Hcall. done.
      * dir_fields.
      * done.
      * unfold steps_left. cbn. lia.
    + assert (is_empty (takeN n (pipe_data pipe)) = false) as Hemp.
      { apply is_empty_false. intros Hnil. apply (f_equal len) in Hnil. len_lia. }
      eexists _, [], (takeN n (pipe_data pipe)). rewrite app_nil_r. split_and!.
      * cbn [splice_step]. rewrite Hcall. cbn [retry_eintr]. rewrite (proj2 (N.eqb_neq _ _) Hne).
        rewrite usub_Ok by done. res_simpl. unfold calls_of. rewrite Hemp. cbn [is_empty app].
        do 4 f_equal. len_lia.
      * dir_fields.
        -- by rewrite Hcon, Hd, app_assoc.
        -- by rewrite <- app_assoc, takeN_dropN.
        -- len_lia.
        -- case_N; [split; [done|len_lia]|]. apply dropN_ge. lia.
      * done.
      * unfold steps_left. cbn. case_N; unfold len in *; lia.
Qed.

Lemma step_shutdown_ok data before src dst pipe pulled written :
  dir_inv data before (mkDirection src dst pipe ShuttingDown) pulled written →
  step_ok data before (mkDirection src dst pipe ShuttingDown) pulled written.
Proof.
  intros [Hs Hd Hp Hb Hc [Hnil Hend]]. cbn [d_src d_dst d_pipe d_at] in *.
  pose proof (sys_shutdown_spec dst) as Hspec.
  destruct (sys_shutdown dst) as [[e|[]] dst'] eqn:Hsys; destruct Hspec as [Hcon Hsig].
  - destruct (decide (ioe_kind e = KInterrupted)) as [Hi|Hi].
    + eapply step_moves_nothing.
      * cbn [splice_step]. rewrite Hsys. unfold retry_eintr. by rewrite decide_True.
      * dir_fields.
      * done.
      * unfold steps_left. cbn. destruct Hsig as [_ Hsig]. specialize (Hsig Hi). lia.
    + eapply step_moves_nothing.
      * cbn [splice_step]. rewrite Hsys. unfold retry_eintr. by rewrite decide_False.
      * dir_fields. unfold shutdown_result. destruct Hsig as [Hshut _]. case_decide; auto.
      * done.
      * unfold steps_left. cbn. lia.
  - eapply step_moves_nothing.
    + cbn [splice_step]. by rewrite Hsys.
    + dir_fields.
    + done.
    + unfold steps_left. cbn. lia.
Qed.

Lemma splice_step_ok data before d pulled written :
  dir_inv data before d pulled written → step_ok data before d pulled written.
Proof.
  intros Hd. destruct d as [src dst pipe [| | |res]].
  - by apply step_in_ok.
  - by apply step_out_ok.
  - by apply step_shutdown_ok.
  - eapply step_moves_nothing; [done|done|done|cbn; lia].
Qed.
End Direction.

Section CopyProofs.
Context `{SpliceSrcSpec CR client_data cr_signals, SpliceDstSpec UW to_up up_shut uw_signals,
  SpliceSrcSpec UR upstream_data ur_signals, SpliceDstSpec CW to_cl cl_shut cw_signals}.
Implicit Types c : CopyState CR CW UR UW.

(** [pa], [pb]: what was pulled from the client and from the upstream; [wa],
    [wb]: what reached the upstream and the client. *)
Record copy_inv (dc du bu bc : bytes) (base : ByteCounters) c (pa wa pb wb : bytes) : Prop := {
  copy_up : dir_inv (content := client_data) (sink := to_up) (shut := up_shut) dc bu (to_upstream c) pa wa;
  copy_down : dir_inv (content := upstream_data) (sink := to_cl) (shut := cl_shut) du bc (to_client c) pb wb;
  copy_totals : ByteCounters.totals (copy_counters c) =
    ((bc_read base + len pa) mod 2 ^ 64, (bc_written base + len wb) mod 2 ^ 64);
}.

Definition left_of (upstream_side : bool) c : nat :=
  if upstream_side then steps_left (content := client_data) (signals := cr_signals) (dst_signals := uw_signals) (to_upstream c)
  else steps_left (content := upstream_data) (signals := ur_signals) (dst_signals := cw_signals) (to_client c).

Lemma counted_read_calls now k a p w :
  foldl (counted_read now) (k, a) (calls_of p w) =
  (if is_empty p then (k, a) else (ByteCounters.add_read (len p) k, Activity.touch now <$> a)).
Proof. unfold calls_of. by destruct p, w. Qed.
Lemma counted_written_calls now k a p w :
  foldl (counted_written now) (k, a) (calls_of p w) =
  (if is_empty w then (k, a) else (ByteCounters.add_written (len w) k, Activity.touch now <$> a)).
Proof. unfold calls_of. by destruct p, w. Qed.

Lemma fetch_add_mod a b l : fetch_add ((a + b) mod 2 ^ 64) l = (a + (b + l)) mod 2 ^ 64.
Proof. unfold fetch_add. by rewrite N.Div0.add_mod_idemp_l, N.add_assoc. Qed.

Lemma copy_step_ok dc du bu bc base side now c pa wa pb wb :
  copy_inv dc du bu bc base c pa wa pb wb →
  ∃ c' pa' wa' pb' wb', copy_step side now c = Ok c' ∧ copy_inv dc du bu bc base c' pa' wa' pb' wb' ∧
    capacity (d_pipe (to_upstream c')) = capacity (d_pipe (to_upstream c)) ∧
    capacity (d_pipe (to_client c')) = capacity (d_pipe (to_client c)) ∧
    (copy_result c' ≠ None ∨ copy_result c = None ∧ (left_of side c' ≤ left_of side c - 1)%nat ∧
       left_of (negb side) c' = left_of (negb side) c).
Proof.
  intros [Hu Hc Ht]. unfold copy_step. destruct (copy_result c) as [r|] eqn:Hres.
  { exists c, pa, wa, pb, wb. split_and!; [done|by split|done|done|left; by rewrite Hres]. }
  injection Ht as Hr Hw. destruct c as [u d k a]. cbn [to_upstream to_client copy_counters copy_activity] in *.
  destruct side.
  - destruct (splice_step_ok (signals := cr_signals) (dst_signals := uw_signals) _ _ _ _ _ Hu)
      as (u' & p & w & -> & Hu' & Hcap & Hm). res_simpl. rewrite counted_read_calls.
    exists (mkCopy u' d (if is_empty p then k else ByteCounters.add_read (len p) k)
      (if is_empty p then a else Activity.touch now <$> a)), (pa ++ p), (wa ++ w), pb, wb.
    split_and!; [by destruct (is_empty p)| |done|done|right; split_and!; [done| |done]; cbn; unfold left_of; cbn; lia].
    split; cbn [to_upstream to_client copy_counters]; [done|done|]. unfold ByteCounters.totals.
    destruct p as [|b p]; cbn [is_empty]; [by rewrite app_nil_r, Hr, Hw|].
    unfold ByteCounters.add_read. cbn [bc_read bc_written]. by rewrite Hr, Hw, fetch_add_mod, len_app.
  - destruct (splice_step_ok (signals := ur_signals) (dst_signals := cw_signals) _ _ _ _ _ Hc)
      as (d' & p & w & -> & Hd' & Hcap & Hm). res_simpl. rewrite counted_written_calls.
    exists (mkCopy u d' (if is_empty w then k else ByteCounters.add_written (len w) k)
      (if is_empty w then a else Activity.touch now <$> a)), pa, wa, (pb ++ p), (wb ++ w).
    split_and!; [by destruct (is_empty w)| |done|done|right; split_and!; [done| |done]; cbn; unfold left_of; cbn; lia].
    split; cbn [to_upstream to_client copy_counters]; [done|done|]. unfold ByteCounters.totals.
    destruct w as [|b w]; cbn [is_empty]; [by rewrite app_nil_r, Hr, Hw|].
    unfold ByteCounters.add_written. cbn [bc_read bc_written]. by rewrite Hr, Hw, fetch_add_mod, len_app.
Qed.

(** The steps a schedule gives to one side. *)
Definition turns (side : bool) (schedule : list (bool * Instant)) : nat :=
  length (List.filter (λ x, Bool.eqb x.1 side) schedule).

Lemma copy_steps_done schedule c r : copy_result c = Some r → copy_steps schedule c = Ok c.
Proof.
  intros Hr. induction schedule as [|[side now] schedule IH]; cbn [copy_steps]; [done|].
  unfold copy_step. rewrite Hr. by res_simpl.
Qed.

Lemma left_0_done c : left_of true c = 0%nat → left_of false c = 0%nat → copy_result c ≠ None.
Proof.
  destruct c as [u d k a]. unfold left_of, steps_left, copy_result, try_join. cbn [to_upstream to_client fst snd].
  destruct (d_at u) as [| | |[]], (d_at d) as [| | |[]]; intros; done || lia.
Qed.

Lemma copy_steps_ok dc du bu bc base schedule c pa wa pb wb :
  copy_inv dc du bu bc base c pa wa pb wb →
  ∃ c' pa' wa' pb' wb', copy_steps schedule c = Ok c' ∧ copy_inv dc du bu bc base c' pa' wa' pb' wb' ∧
    capacity (d_pipe (to_upstream c')) = capacity (d_pipe (to_upstream c)) ∧
    capacity (d_pipe (to_client c')) = capacity (d_pipe (to_client c)) ∧
    (copy_result c' ≠ None ∨ ∀ side, (left_of side c' ≤ left_of side c - turns side schedule)%nat).
Proof.
  revert c pa wa pb wb. induction schedule as [|[side now] schedule IH]; intros c pa wa pb wb Hinv; cbn [copy_steps].
  { exists c, pa, wa, pb, wb. split_and!; [done|done|done|done|]. right. intros side. cbn. lia. }
  destruct (copy_step_ok _ _ _ _ _ side now c _ _ _ _ Hinv)
    as (c1 & pa1 & wa1 & pb1 & wb1 & -> & Hinv1 & Hu1 & Hd1 & Hm1). res_simpl.
  destruct (copy_result c1) as [r|] eqn:Hr.
  { rewrite (copy_steps_done _ _ _ Hr). exists c1, pa1, wa1, pb1, wb1.
    split_and!; [done|done|done|done|]. left. by rewrite Hr. }
  destruct Hm1 as [|(_ & Hm1 & Hm2)]; [done|].
  destruct (IH c1 _ _ _ _ Hinv1) as (c2 & pa2 & wa2 & pb2 & wb2 & -> & Hinv2 & Hu2 & Hd2 & Hm).
  exists c2, pa2, wa2, pb2, wb2. split_and!; [done|done|congruence|congruence|].
  destruct Hm as [|Hm]; [by left|right]. intros side'. specialize (Hm side'). unfold turns in *. cbn [List.filter fst].
  destruct (Bool.eqb_spec side side') as [->|Hne]; cbn [length]; [lia|].
  replace side' with (negb side) in * by (by destruct side, side'). rewrite Hm2 in Hm. done.
Qed.
End CopyProofs.

(** C11: the splice fast path proxies faithfully and accounts exactly.  Under
    every schedule of its two directions and every answer of the kernel, no step
    panics; each side has received a prefix, in order, of what the other sent,
    at most one pipe's capacity of it in flight; the counters grew by the bytes
    pulled from the client and the bytes that reached it; success means both
    streams arrived in full with both write halves shut down; and a schedule
    that gives each direction enough turns ends it. *)
Theorem copy_bidirectional_accounts
    `{SpliceSrcSpec CR client_data cr_signals, SpliceDstSpec UW to_up up_shut uw_signals,
      SpliceSrcSpec UR upstream_data ur_signals, SpliceDstSpec CW to_cl cl_shut cw_signals}
    (client_r : CR) (client_w : CW) (upstream_r : UR) (upstream_w : UW) cap cap' base activity schedule :
  0 < cap → 0 < cap' → bc_read base < 2 ^ 64 → bc_written base < 2 ^ 64 →
  let start := copy_bidirectional client_r client_w upstream_r upstream_w (mkPipe cap [], mkPipe cap' [])
    base activity in
  ∃ c pa wa pb wb,
    copy_steps schedule start = Ok c ∧
    client_data client_r = pa ++ client_data (d_src (to_upstream c)) ∧
    to_up (d_dst (to_upstream c)) = to_up upstream_w ++ wa ∧
    (∃ flying, pa = wa ++ flying ∧ len flying ≤ cap) ∧
    upstream_data upstream_r = pb ++ upstream_data (d_src (to_client c)) ∧
    to_cl (d_dst (to_client c)) = to_cl client_w ++ wb ∧
    (∃ flying, pb = wb ++ flying ∧ len flying ≤ cap') ∧
    ByteCounters.totals (copy_counters c) =
      ((bc_read base + len pa) mod 2 ^ 64, (bc_written base + len wb) mod 2 ^ 64) ∧
    (copy_result c = Some (inr ()) →
       wa = client_data client_r ∧ wb = upstream_data upstream_r ∧
       up_shut (d_dst (to_upstream c)) = true ∧ cl_shut (d_dst (to_client c)) = true) ∧
    ((∀ side, (left_of (client_data := client_data) (upstream_data := upstream_data) (cr_signals := cr_signals)
         (uw_signals := uw_signals) (ur_signals := ur_signals) (cw_signals := cw_signals) side start
         ≤ turns side schedule)%nat) →
       copy_result c ≠ None).
Proof.
  intros Hcap Hcap' Hbr Hbw start.
  destruct (copy_steps_ok (cr_signals := cr_signals) (uw_signals := uw_signals) (ur_signals := ur_signals)
    (cw_signals := cw_signals) (client_data client_r) (upstream_data upstream_r) (to_up upstream_w)
    (to_cl client_w) base schedule start [] [] [] [])
    as (c & pa & wa & pb & wb & Hc & [Hu Hd Ht] & Hcu & Hcd & Hm).
  { split.
    - unfold start, copy_bidirectional, splice_direction. cbn [to_upstream to_client fst snd].
      dir_fields; [by rewrite app_nil_r|rewrite len_nil; lia].
    - unfold start, copy_bidirectional, splice_direction. cbn [to_upstream to_client fst snd].
      dir_fields; [by rewrite app_nil_r|rewrite len_nil; lia].
    - unfold ByteCounters.totals, start, copy_bidirectional, copy_counters.
      by rewrite len_nil, !N.add_0_r, !N.mod_small. }
  cbn in Hcu, Hcd. destruct Hu as [Hu1 Hu2 Hu3 Hu4 Hu5 Hu6], Hd as [Hd1 Hd2 Hd3 Hd4 Hd5 Hd6].
  exists c, pa, wa, pb, wb. rewrite Hcu in Hu4. rewrite Hcd in Hd4. split_and!; try done; [by eauto|by eauto| |].
  - unfold copy_result, try_join. intros Hres.
    destruct (d_at (to_upstream c)) as [| | |[]], (d_at (to_client c)) as [| | |[]]; try discriminate Hres.
    destruct Hu6 as (Hp1 & Hs1 & ?), Hd6 as (Hp2 & Hs2 & ?).
    rewrite Hp1, app_nil_r in Hu3. rewrite Hp2, app_nil_r in Hd3. rewrite Hs1, app_nil_r in Hu1.
    rewrite Hs2, app_nil_r in Hd1. split_and!; congruence.
  - intros Hturns. destruct Hm as [|Hm]; [done|].
    apply (left_0_done (client_data := client_data) (cr_signals := cr_signals) (uw_signals := uw_signals)
      (upstream_data := upstream_data) (ur_signals := ur_signals) (cw_signals := cw_signals)).
    + specialize (Hm true). specialize (Hturns true). lia.
    + specialize (Hm false). specialize (Hturns false). lia.
Qed.

(** A socket for examples: its chunks to read; what it took and whether its
    write half is shut.  A write takes at most two bytes. *)
#[global] Instance chunk_splice_src : SpliceSrc chunk_stream := read_buf.
#[global] Instance chunk_splice_src_spec : SpliceSrcSpec chunk_stream (@concat byte) (λ _, 0%nat).
Proof.
  intros s n. unfold splice_in, chunk_splice_src.
  destruct (read_delivers s n) as (bs & s' & -> & Hc & Hl & He). done.
Qed.
Record byte_sink := mkSink { sunk : bytes; sink_shut : bool }.
#[global] Instance byte_sink_dst : SpliceDst byte_sink := {
  splice_out d data := (inr (2 `min` len data), mkSink (sunk d ++ takeN 2 data) (sink_shut d));
  sys_shutdown d := (inr (), mkSink (sunk d) true);
}.
#[global] Instance byte_sink_dst_spec : SpliceDstSpec byte_sink sunk sink_shut (λ _, 0%nat).
Proof.
  split; [|by intros []]. intros [k b] data. cbn. split_and!; [lia| |done]. f_equal.
  destruct (N.leb_spec 2 (len data)); [by rewrite N.min_l|].
  rewrite N.min_r, !takeN_ge by lia. done.
Qed.

Definition example_schedule : list (bool * Instant) :=
  concat (replicate 20 [(true, 7); (false, 8)]).
Definition example_copy : CopyState chunk_stream byte_sink chunk_stream byte_sink :=
  copy_bidirectional [lit "hello"] (mkSink [] false) [lit "ok"] (mkSink [] false)
    (mkPipe 4 [], mkPipe 4 []) ByteCounters.default None.
Lemma copy_bidirectional_accounts_witness :
  ∃ c, copy_steps example_schedule example_copy = Ok c ∧
    sunk (d_dst (to_upstream c)) = lit "hello" ∧ sunk (d_dst (to_client c)) = lit "ok" ∧
    ByteCounters.totals (copy_counters c) = (5, 2).
Proof.
  assert (match copy_steps example_schedule example_copy with
    | Ok c => copy_result c = Some (inr ()) ∧ ByteCounters.totals (copy_counters c) = (5, 2)
    | _ => False end) as Hev by (vm_compute; split; reflexivity).
  destruct (copy_bidirectional_accounts [lit "hello"] (mkSink [] false) [lit "ok"] (mkSink [] false) 4 4
    ByteCounters.default None example_schedule eq_refl eq_refl eq_refl eq_refl)
    as (c & pa & wa & pb & wb & Hc & _ & Hup & _ & _ & Hcl & _ & _ & Hok & _).
  change (copy_steps example_schedule example_copy = Ok c) in Hc. rewrite Hc in Hev. destruct Hev as [Hres Ht].
  destruct (Hok Hres) as (Ha & Hb & _ & _). subst wa wb. exists c.
  split_and!; [exact Hc|exact Hup|exact Hcl|exact Ht].
Defined.

(** ** The file-descriptor budget *)
(** *** The probe *)
Definition interrupted {A} (answer : io_error + A) : Prop := retry_eintr answer = None.

(** The loop answers with the first result that was not an interruption. *)
Lemma retry_loop_Some {A} (answers : list (io_error + A)) r :
  retry_loop answers = Some r ↔
  ∃ before after, answers = before ++ r :: after ∧ Forall interrupted before ∧ ¬ interrupted r.
Proof.
  induction answers as [|a answers IH]; cbn [retry_loop].
  - split; [done|]. by intros ([|] & ? & ? & _).
  - assert (∀ x, retry_eintr a = Some x → x = a) as Ha.
    { unfold retry_eintr. destruct a; [case_decide|]; congruence. }
    destruct (retry_eintr a) as [x|] eqn:Hx.
    + rewrite (Ha x) in * by done. split.
      * intros [= <-]. exists [], answers. split_and!; [done|constructor|unfold interrupted; congruence].
      * intros ([|b before] & after & [= -> ->] & Hb & _); [done|].
        inversion_clear Hb as [|? ? Hi]. unfold interrupted in Hi. congruence.
    + rewrite IH. split.
      * intros (before & after & -> & Hb & Hr). exists (a :: before), after. by split_and!; [|constructor|].
      * intros ([|b before] & after & [= -> ->] & Hb & Hr); [done|].
        inversion_clear Hb. by exists before, after.
Qed.
(** An interruption decides nothing. *)
Lemma retry_loop_interrupted {A} before (answers : list (io_error + A)) :
  Forall interrupted before → retry_loop (before ++ answers) = retry_loop answers.
Proof. induction 1 as [|a before Ha _ IH]; cbn; [done|]. unfold interrupted in Ha. by rewrite Ha. Qed.

(** The fast path is on only where a byte was seen to go through; a failure of
    any call turns it off. *)
Lemma probe_true source sink writes splices r :
  try_probe source sink writes splices = Some r →
  probe r = true ↔
  source.1 = 0%Z ∧ sink.1 = 0%Z ∧ retry_loop (write_result <$> writes) = Some (inr ()) ∧
  splice_raw splices = Some (inr 1).
Proof.
  unfold try_probe, pipe2_result. destruct (Z.eqb_spec source.1 0), (Z.eqb_spec sink.1 0); cbn [negb].
  2, 3, 4: intros [= <-]; cbn; naive_solver.
  destruct (retry_loop _) as [[error|[]]|]; [| |done].
  - intros [= <-]. cbn. naive_solver.
  - destruct (splice_raw splices) as [[error|moved]|]; [| |done]; intros [= <-]; cbn; [naive_solver|].
    rewrite N.eqb_eq. naive_solver.
Qed.

Lemma splice_permits_budget nofile_limit :
  FDS_PER_SPLICE_CONNECTION * splice_permits nofile_limit ≤ nofile_limit / MAX_SPLICE_FD_SHARE.
Proof. apply N.Div0.mul_div_le. Qed.

(** Connections taking a permit when there is one, and dropping one they hold:
    the semaphore and the number of permits held. *)
Definition admission_op `{Semaphore Sem} (x : Admission Sem * N) (acquire : bool) : Admission Sem * N :=
  if acquire then
    match Admission.acquire x.1 with
    | Some a => (a, x.2 + 1)
    | None => x
    end
  else if 0 <? x.2 then (mkAdmission (release (permits x.1)), x.2 - 1) else x.

Lemma admission_new_permits `{SemaphoreSpec Sem free} limit var (a : Admission Sem) :
  Admission.new limit var = Ok a → free (permits a) = admission_capacity var (default 0 limit).
Proof. intros (slots & Hs & ->)%fmap_Ok. by apply sem_new_permits. Qed.
Lemma admission_new_panics `{SemaphoreSpec Sem free} limit var st :
  Admission.new (Sem := Sem) limit var = Stuck st → MAX_PERMITS < admission_capacity var (default 0 limit).
Proof.
  intros Hs. apply N.nle_gt. intros [s Hn]%(sem_new_makes (available := free)).
  unfold Admission.new in Hs. by rewrite Hn in Hs.
Qed.
(** The permits held are part of those there were. *)
Lemma admission_held `{SemaphoreSpec Sem free} (a : Admission Sem) ops :
  (foldl admission_op (a, 0) ops).2 ≤ free (permits a).
Proof.
  assert (∀ x : Admission Sem * N, free (permits (foldl admission_op x ops).1) + (foldl admission_op x ops).2 =
    free (permits x.1) + x.2) as Hinv.
  { induction ops as [|op ops IH]; intros x; [done|]. cbn [foldl]. rewrite IH.
    destruct x as [a' n]. unfold admission_op, Admission.acquire. cbn [fst snd]. destruct op.
    - destruct (try_acquire (permits a')) as [s|] eqn:Ha; cbn; [|done]. apply try_acquire_Some in Ha. lia.
    - case_N; cbn; [|done]. rewrite release_permit. lia. }
  specialize (Hinv (a, 0)). cbn [fst snd] in Hinv. lia.
Qed.

(** C39: unless the operator overrides the budget, the pipes of all spliced
    connections together never hold more than half of the file-descriptor
    limit, however permits are taken and dropped; with an override, at most
    that many connections are admitted, and [0] admits none.  [Admission::new]
    panics only for an override above what a semaphore holds: a descriptor limit
    of 64 bits never makes it. *)
Theorem admission_budget `{SemaphoreSpec Sem free} limit var ops :
  let override := (value ← var; parse_uint usize_max value) in
  match Admission.new limit var with
  | Ok admission =>
    let held := (foldl admission_op (admission : Admission Sem, 0) ops).2 in
    match override with
    | Some n => held ≤ n
    | None => 2 * (FDS_PER_SPLICE_CONNECTION * held) ≤ default 0 limit
    end
  | _ =>
    match override with
    | Some n => MAX_PERMITS < n
    | None => usize_max < default 0 limit
    end
  end.
Proof.
  intros override. pose proof (splice_permits_budget (default 0 limit)) as Hb.
  pose proof (N.Div0.mul_div_le (default 0 limit) MAX_SPLICE_FD_SHARE) as Hd.
  unfold FDS_PER_SPLICE_CONNECTION, MAX_SPLICE_FD_SHARE in *.
  destruct (Admission.new limit var) as [admission|[]|] eqn:Hnew.
  - apply admission_new_permits in Hnew. pose proof (admission_held admission ops) as Hheld.
    rewrite Hnew in Hheld. unfold admission_capacity in Hheld. fold override in Hheld.
    destruct override; [done|]. cbv zeta. lia.
  - apply admission_new_panics in Hnew. unfold admission_capacity in Hnew. fold override in Hnew.
    destruct override; [done|]. change MAX_PERMITS with (2 ^ 61 - 1) in Hnew. unfold usize_max. lia.
Qed.
Lemma admission_budget_witness :
  ∃ admission : Admission N, Admission.new (Some 1024) None = Ok admission ∧
    2 * (FDS_PER_SPLICE_CONNECTION * (foldl admission_op (admission, 0) (replicate 300 true)).2) ≤ 1024.
Proof.
  eexists. split; [reflexivity|]. exact (admission_budget (Sem := N) (Some 1024) None (replicate 300 true)).
Defined.
