(* ===== verification/Proxy.v ===== *)
(** * The proxy stage ([delivery/proxy.rs])

    The race of the force token, the idle watchdog and the copy; the choice of
    the copy mechanism; and the watchdog's loop. *)

From S2P Require Import Prelude Async Str Metered Splice SpliceProofs.

Inductive ProxyEnd :=
| ProxyFinished
| ProxyError (error : io_error)
| ProxyIdle
| ProxyForced.
#[global] Instance ProxyEnd_eq_dec : EqDecision ProxyEnd.
Proof. solve_decision. Defined.

(** What the three branches of the [select!] answer when they are polled. *)
Record ProxyPoll := mkProxyPoll {
  force_cancelled : bool;
  idle_done : bool;
  copy_done : option (io_error + unit);
}.
(** The biased [select!], and the polls of it until it completes ([None]: still
    proxying). *)
Definition proxy_poll (p : ProxyPoll) : option ProxyEnd :=
  if force_cancelled p then Some ProxyForced
  else if idle_done p then Some ProxyIdle
  else match copy_done p with
       | Some (inr _) => Some ProxyFinished
       | Some (inl error) => Some (ProxyError error)
       | None => None
       end.
Fixpoint proxy (polls : list ProxyPoll) : option ProxyEnd :=
  match polls with
  | [] => None
  | p :: polls => match proxy_poll p with Some end_ => Some end_ | None => proxy polls end
  end.

(** Which mechanism [copy] uses, and the budget it leaves: a permit stays taken
    while the pipes are in use, and is returned when they cannot be made. *)
Inductive CopyPath := Spliced (pipes : Pipe * Pipe) | Portable.
Definition copy_path `{Semaphore Sem} (available : bool) (admission : Admission Sem)
    (prepare : N → io_error + (Pipe * Pipe)) (buffer_size : N) : CopyPath * Admission Sem :=
  if available then
    match Admission.acquire admission with
    | Some taken =>
      match prepare buffer_size with
      | inr pipes => (Spliced pipes, taken)
      | inl _ => (Portable, mkAdmission (release (permits taken)))
      end
    | None => (Portable, admission)
    end
  else (Portable, admission).

(** The watchdog.  [activity now] is the connection's activity record as the
    task would read it at [now], and [sleep_until deadline] when it wakes.  The
    answer is the time it fires, [None] when it never does. *)
Section Idle.
Context (activity : Instant → Activity) (sleep_until : Instant → Instant).

Fixpoint idle_loop (fuel : nat) (idle_timeout : Duration) (now : Instant) : section (option Instant) :=
  match fuel with
  | O => Stuck SFuel
  | S fuel =>
    last ← Activity.last (activity now);
    match instant_checked_add last idle_timeout with
    | None => Ok None
    | Some deadline =>
      if deadline <=? now then Ok (Some now)
      else idle_loop fuel idle_timeout (sleep_until deadline)
    end
  end.
Definition idle_expired (fuel : nat) (metered : bool) (idle_timeout : option Duration) (now : Instant) :
    section (option Instant) :=
  match metered, idle_timeout with
  | true, Some idle_timeout => idle_loop fuel idle_timeout now
  | _, _ => Ok None
  end.

(** ** The watchdog's contract *)

(** [last now] is when the connection was last active, as of [now]; no byte
    moves after [quiet]. *)
Context (last : Instant → Instant) (quiet : Instant) (slack : Duration).
Context (last_value : ∀ now, Activity.last (E := Empty_set) (activity now) = Ok (last now)).
Context (last_mono : ∀ now now', now ≤ now' → last now ≤ last now').
Context (last_quiet : ∀ now, quiet ≤ now → last now = last quiet).
Context (sleep_wakes : ∀ d, d ≤ sleep_until d ≤ d + slack).

Lemma idle_loop_fires fuel idle_timeout now :
  last quiet + idle_timeout ≤ instant_max →
  (N.to_nat (quiet - now) + 1 < fuel)%nat →
  ∃ t, idle_loop fuel idle_timeout now = Ok (Some t) ∧ last t + idle_timeout ≤ t ∧ now ≤ t ∧
    (t = now ∨ t ≤ last quiet + idle_timeout + slack).
Proof.
  intros Hmax. revert now. induction fuel as [|fuel IH]; intros now Hf; [lia|].
  assert (∀ n, last n ≤ last quiet) as Hle.
  { intros n. destruct (N.le_ge_cases n quiet); [by apply last_mono|by rewrite last_quiet]. }
  cbn [idle_loop]. rewrite last_value. res_simpl. unfold instant_checked_add. pose proof (Hle now).
  destruct (N.leb_spec (last now + idle_timeout) instant_max) as [_|]; [|unfold Instant in *; lia].
  destruct (N.leb_spec (last now + idle_timeout) now) as [Hd|Hd]; [exists now; by split_and!; [| | |left]|].
  destruct (sleep_wakes (last now + idle_timeout)) as [Hw1 Hw2].
  set (wake := sleep_until (last now + idle_timeout)) in *.
  destruct (decide (quiet ≤ now)) as [Hq|Hq].
  - destruct fuel as [|fuel]; [lia|]. exists wake. cbn [idle_loop]. rewrite last_value. res_simpl.
    unfold instant_checked_add. rewrite (last_quiet wake) by (unfold Instant in *; lia).
    rewrite (last_quiet now) in * by done.
    destruct (N.leb_spec (last quiet + idle_timeout) instant_max) as [_|]; [|unfold Instant in *; lia].
    destruct (N.leb_spec (last quiet + idle_timeout) wake); [|unfold Instant in *; lia].
    split_and!; [done|done|unfold Instant in *; lia|by right].
  - destruct (IH wake) as (t & Ht & Hidle & Hnow & Hb); [unfold Instant in *; lia|].
    exists t. split_and!; [done|done|unfold Instant in *; lia|]. right.
    destruct Hb as [->|]; unfold Instant in *; lia.
Qed.
End Idle.

(** C26: the idle watchdog.  A proxied connection is reported idle only when no
    byte has moved for the idle timeout; once no byte moves any more, it is
    reported, at most the timer's slack after the timeout; and without an idle
    timeout, or with one beyond the end of time, never. *)
Theorem idle_expired_contract activity sleep_until last quiet slack fuel idle_timeout now :
  (∀ now, Activity.last (E := Empty_set) (activity now) = Ok (last now)) →
  (∀ now now', now ≤ now' → last now ≤ last now') →
  (∀ now, quiet ≤ now → last now = last quiet) →
  (∀ d, d ≤ sleep_until d ≤ d + slack) →
  (N.to_nat (quiet - now) + 1 < fuel)%nat →
  (last quiet + idle_timeout ≤ instant_max →
   ∃ t, idle_expired activity sleep_until fuel true (Some idle_timeout) now = Ok (Some t) ∧
     last t + idle_timeout ≤ t ∧ (t = now ∨ now ≤ t ≤ last quiet + idle_timeout + slack)) ∧
  idle_expired activity sleep_until fuel true None now = Ok None ∧
  (instant_max < last now + idle_timeout →
   idle_expired activity sleep_until fuel true (Some idle_timeout) now = Ok None).
Proof.
  intros Hv Hm Hq Hs Hf. split_and!; [|done|].
  - intros Hmax. destruct (idle_loop_fires _ _ last quiet slack Hv Hm Hq Hs fuel idle_timeout now Hmax Hf)
      as (t & Ht & Hi & Hn & Hb). exists t. split_and!; [done|done|]. destruct Hb; [by left|by right].
  - intros Hlarge. destruct fuel as [|fuel]; [lia|]. cbn [idle_expired idle_loop]. rewrite Hv. res_simpl.
    unfold instant_checked_add. destruct (N.leb_spec (last now + idle_timeout) instant_max); [|done].
    unfold Instant in *. lia.
Qed.
Lemma idle_expired_contract_witness :
  ∃ t, idle_expired (λ _, mkActivity 5 0) (λ d, d) 20 true (Some 10) 7 = Ok (Some t) ∧ 5 + 10 ≤ t.
Proof.
  destruct (proj1 (idle_expired_contract (λ _, mkActivity 5 0) (λ d, d) (λ _, 5) 6 0 20 10 7
    ltac:(reflexivity) ltac:(reflexivity) ltac:(reflexivity) ltac:(split; lia) ltac:(vm_compute; lia))
    ltac:(vm_decide)) as (t & Ht & Hi & _).
  exists t. split; [exact Ht|exact Hi].
Defined.

(** The pipes the kernel made hold at least a byte each, and are empty. *)
Lemma prepare_pipes r1 r2 getpipe_sz size p1 p2 :
  0 < size → prepare r1 r2 getpipe_sz size = inr (p1, p2) →
  0 < capacity p1 ∧ pipe_data p1 = [] ∧ 0 < capacity p2 ∧ pipe_data p2 = [].
Proof.
  unfold prepare, Pipe.new. intros Hs. destruct r1, r2; [done..|]. intros [= <- <-]. cbn.
  destruct (Z.ltb_spec 0 (getpipe_sz (size `min` i32_max))); split_and!; done || lia.
Qed.

(** The first poll with a finished branch decides how proxying ends. *)
Lemma proxy_first polls end_ :
  proxy polls = Some end_ ↔
  ∃ before p after, polls = before ++ p :: after ∧ Forall (λ q, proxy_poll q = None) before ∧
    proxy_poll p = Some end_.
Proof.
  induction polls as [|p polls IH]; cbn [proxy].
  { split; [done|]. intros ([|] & p' & r & Hl & _); done. }
  destruct (proxy_poll p) as [e|] eqn:Hp; cbn [proxy].
  - split; [intros [= <-]; by exists [], p, polls|].
    intros ([|q l] & p' & r & Hl & Hb & He); injection Hl as -> ->; [congruence|].
    apply Forall_cons in Hb as [Hb _]. congruence.
  - rewrite IH. split.
    + intros (l & p' & r & -> & Hb & He). exists (p :: l), p', r. by auto.
    + intros ([|q l] & p' & r & Hl & Hb & He); injection Hl as -> ->; [congruence|].
      apply Forall_cons in Hb as [_ Hb]. by exists l, p', r.
Qed.

(** Choosing the copy mechanism keeps the budget.  A connection that uses
    splice holds exactly one permit, and both its pipes are empty and can hold a
    byte; one that does not (splice unusable, budget spent, or no pipes) leaves
    the budget as it was. *)
Theorem copy_path_budget `{SemaphoreSpec Sem free} usable (admission admission' : Admission Sem)
    r1 r2 getpipe_sz size path :
  0 < size → copy_path usable admission (prepare r1 r2 getpipe_sz) size = (path, admission') →
  match path with
  | Portable => free (permits admission') = free (permits admission) ∧
      (usable = false ∨ free (permits admission) = 0 ∨ ∃ e, prepare r1 r2 getpipe_sz size = inl e)
  | Spliced (p1, p2) => free (permits admission) = free (permits admission') + 1 ∧ usable = true ∧
      0 < capacity p1 ∧ pipe_data p1 = [] ∧ 0 < capacity p2 ∧ pipe_data p2 = []
  end.
Proof.
  intros Hsize. unfold copy_path, Admission.acquire. destruct usable; [|intros [= <- <-]; by auto].
  destruct (try_acquire (permits admission)) as [s|] eqn:Ha; cbn [fmap option_fmap option_map].
  - apply try_acquire_Some in Ha. destruct (prepare r1 r2 getpipe_sz size) as [e|[p1 p2]] eqn:Hp.
    + intros [= <- <-]. cbn. rewrite release_permit. split; [lia|]. right. right. by eexists.
    + apply prepare_pipes in Hp as (?&?&?&?); [|done]. intros [= <- <-]. by split_and!.
  - apply try_acquire_None in Ha. intros [= <- <-]. by auto.
Qed.
Lemma copy_path_budget_witness :
  ∃ p1 p2, copy_path true (mkAdmission 3 : Admission N) (prepare (inr ()) (inr ()) (λ _, 4096%Z)) 512
      = (Spliced (p1, p2), mkAdmission 2) ∧ 0 < capacity p1.
Proof.
  exists (mkPipe 4096 []), (mkPipe 4096 []). split; [reflexivity|].
  pose proof (copy_path_budget true (mkAdmission 3 : Admission N) (mkAdmission 2) (inr ()) (inr ()) (λ _, 4096%Z) 512
    (Spliced (mkPipe 4096 [], mkPipe 4096 [])) ltac:(reflexivity) ltac:(reflexivity)) as (_ & _ & H & _).
  exact H.
Defined.
