(* ===== verification/Resolver.v ===== *)
(** * Backend DNS resolution ([delivery/resolver.rs])

    One definition per critical section of the resolver's mutex.  The system
    lookup is a parameter: its answer is an argument.  A lookup task's channel
    is named by a number, and an in-flight slot is that number. *)

From S2P Require Import Prelude Async Str Net Names Metrics.

Definition NEGATIVE_TTL : Duration := from_secs 1.
Definition STALE_IF_ERROR : Duration := from_secs 60.
Definition PRUNE_THRESHOLD : N := 4096.

Definition Key : Type := bytes * N.
Definition Outcome : Type := (io_error_kind * bytes) + list SocketAddr.

Record Entry := mkEntry {
  addrs : option (list SocketAddr);
  fresh_until : Instant;
  stale_until : Instant;
}.

Record State := mkState { cache : gmap Key Entry; inflight : gmap Key N }.
Definition State_default : State := mkState ∅ ∅.

Record Resolver (Sem : Type) := mkResolver {
  state : State;
  slots : Sem;
  ttl : Duration;
  rotation : N;
}.
Arguments mkResolver {Sem} _ _ _ _.
Arguments state {Sem} _.
Arguments slots {Sem} _.
Arguments ttl {Sem} _.
Arguments rotation {Sem} _.

(** [instant + duration], saturating instead of panicking on overflow. *)
Definition later (instant : Instant) (duration : Duration) : section Instant :=
  match instant_checked_add instant duration with
  | Some i => Ok i
  | None => instant_add instant century
  end.

Definition into_io (outcome : Outcome) : io_error + list SocketAddr :=
  match outcome with
  | inl (kind, message) => inl (mkIoError kind message)
  | inr addrs => inr addrs
  end.

Definition closed : io_error_kind * bytes := (KOther, lit "resolver lookup ended without a result").

(** The cached outcome for a key if it is still fresh. *)
Definition fresh (cache : gmap Key Entry) (key : Key) (now : Instant) : option Outcome :=
  entry ← cache !! key;
  if now <? fresh_until entry then
    Some match addrs entry with
         | Some addrs => inr addrs
         | None => inl (KNotFound, lit "recent resolution of " ++ key.1 ++ lit " failed")
         end
  else None.

(** What a caller of [resolve] does after the critical section: answer at once,
    or wait for a lookup, which it starts or joins. *)
Inductive Resolving := Cached (outcome : Outcome) | Join (lookup : N) | Start (lookup : N).

Module Resolver.
Section Resolver.
Context `{Semaphore Sem}.

Definition with_lookup (ttl : Duration) (max_concurrent : N) : section (Resolver Sem) :=
  slots ← sem_new (max_concurrent `max` 1); Ok (mkResolver State_default slots ttl 0).

(** The critical section of [resolve]; [id] names the channel it makes. *)
Definition resolve_begin (r : Resolver Sem) (key : Key) (now : Instant) (id : N) : Resolver Sem * Resolving :=
  match fresh (cache (state r)) key now with
  | Some cached => (r, Cached cached)
  | None =>
    match inflight (state r) !! key with
    | Some lookup => (r, Join lookup)
    | None =>
      (mkResolver (mkState (cache (state r)) (<[key := id]> (inflight (state r)))) (slots r) (ttl r) (rotation r),
       Start id)
    end
  end.

(** What the wait for a lookup gives: its outcome, or [closed] when its task
    ended without one. *)
Definition resolved (value : option Outcome) : Outcome := default (inl closed) value.

Definition rotated (r : Resolver Sem) (addrs : list SocketAddr) : section (list SocketAddr * Resolver Sem) :=
  let start := rotation r mod (len addrs `max` 1) in
  let r := mkResolver (state r) (slots r) (ttl r) ((rotation r + 1) mod 2 ^ 64) in
  back ← slice_from start addrs;
  front ← slice 0 start addrs;
  Ok (back ++ front, r).

(** [resolve] after the critical section. *)
Definition resolve_end (r : Resolver Sem) (outcome : Outcome) :
    section ((io_error + list SocketAddr) * Resolver Sem) :=
  match into_io outcome with
  | inl error => Ok (inl error, r)
  | inr addrs => '(addrs, r) ← rotated r addrs; Ok (inr addrs, r)
  end.

Definition store (ttl : Duration) (cache : gmap Key Entry) (key : Key)
    (result : io_error + list SocketAddr) (now : Instant) : section (gmap Key Entry * Outcome) :=
  let cache := if PRUNE_THRESHOLD <=? N.of_nat (size cache)
               then filter (λ x, now < (stale_until x.2 `max` fresh_until x.2)) cache
               else cache in
  let failed error :=
    let entry := default (mkEntry None now now) (cache !! key) in
    fresh_until ← later now NEGATIVE_TTL;
    match addrs entry with
    | Some addrs =>
      if now <? stale_until entry
      then Ok (<[key := mkEntry (Some addrs) fresh_until (stale_until entry)]> cache, inr addrs)
      else Ok (<[key := mkEntry None fresh_until (stale_until entry)]> cache, inl error)
    | None => Ok (<[key := mkEntry None fresh_until (stale_until entry)]> cache, inl error)
    end in
  match result with
  | inr ((_ :: _) as addrs) =>
    fresh_until ← later now ttl;
    stale_until ← later fresh_until STALE_IF_ERROR;
    Ok (<[key := mkEntry (Some addrs) fresh_until stale_until]> cache, inr addrs)
  | inr [] => failed (KNotFound, key.1 ++ lit " resolved to no addresses")
  | inl error => failed (ioe_kind error, lit "resolving " ++ key.1 ++ lit ": " ++ ioe_message error)
  end.

(** [spawn_lookup]'s task: a permit for the blocking call, its return, and the
    critical section that ends the task. *)
Definition lookup_start (r : Resolver Sem) : option (Resolver Sem) :=
  slots ← try_acquire (slots r); Some (mkResolver (state r) slots (ttl r) (rotation r)).
Definition lookup_return (r : Resolver Sem) : Resolver Sem :=
  mkResolver (state r) (release (slots r)) (ttl r) (rotation r).
Definition lookup_store (r : Resolver Sem) (key : Key) (result : io_error + list SocketAddr) (now : Instant) :
    section (Resolver Sem * Outcome) :=
  let inflight := delete key (inflight (state r)) in
  '(cache, outcome) ← store (ttl r) (cache (state r)) key result now;
  Ok (mkResolver (mkState cache inflight) (slots r) (ttl r) (rotation r), outcome).
End Resolver.
End Resolver.
