(* ===== verification/ResolverProofs.v ===== *)
(** * Backend DNS resolution: proofs

    The critical sections case by case, the resolver with its lookup tasks as a
    step relation, and the properties of every reachable state. *)

From S2P Require Import Prelude Async Str Net Names Metrics Resolver.
Import Resolver.

(** [later] never goes past the sum, and never back. *)
Lemma later_bound i d j : later i d = Ok j → i ≤ j ≤ i + d.
Proof.
  unfold later, instant_add, instant_checked_add. unfold Instant in *.
  destruct (N.leb_spec (i + d) instant_max); [intros [= <-]; lia|].
  destruct (N.leb_spec (i + century) instant_max); [intros [= <-]; lia|done].
Qed.

(** ** Storing a result *)
Definition prune (now : Instant) (cache : gmap Key Entry) : gmap Key Entry :=
  if PRUNE_THRESHOLD <=? N.of_nat (size cache)
  then filter (λ x, now < (stale_until x.2 `max` fresh_until x.2)) cache else cache.
Lemma prune_lookup now c key e : prune now c !! key = Some e → c !! key = Some e.
Proof. unfold prune. case_N; [|done]. by intros [? _]%map_lookup_filter_Some. Qed.

(** An error is remembered for [NEGATIVE_TTL]; within the stale window the last
    good answer is used, after it that answer is forgotten. *)
Definition stored_failure (key : Key) (now : Instant) (cache cache' : gmap Key Entry) (outcome : Outcome) : Prop :=
  let entry := default (mkEntry None now now) (prune now cache !! key) in
  ∃ fresh, later now NEGATIVE_TTL = Ok fresh ∧
    ((∃ a, addrs entry = Some a ∧ now < stale_until entry ∧ outcome = inr a ∧
        cache' = <[key := mkEntry (Some a) fresh (stale_until entry)]> (prune now cache)) ∨
     ((addrs entry = None ∨ stale_until entry ≤ now) ∧ (∃ e, outcome = inl e) ∧
        cache' = <[key := mkEntry None fresh (stale_until entry)]> (prune now cache))).
Definition stored_answer (ttl : Duration) (key : Key) (a : list SocketAddr) (now : Instant)
    (cache cache' : gmap Key Entry) (outcome : Outcome) : Prop :=
  ∃ fresh stale, later now ttl = Ok fresh ∧ later fresh STALE_IF_ERROR = Ok stale ∧ outcome = inr a ∧
    cache' = <[key := mkEntry (Some a) fresh stale]> (prune now cache).

Lemma store_cases ttl c key result now c' outcome :
  store ttl c key result now = Ok (c', outcome) →
  match result with
  | inr ((_ :: _) as a) => stored_answer ttl key a now c c' outcome
  | _ => stored_failure key now c c' outcome
  end.
Proof.
  unfold store. fold (prune now c). destruct result as [e|[|x a]].
  3: { intros. res_inv. eexists _, _. by split_and!. }
  all: intros (fresh & Hf & Hs)%bind_Ok; exists fresh; split; [done|];
    destruct (addrs (default _ (prune now c !! key))) as [a|] eqn:Ha; [|right; by simplify_eq; eauto];
    case_N; simplify_eq; [left|right; by eauto]; eexists; by split_and!.
Qed.

(** ** The resolver and its lookup tasks *)
Inductive TaskAt := Queued | Running | Returned (result : io_error + list SocketAddr).
Record Task := mkTask { task_key : Key; task_at : TaskAt }.
Definition is_running (t : Task) : bool := match task_at t with Running => true | _ => false end.

(** [rw_answers]: every answer stored, with its key and when. *)
Record World (Sem : Type) := mkWorld {
  rw_resolver : Resolver Sem;
  rw_tasks : gmap N Task;
  rw_next : N;
  rw_answers : list (Key * list SocketAddr * Instant);
}.
Arguments mkWorld {Sem} _ _ _ _.
Arguments rw_resolver {Sem} _.
Arguments rw_tasks {Sem} _.
Arguments rw_next {Sem} _.
Arguments rw_answers {Sem} _.

Section World.
Context `{SemaphoreSpec Sem free}.
Implicit Types w : World Sem.

Inductive resolver_step : World Sem → World Sem → Prop :=
| step_begin r tasks next answers key now r' out :
    resolve_begin r key now next = (r', out) →
    resolver_step (mkWorld r tasks next answers)
      (mkWorld r' (match out with Start id => <[id := mkTask key Queued]> tasks | _ => tasks end)
        (next + 1) answers)
| step_end r tasks next answers outcome out r' :
    resolve_end r outcome = Ok (out, r') →
    resolver_step (mkWorld r tasks next answers) (mkWorld r' tasks next answers)
| step_start r tasks next answers id key r' :
    tasks !! id = Some (mkTask key Queued) → lookup_start r = Some r' →
    resolver_step (mkWorld r tasks next answers) (mkWorld r' (<[id := mkTask key Running]> tasks) next answers)
| step_return r tasks next answers id key result :
    tasks !! id = Some (mkTask key Running) →
    resolver_step (mkWorld r tasks next answers)
      (mkWorld (lookup_return r) (<[id := mkTask key (Returned result)]> tasks) next answers)
| step_store r tasks next answers id key result now r' outcome :
    tasks !! id = Some (mkTask key (Returned result)) → lookup_store r key result now = Ok (r', outcome) →
    resolver_step (mkWorld r tasks next answers)
      (mkWorld r' (delete id tasks) next
        (match result with inr ((_ :: _) as a) => (key, a, now) :: answers | _ => answers end)).

Definition resolver_start (ttl : Duration) (max_concurrent : N) : section (World Sem) :=
  r ← with_lookup ttl max_concurrent; Ok (mkWorld r ∅ 0 []).
Definition resolver_reachable ttl max_concurrent w : Prop :=
  ∃ start, resolver_start ttl max_concurrent = Ok start ∧ rtc resolver_step start w.

(** How old an answer in the cache can be. *)
Definition entry_ok (ttl : Duration) (answers : list (Key * list SocketAddr * Instant)) (key : Key) (e : Entry) : Prop :=
  ∀ a, addrs e = Some a → a ≠ [] ∧ fresh_until e ≤ stale_until e + NEGATIVE_TTL ∧
    ∃ t, (key, a, t) ∈ answers ∧ stale_until e ≤ t + ttl + STALE_IF_ERROR.

Definition running (tasks : gmap N Task) : N := count is_running tasks.

Record resolver_wf (ttl0 : Duration) (cap : N) w : Prop := {
  rwf_ttl : ttl (rw_resolver w) = ttl0;
  rwf_slots : free (slots (rw_resolver w)) + running (rw_tasks w) = cap;
  rwf_flight key id : inflight (state (rw_resolver w)) !! key = Some id ↔
    ∃ at_, rw_tasks w !! id = Some (mkTask key at_);
  rwf_ids id t : rw_tasks w !! id = Some t → id < rw_next w;
  rwf_cache key e : cache (state (rw_resolver w)) !! key = Some e → entry_ok ttl0 (rw_answers w) key e;
}.

Lemma entry_ok_more ttl0 answers answers' key e :
  answers ⊆ answers' → entry_ok ttl0 answers key e → entry_ok ttl0 answers' key e.
Proof. intros Hsub He a Ha. destruct (He a Ha) as (? & ? & t & ? & ?). split_and!; [done|done|]. exists t. auto. Qed.

Lemma store_entries_ok ttl0 answers c key result now c' outcome :
  (∀ k e, c !! k = Some e → entry_ok ttl0 answers k e) →
  store ttl0 c key result now = Ok (c', outcome) →
  let answers' := match result with inr ((_ :: _) as a) => (key, a, now) :: answers | _ => answers end in
  (∀ k e, c' !! k = Some e → entry_ok ttl0 answers' k e) ∧
  (∀ a, outcome = inr a → a ≠ [] ∧ ∃ t, (key, a, t) ∈ answers' ∧ now ≤ t + ttl0 + STALE_IF_ERROR).
Proof.
  intros Hc Hs%store_cases answers'.
  assert (answers ⊆ answers') as Hsub by (unfold answers'; destruct result as [|[]]; set_solver).
  assert (∀ k e, prune now c !! k = Some e → entry_ok ttl0 answers' k e) as Hp.
  { intros k e He%prune_lookup. eapply entry_ok_more; [exact Hsub|]. by apply Hc. }
  assert (∀ a k e, stored_answer ttl0 key a now c c' outcome → result = inr a → a ≠ [] → c' !! k = Some e →
    entry_ok ttl0 answers' k e) as Hans.
  { intros a k e (f & s & Hf%later_bound & Hst%later_bound & _ & ->) -> Hne.
    rewrite lookup_insert_Some. intros [[<- <-]|[_ He]]; [|by apply Hp]. intros a' [= <-].
    cbn [fresh_until stale_until].
    split_and!; [done|unfold Instant in *; lia|]. exists now. split; [|unfold Instant in *; lia].
    unfold answers'. destruct a; [done|]. by left. }
  assert (stored_failure key now c c' outcome →
    (∀ k e, c' !! k = Some e → entry_ok ttl0 answers' k e) ∧
    (∀ a, outcome = inr a → a ≠ [] ∧ ∃ t, (key, a, t) ∈ answers' ∧ now ≤ t + ttl0 + STALE_IF_ERROR)) as Hfail.
  { intros (f & Hf%later_bound & Hcase). destruct (prune now c !! key) as [e0|] eqn:He0; cbn [from_option id] in Hcase.
    - destruct Hcase as [(a & Ha & Hnow & -> & ->)|(_ & [e1 ->] & ->)].
      + destruct (Hp key e0 He0 a Ha) as (Hne & Hfr & t & Ht & Hst). split.
        * intros k e. rewrite lookup_insert_Some. intros [[<- <-]|[_ He]]; [|by apply Hp].
          intros a' [= <-]. cbn [fresh_until stale_until].
          split_and!; [done|unfold Instant in *; lia|]. by exists t.
        * intros a' [= <-]. split; [done|]. exists t. split; [done|]. unfold Instant in *. lia.
      + split; [|done]. intros k e. rewrite lookup_insert_Some. intros [[<- <-]|[_ He]]; [done|by apply Hp].
    - destruct Hcase as [(a & [=] & _)|(_ & [e1 ->] & ->)].
      split; [|done]. intros k e. rewrite lookup_insert_Some. intros [[<- <-]|[_ He]]; [done|by apply Hp]. }
  destruct result as [e|[|x a]]; [by apply Hfail|by apply Hfail|]. split; [by eauto|].
  destruct Hs as (f & s & _ & _ & -> & _). intros a' [= <-]. split; [done|]. exists now.
  split; [by left|]. unfold Instant in *. lia.
Qed.

(** Replacing a task by one with the same key keeps the slots right. *)
Lemma flight_replace (inflight : gmap Key N) (tasks : gmap N Task) id key at0 at1 :
  (∀ k i, inflight !! k = Some i ↔ ∃ a, tasks !! i = Some (mkTask k a)) →
  tasks !! id = Some (mkTask key at0) →
  ∀ k i, inflight !! k = Some i ↔ ∃ a, <[id := mkTask key at1]> tasks !! i = Some (mkTask k a).
Proof.
  intros Hf Hid k i. rewrite Hf. destruct (decide (i = id)) as [->|Hne].
  - rewrite lookup_insert_eq, Hid. split; intros [a [= -> <-]]; eauto.
  - by rewrite lookup_insert_ne.
Qed.
Lemma ids_replace (tasks : gmap N Task) id t t' next :
  (∀ i u, tasks !! i = Some u → i < next) → tasks !! id = Some t →
  ∀ i u, <[id := t']> tasks !! i = Some u → i < next.
Proof. intros Hi Hid i u [[<- _]|[_ Hu]]%lookup_insert_Some; eauto. Qed.

Lemma resolver_wf_step ttl0 cap w w' : resolver_wf ttl0 cap w → resolver_step w w' → resolver_wf ttl0 cap w'.
Proof.
  intros [Ht Hs Hf Hi Hc] Hstep. destruct Hstep as [r tasks next answers key now r' out Hb
    |r tasks next answers outcome out r' He|r tasks next answers id key r' Hid Hr
    |r tasks next answers id key result Hid|r tasks next answers id key result now r' outcome Hid Hr];
    cbn [rw_resolver rw_tasks rw_next rw_answers] in *.
  - assert (∀ i u, tasks !! i = Some u → i < next + 1) as Hi' by (intros i u ?%Hi; lia).
    unfold resolve_begin in Hb. destruct (fresh _ _ _); [simplify_eq; by split|].
    destruct (inflight (state r) !! key) as [l|] eqn:Hl; [simplify_eq; by split|]. simplify_eq.
    assert (tasks !! next = None) as Hnew.
    { destruct (tasks !! next) as [u|] eqn:Hu; [|done]. apply Hi in Hu. lia. }
    split; cbn [rw_resolver rw_tasks rw_next rw_answers state slots Resolver.ttl Resolver.inflight Resolver.cache]; [done| | | |done].
    + unfold running, count in *. rewrite total_new by done. cbn. lia.
    + intros k i. setoid_rewrite lookup_insert_Some. rewrite Hf. split.
      * intros [[<- <-]|[Hk [a Ha]]]; [by eexists; left|]. exists a. right. split; [|done]. naive_solver.
      * intros [a [[<- [= <- _]]|[Hne Ha]]]; [by left|]. right. split; [|by eexists].
        intros <-. assert (inflight (state r) !! key = Some i) by (apply Hf; by eexists). congruence.
    + intros i u [[<- _]|[_ Hu]]%lookup_insert_Some; [lia|]. by eapply Hi'.
  - assert (state r' = state r ∧ slots r' = slots r ∧ ttl r' = ttl r) as (E1 & E2 & E3).
    { unfold resolve_end in He. destruct (into_io outcome); [by simplify_eq|]. unfold rotated in He. by res_inv. }
    split; cbn; rewrite ?E1, ?E2, ?E3; done.
  - unfold lookup_start in Hr. destruct (try_acquire (slots r)) as [s|] eqn:Ha; [|done]. injection Hr as <-.
    apply try_acquire_Some in Ha. pose proof (total_replace (weight is_running) _ _ _ (mkTask key Running) Hid) as Hrun.
    split; cbn [rw_resolver rw_tasks rw_next rw_answers state slots Resolver.ttl]; [done| | | |done].
    + unfold running, count in *. cbn in Hrun. lia.
    + by apply (flight_replace _ _ _ _ Queued).
    + by apply (ids_replace _ _ (mkTask key Queued)).
  - pose proof (total_replace (weight is_running) _ _ _ (mkTask key (Returned result)) Hid) as Hrun.
    split; cbn [rw_resolver rw_tasks rw_next rw_answers lookup_return state slots Resolver.ttl]; [done| | | |done].
    + unfold running, count in *. cbn in Hrun. rewrite release_permit. lia.
    + by apply (flight_replace _ _ _ _ Running).
    + by apply (ids_replace _ _ (mkTask key Running)).
  - unfold lookup_store in Hr. res_inv. pose proof (total_delete (weight is_running) _ _ _ Hid) as Hrun.
    split; cbn [rw_resolver rw_tasks rw_next rw_answers state slots Resolver.ttl Resolver.inflight Resolver.cache]; [done| | | |].
    + unfold running, count in *. cbn in Hrun. lia.
    + intros k i. rewrite lookup_delete_Some, Hf. split.
      * intros [Hne [a Ha]]. exists a. apply lookup_delete_Some. split; [|done]. congruence.
      * intros [a [Hne Ha]%lookup_delete_Some]. split; [|by eexists]. intros <-.
        assert (inflight (state r) !! key = Some i) by (apply Hf; by eexists).
        assert (inflight (state r) !! key = Some id) by (apply Hf; by eexists). congruence.
    + intros i u [_ Hu]%lookup_delete_Some. by eapply Hi.
    + by eapply store_entries_ok.
Qed.

Lemma resolver_start_wf ttl0 max_concurrent w :
  resolver_start ttl0 max_concurrent = Ok w → resolver_wf ttl0 (max_concurrent `max` 1) w.
Proof.
  intros (r & (slots & Hs%sem_new_permits & [= <-])%bind_Ok & [= <-])%bind_Ok. split; cbn; try done.
  - rewrite Hs. unfold running, count. by rewrite total_empty, N.add_0_r.
  - intros key id. rewrite !lookup_empty. split; [done|]. by intros [].
Qed.
Lemma resolver_reachable_wf ttl0 max_concurrent w :
  resolver_reachable ttl0 max_concurrent w → resolver_wf ttl0 (max_concurrent `max` 1) w.
Proof.
  intros (start & Hs & Hw).
  refine (rtc_ind_r (R := resolver_step) (resolver_wf _ _) _ _ _ _ Hw); [by apply resolver_start_wf|by eauto using resolver_wf_step].
Qed.
(** What the critical section of [resolve] decides. *)
Lemma resolve_begin_ok ttl0 cap w key now id r' out :
  resolver_wf ttl0 cap w → resolve_begin (rw_resolver w) key now id = (r', out) →
  match out with
  | Cached (inr a) => a ≠ [] ∧ ∃ t, (key, a, t) ∈ rw_answers w ∧
      now < t + ttl0 + STALE_IF_ERROR + NEGATIVE_TTL
  | Cached (inl e) => e.1 = KNotFound
  | Join l => ∃ a, rw_tasks w !! l = Some (mkTask key a)
  | Start l => l = id ∧ ∀ l a, rw_tasks w !! l ≠ Some (mkTask key a)
  end.
Proof.
  intros [Ht Hs Hf Hi Hc]. unfold resolve_begin, fresh.
  destruct (cache (state (rw_resolver w)) !! key) as [e|] eqn:He; cbn [mbind option_bind].
  + destruct (N.ltb_spec now (fresh_until e)) as [Hnow|_].
    * intros [= <- <-]. destruct (addrs e) as [a|] eqn:Ha; [|done].
      destruct (Hc key e He a Ha) as (Hne & Hfr & t & Hin & Hst). split; [done|]. exists t.
      split; [done|]. unfold Instant in *. lia.
    * destruct (inflight (state (rw_resolver w)) !! key) as [l|] eqn:Hl; intros [= <- <-]; [by apply Hf|].
      split; [done|]. intros l a Hl'. assert (inflight (state (rw_resolver w)) !! key = Some l) by (apply Hf; eauto).
      congruence.
  + destruct (inflight (state (rw_resolver w)) !! key) as [l|] eqn:Hl; intros [= <- <-]; [by apply Hf|].
    split; [done|]. intros l a Hl'. assert (inflight (state (rw_resolver w)) !! key = Some l) by (apply Hf; eauto).
    congruence.
Qed.
End World.

(** C12: the resolver's contract.  In every reachable state there is at most
    one lookup per name and port, and at most [max_concurrent] (or one) blocking
    calls run; a caller is answered from the cache only with addresses that a
    lookup of that very key stored less than the TTL, the stale window and the
    negative TTL ago, never with an empty list, and otherwise joins the key's
    lookup or starts it when there is none; and a finished lookup answers with
    its own addresses, or when it failed with a last good answer within the
    stale window, or with an error. *)
Theorem resolver_contract `{SemaphoreSpec Sem free} ttl0 max_concurrent (w : World Sem) :
  resolver_reachable ttl0 max_concurrent w →
  (∀ id id' key a a', rw_tasks w !! id = Some (mkTask key a) → rw_tasks w !! id' = Some (mkTask key a') → id = id') ∧
  running (rw_tasks w) ≤ max_concurrent `max` 1 ∧
  (∀ key now id r' out, resolve_begin (rw_resolver w) key now id = (r', out) →
   match out with
   | Cached (inr a) => a ≠ [] ∧ ∃ t, (key, a, t) ∈ rw_answers w ∧
       now < t + ttl0 + STALE_IF_ERROR + NEGATIVE_TTL
   | Cached (inl e) => e.1 = KNotFound
   | Join l => ∃ a, rw_tasks w !! l = Some (mkTask key a)
   | Start l => l = id ∧ ∀ l a, rw_tasks w !! l ≠ Some (mkTask key a)
   end) ∧
  (∀ key result now r' a, lookup_store (rw_resolver w) key result now = Ok (r', inr a) →
   a ≠ [] ∧ (result = inr a ∨
     (result = inr [] ∨ ∃ e, result = inl e) ∧
     ∃ t, (key, a, t) ∈ rw_answers w ∧ now < t + ttl0 + STALE_IF_ERROR)).
Proof.
  intros Hw%(resolver_reachable_wf (free := free)). pose proof Hw as [Ht Hs Hf Hi Hc]. split_and!.
  - intros id id' key a a' Hid Hid'.
    assert (inflight (state (rw_resolver w)) !! key = Some id) by (apply Hf; by eexists).
    assert (inflight (state (rw_resolver w)) !! key = Some id') by (apply Hf; by eexists). congruence.
  - lia.
  - intros key now id r' out Hb. by eapply (resolve_begin_ok (free := free)).
  - intros key result now r' a Hst. unfold lookup_store in Hst.
    apply bind_Ok in Hst as ([c' o] & Hst & [= <- ->]). rewrite Ht in Hst. apply store_cases in Hst.
    assert (stored_failure key now (cache (state (rw_resolver w))) c' (inr a) →
      a ≠ [] ∧ ∃ t, (key, a, t) ∈ rw_answers w ∧ now < t + ttl0 + STALE_IF_ERROR) as Hfail.
    { intros (f & _ & [(a' & Ha & Hnow & [= <-] & _)|(_ & [e [=]] & _)]).
      destruct (prune now _ !! key) as [e0|] eqn:He0; cbn [from_option id] in Ha, Hnow; [|done].
      destruct (Hc key e0 (prune_lookup _ _ _ _ He0) a Ha) as (Hne & _ & t & Hin & Hst').
      split; [done|]. exists t. split; [done|]. unfold Instant in *. lia. }
    destruct result as [e|[|x l]].
    + destruct (Hfail Hst) as [Hne Hex]. split; [done|]. right. split; [right; by eexists|done].
    + destruct (Hfail Hst) as [Hne Hex]. split; [done|]. right. split; [by left|done].
    + destruct Hst as (f & s & _ & _ & [= ->] & _). split; [done|by left].
Qed.

(** ** Rotation *)

(** Rotation spreads connections.  Whatever the counter, [resolve] hands
    out all the addresses, once each, starting where the counter points and
    moving on by one per call, and never panics; so as many consecutive calls as
    there are addresses (until the counter wraps) try each of them first once. *)
Theorem rotated_spreads {Sem} (r : Resolver Sem) (l : list SocketAddr) :
  l ≠ [] →
  let start := rotation r mod len l in
  rotated r l = Ok (dropN start l ++ takeN start l,
    mkResolver (state r) (slots r) (ttl r) ((rotation r + 1) mod 2 ^ 64)) ∧
  dropN start l ++ takeN start l ≡ₚ l ∧
  head (dropN start l ++ takeN start l) = get start l ∧
  (λ i, get ((rotation r + N.of_nat i) mod len l) l) <$> seq 0 (length l) ≡ₚ Some <$> l.
Proof.
  intros Hne start. assert (0 < len l) as Hl by (destruct l; [done|len_lia]).
  assert (start < len l) as Hs by (apply N.mod_lt; lia).
  split_and!.
  - unfold rotated. rewrite N.max_l by lia. fold start. rewrite slice_from_Ok, slice_Ok by lia.
    cbn [mbind res_bind]. by rewrite N.sub_0_r, dropN_0.
  - rewrite Permutation_app_comm. by rewrite takeN_dropN.
  - rewrite (head_lookup (dropN start l ++ takeN start l)). unfold get, dropN.
    rewrite lookup_app_l; [by rewrite lookup_drop, Nat.add_0_r|]. rewrite length_drop. unfold len in *. lia.
  - transitivity (Some <$> (dropN start l ++ takeN start l)); [|by rewrite Permutation_app_comm, takeN_dropN].
    apply reflexive_eq, list_eq. intros i. rewrite !list_lookup_fmap.
    destruct (decide (i < length l)%nat) as [Hi|Hi].
    + rewrite lookup_seq_lt by done. cbn [fmap option_fmap option_map Nat.add].
      rewrite <- N.Div0.add_mod_idemp_l. fold start. unfold get, dropN, takeN.
      destruct (decide (start + N.of_nat i < len l)) as [Hlt|Hge].
      * rewrite N.mod_small by done. rewrite lookup_app_l by (rewrite length_drop; unfold len in *; lia).
        rewrite lookup_drop. replace (N.to_nat (start + N.of_nat i)) with (N.to_nat start + i)%nat by lia.
        destruct (lookup_lt_is_Some_2 l (N.to_nat start + i)) as [x ->]; [unfold len in *; lia|done].
      * replace ((start + N.of_nat i) mod len l) with (start + N.of_nat i - len l).
        2: { apply (N.mod_unique _ _ 1); unfold len in *; lia. }
        rewrite lookup_app_r by (rewrite length_drop; unfold len in *; lia). rewrite length_drop.
        rewrite lookup_take_lt by (unfold len in *; lia).
        replace (N.to_nat (start + N.of_nat i - len l)) with (i - (length l - N.to_nat start))%nat by (unfold len in *; lia).
        destruct (lookup_lt_is_Some_2 l (i - (length l - N.to_nat start))) as [x ->]; [unfold len in *; lia|done].
    + rewrite lookup_seq_ge by lia. rewrite lookup_ge_None_2; [done|].
      unfold dropN, takeN. rewrite length_app, length_drop, length_take. lia.
Qed.
Lemma rotated_spreads_witness :
  let l := [(V4 10 0 0 1, 443); (V4 10 0 0 2, 443)] in
  rotated (mkResolver State_default (5 : N) 0 5) l =
    Ok ([(V4 10 0 0 2, 443); (V4 10 0 0 1, 443)], mkResolver State_default (5 : N) 0 6).
Proof.
  exact (proj1 (rotated_spreads (mkResolver State_default (5 : N) 0 5)
    [(V4 10 0 0 1, 443); (V4 10 0 0 2, 443)] ltac:(discriminate))).
Defined.

(** ** An example run: a name resolved, its entry expired, its lookup failing *)
Definition example_key : Key := (lit "backend", 443).
Definition example_addrs : list SocketAddr := [(V4 10 0 0 1, 443)].
Definition dns_error : io_error := mkIoError (KAny 11) (lit "temporary failure").

(** The cache after an answer at [t] and a failure at [t'], with TTL zero. *)
Definition answered_then_failed (t t' : Instant) : section (gmap Key Entry * Outcome) :=
  '(c, _) ← store 0 ∅ example_key (inr example_addrs) t;
  store 0 c example_key (inl dns_error) t'.

Lemma resolve_begin_cached `{Semaphore Sem} (r : Resolver Sem) key now id out :
  fresh (cache (state r)) key now = Some out → resolve_begin r key now id = (r, Cached out).
Proof. unfold resolve_begin. by intros ->. Qed.

(** A lookup from its start to its answer, with a TTL of 30 seconds. *)
Lemma example_resolver_run :
  ∃ w : World N, resolver_reachable (from_secs 30) 64 w ∧
    resolve_begin (rw_resolver w) example_key 5 9 = (rw_resolver w, Cached (inr example_addrs)).
Proof.
  eexists. split.
  - eexists. split; [reflexivity|]. eapply rtc_l; [eapply (step_begin _ _ _ _ example_key 0); reflexivity|].
    eapply rtc_l; [eapply (step_start _ _ _ _ 0 example_key); reflexivity|].
    eapply rtc_l; [eapply (step_return _ _ _ _ 0 example_key (inr example_addrs)); reflexivity|].
    eapply rtc_l; [eapply (step_store _ _ _ _ 0 example_key (inr example_addrs) 1); reflexivity|].
    apply rtc_refl.
  - apply resolve_begin_cached. vm_compute. reflexivity.
Qed.
Lemma resolver_contract_witness :
  ∃ w : World N, running (rw_tasks w) ≤ 64 ∧
    ∃ t, (example_key, example_addrs, t) ∈ rw_answers w ∧
      5 < t + from_secs 30 + STALE_IF_ERROR + NEGATIVE_TTL.
Proof.
  destruct example_resolver_run as (w & Hw & Hb). exists w.
  destruct (resolver_contract (from_secs 30) 64 w Hw) as (_ & Hrun & Hres & _).
  split; [exact Hrun|]. exact (proj2 (Hres _ _ _ _ _ Hb)).
Defined.

(** The stale window is not the end of a stale answer.  [stale_until] is
    meant to bound how long an answer may be used when re-resolving fails, but a
    failure just inside the window makes the answer fresh again for
    [NEGATIVE_TTL]: with a TTL of zero, an answer stored at time 0 is used at
    60.5 seconds without asking again, though its window ended at 60. *)
Theorem stale_answer_outlives_window :
  let failed_at := from_millis 59900 in
  let later_on := from_millis 60500 in
  match answered_then_failed 0 failed_at with
  | Ok (c, _) =>
    (e ← c !! example_key; Some (stale_until e)) = Some (from_secs 60) ∧ from_secs 60 < later_on ∧
    fresh c example_key later_on = Some (inr example_addrs)
  | _ => False
  end.
Proof.
  vm_compute. split_and!; reflexivity.
Qed.
