(* ===== verification/Connection.v ===== *)
(** * One connection's pipeline ([delivery/connection.rs], [delivery/mod.rs])

    ClientHello, route, upstream connect and replay, proxy gate, proxy.  The
    pipeline is a program over the answers it awaits: a term of [prog] stops
    at every point where the code waits, reads the clock, records a metric or
    touches what other tasks share, with what it does next as a continuation.
    Who answers is said by the worlds that run it. *)

From S2P Require Import Prelude Async Str Net Names Lookup Routing Protocol Reader Hello Records.
From S2P Require Import Framing Builder Parser HelloReader Metrics Gate Metered Splice SpliceProofs.
From S2P Require Import Proxy.

(** ** Configuration *)
Record RouterConfig := mkRouterConfig {
  client_hello_timeout : Duration;
  lookup_timeout : Duration;
  upstream_timeout : Duration;
  idle_timeout : option Duration;
  hello_limits : HelloLimits;
  max_connections : N;
  shutdown_grace : Duration;
  dns_cache_ttl : Duration;
  max_concurrent_dns_lookups : N;
  copy_buffer_size : N;
}.
Definition RouterConfig_default : RouterConfig := {|
  client_hello_timeout := from_secs 5;
  lookup_timeout := from_secs 2;
  upstream_timeout := from_secs 5;
  idle_timeout := Some (from_secs (30 * 60));
  hello_limits := HelloLimits.default;
  max_connections := 10000;
  shutdown_grace := from_secs 30;
  dns_cache_ttl := from_secs 30;
  max_concurrent_dns_lookups := 64;
  copy_buffer_size := 32 * 1024;
|}.
Definition ALERT_WRITE_TIMEOUT : Duration := from_secs 1.
Definition MIN_COPY_BUFFER : N := 512.

(** ** Connecting upstream

    The network as the code sees it: what each call answers. *)
Record Net (Up : Type) := mkNet {
  tcp_connect : SocketAddr → io_error + Up;
  set_nodelay : Up → io_error + unit;
  write_all : Up → bytes → io_error + Up;
  resolve : bytes → N → io_error + list SocketAddr;
}.
Arguments tcp_connect {Up} _ _.
Arguments set_nodelay {Up} _ _.
Arguments write_all {Up} _ _ _.
Arguments resolve {Up} _ _ _.

Section Connect.
Context {Up : Type} (net : Net Up).

Definition no_addresses : io_error := mkIoError KNotFound (lit "no addresses to connect to").

Fixpoint connect_loop (last_error : option io_error) (addrs : list SocketAddr) : io_error + Up :=
  match addrs with
  | [] => inl (default no_addresses last_error)
  | addr :: addrs =>
    match tcp_connect net addr with
    | inr stream => inr stream
    | inl error => connect_loop (Some error) addrs
    end
  end.
Definition connect_any (addrs : list SocketAddr) : io_error + Up := connect_loop None addrs.

Definition connect_and_replay (backend : Backend) (buffered : bytes) : io_error + Up :=
  let port := backend_port backend in
  let connected :=
    match backend_host backend with
    | Ip ip => tcp_connect net (ip, port)
    | Dns name =>
      match resolve net name port with
      | inl error => inl error
      | inr addrs => connect_any addrs
      end
    end in
  match connected with
  | inl error => inl error
  | inr stream =>
    match set_nodelay net stream with
    | inl error => inl error
    | inr _ => write_all net stream buffered
    end
  end.
End Connect.

(** The biased [select!] on the cancel token: [None] while it waits,
    [Some None] when the token fired. *)
Definition cancellable {A} (cancelled : bool) (future : option A) : option (option A) :=
  if cancelled then Some None else Some <$> future.

Definition lookup_outcome {A} (resolved : res RouteError A) : LookupOutcome :=
  match resolved with
  | Ok _ => OutcomeFound
  | Err RouteNotFound => OutcomeNotFound
  | Err (RouteLookupFailed _) => OutcomeError
  | Err RouteTimeout => OutcomeTimeout
  | Stuck _ => OutcomeError
  end.

(** ** The pipeline *)
Section Pipeline.
Context {Up : Type}.

Inductive prog :=
| Ret (outcome : ConnectionOutcome)
| Panic
| Now (k : Instant → prog)
| Emit (event : MetricEvent) (k : prog)
| LogSni (host : Hostname) (k : prog)
| LogBackend (backend : Backend) (k : prog)
| Touch (k : prog)
| AwaitHello (k : option (option (res HelloReadError (bytes * ClientHelloInfo))) → prog)
| AwaitAlert (k : option (option (io_error + unit)) → prog)
| AwaitRoute (host : Hostname) (k : option (res RouteError RouteMatch) → prog)
| AwaitConnect (backend : Backend) (buffered : bytes) (k : option (option (io_error + Up)) → prog)
| Enter (k : bool → prog)
| AwaitProxy (upstream : Up) (buffer_size : N) (k : ProxyEnd → prog).

Context (config : RouterConfig) (listener : ListenerInfo).

(** The alert and the close, bounded and cancellable; their result is ignored. *)
Definition reject_unrecognized_name (k : prog) : prog := AwaitAlert (λ _, k).

Definition run_proxy (upstream : Up) : prog :=
  Enter (λ pass,
    if negb pass then Ret ShutdownCancelled
    else
      let proxying := AwaitProxy upstream (copy_buffer_size config `max` MIN_COPY_BUFFER) (λ end_,
        match end_ with
        | ProxyFinished => Ret Proxied
        | ProxyError _ => Ret ProxyErrorOutcome
        | ProxyIdle => Ret IdleTimeout
        | ProxyForced => Ret ShutdownForced
        end) in
      match idle_timeout config with Some _ => Touch proxying | None => proxying end).

Definition run_upstream (route : RouteMatch) (buffered : bytes) : prog :=
  LogBackend (match_backend route)
  (Now (λ upstream_start,
   AwaitConnect (match_backend route) buffered (λ connected,
     match connected with
     | None => Ret ShutdownCancelled
     | Some connected =>
       Now (λ t,
       Emit (UpstreamConnect listener (match connected with Some (inr _) => true | _ => false end)
         (duration_since t upstream_start))
       (match connected with
        | Some (inr upstream) => run_proxy upstream
        | Some (inl _) => Ret UpstreamConnectFailed
        | None => Ret UpstreamTimeout
        end))
     end))).

Definition run_route (host : Hostname) (buffered : bytes) : prog :=
  LogSni host
  (Now (λ lookup_start,
   AwaitRoute host (λ resolved,
     match resolved with
     | None => Ret ShutdownCancelled
     | Some (Stuck _) => Panic
     | Some resolved =>
       Now (λ t,
       Emit (RouteLookupEvent listener (lookup_outcome resolved) (duration_since t lookup_start))
       (match resolved with
        | Ok route => run_upstream route buffered
        | Err RouteNotFound => reject_unrecognized_name (Ret UnknownHost)
        | Err (RouteLookupFailed _) => Ret LookupFailed
        | Err RouteTimeout => Ret LookupTimeout
        | Stuck _ => Panic
        end))
     end))).

Definition run : prog :=
  AwaitHello (λ read,
    match read with
    | None => Ret ShutdownCancelled
    | Some None => Ret HelloTimeout
    | Some (Some (Err (HelloParse _))) => Ret InvalidHello
    | Some (Some (Err HelloClosed)) => Ret ClientClosed
    | Some (Some (Err (HelloIo _))) => Ret ClientClosed
    | Some (Some (Stuck _)) => Panic
    | Some (Some (Ok (buffered, hello))) =>
      match sni hello with
      | None => reject_unrecognized_name (Ret MissingSni)
      | Some host => run_route host buffered
      end
    end).
End Pipeline.
Arguments prog _ : clear implicits.

(** ** The close record *)
Record ConnectionRecord := mkConnectionRecord {
  cr_listener : ListenerInfo;
  cr_start : Instant;
  cr_bytes : ByteCounters;
  cr_outcome : option ConnectionOutcome;
  cr_sni : option Hostname;
  cr_backend : option Backend;
}.

(** [Drop for ConnectionRecord]: the metrics it records. *)
Definition drop_record (now : Instant) (r : ConnectionRecord) : list MetricEvent :=
  let outcome := default Aborted (cr_outcome r) in
  let lifetime := duration_since now (cr_start r) in
  let '(read, written) := ByteCounters.totals (cr_bytes r) in
  (if 0 <? read then [BytesRead (cr_listener r) read] else []) ++
  (if 0 <? written then [BytesWritten (cr_listener r) written] else []) ++
  [ConnectionClosed (cr_listener r) outcome lifetime].

(** [handle_connection] up to [run]: the metrics it records and the record it
    makes; and after it. *)
Definition handle_connection (now : Instant) (listener : ListenerInfo) : list MetricEvent * ConnectionRecord :=
  ([ConnectionOpened listener], mkConnectionRecord listener now ByteCounters.default None None None).
Definition close_connection (outcome : ConnectionOutcome) (r : ConnectionRecord) : ConnectionRecord :=
  mkConnectionRecord (cr_listener r) (cr_start r) (cr_bytes r) (Some outcome) (cr_sni r) (cr_backend r).
