(* ===== verification/Pipeline.v ===== *)
(** * One connection's pipeline: what a run of it can do

    The actions of a pipeline, its runs as a step relation, a way to prove
    facts about every run, and the facts: the upstream a connection is proxied
    to, the outcome it closes with, and the metrics it records. *)

From S2P Require Import Prelude Async Str Net Names Lookup Routing Protocol Reader Hello Records.
From S2P Require Import Framing Builder Parser HelloReader Metrics Gate Metered Splice SpliceProofs.
From S2P Require Import Proxy Connection.

(** ** Connecting and replaying *)

(** The documented behaviour of TCP: a new connection goes to the address asked
    for and has carried nothing; [write_all] succeeds when all was written. *)
Class NetSpec {Up} (net : Net Up) (peer : Up → SocketAddr) (sent : Up → bytes) := {
  connect_fresh addr u : tcp_connect net addr = inr u → peer u = addr ∧ sent u = [];
  write_all_sends u data u' : write_all net u data = inr u' → peer u' = peer u ∧ sent u' = sent u ++ data;
}.

Lemma connect_loop_spec {Up} (net : Net Up) last addrs :
  match connect_loop net last addrs with
  | inr u => ∃ l1 a l2, addrs = l1 ++ a :: l2 ∧ tcp_connect net a = inr u ∧
      Forall (λ x, ∃ e, tcp_connect net x = inl e) l1
  | inl e => Forall (λ x, ∃ e, tcp_connect net x = inl e) addrs ∧
      match list.last addrs with
      | Some a => tcp_connect net a = inl e
      | None => e = default no_addresses last
      end
  end.
Proof.
  revert last. induction addrs as [|a addrs IH]; intros last; cbn [connect_loop]; [done|].
  destruct (tcp_connect net a) as [e|u] eqn:Ha; [|by exists [], a, addrs].
  specialize (IH (Some e)). destruct (connect_loop net (Some e) addrs) as [e'|u].
  - destruct IH as [Hall Hlast]. split; [by eauto|].
    rewrite last_cons. destruct (list.last addrs); [done|]. cbn in Hlast. congruence.
  - destruct IH as (l1 & a' & l2 & -> & Hu & Hall). exists (a :: l1), a', l2. eauto.
Qed.

(** C27: connect and replay.  On success the upstream is the backend's address,
    or the first address of its name that accepts a connection, and it has been
    sent exactly the buffered bytes; when every address refuses, the error is
    the last one's. *)
Theorem connect_and_replay_exact `{NetSpec Up net peer sent} backend buffered :
  match connect_and_replay net backend buffered with
  | inr u => sent u = buffered ∧
      match backend_host backend with
      | Ip ip => peer u = (ip, backend_port backend)
      | Dns name => ∃ l1 l2, resolve net name (backend_port backend) = inr (l1 ++ peer u :: l2) ∧
          Forall (λ a, ∃ e, tcp_connect net a = inl e) l1
      end
  | inl e => ∀ name addrs, backend_host backend = Dns name →
      resolve net name (backend_port backend) = inr addrs →
      Forall (λ a, ∃ e, tcp_connect net a = inl e) addrs →
      match last addrs with Some a => tcp_connect net a = inl e | None => e = no_addresses end
  end.
Proof.
  unfold connect_and_replay. destruct (backend_host backend) as [ip|name].
  - destruct (tcp_connect net (ip, backend_port backend)) as [e|u] eqn:Hu; [done|].
    destruct (set_nodelay net u); [done|]. destruct (write_all net u buffered) as [e|u'] eqn:Hw; [done|].
    apply connect_fresh in Hu as [Hp Hs]. apply write_all_sends in Hw as [-> ->]. by rewrite Hs, Hp.
  - destruct (resolve net name (backend_port backend)) as [e|addrs] eqn:Hr; [by intros ? ? [= <-]; rewrite Hr|].
    unfold connect_any. pose proof (connect_loop_spec net None addrs) as Hloop.
    destruct (connect_loop net None addrs) as [e|u].
    + intros ? ? [= <-]. rewrite Hr. intros [= <-] _. by destruct Hloop.
    + destruct Hloop as (l1 & a & l2 & -> & Hu & Hall).
      assert (∀ A (x : A), Forall (λ a, ∃ e, tcp_connect net a = inl e) (l1 ++ a :: l2) → False) as Hno.
      { intros _ _ [_ [[e He] _]%Forall_cons]%Forall_app. congruence. }
      destruct (set_nodelay net u); [intros ? ? [= <-]; rewrite Hr; intros [= <-] Hf; by destruct (Hno _ tt)|].
      destruct (write_all net u buffered) as [e|u'] eqn:Hw; [intros ? ? [= <-]; rewrite Hr; intros [= <-] Hf; by destruct (Hno _ tt)|].
      apply connect_fresh in Hu as [Hp Hs]. apply write_all_sends in Hw as [-> ->]. rewrite Hs, Hp.
      split; [done|]. by exists l1, l2.
Qed.

(** A network for examples: only one name resolves, only one address answers, and
    a connection is its peer and what it carried. *)
Definition example_net (up : SocketAddr) (addrs : list SocketAddr) : Net (SocketAddr * bytes) := {|
  tcp_connect a := if decide (a = up) then inr (a, []) else inl (mkIoError KOther (lit "refused"));
  set_nodelay _ := inr ();
  write_all u data := inr (u.1, u.2 ++ data);
  resolve name port := if decide ((name, port) = (lit "b", 443)) then inr addrs else inl no_addresses;
|}.
#[global] Instance example_net_spec up addrs : NetSpec (example_net up addrs) fst snd.
Proof.
  split; cbn; intros.
  - case_decide; simplify_eq. done.
  - by simplify_eq.
Qed.
Lemma connect_and_replay_exact_witness :
  let u := ((V4 10 0 0 2, 443), lit "hello") in
  connect_and_replay (example_net (V4 10 0 0 2, 443) [(V4 10 0 0 1, 443); (V4 10 0 0 2, 443)])
    (mkBackend (Dns (lit "b")) 443) (lit "hello") = inr u ∧ u.2 = lit "hello".
Proof.
  intros u.
  pose proof (connect_and_replay_exact (net := example_net (V4 10 0 0 2, 443) [(V4 10 0 0 1, 443); (V4 10 0 0 2, 443)])
    (mkBackend (Dns (lit "b")) 443) (lit "hello")) as Hc.
  assert (connect_and_replay (example_net (V4 10 0 0 2, 443) [(V4 10 0 0 1, 443); (V4 10 0 0 2, 443)])
    (mkBackend (Dns (lit "b")) 443) (lit "hello") = inr u) as He by (vm_compute; reflexivity).
  rewrite He in Hc. split; [exact He|exact (proj1 Hc)].
Defined.

(** ** Runs *)
Section Runs.
Context {Up : Type}.
Implicit Types p : prog Up.

(** What a pipeline did: the answer it got, or what it told others. *)
Inductive Act :=
| DidNow (t : Instant)
| DidEmit (event : MetricEvent)
| DidLogSni (host : Hostname)
| DidLogBackend (backend : Backend)
| DidTouch
| DidHello (x : option (option (res HelloReadError (bytes * ClientHelloInfo))))
| DidAlert (x : option (option (io_error + unit)))
| DidRoute (host : Hostname) (x : option (res RouteError RouteMatch))
| DidConnect (backend : Backend) (buffered : bytes) (x : option (option (io_error + Up)))
| DidEnter (pass : bool)
| DidProxy (upstream : Up) (buffer_size : N) (end_ : ProxyEnd).

Inductive prog_step : prog Up → Act → prog Up → Prop :=
| ps_now k t : prog_step (Now k) (DidNow t) (k t)
| ps_emit e k : prog_step (Emit e k) (DidEmit e) k
| ps_sni h k : prog_step (LogSni h k) (DidLogSni h) k
| ps_backend b k : prog_step (LogBackend b k) (DidLogBackend b) k
| ps_touch k : prog_step (Touch k) DidTouch k
| ps_hello k x : prog_step (AwaitHello k) (DidHello x) (k x)
| ps_alert k x : prog_step (AwaitAlert k) (DidAlert x) (k x)
| ps_route h k x : prog_step (AwaitRoute h k) (DidRoute h x) (k x)
| ps_connect b d k x : prog_step (AwaitConnect b d k) (DidConnect b d x) (k x)
| ps_enter k b : prog_step (Enter k) (DidEnter b) (k b)
| ps_proxy u n k e : prog_step (AwaitProxy u n k) (DidProxy u n e) (k e).

Inductive trace : prog Up → list Act → prog Up → Prop :=
| trace_nil p : trace p [] p
| trace_cons p a p1 l p2 : prog_step p a p1 → trace p1 l p2 → trace p (a :: l) p2.

Lemma trace_snoc p l p1 a p2 : trace p l p1 → prog_step p1 a p2 → trace p (l ++ [a]) p2.
Proof. induction 1; intros Hs; cbn; econstructor; eauto using trace. Qed.

(** Every state a run passes through: [R] holds of what was done so far and what
    is left. *)
Fixpoint always (R : list Act → prog Up → Prop) (done : list Act) (p : prog Up) : Prop :=
  R done p ∧
  match p with
  | Ret _ | Panic => True
  | Now k => ∀ t, always R (done ++ [DidNow t]) (k t)
  | Emit e k => always R (done ++ [DidEmit e]) k
  | LogSni h k => always R (done ++ [DidLogSni h]) k
  | LogBackend b k => always R (done ++ [DidLogBackend b]) k
  | Touch k => always R (done ++ [DidTouch]) k
  | AwaitHello k => ∀ x, always R (done ++ [DidHello x]) (k x)
  | AwaitAlert k => ∀ x, always R (done ++ [DidAlert x]) (k x)
  | AwaitRoute h k => ∀ x, always R (done ++ [DidRoute h x]) (k x)
  | AwaitConnect b d k => ∀ x, always R (done ++ [DidConnect b d x]) (k x)
  | Enter k => ∀ b, always R (done ++ [DidEnter b]) (k b)
  | AwaitProxy u n k => ∀ e, always R (done ++ [DidProxy u n e]) (k e)
  end.

Lemma always_here R done p : always R done p → R done p.
Proof. by destruct p; intros [? _]. Qed.
Lemma always_trace R done p l p' : always R done p → trace p l p' → R (done ++ l) p'.
Proof.
  intros Ha Ht. revert done Ha. induction Ht as [p|p a p1 l p2 Hs _ IH]; intros done Ha.
  - rewrite app_nil_r. by apply always_here.
  - specialize (IH (done ++ [a])). rewrite <- app_assoc in IH. apply IH.
    destruct Hs; destruct Ha as [_ Ha]; apply Ha.
Qed.

(** ** What every run of the pipeline satisfies *)

(** The outcome an answer decides, if it decides one: the table of a run's
    decisive answers. *)
Definition verdict (a : Act) : option ConnectionOutcome :=
  match a with
  | DidHello None | DidRoute _ None | DidConnect _ _ None | DidEnter false => Some ShutdownCancelled
  | DidHello (Some None) => Some HelloTimeout
  | DidHello (Some (Some (Err (HelloParse _)))) => Some InvalidHello
  | DidHello (Some (Some (Err _))) => Some ClientClosed
  | DidHello (Some (Some (Ok (_, info)))) => match sni info with None => Some MissingSni | Some _ => None end
  | DidRoute _ (Some (Err RouteNotFound)) => Some UnknownHost
  | DidRoute _ (Some (Err (RouteLookupFailed _))) => Some LookupFailed
  | DidRoute _ (Some (Err RouteTimeout)) => Some LookupTimeout
  | DidConnect _ _ (Some None) => Some UpstreamTimeout
  | DidConnect _ _ (Some (Some (inl _))) => Some UpstreamConnectFailed
  | DidProxy _ _ ProxyFinished => Some Proxied
  | DidProxy _ _ (ProxyError _) => Some ProxyErrorOutcome
  | DidProxy _ _ ProxyIdle => Some IdleTimeout
  | DidProxy _ _ ProxyForced => Some ShutdownForced
  | _ => None
  end.
Definition verdicts (done : list Act) : list ConnectionOutcome := omap verdict done.

(** A call that panicked instead of answering. *)
Definition panicked (a : Act) : bool :=
  match a with
  | DidHello (Some (Some (Stuck _))) | DidRoute _ (Some (Stuck _)) => true
  | _ => false
  end.

(** The metrics of a run, without their timings: a lookup's when it was not
    cancelled, an upstream connect's when it was not cancelled. *)
Inductive Mark := MarkLookup (o : LookupOutcome) | MarkUpstream (ok : bool).
Definition emitted (a : Act) : option Mark :=
  match a with
  | DidEmit (RouteLookupEvent _ o _) => Some (MarkLookup o)
  | DidEmit (UpstreamConnect _ ok _) => Some (MarkUpstream ok)
  | _ => None
  end.
Definition earned (a : Act) : option Mark :=
  match a with
  | DidRoute _ (Some (Stuck _)) => None
  | DidRoute _ (Some r) => Some (MarkLookup (lookup_outcome r))
  | DidConnect _ _ (Some x) => Some (MarkUpstream match x with Some (inr _) => true | _ => false end)
  | _ => None
  end.

(** The upstream a connection is proxied to was chosen for its own hello. *)
Definition routed (done : list Act) (u : Up) : Prop :=
  ∃ buffered info host m,
    DidHello (Some (Some (Ok (buffered, info)))) ∈ done ∧ sni info = Some host ∧
    DidRoute host (Some (Ok m)) ∈ done ∧
    DidConnect (match_backend m) buffered (Some (Some (inr u))) ∈ done.

Definition is_await p : bool :=
  match p with AwaitHello _ | AwaitAlert _ | AwaitRoute _ _ | AwaitConnect _ _ _ => true | _ => false end.

(** Membership in the actions of a run, one by one. *)
Ltac done_cases H :=
  rewrite ?elem_of_app, ?elem_of_cons, ?elem_of_nil in H;
  repeat match type of H with
  | _ ∨ _ => destruct H as [H|H]
  | False => destruct H
  end; try discriminate H.

Record run_ok (config : RouterConfig) (listener : ListenerInfo) (done : list Act) p : Prop := {
  run_ret o : p = Ret o → verdicts done = [o] ∧ omap emitted done = omap earned done;
  run_panic : p = Panic → List.filter panicked done ≠ [];
  run_events e : DidEmit e ∈ done →
    (∃ o d, e = RouteLookupEvent listener o d) ∨ (∃ ok d, e = UpstreamConnect listener ok d);
  run_proxies u n k : p = AwaitProxy u n k →
    routed done u ∧ n = copy_buffer_size config `max` MIN_COPY_BUFFER ∧ DidEnter true ∈ done;
  run_unpassed : is_await p = true ∨ (∃ k, p = Enter k) → DidEnter true ∉ done;
  run_length : (length done ≤ 14)%nat;
}.

Ltac run_node :=
  split; cbn [app];
  [ intros ? Heq; try discriminate Heq; injection Heq as <-;
    unfold verdicts; cbn; repeat match goal with Hs : sni _ = _ |- _ => rewrite Hs end; split; reflexivity
  | intros Heq; try discriminate Heq; cbn; discriminate
  | let He := fresh in intros ? He; done_cases He; injection He as ->; eauto
  | intros ? ? ? Heq; try discriminate Heq
  | let He := fresh in intros Hawait He; done_cases He; destruct Hawait as [Hf|[? Hf]]; discriminate Hf
  | cbn; lia ].
(** One node of the walk over every run. *)
Ltac run_walk := cbn [always app run_route run_upstream run_proxy reject_unrecognized_name];
  split; [run_node|try exact I; intros].

Ltac in_done := repeat (apply elem_of_cons; first [left; reflexivity | right]).

Lemma upstream_always config listener buffered info host t route t' :
  sni info = Some host →
  always (run_ok config listener)
    [DidHello (Some (Some (Ok (buffered, info)))); DidLogSni host; DidNow t; DidRoute host (Some (Ok route));
     DidNow t'; DidEmit (RouteLookupEvent listener OutcomeFound (duration_since t' t))]
    (run_upstream config listener route buffered).
Proof.
  intros Hsni. do 3 run_walk. destruct x as [[[error|upstream]|]|]; [do 3 run_walk| |do 3 run_walk|run_walk].
  do 3 run_walk. destruct b; [|run_walk]. cbn [negb].
  destruct (idle_timeout config); [run_walk|];
    (run_walk; [injection Heq as <- <- _; split_and!; [exists buffered, info, host, route; split_and!; [in_done|done|in_done|in_done]|done|in_done]|]);
    (destruct e; run_walk).
Qed.

Lemma run_always config listener : always (run_ok config listener) [] (run config listener).
Proof.
  unfold run. run_walk. destruct x as [[[[buffered info]|[]|]|]|]; [|run_walk..].
  destruct (sni info) as [host|] eqn:Hsni; [|do 2 run_walk].
  do 3 run_walk. destruct x as [[route|[]|]|]; [|do 4 run_walk|do 3 run_walk|do 3 run_walk|run_walk|run_walk].
  do 2 run_walk. by apply upstream_always.
Qed.
End Runs.

(** C17: what a connection's run can do.  Every run of the pipeline takes at most
    fourteen steps; when it finishes, exactly one of its answers decided, and
    the outcome is the one the table gives that answer; its lookup and upstream
    metrics are exactly those its answers earned, under its own listener; it
    only panics when a call it made did; it is proxied only to an upstream that
    was connected and sent the hello for the route of its own SNI, after it
    passed the gate, with a copy buffer of at least 512 bytes. *)
Theorem run_outcome {Up} config listener done (p : prog Up) :
  trace (run config listener) done p →
  (length done ≤ 14)%nat ∧
  (∀ o, p = Ret o → verdicts done = [o] ∧ omap emitted done = omap earned done) ∧
  (p = Panic → ∃ a, a ∈ done ∧ panicked a = true) ∧
  (∀ e, DidEmit e ∈ done →
     (∃ o d, e = RouteLookupEvent listener o d) ∨ (∃ ok d, e = UpstreamConnect listener ok d)) ∧
  (∀ u n k, p = AwaitProxy u n k → routed done u ∧ 512 ≤ n ∧ DidEnter true ∈ done).
Proof.
  intros Ht%(always_trace _ [] _ _ _ (run_always config listener)). cbn [app] in Ht.
  destruct Ht as [Hret Hpanic He Hp _ Hl]. split_and!; [done|done| |done|].
  - intros Hp'%Hpanic. destruct (List.filter panicked done) as [|a l] eqn:Hf; [done|].
    exists a. assert (In a (List.filter panicked done)) as [Ha Hb]%filter_In by (rewrite Hf; by left).
    split; [by apply list_elem_of_In|done].
  - intros u n k (Hr & -> & Hd)%Hp. split_and!; [done| |done]. unfold MIN_COPY_BUFFER. lia.
Qed.

(** ** End to end

    Answers that come from the code they stand for: the client's [stream], a
    state [l] of the route lookup, a behaviour [net] of the network. *)
Section EndToEnd.
Context `{AsyncRead Src, RouteLookup L, Timeout} {Up : Type}.
Context (config : RouterConfig) (stream : Src) (lookups : L → Prop) (nets : Net Up → Prop).

Definition hello_answer (r : res HelloReadError (bytes * ClientHelloInfo * Src)) :
    res HelloReadError (bytes * ClientHelloInfo) :=
  match r with Ok (buffered, info, _) => Ok (buffered, info) | Err e => Err e | Stuck s => Stuck s end.

Definition honest (a : Act (Up := Up)) : Prop :=
  match a with
  | DidHello (Some (Some r)) => r = hello_answer (read_client_hello stream (hello_limits config))
  | DidRoute host (Some r) => ∃ l, lookups l ∧ r = resolve_route l host (lookup_timeout config)
  | DidConnect backend buffered (Some (Some r)) => ∃ net, nets net ∧ r = connect_and_replay net backend buffered
  | _ => True
  end.
End EndToEnd.

(** The address of a backend: its own, or one its name resolves to. *)
Definition backend_address {Up} (net : Net Up) (b : Backend) (addr : SocketAddr) : Prop :=
  match backend_host b with
  | Ip ip => addr = (ip, backend_port b)
  | Dns name => ∃ addrs, resolve net name (backend_port b) = inr addrs ∧ addr ∈ addrs
  end.

Lemma connect_and_replay_Ok `{NetSpec Up net peer sent} b buffered u :
  connect_and_replay net b buffered = inr u → sent u = buffered ∧ backend_address net b (peer u).
Proof.
  unfold connect_and_replay, backend_address.
  assert (∀ v, set_nodelay net v = set_nodelay net v → match set_nodelay net v with inl e => inl e
    | inr _ => write_all net v buffered end = inr u → peer u = peer v ∧ sent u = sent v ++ buffered) as Hw.
  { intros v _. destruct (set_nodelay net v); [done|]. by apply write_all_sends. }
  destruct (backend_host b) as [ip|name].
  - destruct (tcp_connect net (ip, backend_port b)) as [e|v] eqn:Hv; [done|].
    intros [-> ->]%(Hw v eq_refl). apply connect_fresh in Hv as [-> ->]. done.
  - destruct (resolve net name (backend_port b)) as [e|addrs] eqn:Hr; [done|]. unfold connect_any.
    pose proof (connect_loop_spec net None addrs) as Hloop. destruct (connect_loop net None addrs) as [e|v]; [done|].
    destruct Hloop as (l1 & a & l2 & -> & Hv & _). intros [-> ->]%(Hw v eq_refl).
    apply connect_fresh in Hv as [-> ->]. split; [done|]. eexists. split; [done|]. set_solver.
Qed.

(** What had been read when the hello was complete went to the upstream, byte
    for byte: what the read loop returns, which ends with the hello or after it,
    and leaves the rest of the client's bytes in the stream. *)
Definition replayed `{AsyncRead Src} (content : Src → bytes) (limits : HelloLimits) (stream : Src)
    (sent : bytes) (info : ClientHelloInfo) (rest : Src) : Prop :=
  read_client_hello stream limits = Ok (sent, info, rest) ∧ sent ++ content rest = content stream ∧
  consumed info ≤ len sent.

(** Where a proxied connection goes, by the answers of its run. *)
Lemma proxied_answers `{ByteSource Src content, RouteLookup L, TimeoutSpec}
    {Up} (peer : Up → SocketAddr) (sent : Up → bytes) config listener (stream : Src)
    (lookups : L → Prop) (nets : Net Up → Prop) done u n k :
  wire_bound (hello_limits config) ≤ isize_max →
  (∀ net, nets net → NetSpec net peer sent) →
  trace (run config listener) done (AwaitProxy u n k) →
  Forall (honest config stream lookups nets) done →
  ∃ info host m l net rest,
    hello_result (hello_limits config) (content stream) = Ok info ∧ sni info = Some host ∧
    lookups l ∧ resolve_route l host (lookup_timeout config) = Ok m ∧
    nets net ∧ backend_address net (match_backend m) (peer u) ∧
    replayed content (hello_limits config) stream (sent u) info rest.
Proof.
  intros Hmax Hnets Ht Hhonest.
  pose proof (run_proxies _ _ _ _ (always_trace _ [] _ _ _ (run_always config listener) Ht) u n k eq_refl) as (Hr & _).
  destruct Hr as (buffered & info & host & m & Hhello & Hsni & Hroute & Hconnect).
  rewrite Forall_forall in Hhonest.
  pose proof (Hhonest _ Hhello) as Hh. destruct (Hhonest _ Hroute) as (l & Hl & Hres).
  destruct (Hhonest _ Hconnect) as (net & Hnet & Hcon). cbn in Hh.
  destruct (read_client_hello stream (hello_limits config)) as [[[buf i] rest]|e|s] eqn:Hread; [|done..].
  injection Hh as <- <-. pose proof Hread as (Hresult & Hbytes & Hlen)%read_client_hello_Ok; [|done].
  specialize (Hnets net Hnet). symmetry in Hcon. apply connect_and_replay_Ok in Hcon as [Hsent Haddr].
  exists info, host, m, l, net, rest. split_and!; try done. by rewrite Hsent.
Qed.
Lemma proxied_route `{ByteSource Src content, LookupContract L stored, TimeoutSpec}
    {Up} (peer : Up → SocketAddr) (sent : Up → bytes) config listener (stream : Src)
    (lookups : L → Prop) (nets : Net Up → Prop) done u n k :
  wire_bound (hello_limits config) ≤ isize_max →
  (∀ l, lookups l → wf_table (stored l)) →
  (∀ net, nets net → NetSpec net peer sent) →
  trace (run config listener) done (AwaitProxy u n k) →
  Forall (honest config stream lookups nets) done →
  ∃ info host m l net rest,
    hello_result (hello_limits config) (content stream) = Ok info ∧ sni info = Some host ∧
    lookups l ∧ best_route (stored l) host m ∧
    nets net ∧ backend_address net (match_backend m) (peer u) ∧
    replayed content (hello_limits config) stream (sent u) info rest.
Proof.
  intros Hmax Hwf Hnets Ht Hhonest.
  destruct (proxied_answers peer sent config listener stream lookups nets done u n k Hmax Hnets Ht Hhonest)
    as (info & host & m & l & net & rest & Hhello & Hsni & Hl & Hres & Hrest).
  exists info, host, m, l, net, rest. do 3 (split; [done|]). split; [|done].
  by eapply resolve_route_best; [apply Hwf|].
Qed.

(** Every proxied connection goes where its SNI says.  Whatever the client
    sends, however the network cuts it, whatever the lookup store, the resolver
    and the backends answer: when a connection reaches the proxy stage, its
    bytes begin with a ClientHello that names a host; the route is the best one
    for that host in a table the lookup served; the upstream is an address of
    that route's backend; and it has been sent exactly the bytes the hello
    reader read, the whole hello among them, so that with what is left of the
    stream it gets all the client sent. *)
Theorem proxied_to_its_route `{ByteSource Src content, LookupContract L stored, TimeoutSpec}
    {Up} (peer : Up → SocketAddr) (sent : Up → bytes) config listener (stream : Src)
    (lookups : L → Prop) (nets : Net Up → Prop) done u n k :
  wire_bound (hello_limits config) ≤ isize_max →
  (∀ l, lookups l → wf_table (stored l)) →
  (∀ net, nets net → NetSpec net peer sent) →
  trace (run config listener) done (AwaitProxy u n k) →
  Forall (honest config stream lookups nets) done →
  ∃ info host m l net rest,
    hello_result (hello_limits config) (content stream) = Ok info ∧ sni info = Some host ∧
    lookups l ∧ best_route (stored l) host m ∧
    nets net ∧ backend_address net (match_backend m) (peer u) ∧
    replayed content (hello_limits config) stream (sent u) info rest.
Proof. apply proxied_route. Qed.

(** A run from accept to proxying, with every answer the code's own. *)
Definition example_listener : ListenerInfo := ListenerInfo.tcp (V4 0 0 0 0, 443).
Definition example_stream : chunk_stream := [takeN 9 example_wire; dropN 9 example_wire; lit "more"].
Definition example_store : InMemoryLookup :=
  InMemoryLookup.from_iter [(mkRouteKey (lit "a.test") false, mkBackend (Dns (lit "b")) 443)].
Definition example_upstream_net : Net (SocketAddr * bytes) :=
  example_net (V4 10 0 0 2, 443) [(V4 10 0 0 1, 443); (V4 10 0 0 2, 443)].
Definition example_match : RouteMatch :=
  mkRouteMatch (mkRouteKey (lit "a.test") false) (mkBackend (Dns (lit "b")) 443).
Definition example_up : SocketAddr * bytes := ((V4 10 0 0 2, 443), example_wire).
Definition example_done : list (Act (Up := SocketAddr * bytes)) :=
  [DidHello (Some (Some (Ok (example_wire, example_info)))); DidLogSni (mkHostname (lit "a.test")); DidNow 1;
   DidRoute (mkHostname (lit "a.test")) (Some (Ok example_match)); DidNow 3;
   DidEmit (RouteLookupEvent example_listener OutcomeFound 2); DidLogBackend (mkBackend (Dns (lit "b")) 443);
   DidNow 4; DidConnect (mkBackend (Dns (lit "b")) 443) example_wire (Some (Some (inr example_up))); DidNow 9;
   DidEmit (UpstreamConnect example_listener true 5); DidEnter true; DidTouch].

Lemma example_trace :
  ∃ k, trace (run RouterConfig_default example_listener) example_done (AwaitProxy example_up 32768 k).
Proof. eexists. do 13 (eapply trace_cons; [constructor|]). apply trace_nil. Qed.
Lemma example_honest :
  Forall (honest (H1 := simple_timeout) RouterConfig_default example_stream (λ l, l = example_store)
    (λ net, net = example_upstream_net)) example_done.
Proof.
  repeat (apply Forall_cons; split); try exact I; try apply Forall_nil_2.
  - cbn [honest]. vm_compute. reflexivity.
  - exists example_store. split; [reflexivity|]. vm_compute. reflexivity.
  - exists example_upstream_net. split; [reflexivity|]. vm_compute. reflexivity.
Qed.

Lemma run_outcome_witness :
  ∃ u, u = example_up ∧ routed example_done u.
Proof.
  destruct example_trace as [k Hk]. exists example_up. split; [reflexivity|].
  exact (proj1 (proj2 (proj2 (proj2 (proj2 (run_outcome _ _ _ _ Hk)))) example_up 32768 k eq_refl)).
Defined.
Lemma proxied_to_its_route_witness :
  ∃ info host m rest, hello_result HelloLimits.default (concat example_stream) = Ok info ∧
    sni info = Some host ∧ best_route (im_routes example_store) host m ∧
    replayed (concat (A := _)) HelloLimits.default example_stream example_wire info rest.
Proof.
  destruct example_trace as [k Hk].
  destruct (proxied_to_its_route (H2 := InMemoryLookup_contract) (H4 := simple_timeout_spec) fst snd
    RouterConfig_default example_listener example_stream (λ l, l = example_store)
    (λ net, net = example_upstream_net) example_done example_up 32768 k) as (info & host & m & l & net & rest & Hr).
  - vm_decide.
  - intros l ->. unfold wf_table. vm_decide.
  - intros net ->. apply example_net_spec.
  - exact Hk.
  - exact example_honest.
  - destruct Hr as (H1 & H2 & -> & H3 & _ & _ & H4). exists info, host, m, rest. split_and!; [exact H1|exact H2|exact H3|exact H4].
Defined.
