(* ===== verification/ResolverCalls.v ===== *)
(** * Calls of the resolver, and the backends connections reach ([delivery/resolver.rs])

    Calls of [resolve] with the lookup tasks they start and the system lookup
    behind them, as one world and its steps: what a call returns, how old it can
    be, and that every call can return.  At the end, the addresses the pipeline
    connects to are traced to the system lookup's answers. *)

From S2P Require Import Prelude Async Str Net Names Lookup Routing Protocol Reader Hello Records.
From S2P Require Import Framing Builder Parser HelloReader Metrics Gate Metered Splice SpliceProofs.
From S2P Require Import Proxy Resolver ResolverProofs Connection Pipeline.
Import Resolver.Resolver.

(** A call of [resolve]: waiting for a lookup's channel, or returned. *)
Inductive ResolveAt :=
| Waits (lookup : N)
| Gave (result : io_error + list SocketAddr).
Record ResolveCall := mkResolveCall { rc_key : Key; rc_began : Instant; rc_at : ResolveAt }.

(** [resolve] up to the await point: its critical section, and the answer when
    it has one; whether it spawns the lookup. *)
Definition resolve_call `{Semaphore Sem} (r : Resolver Sem) (key : Key) (now : Instant) (id : N) :
    section (Resolver Sem * ResolveAt * bool) :=
  let '(r, resolving) := resolve_begin r key now id in
  match resolving with
  | Cached cached => '(result, r) ← resolve_end r cached; Ok (r, Gave result, false)
  | Join lookup => Ok (r, Waits lookup, false)
  | Start lookup => Ok (r, Waits lookup, true)
  end.
(** [resolve] after it: what its channel said. *)
Definition resolve_wake {Sem} (r : Resolver Sem) (value : option Outcome) : section (Resolver Sem * ResolveAt) :=
  '(result, r) ← resolve_end r (resolved value); Ok (r, Gave result).

(** The lookups' channels that were answered: for which key, with what, when. *)
Record Channel := mkChannel { ch_key : Key; ch_outcome : Outcome; ch_at : Instant }.
Record CallsWorld (Sem : Type) := mkCallsWorld {
  dw_world : World Sem;
  dw_now : Instant;
  dw_channels : gmap N Channel;
  dw_calls : gmap N ResolveCall;
}.
Arguments mkCallsWorld {Sem} _ _ _ _.
Arguments dw_world {Sem} _.
Arguments dw_now {Sem} _.
Arguments dw_channels {Sem} _.
Arguments dw_calls {Sem} _.

Section Calls.
Context `{SemaphoreSpec Sem free}.
(** [system t key result]: a system lookup of [key] that returns at [t] may
    answer [result]. *)
Context (system : Instant → Key → io_error + list SocketAddr → Prop).
Context (ttl0 : Duration) (max_concurrent : N).
Implicit Types d : CallsWorld Sem.

Definition calls_init : section (CallsWorld Sem) :=
  w ← resolver_start ttl0 max_concurrent; Ok (mkCallsWorld w 0 ∅ ∅).
Definition with_resolver (w : World Sem) (r : Resolver Sem) : World Sem :=
  mkWorld r (rw_tasks w) (rw_next w) (rw_answers w).

Inductive calls_step : CallsWorld Sem → CallsWorld Sem → Prop :=
| calls_clock w now channels calls now' :
    now ≤ now' → calls_step (mkCallsWorld w now channels calls) (mkCallsWorld w now' channels calls)
| calls_call w now channels calls n key r at_ spawn :
    calls !! n = None → resolve_call (rw_resolver w) key now (rw_next w) = Ok (r, at_, spawn) →
    calls_step (mkCallsWorld w now channels calls)
      (mkCallsWorld
        (mkWorld r (if spawn then <[rw_next w := mkTask key Queued]> (rw_tasks w) else rw_tasks w)
          (rw_next w + 1) (rw_answers w))
        now channels (<[n := mkResolveCall key now at_]> calls))
| calls_wake w now channels calls n key began lookup ch r at_ :
    calls !! n = Some (mkResolveCall key began (Waits lookup)) → channels !! lookup = Some ch →
    resolve_wake (rw_resolver w) (Some (ch_outcome ch)) = Ok (r, at_) →
    calls_step (mkCallsWorld w now channels calls)
      (mkCallsWorld (with_resolver w r) now channels (<[n := mkResolveCall key began at_]> calls))
| calls_drop w now channels calls n :
    calls_step (mkCallsWorld w now channels calls) (mkCallsWorld w now channels (delete n calls))
| calls_start w now channels calls id key r :
    rw_tasks w !! id = Some (mkTask key Queued) → lookup_start (rw_resolver w) = Some r →
    calls_step (mkCallsWorld w now channels calls)
      (mkCallsWorld (mkWorld r (<[id := mkTask key Running]> (rw_tasks w)) (rw_next w) (rw_answers w)) now channels calls)
(** The blocking call answers, or its task fails. *)
| calls_return w now channels calls id key result :
    rw_tasks w !! id = Some (mkTask key Running) → (system now key result ∨ ∃ e, result = inl e) →
    calls_step (mkCallsWorld w now channels calls)
      (mkCallsWorld (mkWorld (lookup_return (rw_resolver w)) (<[id := mkTask key (Returned result)]> (rw_tasks w))
        (rw_next w) (rw_answers w)) now channels calls)
| calls_store w now channels calls id key result r outcome :
    rw_tasks w !! id = Some (mkTask key (Returned result)) → lookup_store (rw_resolver w) key result now = Ok (r, outcome) →
    calls_step (mkCallsWorld w now channels calls)
      (mkCallsWorld (mkWorld r (delete id (rw_tasks w)) (rw_next w)
          (match result with inr ((_ :: _) as a) => (key, a, now) :: rw_answers w | _ => rw_answers w end))
        now (<[id := mkChannel key outcome now]> channels) calls).
Definition calls_reachable d : Prop := ∃ start, calls_init = Ok start ∧ rtc calls_step start d.

(** ** Rotating *)

(** A list from [start] on, then its beginning. *)
Definition turned (start : N) (l : list SocketAddr) : list SocketAddr := dropN start l ++ takeN start l.
Lemma turned_perm start l : turned start l ≡ₚ l.
Proof. unfold turned. rewrite Permutation_app_comm. by rewrite takeN_dropN. Qed.

Lemma rotated_turned (r : Resolver Sem) l :
  rotated r l = Ok (turned (rotation r mod (len l `max` 1)) l,
    mkResolver (state r) (slots r) (ttl r) ((rotation r + 1) mod 2 ^ 64)).
Proof.
  unfold rotated. set (start := rotation r mod (len l `max` 1)).
  assert (start ≤ len l) as Hs by (pose proof (N.mod_lt (rotation r) (len l `max` 1)); lia).
  rewrite slice_from_Ok, slice_Ok by lia. cbn [mbind res_bind]. by rewrite N.sub_0_r, dropN_0.
Qed.
(** What [resolve_end] makes of an outcome: its addresses, turned by the
    rotation counter, which goes on by one; an error leaves it alone. *)
Lemma resolve_end_returns (r : Resolver Sem) outcome :
  ∃ result r', resolve_end r outcome = Ok (result, r') ∧
    match result with
    | inr l => ∃ a, outcome = inr a ∧ l = turned (rotation r mod (len a `max` 1)) a ∧
        rotation r' = (rotation r + 1) mod 2 ^ 64
    | inl _ => (∃ e, outcome = inl e) ∧ rotation r' = rotation r
    end.
Proof.
  unfold resolve_end. destruct outcome as [[kind message]|a]; cbn [into_io]; [by do 2 eexists; split; [done|split; [eexists|]]|].
  rewrite rotated_turned. do 2 eexists. split; [reflexivity|]. by exists a.
Qed.
(** ** The invariant *)

(** Addresses stored for the key less than the TTL, the stale window and the
    negative TTL before the call began. *)
Definition recent_answer (answers : list (Key * list SocketAddr * Instant)) (key : Key) (began : Instant)
    (l : list SocketAddr) : Prop :=
  l ≠ [] ∧ ∃ t, (key, l, t) ∈ answers ∧ began < t + ttl0 + STALE_IF_ERROR + NEGATIVE_TTL.
Definition resolve_call_ok d (c : ResolveCall) : Prop :=
  match rc_at c with
  | Waits l =>
    rc_began c ≤ dw_now d ∧
    ((∃ at_, rw_tasks (dw_world d) !! l = Some (mkTask (rc_key c) at_)) ∨
     ∃ ch, dw_channels d !! l = Some ch ∧ ch_key ch = rc_key c ∧ rc_began c ≤ ch_at ch)
  | Gave result => ∀ a, result = inr a →
    ∃ l, a ≡ₚ l ∧ recent_answer (rw_answers (dw_world d)) (rc_key c) (rc_began c) l
  end.
Definition channel_ok d (ch : Channel) : Prop :=
  ∀ a, ch_outcome ch = inr a → a ≠ [] ∧
    ∃ t, (ch_key ch, a, t) ∈ rw_answers (dw_world d) ∧ ch_at ch ≤ t + ttl0 + STALE_IF_ERROR.

Record calls_wf d : Prop := {
  cw_world : resolver_wf (free := free) ttl0 (max_concurrent `max` 1) (dw_world d);
  cw_results id key a : rw_tasks (dw_world d) !! id = Some (mkTask key (Returned (inr a))) →
    ∃ t, t ≤ dw_now d ∧ system t key (inr a);
  cw_answers key l t : (key, l, t) ∈ rw_answers (dw_world d) → t ≤ dw_now d ∧ ∃ t0, t0 ≤ t ∧ system t0 key (inr l);
  cw_channels id ch : dw_channels d !! id = Some ch →
    rw_tasks (dw_world d) !! id = None ∧ id < rw_next (dw_world d) ∧ channel_ok d ch;
  cw_calls n c : dw_calls d !! n = Some c → resolve_call_ok d c;
}.

Lemma recent_answer_more answers answers' key began l :
  answers ⊆ answers' → recent_answer answers key began l → recent_answer answers' key began l.
Proof. intros Hsub (Hne & t & Ht & Hlt). split; [done|]. exists t. auto. Qed.
Lemma channel_ok_more d d' ch :
  rw_answers (dw_world d) ⊆ rw_answers (dw_world d') → channel_ok d ch → channel_ok d' ch.
Proof. intros Hsub Hch a (Hne & t & Ht & Hle)%Hch. split; [done|]. exists t. auto. Qed.

(** A call stays as it is while the tasks and the channels go on. *)
Lemma resolve_call_ok_mono d d' c :
  dw_now d ≤ dw_now d' → rw_answers (dw_world d) ⊆ rw_answers (dw_world d') →
  (∀ l key a, rw_tasks (dw_world d) !! l = Some (mkTask key a) →
     (∃ a', rw_tasks (dw_world d') !! l = Some (mkTask key a')) ∨
     ∃ ch, dw_channels d' !! l = Some ch ∧ ch_key ch = key ∧ dw_now d ≤ ch_at ch) →
  (∀ l ch, dw_channels d !! l = Some ch → dw_channels d' !! l = Some ch) →
  resolve_call_ok d c → resolve_call_ok d' c.
Proof.
  intros Hnow Hans Htasks Hchan. unfold resolve_call_ok. destruct (rc_at c) as [l|result].
  - intros [Hb Hcase]. split; [lia|]. destruct Hcase as [[a Ha]|(ch & Hch & Hk & Hle)]; [|right; by eauto].
    destruct (Htasks _ _ _ Ha) as [Hrun|(ch & Hch & Hk & Hle)]; [by left|right].
    exists ch. split_and!; [done..|lia].
  - intros Hr a (l & Hl & Hrec)%Hr. exists l. split; [done|]. by eapply recent_answer_more.
Qed.

(** Steps that leave the answers and the channels alone, and each task its key. *)
Lemma calls_wf_tasks w w' now channels calls :
  calls_wf (mkCallsWorld w now channels calls) → resolver_step w w' →
  rw_answers w' = rw_answers w → rw_next w ≤ rw_next w' →
  (∀ l key a, rw_tasks w !! l = Some (mkTask key a) → ∃ a', rw_tasks w' !! l = Some (mkTask key a')) →
  (∀ l, l < rw_next w → rw_tasks w !! l = None → rw_tasks w' !! l = None) →
  (∀ id key a, rw_tasks w' !! id = Some (mkTask key (Returned (inr a))) →
     rw_tasks w !! id = Some (mkTask key (Returned (inr a))) ∨ system now key (inr a)) →
  calls_wf (mkCallsWorld w' now channels calls).
Proof.
  intros [Hw Hres Hans Hch Hcalls] Hstep Ha Hn Hkeep Hnone Hret.
  split; cbn [dw_world dw_now dw_channels dw_calls] in *; rewrite ?Ha.
  - by eapply resolver_wf_step.
  - intros id key a [Hold|Hnew]%Hret; [by eapply Hres|]. by exists now.
  - exact Hans.
  - intros id ch (H1 & H2 & H3)%Hch. split_and!; [by apply Hnone|lia|]. eapply channel_ok_more; [|exact H3].
    cbn. by rewrite Ha.
  - intros n c Hc%Hcalls. revert Hc. apply resolve_call_ok_mono; cbn; [lia|by rewrite Ha| |done].
    intros l key a Hl. left. by eapply Hkeep.
Qed.

Lemma calls_wf_end w now channels calls outcome result r :
  calls_wf (mkCallsWorld w now channels calls) → resolve_end (rw_resolver w) outcome = Ok (result, r) →
  calls_wf (mkCallsWorld (with_resolver w r) now channels calls).
Proof.
  intros Hd He. destruct w as [r0 tasks next answers]. eapply calls_wf_tasks; [exact Hd|..]; cbn; try done.
  - by eapply step_end.
  - by eauto.
  - by left.
Qed.
Lemma calls_wf_begin w now channels calls key r resolving :
  calls_wf (mkCallsWorld w now channels calls) → resolve_begin (rw_resolver w) key now (rw_next w) = (r, resolving) →
  calls_wf (mkCallsWorld
    (mkWorld r (match resolving with Start id => <[id := mkTask key Queued]> (rw_tasks w) | _ => rw_tasks w end)
      (rw_next w + 1) (rw_answers w)) now channels calls).
Proof.
  intros Hd Hb. pose proof (resolve_begin_ok _ _ _ _ _ _ _ _ (cw_world _ Hd) Hb) as Hok.
  pose proof (rwf_ids _ _ _ (cw_world _ Hd)) as Hids.
  destruct w as [r0 tasks next answers]. cbn [dw_world rw_resolver rw_tasks rw_next rw_answers] in *.
  assert (tasks !! next = None) as Hnew.
  { destruct (tasks !! next) as [t|] eqn:Ht; [|done]. apply Hids in Ht. lia. }
  eapply calls_wf_tasks; [exact Hd|exact (step_begin _ _ _ _ _ _ _ _ Hb)|..]; cbn; try done.
  - lia.
  - intros l k a Hl. destruct resolving as [| |id]; [by eexists..|]. destruct Hok as [-> _]. exists a.
    rewrite lookup_insert_ne; [done|congruence].
  - intros l Hlt Hl. destruct resolving as [| |id]; [done..|]. destruct Hok as [-> _].
    rewrite lookup_insert_ne; [done|lia].
  - intros id k a Hl. left. destruct resolving as [| |id']; [done..|].
    apply lookup_insert_Some in Hl as [[_ [=]]|[_ Hl]]. done.
Qed.
Lemma calls_wf_insert w now channels calls n c :
  calls_wf (mkCallsWorld w now channels calls) → resolve_call_ok (mkCallsWorld w now channels calls) c →
  calls_wf (mkCallsWorld w now channels (<[n := c]> calls)).
Proof.
  intros [Hw Hres Hans Hch Hcalls] Hc. split; cbn [dw_world dw_now dw_channels dw_calls] in *; try done.
  intros n' c' [[<- <-]|[_ Hc']]%lookup_insert_Some; [exact Hc|]. by eapply Hcalls.
Qed.

Lemma calls_wf_call w now channels calls n key r at_ spawn :
  calls_wf (mkCallsWorld w now channels calls) →
  resolve_call (rw_resolver w) key now (rw_next w) = Ok (r, at_, spawn) →
  calls_wf (mkCallsWorld
    (mkWorld r (if spawn then <[rw_next w := mkTask key Queued]> (rw_tasks w) else rw_tasks w) (rw_next w + 1)
      (rw_answers w)) now channels (<[n := mkResolveCall key now at_]> calls)).
Proof.
  intros Hd Hc. unfold resolve_call in Hc.
  destruct (resolve_begin (rw_resolver w) key now (rw_next w)) as [r1 resolving] eqn:Hb.
  pose proof (resolve_begin_ok _ _ _ _ _ _ _ _ (cw_world _ Hd) Hb) as Hok. cbn [dw_world] in Hok.
  pose proof (calls_wf_begin _ _ _ _ _ _ _ Hd Hb) as Hd1. destruct resolving as [outcome|l|l].
  - apply bind_Ok in Hc as ([result r2] & He & [= <- <- <-]).
    apply calls_wf_insert; [exact (calls_wf_end _ _ _ _ _ _ _ Hd1 He)|].
    destruct (resolve_end_returns r1 outcome) as (result' & r' & He' & Hres). rewrite He in He'. injection He' as <- <-.
    intros a ->. destruct Hres as (l & -> & -> & _). exists l. split; [apply turned_perm|by apply Hok].
  - injection Hc as <- <- <-. apply calls_wf_insert; [exact Hd1|]. split; [cbn; lia|by left].
  - injection Hc as <- <- <-. destruct Hok as [-> _]. apply calls_wf_insert; [exact Hd1|].
    split; [cbn; lia|]. left. eexists. apply lookup_insert_eq.
Qed.
Lemma calls_wf_wake w now channels calls n key began l ch r at_ :
  calls_wf (mkCallsWorld w now channels calls) → calls !! n = Some (mkResolveCall key began (Waits l)) →
  channels !! l = Some ch → resolve_wake (rw_resolver w) (Some (ch_outcome ch)) = Ok (r, at_) →
  calls_wf (mkCallsWorld (with_resolver w r) now channels (<[n := mkResolveCall key began at_]> calls)).
Proof.
  intros Hd Hn Hch Hw. apply bind_Ok in Hw as ([result r1] & He & [= <- <-]).
  apply calls_wf_insert; [exact (calls_wf_end _ _ _ _ _ _ _ Hd He)|].
  destruct (cw_channels _ Hd _ _ Hch) as (Hnone & _ & Hok). cbn in Hnone.
  destruct (cw_calls _ Hd _ _ Hn) as [Hb [[a Ha]|(ch' & Hch' & Hk & Hle)]]; cbn in *; [congruence|].
  rewrite Hch in Hch'. injection Hch' as <-. intros a ->.
  destruct (resolve_end_returns (rw_resolver w) (ch_outcome ch)) as (result' & r' & He' & Hres).
  change (resolved (Some (ch_outcome ch))) with (ch_outcome ch) in He. rewrite He in He'. injection He' as <- <-.
  destruct Hres as (l' & Hl & -> & _). destruct (Hok _ Hl) as (Hne & t & Ht & Hlt). exists l'.
  split; [apply turned_perm|]. split; [done|]. exists t. rewrite <- Hk. split; [done|]. change NEGATIVE_TTL with (from_secs 1).
  assert (0 < from_secs 1) by reflexivity. cbn. unfold Instant in *. lia.
Qed.
Lemma calls_wf_store w now channels calls id key result r outcome :
  calls_wf (mkCallsWorld w now channels calls) → rw_tasks w !! id = Some (mkTask key (Returned result)) →
  lookup_store (rw_resolver w) key result now = Ok (r, outcome) →
  calls_wf (mkCallsWorld
    (mkWorld r (delete id (rw_tasks w)) (rw_next w)
      (match result with inr ((_ :: _) as a) => (key, a, now) :: rw_answers w | _ => rw_answers w end))
    now (<[id := mkChannel key outcome now]> channels) calls).
Proof.
  intros [Hw Hres Hans Hch Hcalls] Hid Hst. set (answers' := match result with inr _ => _ | _ => _ end).
  assert (rw_answers w ⊆ answers') as Hsub by (unfold answers'; destruct result as [|[]]; set_solver).
  cbn [dw_world dw_now dw_channels dw_calls] in *.
  split; cbn [dw_world dw_now dw_channels dw_calls rw_tasks rw_next rw_answers].
  - destruct w as [r0 tasks next answers]. eapply resolver_wf_step; [exact Hw|by eapply step_store].
  - intros i k a [_ Hi]%lookup_delete_Some. by eapply Hres.
  - intros k l t Hin.
    assert ((k, l, t) ∈ rw_answers w ∨ result = inr l ∧ k = key ∧ t = now) as [Hold|(-> & -> & ->)].
    { unfold answers' in Hin. destruct result as [|[]]; [by left..|]. apply elem_of_cons in Hin as [[= -> -> ->]|]; auto. }
    + by apply Hans.
    + split; [lia|]. by eapply Hres.
  - intros i ch [[<- <-]|[Hne (H1 & H2 & H3)%Hch]]%lookup_insert_Some.
    + split; [apply lookup_delete_eq|]. split; [by eapply (rwf_ids _ _ _ Hw)|].
      unfold lookup_store in Hst. apply bind_Ok in Hst as ([c' o] & Hs & [= <- ->]).
      rewrite (rwf_ttl _ _ _ Hw) in Hs. apply (store_entries_ok ttl0 (rw_answers w)) in Hs as [_ Hs]; [exact Hs|].
      apply (rwf_cache _ _ _ Hw).
    + split; [by rewrite lookup_delete_ne|]. split; [done|]. eapply channel_ok_more; [|exact H3]. exact Hsub.
  - intros n c Hc%Hcalls. revert Hc. apply resolve_call_ok_mono; cbn; [lia|done| |].
    + intros l k a Hl. destruct (decide (l = id)) as [->|Hne].
      * right. eexists. split; [apply lookup_insert_eq|]. cbn. split; [congruence|lia].
      * left. exists a. by rewrite lookup_delete_ne.
    + intros l ch Hl. rewrite lookup_insert_ne; [done|]. intros ->. apply Hch in Hl as (Hl & _). cbn in Hl. congruence.
Qed.

Lemma calls_wf_init d : calls_init = Ok d → calls_wf d.
Proof.
  intros (w & Hw & [= <-])%bind_Ok. pose proof (resolver_start_wf (free := free) _ _ _ Hw) as Hwf.
  apply bind_Ok in Hw as (r & _ & [= <-]). split; cbn; [exact Hwf|done| |done..].
  - by intros key l t ?%elem_of_nil.
Qed.
Lemma calls_wf_clock w now channels calls now' :
  now ≤ now' → calls_wf (mkCallsWorld w now channels calls) → calls_wf (mkCallsWorld w now' channels calls).
Proof.
  intros Hle [Hw Hres Hans Hch Hcalls]. split; cbn [dw_world dw_now dw_channels dw_calls] in *; [done| | |done|].
  - intros id key a (t & Ht & Hs)%Hres. exists t. split; [lia|done].
  - intros key l t (Ht & Hs)%Hans. split; [lia|done].
  - intros n c Hc%Hcalls. revert Hc.
    apply resolve_call_ok_mono; cbn; [done|done|intros l k a Hl; left; by exists a|done].
Qed.
Lemma calls_wf_step d d' : calls_wf d → calls_step d d' → calls_wf d'.
Proof.
  intros Hd Hstep. destruct Hstep as [w now channels calls now' Hle|w now channels calls n key r at_ spawn Hn Hc
    |w now channels calls n key began l ch r at_ Hn Hch Hw|w now channels calls n
    |w now channels calls id key r Hid Hr|w now channels calls id key result Hid Hr
    |w now channels calls id key result r outcome Hid Hr].
  - by eapply calls_wf_clock.
  - by eapply calls_wf_call.
  - by eapply calls_wf_wake.
  - destruct Hd as [Hw Hres Hans Hch Hcalls]. split; cbn [dw_world dw_now dw_channels dw_calls] in *; try done.
    intros n' c [_ Hc]%lookup_delete_Some. by eapply Hcalls.
  - destruct w as [r0 tasks next answers]. cbn [rw_resolver rw_tasks rw_next rw_answers] in *.
    eapply calls_wf_tasks; [exact Hd|by eapply step_start|..]; cbn; try done.
    + intros l k a Hl. destruct (decide (l = id)) as [->|Hne]; [|exists a; by rewrite lookup_insert_ne].
      rewrite lookup_insert_eq. rewrite Hid in Hl. injection Hl as <- <-. by eexists.
    + intros l _ Hl. rewrite lookup_insert_ne; [done|congruence].
    + intros i k a [[_ [=]]|[_ Hi]]%lookup_insert_Some. by left.
  - destruct w as [r0 tasks next answers]. cbn [rw_resolver rw_tasks rw_next rw_answers] in *.
    eapply calls_wf_tasks; [exact Hd|by eapply step_return|..]; cbn; try done.
    + intros l k a Hl. destruct (decide (l = id)) as [->|Hne]; [|exists a; by rewrite lookup_insert_ne].
      rewrite lookup_insert_eq. rewrite Hid in Hl. injection Hl as <- <-. by eexists.
    + intros l _ Hl. rewrite lookup_insert_ne; [done|congruence].
    + intros i k a [[_ [= <- ->]]|[_ Hi]]%lookup_insert_Some; [right|by left]. by destruct Hr as [Hr|[e [=]]].
  - by eapply calls_wf_store.
Qed.
Lemma calls_reachable_wf d : calls_reachable d → calls_wf d.
Proof.
  intros (start & Hs & Hd).
  refine (rtc_ind_r (R := calls_step) calls_wf _ _ _ _ Hd); [by apply calls_wf_init|by eauto using calls_wf_step].
Qed.

(** ** What a step gives a call *)

(** The step from [d] to [d'] gives the call [n] the addresses [a]. *)
Definition given d d' (n : N) (c : ResolveCall) (a : list SocketAddr) : Prop :=
  calls_step d d' ∧ dw_calls d' !! n = Some c ∧ rc_at c = Gave (inr a) ∧ dw_calls d !! n ≠ Some c.
Definition dw_rotation d : N := rotation (rw_resolver (dw_world d)).

Lemma resolve_begin_rotation (r : Resolver Sem) key now id r' resolving :
  resolve_begin r key now id = (r', resolving) → rotation r' = rotation r.
Proof. unfold resolve_begin. repeat case_match; by intros [= <- <-]. Qed.
(** A call answered from the cache. *)
Lemma resolve_call_gave w now channels calls key r at_ spawn :
  calls_wf (mkCallsWorld w now channels calls) → resolve_call (rw_resolver w) key now (rw_next w) = Ok (r, at_, spawn) →
  match at_ with
  | Gave (inr a) => ∃ l, recent_answer (rw_answers w) key now l ∧
      a = turned (rotation (rw_resolver w) mod (len l `max` 1)) l ∧ rotation r = (rotation (rw_resolver w) + 1) mod 2 ^ 64
  | _ => rotation r = rotation (rw_resolver w)
  end.
Proof.
  intros Hd Hc. unfold resolve_call in Hc.
  destruct (resolve_begin (rw_resolver w) key now (rw_next w)) as [r1 resolving] eqn:Hb.
  pose proof (resolve_begin_ok _ _ _ _ _ _ _ _ (cw_world _ Hd) Hb) as Hok. cbn [dw_world] in Hok.
  apply resolve_begin_rotation in Hb as Hr. rewrite <- Hr. destruct resolving as [outcome|l|l]; [|by simplify_eq..].
  apply bind_Ok in Hc as ([result r2] & He & [= <- <- <-]).
  destruct (resolve_end_returns r1 outcome) as (result' & r' & He' & Hres). rewrite He in He'. injection He' as <- <-.
  destruct result as [e|a]; [apply Hres|]. destruct Hres as (l & -> & Ha & Hrot). exists l. split; [by apply Hok|done].
Qed.
(** A call answered by its lookup. *)
Lemma resolve_wake_gave w now channels calls n key began l ch r at_ :
  calls_wf (mkCallsWorld w now channels calls) → calls !! n = Some (mkResolveCall key began (Waits l)) →
  channels !! l = Some ch → resolve_wake (rw_resolver w) (Some (ch_outcome ch)) = Ok (r, at_) →
  match at_ with
  | Gave (inr a) => ∃ l, recent_answer (rw_answers w) key began l ∧
      a = turned (rotation (rw_resolver w) mod (len l `max` 1)) l ∧ rotation r = (rotation (rw_resolver w) + 1) mod 2 ^ 64
  | _ => rotation r = rotation (rw_resolver w)
  end.
Proof.
  intros Hd Hn Hch Hw. apply bind_Ok in Hw as ([result r1] & He & [= <- <-]).
  destruct (cw_channels _ Hd _ _ Hch) as (Hnone & _ & Hok). cbn in Hnone.
  destruct (cw_calls _ Hd _ _ Hn) as [Hb [[a Ha]|(ch' & Hch' & Hk & Hle)]]; cbn in *; [congruence|].
  rewrite Hch in Hch'. injection Hch' as <-.
  destruct (resolve_end_returns (rw_resolver w) (ch_outcome ch)) as (result' & r' & He' & Hres).
  change (resolved (Some (ch_outcome ch))) with (ch_outcome ch) in He. rewrite He in He'. injection He' as <- <-.
  destruct result as [e|a]; [apply Hres|]. destruct Hres as (l' & Hl & -> & Hrot).
  destruct (Hok _ Hl) as (Hne & t & Ht & Hlt). exists l'. split; [|done]. split; [done|]. exists t. rewrite <- Hk.
  split; [done|]. change NEGATIVE_TTL with (from_secs 1). assert (0 < from_secs 1) by reflexivity. cbn. unfold Instant in *. lia.
Qed.

Lemma given_turned d d' n c a :
  calls_wf d → given d d' n c a →
  ∃ l, recent_answer (rw_answers (dw_world d)) (rc_key c) (rc_began c) l ∧
    a = turned (dw_rotation d mod (len l `max` 1)) l ∧ dw_rotation d' = (dw_rotation d + 1) mod 2 ^ 64.
Proof.
  intros Hd (Hstep & Hn' & Hat & Hnew). unfold dw_rotation.
  destruct Hstep as [w now channels calls now' _|w now channels calls n0 key r at_ spawn Hn Hc
    |w now channels calls n0 key began l ch r at_ Hn Hch Hw|w now channels calls n0
    |w now channels calls id key r _ _|w now channels calls id key result _ _
    |w now channels calls id key result r outcome _ _]; cbn [dw_world dw_calls rw_resolver rw_answers with_resolver] in *; try done.
  - apply lookup_insert_Some in Hn' as [[<- <-]|[_ Hn']]; [|done]. cbn in *. subst at_. by apply (resolve_call_gave _ _ _ _ _ _ _ _ Hd Hc).
  - apply lookup_insert_Some in Hn' as [[<- <-]|[_ Hn']]; [|done]. cbn in *. subst at_. by apply (resolve_wake_gave _ _ _ _ _ _ _ _ _ _ _ Hd Hn Hch Hw).
  - by apply lookup_delete_Some in Hn' as [_ Hn'].
Qed.
(** Nothing else turns the counter. *)
Lemma rotation_given d d' :
  calls_wf d → calls_step d d' → dw_rotation d' = dw_rotation d ∨ ∃ n c a, given d d' n c a.
Proof.
  intros Hd Hstep. pose proof Hstep as Hs. unfold dw_rotation.
  destruct Hstep as [w now channels calls now' _|w now channels calls n0 key r at_ spawn Hn Hc
    |w now channels calls n0 key began l ch r at_ Hn Hch Hw|w now channels calls n0
    |w now channels calls id key r _ Hr|w now channels calls id key result _ _
    |w now channels calls id key result r outcome _ Hst]; cbn [dw_world dw_calls rw_resolver rw_answers with_resolver] in *;
    try by left.
  - pose proof (resolve_call_gave _ _ _ _ _ _ _ _ Hd Hc) as Hg. destruct at_ as [|[|a]]; [by left..|right].
    exists n0, (mkResolveCall key now (Gave (inr a))), a. split; [exact Hs|]. cbn. rewrite lookup_insert_eq, Hn. done.
  - pose proof (resolve_wake_gave _ _ _ _ _ _ _ _ _ _ _ Hd Hn Hch Hw) as Hg. destruct at_ as [|[|a]]; [by left..|right].
    exists n0, (mkResolveCall key began (Gave (inr a))), a. split; [exact Hs|]. cbn. rewrite lookup_insert_eq, Hn. done.
  - left. unfold lookup_start in Hr. by apply bind_Some in Hr as (? & _ & [= <-]).
  - left. unfold lookup_store in Hst. by apply bind_Ok in Hst as ([] & _ & [= <- _]).
Qed.

(** ** Progress *)

(** A step in which no lookup's task fails: one that returns has the answer of
    the system. *)
Definition answered_step d d' : Prop :=
  calls_step d d' ∧ ∀ id key result, rw_tasks (dw_world d') !! id = Some (mkTask key (Returned result)) →
    rw_tasks (dw_world d) !! id = Some (mkTask key (Returned result)) ∨ system (dw_now d) key result.
Definition gives d (n : N) (c : ResolveCall) (P : io_error + list SocketAddr → Prop) : Prop :=
  ∃ d' result, rtc answered_step d d' ∧ dw_calls d' !! n = Some (mkResolveCall (rc_key c) (rc_began c) (Gave result)) ∧ P result.

Lemma gives_later d d' n c P : answered_step d d' → gives d' n c P → gives d n c P.
Proof. intros Hs (d2 & result & Hd & Hc). exists d2, result. split; [by eapply rtc_l|done]. Qed.

(** An answered channel wakes its calls. *)
Lemma gives_answered w now channels calls n key began l ch :
  calls !! n = Some (mkResolveCall key began (Waits l)) → channels !! l = Some ch →
  gives (mkCallsWorld w now channels calls) n (mkResolveCall key began (Waits l))
    (λ result, ∀ a, ch_outcome ch = inr a → ∃ start, result = inr (turned start a)).
Proof.
  intros Hn Hch. destruct (resolve_end_returns (rw_resolver w) (ch_outcome ch)) as (result & r & He & Hres).
  do 2 eexists. split_and!.
  - apply rtc_once. split; [apply (calls_wake _ _ _ _ _ _ _ _ _ r (Gave result) Hn Hch)|by left]. unfold resolve_wake.
    change (resolved (Some (ch_outcome ch))) with (ch_outcome ch). by rewrite He.
  - cbn. apply lookup_insert_eq.
  - intros a Ha. destruct result as [e|a']; [destruct Hres as [[e' He'] _]; congruence|].
    destruct Hres as (a0 & Ha0 & -> & _). eexists. do 2 f_equal. congruence.
Qed.

Lemma store_returns (r : Resolver Sem) key result now :
  now + ttl r + STALE_IF_ERROR ≤ instant_max → ∃ r' outcome, lookup_store r key result now = Ok (r', outcome).
Proof.
  intros Hmax. assert (NEGATIVE_TTL ≤ STALE_IF_ERROR) as Hneg by (vm_compute; discriminate).
  assert (∀ i (j : N), i + j ≤ instant_max → Resolver.later i j = Ok (i + j)) as Hlater.
  { intros i j Hle. unfold Resolver.later, instant_checked_add. destruct (N.leb_spec (i + j) instant_max); [done|]. unfold Instant in *. lia. }
  unfold lookup_store, store. rewrite !Hlater by lia. cbn [mbind res_bind]. rewrite !Hlater by lia.
  destruct result as [e|[|x a]]; cbn [mbind res_bind]; repeat (case_match; cbn [mbind res_bind]); eauto.
Qed.

(** A nonempty answer is what the lookup's callers are told. *)
Lemma store_tells (r : Resolver Sem) key x l now r' outcome :
  lookup_store r key (inr (x :: l)) now = Ok (r', outcome) → outcome = inr (x :: l).
Proof.
  unfold lookup_store, store. intros ([c o] & (f & _ & (st & _ & [= _ <-])%bind_Ok)%bind_Ok & [= _ <-])%bind_Ok. done.
Qed.

(** Far enough from the end of time for the deadlines of an entry. *)
Definition time_left (now : Instant) : Prop := now + ttl0 + STALE_IF_ERROR ≤ instant_max.
(** What a call gets from a lookup that returned [result]. *)
Definition from_lookup (result : io_error + list SocketAddr) (told : io_error + list SocketAddr) : Prop :=
  match result with inr ((_ :: _) as l) => ∃ start, told = inr (turned start l) | _ => True end.

Lemma gives_returned w now channels calls n key began l k result :
  ttl (rw_resolver w) = ttl0 → time_left now → rw_tasks w !! l = Some (mkTask k (Returned result)) →
  calls !! n = Some (mkResolveCall key began (Waits l)) →
  gives (mkCallsWorld w now channels calls) n (mkResolveCall key began (Waits l)) (from_lookup result).
Proof.
  intros Httl Hmax Hl Hn. destruct (store_returns (rw_resolver w) k result now) as (r & o & Hs); [by rewrite Httl|].
  eapply gives_later.
  - split; [by eapply calls_store|]. intros i k' res Hi. cbn in Hi |- *. apply lookup_delete_Some in Hi as [_ Hi]. by left.
  - edestruct gives_answered as (d' & told & Hd & Hc & Ht); [exact Hn|apply lookup_insert_eq|].
    exists d', told. split; [exact Hd|]. split; [exact Hc|]. destruct result as [|[|x a]]; [done..|].
    apply store_tells in Hs as ->. by apply Ht.
Qed.
Lemma gives_running w now channels calls n key began l k result :
  ttl (rw_resolver w) = ttl0 → time_left now → rw_tasks w !! l = Some (mkTask k Running) → system now k result →
  calls !! n = Some (mkResolveCall key began (Waits l)) →
  gives (mkCallsWorld w now channels calls) n (mkResolveCall key began (Waits l)) (from_lookup result).
Proof.
  intros Httl Hmax Hl Hs Hn. eapply gives_later.
  - split; [eapply (calls_return _ _ _ _ l k result Hl); by left|].
    intros i k' res Hi. cbn in Hi |- *. apply lookup_insert_Some in Hi as [[_ [= <- <-]]|[_ Hi]]; [by right|by left].
  - eapply gives_returned; [done|done|apply lookup_insert_eq|done].
Qed.
(** A queued lookup gets its permit, once a running one has returned. *)
Lemma gives_queued_free w now channels calls n key began l k result :
  ttl (rw_resolver w) = ttl0 → time_left now → 0 < free (slots (rw_resolver w)) →
  rw_tasks w !! l = Some (mkTask k Queued) → system now k result → calls !! n = Some (mkResolveCall key began (Waits l)) →
  gives (mkCallsWorld w now channels calls) n (mkResolveCall key began (Waits l)) (from_lookup result).
Proof.
  intros Httl Hmax Hfree Hl Hsys Hn. destruct (try_acquire (slots (rw_resolver w))) as [s|] eqn:Hs.
  2: { apply try_acquire_None in Hs. lia. }
  eapply gives_later.
  - split; [eapply (calls_start _ _ _ _ l k); [done|]; unfold lookup_start; by rewrite Hs|].
    intros i k' res Hi. cbn in Hi |- *. apply lookup_insert_Some in Hi as [[_ [=]]|[_ Hi]]. by left.
  - eapply gives_running; [done|done|apply lookup_insert_eq|done|done].
Qed.
Lemma gives_queued w now channels calls n key began l k result :
  resolver_wf (free := free) ttl0 (max_concurrent `max` 1) w → time_left now → (∀ key, ∃ result, system now key result) →
  rw_tasks w !! l = Some (mkTask k Queued) → system now k result → calls !! n = Some (mkResolveCall key began (Waits l)) →
  gives (mkCallsWorld w now channels calls) n (mkResolveCall key began (Waits l)) (from_lookup result).
Proof.
  intros [Httl Hs _ _ _] Hmax Hends Hl Hsys Hn. destruct (decide (0 < free (slots (rw_resolver w)))) as [Hfree|Hfull].
  { by eapply gives_queued_free. }
  destruct (count_pos is_running (rw_tasks w)) as (i & [k' at_] & Hi & Hrun); [fold (running (rw_tasks w)); lia|].
  destruct at_; try done. assert (i ≠ l) as Hne by (intros ->; congruence).
  destruct (Hends k') as [result' Hres']. eapply gives_later.
  - split; [eapply (calls_return _ _ _ _ i k' result' Hi); by left|].
    intros i' k1 res Hi'. cbn in Hi' |- *. apply lookup_insert_Some in Hi' as [[_ [= <- <-]]|[_ Hi']]; [by right|by left].
  - eapply gives_queued_free; cbn; [done|done| |by rewrite lookup_insert_ne|done|done].
    rewrite release_permit. lia.
Qed.

(** The lookup a call waits for, when the system has not answered it yet. *)
Definition unanswered d (c : ResolveCall) : Prop :=
  ∃ l, rc_at c = Waits l ∧ (rw_tasks (dw_world d) !! l = Some (mkTask (rc_key c) Queued) ∨
    rw_tasks (dw_world d) !! l = Some (mkTask (rc_key c) Running)).
Lemma call_gives d n c :
  calls_wf d → time_left (dw_now d) → (∀ key, ∃ result, system (dw_now d) key result) → dw_calls d !! n = Some c →
  gives d n c (λ _, True) ∧
  ∀ result, unanswered d c → system (dw_now d) (rc_key c) result → gives d n c (from_lookup result).
Proof.
  intros Hd Hmax Hends Hn. assert (∀ P : _ → Prop, gives d n c P → gives d n c (λ _, True)) as Hany.
  { intros P (d' & r & H1 & H2 & _). by exists d', r. }
  assert (∀ result, unanswered d c → system (dw_now d) (rc_key c) result → gives d n c (from_lookup result)) as Hown.
  { intros result (l & Hat & Hl) Hsys. destruct d as [w now channels calls], c as [key began at_]. cbn in *. subst at_.
    destruct Hl; [by eapply gives_queued; [apply Hd|..]|by eapply gives_running; [apply Hd|..]]. }
  split; [|exact Hown]. pose proof (cw_calls _ Hd _ _ Hn) as Hok. destruct (Hends (rc_key c)) as [result0 Hres0].
  destruct d as [w now channels calls], c as [key began [l|result]].
  - destruct Hok as [_ [[at_ Hl]|(ch & Hch & _)]]; cbn [dw_world dw_now dw_channels dw_calls rc_at rc_key] in *.
    + destruct at_ as [| |result].
      * eapply Hany, Hown; [exists l; split; [done|by left]|exact Hres0].
      * eapply Hany, Hown; [exists l; split; [done|by right]|exact Hres0].
      * eapply Hany, gives_returned; [apply Hd|done..].
    + by eapply Hany, gives_answered.
  - do 2 eexists. split; [apply rtc_refl|]. by split; [exact Hn|].
Qed.
End Calls.

(** The address of a backend when the network's names are resolved by calls of
    the resolver: its own, or one the system lookup gave for its name and port. *)
Lemma resolved_backend `{SemaphoreSpec Sem free} {Up} (nets : Net Up → Prop) system ttl0 max_concurrent net b addr :
  (∀ net name port addrs, nets net → resolve net name port = inr addrs →
     ∃ (d : CallsWorld Sem) i began, calls_reachable system ttl0 max_concurrent d ∧
       dw_calls d !! i = Some (mkResolveCall (name, port) began (Gave (inr addrs)))) →
  nets net → backend_address net b addr →
  match backend_host b with
  | Ip ip => addr = (ip, backend_port b)
  | Dns name => ∃ t addrs, system t (name, backend_port b) (inr addrs) ∧ addr ∈ addrs
  end.
Proof.
  intros Hres Hnet Hadr. unfold backend_address in Hadr. destruct (backend_host b) as [ip|name]; [done|].
  destruct Hadr as (addrs & Hr & Hin).
  destruct (Hres _ _ _ _ Hnet Hr) as (d & i & began & Hd%(calls_reachable_wf (free := free)) & Hn).
  destruct (cw_calls _ _ _ _ Hd _ _ Hn addrs eq_refl) as (l' & Hp & _ & t & Hans & _).
  destruct (cw_answers _ _ _ _ Hd _ _ _ Hans) as (_ & t0 & _ & Hs). exists t0, l'. split; [done|]. by rewrite <- Hp.
Qed.

(** ** An example: one call, its lookup, and its answer *)
Definition example_resolved : list SocketAddr := [(V4 10 0 0 1, 443); (V4 10 0 0 2, 443)].
Definition example_system (t : Instant) (key : Key) (result : io_error + list SocketAddr) : Prop :=
  result = inr example_resolved.
Lemma example_resolve_call key :
  ∃ d : CallsWorld N, calls_reachable example_system (from_secs 30) 64 d ∧
    dw_calls d !! 0 = Some (mkResolveCall key 0 (Gave (inr example_resolved))) ∧
    rw_answers (dw_world d) = [(key, example_resolved, 0)].
Proof.
  eexists. split; [|split].
  - eexists. split; [reflexivity|]. eapply rtc_l; [by eapply (calls_call _ _ _ _ _ 0 key)|].
    eapply rtc_l; [eapply (calls_start _ _ _ _ _ 0 key); [apply lookup_insert_eq|reflexivity]|].
    eapply rtc_l; [eapply (calls_return _ _ _ _ _ 0 key (inr example_resolved)); [apply lookup_insert_eq|by left]|].
    eapply rtc_l; [eapply (calls_store _ _ _ _ _ 0 key (inr example_resolved)); [apply lookup_insert_eq|reflexivity]|].
    eapply rtc_once, (calls_wake _ _ _ _ _ 0 key 0 0); [apply lookup_insert_eq|apply lookup_insert_eq|reflexivity].
  - apply lookup_insert_eq.
  - reflexivity.
Qed.

(** ** Properties *)

(** C13: a call of [resolve].  [rw_answers] records every answer the system lookup
    gave, for which name and port, and when it was stored.  The addresses a call
    returned are one of those answers, for its very name and port, nonempty, and
    stored less than the TTL, the stale window and the negative TTL before the
    call began.  The step that gives them turns that answer by the resolver's
    rotation counter and moves the counter on by one, and nothing else moves it,
    so successive answers start at successive addresses.  And, whatever lookups
    are queued or running, if the system lookup answers then every call can
    return without any lookup failing: a call whose lookup is not answered yet
    can return each nonempty answer the system may give for its name and port. *)
Theorem resolve_call_contract `{SemaphoreSpec Sem free} system ttl0 max_concurrent (d : CallsWorld Sem) n c :
  calls_reachable system ttl0 max_concurrent d → dw_calls d !! n = Some c →
  (∀ a, rc_at c = Gave (inr a) →
     ∃ l t0 t, a ≡ₚ l ∧ l ≠ [] ∧ (rc_key c, l, t) ∈ rw_answers (dw_world d) ∧
       system t0 (rc_key c) (inr l) ∧ t0 ≤ t ≤ dw_now d ∧
       rc_began c < t + ttl0 + STALE_IF_ERROR + NEGATIVE_TTL) ∧
  (∀ d' m c' a, given system d d' m c' a →
     ∃ l t, l ≠ [] ∧ (rc_key c', l, t) ∈ rw_answers (dw_world d) ∧
       rc_began c' < t + ttl0 + STALE_IF_ERROR + NEGATIVE_TTL ∧
       a = turned (dw_rotation d mod len l) l ∧ dw_rotation d' = (dw_rotation d + 1) mod 2 ^ 64) ∧
  (∀ d', calls_step system d d' → dw_rotation d' = dw_rotation d ∨ ∃ m c' a, given system d d' m c' a) ∧
  (dw_now d + ttl0 + STALE_IF_ERROR ≤ instant_max → (∀ key, ∃ result, system (dw_now d) key result) →
   (∃ d' result, rtc (answered_step system) d d' ∧
      dw_calls d' !! n = Some (mkResolveCall (rc_key c) (rc_began c) (Gave result))) ∧
   (∀ x l, unanswered d c → system (dw_now d) (rc_key c) (inr (x :: l)) →
      ∃ d' start, rtc (answered_step system) d d' ∧
        dw_calls d' !! n = Some (mkResolveCall (rc_key c) (rc_began c) (Gave (inr (turned start (x :: l))))))).
Proof.
  intros Hd%(calls_reachable_wf (free := free)) Hn. split_and!.
  - intros a Ha. pose proof (cw_calls _ _ _ _ Hd _ _ Hn) as Hok. unfold resolve_call_ok in Hok. rewrite Ha in Hok.
    destruct (Hok a eq_refl) as (l & Hl & Hne & t & Ht & Hlt).
    destruct (cw_answers _ _ _ _ Hd _ _ _ Ht) as (Hle & t0 & Ht0 & Hs). exists l, t0, t. done.
  - intros d' m c' a Hg. destruct (given_turned (free := free) _ _ _ _ _ _ _ _ Hd Hg) as (l & (Hne & t & Ht & Hlt) & Ha & Hrot).
    exists l, t. split_and!; [done..| |done]. assert (len l ≠ 0) by by rewrite len_0. rewrite Ha. by replace (len l `max` 1) with (len l) by lia.
  - intros d' Hs. by apply (rotation_given (free := free) _ _ _ _ _ Hd).
  - intros Hmax Hends. destruct (call_gives (free := free) _ _ _ _ _ _ Hd Hmax Hends Hn) as [(d' & r & H1 & H2 & _) Hown].
    split; [by exists d', r|]. intros x l Hun Hs.
    destruct (Hown _ Hun Hs) as (d2 & told & H3 & H4 & start & ->). by exists d2, start.
Qed.
Lemma resolve_call_contract_witness :
  ∃ l t, (lit "b", 443, l, t) ∈ [(lit "b", 443, example_resolved, 0)] ∧ (V4 10 0 0 1, 443) ∈ l ∧ 0 < t + from_secs 91.
Proof.
  destruct (example_resolve_call (lit "b", 443)) as (d & Hd & Hn & Hlog).
  destruct (resolve_call_contract example_system (from_secs 30) 64 d 0 _ Hd Hn) as [Hans _].
  destruct (Hans _ eq_refl) as (l & t0 & t & Hp & _ & Ht & _ & _ & Hlt). exists l, t. rewrite Hlog in Ht.
  split; [exact Ht|]. split; [rewrite <- Hp; by left|].
  change (from_secs 91) with (from_secs 30 + (STALE_IF_ERROR + NEGATIVE_TTL)). rewrite !N.add_assoc. exact Hlt.
Defined.

(** C3: the pipeline over the resolver.  When the addresses the pipeline
    connects to come from calls of the resolver, a connection that is proxied
    goes to the IP address of its route's backend, or to an address that the
    system lookup gave for the backend's own name and port; and the upstream was
    sent exactly what the hello reader had read. *)
Theorem proxied_to_a_resolved_address `{ByteSource Src content, LookupContract L stored, TimeoutSpec, SemaphoreSpec Sem free}
    {Up} (peer : Up → SocketAddr) (sent : Up → bytes) config listener (stream : Src)
    (lookups : L → Prop) (nets : Net Up → Prop) system done u n k :
  wire_bound (hello_limits config) ≤ isize_max →
  (∀ l, lookups l → wf_table (stored l)) →
  (∀ net, nets net → NetSpec net peer sent) →
  (∀ net name port addrs, nets net → resolve net name port = inr addrs →
     ∃ (d : CallsWorld Sem) i began,
       calls_reachable system (dns_cache_ttl config) (max_concurrent_dns_lookups config) d ∧
       dw_calls d !! i = Some (mkResolveCall (name, port) began (Gave (inr addrs)))) →
  trace (run config listener) done (AwaitProxy u n k) →
  Forall (honest config stream lookups nets) done →
  ∃ info host m l rest,
    hello_result (hello_limits config) (content stream) = Ok info ∧ sni info = Some host ∧
    lookups l ∧ best_route (stored l) host m ∧
    match backend_host (match_backend m) with
    | Ip ip => peer u = (ip, backend_port (match_backend m))
    | Dns name => ∃ t0 addrs, system t0 (name, backend_port (match_backend m)) (inr addrs) ∧ peer u ∈ addrs
    end ∧
    replayed content (hello_limits config) stream (sent u) info rest.
Proof.
  intros Hmax Hwf Hnets Hres Ht Hhonest.
  destruct (proxied_route peer sent config listener stream lookups nets done u n k Hmax Hwf Hnets Ht Hhonest)
    as (info & host & m & l & net & rest & Hhello & Hsni & Hl & Hbest & Hnet & Hadr & Hsent).
  exists info, host, m, l, rest. do 4 (split; [done|]). split; [|done].
  by eapply (resolved_backend (free := free)).
Qed.
Lemma proxied_to_a_resolved_address_witness :
  ∃ info host m, hello_result HelloLimits.default (concat example_stream) = Ok info ∧ sni info = Some host ∧
    best_route (im_routes example_store) host m.
Proof.
  destruct example_trace as [k Hk].
  destruct (proxied_to_a_resolved_address (H2 := InMemoryLookup_contract) (H4 := simple_timeout_spec) (Sem := N) (free := λ n, n)
    fst snd RouterConfig_default example_listener example_stream (λ l, l = example_store)
    (λ net, net = example_upstream_net) example_system example_done example_up 32768 k)
    as (info & host & m & l & rest & H1 & H2 & -> & H3 & _).
  - vm_decide.
  - intros l ->. unfold wf_table. vm_decide.
  - intros net ->. apply example_net_spec.
  - intros net name port addrs -> Hr. cbn in Hr. case_decide; [|done]. injection Hr as <-.
    destruct (example_resolve_call (name, port)) as (d & Hd & Hn & _).
    exists d, 0, 0. split; [exact Hd|exact Hn].
  - exact Hk.
  - exact example_honest.
  - exists info, host, m. split_and!; [exact H1|exact H2|exact H3].
Defined.
