(* ===== verification/DeliveryTests.v ===== *)
(** * Tests of the delivery modules, evaluated on the model

    The tests of [delivery/gate.rs], of the splice admission and of
    [delivery/resolver.rs] that do not race threads: whether each test's
    assertions hold.  The resolver's run on a harness that keeps the clock and
    ends each blocking lookup when it is due. *)

From S2P Require Import Prelude Async Str Net Names Lookup Routing Protocol Reader Hello Records.
From S2P Require Import Framing Builder Parser HelloReader Metrics Gate Metered Splice SpliceProofs.
From S2P Require Import Proxy Resolver ResolverProofs Connection Pipeline ResolverCalls.
Import Resolver.Resolver.

Definition holds (m : section bool) : bool := match m with Ok b => b | _ => false end.

Module GateTests.
Definition enter_before_close_is_admitted_and_counted : section bool :=
  '(admitted, gate) ← ProxyGate.enter ProxyGate.new;
  let '(counted, gate) := ProxyGate.close gate in
  dropped ← ProxyGate.drop_pass gate;
  Ok (admitted && (counted =? 1) && ProxyGate.handshakes_cancelled gate && (proxying (gate_state dropped) =? 0)).

Definition enter_after_close_is_refused : section bool :=
  '(admitted, _) ← ProxyGate.enter (ProxyGate.close ProxyGate.new).2; Ok (negb admitted).
End GateTests.

Module SpliceTests.
Definition permits_reserve_at_least_half_the_limit_for_everything_else : bool :=
  splice_permits 8000 =? (8000 / 2) / 4.
Definition permits_are_zero_below_one_connections_worth_of_fds : bool := splice_permits 7 =? 0.
Definition permits_are_zero_when_the_limit_is_unknown : bool := splice_permits 0 =? 0.
Definition override_replaces_the_heuristic_when_set_and_valid : bool :=
  admission_capacity (Some (lit "3")) 8000 =? 3.
Definition override_of_zero_disables_splice_admission : bool :=
  admission_capacity (Some (lit "0")) 1000000 =? 0.
Definition unset_or_unparseable_override_falls_back_to_the_heuristic : bool :=
  (admission_capacity None 8000 =? splice_permits 8000) &&
  (admission_capacity (Some (lit "not-a-number")) 8000 =? splice_permits 8000).
End SpliceTests.

Module ResolverTests.

(** A blocking lookup under way: its channel, its key and when it returns. *)
Record Running := mkRunning { rn_id : N; rn_key : Key; rn_ends : Instant; rn_result : io_error + list SocketAddr }.
Record Harness := mkHarness {
  rh_resolver : Resolver N;
  rh_now : Instant;
  rh_next : N;
  rh_calls : N;
  rh_running : list Running;
  rh_sent : gmap N Outcome;
}.
Definition with_lookup (ttl : Duration) (max_concurrent : N) : section Harness :=
  r ← Resolver.Resolver.with_lookup ttl max_concurrent; Ok (mkHarness r 0 0 0 [] ∅).

Section Harness.
(** What the lookup answers its [n]th caller, and how long it blocks. *)
Context (answer : N → io_error + list SocketAddr) (takes : Duration).

(** [resolve] up to its await point; a lookup it spawned gets its permit. *)
Definition start (key : Key) (h : Harness) : section (ResolveAt * Harness) :=
  '(r, at_, spawned) ← resolve_call (rh_resolver h) key (rh_now h) (rh_next h);
  if spawned : bool then
    match lookup_start r with
    | Some r =>
      Ok (at_, mkHarness r (rh_now h) (rh_next h + 1) (rh_calls h + 1)
        (rh_running h ++ [mkRunning (rh_next h) key (rh_now h + takes) (answer (rh_calls h))]) (rh_sent h))
    | None => Stuck SPanic
    end
  else Ok (at_, mkHarness r (rh_now h) (rh_next h + 1) (rh_calls h) (rh_running h) (rh_sent h)).

(** The lookups due by [now + d] return and store, then the clock moves. *)
Fixpoint end_lookups (running : list Running) (until : Instant) (h : Harness) : section Harness :=
  match running with
  | [] => Ok (mkHarness (rh_resolver h) until (rh_next h) (rh_calls h) (rh_running h) (rh_sent h))
  | l :: running =>
    if rn_ends l <=? until then
      '(r, outcome) ← lookup_store (lookup_return (rh_resolver h)) (rn_key l) (rn_result l) (rn_ends l);
      end_lookups running until (mkHarness r (rh_now h) (rh_next h) (rh_calls h) (rh_running h) (<[rn_id l := outcome]> (rh_sent h)))
    else
      end_lookups running until (mkHarness (rh_resolver h) (rh_now h) (rh_next h) (rh_calls h) (rh_running h ++ [l]) (rh_sent h))
  end.
Definition sleep (d : Duration) (h : Harness) : section Harness :=
  end_lookups (rh_running h) (rh_now h + d)
    (mkHarness (rh_resolver h) (rh_now h) (rh_next h) (rh_calls h) [] (rh_sent h)).

(** The wait, and what the call returns. *)
Definition await (at_ : ResolveAt) (h : Harness) : section ((io_error + list SocketAddr) * Harness) :=
  match at_ with
  | Gave result => Ok (result, h)
  | Waits lookup =>
    h ← match rh_sent h !! lookup with Some _ => Ok h | None => sleep takes h end;
    '(r, at_) ← resolve_wake (rh_resolver h) (rh_sent h !! lookup);
    match at_ with
    | Gave result => Ok (result, mkHarness r (rh_now h) (rh_next h) (rh_calls h) (rh_running h) (rh_sent h))
    | Waits _ => Stuck SPanic
    end
  end.
Definition resolve (name : string) (h : Harness) : section ((io_error + list SocketAddr) * Harness) :=
  '(at_, h) ← start (lit name, 443) h; await at_ h.
Fixpoint resolve_times (n : nat) (name : string) (h : Harness) : section (list (io_error + list SocketAddr) * Harness) :=
  match n with
  | O => Ok ([], h)
  | S n => '(result, h) ← resolve name h; '(results, h) ← resolve_times n name h; Ok (result :: results, h)
  end.
(** [n] calls spawned at once, and their answers. *)
Fixpoint start_times (n : nat) (name : string) (h : Harness) : section (list ResolveAt * Harness) :=
  match n with
  | O => Ok ([], h)
  | S n => '(at_, h) ← start (lit name, 443) h; '(ats, h) ← start_times n name h; Ok (at_ :: ats, h)
  end.
Fixpoint await_all (ats : list ResolveAt) (h : Harness) : section (list (io_error + list SocketAddr) * Harness) :=
  match ats with
  | [] => Ok ([], h)
  | at_ :: ats => '(result, h) ← await at_ h; '(results, h) ← await_all ats h; Ok (result :: results, h)
  end.
End Harness.

Definition addr (last : N) : SocketAddr := (V4 10 0 0 last, 443).
Definition nxdomain : io_error := mkIoError KNotFound (lit "nxdomain").
Definition other (message : string) : io_error := mkIoError KOther (lit message).
Definition gave (result : io_error + list SocketAddr) (expected : list SocketAddr) : bool :=
  match result with inr l => bool_decide (l = expected) | inl _ => false end.
Definition failed (result : io_error + list SocketAddr) : bool := match result with inl _ => true | inr _ => false end.

Definition fresh_answers_are_served_from_cache : section bool :=
  resolver ← with_lookup (from_secs 30) 4;
  '(results, h) ← resolve_times (λ _, inr [addr 1]) 0 5 "svc" resolver;
  Ok (forallb (λ r, gave r [addr 1]) results && (rh_calls h =? 1)).

Definition expired_answers_are_re_resolved : section bool :=
  let answer n := inr [addr (n + 1)] in
  resolver ← with_lookup (from_millis 20) 4;
  '(first, h) ← resolve answer 0 "svc" resolver;
  h ← sleep (from_millis 40) h;
  '(second, h) ← resolve answer 0 "svc" h;
  Ok (gave first [addr 1] && gave second [addr 2] && (rh_calls h =? 2)).

Definition failures_are_briefly_cached : section bool :=
  resolver ← with_lookup (from_secs 30) 4;
  '(results, h) ← resolve_times (λ _, inl nxdomain) 0 2 "gone" resolver;
  Ok (forallb failed results && (rh_calls h =? 1)).

Definition stale_answer_is_used_when_re_resolution_fails : section bool :=
  let answer n := if n =? 0 then inr [addr 1] else inl (other "resolver down") in
  resolver ← with_lookup (from_millis 20) 4;
  '(first, h) ← resolve answer 0 "svc" resolver;
  h ← sleep (from_millis 40) h;
  '(second, h) ← resolve answer 0 "svc" h;
  Ok (negb (failed first) && gave second [addr 1]).

Definition empty_answer_is_an_error : section bool :=
  resolver ← with_lookup (from_secs 30) 4;
  '(result, _) ← resolve (λ _, inr []) 0 "svc" resolver; Ok (failed result).

Definition addresses_rotate_across_calls : section bool :=
  resolver ← with_lookup (from_secs 30) 4;
  '(results, _) ← resolve_times (λ _, inr [addr 1; addr 2; addr 3]) 0 3 "svc" resolver;
  let firsts := omap (λ r, match r with inr l => head l | inl _ => None end) results in
  Ok (forallb (λ r, match r with inr l => len l =? 3 | inl _ => false end) results &&
      bool_decide (firsts ≡ₚ [addr 1; addr 2; addr 3])).

Definition concurrent_callers_share_one_lookup : section bool :=
  let answer (_ : N) := inr [addr 1] in let takes := from_millis 50 in
  resolver ← with_lookup (from_secs 30) 16;
  '(callers, h) ← start_times answer takes 50 "svc" resolver;
  '(results, h) ← await_all takes callers h;
  Ok (forallb (λ r, gave r [addr 1]) results && (rh_calls h =? 1)).

(** The first caller gives up: its call is dropped. *)
Definition lookup_completes_and_caches_after_callers_give_up : section bool :=
  let answer (_ : N) := inr [addr 1] in let takes := from_millis 50 in
  resolver ← with_lookup (from_secs 30) 4;
  '(_, h) ← start answer takes (lit "svc", 443) resolver;
  h ← sleep (from_millis 5) h;
  h ← sleep (from_millis 150) h;
  '(result, h) ← resolve answer takes "svc" h;
  Ok (gave result [addr 1] && (rh_calls h =? 1)).

(** A panic of the blocking call is the join error of its task. *)
Definition panicking_lookup_reports_an_error_and_recovers : section bool :=
  let answer n := if n =? 0 then inl (other "resolver task failed: task panicked") else inr [addr 1] in
  resolver ← with_lookup 0 4;
  '(first, h) ← resolve answer 0 "svc" resolver;
  h ← sleep (from_millis 1100) h;
  '(second, h) ← resolve answer 0 "svc" h;
  Ok (failed first && gave second [addr 1]).
End ResolverTests.

Lemma splice_tests_pass :
  forallb id
    [SpliceTests.permits_reserve_at_least_half_the_limit_for_everything_else;
     SpliceTests.permits_are_zero_below_one_connections_worth_of_fds;
     SpliceTests.permits_are_zero_when_the_limit_is_unknown;
     SpliceTests.override_replaces_the_heuristic_when_set_and_valid;
     SpliceTests.override_of_zero_disables_splice_admission;
     SpliceTests.unset_or_unparseable_override_falls_back_to_the_heuristic] = true.
Proof. vm_compute. reflexivity. Qed.

Lemma delivery_tests_pass :
  forallb holds
    [GateTests.enter_before_close_is_admitted_and_counted; GateTests.enter_after_close_is_refused;
     ResolverTests.fresh_answers_are_served_from_cache; ResolverTests.expired_answers_are_re_resolved;
     ResolverTests.failures_are_briefly_cached; ResolverTests.stale_answer_is_used_when_re_resolution_fails;
     ResolverTests.empty_answer_is_an_error; ResolverTests.addresses_rotate_across_calls;
     ResolverTests.concurrent_callers_share_one_lookup;
     ResolverTests.lookup_completes_and_caches_after_callers_give_up;
     ResolverTests.panicking_lookup_reports_an_error_and_recovers] = true.
Proof. vm_compute. reflexivity. Qed.
