(* ===== verification/Server.v ===== *)
(** * Accepting, serving and shutting down ([delivery/server.rs])

    The accept loop, the connection tasks it spawns and the shutdown sequence,
    as one world and its steps.  A task runs the pipeline of [Connection]; what
    it did so far is kept beside it. *)

From S2P Require Import Prelude Async Str Net Names Lookup Routing Protocol Reader Hello Records.
From S2P Require Import Framing Builder Parser HelloReader Metrics Gate Metered Splice SpliceProofs.
From S2P Require Import Proxy Connection Pipeline.

Definition ACCEPT_ERROR_BACKOFF : Duration := from_millis 50.

(** [accept_any]'s poll: the first listener that is ready, from [next] on, and
    where to start the next time; [None] when none is. *)
Definition accept_any (ready : N → bool) (count next : N) : option (N * N) :=
  find_map (λ offset : nat,
    let index := (next + N.of_nat offset) mod count in
    if ready index then Some (index, (index + 1) mod count) else None) (seq 0 (N.to_nat count)).

Section Server.
Context {Up : Type} `{Semaphore Sem}.

(** ** Connection tasks *)
Inductive Conn :=
| Spawned (listener : ListenerInfo)
| Live (p : prog Up) (record : ConnectionRecord) (pass : bool) (did : list (Act (Up := Up))).

Definition ended (c : Conn) : bool :=
  match c with Live (Ret _) _ _ _ => true | Live Panic _ _ _ => true | _ => false end.
Definition is_live (c : Conn) : bool := match c with Live _ _ _ _ => true | Spawned _ => false end.
Definition conn_pass (c : Conn) : bool := match c with Live _ _ pass _ => pass | Spawned _ => false end.

(** What an action does to the task's close record, the metrics, and its pass. *)
Definition recorded (a : Act (Up := Up)) (r : ConnectionRecord) : ConnectionRecord :=
  match a with
  | DidLogSni h => mkConnectionRecord (cr_listener r) (cr_start r) (cr_bytes r) (cr_outcome r) (Some h) (cr_backend r)
  | DidLogBackend b => mkConnectionRecord (cr_listener r) (cr_start r) (cr_bytes r) (cr_outcome r) (cr_sni r) (Some b)
  | _ => r
  end.
Definition events_of (a : Act (Up := Up)) : list MetricEvent :=
  match a with DidEmit e => [e] | _ => [] end.
Definition pass_after (a : Act (Up := Up)) (pass : bool) : bool :=
  match a with DidEnter b => b | _ => pass end.

(** What the futures a task may wait for answer when they are polled; [None]
    while they are pending. *)
Record Futures := mkFutures {
  fut_hello : option (option (res HelloReadError (bytes * ClientHelloInfo)));
  fut_alert : option (option (io_error + unit));
  fut_route : option (res RouteError RouteMatch);
  fut_connect : option (option (io_error + Up));
  fut_idle : bool;
  fut_copy : option (io_error + unit);
}.
(** Nothing outside the router ever answers. *)
Definition pending : Futures := mkFutures None None None None false None.

(** Who answers: every wait before the proxy stage races the gate's token, the
    gate itself admits, and the proxy stage races the force token. *)
Definition answered (fs : Futures) (g : ProxyGate) (force : bool) (a : Act (Up := Up)) (g' : ProxyGate) : Prop :=
  match a with
  | DidHello x => g' = g ∧ cancellable (ProxyGate.handshakes_cancelled g) (fut_hello fs) = Some x
  | DidAlert x => g' = g ∧ cancellable (ProxyGate.handshakes_cancelled g) (fut_alert fs) = Some x
  | DidRoute _ x => g' = g ∧ cancellable (ProxyGate.handshakes_cancelled g) (fut_route fs) = Some x
  | DidConnect _ _ x => g' = g ∧ cancellable (ProxyGate.handshakes_cancelled g) (fut_connect fs) = Some x
  | DidEnter b => ProxyGate.enter g = Ok (b, g')
  | DidProxy _ _ e => g' = g ∧ proxy_poll (mkProxyPoll force (fut_idle fs) (fut_copy fs)) = Some e
  | _ => g' = g
  end.

(** A task ends: its pass is dropped, then its record. *)
Definition drop_conn (g : ProxyGate) (c : Conn) (now : Instant) : section (ProxyGate * list MetricEvent) :=
  match c with
  | Spawned _ => Ok (g, [])
  | Live p r pass _ =>
    g ← (if pass then ProxyGate.drop_pass g else Ok g);
    let r := match p with Ret o => close_connection o r | _ => r end in
    Ok (g, drop_record now r)
  end.

Inductive conn_step (config : RouterConfig) (fs : Futures) (force : bool) :
    ProxyGate → Conn → ProxyGate → Conn → list MetricEvent → Prop :=
| cs_start g listener now :
    conn_step config fs force g (Spawned listener) g
      (Live (run config listener) (handle_connection now listener).2 false []) (handle_connection now listener).1
| cs_act g g' p a p' r pass did :
    prog_step p a p' → answered fs g force a g' →
    conn_step config fs force g (Live p r pass did) g' (Live p' (recorded a r) (pass_after a pass) (did ++ [a]))
      (events_of a).

(** ** The server *)
Inductive AcceptAt := WaitSlot | WaitAccept | Backoff | AcceptDone.
Inductive Phase := Serving | Draining | Forcing | Done.

Record Server := mkServer {
  sv_gate : ProxyGate;
  sv_force : bool;
  sv_shutdown : bool;
  sv_phase : Phase;
  sv_accept : AcceptAt;
  sv_slots : Sem;
  sv_next : N;
  sv_conns : gmap N Conn;
  sv_next_id : N;
  sv_log : list (N * MetricEvent);
}.

Definition logged (id : N) (events : list MetricEvent) : list (N * MetricEvent) := pair id <$> events.

Context (config : RouterConfig) (listeners : list ListenerInfo).

Definition serve : section Server :=
  slots ← sem_new (max_connections config);
  Ok (mkServer ProxyGate.new false false Serving WaitSlot slots 0 ∅ 0 []).

(** The accept loop: [shutdown] wins every biased [select!]. *)
Definition accept_stop (s : Server) : Server :=
  mkServer (sv_gate s) (sv_force s) (sv_shutdown s) (sv_phase s) AcceptDone
    (match sv_accept s with WaitAccept => release (sv_slots s) | _ => sv_slots s end)
    (sv_next s) (sv_conns s) (sv_next_id s) (sv_log s).
Definition accept_slot (s : Server) : option Server :=
  if sv_shutdown s then Some (accept_stop s)
  else
    slots ← try_acquire (sv_slots s);
    Some (mkServer (sv_gate s) (sv_force s) (sv_shutdown s) (sv_phase s) WaitAccept slots (sv_next s)
      (sv_conns s) (sv_next_id s) (sv_log s)).
(** [ready]: which listeners are; [failed]: whether the accept is an error. *)
Definition accept_one (ready : N → bool) (failed : bool) (s : Server) : option Server :=
  if sv_shutdown s then Some (accept_stop s)
  else
    '(index, next) ← accept_any ready (len listeners) (sv_next s);
    listener ← get index listeners;
    if failed then
      Some (mkServer (sv_gate s) (sv_force s) (sv_shutdown s) (sv_phase s) Backoff (release (sv_slots s)) next
        (sv_conns s) (sv_next_id s) (sv_log s))
    else
      Some (mkServer (sv_gate s) (sv_force s) (sv_shutdown s) (sv_phase s) WaitSlot (sv_slots s) next
        (<[sv_next_id s := Spawned listener]> (sv_conns s)) (sv_next_id s + 1) (sv_log s)).
Definition accept_backoff (slept : bool) (s : Server) : option Server :=
  if slept then
    Some (mkServer (sv_gate s) (sv_force s) (sv_shutdown s) (sv_phase s) WaitSlot (sv_slots s) (sv_next s)
      (sv_conns s) (sv_next_id s) (sv_log s))
  else if sv_shutdown s then Some (accept_stop s) else None.

(** [serve] after the accept loop was spawned: what it does next, given whether
    the grace period has elapsed; [None] while it waits. *)
Definition serve_next (elapsed : bool) (s : Server) : option Server :=
  let with_phase force gate phase :=
    mkServer gate force (sv_shutdown s) phase (sv_accept s) (sv_slots s) (sv_next s) (sv_conns s)
      (sv_next_id s) (sv_log s) in
  let finished := bool_decide (sv_conns s = ∅) in
  match sv_phase s with
  | Serving =>
    match sv_shutdown s, sv_accept s with
    | true, AcceptDone => Some (with_phase (sv_force s) (ProxyGate.close (sv_gate s)).2 Draining)
    | _, _ => None
    end
  | Draining =>
    if finished then Some (with_phase (sv_force s) (sv_gate s) Done)
    else if elapsed then Some (with_phase true (sv_gate s) Forcing) else None
  | Forcing => if finished then Some (with_phase (sv_force s) (sv_gate s) Done) else None
  | Done => None
  end.

Definition with_conn (s : Server) (g : ProxyGate) (id : N) (c : Conn) (events : list MetricEvent) : Server :=
  mkServer g (sv_force s) (sv_shutdown s) (sv_phase s) (sv_accept s) (sv_slots s) (sv_next s)
    (<[id := c]> (sv_conns s)) (sv_next_id s) (sv_log s ++ logged id events).
(** The task's slot is dropped with the task. *)
Definition without_conn (s : Server) (g : ProxyGate) (id : N) (events : list MetricEvent) : Server :=
  mkServer g (sv_force s) (sv_shutdown s) (sv_phase s) (sv_accept s) (release (sv_slots s)) (sv_next s)
    (delete id (sv_conns s)) (sv_next_id s) (sv_log s ++ logged id events).

(** The steps that end or wait for something: what the router itself does, when
    the futures its tasks wait for answer [fs]. *)
Inductive router_step (fs : Futures) : Server → Server → Prop :=
| rs_slot s s' : sv_accept s = WaitSlot → accept_slot s = Some s' → router_step fs s s'
| rs_accept s s' ready failed : sv_accept s = WaitAccept → accept_one ready failed s = Some s' → router_step fs s s'
| rs_backoff s s' slept : sv_accept s = Backoff → accept_backoff slept s = Some s' → router_step fs s s'
| rs_serve s s' elapsed : serve_next elapsed s = Some s' → router_step fs s s'
| rs_conn s id c g' c' events :
    sv_conns s !! id = Some c → conn_step config fs (sv_force s) (sv_gate s) c g' c' events →
    router_step fs s (with_conn s g' id c' events)
| rs_end s id c now g' events :
    sv_conns s !! id = Some c → ended c = true → drop_conn (sv_gate s) c now = Ok (g', events) →
    router_step fs s (without_conn s g' id events).

(** Everything that can happen: also the shutdown signal, a task the runtime
    aborts, and bytes that move on a connection. *)
Inductive server_step : Server → Server → Prop :=
| ss_router fs s s' : router_step fs s s' → server_step s s'
| ss_shutdown s :
    server_step s (mkServer (sv_gate s) (sv_force s) true (sv_phase s) (sv_accept s) (sv_slots s) (sv_next s)
      (sv_conns s) (sv_next_id s) (sv_log s))
| ss_abort s id c now g' events :
    sv_conns s !! id = Some c → drop_conn (sv_gate s) c now = Ok (g', events) →
    server_step s (without_conn s g' id events)
| ss_traffic s id p r pass did read written :
    sv_conns s !! id = Some (Live p r pass did) →
    server_step s (with_conn s (sv_gate s) id
      (Live p (mkConnectionRecord (cr_listener r) (cr_start r)
         (ByteCounters.add_read read (ByteCounters.add_written written (cr_bytes r)))
         (cr_outcome r) (cr_sni r) (cr_backend r)) pass did) []).

Definition server_reachable (s : Server) : Prop := ∃ start, serve = Ok start ∧ rtc server_step start s.
End Server.
Arguments Futures _ : clear implicits.
Arguments Conn _ : clear implicits.
Arguments Server _ _ : clear implicits.
