(* ===== verification/ServerProofs.v ===== *)
(** * Accepting, serving and shutting down: proofs

    The invariant of every reachable server, and what it promises: capacity,
    one closing record per connection, the two sides of the gate, and a
    shutdown that ends. *)

From S2P Require Import Prelude Async Str Net Names Lookup Routing Protocol Reader Hello Records.
From S2P Require Import Framing Builder Parser HelloReader Metrics Gate Metered Splice SpliceProofs.
From S2P Require Import Proxy Connection Pipeline Server.

(** ** Which listener accepts *)
Lemma accept_any_spec ready count next :
  0 < count →
  match accept_any ready count next with
  | Some (index, next') => index < count ∧ next' < count ∧ ready index = true ∧
      ∃ offset, offset < count ∧ index = (next + offset) mod count ∧ next' = (index + 1) mod count ∧
        ∀ o, o < offset → ready ((next + o) mod count) = false
  | None => ∀ index, index < count → ready index = false
  end.
Proof.
  intros Hc. unfold accept_any. destruct (find_map _ _) as [[index next']|] eqn:Hf.
  - apply find_map_Some in Hf as (l1 & o & l2 & Hseq & Hin & Hl1). cbv zeta in Hin.
    destruct (ready ((next + N.of_nat o) mod count)) eqn:Hr; [|done]. injection Hin as <- <-.
    assert (o ∈ seq 0 (N.to_nat count)) as Ho%elem_of_seq by (rewrite Hseq; set_solver).
    split_and!; [apply N.mod_lt; lia|apply N.mod_lt; lia|done|]. exists (N.of_nat o). split_and!; [lia|done|done|].
    intros o' Ho'. rewrite Forall_forall in Hl1. specialize (Hl1 (N.to_nat o')).
    rewrite N2Nat.id in Hl1. cbv zeta in Hl1. destruct (ready ((next + o') mod count)); [|done].
    assert (N.to_nat o' ∈ l1) as Hin; [|by specialize (Hl1 Hin)].
    assert (∀ n, seq n (N.to_nat count - n) = l1 ++ o :: l2 → (n ≤ N.to_nat o')%nat → N.to_nat o' ∈ l1) as Hgen.
    { clear -Ho'. induction l1 as [|x l1 IH]; intros n Hn Hle.
      - destruct (N.to_nat count - n)%nat; [done|]. injection Hn as -> _. lia.
      - destruct (N.to_nat count - n)%nat as [|m] eqn:Hm; [done|]. injection Hn as -> Hn.
        destruct (decide (x = N.to_nat o')) as [->|]; [by left|]. right. apply (IH (S x)); [|lia].
        rewrite <- Hn. f_equal. lia. }
    apply (Hgen 0%nat); [by rewrite Nat.sub_0_r|lia].
  - intros index Hi. rewrite find_map_None in Hf.
    specialize (Hf (N.to_nat ((index + count - next mod count) mod count))).
    assert ((index + count - next mod count) mod count < count) as Hlt by (apply N.mod_lt; lia).
    rewrite N2Nat.id in Hf. cbv zeta in Hf.
    assert ((next + (index + count - next mod count) mod count) mod count = index) as Heq.
    { rewrite N.Div0.add_mod_idemp_r. rewrite <- N.Div0.add_mod_idemp_l.
      pose proof (N.mod_lt next count ltac:(lia)).
      replace (next mod count + (index + count - next mod count)) with (index + 1 * count) by lia.
      rewrite N.Div0.mod_add. by apply N.mod_small. }
    rewrite Heq in Hf. destruct (ready index); [|done].
    assert (N.to_nat ((index + count - next mod count) mod count) ∈ seq 0 (N.to_nat count)) as Hin; [|by specialize (Hf Hin)].
    apply elem_of_seq. revert Hlt. generalize ((index + count - next mod count) mod count). lia.
Qed.

(** C37: no listener starves.  [accept_any] takes the first ready listener from
    its rotating start on, in bounds, and starts the next time just behind it;
    it waits only when none is ready; so a listener that stays ready is taken
    after at most [count] accepts. *)
Theorem accept_any_fair ready count next listener :
  next < count → listener < count → ready listener = true →
  ∃ index next', accept_any ready count next = Some (index, next') ∧ index < count ∧ next' < count ∧
    ready index = true ∧
    (index = listener ∨ (listener + count - next') mod count < (listener + count - next) mod count).
Proof.
  intros Hn Hl Hr. pose proof (accept_any_spec ready count next ltac:(lia)) as Hspec.
  destruct (accept_any ready count next) as [[index next']|]; [|by rewrite Hspec in Hr].
  destruct Hspec as (Hi & Hn' & Hri & o & Ho & Hio & Hnext & Hbefore).
  exists index, next'. split_and!; try done. destruct (decide (index = listener)) as [|Hne]; [by left|right].
  set (d := (listener + count - next) mod count) in *.
  assert (d < count) as Hd by (apply N.mod_lt; lia).
  assert ((next + d) mod count = listener) as Hnd.
  { unfold d. rewrite N.Div0.add_mod_idemp_r. replace (next + (listener + count - next)) with (listener + 1 * count) by lia.
    rewrite N.Div0.mod_add. by apply N.mod_small. }
  clearbody d. assert (o ≤ d) as Hod.
  { destruct (N.le_gt_cases o d) as [|Hlt]; [done|]. specialize (Hbefore d Hlt). congruence. }
  assert (o ≠ d) by congruence.
  assert ((listener + count - next') mod count = d - (o + 1)) as ->; [|lia].
  assert (next' = (next + (o + 1)) mod count) as ->.
  { rewrite Hnext, Hio, N.Div0.add_mod_idemp_l. f_equal. lia. }
  destruct (N.lt_ge_cases (next + (o + 1)) count) as [Hlt|Hge].
  - rewrite (N.mod_small (next + (o + 1))) by done.
    destruct (N.lt_ge_cases (next + d) count) as [Hlt2|Hge2].
    + rewrite (N.mod_small (next + d)) in Hnd by done. subst listener.
      symmetry. apply (N.mod_unique _ _ 1); lia.
    + assert (listener = next + d - count) as ->.
      { rewrite <- Hnd. symmetry. apply (N.mod_unique _ _ 1); lia. }
      replace (next + d - count + count - (next + (o + 1))) with (d - (o + 1)) by lia. apply N.mod_small. lia.
  - assert ((next + (o + 1)) mod count = next + (o + 1) - count) as ->.
    { symmetry. apply (N.mod_unique _ _ 1); lia. }
    assert (listener = next + d - count) as ->.
    { rewrite <- Hnd. symmetry. apply (N.mod_unique _ _ 1); lia. }
    symmetry. apply (N.mod_unique _ _ 1); lia.
Qed.
Lemma accept_any_fair_witness :
  ∃ next', accept_any (λ i, i =? 0) 3 1 = Some (0, next') ∧ next' < 3.
Proof.
  destruct (accept_any_fair (λ i, i =? 0) 3 1 0 ltac:(reflexivity) ltac:(reflexivity) ltac:(reflexivity))
    as (index & next' & Ha & _ & Hn & Hr & _).
  apply N.eqb_eq in Hr. subst index. exists next'. split; [exact Ha|exact Hn].
Defined.

(** ** The invariant *)
Section ServerProofs.
Context {Up : Type} `{SemaphoreSpec Sem free}.
Context (config : RouterConfig) (listeners : list ListenerInfo).
Abbreviation Server := (Server Up Sem).
Implicit Types (s : Server) (c : Conn Up).

(** The metrics of one connection. *)
Definition log_of (id : N) (log : list (N * MetricEvent)) : list MetricEvent :=
  omap (λ x, if decide (x.1 = id) then Some x.2 else None) log.
Lemma log_of_app id l k : log_of id (l ++ k) = log_of id l ++ log_of id k.
Proof. apply omap_app. Qed.
Lemma log_of_cons id x l : log_of id (x :: l) = if decide (x.1 = id) then x.2 :: log_of id l else log_of id l.
Proof. unfold log_of. cbn. by case_decide. Qed.
Lemma log_of_logged id id' es : log_of id (logged id' es) = if decide (id' = id) then es else [].
Proof.
  induction es as [|e es IH]; [by case_decide|].
  change (logged id' (e :: es)) with ((id', e) :: logged id' es). rewrite log_of_cons, IH.
  cbn [fst snd]. by case_decide.
Qed.
Lemma log_of_other id id' l es : id' ≠ id → log_of id (l ++ logged id' es) = log_of id l.
Proof. intros. rewrite log_of_app, log_of_logged, decide_False, app_nil_r by done. done. Qed.
Lemma log_of_same id l es : log_of id (l ++ logged id es) = log_of id l ++ es.
Proof. by rewrite log_of_app, log_of_logged, decide_True. Qed.

(** What a run told the metrics so far. *)
Definition told (li : ListenerInfo) (did : list (Act (Up := Up))) : list MetricEvent :=
  ConnectionOpened li :: (did ≫= events_of).

Definition conn_ok (log : list MetricEvent) c : Prop :=
  match c with
  | Spawned _ => log = []
  | Live p r pass did => ∃ li, trace (run config li) did p ∧ (pass = true ↔ DidEnter true ∈ did) ∧
      log = told li did ∧ cr_listener r = li ∧ cr_outcome r = None
  end.

(** The books of a connection that is over: never started, or closed with the
    outcome of its run, or with [Aborted] when it did not finish. *)
Definition books_closed (log : list MetricEvent) : Prop :=
  log = [] ∨ ∃ li did p r now,
    trace (run config li) did p ∧ cr_listener r = li ∧
    cr_outcome r = match p with Ret o => Some o | _ => None end ∧
    log = told li did ++ drop_record now r.

Definition accepting (a : AcceptAt) : N := match a with WaitAccept => 1 | _ => 0 end.

Record server_wf s : Prop := {
  swf_gate : proxying (gate_state (sv_gate s)) = count conn_pass (sv_conns s);
  swf_token : ProxyGate.handshakes_cancelled (sv_gate s) = closed (gate_state (sv_gate s));
  swf_closed : closed (gate_state (sv_gate s)) = match sv_phase s with Serving => false | _ => true end;
  swf_accept : sv_phase s ≠ Serving → sv_accept s = AcceptDone;
  swf_stopped : sv_accept s = AcceptDone → sv_shutdown s = true;
  swf_force : sv_force s = true → sv_phase s = Forcing ∨ sv_phase s = Done;
  swf_forcing : sv_phase s = Forcing → sv_force s = true;
  swf_done : sv_phase s = Done → sv_conns s = ∅;
  swf_slots : free (sv_slots s) + N.of_nat (size (sv_conns s)) + accepting (sv_accept s) = max_connections config;
  swf_conns id c : sv_conns s !! id = Some c → id < sv_next_id s ∧ conn_ok (log_of id (sv_log s)) c;
  swf_books id : sv_conns s !! id = None → books_closed (log_of id (sv_log s));
  swf_fresh id : sv_next_id s ≤ id → log_of id (sv_log s) = [];
}.

Lemma told_snoc li did a : told li (did ++ [a]) = told li did ++ events_of a.
Proof. unfold told. cbn. by rewrite bind_app, bind_singleton. Qed.

(** A step of a task keeps what is known of it. *)
Lemma conn_step_ok fs force g c g' c' events log :
  conn_step config fs force g c g' c' events → conn_ok log c → conn_ok (log ++ events) c'.
Proof.
  intros [g0 li now|g0 g0' p a p' r pass did Hs Ha] Hc; cbn in Hc |- *.
  - exists li. rewrite Hc. split_and!; [apply trace_nil| |done|done|done].
    split; [done|]. by intros ?%elem_of_nil.
  - destruct Hc as (li & Ht & Hp & -> & Hli & Ho). exists li. split_and!.
    + by eapply trace_snoc.
    + rewrite elem_of_app, list_elem_of_singleton, <- Hp. destruct Hs; cbn [pass_after];
        try (split; [by left|by intros [|[=]]]).
      pose proof (run_unpassed _ _ _ _ (always_trace _ [] _ _ _ (run_always config li) Ht)) as Hno.
      cbn [app] in Hno. specialize (Hno (or_intror (ex_intro _ k eq_refl))). rewrite <- Hp in Hno.
      destruct pass; [by destruct Hno|]. destruct b; (split; [auto; done|by intros [|[=]]]).
    + by rewrite told_snoc.
    + by destruct a.
    + by destruct a.
Qed.
Lemma drop_conn_ok g c now g' events log :
  drop_conn g c now = Ok (g', events) → conn_ok log c → books_closed (log ++ events).
Proof.
  destruct c as [li|p r pass did]; cbn [drop_conn conn_ok].
  - intros [= <- <-] ->. by left.
  - intros (g1 & _ & [= <- <-])%bind_Ok (li & Ht & _ & -> & Hli & Ho). right.
    exists li, did, p, (match p with Ret o => close_connection o r | _ => r end), now.
    split_and!; [done|by destruct p|by destruct p|done].
Qed.

(** How a task's steps move the gate's counter. *)
Lemma conn_step_gate fs force g c g' c' events log :
  conn_step config fs force g c g' c' events → conn_ok log c →
  proxying (gate_state g') + weight conn_pass c = proxying (gate_state g) + weight conn_pass c' ∧
  closed (gate_state g') = closed (gate_state g) ∧ gate_cancelled g' = gate_cancelled g.
Proof.
  intros [g0 li now|g0 g0' p a p' r pass did Hs Ha] Hc; cbn in Hc; [done|].
  assert (g0' = g0 → pass_after a pass = pass → proxying (gate_state g0') + weight conn_pass (Live p r pass did) =
    proxying (gate_state g0) + weight conn_pass (Live p' (recorded a r) (pass_after a pass) (did ++ [a])) ∧
    closed (gate_state g0') = closed (gate_state g0) ∧ gate_cancelled g0' = gate_cancelled g0) as Hsame.
  { intros -> Hp. unfold weight, conn_pass. by rewrite Hp. }
  destruct Hs; cbn [answered pass_after] in *;
    try (apply Hsame; [first [exact Ha|exact (proj1 Ha)]|reflexivity]).
  destruct Hc as (li & Ht & Hp & _).
  pose proof (run_unpassed _ _ _ _ (always_trace _ [] _ _ _ (run_always config li) Ht)) as Hno.
  cbn [app] in Hno. specialize (Hno (or_intror (ex_intro _ k eq_refl))). rewrite <- Hp in Hno.
  destruct pass; [by destruct Hno|]. apply enter_cases in Ha. destruct b.
  - destruct Ha as [Hcl ->]. unfold weight. cbn [conn_pass gate_state gate_cancelled proxying closed].
    rewrite Hcl. split_and!; done || lia.
  - destruct Ha as [_ ->]. done.
Qed.
Lemma drop_conn_gate g c now g' events :
  drop_conn g c now = Ok (g', events) →
  (if conn_pass c then 1 ≤ proxying (gate_state g) else True) ∧
  proxying (gate_state g') + weight conn_pass c = proxying (gate_state g) ∧
  closed (gate_state g') = closed (gate_state g) ∧ gate_cancelled g' = gate_cancelled g.
Proof.
  destruct c as [li|p r pass did]; cbn [drop_conn conn_pass]; [intros [= <- _]; split_and!; done || cbn; lia|].
  intros (g1 & Hg & [= <- _])%bind_Ok. unfold weight, conn_pass. destruct pass; [|simplify_eq; split_and!; done || lia].
  pose proof Hg as Hg'. apply drop_pass_cases in Hg as ->. cbn. unfold ProxyGate.drop_pass, usub in Hg'.
  destruct (N.leb_spec 1 (proxying (gate_state g))); [|done]. split_and!; done || lia.
Qed.

(** ** Preservation *)
Lemma with_conn_wf s id c g' c' events :
  server_wf s → sv_conns s !! id = Some c → conn_ok (log_of id (sv_log s) ++ events) c' →
  proxying (gate_state g') + weight conn_pass c = proxying (gate_state (sv_gate s)) + weight conn_pass c' →
  closed (gate_state g') = closed (gate_state (sv_gate s)) → gate_cancelled g' = gate_cancelled (sv_gate s) →
  server_wf (with_conn s g' id c' events).
Proof.
  intros [Hg Ht Hcl Ha Hst Hf Hfo Hd Hs Hc Hb Hfr] Hid Hok Hn Hclosed Hcan. unfold with_conn.
  split; cbn [sv_gate sv_force sv_shutdown sv_phase sv_accept sv_slots sv_next sv_conns sv_next_id sv_log]; try done.
  - pose proof (total_replace (weight conn_pass) _ _ _ c' Hid). unfold count in *. lia.
  - unfold ProxyGate.handshakes_cancelled in *. congruence.
  - congruence.
  - intros Hdone. rewrite (Hd Hdone) in Hid. by rewrite lookup_empty in Hid.
  - rewrite map_size_insert_Some by by eexists. done.
  - intros i d [[<- <-]|[Hne Hd']]%lookup_insert_Some.
    + rewrite log_of_same. split; [by eapply Hc|done].
    + rewrite log_of_other by done. by apply Hc.
  - intros i [Hi Hne]%lookup_insert_None. rewrite log_of_other by done. by apply Hb.
  - intros i Hi. destruct (Hc _ _ Hid). rewrite log_of_other by lia. by apply Hfr.
Qed.
Lemma without_conn_wf s id c g' events :
  server_wf s → sv_conns s !! id = Some c → books_closed (log_of id (sv_log s) ++ events) →
  proxying (gate_state g') + weight conn_pass c = proxying (gate_state (sv_gate s)) →
  closed (gate_state g') = closed (gate_state (sv_gate s)) → gate_cancelled g' = gate_cancelled (sv_gate s) →
  server_wf (without_conn s g' id events).
Proof.
  intros [Hg Ht Hcl Ha Hst Hf Hfo Hd Hs Hc Hb Hfr] Hid Hok Hn Hclosed Hcan. unfold without_conn.
  split; cbn [sv_gate sv_force sv_shutdown sv_phase sv_accept sv_slots sv_next sv_conns sv_next_id sv_log]; try done.
  - pose proof (total_delete (weight conn_pass) _ _ _ Hid). unfold count in *. lia.
  - unfold ProxyGate.handshakes_cancelled in *. congruence.
  - congruence.
  - intros Hdone. by rewrite (Hd Hdone), delete_empty.
  - rewrite release_permit, map_size_delete_Some by by eexists.
    assert (size (sv_conns s) ≠ 0%nat) by (apply map_size_ne_0_lookup; eauto). lia.
  - intros i d [Hne Hd']%lookup_delete_Some. rewrite log_of_other by done. by apply Hc.
  - intros i [<-|Hi]%lookup_delete_None; [by rewrite log_of_same|].
    destruct (decide (i = id)) as [->|]; [congruence|]. rewrite log_of_other by done. by apply Hb.
  - intros i Hi. destruct (Hc _ _ Hid). rewrite log_of_other by lia. by apply Hfr.
Qed.
Lemma drop_conn_wf s id c now g' events :
  server_wf s → sv_conns s !! id = Some c → drop_conn (sv_gate s) c now = Ok (g', events) →
  server_wf (without_conn s g' id events).
Proof.
  intros Hwf Hid Hs. pose proof (swf_conns _ Hwf _ _ Hid) as [_ Hok].
  destruct (drop_conn_gate _ _ _ _ _ Hs) as (_ & H1 & H2 & H3).
  eapply without_conn_wf; [done|done|by eapply drop_conn_ok|done..].
Qed.

(** Unfolds the record a step builds. *)
Ltac server_fields :=
  split; cbn [sv_gate sv_force sv_shutdown sv_phase sv_accept sv_slots sv_next sv_conns sv_next_id sv_log accepting];
  try done.

(** While the accept loop runs, the server is serving. *)
Lemma accepting_serving s : server_wf s → sv_accept s ≠ AcceptDone → sv_phase s = Serving.
Proof. intros Hwf Ha. destruct (sv_phase s) eqn:Hp; [done|..]; by destruct Ha; apply Hwf; rewrite Hp. Qed.

Lemma accept_stop_wf s :
  server_wf s → sv_accept s ≠ AcceptDone → sv_shutdown s = true → server_wf (accept_stop s).
Proof.
  intros Hwf Ha Hs. pose proof Hwf as [Hg Ht Hcl Hac Hst Hf Hfo Hd Hsl Hc Hb Hfr]. unfold accept_stop.
  server_fields. destruct (sv_accept s); cbn [accepting] in Hsl; rewrite ?release_permit; lia.
Qed.
Lemma accept_slot_wf s s' :
  server_wf s → sv_accept s = WaitSlot → accept_slot s = Some s' → server_wf s'.
Proof.
  intros Hwf Ha. unfold accept_slot. destruct (sv_shutdown s) eqn:Hs.
  { intros [= <-]. apply accept_stop_wf; [done|congruence|done]. }
  intros (slots & Hslots & [= <-])%bind_Some. apply try_acquire_Some in Hslots.
  assert (sv_phase s = Serving) as Hp by (apply accepting_serving; [done|congruence]).
  destruct Hwf as [Hg Ht Hcl Hac Hst Hf Hfo Hd Hsl Hc Hb Hfr]. rewrite Ha in *. server_fields.
  cbn [accepting] in Hsl. lia.
Qed.
Lemma accept_backoff_wf s s' slept :
  server_wf s → sv_accept s = Backoff → accept_backoff slept s = Some s' → server_wf s'.
Proof.
  intros Hwf Ha. unfold accept_backoff. destruct slept.
  - intros [= <-]. assert (sv_phase s = Serving) as Hp by (apply accepting_serving; [done|congruence]).
    destruct Hwf as [Hg Ht Hcl Hac Hst Hf Hfo Hd Hsl Hc Hb Hfr]. rewrite Ha in *. server_fields.
  - destruct (sv_shutdown s) eqn:Hs; [|done]. intros [= <-]. apply accept_stop_wf; [done|congruence|done].
Qed.
Lemma accept_one_wf s s' ready failed :
  server_wf s → sv_accept s = WaitAccept → accept_one listeners ready failed s = Some s' → server_wf s'.
Proof.
  intros Hwf Ha. unfold accept_one. destruct (sv_shutdown s) eqn:Hs.
  { intros [= <-]. apply accept_stop_wf; [done|congruence|done]. }
  intros ([index next] & _ & (li & _ & Hs')%bind_Some)%bind_Some.
  assert (sv_phase s = Serving) as Hp by (apply accepting_serving; [done|congruence]).
  destruct Hwf as [Hg Ht Hcl Hac Hst Hf Hfo Hd Hsl Hc Hb Hfr]. rewrite Ha in *. cbn [accepting] in Hsl.
  destruct failed; injection Hs' as <-; server_fields; [rewrite release_permit; lia|..];
    assert (sv_conns s !! sv_next_id s = None) as Hnew by
      (destruct (sv_conns s !! sv_next_id s) as [c|] eqn:Hn; [destruct (Hc _ _ Hn); lia|done]).
  - unfold count in *. rewrite total_new, Hg by done. unfold weight. cbn. lia.
  - congruence.
  - rewrite map_size_insert_None by done. lia.
  - intros i c [[<- <-]|[Hne Hi]]%lookup_insert_Some.
    + split; [lia|]. by apply Hfr.
    + destruct (Hc _ _ Hi). split; [lia|done].
  - intros i [Hi Hne]%lookup_insert_None. by apply Hb.
  - intros i Hi. apply Hfr. lia.
Qed.
Lemma serve_next_wf s s' elapsed : server_wf s → serve_next elapsed s = Some s' → server_wf s'.
Proof.
  intros [Hg Ht Hcl Hac Hst Hf Hfo Hd Hsl Hc Hb Hfr]. unfold serve_next.
  destruct (sv_phase s) eqn:Hp; [|case_bool_decide as He; [|destruct elapsed; [|done]]|case_bool_decide as He; [|done]|done].
  { destruct (sv_shutdown s) eqn:Hs; [|done]. destruct (sv_accept s) eqn:Ha; [done..|]. intros [= <-].
    server_fields. intros Hforce. by destruct (Hf Hforce). }
  all: intros [= <-]; server_fields; (by intros _; apply Hac) || (by intros _; right) || (by left).
Qed.

Lemma server_wf_step s s' : server_wf s → server_step config listeners s s' → server_wf s'.
Proof.
  intros Hwf Hstep. revert Hwf. destruct Hstep as [fs s0 s1 Hr|s0|s0 id c now g' events Hid Hs|s0 id p r pass did read written Hid]; intros Hwf.
  - revert Hwf. destruct Hr as [s0 s1 Ha Hs|s0 s1 ready failed Ha Hs|s0 s1 slept Ha Hs|s0 s1 elapsed Hs
      |s0 id c g' c' events Hid Hs|s0 id c now g' events Hid _ Hs]; intros Hwf.
    + by eapply accept_slot_wf.
    + by eapply accept_one_wf.
    + by eapply accept_backoff_wf.
    + by eapply serve_next_wf.
    + pose proof (swf_conns _ Hwf _ _ Hid) as [_ Hok].
      destruct (conn_step_gate _ _ _ _ _ _ _ _ Hs Hok) as (H1 & H2 & H3).
      eapply with_conn_wf; [done|done|by eapply conn_step_ok|done..].
    + by eapply drop_conn_wf.
  - destruct Hwf. server_fields.
  - by eapply drop_conn_wf.
  - eapply with_conn_wf; [done|done| |done..]. rewrite app_nil_r.
    destruct (swf_conns _ Hwf _ _ Hid) as [_ (li & Ht & Hp & Hlog & Hli & Ho)]. by exists li.
Qed.

Lemma server_reachable_wf s : server_reachable config listeners s → server_wf s.
Proof.
  intros (start & (slots & Hn%sem_new_permits & [= <-])%bind_Ok & Hs).
  refine (rtc_ind_r (R := server_step config listeners) server_wf _ _ _ _ Hs); [|by eauto using server_wf_step].
  server_fields.
  - rewrite Hn, map_size_empty. lia.
  - by intros id _; left.
Qed.

(** ** Shutdown ends *)

(** How many steps a task has left, at most, and a server that is shutting
    down. *)
Definition rank c : N :=
  match c with Spawned _ => 17 | Live _ _ _ did => 16 - len did end.
Definition phase_rank (p : Phase) : N :=
  match p with Serving => 3 | Draining => 2 | Forcing => 1 | Done => 0 end.
Definition measure s : N := phase_rank (sv_phase s) + total rank (sv_conns s).

Lemma rank_le c : rank c ≤ 17.
Proof. destruct c; cbn; lia. Qed.
Lemma rank_live log p r pass did : conn_ok log (Live p r pass did) → len did ≤ 14.
Proof.
  intros (li & Ht & _).
  pose proof (run_length _ _ _ _ (always_trace _ [] _ _ _ (run_always config li) Ht)). unfold len. cbn in *. lia.
Qed.
Lemma rank_pos log c : conn_ok log c → 1 ≤ rank c.
Proof. destruct c as [li|p r pass did]; [cbn; lia|]. intros Hl%rank_live. cbn. lia. Qed.
Lemma conn_step_rank fs force g c g' c' events log :
  conn_step config fs force g c g' c' events → conn_ok log c → rank c' < rank c.
Proof.
  intros Hs Hok. pose proof (conn_step_ok _ _ _ _ _ _ _ _ Hs Hok) as Hok'.
  destruct Hs as [|g0 g0' p a p' r pass did Hs Ha]; [cbn; lia|].
  apply rank_live in Hok'. cbn. rewrite len_app, len_cons, len_nil in *. lia.
Qed.

Lemma remove_measure s id c g' events :
  sv_conns s !! id = Some c → measure (without_conn s g' id events) + rank c = measure s.
Proof. intros Hid. unfold measure, without_conn. cbn. rewrite (total_delete rank _ _ _ Hid). lia. Qed.
Lemma replace_measure s id c g' c' events :
  sv_conns s !! id = Some c → measure (with_conn s g' id c' events) + rank c = measure s + rank c'.
Proof. intros Hid. unfold measure, with_conn. cbn. pose proof (total_replace rank _ _ _ c' Hid). lia. Qed.

Lemma router_step_measure fs s s' :
  server_wf s → sv_phase s ≠ Serving → router_step config listeners fs s s' →
  measure s' < measure s ∧ sv_phase s' ≠ Serving.
Proof.
  intros Hwf Hp Hstep. pose proof (swf_accept _ Hwf Hp) as Ha. revert Hwf Hp Ha.
  destruct Hstep as [s0 s1 Ha Hs|s0 s1 ready failed Ha Hs|s0 s1 slept Ha Hs|s0 s1 elapsed Hs
      |s0 id c g' c' events Hid Hs|s0 id c now g' events Hid _ Hs]; intros Hwf Hp Ha'; [congruence..| | |].
  - unfold serve_next in Hs. destruct (sv_phase s0) eqn:Hp0; [done| | |done];
      case_bool_decide; try destruct elapsed; simplify_eq; unfold measure; rewrite Hp0; cbn; split; done || lia.
  - pose proof (swf_conns _ Hwf _ _ Hid) as [_ Hok]. pose proof (conn_step_rank _ _ _ _ _ _ _ _ Hs Hok).
    pose proof (replace_measure _ _ _ g' c' events Hid). split; [lia|done].
  - pose proof (swf_conns _ Hwf _ _ Hid) as [_ Hok]. pose proof (rank_pos _ _ Hok).
    pose proof (remove_measure _ _ _ g' events Hid). split; [lia|done].
Qed.
Lemma server_step_measure s s' :
  server_wf s → sv_phase s ≠ Serving → server_step config listeners s s' →
  measure s' ≤ measure s ∧ sv_phase s' ≠ Serving.
Proof.
  intros Hwf Hp Hstep. revert Hwf Hp. destruct Hstep as [fs s0 s1 Hr|s0|s0 id c now g' events Hid Hs
    |s0 id p r pass did read written Hid]; intros Hwf Hp.
  - destruct (router_step_measure _ _ _ Hwf Hp Hr). split; [lia|done].
  - done.
  - pose proof (remove_measure _ _ _ g' events Hid). split; [lia|done].
  - split; [|done]. pose proof (replace_measure _ _ _ (sv_gate s0) (Live p (mkConnectionRecord (cr_listener r) (cr_start r)
         (ByteCounters.add_read read (ByteCounters.add_written written (cr_bytes r)))
         (cr_outcome r) (cr_sni r) (cr_backend r)) pass did) [] Hid) as Hm. cbn [rank] in Hm. lia.
Qed.

(** One step of the router itself, after whatever else happened. *)
Definition turn s s' : Prop :=
  ∃ s1 fs, rtc (server_step config listeners) s s1 ∧ router_step config listeners fs s1 s'.

Lemma rtc_measure s s' :
  server_wf s → sv_phase s ≠ Serving → rtc (server_step config listeners) s s' →
  server_wf s' ∧ measure s' ≤ measure s ∧ sv_phase s' ≠ Serving.
Proof.
  intros Hwf Hp Hs. induction Hs as [s|s s1 s2 Hs _ IH]; [done|].
  destruct (server_step_measure _ _ Hwf Hp Hs) as [Hm Hp1].
  destruct IH as (H1 & H2 & H3); [by eapply server_wf_step|done|]. split_and!; [done|lia|done].
Qed.
Lemma turns_bounded n s s' :
  server_wf s → sv_phase s ≠ Serving → nsteps turn n s s' → N.of_nat n ≤ measure s.
Proof.
  intros Hwf Hp Hn. revert Hwf Hp. induction Hn as [s|n s s1 s2 (s0 & fs & Hs & Hr) _ IH]; intros Hwf Hp; [lia|].
  destruct (rtc_measure _ _ Hwf Hp Hs) as (Hwf0 & Hm0 & Hp0).
  destruct (router_step_measure _ _ _ Hwf0 Hp0 Hr) as [Hm1 Hp1].
  specialize (IH ltac:(eapply server_wf_step; [done|by eapply ss_router]) Hp1). lia.
Qed.

(** A task is never stuck once the force token fired, whatever the futures it
    waits for answer, and if they never do. *)
Lemma task_progress fs s id c :
  server_wf s → sv_phase s = Forcing → sv_conns s !! id = Some c →
  ∃ s', router_step config listeners fs s s'.
Proof.
  intros Hwf Hp Hid. pose proof (swf_token _ Hwf) as Ht. pose proof (swf_closed _ Hwf) as Hc.
  pose proof (swf_forcing _ Hwf Hp) as Hf. rewrite Hp in Hc. rewrite Hc in Ht.
  destruct c as [li|p r pass did]; [eexists; eapply rs_conn; [exact Hid|by eapply (cs_start _ _ _ _ _ 0)]|].
  assert (∀ a p', prog_step p a p' → answered fs (sv_gate s) (sv_force s) a (sv_gate s) →
    ∃ s', router_step config listeners fs s s') as Hact.
  { intros a p' Hs Ha. eexists. eapply rs_conn; [exact Hid|]. by eapply cs_act. }
  assert (ended (Live p r pass did) = true → ∃ s', router_step config listeners fs s s') as Hend.
  { intros He. assert (∃ g', (if pass then ProxyGate.drop_pass (sv_gate s) else Ok (sv_gate s)) = Ok g') as [g' Hg'].
    { destruct pass; [|by eexists]. unfold ProxyGate.drop_pass. rewrite usub_Ok; [by eexists|].
      rewrite (swf_gate _ Hwf). unfold count. rewrite (total_delete _ _ _ _ Hid). cbn. lia. }
    eexists. eapply (rs_end _ _ _ _ id _ 0); [exact Hid|done|]. cbn [drop_conn]. by rewrite Hg'. }
  destruct p as [o| |k|e k|h k|b k|k|k|k|h k|b d k|k|u n k];
    [by apply Hend|by apply Hend|by eapply (Hact (DidNow 0)); [constructor|]|eapply Hact; [constructor|]..];
    cbn [answered]; rewrite ?Ht, ?Hf; try done.
  unfold ProxyGate.enter. by rewrite Hc.
Qed.
Lemma forcing_progress fs s :
  server_wf s → sv_phase s = Forcing → ∃ s', router_step config listeners fs s s'.
Proof.
  intros Hwf Hf. destruct (decide (sv_conns s = ∅)) as [He|He].
  - destruct (serve_next true s) as [s'|] eqn:Hs; [exists s'; by eapply rs_serve|].
    unfold serve_next in Hs. rewrite Hf in Hs. by case_bool_decide.
  - apply map_choose in He as (id & c & Hid). by eapply task_progress.
Qed.
(** Once the grace period is over, the drain ends, or the force token fires. *)
Lemma drain_elapses s :
  sv_phase s = Draining →
  ∃ s', serve_next true s = Some s' ∧ (sv_phase s' = Done ∨ sv_phase s' = Forcing ∧ sv_force s' = true).
Proof. intros Hp. unfold serve_next. rewrite Hp. case_bool_decide; (eexists; split; [done|]); cbn; auto. Qed.

(** So its own steps bring the server to its end. *)
Lemma shutdown_done fs s :
  server_wf s → sv_phase s ≠ Serving →
  ∃ s', rtc (router_step config listeners fs) s s' ∧ sv_phase s' = Done ∧ sv_conns s' = ∅.
Proof.
  remember (measure s) as n eqn:Hn. revert s Hn. induction (N.lt_wf_0 n) as [n _ IH]. intros s -> Hwf Hp.
  assert (sv_phase s = Done ∨ ∃ s', router_step config listeners fs s s') as [Hd|[s1 Hs]].
  { destruct (sv_phase s) eqn:Hph; [done|right|right; by apply forcing_progress|by left].
    destruct (drain_elapses s Hph) as (s' & Hs & _). exists s'. by eapply rs_serve. }
  - exists s. split_and!; [done|done|by apply Hwf].
  - destruct (router_step_measure _ _ _ Hwf Hp Hs) as [Hm Hp1].
    destruct (IH _ Hm s1 eq_refl) as (s' & Hr & Hdone); [by eapply server_wf_step, ss_router|done|].
    exists s'. split; [by eapply rtc_l|done].
Qed.
(** ** After the gate is closed *)
Lemma closed_gate s :
  server_wf s → sv_phase s ≠ Serving →
  closed (gate_state (sv_gate s)) = true ∧ ProxyGate.handshakes_cancelled (sv_gate s) = true.
Proof.
  intros Hwf Hp. rewrite (swf_token _ Hwf), (swf_closed _ Hwf). by destruct (sv_phase s).
Qed.

(** The answers a connection that is not proxying still gets: cancellations from
    whatever it waits for, and a refusal at the gate. *)
Definition only_cancelled (a : Act (Up := Up)) : Prop :=
  match a with
  | DidHello x => x = None
  | DidAlert x => x = None
  | DidRoute _ x => x = None
  | DidConnect _ _ x => x = None
  | DidEnter pass => pass = false
  | DidProxy _ _ _ => False
  | _ => True
  end.
Lemma only_cancelled_verdict a : only_cancelled a → verdict a = None ∨ verdict a = Some ShutdownCancelled.
Proof. destruct a; cbn; intros; subst; auto; done. Qed.

(** A task without a pass only gets cancellations. *)
Lemma unpassed_answers fs s id p r did a p' g' :
  server_wf s → sv_phase s ≠ Serving → sv_conns s !! id = Some (Live p r false did) →
  prog_step p a p' → answered fs (sv_gate s) (sv_force s) a g' → only_cancelled a.
Proof.
  intros Hwf Hp Hid Hs Ha. destruct (closed_gate s Hwf Hp) as [Hc Ht].
  destruct (swf_conns _ Hwf _ _ Hid) as [_ (li & Htr & Hpass & _)].
  pose proof (run_proxies _ _ _ _ (always_trace _ [] _ _ _ (run_always config li) Htr)) as Hproxies. cbn [app] in Hproxies.
  destruct Hs; cbn [answered only_cancelled] in *; rewrite ?Ht in Ha; cbn [cancellable] in Ha; try done;
    try by destruct Ha as (_ & [= <-]).
  - apply enter_cases in Ha. destruct b; [destruct Ha; congruence|done].
  - destruct (Hproxies u n k eq_refl) as (_ & _ & Hin). by apply Hpass in Hin.
Qed.
(** So when it ends, it is as [ShutdownCancelled], or as its answers had decided
    before. *)
Lemma unpassed_ends fs s id p r did a o g' :
  server_wf s → sv_phase s ≠ Serving → sv_conns s !! id = Some (Live p r false did) →
  prog_step p a (Ret o) → answered fs (sv_gate s) (sv_force s) a g' → o = ShutdownCancelled ∨ verdicts did = [o].
Proof.
  intros Hwf Hp Hid Hs Ha. pose proof (unpassed_answers _ _ _ _ _ _ _ _ _ Hwf Hp Hid Hs Ha) as Hv%only_cancelled_verdict.
  destruct (swf_conns _ Hwf _ _ Hid) as [_ (li & Htr & _)]. pose proof (trace_snoc _ _ _ _ _ Htr Hs) as Ht'.
  destruct (run_ret _ _ _ _ (always_trace _ [] _ _ _ (run_always config li) Ht') o eq_refl) as [Hd _]. cbn [app] in Hd.
  unfold verdicts in *. rewrite omap_app in Hd. cbn in Hd. destruct Hv as [Hv|Hv]; rewrite Hv in Hd.
  - right. by rewrite app_nil_r in Hd.
  - left. destruct (omap verdict did) as [|x l]; cbn in Hd; [by injection Hd as <-|by destruct l].
Qed.

(** No task appears, and none gains a pass. *)
Lemma closed_step_conns s s' id c' :
  server_wf s → sv_phase s ≠ Serving → server_step config listeners s s' → sv_conns s' !! id = Some c' →
  ∃ c, sv_conns s !! id = Some c ∧ (conn_pass c' = true → conn_pass c = true).
Proof.
  intros Hwf Hp Hstep. pose proof (swf_accept _ Hwf Hp) as Ha. destruct (closed_gate s Hwf Hp) as [Hc _].
  revert Hwf Hp Ha Hc.
  destruct Hstep as [fs s0 s1 Hr|s0|s0 i c now g' events Hid Hs|s0 i p r pass did read written Hid]; intros Hwf Hp Ha Hc.
  - revert Hwf Hp Ha Hc. destruct Hr as [s0 s1 Ha Hs|s0 s1 ready failed Ha Hs|s0 s1 slept Ha Hs|s0 s1 elapsed Hs
      |s0 i c g' c1 events Hid Hs|s0 i c now g' events Hid _ Hs]; intros Hwf Hp Ha' Hc; [congruence..| | |].
    + unfold serve_next in Hs. repeat case_match; simplify_eq; cbn; eauto.
    + cbn. intros [[<- <-]|[_ ?]]%lookup_insert_Some; [|by eauto]. exists c. split; [done|].
      destruct Hs as [|g0 g0' p a p' r pass did Hs Hans]; [done|]. cbn. destruct Hs; cbn; try done.
      cbn in Hans. apply enter_cases in Hans. destruct b; [|done]. destruct Hans; congruence.
    + cbn. intros [_ ?]%lookup_delete_Some. eauto.
  - cbn. eauto.
  - cbn. intros [_ ?]%lookup_delete_Some. eauto.
  - cbn. intros [[<- <-]|[_ ?]]%lookup_insert_Some; [|by eauto]. by eauto.
Qed.

(** ** What steps keep, for the clients of the server *)
Lemma router_step_flags fs s s' :
  router_step config listeners fs s s' →
  (sv_shutdown s = true → sv_shutdown s' = true) ∧ (sv_phase s = Done → sv_phase s' = Done).
Proof.
  destruct 1 as [s0 s1 Ha Hs|s0 s1 ready failed Ha Hs|s0 s1 slept Ha Hs|s0 s1 elapsed Hs
    |s0 i c g' c1 events Hid Hs|s0 i c now g' events Hid _ Hs]; [..|done|done].
  - unfold accept_slot in Hs. destruct (sv_shutdown s0) eqn:Hsd; [by simplify_eq|]. by apply bind_Some in Hs as (? & _ & [= <-]).
  - unfold accept_one in Hs. destruct (sv_shutdown s0) eqn:Hsd; [by simplify_eq|].
    apply bind_Some in Hs as ([index next] & _ & (li & _ & Hs)%bind_Some). by destruct failed; simplify_eq.
  - unfold accept_backoff in Hs. destruct slept, (sv_shutdown s0) eqn:?; simplify_eq; cbn; auto.
  - unfold serve_next in Hs. repeat case_match; simplify_eq; cbn; split; intros; congruence.
Qed.
Lemma server_step_flags s s' :
  server_step config listeners s s' →
  (sv_shutdown s = true → sv_shutdown s' = true) ∧ (sv_phase s = Done → sv_phase s' = Done).
Proof. intros [fs s0 s1 Hr| | |]; [by eapply router_step_flags|done..]. Qed.

(** A task that runs started its run, went on, or took one action. *)
Definition did_grows s id (did' : list (Act (Up := Up))) : Prop :=
  did' = [] ∨ ∃ p r pass did, sv_conns s !! id = Some (Live p r pass did) ∧ (did' = did ∨ ∃ act, did' = did ++ [act]).
Lemma router_step_did fs s s' id p' r' pass' did' :
  router_step config listeners fs s s' → sv_conns s' !! id = Some (Live p' r' pass' did') → did_grows s id did'.
Proof.
  assert (∀ s, sv_conns s !! id = Some (Live p' r' pass' did') → did_grows s id did') as Hsame.
  { intros s0 Hs. right. eexists _, _, _, _. split; [exact Hs|by left]. }
  destruct 1 as [s0 s1 Ha Hs|s0 s1 ready failed Ha Hs|s0 s1 slept Ha Hs|s0 s1 elapsed Hs
    |s0 i c g' c1 events Hid Hs|s0 i c now g' events Hid _ Hs].
  - unfold accept_slot in Hs. destruct (sv_shutdown s0); [by simplify_eq; apply Hsame|].
    apply bind_Some in Hs as (? & _ & [= <-]). apply Hsame.
  - unfold accept_one in Hs. destruct (sv_shutdown s0); [by simplify_eq; apply Hsame|].
    apply bind_Some in Hs as ([index next] & _ & (li & _ & Hs)%bind_Some).
    destruct failed; simplify_eq; cbn; [apply Hsame|]. intros [[_ [=]]|[_ ?]]%lookup_insert_Some. by apply Hsame.
  - unfold accept_backoff in Hs. destruct slept, (sv_shutdown s0); simplify_eq; apply Hsame.
  - unfold serve_next in Hs. repeat case_match; simplify_eq; apply Hsame.
  - cbn. intros [[<- ->]|[_ ?]]%lookup_insert_Some; [|by apply Hsame].
    inversion Hs as [g0 li now|g0 g1 p a p1 r pass did Hp Ha]; subst; [by left|].
    right. eexists _, _, _, _. split; [exact Hid|]. right. by eexists.
  - cbn. intros [_ ?]%lookup_delete_Some. by apply Hsame.
Qed.
Lemma server_step_did s s' id p' r' pass' did' :
  server_step config listeners s s' → sv_conns s' !! id = Some (Live p' r' pass' did') → did_grows s id did'.
Proof.
  intros [fs s0 s1 Hr|s0|s0 i c now g' events Hid Hs|s0 i p r pass did read written Hid] Hl;
    [by eapply router_step_did|by right; eexists _, _, _, _; split; [exact Hl|left]|..]; right; cbn in Hl.
  - apply lookup_delete_Some in Hl as [_ Hl]. eexists _, _, _, _. split; [exact Hl|by left].
  - apply lookup_insert_Some in Hl as [[<- [= <- <- <- <-]]|[_ Hl]]; eexists _, _, _, _; (split; [eassumption|by left]).
Qed.
End ServerProofs.

(** ** The promises *)

(** C9: capacity and books.  In every reachable server at most
    [max_connections] connection tasks exist, the gate counts exactly those that
    hold a pass, and every connection's metrics are in order: nothing before it
    starts; while it lives one [ConnectionOpened] and what its run told, no
    close; and once it is gone either nothing (it never started) or the same
    followed by its byte totals and exactly one [ConnectionClosed], under the
    listener that accepted it, whose outcome is that of its run, or [Aborted]
    when the run did not finish. *)
Theorem server_books {Up} `{SemaphoreSpec Sem free} config listeners (s : Server Up Sem) :
  server_reachable config listeners s →
  N.of_nat (size (sv_conns s)) ≤ max_connections config ∧
  proxying (gate_state (sv_gate s)) = count conn_pass (sv_conns s) ∧
  ∀ id, match sv_conns s !! id with
  | Some (Spawned _) => log_of id (sv_log s) = []
  | Some (Live p r pass did) => ∃ li, trace (run config li) did p ∧
      log_of id (sv_log s) = ConnectionOpened li :: (did ≫= events_of)
  | None => log_of id (sv_log s) = [] ∨
      ∃ li (did : list (Act (Up := Up))) p outcome lifetime read written, trace (run config li) did p ∧
        outcome = (match p with Ret o => o | _ => Aborted end) ∧
        log_of id (sv_log s) = ConnectionOpened li :: (did ≫= events_of) ++
          (if 0 <? read then [BytesRead li read] else []) ++
          (if 0 <? written then [BytesWritten li written] else []) ++
          [ConnectionClosed li outcome lifetime]
  end.
Proof.
  intros Hs%(server_reachable_wf (free := free)). split_and!; [|by apply Hs|].
  - pose proof (swf_slots _ _ Hs). lia.
  - intros id. destruct (sv_conns s !! id) as [[li|p r pass did]|] eqn:Hid.
    + by apply (swf_conns _ _ Hs) in Hid as [_ Hok].
    + apply (swf_conns _ _ Hs) in Hid as [_ (li & Ht & _ & Hl & _)]. by exists li.
    + destruct (swf_books _ _ Hs id Hid) as [|(li & did & p & r & now & Ht & <- & Ho & Hl)]; [by left|right].
      eexists (cr_listener r), did, p, _, (duration_since now (cr_start r)), (bc_read (cr_bytes r)), (bc_written (cr_bytes r)).
      split_and!; [done|reflexivity|]. rewrite Hl. unfold told, drop_record, ByteCounters.totals.
      rewrite Ho. by destruct p.
Qed.

(** C10: shutdown takes one side of every connection.  Once the gate is closed
    no connection is accepted or admitted to the proxy stage any more, whatever
    happens.  A connection that is not proxying gets nothing but a cancellation
    from whatever it waits for (the hello, the route, the upstream, the write of
    an alert), even when that is ready with an answer, and a refusal at the gate;
    when it finishes, its outcome is [ShutdownCancelled] or the one its answers
    had decided before.  And when [serve] is done no task is left. *)
Theorem shutdown_cancels_handshakes {Up} `{SemaphoreSpec Sem free} config listeners (s s' : Server Up Sem) :
  server_reachable config listeners s → sv_phase s ≠ Serving → rtc (server_step config listeners) s s' →
  sv_phase s' ≠ Serving ∧
  (∀ id c', sv_conns s' !! id = Some c' → ∃ c, sv_conns s !! id = Some c ∧
     (conn_pass c' = true → conn_pass c = true)) ∧
  (∀ fs id p r did a p' g', sv_conns s' !! id = Some (Live p r false did) →
     prog_step p a p' → answered fs (sv_gate s') (sv_force s') a g' →
     only_cancelled a ∧ ∀ o, p' = Ret o → o = ShutdownCancelled ∨ verdicts did = [o]) ∧
  (sv_phase s' = Done → sv_conns s' = ∅).
Proof.
  intros Hr Hp Hs. apply (server_reachable_wf (free := free)) in Hr as Hwf.
  destruct (rtc_measure (free := free) config listeners s s' Hwf Hp Hs) as (Hwf' & _ & Hp').
  split_and!; [done| | |by apply Hwf'].
  - clear Hr Hwf' Hp'. induction Hs as [s|s s1 s2 Hs _ IH]; [by eauto|].
    pose proof (server_step_measure (free := free) config listeners _ _ Hwf Hp Hs) as [_ Hp1].
    pose proof (server_wf_step (free := free) config listeners _ _ Hwf Hs) as Hwf1.
    intros id c2 Hc2. destruct (IH Hp1 Hwf1 id c2 Hc2) as (c1 & Hc1 & Hpass1).
    assert (∃ c, sv_conns s !! id = Some c ∧ (conn_pass c1 = true → conn_pass c = true)) as (c & Hc & Hpass);
      [|by eauto].
    by eapply closed_step_conns.
  - intros fs id p r did a p' g' Hc Hs1 Ha. split; [by eapply (unpassed_answers (free := free) config)|].
    intros o ->. by eapply (unpassed_ends (free := free) config).
Qed.

(** C5: shutdown ends.  From the moment the gate is closed, however the tasks
    and the clock interleave and whatever else happens in between, the router
    takes at most [measure] more steps, which is bounded by the connections that
    are left.  When the grace period is over the drain ends or the force token
    is cancelled.  From then on a proxied connection gets no answer but
    [ProxyForced], also when its copy or its watchdog has one, and there is
    always a step of the router left until it is done, whatever the streams, the
    lookup and the network answer, and if they never do: so the router's own
    steps bring it to its end, with no connection left. *)
Theorem shutdown_terminates {Up} `{SemaphoreSpec Sem free} config listeners (s : Server Up Sem) :
  server_reachable config listeners s → sv_phase s ≠ Serving →
  (∀ n s', nsteps (turn config listeners) n s s' → N.of_nat n ≤ measure s) ∧
  measure s ≤ 3 + 17 * max_connections config ∧
  (sv_phase s = Draining →
     ∃ s', serve_next true s = Some s' ∧ (sv_phase s' = Done ∨ sv_phase s' = Forcing ∧ sv_force s' = true)) ∧
  (sv_phase s = Forcing →
     (∀ fs, ∃ s', router_step config listeners fs s s') ∧
     (∀ (fs : Futures Up) u n e g', answered fs (sv_gate s) (sv_force s) (DidProxy u n e) g' → e = ProxyForced)) ∧
  (∀ fs, ∃ s', rtc (router_step config listeners fs) s s' ∧ sv_phase s' = Done ∧ sv_conns s' = ∅).
Proof.
  intros Hwf%(server_reachable_wf (free := free)) Hp. split_and!.
  - intros n s'. by apply (turns_bounded (free := free)).
  - pose proof (total_le rank 17 (sv_conns s) rank_le). pose proof (swf_slots _ _ Hwf).
    unfold measure. destruct (sv_phase s); cbn [phase_rank]; lia.
  - apply drain_elapses.
  - intros Hf. split; [intros fs; by apply (forcing_progress (free := free))|].
    intros fs u n e g'. rewrite (swf_forcing _ _ Hwf Hf). by intros [_ [= <-]].
  - intros fs. by apply (shutdown_done (free := free)).
Qed.

(** A connection accepted before the shutdown signal and still reading its
    hello when the gate closes. *)
Abbreviation example_server_t := (Server (SocketAddr * bytes) N).
Lemma example_draining :
  ∃ s : example_server_t, server_reachable RouterConfig_default [example_listener] s ∧
    sv_phase s = Draining ∧ (∃ r, sv_conns s !! 0 =
      Some (Live (run RouterConfig_default example_listener) r false [])) ∧
    sv_log s = [(0, ConnectionOpened example_listener)].
Proof.
  eexists. split.
  - eexists. split; [reflexivity|]. eapply rtc_l; [apply (ss_router _ _ pending); eapply rs_slot; reflexivity|].
    eapply rtc_l; [apply (ss_router _ _ pending); eapply (rs_accept _ _ _ _ _ (λ _, true) false); reflexivity|].
    eapply rtc_l; [apply (ss_router _ _ pending); eapply (rs_conn _ _ _ _ 0); [reflexivity|apply (cs_start _ _ _ _ _ 5)]|].
    eapply rtc_l; [apply ss_shutdown|].
    eapply rtc_l; [apply (ss_router _ _ pending); eapply rs_slot; reflexivity|].
    eapply rtc_l; [apply (ss_router _ _ pending); eapply (rs_serve _ _ _ _ _ false); reflexivity|].
    apply rtc_refl.
  - split; [reflexivity|]. split; [eexists; reflexivity|reflexivity].
Qed.
Lemma server_books_witness :
  ∃ s : example_server_t, N.of_nat (size (sv_conns s)) ≤ 10000 ∧
    log_of 0 (sv_log s) = [ConnectionOpened example_listener].
Proof.
  destruct example_draining as (s & Hs & _ & [r Hc] & Hl). exists s.
  destruct (server_books _ _ s Hs) as (Hsize & _ & Hbooks). split; [exact Hsize|].
  specialize (Hbooks 0). rewrite Hc in Hbooks. destruct Hbooks as (li & _ & Hlog).
  rewrite Hl. reflexivity.
Defined.
(** The hello is there, and the connection is cancelled all the same. *)
Lemma shutdown_cancels_handshakes_witness :
  ∃ s : example_server_t, sv_phase s = Draining ∧
    ∀ (fs : Futures (SocketAddr * bytes)) x, fut_hello fs = Some (Some (Ok (example_wire, example_info))) →
      cancellable (ProxyGate.handshakes_cancelled (sv_gate s)) (fut_hello fs) = Some x → x = None.
Proof.
  destruct example_draining as (s & Hs & Hp & [r Hc] & _). exists s. split; [exact Hp|].
  assert (sv_phase s ≠ Serving) as Hp' by (rewrite Hp; discriminate).
  destruct (shutdown_cancels_handshakes _ _ s s Hs Hp' (rtc_refl _ s)) as (_ & _ & Ha & _).
  intros fs x _ Hx. exact (proj1 (Ha fs 0 _ r [] (DidHello x) _ (sv_gate s) Hc (ps_hello _ x) (conj eq_refl Hx))).
Defined.
Lemma shutdown_terminates_witness :
  ∃ s : example_server_t, sv_phase s = Draining ∧
    ∃ s', rtc (router_step RouterConfig_default [example_listener] pending) s s' ∧ sv_phase s' = Done.
Proof.
  destruct example_draining as (s & Hs & Hp & _). exists s. split; [exact Hp|].
  assert (sv_phase s ≠ Serving) as Hp' by (rewrite Hp; discriminate).
  destruct (shutdown_terminates _ _ s Hs Hp') as (_ & _ & _ & _ & Hd).
  destruct (Hd pending) as (s' & Hr & Hdone & _). exists s'. split; [exact Hr|exact Hdone].
Defined.
