(* ===== verification/Routes.v ===== *)
(** * The route table of the file ([sni_router_app: config/routes.rs])

    Building the table from the file's entries, and the lookup whose table can
    be replaced while lookups run. *)

From S2P Require Import Prelude Async Str Net Names Lookup Routing Metrics.

(** Why a configuration was rejected; the type of TOML errors is a parameter. *)
Inductive ConfigError (ParseFailure : Type) :=
| ReadError (path : bytes) (error : io_error)
| ParseError (error : ParseFailure)
| NoListenAddresses
| DuplicateListenAddress (addr : SocketAddr)
| OutOfRange (field : bytes) (min max : N)
| InvalidHealthPath (path : bytes)
| InvalidRouteHostname (index : N) (hostname : bytes) (error : NameError)
| InvalidRouteBackend (index : N) (backend : bytes) (error : NameError)
| DuplicateRoute (hostname : bytes).
Arguments ReadError {_} _ _.
Arguments ParseError {_} _.
Arguments NoListenAddresses {_}.
Arguments DuplicateListenAddress {_} _.
Arguments OutOfRange {_} _ _ _.
Arguments InvalidHealthPath {_} _.
Arguments InvalidRouteHostname {_} _ _ _.
Arguments InvalidRouteBackend {_} _ _ _.
Arguments DuplicateRoute {_} _.

(** The message of an error and the error it wraps.  How the standard library
    quotes a string, shows a path and how the TOML parser words its errors are
    parameters. *)
Section Message.
Context {ParseFailure : Type} (parse_failure_fmt : ParseFailure → bytes) (path_display debug : bytes → bytes).

Definition ConfigError_fmt (e : ConfigError ParseFailure) : bytes :=
  match e with
  | ReadError path error => lit "failed to read " ++ path_display path ++ lit ": " ++ ioe_message error
  | ParseError error => lit "invalid TOML: " ++ parse_failure_fmt error
  | NoListenAddresses => lit "server.listen must not be empty"
  | DuplicateListenAddress addr => lit "server.listen contains " ++ SocketAddr_fmt addr ++ lit " more than once"
  | OutOfRange field min max => field ++ lit " must be between " ++ dec min ++ lit " and " ++ dec max
  | InvalidHealthPath path =>
    lit "admin.health_path " ++ debug path ++ lit " must start with `/`, contain no whitespace, and not be /metrics"
  | InvalidRouteHostname index hostname error =>
    lit "routes[" ++ dec index ++ lit "].hostname " ++ debug hostname ++ lit ": " ++ NameError_fmt error
  | InvalidRouteBackend index backend error =>
    lit "routes[" ++ dec index ++ lit "].backend " ++ debug backend ++ lit ": " ++ NameError_fmt error
  | DuplicateRoute hostname => lit "route hostname " ++ debug hostname ++ lit " appears more than once"
  end.

(** The wrapped error: of reading, of parsing, or of a name. *)
Definition ConfigError_source (e : ConfigError ParseFailure) : option (io_error + (ParseFailure + NameError)) :=
  match e with
  | ReadError _ error => Some (inl error)
  | ParseError error => Some (inr (inl error))
  | InvalidRouteHostname _ _ error | InvalidRouteBackend _ _ error => Some (inr (inr error))
  | _ => None
  end.
End Message.

Record RawRoute := mkRawRoute { raw_hostname : bytes; raw_backend : bytes }.

Section Build.
Context {ParseFailure : Type}.
Abbreviation Rejected := (ConfigError ParseFailure).

(** The [for] loop over the entries, from [index] on. *)
Fixpoint build_loop (index : N) (table : InMemoryLookup) (routes : list RawRoute) : res Rejected InMemoryLookup :=
  match routes with
  | [] => Ok table
  | route :: routes =>
    key ← map_err (InvalidRouteHostname index (raw_hostname route)) (RouteKey.parse (raw_hostname route));
    backend ← map_err (InvalidRouteBackend index (raw_backend route)) (Backend.from_str (raw_backend route));
    let '(table, previous) := InMemoryLookup.insert table key backend in
    match previous with
    | Some _ => Err (DuplicateRoute (RouteKey.as_str key))
    | None => build_loop (index + 1) table routes
    end
  end.
Definition build_route_table (routes : list RawRoute) : res Rejected InMemoryLookup :=
  build_loop 0 InMemoryLookup.new routes.
End Build.

(** ** FileRouteLookup

    The [RwLock] holds an [Arc] of a table; a reader clones the [Arc], so it
    keeps the table it saw. *)
Record FileRouteLookup := mkFileRouteLookup { table : InMemoryLookup }.

Module FileRouteLookup.
Definition new (t : InMemoryLookup) : FileRouteLookup := mkFileRouteLookup t.
Definition replace (t : InMemoryLookup) (_ : FileRouteLookup) : FileRouteLookup := mkFileRouteLookup t.
Definition snapshot (l : FileRouteLookup) : InMemoryLookup := table l.
Definition len (l : FileRouteLookup) : N := InMemoryLookup.len (snapshot l).
Definition is_empty (l : FileRouteLookup) : bool := len l =? 0.
End FileRouteLookup.

#[global] Instance FileRouteLookup_lookup : RouteLookup FileRouteLookup :=
  λ l candidates, ready (Ok (InMemoryLookup.hits (FileRouteLookup.snapshot l) candidates)).

(** ** What the table is *)

(** An entry that parses, and what it says. *)
Definition entry_ok (r : RawRoute) (kb : RouteKey * Backend) : Prop :=
  RouteKey.parse (raw_hostname r) = Ok kb.1 ∧ Backend.from_str (raw_backend r) = Ok kb.2.

(** The table of distinct, parsed entries. *)
Definition table_of (kbs : list (RouteKey * Backend)) : InMemoryLookup := mkInMemory (list_to_map kbs).

(** The first offending entry of a file, at [index], after [kbs]. *)
Definition offends {F} (index : N) (kbs : list (RouteKey * Backend)) (r : RawRoute) (e : ConfigError F) : Prop :=
  (∃ ne, RouteKey.parse (raw_hostname r) = Err ne ∧ e = InvalidRouteHostname index (raw_hostname r) ne) ∨
  (∃ k ne, RouteKey.parse (raw_hostname r) = Ok k ∧ Backend.from_str (raw_backend r) = Err ne ∧
     e = InvalidRouteBackend index (raw_backend r) ne) ∨
  (∃ k b, entry_ok r (k, b) ∧ k ∈ kbs.*1 ∧ e = DuplicateRoute (RouteKey.as_str k)).

(** The loop from [index] on, when the entries before it gave [kbs]. *)
Lemma build_loop_spec {F} (kbs : list (RouteKey * Backend)) index routes :
  NoDup kbs.*1 →
  match build_loop (ParseFailure := F) index (table_of kbs) routes with
  | Ok t => ∃ kbs', Forall2 entry_ok routes kbs' ∧ NoDup (kbs ++ kbs').*1 ∧ t = table_of (kbs ++ kbs')
  | Err e => ∃ pre r post kbs', routes = pre ++ r :: post ∧ Forall2 entry_ok pre kbs' ∧
      NoDup (kbs ++ kbs').*1 ∧ offends (index + len pre) (kbs ++ kbs') r e
  | Stuck _ => False
  end.
Proof.
  revert kbs index. induction routes as [|r routes IH]; intros kbs index Hnd; cbn [build_loop].
  { exists []. rewrite app_nil_r. by split_and!. }
  assert (∀ e, offends index kbs r e → ∃ pre r' post kbs', r :: routes = pre ++ r' :: post ∧
    Forall2 entry_ok pre kbs' ∧ NoDup (kbs ++ kbs').*1 ∧ offends (F := F) (index + len pre) (kbs ++ kbs') r' e) as Hhere.
  { intros e He. exists [], r, routes, []. rewrite app_nil_r, len_nil, N.add_0_r. by split_and!. }
  destruct (RouteKey.parse (raw_hostname r)) as [k|ne|s] eqn:Hk; res_simpl;
    [|apply Hhere; left; by eexists|by apply (route_key_parse_returns (raw_hostname r) s)].
  destruct (Backend.from_str (raw_backend r)) as [b|ne|s] eqn:Hb; res_simpl;
    [|apply Hhere; right; left; by eexists _, _|by apply (backend_from_str_returns (raw_backend r) s)].
  cbn [InMemoryLookup.insert im_routes table_of].
  destruct (list_to_map kbs !! k) as [b'|] eqn:Hlk.
  { apply Hhere. right; right. exists k, b. split_and!; [done| |done].
    apply elem_of_list_to_map_2 in Hlk. by apply list_elem_of_fmap_2' with (x := (k, b')). }
  assert (k ∉ kbs.*1) as Hfresh by by apply not_elem_of_list_to_map_2 in Hlk.
  assert (NoDup (kbs ++ [(k, b)]).*1) as Hnd'.
  { rewrite fmap_app. apply NoDup_app. split_and!; [done| |apply NoDup_singleton].
    intros x Hx ->%list_elem_of_singleton. done. }
  rewrite <- list_to_map_snoc by done. specialize (IH (kbs ++ [(k, b)]) (index + 1) Hnd').
  unfold table_of in IH. destruct (build_loop (index + 1) _ routes) as [t|e|s]; [| |done].
  - destruct IH as (kbs' & Hf & Hn & ->). exists ((k, b) :: kbs').
    rewrite <- app_assoc in Hn |- *. split_and!; [by constructor|done|done].
  - destruct IH as (pre & r' & post & kbs' & -> & Hf & Hn & Ho). exists (r :: pre), r', post, ((k, b) :: kbs').
    rewrite <- app_assoc in Hn, Ho. rewrite len_cons. replace (index + (1 + len pre)) with (index + 1 + len pre) by lia.
    split_and!; [done|by constructor|done|done].
Qed.

(** Entries that parse to fresh keys are taken, one after the other. *)
Lemma build_loop_prefix {F} kbs kbs' index pre post :
  Forall2 entry_ok pre kbs' → NoDup (kbs ++ kbs').*1 →
  build_loop (ParseFailure := F) index (table_of kbs) (pre ++ post) =
  build_loop (index + len pre) (table_of (kbs ++ kbs')) post.
Proof.
  intros Hf. revert kbs index. induction Hf as [|r [k b] pre kbs' [Hk Hb] _ IH]; intros kbs index Hnd.
  { by rewrite app_nil_r, len_nil, N.add_0_r. }
  cbn [app build_loop]. cbn [fst snd] in *. rewrite Hk, Hb. res_simpl.
  cbn [InMemoryLookup.insert im_routes table_of].
  assert (k ∉ kbs.*1) as Hfresh.
  { rewrite fmap_app in Hnd. apply NoDup_app in Hnd as (_ & Hd & _). intros Hin. apply (Hd k Hin). by left. }
  rewrite (not_elem_of_list_to_map_1 kbs k Hfresh). rewrite <- list_to_map_snoc by done.
  change (mkInMemory _) with (table_of (kbs ++ [(k, b)])).
  assert (kbs ++ (k, b) :: kbs' = (kbs ++ [(k, b)]) ++ kbs') as Hassoc by by rewrite <- app_assoc.
  rewrite Hassoc in *. rewrite IH by done. f_equal. rewrite len_cons. lia.
Qed.

(** The loop stops at an entry that offends. *)
Lemma build_loop_offends {F} kbs index r post e :
  offends index kbs r e → NoDup kbs.*1 → build_loop (ParseFailure := F) index (table_of kbs) (r :: post) = Err e.
Proof.
  intros [(ne & Hk & ->)|[(k & ne & Hk & Hb & ->)|(k & b & [Hk Hb] & Hin & ->)]] Hnd; cbn [build_loop].
  - by rewrite Hk.
  - by rewrite Hk, Hb.
  - cbn [fst snd] in *. rewrite Hk, Hb. res_simpl. cbn [InMemoryLookup.insert im_routes table_of].
    apply list_elem_of_fmap in Hin as ([k' b'] & -> & Hin). cbn [fst].
    by rewrite (elem_of_list_to_map_1 kbs k' b').
Qed.

(** What a built table holds: the entries of the file, all of them. *)
Lemma table_of_entries routes kbs :
  Forall2 entry_ok routes kbs → NoDup kbs.*1 →
  wf_table (im_routes (table_of kbs)) ∧ InMemoryLookup.len (table_of kbs) = len routes ∧
  ∀ k b, im_routes (table_of kbs) !! k = Some b ↔ ∃ r, r ∈ routes ∧ entry_ok r (k, b).
Proof.
  intros Hf Hnd. cbn [im_routes table_of].
  assert (∀ k b, list_to_map (M := gmap RouteKey Backend) kbs !! k = Some b ↔
    ∃ r, r ∈ routes ∧ entry_ok r (k, b)) as Hin.
  { intros k b. rewrite <- elem_of_list_to_map by done. rewrite list_elem_of_lookup. split.
    - intros [i Hi]. destruct (Forall2_lookup_r _ _ _ _ _ Hf Hi) as (r & Hr & Ho).
      exists r. split; [|done]. by apply list_elem_of_lookup_2 in Hr.
    - intros (r & [i Hr]%list_elem_of_lookup & [Hk Hb]).
      destruct (Forall2_lookup_l _ _ _ _ _ Hf Hr) as ([k' b'] & Hi & [Hk' Hb']).
      cbn in *. exists i. congruence. }
  split_and!; [| |done].
  - intros k b (r & _ & Hk & _)%Hin. by eapply route_key_parse_wf.
  - unfold InMemoryLookup.len, len. cbn [im_routes table_of]. f_equal.
    rewrite map_size_list_to_map by done. by rewrite (Forall2_length _ _ _ Hf).
Qed.

#[global] Instance FileRouteLookup_contract :
  LookupContract FileRouteLookup (λ l, im_routes (FileRouteLookup.snapshot l)).
Proof.
  split; [by intros l c s|]. intros l c hits k b [= <-]. apply in_memory_hits_elem.
Qed.

Lemma build_route_table_cases {F} routes :
  match build_route_table (ParseFailure := F) routes with
  | Ok t => ∃ kbs, Forall2 entry_ok routes kbs ∧ NoDup kbs.*1 ∧ t = table_of kbs
  | Err e => ∃ pre r post kbs, routes = pre ++ r :: post ∧ Forall2 entry_ok pre kbs ∧ NoDup kbs.*1 ∧
      offends (len pre) kbs r e
  | Stuck _ => False
  end.
Proof. apply (build_loop_spec [] 0 routes NoDup_nil_2). Qed.
Lemma build_route_table_returns {F} routes : returns (build_route_table (ParseFailure := F) routes).
Proof. intros s Hs. pose proof (build_route_table_cases (F := F) routes) as Hc. by rewrite Hs in Hc. Qed.
Lemma build_route_table_wf {F} routes t :
  build_route_table (ParseFailure := F) routes = Ok t →
  wf_table (im_routes t) ∧ InMemoryLookup.len t = len routes ∧
  ∀ k b, InMemoryLookup.get t k = Some b ↔ ∃ r, r ∈ routes ∧ entry_ok r (k, b).
Proof.
  intros Ht. pose proof (build_route_table_cases (F := F) routes) as Hc. rewrite Ht in Hc.
  destruct Hc as (kbs & Hf & Hnd & ->). by apply table_of_entries.
Qed.
#[export] Hint Resolve build_route_table_returns : returns.

(** ** Messages *)

(** The entry of the file a message points at. *)
Definition offending_entry {F} (e : ConfigError F) : option (N * bool) :=
  match e with
  | InvalidRouteHostname index _ _ => Some (index, true)
  | InvalidRouteBackend index _ _ => Some (index, false)
  | _ => None
  end.

(** A message about an entry says which entry, and whether its hostname or its
    backend is wrong. *)
Lemma config_error_pinpoints {F} parse_failure_fmt path_display debug (e e' : ConfigError F) i side i' side' :
  let fmt := ConfigError_fmt parse_failure_fmt path_display debug in
  offending_entry e = Some (i, side) → offending_entry e' = Some (i', side') →
  i ≤ u64_max → i' ≤ u64_max → fmt e = fmt e' → i = i' ∧ side = side'.
Proof.
  intros fmt He He' Hi Hi' Heq.
  assert (∀ e i side, offending_entry e = Some (i, side) →
    ∃ rest, fmt e = lit "routes[" ++ dec i ++ n2b 93 :: (if side then lit ".h" else lit ".b") ++ rest) as Hfmt.
  { intros [] i0 side0 [= <- <-]; eexists; reflexivity. }
  destruct (Hfmt _ _ _ He) as [rest Hr], (Hfmt _ _ _ He') as [rest' Hr']. rewrite Hr, Hr' in Heq.
  apply (app_inv_head (lit "routes[")) in Heq.
  assert (∀ i l, split_once (n2b 93) (dec i ++ n2b 93 :: l) = Some (dec i, l)) as Hsplit.
  { intros j l. apply split_once_Some. split; [done|]. by apply dec_free. }
  pose proof (Hsplit i ((if side then lit ".h" else lit ".b") ++ rest)) as Hs. rewrite Heq, Hsplit in Hs.
  injection Hs as Hd Hrest. split.
  - apply (f_equal (parse_uint u64_max)) in Hd. rewrite !parse_uint_dec in Hd by done. congruence.
  - by destruct side, side'.
Qed.

(** C31: [build_route_table] always returns.  It accepts exactly the files whose
    entries all parse and name distinct keys, and its table holds exactly those
    entries, well formed, one for each entry of the file; otherwise the error is
    the one of the first offending entry, a bad hostname before a bad backend
    before a repeated key. *)
Theorem build_route_table_exact {F} (routes : list RawRoute) :
  let built := build_route_table (ParseFailure := F) routes in
  returns built ∧
  (∀ t, built = Ok t ↔ ∃ kbs, Forall2 entry_ok routes kbs ∧ NoDup kbs.*1 ∧ t = table_of kbs) ∧
  (∀ t, built = Ok t → wf_table (im_routes t) ∧ InMemoryLookup.len t = len routes ∧
     ∀ k b, InMemoryLookup.get t k = Some b ↔ ∃ r, r ∈ routes ∧ entry_ok r (k, b)) ∧
  (∀ e, built = Err e ↔ ∃ pre r post kbs, routes = pre ++ r :: post ∧ Forall2 entry_ok pre kbs ∧
     NoDup kbs.*1 ∧ offends (len pre) kbs r e).
Proof.
  intros built. pose proof (build_route_table_cases (F := F) routes) as Hcases. fold built in Hcases.
  split_and!; [apply build_route_table_returns| |intros t; apply build_route_table_wf|].
  - intros t. split; [intros Ht; by rewrite Ht in Hcases|]. intros (kbs & Hf & Hnd & ->).
    unfold built, build_route_table. change InMemoryLookup.new with (table_of []).
    rewrite <- (app_nil_r routes). by rewrite (build_loop_prefix [] kbs).
  - intros e. split; [intros He; by rewrite He in Hcases|]. intros (pre & r & post & kbs & -> & Hf & Hnd & Ho).
    unfold built, build_route_table. change InMemoryLookup.new with (table_of []).
    rewrite (build_loop_prefix [] kbs) by done. by apply build_loop_offends.
Qed.
