(* ===== verification/Config.v ===== *)
(** * The application's configuration ([sni_router_app: config/mod.rs])

    The settings as the file gives them, their validation and the configuration
    it yields.  Reading the file and parsing TOML are parameters. *)

From S2P Require Import Prelude Async Str Net Names Lookup Routing Protocol Reader Hello Records.
From S2P Require Import Framing Builder Parser HelloReader Metrics Gate Metered Splice SpliceProofs.
From S2P Require Import Proxy Connection Routes.
From Stdlib Require Import Strings.Byte.

Definition MAX_CONNECTIONS : N := 1000000.
Definition MAX_TIMEOUT_MS : N := 3600000.
Definition MAX_IDLE_TIMEOUT_SECS : N := 30 * 24 * 3600.
Definition MAX_SHUTDOWN_GRACE_SECS : N := 3600.
Definition MIN_CLIENT_HELLO_BYTES : N := 1024.
Definition MAX_CLIENT_HELLO_BYTES : N := 65536.
Definition MAX_HELLO_RECORDS : N := 256.
Definition MAX_DNS_CACHE_TTL_SECS : N := 24 * 3600.
Definition MAX_CONCURRENT_DNS_LOOKUPS : N := 256.
Definition MIN_COPY_BUFFER_BYTES : N := 1024.
Definition MAX_COPY_BUFFER_BYTES : N := 1024 * 1024.

Record ServerConfig := mkServerConfig { listen : list SocketAddr; router : RouterConfig }.
Record AdminConfig := mkAdminConfig { admin_listen : SocketAddr; health_path : bytes }.
Record AppConfig := mkAppConfig { server : ServerConfig; admin : AdminConfig; routes : InMemoryLookup }.
#[global] Instance RouterConfig_eq_dec : EqDecision RouterConfig.
Proof. solve_decision. Defined.
#[global] Instance ServerConfig_eq_dec : EqDecision ServerConfig.
Proof. solve_decision. Defined.
#[global] Instance AdminConfig_eq_dec : EqDecision AdminConfig.
Proof. solve_decision. Defined.

Definition DEFAULT_CONFIG_PATH : bytes := lit "sni_router.toml".
(** [var]: the value of [SNI_ROUTER_CONFIG], if it is set. *)
Definition config_path_from_env (var : option bytes) : bytes :=
  match var with
  | Some value => if is_empty value then DEFAULT_CONFIG_PATH else value
  | None => DEFAULT_CONFIG_PATH
  end.

(** ** The file's settings *)
Record RawServer := mkRawServer {
  raw_listen : list SocketAddr;
  raw_max_connections : N;
  raw_client_hello_timeout_ms : N;
  raw_lookup_timeout_ms : N;
  raw_upstream_timeout_ms : N;
  raw_idle_timeout_secs : N;
  raw_shutdown_grace_secs : N;
  raw_max_client_hello_bytes : N;
  raw_max_client_hello_records : N;
  raw_dns_cache_ttl_secs : N;
  raw_max_concurrent_dns_lookups : N;
  raw_copy_buffer_bytes : N;
}.
Record RawAdmin := mkRawAdmin { raw_admin_listen : SocketAddr; raw_health_path : bytes }.
Record RawConfig := mkRawConfig {
  raw_server : RawServer;
  raw_admin : RawAdmin;
  raw_routes : list RawRoute;
}.

(** [u64::try_from(duration.as_millis()).unwrap_or(u64::MAX)], and
    [Duration::as_secs]. *)
Definition millis (duration : Duration) : N :=
  let ms := duration / 1000000 in if ms <=? u64_max then ms else u64_max.
Definition as_secs (duration : Duration) : N := duration / 1000000000.

Definition RawServer_default : RawServer :=
  let router := RouterConfig_default in {|
    raw_listen := [(V4 0 0 0 0, 8080)];
    raw_max_connections := max_connections router;
    raw_client_hello_timeout_ms := millis (client_hello_timeout router);
    raw_lookup_timeout_ms := millis (lookup_timeout router);
    raw_upstream_timeout_ms := millis (upstream_timeout router);
    raw_idle_timeout_secs := match idle_timeout router with Some idle => as_secs idle | None => 0 end;
    raw_shutdown_grace_secs := as_secs (shutdown_grace router);
    raw_max_client_hello_bytes := max_handshake_bytes (hello_limits router);
    raw_max_client_hello_records := max_records (hello_limits router);
    raw_dns_cache_ttl_secs := as_secs (dns_cache_ttl router);
    raw_max_concurrent_dns_lookups := max_concurrent_dns_lookups router;
    raw_copy_buffer_bytes := copy_buffer_size router;
  |}.
Definition RawAdmin_default : RawAdmin := mkRawAdmin (V4 127 0 0 1, 8081) (lit "/health").

(** ** Validation *)
Section Validate.
Context {ParseFailure : Type}.
Abbreviation Rejected := (ConfigError ParseFailure).

Definition in_range (value min max : N) (field : bytes) : res Rejected N :=
  if (min <=? value) && (value <=? max) then Ok value else Err (OutOfRange field min max).

(** The first address that is already among the [seen] ones. *)
Fixpoint find_duplicate (seen : list SocketAddr) (addrs : list SocketAddr) : option SocketAddr :=
  match addrs with
  | [] => None
  | addr :: addrs => if decide (addr ∈ seen) then Some addr else find_duplicate (addr :: seen) addrs
  end.

Definition timeout_ms (value : N) (field : bytes) : res Rejected Duration :=
  from_millis <$> in_range value 1 MAX_TIMEOUT_MS field.

Definition validate_server (s : RawServer) : res Rejected ServerConfig :=
  if is_empty (raw_listen s) then Err NoListenAddresses
  else
    match find_duplicate [] (raw_listen s) with
    | Some duplicate => Err (DuplicateListenAddress duplicate)
    | None =>
      max_connections ← in_range (raw_max_connections s) 1 MAX_CONNECTIONS (lit "server.max_connections");
      client_hello_timeout ← timeout_ms (raw_client_hello_timeout_ms s) (lit "server.client_hello_timeout_ms");
      lookup_timeout ← timeout_ms (raw_lookup_timeout_ms s) (lit "server.lookup_timeout_ms");
      upstream_timeout ← timeout_ms (raw_upstream_timeout_ms s) (lit "server.upstream_timeout_ms");
      idle_timeout_secs ← in_range (raw_idle_timeout_secs s) 0 MAX_IDLE_TIMEOUT_SECS
        (lit "server.idle_timeout_secs");
      shutdown_grace_secs ← in_range (raw_shutdown_grace_secs s) 0 MAX_SHUTDOWN_GRACE_SECS
        (lit "server.shutdown_grace_secs");
      max_client_hello_bytes ← in_range (raw_max_client_hello_bytes s) MIN_CLIENT_HELLO_BYTES
        MAX_CLIENT_HELLO_BYTES (lit "server.max_client_hello_bytes");
      max_client_hello_records ← in_range (raw_max_client_hello_records s) 1 MAX_HELLO_RECORDS
        (lit "server.max_client_hello_records");
      dns_cache_ttl_secs ← in_range (raw_dns_cache_ttl_secs s) 0 MAX_DNS_CACHE_TTL_SECS
        (lit "server.dns_cache_ttl_secs");
      max_concurrent_dns_lookups ← in_range (raw_max_concurrent_dns_lookups s) 1 MAX_CONCURRENT_DNS_LOOKUPS
        (lit "server.max_concurrent_dns_lookups");
      copy_buffer_bytes ← in_range (raw_copy_buffer_bytes s) MIN_COPY_BUFFER_BYTES MAX_COPY_BUFFER_BYTES
        (lit "server.copy_buffer_bytes");
      Ok (mkServerConfig (raw_listen s) {|
        Connection.client_hello_timeout := client_hello_timeout;
        Connection.lookup_timeout := lookup_timeout;
        Connection.upstream_timeout := upstream_timeout;
        idle_timeout := if 0 <? idle_timeout_secs then Some (from_secs idle_timeout_secs) else None;
        hello_limits := HelloLimits.new max_client_hello_bytes max_client_hello_records;
        Connection.max_connections := max_connections;
        shutdown_grace := from_secs shutdown_grace_secs;
        dns_cache_ttl := from_secs dns_cache_ttl_secs;
        Connection.max_concurrent_dns_lookups := max_concurrent_dns_lookups;
        copy_buffer_size := copy_buffer_bytes;
      |})
    end.

(** [path.contains(char::is_whitespace)]: the encodings of the characters with
    the White_Space property, searched for in well-formed UTF-8. *)
Definition whitespace_chars : list bytes :=
  [[x09]; [x0a]; [x0b]; [x0c]; [x0d]; [x20]; [xc2; x85]; [xc2; xa0]; [xe1; x9a; x80]] ++
  ((λ b, [xe2; x80; b]) <$> [x80; x81; x82; x83; x84; x85; x86; x87; x88; x89; x8a; xa8; xa9; xaf]) ++
  [[xe2; x81; x9f]; [xe3; x80; x80]].
Fixpoint contains_whitespace (s : bytes) : bool :=
  existsb (λ c, bool_decide (is_Some (strip_prefix c s))) whitespace_chars ||
  match s with [] => false | _ :: s => contains_whitespace s end.

Definition validate_admin (a : RawAdmin) : res Rejected AdminConfig :=
  let path := raw_health_path a in
  if negb (bool_decide (is_Some (strip_prefix (lit "/") path))) || bool_decide (path = lit "/metrics")
     || contains_whitespace path
  then Err (InvalidHealthPath path)
  else Ok (mkAdminConfig (raw_admin_listen a) path).

(** [AppConfig::from_toml_str] and [AppConfig::load]: [toml] parses the text,
    [read] reads the file. *)
Definition from_toml_str (toml : bytes → ParseFailure + RawConfig) (source : bytes) : res Rejected AppConfig :=
  match toml source with
  | inl error => Err (ParseError error)
  | inr raw =>
    server ← validate_server (raw_server raw);
    admin ← validate_admin (raw_admin raw);
    routes ← build_route_table (raw_routes raw);
    Ok (mkAppConfig server admin routes)
  end.
Definition load (read : bytes → io_error + bytes) (toml : bytes → ParseFailure + RawConfig) (path : bytes) :
    res Rejected AppConfig :=
  match read path with
  | inl error => Err (ReadError path error)
  | inr source => from_toml_str toml source
  end.
End Validate.

(** ** What is accepted *)

(** The range checks of [validate_server], in the order of the code: the value,
    its bounds and the name of the field. *)
Definition range_checks (s : RawServer) : list (N * N * N * bytes) := [
  (raw_max_connections s, 1, MAX_CONNECTIONS, lit "server.max_connections");
  (raw_client_hello_timeout_ms s, 1, MAX_TIMEOUT_MS, lit "server.client_hello_timeout_ms");
  (raw_lookup_timeout_ms s, 1, MAX_TIMEOUT_MS, lit "server.lookup_timeout_ms");
  (raw_upstream_timeout_ms s, 1, MAX_TIMEOUT_MS, lit "server.upstream_timeout_ms");
  (raw_idle_timeout_secs s, 0, MAX_IDLE_TIMEOUT_SECS, lit "server.idle_timeout_secs");
  (raw_shutdown_grace_secs s, 0, MAX_SHUTDOWN_GRACE_SECS, lit "server.shutdown_grace_secs");
  (raw_max_client_hello_bytes s, MIN_CLIENT_HELLO_BYTES, MAX_CLIENT_HELLO_BYTES, lit "server.max_client_hello_bytes");
  (raw_max_client_hello_records s, 1, MAX_HELLO_RECORDS, lit "server.max_client_hello_records");
  (raw_dns_cache_ttl_secs s, 0, MAX_DNS_CACHE_TTL_SECS, lit "server.dns_cache_ttl_secs");
  (raw_max_concurrent_dns_lookups s, 1, MAX_CONCURRENT_DNS_LOOKUPS, lit "server.max_concurrent_dns_lookups");
  (raw_copy_buffer_bytes s, MIN_COPY_BUFFER_BYTES, MAX_COPY_BUFFER_BYTES, lit "server.copy_buffer_bytes")].
Definition within (c : N * N * N * bytes) : Prop := let '(value, min, max, _) := c in min ≤ value ≤ max.
#[global] Instance within_dec c : Decision (within c).
Proof. destruct c as [[[value min] max] field]. unfold within. apply _. Defined.
Definition out_of_range {F} (c : N * N * N * bytes) : ConfigError F :=
  let '(_, min, max, field) := c in OutOfRange field min max.

(** The configuration the settings stand for. *)
Definition server_of (s : RawServer) : ServerConfig := mkServerConfig (raw_listen s) {|
  Connection.client_hello_timeout := from_millis (raw_client_hello_timeout_ms s);
  Connection.lookup_timeout := from_millis (raw_lookup_timeout_ms s);
  Connection.upstream_timeout := from_millis (raw_upstream_timeout_ms s);
  idle_timeout := if 0 <? raw_idle_timeout_secs s then Some (from_secs (raw_idle_timeout_secs s)) else None;
  hello_limits := HelloLimits.new (raw_max_client_hello_bytes s) (raw_max_client_hello_records s);
  Connection.max_connections := raw_max_connections s;
  shutdown_grace := from_secs (raw_shutdown_grace_secs s);
  dns_cache_ttl := from_secs (raw_dns_cache_ttl_secs s);
  Connection.max_concurrent_dns_lookups := raw_max_concurrent_dns_lookups s;
  copy_buffer_size := raw_copy_buffer_bytes s;
|}.

(** The checks alone: the first one that fails decides. *)
Fixpoint run_checks {F} (cs : list (N * N * N * bytes)) : res (ConfigError F) unit :=
  match cs with
  | [] => Ok ()
  | c :: cs => if decide (within c) then run_checks cs else Err (out_of_range c)
  end.

Lemma in_range_decide {F A} value min max field (k : N → res (ConfigError F) A) :
  (in_range value min max field ≫= k) =
  (if decide (within (value, min, max, field)) then k value else Err (OutOfRange field min max)).
Proof.
  unfold in_range. case_decide as Hw; unfold within in Hw; do 2 case_N; cbn; done || lia.
Qed.
Lemma timeout_decide {F A} value field (k : Duration → res (ConfigError F) A) :
  (timeout_ms value field ≫= k) =
  (if decide (within (value, 1, MAX_TIMEOUT_MS, field)) then k (from_millis value)
   else Err (OutOfRange field 1 MAX_TIMEOUT_MS)).
Proof.
  unfold timeout_ms. rewrite <- (in_range_decide value 1 MAX_TIMEOUT_MS field (λ v, k (from_millis v))).
  by destruct (in_range value 1 MAX_TIMEOUT_MS field).
Qed.

Lemma validate_server_checks {F} s :
  validate_server (ParseFailure := F) s =
  if is_empty (raw_listen s) then Err NoListenAddresses
  else match find_duplicate [] (raw_listen s) with
       | Some duplicate => Err (DuplicateListenAddress duplicate)
       | None => _ ← run_checks (range_checks s); Ok (server_of s)
       end.
Proof.
  unfold validate_server. destruct (is_empty (raw_listen s)); [done|].
  destruct (find_duplicate [] (raw_listen s)); [done|]. unfold range_checks.
  repeat (rewrite ?in_range_decide, ?timeout_decide; cbn [run_checks]; case_decide; [|done]). done.
Qed.

Lemma run_checks_Ok {F} cs : run_checks (F := F) cs = Ok () ↔ Forall within cs.
Proof.
  induction cs as [|c cs IH]; cbn [run_checks]; [split; [constructor|done]|].
  rewrite Forall_cons. case_decide; naive_solver.
Qed.
Lemma run_checks_Err {F} cs e :
  run_checks (F := F) cs = Err e ↔
  ∃ pre c post, cs = pre ++ c :: post ∧ Forall within pre ∧ ¬ within c ∧ e = out_of_range c.
Proof.
  induction cs as [|c cs IH]; cbn [run_checks]; [split; [done|]; by intros ([|] & ? & ? & ? & _)|].
  case_decide as Hc.
  - rewrite IH. split.
    + intros (pre & c' & post & -> & Hpre & ?). exists (c :: pre), c', post. split_and!; [done| |naive_solver..].
      by constructor.
    + intros ([|c0 pre] & c' & post & Heq & Hpre & Hno & ->); simplify_eq/=; [done|].
      apply Forall_cons in Hpre as [_ Hpre]. by exists pre, c', post.
  - split; [intros [= <-]; by exists [], c, cs|].
    intros ([|c0 pre] & c' & post & Heq & Hpre & Hno & ->); simplify_eq/=; [done|].
    by apply Forall_cons in Hpre as [? _].
Qed.
Lemma run_checks_returns {F} cs : returns (run_checks (F := F) cs).
Proof. induction cs as [|c cs IH]; cbn [run_checks]; [|case_decide]; auto with returns. Qed.

Lemma find_duplicate_Some seen addrs d :
  find_duplicate seen addrs = Some d ↔
  ∃ pre post, addrs = pre ++ d :: post ∧ NoDup pre ∧ (∀ a, a ∈ pre → a ∉ seen) ∧ (d ∈ seen ∨ d ∈ pre).
Proof.
  revert seen. induction addrs as [|a addrs IH]; intros seen; cbn [find_duplicate].
  { split; [done|]. by intros ([|] & ? & ? & _). }
  case_decide as Ha.
  - split.
    + intros [= ->]. exists [], addrs. split_and!; [done|constructor|by intros ? ?%elem_of_nil|by left].
    + intros ([|a' pre] & post & Heq & _ & Hs & _); simplify_eq/=; [done|]. by destruct (Hs a'); [left|].
  - rewrite IH. split.
    + intros (pre & post & -> & Hnd & Hs & Hd). exists (a :: pre), post.
      split_and!; [done|constructor; [|done]|..]; set_solver.
    + intros ([|a' pre] & post & Heq & Hnd & Hs & Hd); simplify_eq/=.
      { destruct Hd as [Hd|Hd%elem_of_nil]; done. }
      apply NoDup_cons in Hnd as [Hn Hnd]. exists pre, post. split_and!; [done|done|set_solver..].
Qed.
Lemma find_duplicate_None seen addrs :
  find_duplicate seen addrs = None ↔ NoDup addrs ∧ ∀ a, a ∈ addrs → a ∉ seen.
Proof.
  revert seen. induction addrs as [|a addrs IH]; intros seen; cbn [find_duplicate].
  { split; [|done]. intros _. split; [constructor|by intros ? ?%elem_of_nil]. }
  rewrite NoDup_cons. case_decide as Ha; [split; [done|]; intros [_ Hs]; destruct (Hs a); [by left|done]|].
  rewrite IH. set_solver.
Qed.

Lemma contains_whitespace_spec s :
  contains_whitespace s = true ↔ ∃ c a b, c ∈ whitespace_chars ∧ s = a ++ c ++ b.
Proof.
  assert (∀ s, existsb (λ c, bool_decide (is_Some (strip_prefix c s))) whitespace_chars = true ↔
    ∃ c b, c ∈ whitespace_chars ∧ s = c ++ b) as Hhere.
  { intros t. rewrite existsb_exists. split.
    - intros (c & Hc%list_elem_of_In & [b Hb%strip_prefix_spec]%bool_decide_eq_true). by exists c, b.
    - intros (c & b & Hc%list_elem_of_In & Hb%strip_prefix_spec). exists c. split; [done|].
      apply bool_decide_eq_true. by eexists. }
  induction s as [|x s IH]; cbn [contains_whitespace]; rewrite orb_true_iff, Hhere.
  - split; [intros [(c & b & ? & ?)|]; [by exists c, [], b|done]|].
    intros (c & a & b & Hc & Heq). left. exists c, b. symmetry in Heq. by apply app_nil in Heq as [-> ?].
  - rewrite IH. split.
    + intros [(c & b & ? & ->)|(c & a & b & ? & ->)]; [by exists c, [], b|by exists c, (x :: a), b].
    + intros (c & a & b & Hc & Heq). destruct a as [|x' a]; [left; by exists c, b|].
      injection Heq as -> ->. right. by exists c, a, b.
Qed.

(** A path the health check can be served under. *)
Definition health_path_ok (path : bytes) : Prop :=
  (∃ rest, path = lit "/" ++ rest) ∧ path ≠ lit "/metrics" ∧
  ∀ c a b, c ∈ whitespace_chars → path ≠ a ++ c ++ b.

Lemma validate_admin_cases {F} a :
  (health_path_ok (raw_health_path a) ∧
   validate_admin (ParseFailure := F) a = Ok (mkAdminConfig (raw_admin_listen a) (raw_health_path a))) ∨
  (¬ health_path_ok (raw_health_path a) ∧
   validate_admin (ParseFailure := F) a = Err (InvalidHealthPath (raw_health_path a))).
Proof.
  unfold validate_admin, health_path_ok. set (path := raw_health_path a).
  destruct (strip_prefix (lit "/") path) as [rest|] eqn:Hp.
  - apply strip_prefix_spec in Hp. rewrite (bool_decide_eq_true_2 (is_Some _)) by done. cbn [negb orb].
    case_bool_decide as Hm; [right; naive_solver|]. cbn [orb].
    pose proof (contains_whitespace_spec path) as Hw. destruct (contains_whitespace path).
    + right. split; [|done]. intros (_ & _ & Hno). destruct (proj1 Hw eq_refl) as (c & x & y & Hc & Hx).
      by apply (Hno c x y).
    + left. split; [|done]. split_and!; [by eexists|done|]. intros c x y Hc Hx.
      assert (false = true) by (apply Hw; by exists c, x, y). done.
  - right. rewrite (bool_decide_eq_false_2 (is_Some _)) by by intros [? ?]. split; [|done].
    intros ([rest Hr%strip_prefix_spec] & _). congruence.
Qed.

Lemma validate_server_returns {F} s : returns (validate_server (ParseFailure := F) s).
Proof.
  rewrite validate_server_checks. destruct (is_empty _); [auto with returns|].
  destruct (find_duplicate _ _); [auto with returns|].
  apply returns_bind; [apply run_checks_returns|auto with returns].
Qed.
Lemma validate_server_Ok {F} s c :
  validate_server (ParseFailure := F) s = Ok c ↔
  raw_listen s ≠ [] ∧ NoDup (raw_listen s) ∧ Forall within (range_checks s) ∧ c = server_of s.
Proof.
  rewrite validate_server_checks, <- is_empty_false. destruct (is_empty (raw_listen s)); [naive_solver|].
  destruct (find_duplicate [] (raw_listen s)) as [d|] eqn:Hd.
  - split; [done|]. intros (_ & Hnd & _).
    assert (find_duplicate [] (raw_listen s) = None); [|congruence].
    apply find_duplicate_None. split; [done|]. by intros a _ ?%elem_of_nil.
  - apply find_duplicate_None in Hd as [Hnd _]. rewrite bind_unit_Ok, run_checks_Ok. naive_solver.
Qed.

Lemma NoDup_first {A} (pre : list A) d post : NoDup (pre ++ d :: post) → d ∉ pre.
Proof. intros (_ & Hd & _)%NoDup_app Hin. apply (Hd d Hin). by left. Qed.

(** C32: the [server] section is validated as a whole: [validate] always returns,
    accepts exactly the settings with at least one listen address, none twice,
    and every number in its range, and otherwise reports the first thing wrong:
    no address, then the first repeated one, then the first field out of its
    range, with that range.  The default settings give the default router. *)
Theorem validate_server_exact {F} (s : RawServer) :
  let validated := validate_server (ParseFailure := F) s in
  returns validated ∧
  (∀ c, validated = Ok c ↔ raw_listen s ≠ [] ∧ NoDup (raw_listen s) ∧ Forall within (range_checks s) ∧
     c = server_of s) ∧
  (∀ e, validated = Err e ↔
     (raw_listen s = [] ∧ e = NoListenAddresses) ∨
     (∃ pre d post, raw_listen s = pre ++ d :: post ∧ NoDup pre ∧ d ∈ pre ∧ e = DuplicateListenAddress d) ∨
     (raw_listen s ≠ [] ∧ NoDup (raw_listen s) ∧ ∃ pre c post, range_checks s = pre ++ c :: post ∧
        Forall within pre ∧ ¬ within c ∧ e = out_of_range c)) ∧
  validate_server (ParseFailure := F) RawServer_default =
    Ok (mkServerConfig [(V4 0 0 0 0, 8080)] RouterConfig_default).
Proof.
  intros validated. split_and!; [apply validate_server_returns|intros c; apply validate_server_Ok| |reflexivity].
  intros e. unfold validated. rewrite validate_server_checks.
  destruct (raw_listen s) as [|a l] eqn:Hl; cbn [is_empty].
  { split; [intros [= <-]; by left|]. intros [[_ ->]|[([|] & ? & ? & ? & _)|(? & _)]]; done. }
  rewrite <- Hl. destruct (find_duplicate [] (raw_listen s)) as [d|] eqn:Hd.
  - split.
    + intros [= <-]. right; left. apply find_duplicate_Some in Hd as (pre & post & Heq & Hnd & _ & Hin).
      exists pre, d, post. split_and!; [done|done| |done]. by destruct Hin as [?%elem_of_nil|].
    + intros [[Hnil _]|[(pre & d' & post & Heq & Hnd & Hin & ->)|(_ & Hnd & _)]]; [by rewrite Hl in Hnil| |].
      * assert (find_duplicate [] (raw_listen s) = Some d') as Hd'; [|congruence].
        apply find_duplicate_Some. exists pre, post. split_and!; [done|done|by intros ? _ ?%elem_of_nil|by right].
      * apply find_duplicate_Some in Hd as (pre & post & Heq & _ & _ & [?%elem_of_nil|Hin]); [done|].
        rewrite Heq in Hnd. by apply NoDup_first in Hnd.
  - apply find_duplicate_None in Hd as [Hnd _].
    assert (((_ ← run_checks (F := F) (range_checks s); Ok (server_of s)) = Err e) ↔
      run_checks (range_checks s) = Err e) as ->.
    { destruct (run_checks _) as [[]| |]; cbn; naive_solver. }
    rewrite run_checks_Err. split.
    + intros H. right; right. split_and!; [by rewrite Hl|done|done].
    + intros [[Hnil _]|[(pre & d & post & Heq & _ & Hin & _)|(_ & _ & H)]]; [by rewrite Hl in Hnil| |done].
      rewrite Heq in Hnd. by apply NoDup_first in Hnd.
Qed.

(** ** What a loaded configuration guarantees *)
Definition durations (r : RouterConfig) : list Duration :=
  [Connection.client_hello_timeout r; Connection.lookup_timeout r; Connection.upstream_timeout r;
   shutdown_grace r; dns_cache_ttl r] ++ option_list (idle_timeout r).

Record router_ok (r : RouterConfig) : Prop := {
  router_hello : wire_bound (hello_limits r) ≤ isize_max;
  router_connections : 1 ≤ Connection.max_connections r ≤ 1000000;
  router_lookups : 1 ≤ Connection.max_concurrent_dns_lookups r ≤ 256;
  router_buffer : copy_buffer_size r `max` MIN_COPY_BUFFER = copy_buffer_size r ∧ copy_buffer_size r ≤ 1048576;
  router_timeouts : 0 < Connection.client_hello_timeout r ∧ 0 < Connection.lookup_timeout r ∧
    0 < Connection.upstream_timeout r ∧ idle_timeout r ≠ Some 0;
  router_deadlines now d : clock_ok now → d ∈ durations r → instant_checked_add now d = Some (now + d);
}.
Record app_ok (c : AppConfig) : Prop := {
  app_listens : listen (server c) ≠ [] ∧ NoDup (listen (server c));
  app_router : router_ok (router (server c));
  app_health : health_path_ok (health_path (admin c));
  app_routes : wf_table (im_routes (routes c));
}.

Lemma server_of_ok s : Forall within (range_checks s) → router_ok (router (server_of s)).
Proof.
  unfold range_checks. rewrite !Forall_cons. unfold within, MAX_TIMEOUT_MS, MAX_CONNECTIONS, MAX_IDLE_TIMEOUT_SECS,
    MAX_SHUTDOWN_GRACE_SECS, MIN_CLIENT_HELLO_BYTES, MAX_CLIENT_HELLO_BYTES, MAX_HELLO_RECORDS,
    MAX_DNS_CACHE_TTL_SECS, MAX_CONCURRENT_DNS_LOOKUPS, MIN_COPY_BUFFER_BYTES, MAX_COPY_BUFFER_BYTES.
  intros (?&?&?&?&?&?&?&?&?&?&?&_). unfold server_of. split; cbn [router hello_limits Connection.max_connections
    Connection.max_concurrent_dns_lookups copy_buffer_size idle_timeout Connection.client_hello_timeout
    Connection.lookup_timeout Connection.upstream_timeout].
  - unfold wire_bound, HelloLimits.new, HANDSHAKE_HEADER_LEN, RECORD_HEADER_LEN. cbn [max_handshake_bytes max_records].
    assert (isize_max = 9223372036854775807) as -> by reflexivity. lia.
  - done.
  - done.
  - unfold MIN_COPY_BUFFER. lia.
  - unfold from_millis, from_secs. case_N; split_and!; try lia; [intros [= ?]; lia|done].
  - intros now d Hnow Hd. unfold instant_checked_add. destruct (N.leb_spec (now + d) instant_max); [done|].
    exfalso. unfold clock_ok in Hnow. assert (d ≤ century); [|unfold Instant in *; lia].
    assert (century = 3153600000000000000) as -> by reflexivity.
    unfold durations in Hd. cbn [Connection.client_hello_timeout Connection.lookup_timeout
      Connection.upstream_timeout shutdown_grace dns_cache_ttl idle_timeout app] in Hd.
    unfold from_millis, from_secs in Hd. rewrite !elem_of_cons, elem_of_option_list in Hd.
    destruct Hd as [->|[->|[->|[->|[->|Hd]]]]]; [lia..|]. case_N; simplify_eq. lia.
Qed.

Lemma validate_admin_returns {F} a : returns (validate_admin (ParseFailure := F) a).
Proof. unfold validate_admin. auto with returns. Qed.
Lemma validated_ok {F} raw (c : AppConfig) :
  (server ← validate_server (ParseFailure := F) (raw_server raw);
   admin ← validate_admin (raw_admin raw);
   routes ← build_route_table (raw_routes raw);
   Ok (mkAppConfig server admin routes)) = Ok c → app_ok c.
Proof.
  intros (s & Hs%validate_server_Ok & (a & Ha & (t & Ht%build_route_table_wf & [= <-])%bind_Ok)%bind_Ok)%bind_Ok.
  destruct Hs as (Hl & Hnd & Hin & ->). split; cbn [server admin routes]; [by split|by apply server_of_ok| |apply Ht].
  destruct (validate_admin_cases (F := F) (raw_admin raw)) as [[Hok Hv]|[_ Hv]]; rewrite Hv in Ha; [|done].
  by injection Ha as <-.
Qed.

Lemma load_returns {F} read (toml : bytes → F + RawConfig) path : returns (load read toml path).
Proof.
  unfold load, from_toml_str. destruct (read path); [auto with returns|]. destruct (toml _); [auto with returns|].
  apply returns_bind; [apply validate_server_returns|]. intros s _.
  apply returns_bind; [apply validate_admin_returns|]. intros a _. apply returns_bind; auto with returns.
Qed.
Lemma load_app_ok {F} read (toml : bytes → F + RawConfig) path c : load read toml path = Ok c → app_ok c.
Proof.
  unfold load, from_toml_str. destruct (read path); [done|]. destruct (toml _); [done|]. apply validated_ok.
Qed.

Lemma load_Ok {F} read (toml : bytes → F + RawConfig) path c :
  load read toml path = Ok c ↔ ∃ source raw, read path = inr source ∧ toml source = inr raw ∧
    validate_server (ParseFailure := F) (raw_server raw) = Ok (server c) ∧
    validate_admin (ParseFailure := F) (raw_admin raw) = Ok (admin c) ∧
    build_route_table (ParseFailure := F) (raw_routes raw) = Ok (routes c).
Proof.
  unfold load, from_toml_str. destruct (read path) as [error|source]; [split; [done|by intros (? & ? & [=] & _)]|].
  destruct (toml source) as [error|raw] eqn:Htoml.
  { split; [done|]. intros (? & ? & [= <-] & Hraw & _). congruence. }
  rewrite bind_Ok. setoid_rewrite bind_Ok. setoid_rewrite bind_Ok. split.
  - intros (s & Hs & a & Ha & t & Ht & [= <-]). by exists source, raw.
  - intros (source' & raw' & [= <-] & Hraw & Hs & Ha & Ht). rewrite Htoml in Hraw. injection Hraw as <-.
    exists (server c). split; [done|]. exists (admin c). split; [done|]. exists (routes c). by destruct c.
Qed.

(** C20: [AppConfig::load] always returns, and only ever returns a configuration
    the router can run: at least one listener and none twice, buffers, counts
    and timeouts in bounds, deadlines that cannot overflow, a servable health
    path other than the metrics one, a well-formed route table.  It accepts
    exactly a file that can be read, is TOML of the schema, and whose three
    sections are valid; otherwise it reports the first problem in that order. *)
Theorem load_type_safe {F} read (toml : bytes → F + RawConfig) path :
  let loaded := load read toml path in
  returns loaded ∧
  (∀ c, loaded = Ok c → app_ok c) ∧
  (∀ c, loaded = Ok c ↔ ∃ source raw, read path = inr source ∧ toml source = inr raw ∧
     validate_server (ParseFailure := F) (raw_server raw) = Ok (server c) ∧
     validate_admin (ParseFailure := F) (raw_admin raw) = Ok (admin c) ∧
     build_route_table (ParseFailure := F) (raw_routes raw) = Ok (routes c)) ∧
  (∀ e, loaded = Err e ↔
     (∃ error, read path = inl error ∧ e = ReadError path error) ∨
     ∃ source, read path = inr source ∧
       ((∃ error, toml source = inl error ∧ e = ParseError error) ∨
        ∃ raw, toml source = inr raw ∧
          (validate_server (ParseFailure := F) (raw_server raw) = Err e ∨
           ∃ s, validate_server (ParseFailure := F) (raw_server raw) = Ok s ∧
             (validate_admin (ParseFailure := F) (raw_admin raw) = Err e ∨
              ∃ a, validate_admin (ParseFailure := F) (raw_admin raw) = Ok a ∧
                build_route_table (ParseFailure := F) (raw_routes raw) = Err e)))).
Proof.
  intros loaded. split_and!; [apply load_returns|intros c; apply load_app_ok|intros c; apply load_Ok|].
  unfold loaded, load, from_toml_str; destruct (read path) as [error|source].
  - intros e. split; [intros [= <-]; left; by exists error|].
    by intros [(? & [= <-] & ->)|(? & [=] & _)].
  - intros e. destruct (toml source) as [error|raw] eqn:Htoml.
    { split; [intros [= <-]; right; exists source; split; [done|]; left; by exists error|].
      intros [(? & [=] & _)|(? & [= <-] & [(? & Herr & ->)|(? & Hraw & _)])]; congruence. }
    rewrite bind_Err. setoid_rewrite bind_Err. setoid_rewrite bind_Err. split.
    + intros Hv. right. exists source. split; [done|]. right. exists raw. split; [done|]. naive_solver.
    + intros [(? & [=] & _)|(source' & [= <-] & [(? & Hraw & _)|(raw' & Hraw & Hv)])]; [congruence|].
      rewrite Htoml in Hraw. injection Hraw as <-. naive_solver.
Qed.
