(* ===== verification/Reload.v ===== *)
(** * Reloading the routes ([sni_router_app: reload.rs])

    One reload, and the task that reloads on every SIGHUP until shutdown. *)

From S2P Require Import Prelude Async Str Net Names Lookup Routing Protocol Reader Hello Records.
From S2P Require Import Framing Builder Parser HelloReader Metrics Gate Metered Splice SpliceProofs.
From S2P Require Import Proxy Connection Routes Config.

(** The settings the process started with, and what a reload did. *)
Record StartupSettings := mkStartup { startup_server : ServerConfig; startup_admin : AdminConfig }.
Record ReloadOutcome := mkReloadOutcome { reloaded_routes : N; ignored_restart_only_changes : bool }.

Section Reload.
Context {ParseFailure : Type}.
Abbreviation Rejected := (ConfigError ParseFailure).

(** [read] and [toml]: what the file system and the TOML parser answer. *)
Definition reload_from_path (read : bytes → io_error + bytes) (toml : bytes → ParseFailure + RawConfig)
    (path : bytes) (startup : StartupSettings) (lookup : FileRouteLookup) :
    res Rejected ReloadOutcome * FileRouteLookup :=
  match load read toml path with
  | Ok config =>
    let ignored := negb (bool_decide (server config = startup_server startup)) ||
      negb (bool_decide (admin config = startup_admin startup)) in
    let count := InMemoryLookup.len (routes config) in
    (Ok (mkReloadOutcome count ignored), FileRouteLookup.replace (routes config) lookup)
  | Err error => (Err error, lookup)
  | Stuck s => (Stuck s, lookup)
  end.

(** ** The SIGHUP task *)
Inductive ReloadTask := ReloadWaiting | ReloadRunning | ReloadStopped.

(** Whether the signal handler could be installed. *)
Definition spawn_sighup_reload (installed : bool) : ReloadTask :=
  if installed then ReloadWaiting else ReloadStopped.

(** The [select!], whose branches are polled in any order: the shutdown token,
    the next signal ([None]: the signal stream ended).  A reload that was
    started runs to its end, or its task fails; either way the loop goes on. *)
Inductive reload_step (toml : bytes → ParseFailure + RawConfig) (path : bytes) (startup : StartupSettings)
    (shutdown : bool) : ReloadTask * FileRouteLookup → ReloadTask * FileRouteLookup → Prop :=
| reload_cancelled l :
    shutdown = true → reload_step toml path startup shutdown (ReloadWaiting, l) (ReloadStopped, l)
| reload_hangup l received :
    reload_step toml path startup shutdown (ReloadWaiting, l)
      (match received with Some () => ReloadRunning | None => ReloadStopped end, l)
| reload_done l read :
    reload_step toml path startup shutdown (ReloadRunning, l)
      (ReloadWaiting, (reload_from_path read toml path startup l).2)
| reload_failed l :
    reload_step toml path startup shutdown (ReloadRunning, l) (ReloadWaiting, l).

(** ** All or nothing *)

(** A table the configuration file once described. *)
Definition loadable (toml : bytes → ParseFailure + RawConfig) (path : bytes) (t : InMemoryLookup) : Prop :=
  ∃ read c, load read toml path = Ok c ∧ routes c = t.

Lemma loadable_wf toml path t : loadable toml path t → wf_table (im_routes t).
Proof. intros (read & c & Hc%load_app_ok & <-). apply Hc. Qed.

Lemma reload_from_path_cases read toml path startup l :
  (∃ c, load read toml path = Ok c ∧
     reload_from_path read toml path startup l =
       (Ok (mkReloadOutcome (InMemoryLookup.len (routes c))
              (negb (bool_decide (server c = startup_server startup ∧ admin c = startup_admin startup)))),
        mkFileRouteLookup (routes c))) ∨
  (∃ e, load read toml path = Err e ∧ reload_from_path read toml path startup l = (Err e, l)).
Proof.
  pose proof (load_returns read toml path) as Hr. unfold reload_from_path.
  destruct (load read toml path) as [c|e|s]; [left|right; by exists e|by destruct (Hr s)].
  exists c. split; [done|]. unfold FileRouteLookup.replace. repeat f_equal.
  do 3 case_bool_decide; naive_solver.
Qed.
Lemma reload_step_table toml path startup shutdown s s' :
  reload_step toml path startup shutdown s s' →
  s'.2 = s.2 ∨ (s.1 = ReloadRunning ∧ loadable toml path (FileRouteLookup.snapshot s'.2)).
Proof.
  intros [l Hs|l received|l read|l]; cbn; [by left..| |by left].
  destruct (reload_from_path_cases read toml path startup l) as [(c & Hc & ->)|(e & _ & ->)]; [|by left].
  right. split; [done|]. by exists read, c.
Qed.
End Reload.

(** C19: a reload is all or nothing.  It returns; when the whole file is valid it
    puts exactly the file's table in place, reports how many routes that is, and
    reports whether the other two sections changed; when anything in the file is
    invalid it reports the error and leaves the table alone.  So whatever
    sequence of signals, files and failures the reload task sees, the table in
    place is the first one or one the file once held, whole, and is well formed
    if the first one was. *)
Theorem reload_all_or_nothing {F} (toml : bytes → F + RawConfig) path startup :
  (∀ read l,
     let '(result, l') := reload_from_path read toml path startup l in
     returns result ∧
     (∀ c, load read toml path = Ok c → FileRouteLookup.snapshot l' = routes c ∧
        ∃ outcome, result = Ok outcome ∧ reloaded_routes outcome = FileRouteLookup.len l' ∧
          (ignored_restart_only_changes outcome = false ↔
             server c = startup_server startup ∧ admin c = startup_admin startup)) ∧
     (∀ e, load read toml path = Err e ↔ result = Err e) ∧
     (∀ e, result = Err e → l' = l)) ∧
  (∀ s s', rtc (λ s s', ∃ shutdown, reload_step toml path startup shutdown s s') s s' →
     (s'.2 = s.2 ∨ loadable toml path (FileRouteLookup.snapshot s'.2)) ∧
     (wf_table (im_routes (FileRouteLookup.snapshot s.2)) → wf_table (im_routes (FileRouteLookup.snapshot s'.2)))).
Proof.
  split.
  - intros read l. destruct (reload_from_path_cases read toml path startup l) as [(c & Hc & ->)|(e & He & ->)].
    + split_and!; [auto with returns| |intros e; rewrite Hc; by split|done].
      intros c' Hc'. rewrite Hc in Hc'. injection Hc' as <-. split; [done|]. eexists. split_and!; [done|done|].
      cbn [ignored_restart_only_changes]. by rewrite negb_false_iff, bool_decide_eq_true.
    + split_and!; [auto with returns|congruence|intros e'; rewrite He; naive_solver|done].
  - intros s s' Hs.
    assert (s'.2 = s.2 ∨ loadable toml path (FileRouteLookup.snapshot s'.2)) as Htable.
    { induction Hs as [s|s s1 s2 [shutdown H1] _ IH]; [by left|]. destruct IH as [IH|]; [|by right].
      rewrite IH. destruct (reload_step_table _ _ _ _ _ _ H1) as [|[_ ?]]; [by left|by right]. }
    split; [done|]. destruct Htable as [->|Hl]; [done|]. intros _. by eapply loadable_wf.
Qed.
