(* ===== verification/ConfigTests.v ===== *)
(** * Tests of the configuration and the reload, evaluated on the model

    The tests of [config/mod.rs] and [reload.rs], one boolean each: whether the
    test's assertions hold.  The settings are the ones the TOML reader finds in
    each test's text; the cases of unknown fields are the reader's own. *)

From S2P Require Import Prelude Async Str Net Names Lookup Routing Protocol Reader Hello Records.
From S2P Require Import Framing Builder Parser HelloReader Metrics Gate Metered Splice SpliceProofs.
From S2P Require Import Proxy Connection Routes Config Reload.
From Stdlib Require Import Strings.Byte.

(** The TOML reader fails with a message. *)
Definition Parsed : Type := res (ConfigError bytes) AppConfig.
Definition parse (raw : RawConfig) : Parsed := from_toml_str (λ _, inr raw) [].
Definition holds_of {E A} (m : res E A) (test : A → bool) : bool := match m with Ok a => test a | _ => false end.
(** Some bytes occur in others. *)
Fixpoint occurs (needle hay : bytes) : bool :=
  bool_decide (is_Some (strip_prefix needle hay)) || match hay with [] => false | _ :: hay => occurs needle hay end.
Definition rejects {A} (expected : string) (m : res (ConfigError bytes) A) : bool :=
  match m with Err e => occurs (lit expected) (ConfigError_fmt id id id e) | _ => false end.

Definition local (port : N) : SocketAddr := (V4 127 0 0 1, port).
Definition route (hostname backend : string) : RawRoute := mkRawRoute (lit hostname) (lit backend).

(** The default settings with some changed. *)
Definition nothing : RawConfig := mkRawConfig RawServer_default RawAdmin_default [].
Definition routed (rs : list RawRoute) : RawConfig := mkRawConfig RawServer_default RawAdmin_default rs.
Definition served (s : RawServer) : RawConfig := mkRawConfig s RawAdmin_default [].
Definition health (path : string) : RawConfig :=
  mkRawConfig RawServer_default (mkRawAdmin (raw_admin_listen RawAdmin_default) (lit path)) [].
Definition with_listen (l : list SocketAddr) (s : RawServer) : RawServer :=
  mkRawServer l (raw_max_connections s) (raw_client_hello_timeout_ms s) (raw_lookup_timeout_ms s)
    (raw_upstream_timeout_ms s) (raw_idle_timeout_secs s) (raw_shutdown_grace_secs s) (raw_max_client_hello_bytes s)
    (raw_max_client_hello_records s) (raw_dns_cache_ttl_secs s) (raw_max_concurrent_dns_lookups s) (raw_copy_buffer_bytes s).
(** The numbers of the section, in its order. *)
Definition numbers (s : RawServer) : list N :=
  [raw_max_connections s; raw_client_hello_timeout_ms s; raw_lookup_timeout_ms s; raw_upstream_timeout_ms s;
   raw_idle_timeout_secs s; raw_shutdown_grace_secs s; raw_max_client_hello_bytes s; raw_max_client_hello_records s;
   raw_dns_cache_ttl_secs s; raw_max_concurrent_dns_lookups s; raw_copy_buffer_bytes s].
Definition of_numbers (l : list SocketAddr) (ns : list N) : RawServer :=
  let at_ i := default 0 (ns !! i) in
  mkRawServer l (at_ 0%nat) (at_ 1%nat) (at_ 2%nat) (at_ 3%nat) (at_ 4%nat) (at_ 5%nat) (at_ 6%nat) (at_ 7%nat)
    (at_ 8%nat) (at_ 9%nat) (at_ 10%nat).
Definition field (i : nat) (n : N) : RawConfig :=
  served (of_numbers (raw_listen RawServer_default) (<[i := n]> (numbers RawServer_default))).

Module ModTests.
(** The example file. *)
Definition EXAMPLE : RawConfig :=
  mkRawConfig
    (of_numbers [(V4 0 0 0 0, 8080)] [10000; 5000; 2000; 5000; 1800; 30; 32768; 32; 30; 64; 32768])
    (mkRawAdmin (local 8081) (lit "/health"))
    [route "api.example.com" "api-svc.default.svc.cluster.local:8443"; route "*.apps.example.com" "10.0.0.5:443";
     route "v6.example.com" "[2001:db8::10]:443"].
Definition example_config_is_valid : bool :=
  holds_of (parse EXAMPLE) (λ config,
    bool_decide (listen (server config) = [(V4 0 0 0 0, 8080)]) &&
    bool_decide (health_path (admin config) = lit "/health") && negb (InMemoryLookup.is_empty (routes config))).

Definition empty_file_uses_defaults : bool :=
  holds_of (parse nothing) (λ config,
    bool_decide (listen (server config) = [(V4 0 0 0 0, 8080)]) &&
    bool_decide (router (server config) = RouterConfig_default) &&
    bool_decide (admin_listen (admin config) = local 8081) && InMemoryLookup.is_empty (routes config)).

Definition idle_is (raw : RawConfig) (expected : option Duration) : bool :=
  holds_of (parse raw) (λ config, bool_decide (idle_timeout (router (server config)) = expected)).
Definition idle_timeout_defaults_to_30_minutes_and_zero_disables_it : bool :=
  idle_is nothing (Some (from_secs 1800)) && idle_is (field 4 0) None && idle_is (field 4 45) (Some (from_secs 45)).

Definition copy_buffer_defaults_to_32_kib : bool :=
  holds_of (parse nothing) (λ config, copy_buffer_size (router (server config)) =? 32 * 1024).

Definition server_settings_map_onto_router_config : bool :=
  holds_of (parse (served (of_numbers [local 9443; (V6 [0; 0; 0; 0; 0; 0; 0; 1], 9443)]
      [7; 1500; 250; 3000; 600; 0; 4096; 4; 0; 8; 65536]))) (λ config,
    let router := router (server config) in
    (len (listen (server config)) =? 2) && (max_connections router =? 7) &&
    (client_hello_timeout router =? from_millis 1500) && (lookup_timeout router =? from_millis 250) &&
    (upstream_timeout router =? from_secs 3) && bool_decide (idle_timeout router = Some (from_secs 600)) &&
    (shutdown_grace router =? 0) && bool_decide (hello_limits router = HelloLimits.new 4096 4) &&
    (dns_cache_ttl router =? 0) && (max_concurrent_dns_lookups router =? 8) && (copy_buffer_size router =? 65536)).

(** The hits of the table for a name that parses. *)
Definition hits_for (config : AppConfig) (name : string) : res NameError RouteHits :=
  host ← Hostname.parse (lit name); Ok (InMemoryLookup.hits (routes config) (RouteCandidates.for_hostname host)).
Definition routes_are_normalized_and_matchable : bool :=
  holds_of (parse (routed [route "API.Example.com" "API-svc:8443"; route "*.apps.example.com" "10.0.0.5:443"])) (λ config,
    holds_of (hits_for config "x.apps.example.com") (λ hits, len hits =? 1) &&
    holds_of (hits_for config "api.example.com") (λ hits,
      bool_decide (Backend.fmt ∘ snd <$> head hits = Some (lit "api-svc:8443")))).

Definition rejects_invalid_values : bool :=
  forallb (λ '(raw, expected), rejects expected (parse raw)) [
    (served (with_listen [] RawServer_default), "server.listen must not be empty");
    (served (with_listen [local 1; local 1] RawServer_default), "more than once");
    (field 0 0, "server.max_connections");
    (field 2 0, "server.lookup_timeout_ms");
    (field 1 0, "server.client_hello_timeout_ms");
    (field 3 0, "server.upstream_timeout_ms");
    (field 6 512, "between 1024 and 65536");
    (field 6 70000, "between 1024 and 65536");
    (field 7 0, "max_client_hello_records");
    (field 4 18446744073709551615, "server.idle_timeout_secs");
    (field 2 3600001, "server.lookup_timeout_ms");
    (field 5 99999, "server.shutdown_grace_secs");
    (field 0 2000000, "server.max_connections");
    (field 8 100000, "server.dns_cache_ttl_secs");
    (field 9 0, "server.max_concurrent_dns_lookups");
    (field 9 1000, "server.max_concurrent_dns_lookups");
    (field 10 10, "server.copy_buffer_bytes");
    (health "health", "admin.health_path");
    (health "/metrics", "admin.health_path");
    (routed [route "*.com" "a:1"], "routes[0].hostname");
    (routed [route "a.test." "a:1"], "routes[0].hostname");
    (routed [route "a.test" "a"], "routes[0].backend");
    (routed [route "a.test" "a:0"], "routes[0].backend");
    (routed [route "a.test" "a:1"; route "A.TEST" "b:1"], "appears more than once")]%string.

Definition missing_file_reports_its_path : bool :=
  rejects "/nonexistent/sni_router.toml"
    (load (λ _, inl (mkIoError KNotFound (lit "No such file"))) (λ _, inr nothing) (lit "/nonexistent/sni_router.toml")).
End ModTests.

Module ReloadTests.
(** The contents the file is given, by name, and what the reader makes of each. *)
Definition V1 : bytes := lit "V1".
Definition V2 : bytes := lit "V2".
Definition toml (source : bytes) : bytes + RawConfig :=
  if decide (source = V1) then inr (routed [route "a.test" "old:1"])
  else if decide (source = V2) then inr (routed [route "a.test" "new:1"; route "b.test" "b:1"])
  else if decide (source = lit "no port") then inr (routed [route "a.test" "no-port"])
  else if decide (source = lit "max_connections = 5" ++ V2) then
    inr (mkRawConfig (of_numbers (raw_listen RawServer_default) (<[0%nat := 5]> (numbers RawServer_default)))
      RawAdmin_default [route "a.test" "new:1"; route "b.test" "b:1"])
  else inl (lit "not toml").
(** The file's content, or none when it is gone. *)
Definition read (file : option bytes) (path : bytes) : io_error + bytes :=
  match file with Some contents => inr contents | None => inl (mkIoError KNotFound (lit "No such file")) end.
Definition path : bytes := lit "sni_router.toml".

Definition setup (file : bytes) : res (ConfigError bytes) (StartupSettings * FileRouteLookup) :=
  config ← load (read (Some file)) toml path;
  Ok (mkStartup (server config) (admin config), FileRouteLookup.new (routes config)).
Definition reload (file : option bytes) (startup : StartupSettings) (lookup : FileRouteLookup) :
    res (ConfigError bytes) ReloadOutcome * FileRouteLookup :=
  reload_from_path (read file) toml path startup lookup.
Definition backend_for (l : FileRouteLookup) (name : string) : res LookupError (option bytes) :=
  match Hostname.parse (lit name) with
  | Ok host => hits ← fut_value (lookup l (RouteCandidates.for_hostname host)); Ok (Backend.fmt ∘ snd <$> head hits)
  | _ => Stuck SPanic
  end.
Definition backend_is (l : FileRouteLookup) (name expected : string) : bool :=
  holds_of (backend_for l name) (λ b, bool_decide (b = Some (lit expected))).
Definition failed {A} (m : res (ConfigError bytes) A) : bool := match m with Err _ => true | _ => false end.

Definition valid_file_swaps_routes : bool :=
  holds_of (setup V1) (λ '(startup, l), let '(result, l) := reload (Some V2) startup l in
    holds_of result (λ outcome, (reloaded_routes outcome =? 2) && negb (ignored_restart_only_changes outcome)) &&
    backend_is l "a.test" "new:1" && backend_is l "b.test" "b:1").

Definition invalid_file_keeps_current_routes : bool :=
  holds_of (setup V1) (λ '(startup, l),
    let '(first, l) := reload (Some (lit "no port")) startup l in
    let '(second, l) := reload (Some (lit "not toml [")) startup l in
    failed first && failed second && backend_is l "a.test" "old:1").

Definition missing_file_keeps_current_routes : bool :=
  holds_of (setup V1) (λ '(startup, l), let '(result, l) := reload None startup l in
    failed result && backend_is l "a.test" "old:1").

Definition server_changes_are_reported_not_applied : bool :=
  holds_of (setup V1) (λ '(startup, l), let '(result, l) := reload (Some (lit "max_connections = 5" ++ V2)) startup l in
    holds_of result ignored_restart_only_changes && backend_is l "a.test" "new:1").
End ReloadTests.

Lemma config_tests_pass :
  forallb id
    [ModTests.example_config_is_valid; ModTests.empty_file_uses_defaults;
     ModTests.idle_timeout_defaults_to_30_minutes_and_zero_disables_it; ModTests.copy_buffer_defaults_to_32_kib;
     ModTests.server_settings_map_onto_router_config; ModTests.routes_are_normalized_and_matchable;
     ModTests.rejects_invalid_values; ModTests.missing_file_reports_its_path;
     ReloadTests.valid_file_swaps_routes; ReloadTests.invalid_file_keeps_current_routes;
     ReloadTests.missing_file_keeps_current_routes; ReloadTests.server_changes_are_reported_not_applied] = true.
Proof. vm_compute. reflexivity. Qed.
