(* ===== verification/Admin.v ===== *)
(** * The admin endpoint ([sni_router_app: admin.rs])

    The two pages it serves, and the loop that accepts and bounds its
    connections.  HTTP itself and the encoding of the metrics are parameters. *)

From S2P Require Import Prelude Async Config.

Definition SHUTDOWN_GRACE_PERIOD : Duration := from_secs 1.

Record AdminLimits := mkAdminLimits {
  admin_max_connections : N;
  header_timeout : Duration;
  connection_timeout : Duration;
}.
Definition AdminLimits_default : AdminLimits := mkAdminLimits 256 (from_secs 2) (from_secs 5).

(** A flag all clones of a [Health] share. *)
Record Health := mkHealth { draining : bool }.
Module Health.
Definition new : Health := mkHealth false.
Definition set_draining (_ : Health) : Health := mkHealth true.
Definition is_draining (h : Health) : bool := draining h.
End Health.

(** ** Pages *)
Record Request := mkRequest { method : bytes; uri_path : bytes }.
Record Response := mkResponse { status : N; content_type : bytes; body : bytes }.

Definition text (status : N) (body : bytes) : Response :=
  mkResponse status (lit "text/plain; charset=utf-8") body.

Section Routes.
Context {Registry : Type} (encode : Registry → io_error + bytes).

Record AdminRoutes := mkAdminRoutes { registry : Registry; routes_health_path : bytes; health : Health }.

Definition metrics (r : AdminRoutes) : Response :=
  match encode (registry r) with
  | inl _ => text 500 (lit "metrics encoding failed" ++ [Byte.x0a])
  | inr body => mkResponse 200 (lit "text/plain; version=0.0.4; charset=utf-8") body
  end.
Definition handle (r : AdminRoutes) (request : Request) : Response :=
  if negb (bool_decide (method request = lit "GET")) then text 405 (lit "method not allowed" ++ [Byte.x0a])
  else if bool_decide (uri_path request = lit "/metrics") then metrics r
  else if bool_decide (uri_path request = routes_health_path r) then
    (if Health.is_draining (health r) then text 503 (lit "draining" ++ [Byte.x0a]) else text 200 (lit "ok" ++ [Byte.x0a]))
  else text 404 (lit "not found" ++ [Byte.x0a]).
End Routes.

(** A validated health path is served: its answer says whether the process is
    draining, and nothing else. *)
Lemma handle_health {Registry} (encode : Registry → io_error + bytes) r :
  health_path_ok (routes_health_path r) →
  status (handle encode r (mkRequest (lit "GET") (routes_health_path r))) =
    if Health.is_draining (health r) then 503 else 200.
Proof.
  intros (_ & Hm & _). unfold handle. cbn [method uri_path].
  rewrite (bool_decide_eq_true_2 (lit "GET" = lit "GET")), (bool_decide_eq_false_2 (_ = lit "/metrics")) by done.
  cbn [negb]. rewrite bool_decide_eq_true_2 by done. by destruct (Health.is_draining _).
Qed.

(** ** The accept loop

    The [select!] of [serve] either holds a slot, waiting for a connection, or
    waits for one; when another branch is taken the slot goes back.  A task that
    ended is joined later. *)
Inductive AdminAt := AdminSelect (holding : bool) | AdminSleep | AdminGrace | AdminAborting | AdminDone.
#[global] Instance AdminAt_eq_dec : EqDecision AdminAt.
Proof. solve_decision. Defined.
Record AdminServer (Sem : Type) := mkAdminServer {
  ad_at : AdminAt;
  ad_slots : Sem;
  ad_running : N;
  ad_finished : N;
}.
Arguments mkAdminServer {Sem} _ _ _ _.
Arguments ad_at {Sem} _.
Arguments ad_slots {Sem} _.
Arguments ad_running {Sem} _.
Arguments ad_finished {Sem} _.

Section Serve.
Context `{Semaphore Sem}.
Abbreviation AdminState := (AdminServer Sem).

Definition admin_serve : section AdminState :=
  slots ← sem_new (admin_max_connections AdminLimits_default); Ok (mkAdminServer (AdminSelect false) slots 0 0).

(** Dropping the future of [accept_with_slot]. *)
Definition give_back (holding : bool) (slots : Sem) : Sem := if holding then release slots else slots.

Inductive admin_step (shutdown : bool) : AdminState → AdminState → Prop :=
| ad_acquire slots slots' running finished :
    try_acquire slots = Some slots' →
    admin_step shutdown (mkAdminServer (AdminSelect false) slots running finished)
      (mkAdminServer (AdminSelect true) slots' running finished)
| ad_accept slots running finished :
    admin_step shutdown (mkAdminServer (AdminSelect true) slots running finished)
      (mkAdminServer (AdminSelect false) slots (running + 1) finished)
| ad_accept_failed slots running finished :
    admin_step shutdown (mkAdminServer (AdminSelect true) slots running finished)
      (mkAdminServer AdminSleep (release slots) running finished)
| ad_slept slots running finished :
    admin_step shutdown (mkAdminServer AdminSleep slots running finished)
      (mkAdminServer (AdminSelect false) slots running finished)
| ad_join holding slots running finished :
    admin_step shutdown (mkAdminServer (AdminSelect holding) slots running (finished + 1))
      (mkAdminServer (AdminSelect false) (give_back holding slots) running finished)
| ad_shutdown holding slots running finished :
    shutdown = true →
    admin_step shutdown (mkAdminServer (AdminSelect holding) slots running finished)
      (mkAdminServer AdminGrace (give_back holding slots) running finished)
| ad_task_ends at_ slots running finished :
    admin_step shutdown (mkAdminServer at_ slots (running + 1) finished)
      (mkAdminServer at_ (release slots) running (finished + 1))
| ad_drain_join at_ slots running finished :
    at_ = AdminGrace ∨ at_ = AdminAborting →
    admin_step shutdown (mkAdminServer at_ slots running (finished + 1)) (mkAdminServer at_ slots running finished)
| ad_grace_over slots running finished :
    0 < running + finished →
    admin_step shutdown (mkAdminServer AdminGrace slots running finished)
      (mkAdminServer AdminAborting slots running finished)
| ad_drained at_ slots :
    at_ = AdminGrace ∨ at_ = AdminAborting →
    admin_step shutdown (mkAdminServer at_ slots 0 0) (mkAdminServer AdminDone slots 0 0).

(** ** Its invariant *)
Definition ad_held (a : AdminState) : N := match ad_at a with AdminSelect true => 1 | _ => 0 end.
Record admin_wf (free : Sem → N) (a : AdminState) : Prop := {
  adw_slots : free (ad_slots a) + ad_running a + ad_held a = admin_max_connections AdminLimits_default;
  adw_done : ad_at a = AdminDone → ad_running a = 0 ∧ ad_finished a = 0;
}.

Context {free : Sem → N} `{!SemaphoreSpec Sem free}.

Lemma admin_serve_wf a : admin_serve = Ok a → admin_wf free a.
Proof. intros (slots & Hs%sem_new_permits & [= <-])%bind_Ok. split; cbn in *; [lia|done]. Qed.
Lemma admin_step_wf shutdown a a' : admin_wf free a → admin_step shutdown a a' → admin_wf free a'.
Proof.
  intros [Hs Hd]. unfold ad_held in *. destruct 1; split; cbn [ad_slots ad_running ad_at ad_finished ad_held] in *;
    unfold ad_held; cbn [ad_at]; try done; rewrite ?release_permit; try lia.
  all: try (apply try_acquire_Some in H0; lia).
  all: try (destruct holding; cbn [give_back]; rewrite ?release_permit; lia).
  all: try (destruct Hd; [done|lia]).
  all: try (destruct at_; intros; (done || lia || (destruct Hd; [done|lia]))).
  by destruct H0 as [-> | ->].
Qed.

(** Whether it still accepts; only a shutdown ends that, and nothing after it. *)
Definition admin_open (a : AdminState) : bool :=
  match ad_at a with AdminSelect _ | AdminSleep => true | _ => false end.
Ltac admin_cases :=
  destruct 1; cbn; intros; try match goal with Ho : _ ∨ _ |- _ => destruct Ho as [-> | ->] end; try done.
Lemma admin_step_open shutdown a a' :
  admin_step shutdown a a' → shutdown = false → admin_open a = true → admin_open a' = true.
Proof. admin_cases. congruence. Qed.
Lemma admin_step_done shutdown a a' : admin_step shutdown a a' → ad_at a = AdminDone → ad_at a' = AdminDone.
Proof. admin_cases. Qed.

(** Once it stopped accepting, every step brings it closer to the end, and there
    is one until it is done. *)
Definition admin_rank (a : AdminState) : N :=
  (match ad_at a with AdminSleep => 4 | AdminSelect _ => 3 | AdminGrace => 2 | AdminAborting => 1 | AdminDone => 0 end) + 2 * ad_running a + ad_finished a.
Lemma admin_step_rank shutdown a a' :
  admin_step shutdown a a' → admin_open a = false → admin_open a' = false ∧ admin_rank a' < admin_rank a.
Proof. unfold admin_rank, admin_open. admin_cases; (split; [done|lia]). Qed.
Lemma admin_progress a : ad_at a ≠ AdminDone → ∃ a', admin_step true a a' ∧ admin_rank a' < admin_rank a.
Proof.
  destruct a as [at_ slots running finished]. intros Hd.
  assert (∀ a', admin_step true (mkAdminServer at_ slots running finished) a' →
    admin_open (mkAdminServer at_ slots running finished) = false → ∃ a', admin_step true (mkAdminServer at_ slots running finished) a' ∧
      admin_rank a' < admin_rank (mkAdminServer at_ slots running finished)) as Hstep.
  { intros a' Hs Ho. exists a'. split; [done|]. by destruct (admin_step_rank _ _ _ Hs Ho). }
  destruct at_ as [holding| | | |]; [eexists; split; [by apply ad_shutdown|unfold admin_rank; cbn; lia]|
    eexists; split; [by apply ad_slept|unfold admin_rank; cbn; lia]|..|done];
    (destruct (decide (running = 0)) as [->|]; [destruct (decide (finished = 0)) as [->|]|]);
    [eapply Hstep; [apply ad_drained; by left|done]
    |replace finished with (finished - 1 + 1) in * by lia; eapply Hstep; [apply ad_drain_join; by left|done]
    |replace running with (running - 1 + 1) in * by lia; eapply Hstep; [apply ad_task_ends|done]
    |eapply Hstep; [apply ad_drained; by right|done]
    |replace finished with (finished - 1 + 1) in * by lia; eapply Hstep; [apply ad_drain_join; by right|done]
    |replace running with (running - 1 + 1) in * by lia; eapply Hstep; [apply ad_task_ends|done]].
Qed.
End Serve.
