(* ===== verification/Exporter.v ===== *)
(** * The metrics exporter ([sni_router_app: otel_metrics.rs])

    How the router's events become Prometheus series.  The instruments are
    OpenTelemetry's: an interface with their documented behaviour. *)

From S2P Require Import Prelude Async Str Net Names Metrics.
From Stdlib Require Import ZArith.

(** ** Instruments *)
Inductive Instrument :=
| ConnectionsOpened | ConnectionsClosed | OpenConnections | BytesReadTotal | BytesWrittenTotal
| ConnectionDuration | RouteLookupDuration | UpstreamConnectDuration | CacheEvents.
#[global] Instance Instrument_eq_dec : EqDecision Instrument.
Proof. solve_decision. Defined.

Definition instrument_name (i : Instrument) : bytes :=
  match i with
  | ConnectionsOpened => lit "snirouter_connections_opened_total"
  | ConnectionsClosed => lit "snirouter_connections_closed_total"
  | OpenConnections => lit "snirouter_open_connections"
  | BytesReadTotal => lit "snirouter_bytes_read_total"
  | BytesWrittenTotal => lit "snirouter_bytes_written_total"
  | ConnectionDuration => lit "snirouter_connection_duration_seconds"
  | RouteLookupDuration => lit "snirouter_route_lookup_duration_seconds"
  | UpstreamConnectDuration => lit "snirouter_upstream_connect_duration_seconds"
  | CacheEvents => lit "snirouter_cache_events_total"
  end.

Definition KeyValue : Type := bytes * bytes.
Definition Labels := list KeyValue.

(** A meter's state: [add] on a counter, [observe] on a histogram, which also
    converts the duration to seconds; [series] is a counter's value and the
    number of a histogram's observations.  It is the value the instruments
    aggregate, before the reader exports it as floating point, and idealised in
    one way: an instrument has fewer label sets than the SDK's cardinality limit
    (a label set per listener and value of one label), beyond which new ones
    share an overflow series. *)
Class Meter (M : Type) := {
  meter_new : M;
  add : M → Instrument → Labels → Z → M;
  observe : M → Instrument → Labels → Duration → M;
  series : M → Instrument → Labels → Z;
}.

(** A series is identified by its instrument and its set of labels, and is 64
    bits wide, signed for the up-down counter. *)
Definition two64 : Z := 2 ^ 64.
Definition cong64 (a b : Z) : Prop := (a mod two64 = b mod two64)%Z.
#[global] Instance cong64_equivalence : Equivalence cong64.
Proof. split; unfold cong64; congruence. Qed.
#[global] Instance cong64_add : Proper (cong64 ==> cong64 ==> cong64) Z.add.
Proof.
  unfold cong64. intros a a' Ha b b' Hb. by rewrite (Zplus_mod a), (Zplus_mod a'), Ha, Hb.
Qed.
Class MeterSpec (M : Type) `{Meter M} := {
  series_new i l : series meter_new i l = 0%Z;
  series_add m i l x i' l' :
    cong64 (series (add m i l x) i' l') (series m i' l' + if decide (i = i' ∧ l ≡ₚ l') then x else 0);
  series_observe m i l d i' l' : i ≠ i' → series (observe m i l d) i' l' = series m i' l';
  series_signed m l : (- 2 ^ 63 ≤ series m OpenConnections l < 2 ^ 63)%Z;
}.

(** The instance the examples use: a function, wrapped at its width. *)
Definition wrap (i : Instrument) (z : Z) : Z :=
  match i with
  | OpenConnections => ((z + 2 ^ 63) mod two64 - 2 ^ 63)%Z
  | _ => (z mod two64)%Z
  end.
Definition bump (m : Instrument → Labels → Z) i l x : Instrument → Labels → Z :=
  λ i' l', (m i' l' + if decide (i = i' ∧ l ≡ₚ l') then x else 0)%Z.
#[global] Instance table_meter : Meter (Instrument → Labels → Z) := {
  meter_new := λ _ _, 0%Z;
  add := bump;
  observe := λ m i l _, bump m i l 1;
  series := λ m i l, wrap i (m i l);
}.
Lemma wrap_cong i z : cong64 (wrap i z) z.
Proof.
  unfold wrap, cong64. assert (((z + 2 ^ 63) mod two64 - 2 ^ 63) mod two64 = z mod two64)%Z as Hs.
  { rewrite Zminus_mod_idemp_l. f_equal. lia. }
  destruct i; [apply Z.mod_mod; done..|exact Hs|apply Z.mod_mod; done|apply Z.mod_mod; done| | | |];
    apply Z.mod_mod; done.
Qed.
#[global] Instance table_meter_spec : MeterSpec (Instrument → Labels → Z).
Proof.
  split; cbn [series add observe meter_new table_meter].
  - by intros [].
  - intros m i l x i' l'. by rewrite !wrap_cong.
  - intros m i l d i' l' Hi. unfold bump. rewrite decide_False by naive_solver. by rewrite Z.add_0_r.
  - intros m l. unfold wrap. pose proof (Z.mod_pos_bound (m OpenConnections l + 2 ^ 63) two64 ltac:(done)).
    unfold two64 in *. lia.
Qed.

(** ** The sink *)
Section OtelMetrics.
Context `{Meter M}.

Record OtelMetrics := mkOtelMetrics {
  listener_labels : gmap SocketAddr Labels;
  instruments : M;
}.
Definition OtelMetrics_new : OtelMetrics := mkOtelMetrics ∅ meter_new.

(** [labels]: under the read lock, then, when the address is new, under the
    write lock, where [or_insert] keeps what another task put there. *)
Definition own_labels (listener : ListenerInfo) : Labels :=
  [(lit "network", network listener); (lit "address", SocketAddr_fmt (address listener))].
Definition labels_insert (address : SocketAddr) (own : Labels) (table : gmap SocketAddr Labels) :
    Labels * gmap SocketAddr Labels :=
  match table !! address with
  | Some labels => (labels, table)
  | None => (own, <[address := own]> table)
  end.
Definition labels (listener : ListenerInfo) (table : gmap SocketAddr Labels) : Labels * gmap SocketAddr Labels :=
  match table !! address listener with
  | Some labels => (labels, table)
  | None => labels_insert (address listener) (own_labels listener) table
  end.
Definition labels_with (listener : ListenerInfo) (key value : bytes) (table : gmap SocketAddr Labels) :
    Labels * gmap SocketAddr Labels :=
  let '(ls, table) := labels listener table in (ls ++ [(key, value)], table).

Definition record_event (s : OtelMetrics) (event : MetricEvent) : OtelMetrics :=
  let table := listener_labels s in
  let m := instruments s in
  match event with
  | ConnectionOpened listener =>
    let '(ls, table) := labels listener table in
    mkOtelMetrics table (add (add m ConnectionsOpened ls 1) OpenConnections ls 1)
  | ConnectionClosed listener outcome lifetime =>
    let '(ls, table) := labels listener table in
    let m := observe (add m OpenConnections ls (-1)) ConnectionDuration ls lifetime in
    let '(ls, table) := labels_with listener (lit "outcome") (ConnectionOutcome_as_str outcome) table in
    mkOtelMetrics table (add m ConnectionsClosed ls 1)
  | BytesRead listener count =>
    let '(ls, table) := labels listener table in
    mkOtelMetrics table (add m BytesReadTotal ls (Z.of_N count))
  | BytesWritten listener count =>
    let '(ls, table) := labels listener table in
    mkOtelMetrics table (add m BytesWrittenTotal ls (Z.of_N count))
  | RouteLookupEvent listener outcome elapsed =>
    let '(ls, table) := labels_with listener (lit "outcome") (LookupOutcome_as_str outcome) table in
    mkOtelMetrics table (observe m RouteLookupDuration ls elapsed)
  | UpstreamConnect listener ok elapsed =>
    let '(ls, table) := labels_with listener (lit "result") (if ok then lit "ok" else lit "error") table in
    mkOtelMetrics table (observe m UpstreamConnectDuration ls elapsed)
  | CacheMetric event =>
    mkOtelMetrics table (add m CacheEvents [(lit "event", CacheEvent_as_str event)] 1)
  end.
#[export] Instance OtelMetrics_sink : MetricsSink OtelMetrics := record_event.
End OtelMetrics.
Arguments OtelMetrics _ : clear implicits.

(** ** What the series add up to *)
Definition shown (table : gmap SocketAddr Labels) (listener : ListenerInfo) : Labels :=
  default (own_labels listener) (table !! address listener).

(** What an event adds to the counters, given the final label table. *)
Definition charges (table : gmap SocketAddr Labels) (event : MetricEvent) : list (Instrument * Labels * Z) :=
  match event with
  | ConnectionOpened li => [(ConnectionsOpened, shown table li, 1%Z); (OpenConnections, shown table li, 1%Z)]
  | ConnectionClosed li outcome _ =>
    [(OpenConnections, shown table li, (-1)%Z);
     (ConnectionsClosed, shown table li ++ [(lit "outcome", ConnectionOutcome_as_str outcome)], 1%Z)]
  | BytesRead li count => [(BytesReadTotal, shown table li, Z.of_N count)]
  | BytesWritten li count => [(BytesWrittenTotal, shown table li, Z.of_N count)]
  | CacheMetric event => [(CacheEvents, [(lit "event", CacheEvent_as_str event)], 1%Z)]
  | RouteLookupEvent _ _ _ | UpstreamConnect _ _ _ => []
  end.
Definition charge (i : Instrument) (l : Labels) (c : Instrument * Labels * Z) : Z :=
  let '(i', l', x) := c in if decide (i' = i ∧ l' ≡ₚ l) then x else 0%Z.
Definition sum_Z {A} (f : A → Z) (xs : list A) : Z := foldr (λ x z, (f x + z)%Z) 0%Z xs.
Definition charged (table : gmap SocketAddr Labels) (i : Instrument) (l : Labels) (events : list MetricEvent) : Z :=
  sum_Z (λ e, sum_Z (charge i l) (charges table e)) events.
Definition is_counter (i : Instrument) : bool :=
  match i with ConnectionDuration | RouteLookupDuration | UpstreamConnectDuration => false | _ => true end.

Lemma labels_spec li t t' l :
  labels li t = (l, t') → t ⊆ t' ∧ t' !! address li = Some l ∧ l = shown t li.
Proof.
  unfold labels, labels_insert, shown. destruct (t !! address li) as [l0|] eqn:Ht; intros [= <- <-]; [done|].
  split_and!; [by apply insert_subseteq|by rewrite lookup_insert_eq|done].
Qed.
Lemma labels_shown li t t' l F : labels li t = (l, t') → t' ⊆ F → l = shown F li.
Proof.
  intros (_ & Hl & _)%labels_spec Hsub. unfold shown. by rewrite (lookup_weaken _ _ _ _ Hl Hsub).
Qed.

Section Sums.
Context `{MeterSpec M}.
Implicit Types s : OtelMetrics M.

Lemma series_charge m i l c : cong64 (series (add m c.1.1 c.1.2 c.2) i l) (series m i l + charge i l c).
Proof. destruct c as [[i' l'] x]. apply series_add. Qed.

(** One event charges its counters, and nothing else. *)
Lemma record_event_charges s e F i l :
  listener_labels (record_event s e) ⊆ F → is_counter i = true →
  listener_labels s ⊆ listener_labels (record_event s e) ∧
  cong64 (series (instruments (record_event s e)) i l)
    (series (instruments s) i l + sum_Z (charge i l) (charges F e)).
Proof.
  intros HF Hi. destruct s as [t m].
  assert (∀ li ls t1, labels li t = (ls, t1) → t ⊆ t1 ∧ labels li t1 = (ls, t1) ∧ (t1 ⊆ F → ls = shown F li)) as Hls.
  { intros li ls t1 Hl. split_and!; [by apply labels_spec in Hl as []| |by eapply labels_shown].
    apply labels_spec in Hl as (_ & Hl & _). unfold labels. by rewrite Hl. }
  destruct e as [li|li o d|li n|li n|li o d|li ok d|e]; unfold record_event, labels_with in *;
    cbn [listener_labels instruments charges sum_Z foldr] in *; unfold charge;
    [destruct (labels li t) as [ls t1] eqn:Hl; destruct (Hls _ _ _ Hl) as (Hsub & Hl1 & Hsh);
     rewrite ?Hl1 in *; cbn [listener_labels instruments] in *; pose proof (Hsh HF) as ->; split; [done|]..|split; [done|]];
    rewrite ?series_add, ?series_observe, ?series_add by (intros <-; done); unfold cong64; f_equal; lia.
Qed.

Lemma record_all_charges s es F i l :
  listener_labels (record_all s es) ⊆ F → is_counter i = true →
  listener_labels s ⊆ listener_labels (record_all s es) ∧
  cong64 (series (instruments (record_all s es)) i l) (series (instruments s) i l + charged F i l es).
Proof.
  intros HF Hi. revert s HF. induction es as [|e es IH]; intros s HF.
  { split; [done|]. unfold charged, cong64. cbn. f_equal. lia. }
  unfold record_all in *. cbn [foldl] in *. destruct (IH _ HF) as [Hsub Hsum].
  destruct (record_event_charges s e F i l) as [Hsub1 Hsum1]; [by etrans|done|].
  split; [by etrans|]. rewrite Hsum, Hsum1.
  change (charged F i l (e :: es)) with (sum_Z (charge i l) (charges F e) + charged F i l es)%Z.
  unfold cong64. f_equal. lia.
Qed.
End Sums.

(** The exporter's counters are exact.  After any sequence of events, every
    counter's series is, at its 64-bit width, what the events add to it: each
    event charges the series of its own listener's labels, which are made once
    per address and never change. *)
Theorem exporter_counters_exact `{MeterSpec M} events i l :
  let s := record_all (OtelMetrics_new (M := M)) events in
  is_counter i = true →
  cong64 (series (instruments s) i l) (charged (listener_labels s) i l events).
Proof.
  intros s Hi. destruct (record_all_charges OtelMetrics_new events (listener_labels s) i l) as [_ Hsum]; [done|done|].
  unfold s. rewrite Hsum. cbn [instruments OtelMetrics_new]. by rewrite series_new, Z.add_0_l.
Qed.
Lemma exporter_counters_exact_witness :
  let li := ListenerInfo.tcp (V4 127 0 0 1, 443) in
  let s := record_all (OtelMetrics_new (M := Instrument → Labels → Z))
    [ConnectionOpened li; BytesRead li 7; ConnectionClosed li Proxied 3; BytesRead li 5] in
  cong64 (series (instruments s) BytesReadTotal (own_labels li)) 12%Z.
Proof.
  intros li s. pose proof (exporter_counters_exact (M := Instrument → Labels → Z)
    [ConnectionOpened li; BytesRead li 7; ConnectionClosed li Proxied 3; BytesRead li 5]
    BytesReadTotal (own_labels li) eq_refl) as Hs.
  unfold s. rewrite Hs. vm_compute. reflexivity.
Defined.
