(* ===== verification/Gauge.v ===== *)
(** * The gauge of open connections

    The exporter behind the server: at any time the gauge of every listener
    shows the connections that are open on it, and nothing once the server is
    done. *)

From S2P Require Import Prelude Async Str Net Names Lookup Routing Protocol Reader Hello Records.
From S2P Require Import Framing Builder Parser HelloReader Metrics Gate Metered Splice SpliceProofs.
From S2P Require Import Proxy Connection Pipeline Server ServerProofs Exporter.
From Stdlib Require Import ZArith.

(** ** Sums over a log, connection by connection *)
Lemma sum_Z_app {A} (f : A → Z) xs ys : sum_Z f (xs ++ ys) = (sum_Z f xs + sum_Z f ys)%Z.
Proof. induction xs as [|x xs IH]; cbn; [done|]. fold (sum_Z f (xs ++ ys)). rewrite IH. unfold sum_Z. lia. Qed.
Lemma sum_Z_0 {A} (f : A → Z) xs : (∀ x, x ∈ xs → f x = 0%Z) → sum_Z f xs = 0%Z.
Proof.
  induction xs as [|x xs IH]; intros Hf; [done|]. cbn. rewrite (Hf x) by left.
  apply IH. intros y Hy. apply Hf. by right.
Qed.

Section Logs.
Context (f : MetricEvent → Z).
Implicit Types log : list (N * MetricEvent).

(** What the others logged. *)
Definition log_others (id : N) log := List.filter (λ x, negb (bool_decide (x.1 = id))) log.

Lemma log_others_length id log : (length (log_others id log) ≤ length log)%nat.
Proof. apply filter_length_le. Qed.
Lemma log_of_others id id' log : id' ≠ id → log_of id' (log_others id log) = log_of id' log.
Proof.
  intros Hne. induction log as [|[i e] log IH]; [done|]. unfold log_others. cbn [List.filter fst].
  case_bool_decide as Hi; cbn [negb]; fold (log_others id log); rewrite ?log_of_cons; cbn [fst snd];
    [|by rewrite IH]. rewrite decide_False by congruence. done.
Qed.
Lemma log_of_others_same id log : log_of id (log_others id log) = [].
Proof.
  induction log as [|[i e] log IH]; [done|]. unfold log_others. cbn [List.filter fst].
  case_bool_decide as Hi; cbn [negb]; fold (log_others id log); [done|].
  rewrite log_of_cons. cbn [fst snd]. by rewrite decide_False.
Qed.
Lemma sum_split id log : sum_Z f log.*2 = (sum_Z f (log_of id log) + sum_Z f (log_others id log).*2)%Z.
Proof.
  induction log as [|[i e] log IH]; [done|]. rewrite log_of_cons. unfold log_others. cbn [List.filter fst fmap list_fmap snd].
  fold (log_others id log). cbn [sum_Z foldr] in *. fold (sum_Z f log.*2). rewrite IH.
  case_bool_decide; cbn [negb]; [rewrite decide_True by done|rewrite decide_False by done]; cbn; unfold sum_Z; lia.
Qed.

(** A log whose every part sums to nothing does, too. *)
Lemma sum_balanced log : (∀ id, sum_Z f (log_of id log) = 0%Z) → sum_Z f log.*2 = 0%Z.
Proof.
  remember (length log) as n eqn:Hn. revert log Hn.
  induction (lt_wf n) as [n _ IH]. intros [|[i e] log] Hn Hz; [done|].
  rewrite (sum_split i), Hz, Z.add_0_l. apply (IH (length (log_others i ((i, e) :: log)))); [|done|].
  - unfold log_others. cbn [List.filter fst]. rewrite bool_decide_eq_true_2 by done. cbn [negb].
    pose proof (log_others_length i log). unfold log_others in *. cbn in Hn. lia.
  - intros id. destruct (decide (id = i)) as [->|]; [by rewrite log_of_others_same|by rewrite log_of_others].
Qed.
Lemma sum_by_id {C} (g : C → bool) (conns : gmap N C) log :
  (∀ id c, conns !! id = Some c → sum_Z f (log_of id log) = Z.of_N (weight g c)) →
  (∀ id, conns !! id = None → sum_Z f (log_of id log) = 0%Z) →
  sum_Z f log.*2 = Z.of_N (count g conns).
Proof.
  revert log. induction conns as [|i c conns Hi IH] using map_ind; intros log Hin Hout.
  { apply sum_balanced. intros id. by apply Hout. }
  rewrite (sum_split i), (Hin i c) by by rewrite lookup_insert_eq.
  unfold count. rewrite total_new by done. rewrite N2Z.inj_add, Z.add_comm. f_equal. apply IH.
  - intros id c' Hc'. assert (id ≠ i) by congruence. rewrite log_of_others by done. apply Hin.
    by rewrite lookup_insert_ne.
  - intros id Hid. destruct (decide (id = i)) as [->|]; [by rewrite log_of_others_same|].
    rewrite log_of_others by done. apply Hout. by rewrite lookup_insert_ne.
Qed.
End Logs.

(** ** One connection's part *)
Section OneConnection.
Context {Up : Type} (table : gmap SocketAddr Labels) (l : Labels).

(** What an event does to the gauge of the labels [l]. *)
Definition gauge (e : MetricEvent) : Z := sum_Z (charge OpenConnections l) (charges table e).
Definition on_labels (li : ListenerInfo) : bool := bool_decide (shown table li ≡ₚ l).
(** A connection the gauge counts: its task has started, on a listener with the
    labels [l]. *)
Definition shows (c : Conn Up) : bool :=
  match c with Spawned _ => false | Live _ r _ _ => on_labels (cr_listener r) end.

Lemma gauge_opened li : gauge (ConnectionOpened li) = if on_labels li then 1%Z else 0%Z.
Proof.
  unfold gauge, on_labels. cbn [charges sum_Z foldr charge]. rewrite decide_False by naive_solver.
  case_bool_decide; [rewrite decide_True by done|rewrite decide_False by naive_solver]; done.
Qed.
Lemma gauge_closed li o d : gauge (ConnectionClosed li o d) = if on_labels li then (-1)%Z else 0%Z.
Proof.
  unfold gauge, on_labels. cbn [charges sum_Z foldr charge]. rewrite (decide_False (P := _ ∧ _ ++ _ ≡ₚ l)) by naive_solver.
  case_bool_decide; [rewrite decide_True by done|rewrite decide_False by naive_solver]; done.
Qed.
Definition opens_or_closes (e : MetricEvent) : bool :=
  match e with ConnectionOpened _ | ConnectionClosed _ _ _ => true | _ => false end.
Lemma gauge_other e : opens_or_closes e = false → gauge e = 0%Z.
Proof.
  unfold gauge. destruct e; cbn [opens_or_closes charges sum_Z foldr charge]; try done;
    by rewrite decide_False by naive_solver.
Qed.

(** While it runs, a connection has opened once and closed never. *)
Lemma gauge_told config li did (p : prog Up) :
  trace (run config li) did p → sum_Z gauge (told li did) = if on_labels li then 1%Z else 0%Z.
Proof.
  intros Ht%(always_trace _ [] _ _ _ (run_always config li)). cbn [app] in Ht.
  unfold told. cbn [sum_Z foldr]. fold (sum_Z gauge (did ≫= events_of)). rewrite gauge_opened.
  rewrite (sum_Z_0 gauge), Z.add_0_r; [done|]. intros e (a & He & Ha)%list_elem_of_bind.
  apply gauge_other. destruct a; cbn [events_of] in He; try (by apply elem_of_nil in He).
  apply list_elem_of_singleton in He as ->. by destruct (run_events _ _ _ _ Ht _ Ha) as [(? & ? & ->)|(? & ? & ->)].
Qed.
Lemma gauge_dropped r now : sum_Z gauge (drop_record now r) = if on_labels (cr_listener r) then (-1)%Z else 0%Z.
Proof.
  unfold drop_record. destruct (ByteCounters.totals _) as [read written]. rewrite !sum_Z_app. cbn [sum_Z foldr]. rewrite gauge_closed.
  rewrite !(sum_Z_0 gauge); [lia|..];
    (intros e He; apply gauge_other; case_N; cbn in He; [apply list_elem_of_singleton in He as ->|apply elem_of_nil in He]; done).
Qed.
Lemma gauge_conn config log c :
  conn_ok config log c → sum_Z gauge log = Z.of_N (weight shows c).
Proof.
  destruct c as [li|p r pass did]; cbn [conn_ok]; [by intros ->|].
  intros (li & Ht & _ & -> & <- & _). rewrite (gauge_told config (cr_listener r) did p) by done.
  unfold weight. cbn [shows]. by destruct (on_labels _).
Qed.
Lemma gauge_books config log : books_closed (Up := Up) config log → sum_Z gauge log = 0%Z.
Proof.
  intros [->|(li & did & p & r & now & Ht & Hli & _ & ->)]; [done|].
  rewrite sum_Z_app, (gauge_told config li did p), gauge_dropped, Hli by done. by destruct (on_labels li).
Qed.
End OneConnection.

(** A count of at most [2 ^ 63 - 1] is what a signed 64-bit gauge shows. *)
Lemma cong64_signed a b :
  cong64 a b → (- 2 ^ 63 ≤ a < 2 ^ 63)%Z → (- 2 ^ 63 ≤ b < 2 ^ 63)%Z → a = b.
Proof.
  unfold cong64. intros Hab Ha Hb.
  assert (∀ z, (- 2 ^ 63 ≤ z < 2 ^ 63)%Z → z = ((z + 2 ^ 63) mod two64 - 2 ^ 63)%Z) as Hz.
  { intros z Hr. rewrite Z.mod_small; unfold two64; lia. }
  rewrite (Hz a Ha), (Hz b Hb). rewrite <- (Zplus_mod_idemp_l a), <- (Zplus_mod_idemp_l b). by rewrite Hab.
Qed.

(** C21: the gauge shows what is open.  However the server ran, and with every
    event it recorded exported in order, the [snirouter_open_connections] series
    of every label set is the number of started connections that exist on
    listeners with those labels; it is zero everywhere once [serve] is done. *)
Theorem open_gauge_exact {Up} `{SemaphoreSpec Sem free, MeterSpec M} config listeners (s : Server Up Sem) l :
  server_reachable config listeners s → max_connections config < 2 ^ 63 →
  let exporter := record_all (OtelMetrics_new (M := M)) (sv_log s).*2 in
  series (instruments exporter) OpenConnections l =
    Z.of_N (count (shows (listener_labels exporter) l) (sv_conns s)) ∧
  (sv_phase s = Done → series (instruments exporter) OpenConnections l = 0%Z).
Proof.
  intros Hr Hmax exporter. apply (server_reachable_wf (free := free)) in Hr.
  assert (series (instruments exporter) OpenConnections l =
    Z.of_N (count (shows (listener_labels exporter) l) (sv_conns s))) as Hg.
  { apply cong64_signed; [|apply series_signed|].
    - destruct (record_all_charges OtelMetrics_new (sv_log s).*2 (listener_labels exporter) OpenConnections l)
        as [_ Hsum]; [done|done|]. unfold exporter at 1. rewrite Hsum. cbn [instruments OtelMetrics_new].
      rewrite series_new, Z.add_0_l. unfold charged. change (λ e, sum_Z _ (charges _ e)) with (gauge (listener_labels exporter) l).
      rewrite (sum_by_id _ (shows (listener_labels exporter) l) (sv_conns s)); [done| |].
      + intros id c Hc. eapply gauge_conn. by apply (swf_conns _ _ Hr) in Hc as [_ ?].
      + intros id Hid. eapply gauge_books. by apply (swf_books _ _ Hr).
    - pose proof (count_size (shows (listener_labels exporter) l) (sv_conns s)).
      pose proof (swf_slots _ _ Hr). lia. }
  split; [done|]. intros Hd. rewrite Hg, (swf_done _ _ Hr Hd). done.
Qed.
Lemma open_gauge_exact_witness :
  let exporter := record_all (OtelMetrics_new (M := Instrument → Labels → Z)) [ConnectionOpened example_listener] in
  ∃ s : example_server_t, sv_phase s = Draining ∧
    Z.of_N (count (shows (listener_labels exporter) (own_labels example_listener)) (sv_conns s)) = 1%Z.
Proof.
  intros exporter. destruct example_draining as (s & Hs & Hp & _ & Hl). exists s. split; [exact Hp|].
  pose proof (proj1 (open_gauge_exact (M := Instrument → Labels → Z) _ _ s (own_labels example_listener) Hs
    ltac:(vm_compute; reflexivity))) as Hg.
  cbv zeta in Hg. rewrite Hl in Hg. refine (eq_trans (eq_sym Hg) _). vm_compute. reflexivity.
Defined.
