(* ===== verification/App.v ===== *)
(** * The application ([sni_router_app: lib.rs])

    Binding every socket, and the run of the bound app: the router's server,
    the SIGHUP reload task, the admin listener and the drain watch side by side,
    as one world and its steps. *)

From S2P Require Import Prelude Async Str Net Names Lookup Routing Protocol Reader Hello Records.
From S2P Require Import Framing Builder Parser HelloReader Metrics Gate Metered Splice SpliceProofs.
From S2P Require Import Proxy Connection Pipeline Server ServerProofs Routes Config Reload Admin.

(** ** Binding *)

(** The sockets and state of a bound app. *)
Record BoundApp := mkBoundApp {
  config_path : bytes;
  startup : StartupSettings;
  app_config : RouterConfig;
  bound_lookup : FileRouteLookup;
  bound_listeners : list ListenerInfo;
  admin_local : SocketAddr;
  bound_health : Health;
}.

Section Bind.
(** [TcpListener::bind], with the address [local_addr] reports of it. *)
Context (tcp_bind : SocketAddr → io_error + (io_error + SocketAddr)) (metrics_new : bytes + unit).

Definition bind_failed (what : bytes) (address : SocketAddr) (error : io_error) : io_error :=
  mkIoError (ioe_kind error) (lit "failed to bind " ++ what ++ SocketAddr_fmt address ++ lit ": " ++ ioe_message error).

Fixpoint bind_listeners (addresses : list SocketAddr) : io_error + list ListenerInfo :=
  match addresses with
  | [] => inr []
  | address :: addresses =>
    match tcp_bind address with
    | inl error => inl (bind_failed [] address error)
    | inr local_addr =>
      match ListenerInfo.from_listener local_addr with
      | inl error => inl error
      | inr info =>
        match bind_listeners addresses with
        | inl error => inl error
        | inr infos => inr (info :: infos)
        end
      end
    end
  end.

(** [AdminServer::bind] fails with the error of either call. *)
Definition admin_bind (address : SocketAddr) : io_error + SocketAddr :=
  match tcp_bind address with
  | inl error | inr (inl error) => inl error
  | inr (inr local) => inr local
  end.

Definition bind (config : AppConfig) (path : bytes) : io_error + BoundApp :=
  match bind_listeners (listen (server config)) with
  | inl error => inl error
  | inr infos =>
    match metrics_new with
    | inl message => inl (mkIoError KOther message)
    | inr () =>
      match admin_bind (admin_listen (admin config)) with
      | inl error => inl (bind_failed (lit "admin ") (admin_listen (admin config)) error)
      | inr local =>
        inr {|
          config_path := path;
          startup := mkStartup (server config) (admin config);
          app_config := router (server config);
          bound_lookup := FileRouteLookup.new (routes config);
          bound_listeners := infos;
          admin_local := local;
          bound_health := Health.new;
        |}
      end
    end
  end.
End Bind.

Definition listen_addrs (b : BoundApp) : list SocketAddr := address <$> bound_listeners b.
Definition admin_addr (b : BoundApp) : SocketAddr := admin_local b.

(** ** Running *)
Section Run.
Context `{AsyncRead Src, Timeout} {Up Sem ParseFailure : Type} `{Semaphore Sem}.
Context (toml : bytes → ParseFailure + RawConfig).
Context (streams : N → Src) (nets : Net Up → Prop).
Context (b : BoundApp).

(** Where [run] is: it awaits the server, then the drain watch, the reload task
    and the admin task, and returns. *)
Inductive RunAt := AwaitServe | AwaitDrainWatch | AwaitReload | AwaitAdmin | Returned.

(** [app_served]: every table that was in place so far. *)
Record App := mkApp {
  app_server : Server Up Sem;
  app_lookup : FileRouteLookup;
  app_served : list InMemoryLookup;
  app_reload : ReloadTask;
  app_watching : bool;
  app_health : Health;
  app_admin : AdminServer Sem;
  app_admin_shutdown : bool;
  app_run : RunAt;
}.

(** [run] up to its first wait; [installed]: whether the SIGHUP handler is. *)
Definition app_start (installed : bool) : section App :=
  server ← serve (app_config b);
  admin ← admin_serve;
  Ok {|
  app_server := server;
  app_lookup := bound_lookup b;
  app_served := [FileRouteLookup.snapshot (bound_lookup b)];
  app_reload := spawn_sighup_reload installed;
  app_watching := true;
  app_health := bound_health b;
  app_admin := admin;
  app_admin_shutdown := false;
  app_run := AwaitServe;
|}.

(** An action of a connection is answered by the code it calls: its stream's
    hello, the lookup as it is now, the network. *)
Definition answered_honestly (a : App) (s' : Server Up Sem) : Prop :=
  ∀ id p r pass did p' r' pass' act,
    sv_conns (app_server a) !! id = Some (Live p r pass did) →
    sv_conns s' !! id = Some (Live p' r' pass' (did ++ [act])) →
    honest (app_config b) (streams id) (λ l, l = app_lookup a) nets act.

(** What [run] does next, once what it awaits is there. *)
Definition run_next (a : App) : option (RunAt * bool) :=
  match app_run a with
  | AwaitServe =>
    match sv_phase (app_server a) with Done => Some (AwaitDrainWatch, true) | _ => None end
  | AwaitDrainWatch => if app_watching a then None else Some (AwaitReload, app_admin_shutdown a)
  | AwaitReload =>
    match app_reload a with ReloadStopped => Some (AwaitAdmin, app_admin_shutdown a) | _ => None end
  | AwaitAdmin =>
    match ad_at (app_admin a) with AdminDone => Some (Returned, app_admin_shutdown a) | _ => None end
  | Returned => None
  end.

Inductive app_step : App → App → Prop :=
| as_server a s' :
    server_step (app_config b) (bound_listeners b) (app_server a) s' → answered_honestly a s' →
    app_step a (mkApp s' (app_lookup a) (app_served a) (app_reload a) (app_watching a) (app_health a)
      (app_admin a) (app_admin_shutdown a) (app_run a))
| as_reload a task' lookup' :
    reload_step toml (config_path b) (startup b) (sv_shutdown (app_server a))
      (app_reload a, app_lookup a) (task', lookup') →
    app_step a (mkApp (app_server a) lookup' (FileRouteLookup.snapshot lookup' :: app_served a) task'
      (app_watching a) (app_health a) (app_admin a) (app_admin_shutdown a) (app_run a))
| as_drain a :
    sv_shutdown (app_server a) = true → app_watching a = true →
    app_step a (mkApp (app_server a) (app_lookup a) (app_served a) (app_reload a) false
      (Health.set_draining (app_health a)) (app_admin a) (app_admin_shutdown a) (app_run a))
| as_admin a admin' :
    admin_step (app_admin_shutdown a) (app_admin a) admin' →
    app_step a (mkApp (app_server a) (app_lookup a) (app_served a) (app_reload a) (app_watching a) (app_health a)
      admin' (app_admin_shutdown a) (app_run a))
| as_run a run' admin_shutdown' :
    run_next a = Some (run', admin_shutdown') →
    app_step a (mkApp (app_server a) (app_lookup a) (app_served a) (app_reload a) (app_watching a) (app_health a)
      (app_admin a) admin_shutdown' run').

Definition app_reachable (a : App) : Prop := ∃ installed start, app_start installed = Ok start ∧ rtc app_step start a.
End Run.
Arguments App _ _ : clear implicits.

(** ** The process ([main.rs]) *)
Inductive ExitCode := SUCCESS | FAILURE.

(** [arg]: the first argument; [var]: the configuration variable; [run]: what
    running the bound app answers. *)
Definition main {F} (arg var : option bytes) (read : bytes → io_error + bytes) (toml : bytes → F + RawConfig)
    (tcp_bind : SocketAddr → io_error + (io_error + SocketAddr)) (metrics_new : bytes + unit)
    (run : BoundApp → io_error + unit) : section ExitCode :=
  if bool_decide (arg = Some (lit "version")) then Ok SUCCESS
  else
    let path := config_path_from_env var in
    match load read toml path with
    | Err _ => Ok FAILURE
    | Stuck s => Stuck s
    | Ok config =>
      match bind tcp_bind metrics_new config path with
      | inl _ => Ok FAILURE
      | inr app => match run app with inl _ => Ok FAILURE | inr () => Ok SUCCESS end
      end
    end.

(** Whether the shutdown token is cancelled, once [ctrl_c] and [SIGTERM] have
    arrived or not; without a handler only [ctrl_c] counts. *)
Definition cancel_on_signal (installed interrupted terminated : bool) : bool :=
  if installed then interrupted || terminated else interrupted.

(** The process succeeds only by printing its version, or by serving a valid
    configuration until the end. *)
Lemma main_spec {F} arg var read (toml : bytes → F + RawConfig) tcp_bind metrics_new run :
  ∃ code, main arg var read toml tcp_bind metrics_new run = Ok code ∧
    (code = SUCCESS ↔ arg = Some (lit "version") ∨
       ∃ c b, load read toml (config_path_from_env var) = Ok c ∧ app_ok c ∧
         bind tcp_bind metrics_new c (config_path_from_env var) = inr b ∧ run b = inr ()).
Proof.
  unfold main. case_bool_decide as Ha; [exists SUCCESS; split; [done|]; split; [by left|done]|].
  pose proof (load_returns read toml (config_path_from_env var)) as Hr.
  destruct (load _ _ _) as [c|e|s] eqn:Hl; [|exists FAILURE; split; [done|]; split; [done|]; by intros [?|(? & ? & [=] & _)]|by destruct (Hr s)].
  apply load_app_ok in Hl. destruct (bind _ _ _ _) as [e|b] eqn:Hb.
  { exists FAILURE. split; [done|]. split; [done|]. intros [?|(? & ? & [= <-] & _ & Hb' & _)]; [done|congruence]. }
  destruct (run b) as [e|[]] eqn:Hrun.
  - exists FAILURE. split; [done|]. split; [done|]. intros [?|(? & ? & [= <-] & _ & Hb' & Hrun')]; congruence.
  - exists SUCCESS. split; [done|]. split; [|done]. intros _. right. by exists c, b.
Qed.
