(* ===== verification/AppProofs.v ===== *)
(** * The application: proofs

    The invariant of the running app, and what it promises: every connection is
    proxied by a valid table that was in place, and the shutdown is seen by
    probes in the right order. *)

From S2P Require Import Prelude Async Str Net Names Lookup Routing Protocol Reader Hello Records.
From S2P Require Import Framing Builder Parser HelloReader Metrics Gate Metered Splice SpliceProofs.
From S2P Require Import Proxy Connection Pipeline Server ServerProofs Routes Config Reload Admin App.

(** ** Binding *)
Lemma bind_listeners_spec tcp_bind addresses :
  match bind_listeners tcp_bind addresses with
  | inr infos => Forall2 (λ a li, ∃ local, tcp_bind a = inr (inr local) ∧ li = ListenerInfo.tcp local) addresses infos
  | inl error => ∃ pre a post, addresses = pre ++ a :: post ∧
      Forall (λ a, ∃ local, tcp_bind a = inr (inr local)) pre ∧
      match tcp_bind a with inl e => error = bind_failed [] a e | inr (inl e) => error = e | inr (inr _) => False end
  end.
Proof.
  induction addresses as [|a addresses IH]; cbn [bind_listeners]; [constructor|].
  destruct (tcp_bind a) as [e|[e|local]] eqn:Ha; [exists [], a, addresses; by rewrite Ha..|].
  destruct (bind_listeners tcp_bind addresses) as [e|infos].
  - destruct IH as (pre & a' & post & -> & Hpre & He). exists (a :: pre), a', post.
    split_and!; [done|by constructor; [eexists|]|done].
  - constructor; [by exists local|done].
Qed.

(** Binding the app binds every configured address, in order, and keeps the
    configuration. *)
Lemma app_bind_Ok tcp_bind metrics_new c path b :
  bind tcp_bind metrics_new c path = inr b →
  app_config b = router (server c) ∧ FileRouteLookup.snapshot (bound_lookup b) = routes c ∧
  startup b = mkStartup (server c) (admin c) ∧ config_path b = path ∧ bound_health b = Health.new ∧
  length (bound_listeners b) = length (listen (server c)) ∧ Forall (λ li, network li = lit "tcp") (bound_listeners b).
Proof.
  unfold bind. pose proof (bind_listeners_spec tcp_bind (listen (server c))) as Hl.
  destruct (bind_listeners _ _) as [|infos]; [done|]. destruct metrics_new as [|[]]; [done|].
  destruct (admin_bind _ _); [done|]. intros [= <-]. cbn. split_and!; try done.
  - by apply Forall2_length in Hl.
  - induction Hl as [|a li addresses infos (local & _ & ->) _ IH]; by constructor.
Qed.

Section AppProofs.
Context `{ByteSource Src content, TimeoutSpec} {Up Sem ParseFailure : Type} `{SemaphoreSpec Sem free}.
Context (toml : bytes → ParseFailure + RawConfig) (streams : N → Src) (nets : Net Up → Prop) (b : BoundApp).
Abbreviation App := (App Up Sem).
Implicit Types a : App.

(** A table that was the first one, or in the file at some reload. *)
Definition configured (t : InMemoryLookup) : Prop :=
  t = FileRouteLookup.snapshot (bound_lookup b) ∨ loadable toml (config_path b) t.

#[global] Instance RunAt_eq_dec : EqDecision RunAt.
Proof. solve_decision. Defined.
Definition run_rank (r : RunAt) : N :=
  match r with AwaitServe => 4 | AwaitDrainWatch => 3 | AwaitReload => 2 | AwaitAdmin => 1 | Returned => 0 end.
Record app_wf a : Prop := {
  awf_server : server_reachable (app_config b) (bound_listeners b) (app_server a);
  awf_served : FileRouteLookup.snapshot (app_lookup a) ∈ app_served a ∧ Forall configured (app_served a);
  awf_honest id p r pass did : sv_conns (app_server a) !! id = Some (Live p r pass did) →
    Forall (honest (app_config b) (streams id) (λ l, FileRouteLookup.snapshot l ∈ app_served a) nets) did;
  awf_watch : app_watching a = negb (draining (app_health a));
  awf_draining : draining (app_health a) = true → sv_shutdown (app_server a) = true;
  awf_run : if app_admin_shutdown a then run_rank (app_run a) ≤ 3 ∧ sv_phase (app_server a) = Done
    else run_rank (app_run a) = 4;
  awf_drained : run_rank (app_run a) ≤ 2 → draining (app_health a) = true;
  awf_reload : run_rank (app_run a) ≤ 1 → app_reload a = ReloadStopped;
  awf_admin : admin_wf free (app_admin a);
  awf_admin_open : app_admin_shutdown a = false → admin_open (app_admin a) = true;
  awf_returned : app_run a = Returned → ad_at (app_admin a) = AdminDone;
}.

Lemma honest_weaken config stream (P Q : FileRouteLookup → Prop) act :
  (∀ l, P l → Q l) → honest (Up := Up) config stream P nets act → honest config stream Q nets act.
Proof. intros HPQ. destruct act; cbn; try done. destruct x as [r|]; [|done]. naive_solver. Qed.

(** [run] starts when a semaphore can hold the connections' slots. *)
Lemma app_start_makes installed :
  max_connections (app_config b) ≤ MAX_PERMITS → ∃ a, app_start b installed = Ok a.
Proof.
  intros [slots Hs]%(sem_new_makes (available := free)).
  destruct (proj2 (sem_new_makes (available := free) (admin_max_connections AdminLimits_default)))
    as [admin_slots Ha]; [vm_decide|].
  unfold app_start, serve, admin_serve. rewrite Hs, Ha. by eexists.
Qed.
Lemma app_start_wf installed a :
  bound_health b = Health.new → app_start b installed = Ok a → app_wf a.
Proof.
  intros Hh (server & Hs & (admin & Ha & [= <-])%bind_Ok)%bind_Ok. split; cbn; try done.
  - exists server. split; [done|apply rtc_refl].
  - split; [by left|]. constructor; [by left|constructor].
  - by apply bind_Ok in Hs as (? & _ & [= <-]).
  - by rewrite Hh.
  - by rewrite Hh.
  - by apply admin_serve_wf.
  - by apply bind_Ok in Ha as (? & _ & [= <-]).
Qed.

Lemma app_step_server a s' :
  app_wf a → server_step (app_config b) (bound_listeners b) (app_server a) s' →
  answered_honestly streams nets b a s' →
  app_wf (mkApp s' (app_lookup a) (app_served a) (app_reload a) (app_watching a) (app_health a)
      (app_admin a) (app_admin_shutdown a) (app_run a)).
Proof.
  intros Hwf Hs Hh. destruct (server_step_flags _ _ _ _ Hs) as [Hshut Hdone].
  destruct Hwf as [Hr Hsv Hho Hw Hd Hrun Hdr Hre Had Hop Hret]. split; cbn; try done.
  - destruct Hr as (start & Hst & Hr). exists start. split; [done|by eapply rtc_r].
  - intros id p r pass did Hl. destruct (server_step_did _ _ _ _ _ _ _ _ _ Hs Hl)
      as [->|(p0 & r0 & pass0 & did0 & Hl0 & [->|[act ->]])]; [constructor|by eapply Hho|].
    apply Forall_app. split; [by eapply Hho|]. apply Forall_singleton.
    eapply honest_weaken; [|by eapply Hh]. by intros l ->; apply Hsv.
  - by auto.
  - destruct (app_admin_shutdown a); [|done]. destruct Hrun. by auto.
Qed.

Lemma app_step_wf a a' : app_wf a → app_step toml streams nets b a a' → app_wf a'.
Proof.
  intros Hwf Hs. destruct Hs as [a s' Hs Hh|a task' lookup' Hs|a Hsh Hwa|a admin' Hs|a run' sd' Hs].
  - by apply app_step_server.
  - destruct Hwf as [Hr [Hsv Hcf] Hho Hw Hd Hrun Hdr Hre Had Hop Hret]. split; cbn; try done.
    + split; [by left|]. constructor; [|done].
      destruct (reload_step_table _ _ _ _ _ _ Hs) as [Heq|[_ Hl]]; cbn in *; [|by right].
      rewrite Forall_forall in Hcf. apply Hcf. by rewrite Heq.
    + intros id p r pass did Hl. eapply Forall_impl; [by eapply Hho|]. intros act.
      apply honest_weaken. intros l. by right.
    + intros Hrank. specialize (Hre Hrank). rewrite Hre in Hs. inversion Hs.
  - destruct Hwf as [Hr Hsv Hho Hw Hd Hrun Hdr Hre Had Hop Hret]. split; cbn; done.
  - destruct Hwf as [Hr Hsv Hho Hw Hd Hrun Hdr Hre Had Hop Hret]. split; cbn; try done.
    + by eapply admin_step_wf.
    + intros Hf. rewrite Hf in Hs. by eapply admin_step_open, Hop.
    + intros Hret'. eapply admin_step_done; [done|by apply Hret].
  - destruct Hwf as [Hr Hsv Hho Hw Hd Hrun Hdr Hre Had Hop Hret]. unfold run_next in Hs.
    destruct (app_run a) eqn:Hat; cbn [run_rank] in *; [..|done];
      repeat (case_match; simplify_eq); try lia; split; cbn; try done; try lia; try (split; [lia|apply Hrun]);
      intros; first [apply Hdr; lia|apply Hre; lia|by destruct (draining _)|done].
Qed.
Lemma app_reachable_wf a : bound_health b = Health.new → app_reachable toml streams nets b a → app_wf a.
Proof.
  intros Hh (installed & start & Hs & Hr).
  refine (rtc_ind_r (R := app_step toml streams nets b) app_wf _ _ _ _ Hr); [by eapply app_start_wf|by eauto using app_step_wf].
Qed.

(** A loaded configuration stays far below that: no semaphore panics. *)
Lemma loaded_app_starts {F} read (toml' : bytes → F + RawConfig) path c tcp_bind metrics_new installed :
  load read toml' path = Ok c → bind tcp_bind metrics_new c path = inr b → ∃ a, app_start b installed = Ok a.
Proof.
  intros Hload%load_app_ok (Hcfg & _)%app_bind_Ok. apply app_start_makes. rewrite Hcfg.
  pose proof (router_connections _ (app_router _ Hload)). change MAX_PERMITS with (2 ^ 61 - 1). lia.
Qed.

(** ** After the server is done, [run] can always return *)
Definition app_rank a : N :=
  run_rank (app_run a) + (if app_watching a then 1 else 0) + admin_rank (app_admin a) +
  (match app_reload a with ReloadRunning => 2 | ReloadWaiting => 1 | ReloadStopped => 0 end).

Lemma app_progress a :
  app_wf a → app_admin_shutdown a = true → app_run a ≠ Returned →
  ∃ a', app_step toml streams nets b a a' ∧ app_rank a' < app_rank a ∧ app_admin_shutdown a' = true.
Proof.
  intros Hwf Hsd Hret. pose proof (awf_run _ Hwf) as Hrun. rewrite Hsd in Hrun. destruct Hrun as [Hrank Hdone].
  assert (sv_shutdown (app_server a) = true) as Hshut.
  { pose proof (server_reachable_wf (free := free) _ _ _ (awf_server _ Hwf)) as Hs. apply Hs, Hs. congruence. }
  destruct (app_run a) eqn:Hat; cbn [run_rank] in Hrank; [lia| | | |done].
  - destruct (app_watching a) eqn:Hw.
    + eexists. split; [by apply as_drain|]. unfold app_rank. cbn. rewrite Hw. split; [lia|done].
    + eexists. split; [apply as_run; unfold run_next; rewrite Hat, Hw; reflexivity|].
      unfold app_rank. cbn. rewrite Hat. cbn. split; [lia|done].
  - destruct (app_reload a) eqn:Hr.
    + eexists. split; [eapply as_reload; rewrite Hr; by apply reload_cancelled|]. unfold app_rank. cbn. rewrite Hr. split; [lia|done].
    + eexists. split; [eapply as_reload; rewrite Hr; by apply reload_failed|]. unfold app_rank. cbn. rewrite Hr. split; [lia|done].
    + eexists. split; [apply as_run; unfold run_next; rewrite Hat, Hr; reflexivity|].
      unfold app_rank. cbn. rewrite Hat, Hr. cbn. split; [lia|done].
  - destruct (decide (ad_at (app_admin a) = AdminDone)) as [Hd|Hd].
    + eexists. split; [apply as_run; unfold run_next; rewrite Hat, Hd; reflexivity|].
      unfold app_rank. cbn. rewrite Hat. cbn. split; [lia|done].
    + destruct (admin_progress _ Hd) as (admin' & Hs & Hr). eexists. split; [apply as_admin; rewrite Hsd; exact Hs|].
      unfold app_rank. cbn. split; [lia|done].
Qed.
Lemma app_returns a :
  app_wf a → app_admin_shutdown a = true → ∃ a', rtc (app_step toml streams nets b) a a' ∧ app_run a' = Returned.
Proof.
  remember (app_rank a) as n eqn:Hn. revert a Hn. induction (N.lt_wf_0 n) as [n _ IH]. intros a -> Hwf Hsd.
  destruct (decide (app_run a = Returned)) as [|Hret]; [by exists a|].
  destruct (app_progress a Hwf Hsd Hret) as (a1 & Hs & Hlt & Hsd1).
  destruct (IH _ Hlt a1 eq_refl) as (a' & Hr & Ha'); [by eapply app_step_wf|done|].
  exists a'. split; [by eapply rtc_l|done].
Qed.

(** ** The app can do what a pipeline can

    While the gate is open, every run of a pipeline with honest answers, up to
    the proxy stage, is a run of the app. *)
Definition gate_open (g : ProxyGate) (room : N) : Prop :=
  closed (gate_state g) = false ∧ gate_cancelled g = false ∧ proxying (gate_state g) + room ≤ usize_max.
Definition passable (act : Act (Up := Up)) : Prop :=
  match act with
  | DidHello None | DidAlert None | DidRoute _ None | DidConnect _ _ None => False
  | DidEnter pass => pass = true
  | DidProxy _ _ _ => False
  | _ => True
  end.

(** The futures that give an action its answer. *)
Definition answering (act : Act (Up := Up)) : Futures Up :=
  mkFutures (match act with DidHello x => x | _ => None end) (match act with DidAlert x => x | _ => None end)
    (match act with DidRoute _ x => x | _ => None end) (match act with DidConnect _ _ x => x | _ => None end) false None.
Lemma answered_open g force act room :
  gate_open g (1 + room) → passable act → ∃ g', answered (answering act) g force act g' ∧ gate_open g' room.
Proof.
  intros (Hc & Hcan & Hp) Hact.
  assert (gate_open g room) as Hopen by (split_and!; [done|done|lia]).
  assert (∀ A (x : A), cancellable (ProxyGate.handshakes_cancelled g) (Some x) = Some (Some x)) as Hx.
  { intros A x. unfold cancellable, ProxyGate.handshakes_cancelled. by rewrite Hcan. }
  destruct act; cbn [passable answered answering fut_hello fut_alert fut_route fut_connect] in *;
    try (exists g; split; [done|exact Hopen]);
    try (destruct x as [x|]; [|done]; exists g; split; [by split|exact Hopen]).
  subst pass. exists (mkGate (mkGateState false (proxying (gate_state g) + 1)) (gate_cancelled g)).
  split; [|split_and!; cbn; [done|done|lia]]. unfold ProxyGate.enter. rewrite Hc.
  rewrite uadd_Ok by lia. done.
Qed.

Lemma answered_honestly_with_conn a id p r pass did p' r' pass' act g' events :
  sv_conns (app_server a) !! id = Some (Live p r pass did) →
  honest (app_config b) (streams id) (λ l, l = app_lookup a) nets act →
  answered_honestly streams nets b a (with_conn (app_server a) g' id (Live p' r' pass' (did ++ [act])) events).
Proof.
  intros Hid Hact id1 p1 r1 pass1 did1 p1' r1' pass1' act1 Hl. cbn.
  intros [[<- [= _ _ _ Hdid]]|[_ Hl']]%lookup_insert_Some.
  - rewrite Hid in Hl. injection Hl as <- <- <- <-. apply app_inj_tail in Hdid as [_ ->]. done.
  - rewrite Hl in Hl'. injection Hl' as _ _ _ Hdid. apply (f_equal length) in Hdid. rewrite length_app in Hdid. cbn in Hdid. lia.
Qed.

Lemma app_runs_pipeline acts a id p r pass did p' :
  sv_conns (app_server a) !! id = Some (Live p r pass did) → trace p acts p' →
  Forall (λ act, passable act ∧ honest (app_config b) (streams id) (λ l, l = app_lookup a) nets act) acts →
  gate_open (sv_gate (app_server a)) (len acts) →
  ∃ a' r' pass', rtc (app_step toml streams nets b) a a' ∧
    sv_conns (app_server a') !! id = Some (Live p' r' pass' (did ++ acts)) ∧ app_lookup a' = app_lookup a.
Proof.
  revert a p r pass did. induction acts as [|act acts IH]; intros a p r pass did Hid Ht Hall Hg.
  { inversion Ht; subst. rewrite app_nil_r. exists a, r, pass. by split_and!. }
  inversion Ht as [|p0 act0 p1 acts0 p2 Hs Ht']; subst. apply Forall_cons in Hall as [[Hpass Hhon] Hall].
  rewrite len_cons in Hg. destruct (answered_open _ (sv_force (app_server a)) act _ Hg Hpass) as (g' & Hans & Hg').
  set (s1 := with_conn (app_server a) g' id (Live p1 (recorded act r) (pass_after act pass) (did ++ [act])) (events_of act)).
  set (a1 := mkApp s1 (app_lookup a) (app_served a) (app_reload a) (app_watching a) (app_health a)
      (app_admin a) (app_admin_shutdown a) (app_run a)).
  destruct (IH a1 p1 (recorded act r) (pass_after act pass) (did ++ [act])) as (a' & r' & pass' & Hr & Hl & Hlk);
    [by cbn; rewrite lookup_insert_eq|done|done|done|].
  exists a', r', pass'. rewrite <- app_assoc in Hl. split_and!; [|done|done]. eapply rtc_l; [|exact Hr].
  apply as_server; [|by eapply answered_honestly_with_conn].
  apply (ss_router _ _ (answering act)). eapply rs_conn; [done|]. by apply cs_act.
Qed.
End AppProofs.

(** ** The promises *)

(** C1: what the running application proxies is what its file says.  The app was
    loaded and bound; its routes may have been reloaded any number of times.
    Whenever a connection is in the proxy stage, its bytes begin with a
    ClientHello that names a host; the route is the best one for that host in a
    table that was in place, read as a whole from the configuration file at
    startup or at a reload, and is an entry of that file; the upstream is an
    address of the entry's backend; and it was sent exactly the bytes that
    [read_client_hello] returned for this connection, the whole hello and what
    came with it, so that with what is left of the stream it gets everything the
    client sent. *)
Theorem app_proxies_as_configured `{ByteSource Src content, TimeoutSpec} {Up Sem ParseFailure : Type}
    `{SemaphoreSpec Sem free} (peer : Up → SocketAddr) (sent : Up → bytes)
    (toml : bytes → ParseFailure + RawConfig) (streams : N → Src) (nets : Net Up → Prop)
    read path c tcp_bind metrics_new b (a : App Up Sem) id u n k r pass did :
  load read toml path = Ok c → bind tcp_bind metrics_new c path = inr b →
  (∀ net, nets net → NetSpec net peer sent) →
  app_reachable toml streams nets b a →
  sv_conns (app_server a) !! id = Some (Live (AwaitProxy u n k) r pass did) →
  ∃ info host m t net rest source raw entry,
    hello_result (hello_limits (router (server c))) (content (streams id)) = Ok info ∧ sni info = Some host ∧
    t ∈ app_served a ∧ best_route (im_routes t) host m ∧
    toml source = inr raw ∧ build_route_table (ParseFailure := ParseFailure) (raw_routes raw) = Ok t ∧
    entry ∈ raw_routes raw ∧ entry_ok entry (match_key m, match_backend m) ∧
    nets net ∧ backend_address net (match_backend m) (peer u) ∧
    replayed content (hello_limits (router (server c))) (streams id) (sent u) info rest.
Proof.
  intros Hload Hbind Hnets Ha Hc. destruct (app_bind_Ok _ _ _ _ _ Hbind) as (Hcfg & Hlk & Hst & Hpath & Hh & _).
  assert (∀ t, configured toml b t → loadable toml path t) as Hconf.
  { intros t [->|Ht]; [exists read, c; by rewrite Hlk|by rewrite <- Hpath]. }
  apply (app_reachable_wf (free := free) toml streams nets b a Hh) in Ha. destruct (awf_served _ _ _ _ _ Ha) as [_ Hserved].
  rewrite Forall_forall in Hserved.
  pose proof (server_reachable_wf (free := free) _ _ _ (awf_server _ _ _ _ _ Ha)) as Hs.
  apply (swf_conns _ _ Hs) in Hc as Hok. destruct Hok as [_ (li & Ht & _)]. rewrite Hcfg in Ht.
  pose proof (awf_honest _ _ _ _ _ Ha _ _ _ _ _ Hc) as Hhon. rewrite Hcfg in Hhon.
  apply load_app_ok in Hload as Hok.
  destruct (proxied_route peer sent (router (server c)) li (streams id)
    (λ l, FileRouteLookup.snapshot l ∈ app_served a) nets did u n k) as (info & host & m & l & net & rest & Hr);
    [apply Hok|intros l Hl; by eapply loadable_wf, Hconf, Hserved|done|done|done|].
  destruct Hr as (Hhello & Hsni & Hin & [Hm Hbest] & Hnet & Haddr & Hsent).
  destruct (Hconf _ (Hserved _ Hin)) as (read' & c' & (source & raw & _ & Hraw & _ & _ & Htab)%load_Ok & Hrt).
  rewrite Hrt in Htab. destruct (build_route_table_wf _ _ Htab) as (_ & _ & Hent).
  destruct (proj1 (Hent _ _) Hm) as (entry & He & Heok).
  exists info, host, m, (FileRouteLookup.snapshot l), net, rest, source, raw, entry. by split_and!.
Qed.

(** C18: the order of a shutdown, as probes and the caller see it.  In every
    reachable state of the app: the health page says draining only after the
    shutdown signal, and says so by the time the server and the drain watch are
    done; the admin listener accepts, with at most 256 connections, as long as
    the server is not done, so that probes can see the drain; it is told to stop
    only when no connection is left; when [run] has returned, every task it
    started is over; and once the server is done, [run] can always return. *)
Theorem app_shutdown_order `{AsyncRead Src, Timeout} {Up Sem ParseFailure Registry : Type}
    `{SemaphoreSpec Sem free} (toml : bytes → ParseFailure + RawConfig) (streams : N → Src) (nets : Net Up → Prop)
    read path c tcp_bind metrics_new b (encode : Registry → io_error + bytes) registry (a : App Up Sem) :
  load read toml path = Ok c → bind tcp_bind metrics_new c path = inr b →
  app_reachable toml streams nets b a →
  let page := handle encode (mkAdminRoutes registry (health_path (admin c)) (app_health a))
                (mkRequest (lit "GET") (health_path (admin c))) in
  (status page = 503 ∨ status page = 200) ∧
  (status page = 503 → sv_shutdown (app_server a) = true) ∧
  (sv_phase (app_server a) ≠ Done → admin_open (app_admin a) = true) ∧
  ad_running (app_admin a) ≤ 256 ∧
  (app_admin_shutdown a = true → sv_conns (app_server a) = ∅ ∧
     ∃ a', rtc (app_step toml streams nets b) a a' ∧ app_run a' = Returned) ∧
  (app_run a = Returned → status page = 503 ∧ sv_conns (app_server a) = ∅ ∧ app_reload a = ReloadStopped ∧
     ad_at (app_admin a) = AdminDone ∧ ad_running (app_admin a) = 0 ∧ ad_finished (app_admin a) = 0).
Proof.
  intros Hload Hbind Ha page. destruct (app_bind_Ok _ _ _ _ _ Hbind) as (_ & _ & _ & _ & Hh & _).
  apply (app_reachable_wf (free := free) toml streams nets b a Hh) in Ha.
  assert (status page = if Health.is_draining (app_health a) then 503 else 200) as Hpage.
  { apply handle_health. cbn. by apply load_app_ok in Hload as []. }
  pose proof (server_reachable_wf (free := free) _ _ _ (awf_server _ _ _ _ _ Ha)) as Hs.
  pose proof (awf_run _ _ _ _ _ Ha) as Hrun. pose proof (awf_admin _ _ _ _ _ Ha) as [Hslots Hdone].
  rewrite Hpage. unfold Health.is_draining. split_and!.
  - destruct (draining _); auto.
  - intros Hd. apply (awf_draining _ _ _ _ _ Ha). by destruct (draining _).
  - intros Hp. apply (awf_admin_open _ _ _ _ _ Ha). destruct (app_admin_shutdown a); [|done]. by destruct Hrun.
  - cbn in Hslots. lia.
  - intros Hsd. rewrite Hsd in Hrun. destruct Hrun as [_ Hphase]. split; [by apply Hs|]. by eapply app_returns.
  - intros Hret. rewrite Hret in Hrun. cbn [run_rank] in Hrun. destruct (app_admin_shutdown a); [|lia]. destruct Hrun as [_ Hphase].
    pose proof (awf_returned _ _ _ _ _ Ha Hret) as Had. destruct (Hdone Had).
    split_and!; [|by apply Hs|eapply awf_reload; [done|rewrite Hret; cbn; lia]|done|done|done].
    assert (draining (app_health a) = true) as ->; [|done]. eapply awf_drained; [done|rewrite Hret; cbn; lia].
Qed.

(** ** An app that proxies

    A file with one route, default settings, and the connection of
    [Pipeline.example_done]. *)
Definition example_raw : RawConfig :=
  mkRawConfig RawServer_default RawAdmin_default [mkRawRoute (lit "A.test") (lit "b:443")].
Definition example_toml (source : bytes) : bytes + RawConfig :=
  if is_empty source then inl (lit "empty") else inr example_raw.
Definition example_read (path : bytes) : io_error + bytes := inr (lit "[[routes]]").
Definition example_file_table : InMemoryLookup := table_of [(match_key example_match, match_backend example_match)].
Definition example_config : AppConfig :=
  mkAppConfig (mkServerConfig [(V4 0 0 0 0, 8080)] RouterConfig_default)
    (mkAdminConfig (V4 127 0 0 1, 8081) (lit "/health")) example_file_table.
(** Every bind succeeds, at the address of [example_listener]. *)
Definition example_bind (_ : SocketAddr) : io_error + (io_error + SocketAddr) := inr (inr (V4 0 0 0 0, 443)).
Definition example_app : BoundApp :=
  mkBoundApp (lit "r.toml") (mkStartup (server example_config) (admin example_config)) RouterConfig_default
    (FileRouteLookup.new example_file_table) [example_listener] (V4 0 0 0 0, 443) Health.new.
Definition example_streams (_ : N) : chunk_stream := example_stream.
Definition example_nets (net : Net (SocketAddr * bytes)) : Prop := net = example_upstream_net.

Lemma example_load : load example_read example_toml (lit "r.toml") = Ok example_config.
Proof. vm_compute. reflexivity. Qed.
Lemma example_bound : bind example_bind (inr ()) example_config (lit "r.toml") = inr example_app.
Proof. reflexivity. Qed.

Abbreviation example_reachable := (app_reachable (H0 := simple_timeout) (Up := SocketAddr * bytes) (Sem := N)
  example_toml example_streams example_nets example_app).

(** No connection acts in a step that starts one or none. *)
Lemma answered_honestly_quiet `{AsyncRead Src, Timeout} {Up Sem : Type} streams nets b (a : App Up Sem) s' :
  (∀ id p r pass did, sv_conns (app_server a) !! id = Some (Live p r pass did) → False) →
  answered_honestly streams nets b a s'.
Proof. intros Hno id p r pass did p' r' pass' act Hl. by destruct (Hno _ _ _ _ _ Hl). Qed.

Lemma example_accepted :
  ∃ (a : App (SocketAddr * bytes) N) r, example_reachable a ∧
    app_lookup a = FileRouteLookup.new example_file_table ∧
    sv_conns (app_server a) !! 0 = Some (Live (run RouterConfig_default example_listener) r false []) ∧
    sv_gate (app_server a) = ProxyGate.new.
Proof.
  eexists _, _. split; [|split_and!].
  - exists true. eexists. split; [reflexivity|].
    eapply rtc_l; [eapply as_server; [apply (ss_router _ _ pending); eapply rs_slot; reflexivity|]|].
    { apply answered_honestly_quiet. intros ? ? ? ? ? Hl. cbn in Hl. by rewrite lookup_empty in Hl. }
    eapply rtc_l; [eapply as_server; [apply (ss_router _ _ pending); eapply (rs_accept _ _ _ _ _ (λ _, true) false); reflexivity|]|].
    { apply answered_honestly_quiet. intros ? ? ? ? ? Hl. cbn in Hl. by rewrite lookup_empty in Hl. }
    eapply rtc_l; [eapply as_server; [apply (ss_router _ _ pending); eapply (rs_conn _ _ _ _ 0); [reflexivity|apply (cs_start _ _ _ _ _ 5)]|]|].
    { apply answered_honestly_quiet. intros id ? ? ? ?. cbn.
      intros [[_ [=]]|[_ Hl]]%lookup_insert_Some. by rewrite lookup_empty in Hl. }
    apply rtc_refl.
  - reflexivity.
  - reflexivity.
  - reflexivity.
Qed.
Lemma example_app_honest :
  Forall (λ act, passable act ∧ honest (H1 := simple_timeout) RouterConfig_default (example_streams 0)
    (λ l, l = FileRouteLookup.new example_file_table) example_nets act) example_done.
Proof.
  repeat (apply Forall_cons; split); try apply Forall_nil_2; (split; [exact I || reflexivity|]); try exact I.
  - vm_compute. reflexivity.
  - eexists. split; [reflexivity|]. vm_compute. reflexivity.
  - eexists. split; [reflexivity|]. vm_compute. reflexivity.
Qed.
Lemma example_proxying :
  ∃ (a : App (SocketAddr * bytes) N) k r pass, example_reachable a ∧
    sv_conns (app_server a) !! 0 = Some (Live (AwaitProxy example_up 32768 k) r pass example_done).
Proof.
  destruct example_accepted as (a & r & Hr & Hlk & Hl & Hg). destruct example_trace as [k Hk].
  destruct (app_runs_pipeline (H1 := simple_timeout) example_toml example_streams example_nets example_app
    example_done a 0 _ r false [] _ Hl Hk) as (a' & r' & pass' & Hr' & Hl' & _).
  - rewrite Hlk. exact example_app_honest.
  - rewrite Hg. split_and!; [reflexivity|reflexivity|vm_compute; discriminate].
  - destruct Hr as (installed & start & Hs & Hr). exists a', k, r', pass'. split; [|done].
    exists installed, start. split; [done|by etrans].
Qed.

Lemma app_proxies_as_configured_witness :
  ∃ host m t rest, host = mkHostname (lit "a.test") ∧ best_route (im_routes t) host m ∧
    replayed (concat (A := _)) HelloLimits.default example_stream example_wire example_info rest.
Proof.
  destruct example_proxying as (a & k & r & pass & Hr & Hl).
  destruct (app_proxies_as_configured (H2 := simple_timeout_spec) fst snd example_toml example_streams example_nets
    example_read (lit "r.toml") example_config example_bind (inr ()) example_app a 0 example_up 32768 k r pass
    example_done example_load example_bound) as (info & host & m & t & net & rest & source & raw & entry & Hhello & Hsni & Hin & Hbest & Hres).
  - intros net ->. apply example_net_spec.
  - exact Hr.
  - exact Hl.
  - assert (hello_result HelloLimits.default (concat example_stream) = Ok example_info) as Hi by (vm_compute; reflexivity).
    assert (info = example_info) as -> by (pose proof (eq_trans (eq_sym Hi) Hhello) as [=]; congruence).
    exists host, m, t, rest. split_and!.
    + assert (sni example_info = Some (mkHostname (lit "a.test"))) as Hs by (vm_compute; reflexivity). congruence.
    + exact Hbest.
    + apply Hres.
Defined.
Lemma app_shutdown_order_witness :
  ∃ a : App (SocketAddr * bytes) N, app_start example_app true = Ok a ∧
    sv_phase (app_server a) = Serving ∧ admin_open (app_admin a) = true ∧ ad_running (app_admin a) ≤ 256.
Proof.
  destruct (app_start_makes (Up := SocketAddr * bytes) (Sem := N) (free := λ n, n) example_app true ltac:(vm_decide)) as [a Ha].
  destruct (app_shutdown_order (H0 := simple_timeout) (Registry := unit) example_toml example_streams example_nets
    example_read (lit "r.toml") example_config example_bind (inr ()) example_app (λ _, inr []) () a
    example_load example_bound (ex_intro _ true (ex_intro _ a (conj Ha (rtc_refl _ _))))) as (_ & _ & Ho & Hn & _).
  assert (sv_phase (app_server a) = Serving) as Hp by (vm_compute in Ha; injection Ha as <-; reflexivity).
  exists a. split; [exact Ha|]. split; [exact Hp|]. split; [apply Ho; rewrite Hp; discriminate|exact Hn].
Defined.
