(* ===== verification/Testing.v ===== *)
(** * Test doubles ([testing.rs])

    A route lookup whose behaviour tests choose, a table from strings, and a
    metrics sink that keeps every event. *)

From S2P Require Import Prelude Async Str Net Names Lookup Routing Metrics.

(** ** ScriptedLookup *)
Inductive LookupBehavior :=
| Routes (table : InMemoryLookup)
| Delayed (delay : Duration) (table : InMemoryLookup)
| FailWith (message : bytes)
| Hang
| PanicOnCall.
Record ScriptedLookup := mkScripted { behavior : LookupBehavior; scripted_calls : N }.

(** [route_table] panics on input that does not parse; a later pair wins. *)
Fixpoint parse_routes (routes : list (bytes * bytes)) : section (list (RouteKey * Backend)) :=
  match routes with
  | [] => Ok []
  | (key, backend) :: routes =>
    match RouteKey.parse key, Backend.from_str backend with
    | Ok key, Ok backend => rest ← parse_routes routes; Ok ((key, backend) :: rest)
    | _, _ => Stuck SPanic
    end
  end.
Definition route_table (routes : list (bytes * bytes)) : section InMemoryLookup :=
  InMemoryLookup.from_iter <$> parse_routes routes.

Module ScriptedLookup.
Definition new (b : LookupBehavior) : ScriptedLookup := mkScripted b 0.
Definition found (routes : list (bytes * bytes)) : section ScriptedLookup :=
  (λ t, new (Routes t)) <$> route_table routes.
Definition failing (message : bytes) : ScriptedLookup := new (FailWith message).
Definition hanging : ScriptedLookup := new Hang.
Definition set_behavior (b : LookupBehavior) (l : ScriptedLookup) : ScriptedLookup := mkScripted b (scripted_calls l).

(** A call is counted when it is made ([fetch_add] wraps), whatever becomes of
    its future; the value of the one that hangs is never seen. *)
Definition lookup (l : ScriptedLookup) (candidates : RouteCandidates) : fut (res LookupError RouteHits) * ScriptedLookup :=
  (match behavior l with
   | Routes t => ready (Ok (InMemoryLookup.hits t candidates))
   | Delayed delay t => mkFut (Ok (InMemoryLookup.hits t candidates)) (Some delay)
   | FailWith message => ready (Err (mkLookupError message))
   | Hang => mkFut (Ok RouteHits.new) None
   | PanicOnCall => ready (Stuck SPanic)
   end, mkScripted (behavior l) ((scripted_calls l + 1) mod 2 ^ 64)).
End ScriptedLookup.
#[global] Instance ScriptedLookup_lookup : RouteLookup ScriptedLookup := λ l c, (ScriptedLookup.lookup l c).1.

(** What routing makes of each behaviour. *)
Lemma resolve_scripted `{TimeoutSpec} l host limit :
  0 < limit →
  match behavior l with
  | Routes t => resolve_route l host limit = resolve_route t host limit
  | Delayed delay t =>
    (delay < limit → resolve_route l host limit = resolve_route t host limit) ∧
    (limit < delay → resolve_route l host limit = Err RouteTimeout)
  | FailWith message => resolve_route l host limit = Err (RouteLookupFailed (mkLookupError message))
  | Hang => resolve_route l host limit = Err RouteTimeout
  | PanicOnCall => resolve_route l host limit = Stuck SPanic
  end.
Proof.
  intros Hlim. unfold resolve_route, lookup, ScriptedLookup_lookup, InMemoryLookup_lookup, ScriptedLookup.lookup.
  assert (∀ A (x : A), timeout limit (ready x) = Some x) as Hready.
  { intros A x. rewrite timeout_in_time; [done|]. by exists 0. }
  destruct (behavior l) as [t|delay t|message| |]; cbn [fst]; rewrite ?Hready; try done.
  - split; intros Hd; [rewrite timeout_in_time; [done|by exists delay]|by rewrite timeout_elapsed].
  - by rewrite timeout_elapsed.
Qed.

(** ** RecordingMetrics: an owned copy of each event, without its timing *)
Inductive RecordedEvent :=
| RecordedOpened (listener : ListenerInfo)
| RecordedClosed (listener : ListenerInfo) (outcome : ConnectionOutcome)
| RecordedRead (listener : ListenerInfo) (count : N)
| RecordedWritten (listener : ListenerInfo) (count : N)
| RecordedLookup (listener : ListenerInfo) (outcome : LookupOutcome)
| RecordedUpstream (listener : ListenerInfo) (ok : bool)
| RecordedCache (event : CacheEvent).
Record RecordingMetrics := mkRecording { events : list RecordedEvent }.

Module RecordingMetrics.
Definition new : RecordingMetrics := mkRecording [].
Definition recorded (event : MetricEvent) : RecordedEvent :=
  match event with
  | ConnectionOpened listener => RecordedOpened listener
  | ConnectionClosed listener outcome _ => RecordedClosed listener outcome
  | BytesRead listener count => RecordedRead listener count
  | BytesWritten listener count => RecordedWritten listener count
  | RouteLookupEvent listener outcome _ => RecordedLookup listener outcome
  | UpstreamConnect listener ok _ => RecordedUpstream listener ok
  | CacheMetric event => RecordedCache event
  end.
Definition record (m : RecordingMetrics) (event : MetricEvent) : RecordingMetrics :=
  mkRecording (events m ++ [recorded event]).
Definition outcomes (m : RecordingMetrics) : list ConnectionOutcome :=
  omap (λ e, match e with RecordedClosed _ outcome => Some outcome | _ => None end) (events m).
Definition cache_events (m : RecordingMetrics) : list CacheEvent :=
  omap (λ e, match e with RecordedCache event => Some event | _ => None end) (events m).
Definition count_cache (wanted : CacheEvent) (m : RecordingMetrics) : N :=
  len (List.filter (λ e, bool_decide (e = wanted)) (cache_events m)).
(** The fold adds in [u64], checked as a debug build checks it. *)
Fixpoint client_bytes_loop (read written : N) (es : list RecordedEvent) : section (N * N) :=
  match es with
  | [] => Ok (read, written)
  | RecordedRead _ n :: es => read ← uadd read n; client_bytes_loop read written es
  | RecordedWritten _ n :: es => written ← uadd written n; client_bytes_loop read written es
  | _ :: es => client_bytes_loop read written es
  end.
Definition client_bytes (m : RecordingMetrics) : section (N * N) := client_bytes_loop 0 0 (events m).
End RecordingMetrics.

#[global] Instance RecordingMetrics_sink : MetricsSink RecordingMetrics := RecordingMetrics.record.

(** The sink keeps every event, in order. *)
Lemma recording_keeps es m :
  events (record_all m es) = events m ++ (RecordingMetrics.recorded <$> es).
Proof.
  unfold record_all. revert m. induction es as [|e es IH]; intros m; cbn; [by rewrite app_nil_r|].
  rewrite IH. cbn. by rewrite <- app_assoc.
Qed.

Definition read_by (e : RecordedEvent) : N := match e with RecordedRead _ n => n | _ => 0 end.
Definition written_by (e : RecordedEvent) : N := match e with RecordedWritten _ n => n | _ => 0 end.
Definition sum_N {A} (f : A → N) (xs : list A) : N := foldr (λ x n, f x + n) 0 xs.
(** The byte totals are the sums, unless one does not fit. *)
Lemma client_bytes_sums es r w :
  r + sum_N read_by es ≤ usize_max → w + sum_N written_by es ≤ usize_max →
  RecordingMetrics.client_bytes_loop r w es = Ok (r + sum_N read_by es, w + sum_N written_by es).
Proof.
  revert r w. induction es as [|e es IH]; intros r w Hr Hw; [cbn; by rewrite !N.add_0_r|].
  destruct e; cbn [RecordingMetrics.client_bytes_loop sum_N foldr read_by written_by] in *; fold (sum_N read_by es) in *;
    fold (sum_N written_by es) in *; rewrite ?uadd_Ok by lia; res_simpl; rewrite IH by lia; do 2 f_equal; lia.
Qed.

Example scripted_found :
  (l ← ScriptedLookup.found [(lit "*.a.test", lit "b:443")];
   Ok (fut_value (lookup l (candidate_keys (mkHostname (lit "x.a.test")))))) =
  Ok (Ok [(mkRouteKey (lit "*.a.test") true, mkBackend (Dns (lit "b")) 443)]).
Proof. vm_compute. reflexivity. Qed.
