(* ===== verification/RouteTests.v ===== *)
(** * Tests of names, lookups and routing, evaluated on the model

    The tests of [lookup/types.rs], [lookup/mod.rs], [lookup/memory.rs],
    [routing/mod.rs] and [config/routes.rs], one boolean each: whether the
    test's assertions hold.  An [unwrap] that panics fails the test. *)

From S2P Require Import Prelude Async Str Net Names Lookup Routing Metrics Testing Routes.
From Stdlib Require Import Strings.Byte.

(** A test that first unwraps something: it holds of what it unwrapped. *)
Definition unwrapped {E A} (m : res E A) (test : A → bool) : bool :=
  match m with Ok a => test a | _ => false end.
Definition fails_with {E A} `{EqDecision E} (m : res E A) (error : E) : bool :=
  match m with Err e => bool_decide (e = error) | _ => false end.
Definition is_ok {E A} (m : res E A) : bool := match m with Ok _ => true | _ => false end.
Definition is_error {E A} (m : res E A) : bool := match m with Err _ => true | _ => false end.
(** The text of something unwrapped. *)
Definition reads {E A} (text : A → bytes) (m : res E A) (expected : string) : bool :=
  unwrapped m (λ a, bool_decide (text a = lit expected)).
Definition host (name : string) : res NameError Hostname := Hostname.parse (lit name).
Definition route_key (key : string) : res NameError RouteKey := RouteKey.parse (lit key).

Module TypesTests.
Definition hostname_lowercases_and_accepts_valid_names : bool :=
  reads Hostname.as_str (host "Api.Example.COM") "api.example.com" &&
  is_ok (host "a_b-c.example") && is_ok (host "localhost").

Definition hostname_rejects_malformed_names : bool :=
  forallb (λ '(input, expected), fails_with (host input) expected)
    [("", Empty); ("example.com.", EmptyLabel); (".example.com", EmptyLabel); ("a..b", EmptyLabel);
     ("*.example.com", InvalidCharacter); ("exa mple.com", InvalidCharacter); ("exämple.com", InvalidCharacter);
     ("10.0.0.1", IpLiteral)]%string &&
  fails_with (Hostname.parse (replicate 64 "a"%byte ++ lit ".com")) LabelTooLong &&
  fails_with (Hostname.parse (join dot (replicate 5 (replicate 63 "a"%byte)))) TooLong.

Definition route_key_parses_exact_and_wildcard : bool :=
  reads RouteKey.as_str (route_key "API.example.com") "api.example.com" &&
  unwrapped (route_key "API.example.com") (λ k, negb (RouteKey.is_wildcard k)) &&
  reads RouteKey.as_str (route_key "*.Apps.Example.com") "*.apps.example.com" &&
  unwrapped (route_key "*.Apps.Example.com") RouteKey.is_wildcard.

Definition route_key_rejects_bad_wildcards : bool :=
  forallb (λ input, is_error (route_key input)) ["*.com"; "*"; "*."; "a.*.example.com"; "*example.com"; "**.a.b"]%string.

Definition wildcard_for_strips_exactly_one_label : bool :=
  unwrapped (host "a.b.example.com") (λ h, bool_decide (RouteKey.as_str <$> RouteKey.wildcard_for h = Some (lit "*.b.example.com"))) &&
  unwrapped (host "example.com") (λ h, bool_decide (RouteKey.wildcard_for h = None)) &&
  unwrapped (host "localhost") (λ h, bool_decide (RouteKey.wildcard_for h = None)).

Definition wildcard_for_matches_parsed_wildcard_key : bool :=
  unwrapped (host "x.apps.example.com") (λ h, unwrapped (route_key "*.apps.example.com") (λ k,
    bool_decide (RouteKey.wildcard_for h = Some k))).

Definition backend (text : string) : res NameError Backend := Backend.from_str (lit text).
Definition backend_parses_dns_ipv4_and_ipv6 : bool :=
  unwrapped (backend "API-svc.default.svc:8443") (λ b,
    bool_decide (backend_host b = Dns (lit "api-svc.default.svc")) && (backend_port b =? 8443)) &&
  reads Backend.fmt (backend "API-svc.default.svc:8443") "api-svc.default.svc:8443" &&
  unwrapped (backend "10.0.0.5:443") (λ b, bool_decide (Some (backend_host b) = Ip <$> parse_ip (lit "10.0.0.5"))) &&
  reads Backend.fmt (backend "10.0.0.5:443") "10.0.0.5:443" &&
  unwrapped (backend "[::1]:9000") (λ b, bool_decide (Some (backend_host b) = Ip <$> parse_ip (lit "::1"))) &&
  reads Backend.fmt (backend "[::1]:9000") "[::1]:9000".

Definition backend_rejects_malformed_values : bool :=
  forallb (λ '(input, expected), fails_with (backend input) expected)
    [("svc", MissingPort); ("svc:0", InvalidPort); ("svc:65536", InvalidPort); ("svc:http", InvalidPort);
     ("::1:443", InvalidBackendHost); ("[::1]443", MissingPort); ("[nope]:443", InvalidBackendHost);
     ("bad host:443", InvalidBackendHost); (":443", InvalidBackendHost)]%string.
End TypesTests.

Module LookupTests.
Definition candidates_list_exact_then_wildcard : bool :=
  unwrapped (host "a.example.com") (λ h,
    bool_decide (RouteKey.as_str <$> RouteCandidates.keys (RouteCandidates.for_hostname h) = [lit "a.example.com"; lit "*.example.com"])).

Definition candidates_for_two_label_name_have_no_wildcard : bool :=
  unwrapped (host "example.com") (λ h, let candidates := RouteCandidates.for_hostname h in
    (len (RouteCandidates.keys candidates) =? 1) && bool_decide (rc_wildcard candidates = None)).
End LookupTests.

Module MemoryTests.
Definition table : section InMemoryLookup :=
  InMemoryLookup.from_iter <$> parse_routes
    [(lit "api.example.com", lit "api:443"); (lit "*.example.com", lit "wild:443"); (lit "other.test", lit "other:443")].

Definition returns_hits_for_every_matching_candidate : bool :=
  unwrapped table (λ t, unwrapped (host "api.example.com") (λ h, let candidates := RouteCandidates.for_hostname h in
    unwrapped (fut_value (lookup t candidates)) (λ hits,
      (len hits =? 2) &&
      bool_decide (Backend.fmt <$> RouteHits.get hits (rc_exact candidates) = Some (lit "api:443"))))).

Definition returns_empty_hits_when_nothing_matches : bool :=
  unwrapped table (λ t, unwrapped (host "nope.test") (λ h,
    unwrapped (fut_value (lookup t (RouteCandidates.for_hostname h))) is_empty)).
End MemoryTests.

Module RoutingTests.
Definition table (entries : list (string * string)) : section InMemoryLookup :=
  InMemoryLookup.from_iter <$> parse_routes (prod_map lit lit <$> entries).
Definition TIMEOUT : Duration := from_secs 1.

Definition exact_match_beats_wildcard : bool :=
  unwrapped (table [("*.example.com", "wild:1"); ("api.example.com", "exact:1")]%string) (λ t,
    unwrapped (host "api.example.com") (λ h, unwrapped (resolve_route (H0 := simple_timeout) t h TIMEOUT) (λ route,
      bool_decide (Backend.fmt (match_backend route) = lit "exact:1") && negb (RouteKey.is_wildcard (match_key route))))).

Definition wildcard_matches_one_label_only : bool :=
  unwrapped (table [("*.example.com", "wild:1")]%string) (λ t,
    unwrapped (host "a.example.com") (λ h, is_ok (resolve_route (H0 := simple_timeout) t h TIMEOUT)) &&
    unwrapped (host "example.com") (λ h, fails_with (resolve_route (H0 := simple_timeout) t h TIMEOUT) RouteNotFound) &&
    unwrapped (host "a.b.example.com") (λ h, fails_with (resolve_route (H0 := simple_timeout) t h TIMEOUT) RouteNotFound)).

Definition lookup_error_fails_closed : bool :=
  unwrapped (host "a.example.com") (λ h,
    match resolve_route (H0 := simple_timeout) (ScriptedLookup.failing (lit "db down")) h TIMEOUT with
    | Err (RouteLookupFailed _) => true
    | _ => false
    end).

Definition slow_lookup_times_out : bool :=
  unwrapped (host "a.example.com") (λ h,
    fails_with (resolve_route (H0 := simple_timeout) ScriptedLookup.hanging h TIMEOUT) RouteTimeout).

Definition selects (hits : list (bytes * bytes)) (test : Selection → bool) : bool :=
  unwrapped (host "a.example.com") (λ h, unwrapped (parse_routes hits) (λ hits, test (select_route (candidate_keys h) hits))).
Definition hits_for_non_candidate_keys_are_ignored : bool :=
  selects [(lit "evil.test", lit "evil:1"); (lit "*.example.com", lit "wild:1")] (λ selection,
    (ignored_hits selection =? 1) &&
    bool_decide (Backend.fmt ∘ match_backend <$> matched selection = Some (lit "wild:1"))).

Definition only_non_candidate_hits_means_not_found : bool :=
  selects [(lit "evil.test", lit "evil:1")] (λ selection, bool_decide (matched selection = None)).
End RoutingTests.

Module FileRoutesTests.
Definition backend_of (m : res LookupError RouteHits) (expected : string) : bool :=
  unwrapped m (λ hits, bool_decide (Backend.fmt ∘ snd <$> head hits = Some (lit expected))).
Definition replace_swaps_the_table_for_new_lookups : bool :=
  unwrapped (route_table [(lit "a.test", lit "old:1")]) (λ old, unwrapped (route_table [(lit "a.test", lit "new:1")]) (λ new,
    unwrapped (host "a.test") (λ h, let candidates := RouteCandidates.for_hostname h in
      let l := FileRouteLookup.new old in
      backend_of (fut_value (lookup l candidates)) "old:1" &&
      backend_of (fut_value (lookup (FileRouteLookup.replace new l) candidates)) "new:1"))).
End FileRoutesTests.

Lemma route_tests_pass :
  forallb id
    [TypesTests.hostname_lowercases_and_accepts_valid_names; TypesTests.hostname_rejects_malformed_names;
     TypesTests.route_key_parses_exact_and_wildcard; TypesTests.route_key_rejects_bad_wildcards;
     TypesTests.wildcard_for_strips_exactly_one_label; TypesTests.wildcard_for_matches_parsed_wildcard_key;
     TypesTests.backend_parses_dns_ipv4_and_ipv6; TypesTests.backend_rejects_malformed_values;
     LookupTests.candidates_list_exact_then_wildcard; LookupTests.candidates_for_two_label_name_have_no_wildcard;
     MemoryTests.returns_hits_for_every_matching_candidate; MemoryTests.returns_empty_hits_when_nothing_matches;
     RoutingTests.exact_match_beats_wildcard; RoutingTests.wildcard_matches_one_label_only;
     RoutingTests.lookup_error_fails_closed;
     RoutingTests.slow_lookup_times_out; RoutingTests.hits_for_non_candidate_keys_are_ignored;
     RoutingTests.only_non_candidate_hits_means_not_found;
     FileRoutesTests.replace_swaps_the_table_for_new_lookups] = true.
Proof. vm_compute. reflexivity. Qed.
