(* ===== verification/Cache.v ===== *)
(** * The caching lookup ([cache.rs])

    The state under the mutex, and one definition per critical section: the
    start of a lookup, the completion of a load, invalidation and clearing.
    Reading the clock is an argument [now]; the randomly seeded hasher of the
    standard library that draws the jitter of a TTL is the parameter [hash_one]. *)

From S2P Require Import Prelude Async F64 Jitter Str Net Names Lookup Metrics.
From Stdlib Require Import SpecFloat.

Record CacheConfig := mkCacheConfig {
  ttl : Duration;
  negative_ttl : Duration;
  jitter : f64;
  max_entries : N;
  stale_if_error : option Duration;
  load_timeout : Duration;
  max_inflight_loads : N;
}.
Definition CacheConfig_default : CacheConfig :=
  mkCacheConfig (from_secs 30) (from_secs 5) (as_f64 1 / as_f64 10)%f64 100000 None (from_secs 10) 1024.

Definition LoadResult : Type := res LookupError RouteHits.

Record CacheEntry := mkCacheEntry {
  ce_hits : RouteHits;
  ce_expires : Instant;
  ce_stale_until : Instant;
  ce_id : N;
}.

(** A load's watch channel is named by the load's id, so an in-flight slot is
    just the id. *)
Record CacheState := mkCacheState {
  entries : gmap RouteCandidates CacheEntry;
  index : gmap RouteKey (gset RouteCandidates);
  order : list (RouteCandidates * N);
  inflight : gmap RouteCandidates N;
  next_id : N;
  running_loads : N;
  last_purge : option Instant;
}.

(** [instant + duration], saturating instead of panicking. *)
Definition later (instant : Instant) (duration : Duration) : section Instant :=
  match instant_checked_add instant duration with
  | Some i => Ok i
  | None => instant_add instant century
  end.

Definition load_aborted : LookupError := mkLookupError (lit "route load aborted before completing").

Module CacheState.
Definition empty : CacheState := mkCacheState ∅ ∅ [] ∅ 0 0 None.

Definition with_entries (s : CacheState) x := mkCacheState x (index s) (order s) (inflight s) (next_id s) (running_loads s) (last_purge s).
Definition with_index (s : CacheState) x := mkCacheState (entries s) x (order s) (inflight s) (next_id s) (running_loads s) (last_purge s).
Definition with_order (s : CacheState) x := mkCacheState (entries s) (index s) x (inflight s) (next_id s) (running_loads s) (last_purge s).
Definition with_inflight (s : CacheState) x := mkCacheState (entries s) (index s) (order s) x (next_id s) (running_loads s) (last_purge s).
Definition with_next_id (s : CacheState) x := mkCacheState (entries s) (index s) (order s) (inflight s) x (running_loads s) (last_purge s).
Definition with_running_loads (s : CacheState) x := mkCacheState (entries s) (index s) (order s) (inflight s) (next_id s) x (last_purge s).
Definition with_last_purge (s : CacheState) x := mkCacheState (entries s) (index s) (order s) (inflight s) (next_id s) (running_loads s) x.

Definition take_id (s : CacheState) : section (N * CacheState) :=
  let id := next_id s in
  n ← uadd id 1;
  Ok (id, with_next_id s n).

(** The index records of one entry, removed and added. *)
Definition unindex_key (candidates : RouteCandidates) (idx : gmap RouteKey (gset RouteCandidates))
    (key : RouteKey) : gmap RouteKey (gset RouteCandidates) :=
  match idx !! key with
  | Some indexed =>
    let indexed := indexed ∖ {[candidates]} in
    if decide (indexed = ∅) then delete key idx else <[key := indexed]> idx
  | None => idx
  end.
Definition index_key (candidates : RouteCandidates) (idx : gmap RouteKey (gset RouteCandidates))
    (key : RouteKey) : gmap RouteKey (gset RouteCandidates) :=
  <[key := default ∅ (idx !! key) ∪ {[candidates]}]> idx.

(** Removes an entry and its index records. *)
Definition remove_entry (s : CacheState) (candidates : RouteCandidates) : CacheState :=
  match entries s !! candidates with
  | None => s
  | Some _ =>
    let s := with_entries s (delete candidates (entries s)) in
    with_index s (foldl (unindex_key candidates) (index s) (RouteCandidates.keys candidates))
  end.

Definition entries_len (s : CacheState) : N := N.of_nat (size (entries s)).
Definition is_live (s : CacheState) (r : RouteCandidates * N) : bool :=
  match entries s !! r.1 with Some entry => ce_id entry =? r.2 | None => false end.

(** The [while] loop of [make_room]: pop from the front of the order. *)
Fixpoint evict (limit : N) (queue : list (RouteCandidates * N)) (s : CacheState) : CacheState :=
  if limit <=? entries_len s then
    match queue with
    | [] => with_order s []
    | r :: queue => evict limit queue (if is_live s r then remove_entry s r.1 else s)
    end
  else with_order s queue.

Definition purge (now : Instant) (s : CacheState) : CacheState :=
  let dead := (filter (λ x, ce_stale_until x.2 ≤ now) (map_to_list (entries s))).*1 in
  with_last_purge (foldl remove_entry s dead) (Some now).

Definition make_room (s : CacheState) (now : Instant) (config : CacheConfig) : CacheState :=
  if entries_len s <? max_entries config then s
  else
    let purge_due := match last_purge s with
                     | None => true
                     | Some last => negative_ttl config <=? duration_since now last
                     end in
    let s := if purge_due then purge now s else s in
    evict (max_entries config) (order s) s.
End CacheState.
Import CacheState.

Section Cache.
(** [jitter_seed.hash_one]. *)
Context (hash_one : N → N).
Context (config : CacheConfig).

Definition insert_entry (s : CacheState) (candidates : RouteCandidates) (hits : RouteHits)
    (now : Instant) : section CacheState :=
  if max_entries config =? 0 then Ok s
  else
    '(id, s) ← take_id s;
    let ttl := if is_empty hits then negative_ttl config else jittered hash_one (ttl config) (jitter config) id in
    expires ← later now ttl;
    stale_until ← later expires (default 0 (stale_if_error config));
    let s := match entries s !! candidates with
             | Some _ => s
             | None =>
               let s := make_room s now config in
               with_index s (foldl (index_key candidates) (index s) (RouteCandidates.keys candidates))
             end in
    let s := with_entries s (<[candidates := mkCacheEntry hits expires stale_until id]> (entries s)) in
    let s := with_order s (order s ++ [(candidates, id)]) in
    if (2 * max_entries config) `min` usize_max <? len (order s)
    then Ok (with_order s (List.filter (is_live s) (order s)))
    else Ok s.

(** Drops every entry [key] could have answered, and the in-flight slots. *)
Definition invalidate (s : CacheState) (key : RouteKey) : CacheState :=
  let affected := default ∅ (index s !! key) in
  let s := with_index s (delete key (index s)) in
  let s := foldl remove_entry s (elements affected) in
  with_inflight s (filter (λ x, RouteCandidates.contains x.1 key = false) (inflight s)).

Definition clear (s : CacheState) : CacheState :=
  mkCacheState ∅ ∅ [] ∅ (next_id s) (running_loads s) (last_purge s).

Definition cache_len (s : CacheState) : N := entries_len s.

(** Registers an in-flight load; the caller spawns it. *)
Definition start_load (s : CacheState) (candidates : RouteCandidates) : section (N * CacheState) :=
  '(id, s) ← take_id s;
  running ← uadd (running_loads s) 1;
  let s := with_running_loads s running in
  Ok (id, with_inflight s (<[candidates := id]> (inflight s))).

(** The critical section of [cached_lookup]: answer, wait for a load, or
    shed; with the event recorded. *)
Inductive Begin :=
| Served (hits : RouteHits) (event : CacheEvent)
| Waiting (load : N) (stale : option RouteHits) (event : CacheEvent)
| Shed (stale : option RouteHits).

Definition lookup_begin (s : CacheState) (candidates : RouteCandidates) (now : Instant) :
    section (CacheState * Begin) :=
  let fresh := entry ← entries s !! candidates;
               if now <? ce_expires entry then Some (ce_hits entry) else None in
  match fresh with
  | Some hits => Ok (s, Served hits (if is_empty hits then NegativeHit else Hit))
  | None =>
    let stale := entry ← entries s !! candidates;
                 if now <? ce_stale_until entry then Some (ce_hits entry) else None in
    match inflight s !! candidates with
    | Some load => Ok (s, Waiting load stale Coalesced)
    | None =>
      if max_inflight_loads config <=? running_loads s then Ok (s, Shed stale)
      else '(load, s) ← start_load s candidates; Ok (s, Waiting load stale Miss)
    end
  end.

(** What the lookup returns: at once, or after the load answered ([None]: its
    channel closed without an answer). *)
Definition shed (stale : option RouteHits) : LoadResult * list CacheEvent :=
  match stale with
  | Some stale => (Ok stale, [ShedEvent; StaleServed])
  | None => (Err (mkLookupError (lit "too many route loads in flight")), [ShedEvent])
  end.
Definition lookup_end (answer : option LoadResult) (stale : option RouteHits) :
    LoadResult * list CacheEvent :=
  match default (Err load_aborted) answer, stale with
  | Ok hits, _ => (Ok hits, [])
  | Err _, Some stale => (Ok stale, [StaleServed])
  | Err error, None => (Err error, [])
  | Stuck p, _ => (Stuck p, [])
  end.

(** The spawned load: the inner lookup, bounded by [load_timeout]. *)
Definition load_result `{RouteLookup L, Timeout} (inner : L) (candidates : RouteCandidates) : LoadResult :=
  default (Err (mkLookupError (lit "route load timed out")))
    (timeout (load_timeout config) (lookup inner candidates)).

(** [LoadGuard::finish] for the load [id] of [candidates]: called once, with
    the result, or with [load_aborted] when the load's task was dropped. *)
Definition finish (s : CacheState) (candidates : RouteCandidates) (id : N) (result : LoadResult)
    (now : Instant) : section CacheState :=
  running ← usub (running_loads s) 1;
  let s := with_running_loads s running in
  let owns_slot := match inflight s !! candidates with Some load => load =? id | None => false end in
  let s := if owns_slot then with_inflight s (delete candidates (inflight s)) else s in
  match result with
  | Ok hits => if owns_slot then insert_entry s candidates hits now else Ok s
  | _ =>
    match entries s !! candidates with
    | Some entry => if ce_stale_until entry <=? now then Ok (remove_entry s candidates) else Ok s
    | None => Ok s
    end
  end.
End Cache.
