(* ===== verification/CacheProofs.v ===== *)
(** * Invariants of the caching lookup, and what its answers mean *)

From S2P Require Import Prelude Async F64 Jitter Str Net Names Lookup Metrics Cache.
From Stdlib Require Import SpecFloat.
Import CacheState.

(** ** Instants *)
Lemma later_cases i d :
  later i d =
  if i + d <=? instant_max then Ok (i + d)
  else if i + century <=? instant_max then Ok (i + century) else Stuck SPanic.
Proof.
  unfold later, instant_add, instant_checked_add.
  destruct (i + d <=? instant_max); [done|]. by destruct (i + century <=? instant_max).
Qed.

(** ** Well-formed states

    The index lists exactly the entries, by each of their keys; the order lists
    every entry under its id; ids are fresh. *)
Definition index_wf (s : CacheState) : Prop :=
  (∀ k c, c ∈ default ∅ (index s !! k) ↔ is_Some (entries s !! c) ∧ k ∈ RouteCandidates.keys c) ∧
  (∀ k cs, index s !! k = Some cs → cs ≠ ∅).
Definition order_covers (s : CacheState) : Prop :=
  ∀ c e, entries s !! c = Some e → (c, ce_id e) ∈ order s.
Definition ids_fresh (s : CacheState) : Prop :=
  NoDup (order s).*2 ∧ Forall (λ r, r.2 < next_id s) (order s) ∧
  map_Forall (λ _ id, id < next_id s) (inflight s).
Record cache_wf (config : CacheConfig) (s : CacheState) : Prop := {
  wf_index : index_wf s;
  wf_order : order_covers s;
  wf_ids : ids_fresh s;
  wf_entries_len : entries_len s ≤ max_entries config;
  wf_order_len : len (order s) ≤ 2 * max_entries config;
}.

(** What critical sections other than loads leave alone. *)
Definition same_loads (s s' : CacheState) : Prop :=
  inflight s' = inflight s ∧ running_loads s' = running_loads s ∧ next_id s' = next_id s.

(** ** The index *)
Lemma unindex_keys_elem c ks idx k c' :
  c' ∈ default ∅ (foldl (unindex_key c) idx ks !! k) ↔
  c' ∈ default ∅ (idx !! k) ∧ ¬ (c' = c ∧ k ∈ ks).
Proof.
  revert idx. induction ks as [|k0 ks IH]; intros idx; simpl; [set_solver|].
  rewrite IH. unfold unindex_key.
  assert (∀ P : Prop, (c' ∈ default ∅ (idx !! k) → ¬ (c' = c ∧ k = k0) → P) →
    (P → c' ∈ default ∅ (idx !! k) ∧ ¬ (c' = c ∧ k = k0)) →
    P ∧ ¬ (c' = c ∧ k ∈ ks) ↔ c' ∈ default ∅ (idx !! k) ∧ ¬ (c' = c ∧ k ∈ k0 :: ks)) as Hgoal.
  { intros P H1 H2. rewrite elem_of_cons. split; [intros [HP Hn]; apply H2 in HP; naive_solver|].
    intros [Hin Hn]. split; [apply H1; naive_solver|naive_solver]. }
  destruct (idx !! k0) as [cs|] eqn:Hk0.
  - destruct (decide (cs ∖ {[c]} = ∅)) as [He|He]; apply Hgoal.
    + intros Hin Hn. destruct (decide (k = k0)) as [->|Hne]; [|by rewrite lookup_delete_ne].
      rewrite Hk0 in Hin. simpl in Hin. exfalso. assert (c' ∈ cs ∖ {[c]}) by set_solver. set_solver.
    + destruct (decide (k = k0)) as [->|Hne]; [rewrite lookup_delete_eq; set_solver|].
      rewrite lookup_delete_ne by done. naive_solver.
    + intros Hin Hn. destruct (decide (k = k0)) as [->|Hne]; [|by rewrite lookup_insert_ne].
      rewrite lookup_insert_eq. rewrite Hk0 in Hin. simpl in *. set_solver.
    + destruct (decide (k = k0)) as [->|Hne].
      * rewrite lookup_insert_eq, Hk0. simpl. set_solver.
      * rewrite lookup_insert_ne by done. naive_solver.
  - apply Hgoal; [done|]. intros Hin. split; [done|]. intros [-> ->]. rewrite Hk0 in Hin. set_solver.
Qed.
Lemma unindex_keys_nonempty c ks idx :
  (∀ k cs, idx !! k = Some cs → cs ≠ ∅) →
  ∀ k cs, foldl (unindex_key c) idx ks !! k = Some cs → cs ≠ ∅.
Proof.
  revert idx. induction ks as [|k0 ks IH]; intros idx Hne; simpl; [done|].
  apply IH. unfold unindex_key. intros k cs. destruct (idx !! k0) as [cs0|]; [|by apply Hne].
  destruct (decide _).
  - intros [_ H]%lookup_delete_Some. by eapply Hne.
  - intros [[_ <-]|[_ H]]%lookup_insert_Some; [done|by eapply Hne].
Qed.
Lemma index_keys_elem c ks idx k c' :
  c' ∈ default ∅ (foldl (index_key c) idx ks !! k) ↔
  c' ∈ default ∅ (idx !! k) ∨ (c' = c ∧ k ∈ ks).
Proof.
  revert idx. induction ks as [|k0 ks IH]; intros idx; simpl; [set_solver|].
  rewrite IH. unfold index_key. rewrite elem_of_cons.
  destruct (decide (k = k0)) as [->|Hne].
  - rewrite lookup_insert_eq. simpl. rewrite elem_of_union, elem_of_singleton. naive_solver.
  - rewrite lookup_insert_ne by done. naive_solver.
Qed.
Lemma index_keys_nonempty c ks idx :
  (∀ k cs, idx !! k = Some cs → cs ≠ ∅) →
  ∀ k cs, foldl (index_key c) idx ks !! k = Some cs → cs ≠ ∅.
Proof.
  revert idx. induction ks as [|k0 ks IH]; intros idx Hne; simpl; [done|].
  apply IH. unfold index_key. intros k cs [[_ <-]|[_ H]]%lookup_insert_Some; [set_solver|by eapply Hne].
Qed.

(** ** Removing entries *)
Lemma remove_entry_entries s c : entries (remove_entry s c) = delete c (entries s).
Proof.
  unfold remove_entry. destruct (entries s !! c) eqn:Hc; [done|]. by rewrite delete_id.
Qed.
Lemma remove_entry_index s c k c' :
  c' ∈ default ∅ (index (remove_entry s c) !! k) ↔
  c' ∈ default ∅ (index s !! k) ∧ ¬ (c' = c ∧ is_Some (entries s !! c) ∧ k ∈ RouteCandidates.keys c).
Proof.
  unfold remove_entry. destruct (entries s !! c) as [e|] eqn:Hc.
  - cbn [index with_index with_entries]. rewrite unindex_keys_elem. naive_solver.
  - split; [|naive_solver]. intros. split; [done|]. by intros (_ & [? ?] & _).
Qed.
Lemma remove_entry_frame s c :
  same_loads s (remove_entry s c) ∧ order (remove_entry s c) = order s ∧
  last_purge (remove_entry s c) = last_purge s.
Proof. unfold remove_entry, same_loads. by destruct (entries s !! c). Qed.
Lemma remove_entry_nonempty s c :
  (∀ k cs, index s !! k = Some cs → cs ≠ ∅) → ∀ k cs, index (remove_entry s c) !! k = Some cs → cs ≠ ∅.
Proof.
  unfold remove_entry. destruct (entries s !! c); [|done]. intros Hne. by apply unindex_keys_nonempty.
Qed.

Lemma remove_entries_spec s l :
  let s' := foldl remove_entry s l in
  (∀ c, entries s' !! c = if decide (c ∈ l) then None else entries s !! c) ∧
  (∀ k c, c ∈ default ∅ (index s' !! k) ↔
     c ∈ default ∅ (index s !! k) ∧ ¬ (c ∈ l ∧ is_Some (entries s !! c) ∧ k ∈ RouteCandidates.keys c)) ∧
  ((∀ k cs, index s !! k = Some cs → cs ≠ ∅) → ∀ k cs, index s' !! k = Some cs → cs ≠ ∅) ∧
  same_loads s s' ∧ order s' = order s ∧ last_purge s' = last_purge s.
Proof.
  revert s. induction l as [|c0 l IH]; intros s; simpl.
  { split_and!; try done. intros k c. set_solver. }
  destruct (IH (remove_entry s c0)) as (He & Hi & Hn & Hl & Ho & Hp).
  destruct (remove_entry_frame s c0) as ((? & ? & ?) & Ho0 & Hp0). destruct Hl as (? & ? & ?).
  split_and!; try congruence.
  - intros c. rewrite He, remove_entry_entries.
    destruct (decide (c ∈ l)), (decide (c ∈ c0 :: l)) as [Hin|Hin]; try done.
    + exfalso. apply Hin. by right.
    + apply elem_of_cons in Hin as [->|]; [apply lookup_delete_eq|done].
    + rewrite lookup_delete_ne; [done|]. intros ->. apply Hin. left.
  - intros k c. rewrite Hi, remove_entry_index, remove_entry_entries, elem_of_cons.
    destruct (decide (c = c0)) as [->|Hne].
    + rewrite lookup_delete_eq. split; [|naive_solver]. intros [[Hin1 Hin2] _]. split; [done|]. naive_solver.
    + rewrite lookup_delete_ne by done. naive_solver.
  - intros Hne. apply Hn. by apply remove_entry_nonempty.
  - unfold same_loads. split_and!; congruence.
Qed.

Lemma remove_entries_index_wf s l : index_wf s → index_wf (foldl remove_entry s l).
Proof.
  intros [Hi Hn]. destruct (remove_entries_spec s l) as (He & Hi' & Hn' & _). split; [|by apply Hn'].
  intros k c. rewrite Hi', Hi, He. destruct (decide (c ∈ l)); [|naive_solver].
  split; [naive_solver|]. by intros [[? ?] _].
Qed.
Lemma remove_entries_order s l : order_covers s → order_covers (foldl remove_entry s l).
Proof.
  intros Ho. destruct (remove_entries_spec s l) as (He & _ & _ & _ & Ho' & _).
  intros c e. rewrite He, Ho'. destruct (decide (c ∈ l)); [done|]. apply Ho.
Qed.

(** ** Making room *)
Lemma with_order_id s : with_order s (order s) = s.
Proof. by destruct s. Qed.
Lemma is_live_spec s r : is_live s r = true ↔ ∃ e, entries s !! r.1 = Some e ∧ ce_id e = r.2.
Proof.
  unfold is_live. destruct (entries s !! r.1) as [e|]; [|naive_solver]. rewrite N.eqb_eq. naive_solver.
Qed.

(** The eviction loop ends with a free slot, because the queue covers every
    entry. *)
Definition queue_covers (queue : list (RouteCandidates * N)) (s : CacheState) : Prop :=
  ∀ c e, entries s !! c = Some e → (c, ce_id e) ∈ queue.
Lemma evict_spec limit queue s :
  1 ≤ limit → index_wf s → queue_covers queue s →
  let s' := evict limit queue s in
  index_wf s' ∧ order_covers s' ∧ entries_len s' < limit ∧ entries s' ⊆ entries s ∧
  (∃ popped, queue = popped ++ order s') ∧ same_loads s s'.
Proof.
  intros Hl. revert s. induction queue as [|r queue IH]; intros s Hi Hq; cbn [evict].
  - assert (entries s = ∅) as He.
    { apply map_empty. intros c. destruct (entries s !! c) as [e|] eqn:Hc; [|done].
      by apply Hq in Hc as ?%elem_of_nil. }
    unfold entries_len. rewrite He, map_size_empty.
    destruct (N.leb_spec limit (N.of_nat 0)); [lia|]. cbn [entries order with_order].
    split_and!; try done; [rewrite He, map_size_empty; lia|by rewrite He|by exists []].
  - destruct (N.leb_spec limit (entries_len s)) as [Hfull|Hroom].
    2: { split_and!; try done. by exists []. }
    set (s1 := if is_live s r then remove_entry s r.1 else s).
    assert (s1 = foldl remove_entry s (if is_live s r then [r.1] else [])) as Hs1
      by (unfold s1; by destruct (is_live s r)).
    destruct (remove_entries_spec s (if is_live s r then [r.1] else []))
      as (He & _ & _ & Hloads & _). rewrite <- Hs1 in He, Hloads.
    assert (entries s1 ⊆ entries s) as Hsub.
    { apply map_subseteq_spec. intros c e. rewrite He. by destruct (decide _). }
    destruct (IH s1) as (H1 & H2 & H3 & H4 & (popped & H5) & H6).
    + rewrite Hs1. by apply remove_entries_index_wf.
    + intros c e Hc. pose proof (lookup_weaken _ _ _ _ Hc Hsub) as Hc'.
      pose proof (Hq _ _ Hc') as [<-|]%elem_of_cons; [|done]. exfalso.
      rewrite He in Hc. cbn [fst] in *.
      destruct (decide (c ∈ _)) as [|Hn]; [done|]. apply Hn.
      assert (is_live s (c, ce_id e) = true) as -> by (apply is_live_spec; by exists e). left.
    + split_and!; [done|done|done|by etransitivity|exists (r :: popped); cbn [app]; by rewrite <- H5|].
      destruct H6 as (? & ? & ?), Hloads as (? & ? & ?). unfold same_loads. split_and!; congruence.
Qed.

Lemma purge_spec now s :
  index_wf s → order_covers s →
  let s' := purge now s in
  index_wf s' ∧ order_covers s' ∧ entries s' ⊆ entries s ∧ order s' = order s ∧ same_loads s s'.
Proof.
  intros Hi Ho. unfold purge. set (dead := (filter _ _).*1). cbn [entries index order with_last_purge].
  destruct (remove_entries_spec s dead) as (He & _ & _ & Hl & Ho' & _).
  split_and!; try done.
  - by apply (remove_entries_index_wf s dead).
  - by apply (remove_entries_order s dead).
  - apply map_subseteq_spec. intros c e. cbn [entries]. rewrite He. by destruct (decide _).
Qed.

Lemma make_room_spec s now config :
  1 ≤ max_entries config → index_wf s → order_covers s →
  let s' := make_room s now config in
  index_wf s' ∧ order_covers s' ∧ entries_len s' < max_entries config ∧ entries s' ⊆ entries s ∧
  (∃ popped, order s = popped ++ order s') ∧ same_loads s s'.
Proof.
  intros H1 Hi Ho. unfold make_room. destruct (N.ltb_spec (entries_len s) (max_entries config)).
  { split_and!; try done. by exists []. }
  set (due := match last_purge s with None => true | Some last => _ end).
  set (s1 := if due then purge now s else s).
  assert (index_wf s1 ∧ order_covers s1 ∧ entries s1 ⊆ entries s ∧ order s1 = order s ∧ same_loads s s1)
    as (Hi1 & Ho1 & Hsub & Horder & Hl1).
  { unfold s1. destruct due; [by apply purge_spec|done]. }
  destruct (evict_spec (max_entries config) (order s1) s1 H1 Hi1 Ho1) as (E1 & E2 & E3 & E4 & E5 & E6).
  split_and!; [done|done|done|by etransitivity|by rewrite <- Horder|].
  destruct E6 as (? & ? & ?), Hl1 as (? & ? & ?). unfold same_loads. split_and!; congruence.
Qed.

(** ** Every critical section preserves well-formedness *)
Definition config_ok (config : CacheConfig) : Prop := 2 * max_entries config ≤ usize_max.

(** Records for distinct entries are at most as many as the entries. *)
Lemma live_records_len s queue :
  NoDup queue.*2 → len (List.filter (is_live s) queue) ≤ entries_len s.
Proof.
  intros Hnd. set (live := List.filter (is_live s) queue).
  assert (∀ r, r ∈ live → r ∈ queue ∧ ∃ e, entries s !! r.1 = Some e ∧ ce_id e = r.2) as Hlive.
  { intros r Hr%list_elem_of_In%filter_In. rewrite <- list_elem_of_In, is_live_spec in Hr. done. }
  assert (NoDup live.*2) as Hnd2.
  { unfold live. clear Hlive. induction queue as [|r queue IH]; [done|].
    apply NoDup_cons in Hnd as [Hr Hnd]. simpl. destruct (is_live s r); [|by apply IH].
    apply NoDup_cons. split; [|by apply IH]. intros Hin. apply Hr. apply list_elem_of_fmap in Hin as (r' & Heq & Hr').
    apply list_elem_of_fmap. exists r'. split; [done|]. by apply list_elem_of_In, filter_In, proj1, list_elem_of_In in Hr'. }
  assert (NoDup live.*1) as Hnd1.
  { apply NoDup_fmap_fst; [|by eapply NoDup_fmap_1].
    intros c id id' H1 H2. destruct (Hlive _ H1) as (_ & e & He & Hid), (Hlive _ H2) as (_ & e' & He' & Hid').
    simpl in *. congruence. }
  unfold len, entries_len. rewrite <- (length_fmap fst live).
  assert (size (list_to_set live.*1 : gset RouteCandidates) ≤ size (dom (entries s)))%nat as Hs.
  { apply subseteq_size. intros c Hc. apply elem_of_list_to_set, list_elem_of_fmap in Hc as (r & -> & Hr).
    destruct (Hlive _ Hr) as (_ & e & He & _). apply elem_of_dom. eauto. }
  rewrite size_list_to_set, size_dom in Hs by done. lia.
Qed.

Lemma order_covers_filter s :
  order_covers s → order_covers (with_order s (List.filter (is_live s) (order s))).
Proof.
  intros Ho c e Hc. cbn [entries order with_order] in *. apply list_elem_of_In, filter_In.
  split; [by apply list_elem_of_In, Ho|]. apply is_live_spec. by exists e.
Qed.
Lemma filter_sublist_ids s queue next :
  NoDup queue.*2 → Forall (λ r : RouteCandidates * N, r.2 < next) queue →
  NoDup (List.filter (is_live s) queue).*2 ∧ Forall (λ r, r.2 < next) (List.filter (is_live s) queue).
Proof.
  intros Hnd Hf. induction queue as [|r queue IH]; [done|].
  apply NoDup_cons in Hnd as [Hr Hnd]. apply Forall_cons in Hf as [Hr' Hf].
  destruct (IH Hnd Hf) as [H1 H2]. simpl. destruct (is_live s r); [|done].
  split; [|by constructor]. apply NoDup_cons. split; [|done]. intros Hin. apply Hr.
  apply list_elem_of_fmap in Hin as (r' & Heq & Hin). apply list_elem_of_fmap. exists r'. split; [done|].
  by apply list_elem_of_In, filter_In, proj1, list_elem_of_In in Hin.
Qed.

Section Preserve.
Context (hash_one : N → N) (config : CacheConfig).
Hypothesis Hconfig : config_ok config.

(** The state an entry goes into: room was made unless it is replaced. *)
Definition prepared (s : CacheState) (c : RouteCandidates) (now : Instant) : CacheState :=
  match entries s !! c with
  | Some _ => s
  | None =>
    let s := make_room s now config in
    with_index s (foldl (index_key c) (index s) (RouteCandidates.keys c))
  end.

Lemma prepared_spec s c now :
  1 ≤ max_entries config → index_wf s → order_covers s → entries_len s ≤ max_entries config →
  let s' := prepared s c now in
  (∀ k c', c' ∈ default ∅ (index s' !! k) ↔
     (is_Some (entries s' !! c') ∨ c' = c) ∧ k ∈ RouteCandidates.keys c') ∧
  (∀ k cs, index s' !! k = Some cs → cs ≠ ∅) ∧
  order_covers s' ∧ entries s' ⊆ entries s ∧
  (entries_len s' < max_entries config ∨ is_Some (entries s' !! c) ∧ entries_len s' ≤ max_entries config) ∧
  (∃ popped, order s = popped ++ order s') ∧ same_loads s s'.
Proof.
  intros H1 Hi Ho Hl. unfold prepared. destruct (entries s !! c) as [e|] eqn:Hc.
  - destruct Hi as [Hi Hn]. split_and!; try done.
    + intros k c'. rewrite Hi. split; [naive_solver|]. intros [[?| ->] ?]; [done|]. rewrite Hc. eauto.
    + right. rewrite Hc. eauto.
    + by exists [].
  - destruct (make_room_spec s now config H1 Hi Ho) as ([Hi' Hn'] & Ho' & Hl' & Hsub & Hpop & Hloads).
    split_and!; try done.
    + intros k c'. cbn [index with_index entries]. rewrite index_keys_elem, Hi'. naive_solver.
    + by apply index_keys_nonempty.
    + by left.
Qed.

(** The TTL of an entry, by the id it gets. *)
Definition entry_ttl (hits : RouteHits) (id : N) : Duration :=
  if is_empty hits then negative_ttl config else jittered hash_one (ttl config) (jitter config) id.
(** An entry made of a load's answer: how long it is fresh, and stale. *)
Definition made_of (hits : RouteHits) (now : Instant) (e : CacheEntry) : Prop :=
  ce_hits e = hits ∧ later now (entry_ttl hits (ce_id e)) = Ok (ce_expires e) ∧
  later (ce_expires e) (default 0 (stale_if_error config)) = Ok (ce_stale_until e).

(** What [insert_entry] computes, when it does not panic. *)
Lemma insert_entry_cases s c hits now s' :
  insert_entry hash_one config s c hits now = Ok s' →
  (max_entries config = 0 ∧ s' = s) ∨
  (1 ≤ max_entries config ∧ ∃ e, made_of hits now e ∧ ce_id e = next_id s ∧
    let s1 := prepared (with_next_id s (next_id s + 1)) c now in
    let s2 := with_order (with_entries s1 (<[c := e]> (entries s1))) (order s1 ++ [(c, ce_id e)]) in
    s' = if 2 * max_entries config <? len (order s2)
         then with_order s2 (List.filter (is_live s2) (order s2)) else s2).
Proof.
  unfold insert_entry. destruct (N.eqb_spec (max_entries config) 0) as [H0|H0].
  { intros [= <-]. by left. }
  intros ([id s1] & Hid & H)%bind_Ok. unfold take_id in Hid.
  apply bind_Ok in Hid as (n & Hn & [= <- <-]).
  assert (n = next_id s + 1) as ->.
  { unfold uadd in Hn. destruct (N.leb_spec (next_id s + 1) usize_max); congruence. }
  apply bind_Ok in H as (expires & He & (stale & Hst & H)%bind_Ok).
  right. split; [lia|]. exists (mkCacheEntry hits expires stale (next_id s)).
  split; [by split_and!|]. split; [done|]. cbn [ce_id].
  rewrite N.min_l in H by done. revert H. fold (prepared (with_next_id s (next_id s + 1)) c now).
  destruct (2 * max_entries config <? _); by intros [= <-].
Qed.

(** The records after a new one, with a fresh id. *)
Lemma order_snoc_ids (popped kept : list (RouteCandidates * N)) c n :
  NoDup (popped ++ kept).*2 → Forall (λ r, r.2 < n) (popped ++ kept) →
  NoDup (kept ++ [(c, n)]).*2 ∧ Forall (λ r, r.2 < n + 1) (kept ++ [(c, n)]).
Proof.
  rewrite fmap_app. intros (_ & _ & Hnd)%NoDup_app [_ Hf]%Forall_app. rewrite fmap_app. split.
  - apply NoDup_app. split; [done|]. split; [|apply NoDup_singleton].
    intros id Hin ->%list_elem_of_singleton. apply list_elem_of_fmap in Hin as (r & Heq & Hin).
    rewrite Forall_forall in Hf. specialize (Hf r Hin). cbn in *. lia.
  - apply Forall_app. split; [eapply Forall_impl; [done|]; simpl; lia|]. constructor; [simpl; lia|done].
Qed.

Lemma insert_size_le `{Countable K} {A} (m : gmap K A) k x n :
  N.of_nat (size m) < n ∨ is_Some (m !! k) ∧ N.of_nat (size m) ≤ n → N.of_nat (size (<[k:=x]> m)) ≤ n.
Proof.
  intros [Hlt|[[y Hy] Hle]]; [|by erewrite map_size_insert_Some].
  destruct (m !! k) eqn:Hk; [erewrite map_size_insert_Some by done|rewrite map_size_insert_None by done]; lia.
Qed.
Lemma insert_entry_wf s c hits now s' :
  cache_wf config s → insert_entry hash_one config s c hits now = Ok s' →
  cache_wf config s' ∧ inflight s' = inflight s ∧ running_loads s' = running_loads s ∧
  next_id s ≤ next_id s' ∧
  (∀ c' e, entries s' !! c' = Some e → c' ≠ c ∧ entries s !! c' = Some e ∨ c' = c ∧ made_of hits now e).
Proof.
  intros [Hi Ho (Hnd & Hf & Hinf) Hl Hlo] [[H0 ->]|(H1 & e & Hh & Hid & Hs')]%insert_entry_cases.
  { split; [done|]. split_and!; try done. intros c' e Hc. exfalso.
    assert (entries s = ∅) as He by (apply map_size_empty_inv; unfold entries_len in Hl; lia).
    by rewrite He in Hc. }
  cbv zeta in Hs'. set (s0 := with_next_id s (next_id s + 1)) in *.
  destruct (prepared_spec s0 c now H1 Hi Ho Hl) as (P1 & P2 & P3 & P4 & P5 & (popped & P6) & (P7 & P8 & P9)).
  set (s1 := prepared s0 c now) in *. cbn [order s0 with_next_id] in P6.
  cbn [inflight running_loads next_id s0 with_next_id] in P7, P8, P9.
  set (s2 := with_order (with_entries s1 (<[c:=e]> (entries s1))) (order s1 ++ [(c, ce_id e)])) in *.
  rewrite P6 in Hnd, Hf, Hlo.
  destruct (order_snoc_ids popped (order s1) c (next_id s) Hnd Hf) as [Hnd2 Hf2]. rewrite <- Hid in Hnd2, Hf2 at 1.
  change (order s1 ++ [(c, ce_id e)]) with (order s2) in Hnd2, Hf2. rewrite len_app in Hlo.
  assert (order_covers s2) as Ho2.
  { intros c' e'. unfold s2. cbn [entries order with_entries with_order].
    intros [[<- <-]|[Hne Hc']]%lookup_insert_Some; [set_solver|]. apply P3 in Hc'. set_solver. }
  assert (index_wf s2) as Hi2.
  { split; [|done]. intros k c'. unfold s2. cbn [index entries with_entries with_order]. rewrite P1.
    destruct (decide (c' = c)) as [->|Hne]; [rewrite lookup_insert_eq; naive_solver|].
    rewrite lookup_insert_ne by done. naive_solver. }
  assert (entries_len s2 ≤ max_entries config) as Hl2.
  { unfold s2, entries_len in *. cbn [entries with_entries with_order]. by apply insert_size_le. }
  assert (∀ c' e', entries s2 !! c' = Some e' →
    c' ≠ c ∧ entries s !! c' = Some e' ∨ c' = c ∧ made_of hits now e') as He2.
  { intros c' e'. unfold s2. cbn [entries with_entries with_order].
    intros [[<- <-]|[Hne Hc']]%lookup_insert_Some; [by right|]. left. split; [done|].
    by apply (lookup_weaken _ _ _ _ Hc' P4). }
  assert (inflight s2 = inflight s ∧ running_loads s2 = running_loads s ∧ next_id s2 = next_id s + 1)
    as (F1 & F2 & F3) by done.
  assert (map_Forall (λ _ id, id < next_id s + 1) (inflight s)) as Hinf2.
  { eapply map_Forall_impl; [exact Hinf|]. simpl. lia. }
  clearbody s2. destruct (N.ltb_spec (2 * max_entries config) (len (order s2))) as [Hlong|Hshort]; subst s'.
  - cbn [inflight running_loads next_id entries with_order]. rewrite F1, F2, F3.
    split; [|split_and!; [done|done|lia|done]].
    destruct (filter_sublist_ids s2 (order s2) _ Hnd2 Hf2) as [Hnd3 Hf3].
    split; [done|by apply order_covers_filter| |done|].
    + split_and!; cbn [order inflight next_id with_order]; [done|by rewrite F3|by rewrite F1, F3].
    + cbn [order with_order]. pose proof (live_records_len s2 (order s2) Hnd2). lia.
  - rewrite F1, F2, F3. split; [|split_and!; [done|done|lia|done]].
    split; try done. split_and!; [done|by rewrite F3|by rewrite F1, F3].
Qed.
End Preserve.

(** ** The cache as a transition system

    Critical sections run one at a time (the mutex), in any order.  The ghost
    state counts them: when each load was started, when each key was last
    invalidated (or everything cleared), and the start of the load each entry
    came from. *)
Record World := mkWorld {
  w_state : CacheState;
  w_loads : gmap N (RouteCandidates * N);
  w_tick : N;
  w_inval : RouteKey → N;
  w_from : gmap RouteCandidates N;
}.
Definition succeeded (result : LoadResult) : bool := match result with Ok _ => true | _ => false end.
(** The entry is past its stale window. *)
Definition entry_dead (s : CacheState) (c : RouteCandidates) (now : Instant) : bool :=
  match entries s !! c with Some e => ce_stale_until e <=? now | None => false end.
Definition w_init : World := mkWorld CacheState.empty ∅ 1 (λ _, 0) ∅.

Section World.
Context (hash_one : N → N) (config : CacheConfig).
(** [answers start c hits]: a load of [c] started at [start] may answer [hits]. *)
Context (answers : N → RouteCandidates → RouteHits → Prop).

Inductive step (w : World) : World → Prop :=
| step_begin c now s' load stale event :
  lookup_begin config (w_state w) c now = Ok (s', Waiting load stale event) →
  step w (mkWorld s' (if decide (event = Miss) then <[load := (c, w_tick w)]> (w_loads w) else w_loads w)
            (w_tick w + 1) (w_inval w) (w_from w))
| step_finish id c start result now s' :
  w_loads w !! id = Some (c, start) →
  (∀ hits, result = Ok hits → answers start c hits) →
  finish hash_one config (w_state w) c id result now = Ok s' →
  step w (mkWorld s' (delete id (w_loads w)) (w_tick w + 1) (w_inval w)
            (if decide (inflight (w_state w) !! c = Some id ∧ succeeded result = true)
             then <[c := start]> (w_from w) else w_from w))
| step_invalidate key :
  step w (mkWorld (invalidate (w_state w) key) (w_loads w) (w_tick w + 1)
            (λ k, if decide (k = key) then w_tick w else w_inval w k) (w_from w))
| step_clear :
  step w (mkWorld (clear (w_state w)) (w_loads w) (w_tick w + 1) (λ _, w_tick w) (w_from w)).

Inductive reachable : World → Prop :=
| reachable_init : reachable w_init
| reachable_step w w' : reachable w → step w w' → reachable w'.

(** A load or entry of [c] that no later invalidation concerns. *)
Definition current (w : World) (c : RouteCandidates) (start : N) : Prop :=
  start < w_tick w ∧ ∀ k, k ∈ RouteCandidates.keys c → w_inval w k < start.

Record world_wf (w : World) : Prop := {
  ww_cache : cache_wf config (w_state w);
  ww_running : running_loads (w_state w) = N.of_nat (size (w_loads w));
  ww_bound : running_loads (w_state w) ≤ max_inflight_loads config;
  ww_ids : map_Forall (λ id _, id < next_id (w_state w)) (w_loads w);
  ww_ticks : (∀ k, w_inval w k < w_tick w) ∧ map_Forall (λ _ l, l.2 < w_tick w) (w_loads w);
  ww_inflight : ∀ c id, inflight (w_state w) !! c = Some id →
    ∃ start, w_loads w !! id = Some (c, start) ∧ current w c start;
  ww_entries : ∀ c e, entries (w_state w) !! c = Some e →
    ∃ start, w_from w !! c = Some start ∧ current w c start ∧ answers start c (ce_hits e);
}.

Lemma lookup_begin_cases s c now s' r :
  lookup_begin config s c now = Ok (s', r) →
  match r with
  | Served hits event => s' = s ∧ (∃ e, entries s !! c = Some e ∧ ce_hits e = hits ∧ now < ce_expires e) ∧
      event = (if is_empty hits then NegativeHit else Hit)
  | Waiting load stale event =>
    (∀ hits, stale = Some hits → ∃ e, entries s !! c = Some e ∧ ce_hits e = hits ∧ now < ce_stale_until e) ∧
    (event = Coalesced ∧ s' = s ∧ inflight s !! c = Some load ∨
     event = Miss ∧ inflight s !! c = None ∧ running_loads s < max_inflight_loads config ∧
     load = next_id s ∧ entries s' = entries s ∧ index s' = index s ∧ order s' = order s ∧
     inflight s' = <[c := load]> (inflight s) ∧ next_id s' = next_id s + 1 ∧
     running_loads s' = running_loads s + 1)
  | Shed stale => s' = s ∧ inflight s !! c = None ∧ max_inflight_loads config ≤ running_loads s ∧
    (∀ hits, stale = Some hits → ∃ e, entries s !! c = Some e ∧ ce_hits e = hits ∧ now < ce_stale_until e)
  end.
Proof.
  unfold lookup_begin.
  set (stale := entry ← entries s !! c; if now <? ce_stale_until entry then Some (ce_hits entry) else None).
  assert (∀ hits, stale = Some hits →
    ∃ e, entries s !! c = Some e ∧ ce_hits e = hits ∧ now < ce_stale_until e) as Hstale.
  { intros hits (e & He & H)%bind_Some. exists e.
    destruct (N.ltb_spec now (ce_stale_until e)); simplify_eq; eauto. }
  destruct (entry ← entries s !! c; if now <? ce_expires entry then Some (ce_hits entry) else None)
    as [hits|] eqn:Hfresh.
  { intros [= <- <-]. split_and!; [done| |done]. apply bind_Some in Hfresh as (e & He & H). exists e.
    destruct (N.ltb_spec now (ce_expires e)); simplify_eq; eauto. }
  destruct (inflight s !! c) as [load|] eqn:Hin; [intros [= <- <-]; eauto|].
  destruct (N.leb_spec (max_inflight_loads config) (running_loads s)); [by intros [= <- <-]|].
  intros ([load s1] & Hs & [= <- <-])%bind_Ok. split; [done|]. right.
  unfold start_load, take_id, uadd in Hs.
  destruct (next_id s + 1 <=? usize_max); [|done]. cbn [mbind res_bind running_loads with_next_id] in Hs.
  destruct (running_loads s + 1 <=? usize_max); [|done]. injection Hs as <- <-. done.
Qed.

Lemma finish_cases s c id result now s' :
  finish hash_one config s c id result now = Ok s' →
  1 ≤ running_loads s ∧
  let owns := bool_decide (inflight s !! c = Some id) in
  let s1 := with_running_loads s (running_loads s - 1) in
  let s2 := if owns then with_inflight s1 (delete c (inflight s)) else s1 in
  match result with
  | Ok hits => if owns then insert_entry hash_one config s2 c hits now = Ok s' else s' = s2
  | _ => s' = foldl remove_entry s2
           (if entry_dead s c now then [c] else [])
  end.
Proof.
  unfold finish, usub. destruct (N.leb_spec 1 (running_loads s)) as [Hr|]; [|done]. res_simpl.
  intros H. split; [done|].
  assert ((match inflight s !! c with Some load => load =? id | None => false end)
    = bool_decide (inflight s !! c = Some id)) as Howns.
  { destruct (inflight s !! c) as [load|]; [|done]. destruct (N.eqb_spec load id).
    - rewrite bool_decide_eq_true_2; congruence.
    - rewrite bool_decide_eq_false_2; congruence. }
  cbn [inflight with_running_loads] in H. rewrite Howns in H. cbv zeta.
  set (s2 := if bool_decide _ then _ else _) in *.
  assert (entries s2 = entries s) as He by (unfold s2; by destruct (bool_decide _)).
  assert (match entries s2 !! c with
    | Some entry => if ce_stale_until entry <=? now then Ok (remove_entry s2 c) else Ok s2
    | None => Ok s2 end = Ok (E := Empty_set) (foldl remove_entry s2
      (if entry_dead s c now then [c] else []))) as Hrem.
  { rewrite He. unfold entry_dead. destruct (entries s !! c) as [e|]; [|done].
    by destruct (ce_stale_until e <=? now). }
  destruct result as [hits| |]; [|by rewrite Hrem in H; injection H|by rewrite Hrem in H; injection H].
  destruct (bool_decide _); [done|]. by injection H.
Qed.
End World.

(** ** The invariant of reachable worlds *)
Lemma cache_wf_empty config : cache_wf config CacheState.empty.
Proof.
  split.
  - split; [|by intros]. intros k c. cbn. rewrite lookup_empty. simpl. rewrite lookup_empty.
    split; [set_solver|]. by intros [[? ?] _].
  - by intros c e.
  - split_and!; [by apply NoDup_nil_2|done|by intros ?].
  - unfold entries_len. cbn [entries CacheState.empty]. rewrite map_size_empty. lia.
  - cbn [order CacheState.empty]. change (len (A := RouteCandidates * N) []) with 0. lia.
Qed.

(** Removing entries and slots, and starting loads, keep a state well formed. *)
Lemma cache_wf_remove config s l : cache_wf config s → cache_wf config (foldl remove_entry s l).
Proof.
  intros [Hi Ho (Hn & Hf & Hinf) Hl Hlo].
  destruct (remove_entries_spec s l) as (He & _ & _ & (Hin & _ & Hnext) & Hord & _). split.
  - by apply remove_entries_index_wf.
  - by apply remove_entries_order.
  - unfold ids_fresh. by rewrite Hord, Hin, Hnext.
  - unfold entries_len in *. assert (size (entries (foldl remove_entry s l)) ≤ size (entries s))%nat; [|lia].
    apply map_subseteq_size. apply map_subseteq_spec. intros c e. rewrite He. by destruct (decide _).
  - by rewrite Hord.
Qed.
Lemma cache_wf_loads config s s' :
  cache_wf config s → entries s' = entries s → index s' = index s → order s' = order s →
  next_id s ≤ next_id s' → map_Forall (λ _ id, id < next_id s') (inflight s') → cache_wf config s'.
Proof.
  intros [[Hi Hi2] Ho (Hn & Hf & _) Hl Hlo] He Hx Hord Hnext Hinf. split.
  - split; [intros k c; rewrite Hx, He; apply Hi|intros k cs; rewrite Hx; apply Hi2].
  - intros c e. rewrite He, Hord. apply Ho.
  - split_and!; [by rewrite Hord| |done]. rewrite Hord. eapply Forall_impl; [exact Hf|]. simpl. lia.
  - unfold entries_len in *. by rewrite He.
  - by rewrite Hord.
Qed.

Lemma invalidate_spec config s key :
  cache_wf config s →
  let s' := invalidate s key in
  cache_wf config s' ∧ running_loads s' = running_loads s ∧ next_id s' = next_id s ∧
  (∀ c e, entries s' !! c = Some e ↔ entries s !! c = Some e ∧ key ∉ RouteCandidates.keys c) ∧
  (∀ c id, inflight s' !! c = Some id ↔ inflight s !! c = Some id ∧ key ∉ RouteCandidates.keys c).
Proof.
  intros [[Hi Hi2] Ho (Hn & Hf & Hinf) Hl Hlo]. unfold invalidate.
  set (affected := default ∅ (index s !! key)).
  set (s0 := with_index s (delete key (index s))).
  destruct (remove_entries_spec s0 (elements affected)) as (He & Hx & Hx2 & (Hin & Hr & Hnext) & Hord & _).
  set (s1 := foldl remove_entry s0 (elements affected)) in *.
  assert (∀ c e, entries s1 !! c = Some e ↔ entries s !! c = Some e ∧ key ∉ RouteCandidates.keys c) as Hents.
  { intros c e. rewrite He. change (entries s0) with (entries s).
    destruct (decide (c ∈ elements affected)) as [Hc|Hc].
    - apply elem_of_elements, Hi in Hc as [_ Hk]. naive_solver.
    - split; [|naive_solver]. intros Hc'. split; [done|]. intros Hk. apply Hc, elem_of_elements, Hi. eauto. }
  cbn [entries inflight running_loads next_id order index with_inflight].
  assert (∀ c id, filter (λ x, RouteCandidates.contains x.1 key = false) (inflight s1) !! c = Some id ↔
    inflight s !! c = Some id ∧ key ∉ RouteCandidates.keys c) as Hinfl.
  { intros c id. rewrite map_lookup_filter_Some, Hin. cbn [fst].
    rewrite <- contains_keys, not_true_iff_false. done. }
  split_and!; [|done..].
  assert (cache_wf config s1) as Hwf.
  { split.
    - split.
      + intros k c. rewrite Hx. change (entries s0) with (entries s). change (index s0) with (delete key (index s)).
        destruct (decide (k = key)) as [->|Hk].
        * rewrite lookup_delete_eq. cbn [default]. split; [set_solver|]. intros [[e Hc%Hents] Hk].
          by destruct Hc.
        * rewrite lookup_delete_ne by done. rewrite Hi. split.
          -- intros [[[e Hc] Hkc] Hna]. split; [|done]. exists e. apply Hents. split; [done|].
             intros Hkey. apply Hna. split_and!; [|by eexists|done]. apply elem_of_elements, Hi. eauto.
          -- intros [[e Hc%Hents] Hkc]. destruct Hc as [Hc Hkey]. split; [by eauto|].
             intros (Ha%elem_of_elements%Hi & _ & _). by apply Hkey, Ha.
      + apply Hx2. intros k cs H. unfold s0 in H. cbn [index with_index] in H.
        apply lookup_delete_Some in H as [_ H]. by eapply Hi2.
    - intros c e [Hc _]%Hents. rewrite Hord. by apply Ho.
    - unfold ids_fresh. rewrite Hord, Hin, Hnext. done.
    - unfold entries_len in *. assert (size (entries s1) ≤ size (entries s))%nat; [|lia].
      apply map_subseteq_size, map_subseteq_spec. by intros c e [Hc _]%Hents.
    - by rewrite Hord. }
  eapply cache_wf_loads; [exact Hwf|done|done|done|done|].
  intros c id [Hc _]%Hinfl. cbn [next_id with_inflight]. rewrite Hnext. by eapply Hinf.
Qed.

Lemma current_weaken w w' c start :
  current w c start → w_tick w ≤ w_tick w' → (∀ k, w_inval w' k = w_inval w k) → current w' c start.
Proof. intros [Ht Hk] Hle Hi. split; [lia|]. intros k Hin. rewrite Hi. by apply Hk. Qed.
Lemma current_invalidate w w' c start key :
  current w c start → w_tick w ≤ w_tick w' → key ∉ RouteCandidates.keys c →
  (∀ k, w_inval w' k = if decide (k = key) then w_tick w else w_inval w k) → current w' c start.
Proof.
  intros [Ht Hk] Hle Hc Hi. split; [lia|]. intros k Hin. rewrite Hi. destruct (decide (k = key)); [congruence|].
  by apply Hk.
Qed.

Section Reachable.
Context (hash_one : N → N) (config : CacheConfig).
Context (answers : N → RouteCandidates → RouteHits → Prop).
Hypothesis Hconfig : config_ok config.
Abbreviation step := (step hash_one config answers).
Abbreviation reachable := (reachable hash_one config answers).
Abbreviation world_wf := (world_wf config answers).

Lemma world_wf_init : world_wf w_init.
Proof.
  split; cbn [w_state w_loads w_tick w_inval w_from w_init].
  - apply cache_wf_empty.
  - by rewrite map_size_empty.
  - cbn. lia.
  - by intros ?.
  - split; [lia|by intros ?].
  - by intros c id.
  - by intros c e.
Qed.

Lemma world_wf_begin w c now s' load stale event :
  world_wf w → lookup_begin config (w_state w) c now = Ok (s', Waiting load stale event) →
  world_wf (mkWorld s' (if decide (event = Miss) then <[load := (c, w_tick w)]> (w_loads w) else w_loads w)
              (w_tick w + 1) (w_inval w) (w_from w)).
Proof.
  intros [Hc Hr Hb Hids [Ht1 Ht2] Hin Hen] (_ & Hcase)%lookup_begin_cases.
  set (w1 := mkWorld s' _ (w_tick w + 1) (w_inval w) (w_from w)).
  assert (∀ c start, current w c start → current w1 c start) as Hcur.
  { intros c' start H. eapply current_weaken; [exact H|simpl; lia|done]. }
  destruct Hcase as [(-> & -> & Hload)|(-> & Hnone & Hlt & -> & He & Hx & Ho & Hi & Hn & Hrun)];
    subst w1; cbn [w_state w_loads w_tick w_inval w_from].
  - rewrite decide_False by done. split; cbn [w_state w_loads w_tick w_inval w_from]; try done.
    + split; [intros k; specialize (Ht1 k); lia|]. eapply map_Forall_impl; [exact Ht2|]. simpl. lia.
    + intros c' id (start & H1 & H2)%Hin. exists start. split; [done|by apply Hcur].
    + intros c' e (start & H1 & H2 & H3)%Hen. exists start. split_and!; [done|by apply Hcur|done].
  - rewrite decide_True by done.
    assert (w_loads w !! next_id (w_state w) = None) as Hfresh.
    { destruct (w_loads w !! next_id (w_state w)) as [l|] eqn:Hl; [|done]. apply Hids in Hl. lia. }
    split; cbn [w_state w_loads w_tick w_inval w_from]; try done.
    + eapply cache_wf_loads; [exact Hc|done|done|done|lia|]. rewrite Hi, Hn.
      apply map_Forall_insert_2; [lia|]. eapply map_Forall_impl; [apply Hc|]. simpl. lia.
    + rewrite Hrun, map_size_insert_None by done. lia.
    + lia.
    + rewrite Hn. apply map_Forall_insert_2; [lia|]. eapply map_Forall_impl; [exact Hids|]. simpl. lia.
    + split; [intros k; specialize (Ht1 k); lia|]. apply map_Forall_insert_2; [simpl; lia|].
      eapply map_Forall_impl; [exact Ht2|]. simpl. lia.
    + intros c' id. rewrite Hi. intros [[<- <-]|[Hne H]]%lookup_insert_Some.
      * exists (w_tick w). rewrite lookup_insert_eq. split; [done|]. split; [simpl; lia|]. intros k _. apply Ht1.
      * apply Hin in H as (start & H1 & H2). exists start. split; [|by apply Hcur].
        rewrite lookup_insert_ne; [done|]. intros <-. congruence.
    + intros c' e. rewrite He. intros (start & H1 & H2 & H3)%Hen. exists start. split_and!; [done|by apply Hcur|done].
Qed.

(** The state [finish] goes on with once the slot is given back. *)
Definition slot_returned s c id : CacheState :=
  let s1 := with_running_loads s (running_loads s - 1) in
  if bool_decide (inflight s !! c = Some id) then with_inflight s1 (delete c (inflight s)) else s1.
Lemma slot_returned_wf s c id :
  cache_wf config s → (∀ c', inflight s !! c' = Some id → c' = c) →
  let s2 := slot_returned s c id in
  cache_wf config s2 ∧ entries s2 = entries s ∧ running_loads s2 = running_loads s - 1 ∧ next_id s2 = next_id s ∧
  ∀ c' id', inflight s2 !! c' = Some id' → inflight s !! c' = Some id' ∧ id' ≠ id.
Proof.
  intros Hc Hid s2.
  assert (∀ c' id', inflight s2 !! c' = Some id' → inflight s !! c' = Some id' ∧ id' ≠ id) as Hin2.
  { intros c' id'. unfold s2, slot_returned. case_bool_decide as Ho; cbn [inflight with_inflight with_running_loads].
    - intros [Hne H]%lookup_delete_Some. split; [done|]. intros ->. by apply Hne, eq_sym, Hid.
    - intros H. split; [done|]. intros ->. apply Ho. by rewrite <- (Hid c'). }
  unfold s2, slot_returned in *. split; [|by case_bool_decide; split_and!].
  eapply cache_wf_loads; [exact Hc|by case_bool_decide..|case_bool_decide; simpl; lia|].
  intros c' id' [H _]%Hin2. case_bool_decide; by eapply (wf_ids _ _ Hc).
Qed.
Lemma finish_wf s c id result now s' :
  cache_wf config s → (∀ c', inflight s !! c' = Some id → c' = c) →
  finish hash_one config s c id result now = Ok s' →
  1 ≤ running_loads s ∧ cache_wf config s' ∧ running_loads s' = running_loads s - 1 ∧ next_id s ≤ next_id s' ∧
  (∀ c' id', inflight s' !! c' = Some id' → inflight s !! c' = Some id' ∧ id' ≠ id) ∧
  ∀ c' e, entries s' !! c' = Some e →
    if decide (inflight s !! c = Some id ∧ succeeded result = true ∧ c' = c)
    then (∃ hits, result = Ok hits ∧ made_of hash_one config hits now e) else entries s !! c' = Some e.
Proof.
  clear answers.
  intros Hc Hid (Hr1 & Hcase)%finish_cases. cbv zeta in Hcase.
  destruct (slot_returned_wf s c id Hc Hid) as (Hc2 & He2 & Hr2 & Hn2 & Hin2).
  fold (slot_returned s c id) in Hcase. set (s2 := slot_returned s c id) in *. split; [done|].
  assert (∀ l, s' = foldl remove_entry s2 l → cache_wf config s' ∧ running_loads s' = running_loads s - 1 ∧
    next_id s ≤ next_id s' ∧ inflight s' = inflight s2 ∧ ∀ c' e, entries s' !! c' = Some e → entries s !! c' = Some e) as Hrem.
  { intros l ->. destruct (remove_entries_spec s2 l) as (He & _ & _ & (? & ? & Hnx) & _).
    split_and!; [by apply cache_wf_remove|lia|lia|done|]. intros c' e. rewrite He, He2. by destruct (decide _). }
  assert (∀ l, s' = foldl remove_entry s2 l → ¬ (inflight s !! c = Some id ∧ succeeded result = true) →
    cache_wf config s' ∧ running_loads s' = running_loads s - 1 ∧ next_id s ≤ next_id s' ∧
    (∀ c' id', inflight s' !! c' = Some id' → inflight s !! c' = Some id' ∧ id' ≠ id) ∧
    ∀ c' e, entries s' !! c' = Some e →
      if decide (inflight s !! c = Some id ∧ succeeded result = true ∧ c' = c)
      then (∃ hits, result = Ok hits ∧ made_of hash_one config hits now e) else entries s !! c' = Some e) as Hkeep.
  { intros l Hl Hno. destruct (Hrem l Hl) as (H1 & H2 & H3 & H4 & H5). rewrite H4. split_and!; [done..|].
    intros c' e H. rewrite decide_False by naive_solver. by apply H5. }
  destruct result as [hits|e|st]; [|by apply (Hkeep _ Hcase); intros [_ ?]..].
  revert Hcase. case_bool_decide as Ho; intros Hcase; [|by apply (Hkeep [] Hcase); intros [? _]].
  apply insert_entry_wf in Hcase as (H1 & H2 & H3 & H4 & H5); [|done..]. rewrite H2, He2 in *.
  split_and!; [done|lia|lia|done|]. intros c' e [[Hne H]|[-> Hm]]%H5; [by rewrite decide_False by naive_solver|].
  rewrite decide_True by done. by exists hits.
Qed.

Lemma world_wf_finish w id c start result now s' :
  world_wf w → w_loads w !! id = Some (c, start) → (∀ hits, result = Ok hits → answers start c hits) →
  finish hash_one config (w_state w) c id result now = Ok s' →
  world_wf (mkWorld s' (delete id (w_loads w)) (w_tick w + 1) (w_inval w)
    (if decide (inflight (w_state w) !! c = Some id ∧ succeeded result = true)
     then <[c := start]> (w_from w) else w_from w)).
Proof.
  intros [Hc Hr Hb Hids [Ht1 Ht2] Hin Hen] Hload Hans Hf.
  apply finish_wf in Hf as (Hr1 & Hc' & Hr' & Hn' & Hin' & He'); [|done|].
  2: { intros c' (st & H & _)%Hin. congruence. }
  set (w1 := mkWorld s' _ _ _ _).
  assert (∀ c start, current w c start → current w1 c start) as Hcur.
  { intros c' st H. eapply current_weaken; [exact H|simpl; lia|done]. }
  split; unfold w1; cbn [w_state w_loads w_tick w_inval w_from].
  - done.
  - rewrite map_size_delete_Some by by eexists. lia.
  - lia.
  - apply map_Forall_delete. eapply map_Forall_impl; [exact Hids|]. simpl. lia.
  - split; [intros k; specialize (Ht1 k); simpl; lia|]. apply map_Forall_delete.
    eapply map_Forall_impl; [exact Ht2|]. simpl. lia.
  - intros c' id' [H Hne]%Hin'. apply Hin in H as (st & H1 & H2).
    exists st. split; [|by apply Hcur]. cbn [w_loads w1]. by rewrite lookup_delete_ne.
  - intros c' e Hce%He'. cbn [w_from w1].
    destruct (decide (inflight (w_state w) !! c = Some id ∧ succeeded result = true ∧ c' = c)) as [(Ho & Hs & ->)|Hno].
    + rewrite decide_True by done. rewrite lookup_insert_eq. destruct Hce as (hits & Hres & <- & _).
      exists start. split_and!; [done| |by apply Hans]. apply Hcur. apply Hin in Ho as (st & H1 & H2). congruence.
    + apply Hen in Hce as (st & H1 & H2 & H3). exists st. split_and!; [|by apply Hcur|done].
      destruct (decide _) as [[Ho Hs]|]; [|done]. rewrite lookup_insert_ne; [done|].
      intros <-. by apply Hno.
Qed.

Lemma world_wf_step w w' : world_wf w → step w w' → world_wf w'.
Proof.
  intros Hw [c now s' load stale event H|id c start result now s' H1 H2 H3|key|].
  - by eapply world_wf_begin.
  - by eapply world_wf_finish.
  - destruct Hw as [Hc Hr Hb Hids [Ht1 Ht2] Hin Hen].
    destruct (invalidate_spec config (w_state w) key Hc) as (Hc' & Hr' & Hn' & He' & Hi').
    split; cbn [w_state w_loads w_tick w_inval w_from].
    + done.
    + by rewrite Hr'.
    + by rewrite Hr'.
    + by rewrite Hn'.
    + split; [intros k; specialize (Ht1 k); destruct (decide _); lia|].
      eapply map_Forall_impl; [exact Ht2|]. simpl. lia.
    + intros c id [Hid Hk]%Hi'. apply Hin in Hid as (st & H1 & H2). exists st. split; [done|].
      eapply current_invalidate; [exact H2|simpl; lia|exact Hk|done].
    + intros c e [Hce Hk]%He'. apply Hen in Hce as (st & H1 & H2 & H3). exists st. split_and!; [done| |done].
      eapply current_invalidate; [exact H2|simpl; lia|exact Hk|done].
  - destruct Hw as [[_ _ (_ & _ & Hf) _ _] Hr Hb Hids [Ht1 Ht2] Hin Hen].
    split; cbn [w_state w_loads w_tick w_inval w_from clear inflight entries running_loads next_id]; try done.
    + eapply cache_wf_loads; [apply cache_wf_empty|done|done|done|simpl; lia|by intros ?].
    + split; [lia|]. eapply map_Forall_impl; [exact Ht2|]. simpl. lia.
Qed.
Lemma reachable_wf w : reachable w → world_wf w.
Proof. induction 1; [apply world_wf_init|by eapply world_wf_step]. Qed.
End Reachable.

(** ** Panics *)
(** A TTL that either leaves a century before the end of time, or is too large
    to represent at all. *)
Definition ttl_ok (now : Instant) (d : Duration) : Prop :=
  now + d + century ≤ instant_max ∨ instant_max < now + d.
Lemma later_ok now d : clock_ok now → ttl_ok now d → ∃ e, later now d = Ok e ∧ e + century ≤ instant_max.
Proof.
  unfold clock_ok, ttl_ok. intros Hc Hd. rewrite later_cases.
  destruct (N.leb_spec (now + d) instant_max); [eexists; split; [done|]; lia|].
  destruct (N.leb_spec (now + century) instant_max); [|lia]. eexists. split; [done|]. lia.
Qed.
Lemma later_returns e d : e + century ≤ instant_max → ∃ e', later e d = Ok e'.
Proof.
  intros He. rewrite later_cases. destruct (e + d <=? instant_max); [eauto|].
  destruct (N.leb_spec (e + century) instant_max); [eauto|lia].
Qed.
Lemma insert_entry_returns hash_one config s c hits now :
  clock_ok now → next_id s < usize_max → ttl_ok now (negative_ttl config) →
  (∀ id, ttl_ok now (jittered hash_one (ttl config) (jitter config) id)) →
  ∃ s', insert_entry hash_one config s c hits now = Ok s'.
Proof.
  intros Hclock Hid Hn Hj. unfold insert_entry. destruct (max_entries config =? 0); [eauto|].
  unfold take_id. rewrite uadd_Ok by lia. res_simpl.
  destruct (later_ok now (if is_empty hits then negative_ttl config else jittered hash_one (ttl config) (jitter config) (next_id s)))
    as (e & -> & He); [done|by destruct (is_empty hits)|]. res_simpl.
  destruct (later_returns e (default 0 (stale_if_error config)) He) as (e' & ->). res_simpl.
  destruct (_ <? _); eauto.
Qed.

(** Both critical sections of a lookup return. *)
Lemma finish_returns hash_one config s c id result now :
  1 ≤ running_loads s → clock_ok now → next_id s < usize_max → ttl_ok now (negative_ttl config) →
  (∀ id, ttl_ok now (jittered hash_one (ttl config) (jitter config) id)) →
  ∃ s', finish hash_one config s c id result now = Ok s'.
Proof.
  intros H1 Hclock Hid Hn Hj. unfold finish. rewrite usub_Ok by done. res_simpl.
  cbn [inflight with_running_loads].
  set (owns := match inflight s !! c with Some load => load =? id | None => false end).
  destruct result as [hits|e|p].
  - destruct owns; [|eauto]. by apply insert_entry_returns.
  - destruct owns; cbn [entries with_inflight with_running_loads]; repeat case_match; eauto.
  - destruct owns; cbn [entries with_inflight with_running_loads]; repeat case_match; eauto.
Qed.
(** A failed load needs no clock arithmetic to end. *)
Lemma finish_error hash_one config s c id e now :
  1 ≤ running_loads s → ∃ s', finish hash_one config s c id (Err e) now = Ok s'.
Proof.
  intros H1. unfold finish. rewrite usub_Ok by done. res_simpl. cbn [inflight with_running_loads].
  repeat (case_match; eauto).
Qed.
Lemma lookup_begin_returns config s c now :
  next_id s < usize_max → running_loads s ≤ max_inflight_loads config → max_inflight_loads config < usize_max →
  ∃ s' r, lookup_begin config s c now = Ok (s', r).
Proof.
  intros Hid Hb Hmax. unfold lookup_begin. destruct (entry ← entries s !! c;
    if now <? ce_expires entry then Some (ce_hits entry) else None); [eauto|].
  destruct (inflight s !! c); [eauto|].
  destruct (max_inflight_loads config <=? running_loads s); [eauto|].
  unfold start_load, take_id. rewrite uadd_Ok by lia. res_simpl. cbn [running_loads with_next_id].
  rewrite uadd_Ok by lia. res_simpl. eauto.
Qed.

Lemma default_config_ok : config_ok CacheConfig_default.
Proof. vm_compute. discriminate. Qed.

(** ** An example: one host looked up, loaded and cached *)
Definition example_host_candidates : RouteCandidates :=
  RouteCandidates.for_hostname (mkHostname (lit "a.b.c")).
Definition example_routes : InMemoryLookup :=
  InMemoryLookup.from_iter [(mkRouteKey (lit "*.b.c") true, mkBackend (Dns (lit "w")) 443)].
Definition example_hits : RouteHits := InMemoryLookup.hits example_routes example_host_candidates.
Definition example_loading : CacheState :=
  match lookup_begin CacheConfig_default CacheState.empty example_host_candidates 0 with
  | Ok (s, _) => s | _ => CacheState.empty end.
Definition example_cached : CacheState :=
  match finish (λ _, 2 ^ 63) CacheConfig_default example_loading example_host_candidates 0 (Ok example_hits) 1 with
  | Ok s => s | _ => CacheState.empty end.
(** Evaluated without printing the maps of a state. *)
Lemma example_loading_eq :
  lookup_begin CacheConfig_default CacheState.empty example_host_candidates 0 =
  Ok (example_loading, Waiting 0 None Miss).
Proof.
  assert (match lookup_begin CacheConfig_default CacheState.empty example_host_candidates 0 with
          | Ok (_, b) => b = Waiting 0 None Miss | _ => False end) as H by (vm_compute; reflexivity).
  unfold example_loading. destruct (lookup_begin _ _ _ _) as [[s b]| |]; [by subst b|destruct H..].
Qed.
Lemma example_cached_eq :
  finish (λ _, 2 ^ 63) CacheConfig_default example_loading example_host_candidates 0 (Ok example_hits) 1 =
  Ok example_cached.
Proof.
  assert (match finish (λ _, 2 ^ 63) CacheConfig_default example_loading example_host_candidates 0 (Ok example_hits) 1
          with Ok _ => true | _ => false end = true) as H by (vm_compute; reflexivity).
  unfold example_cached. destruct (finish _ _ _ _ _ _ _); [done|discriminate H..].
Qed.
Lemma example_entry :
  ∃ e, entries example_cached !! example_host_candidates = Some e ∧ ce_hits e = example_hits ∧
    ce_expires e = from_secs 30 + 1.
Proof. eexists. split; [vm_compute; reflexivity|]. split; vm_compute; reflexivity. Qed.
Lemma example_served :
  lookup_begin CacheConfig_default example_cached example_host_candidates 2 =
  Ok (example_cached, Served example_hits Hit).
Proof.
  unfold lookup_begin. destruct example_entry as (e & -> & Hh & He). simpl. rewrite He, Hh. reflexivity.
Qed.

Lemma example_reachable (answers : N → RouteCandidates → RouteHits → Prop) :
  answers 1 example_host_candidates example_hits →
  ∃ w, reachable (λ _, 2 ^ 63) CacheConfig_default answers w ∧ w_state w = example_cached.
Proof.
  intros Ha. eexists. split.
  - eapply reachable_step.
    + eapply reachable_step; [apply reachable_init|].
      apply (step_begin _ _ _ w_init _ _ _ _ _ _ example_loading_eq).
    + apply (step_finish _ _ _ _ 0 example_host_candidates 1 (Ok example_hits) 1 example_cached);
        [|by intros hits [= <-]|apply example_cached_eq].
      cbn [w_loads w_tick w_init]. rewrite decide_True by done. apply lookup_insert_eq.
  - reflexivity.
Qed.

(** ** Properties *)

(** C23: whatever lookups, load completions, invalidations and clears interleave,
    the cache keeps its bounds and its bookkeeping: at most [max_entries]
    entries, an eviction queue of at most twice that which lists every entry,
    an index holding exactly the entries under each of their keys, a running
    count equal to the number of running loads and at most [max_inflight_loads],
    and every in-flight slot owned by a load that is still running, so that no
    hostname is ever left in flight with nobody to answer. *)
Theorem cache_invariants hash_one config answers w :
  config_ok config → reachable hash_one config answers w →
  let s := w_state w in
  entries_len s ≤ max_entries config ∧ len (order s) ≤ 2 * max_entries config ∧
  running_loads s = N.of_nat (size (w_loads w)) ∧ running_loads s ≤ max_inflight_loads config ∧
  (∀ c e, entries s !! c = Some e → (c, ce_id e) ∈ order s) ∧
  (∀ k c, c ∈ default ∅ (index s !! k) ↔ is_Some (entries s !! c) ∧ k ∈ RouteCandidates.keys c) ∧
  (∀ c id, inflight s !! c = Some id → ∃ start, w_loads w !! id = Some (c, start)).
Proof.
  intros Hconfig Hw. destruct (reachable_wf _ _ _ Hconfig _ Hw) as [[[Hi _] Ho _ Hl Hlo] Hr Hb _ _ Hin _].
  split_and!; try done. intros c id (start & H & _)%Hin. eauto.
Qed.
Lemma cache_invariants_witness :
  ∃ w, w_state w = example_cached ∧ entries_len (w_state w) ≤ 100000 ∧ running_loads (w_state w) ≤ 1024.
Proof.
  destruct (example_reachable (λ _ _ _, True) I) as (w & Hw & Hs). exists w. split; [exact Hs|].
  destruct (cache_invariants _ CacheConfig_default _ w default_config_ok Hw) as (H1 & _ & _ & H2 & _).
  split; [exact H1|exact H2].
Defined.

(** C6: invalidation is not undone by a load in flight.  In every reachable
    state, what a lookup is served from the cache is the answer of a load that
    started after each candidate key was last invalidated (and the cache last
    cleared), the load it waits for started after that too, and so did the load
    of the stale answer it may fall back on. *)
Theorem cache_serves_only_current hash_one config answers w c now s' r :
  config_ok config → reachable hash_one config answers w →
  lookup_begin config (w_state w) c now = Ok (s', r) →
  let loaded hits := ∃ start, answers start c hits ∧ current w c start in
  match r with
  | Served hits _ => loaded hits
  | Waiting load stale event =>
    (∀ hits, stale = Some hits → loaded hits) ∧
    (event = Coalesced → ∃ start, w_loads w !! load = Some (c, start) ∧ current w c start) ∧
    (event = Miss → w_loads w !! load = None ∧ inflight s' !! c = Some load)
  | Shed stale => ∀ hits, stale = Some hits → loaded hits
  end.
Proof.
  intros Hconfig Hw Hr%lookup_begin_cases loaded.
  destruct (reachable_wf _ _ _ Hconfig _ Hw) as [_ _ _ Hids _ Hin Hen].
  assert (∀ e hits, entries (w_state w) !! c = Some e → ce_hits e = hits → loaded hits) as Hloaded.
  { intros e hits He <-. apply Hen in He as (start & _ & H1 & H2). by exists start. }
  destruct r as [hits event|load stale event|stale].
  - destruct Hr as (_ & (e & He & Hh & _) & _). by eapply Hloaded.
  - destruct Hr as (Hst & Hcase). split_and!.
    + intros hits (e & He & Hh & _)%Hst. by eapply Hloaded.
    + intros ->. destruct Hcase as [(_ & _ & Hl)|([=] & _)]. by apply Hin in Hl.
    + intros ->. destruct Hcase as [([=] & _)|(_ & _ & _ & -> & _ & _ & _ & Hi & _)].
      rewrite Hi, lookup_insert_eq. split; [|done].
      destruct (w_loads w !! next_id (w_state w)) as [l|] eqn:Hl; [|done]. apply Hids in Hl. lia.
  - destruct Hr as (_ & _ & _ & Hst). intros hits (e & He & Hh & _)%Hst. by eapply Hloaded.
Qed.
Lemma cache_serves_only_current_witness :
  ∃ w start, w_state w = example_cached ∧ current w example_host_candidates start.
Proof.
  destruct (example_reachable (λ _ _ _, True) I) as (w & Hw & Hs).
  assert (lookup_begin CacheConfig_default (w_state w) example_host_candidates 2 =
    Ok (example_cached, Served example_hits Hit)) as Hb by (rewrite Hs; exact example_served).
  destruct (cache_serves_only_current _ _ _ w _ 2 _ _ default_config_ok Hw Hb) as (start & _ & Hc).
  exists w, start. split; [exact Hs|exact Hc].
Defined.

(** Single flight and load shedding.  A fresh entry is answered without a
    load; otherwise a lookup joins the load that holds its slot, or sheds when
    [max_inflight_loads] loads are running, or starts exactly one load under a
    fresh id; a stale answer is kept only while its stale window lasts. *)
Theorem lookup_begin_spec config s c now s' r :
  lookup_begin config s c now = Ok (s', r) →
  match r with
  | Served hits event => s' = s ∧ (∃ e, entries s !! c = Some e ∧ ce_hits e = hits ∧ now < ce_expires e) ∧
      event = (if is_empty hits then NegativeHit else Hit)
  | Waiting load stale event =>
    (∀ hits, stale = Some hits → ∃ e, entries s !! c = Some e ∧ ce_hits e = hits ∧ now < ce_stale_until e) ∧
    (event = Coalesced ∧ s' = s ∧ inflight s !! c = Some load ∨
     event = Miss ∧ inflight s !! c = None ∧ running_loads s < max_inflight_loads config ∧
     load = next_id s ∧ entries s' = entries s ∧ index s' = index s ∧ order s' = order s ∧
     inflight s' = <[c := load]> (inflight s) ∧ next_id s' = next_id s + 1 ∧
     running_loads s' = running_loads s + 1)
  | Shed stale => s' = s ∧ inflight s !! c = None ∧ max_inflight_loads config ≤ running_loads s ∧
    (∀ hits, stale = Some hits → ∃ e, entries s !! c = Some e ∧ ce_hits e = hits ∧ now < ce_stale_until e)
  end.
Proof. apply lookup_begin_cases. Qed.
Lemma lookup_begin_spec_witness :
  ∃ e, entries example_cached !! example_host_candidates = Some e ∧ ce_hits e = example_hits ∧ 2 < ce_expires e.
Proof.
  refine (proj1 (proj2 (lookup_begin_spec CacheConfig_default example_cached example_host_candidates 2
    example_cached (Served example_hits Hit) _))).
  exact example_served.
Defined.

(** An answer that is literally right for a table. *)
Definition literal (t : gmap RouteKey Backend) (c : RouteCandidates) (hits : RouteHits) : Prop :=
  ∀ k b, (k, b) ∈ hits ↔ k ∈ RouteCandidates.keys c ∧ t !! k = Some b.

(** The cache implements the lookup contract of the store it wraps.  When
    the inner lookup fulfils its contract on a table, its loads answer
    literally; and a cache whose loads answer literally returns, from the cache,
    from a load, or stale, only literal answers. *)
Theorem cached_lookup_contract `{LookupContract L stored, TimeoutSpec} (inner : L) hash_one config w c now s' r :
  config_ok config → reachable hash_one config (λ _, literal (stored inner)) w →
  (∀ c hits, load_result config inner c = Ok hits → literal (stored inner) c hits) ∧
  (lookup_begin config (w_state w) c now = Ok (s', r) →
   match r with
   | Served hits _ => literal (stored inner) c hits
   | Waiting _ stale _ => ∀ answer hits,
     (∀ h, answer = Some (Ok h) → literal (stored inner) c h) →
     (lookup_end answer stale).1 = Ok hits → literal (stored inner) c hits
   | Shed stale => ∀ hits, (shed stale).1 = Ok hits → literal (stored inner) c hits
   end).
Proof.
  intros Hconfig Hw. split.
  - intros c' hits. unfold load_result. destruct (timeout _ _) as [a|] eqn:Ht; simpl; [|done].
    apply timeout_value in Ht as ->. intros Ha k b. by apply lookup_literal.
  - intros Hr%lookup_begin_cases. destruct (reachable_wf _ _ _ Hconfig _ Hw) as [_ _ _ _ _ _ Hen].
    assert (∀ e, entries (w_state w) !! c = Some e → literal (stored inner) c (ce_hits e)) as Hlit.
    { intros e He. by apply Hen in He as (start & _ & _ & H'). }
    destruct r as [hits event|load stale event|stale].
    + destruct Hr as (_ & (e & He & <- & _) & _). by apply Hlit.
    + destruct Hr as (Hst & _). intros answer hits Hans. unfold lookup_end.
      destruct answer as [[h|e|p]|]; destruct stale as [sh|]; simpl; intros [= <-];
        try (by apply Hans); destruct (Hst _ eq_refl) as (e' & He & <- & _); by apply Hlit.
    + destruct Hr as (_ & _ & _ & Hst). intros hits. destruct stale as [sh|]; simpl; [|done].
      intros [= <-]. destruct (Hst _ eq_refl) as (e & He & <- & _). by apply Hlit.
Qed.
Lemma cached_lookup_contract_witness : literal (im_routes example_routes) example_host_candidates example_hits.
Proof.
  destruct (example_reachable (λ _, literal (im_routes example_routes))) as (w & Hw & Hs).
  { intros k b. apply in_memory_hits_elem. }
  assert (lookup_begin CacheConfig_default (w_state w) example_host_candidates 2 =
    Ok (example_cached, Served example_hits Hit)) as Hb by (rewrite Hs; exact example_served).
  exact (proj2 (cached_lookup_contract (H0 := InMemoryLookup_contract) (H2 := simple_timeout_spec)
    example_routes _ _ w _ 2 _ _ default_config_ok Hw) Hb).
Defined.

(** C36: in every reachable state the completion of a running load and the start
    of a lookup return: no counter underflows, no deadline overflows, provided
    the clock is at least two centuries from its end and each TTL either leaves
    a century before the end of time or is beyond it. *)
Theorem cache_never_panics hash_one config answers w id c start result now :
  config_ok config → reachable hash_one config answers w →
  clock_ok now → next_id (w_state w) < usize_max → max_inflight_loads config < usize_max →
  valid_binary prec emax (jitter config) = true → (∀ id, hash_one id < 2 ^ 64) → ttl config ≤ duration_max →
  ttl_ok now (negative_ttl config) → (∀ d, jitter_range (ttl config) (jitter config) d → ttl_ok now d) →
  (w_loads w !! id = Some (c, start) →
   ∃ s', finish hash_one config (w_state w) c id result now = Ok s') ∧
  (∃ s' r, lookup_begin config (w_state w) c now = Ok (s', r)).
Proof.
  intros Hconfig Hw Hclock Hid Hmax Hv Hh Httl Hn Hj.
  destruct (reachable_wf _ _ _ Hconfig _ Hw) as [_ Hr Hb _ _ _ _]. split.
  - intros Hl. apply finish_returns; [|exact Hclock|exact Hid|exact Hn|
      intros i; exact (Hj _ (jittered_near hash_one _ _ i (Hh i) Hv Httl))].
    rewrite Hr. assert (size (w_loads w) ≠ 0%nat); [|lia]. intros He%map_size_empty_inv. by rewrite He in Hl.
  - exact (lookup_begin_returns _ _ _ _ Hid Hb Hmax).
Qed.
Lemma cache_never_panics_witness :
  ∃ w s' r, w_state w = example_cached ∧
    lookup_begin CacheConfig_default (w_state w) example_host_candidates (from_secs 60) = Ok (s', r).
Proof.
  destruct (example_reachable (λ _ _ _, True) I) as (w & Hw & Hs).
  destruct (cache_never_panics (λ _, 2 ^ 63) CacheConfig_default _ w 0 example_host_candidates 0 (Err load_aborted)
    (from_secs 60) default_config_ok Hw) as [_ (s' & r & Hb)].
  - vm_compute. discriminate.
  - rewrite Hs. vm_compute. reflexivity.
  - vm_compute. reflexivity.
  - vm_compute. reflexivity.
  - intros i. vm_compute. reflexivity.
  - vm_compute. discriminate.
  - left. vm_compute. discriminate.
  - intros d Hd. left. apply jitter_range_le in Hd; [|vm_compute; reflexivity].
    eapply N.le_trans; [apply N.add_le_mono_r, N.add_le_mono_l, Hd|vm_compute; discriminate].
  - exists w, s', r. split; [exact Hs|exact Hb].
Defined.

(** A TTL just short of the end of time, with a stale window. *)
Definition extreme_config : CacheConfig :=
  mkCacheConfig (instant_max - 2 * century - from_secs 4096) (from_secs 5) (as_f64 0) 10 (Some (from_secs (2 * 100 * 365 * 24 * 3600 + 60))) (from_secs 10) 1.

(** [later] is meant to saturate instead of panicking.  It does not for a
    deadline within a century of the end of time: a TTL a little below the
    largest representable one is accepted, and adding the stale window to the
    resulting expiry then panics inside the cache's critical section. *)
Theorem later_panics_near_the_end :
  (∀ i d, (∃ e, later i d = Ok e) ↔ i + d ≤ instant_max ∨ i + century ≤ instant_max) ∧
  (∀ hits, hits ≠ [] → clock_ok (2 * century) ∧
   insert_entry (λ _, 2 ^ 63) extreme_config CacheState.empty
     (RouteCandidates.for_hostname (mkHostname (lit "a.test"))) hits (2 * century) = Stuck SPanic).
Proof.
  split.
  - intros i d. rewrite later_cases. destruct (N.leb_spec (i + d) instant_max); [naive_solver|].
    destruct (N.leb_spec (i + century) instant_max); [naive_solver|].
    split; [by intros [? ?]|]. intros [|]; lia.
  - intros [|h hits] Hne; [done|]. split; [vm_compute; discriminate|]. vm_compute. reflexivity.
Qed.
