(* ===== verification/CacheStore.v ===== *)
(** * The caching lookup in front of a store ([cache.rs])

    Calls of [cached_lookup], the loads they spawn and the store the loads
    read, as one world and its steps: what a call returns, and how old it can
    be. *)

From S2P Require Import Prelude Async F64 Jitter Str Net Names Lookup Metrics Routing Cache CacheProofs.
Import CacheState.

(** A load: its candidates and the instant it was spawned at; and what it sent
    on its channel, when. *)
Record Load := mkLoad { ld_candidates : RouteCandidates; ld_start : Instant }.
Record Answer := mkAnswer { an_load : Load; an_finish : Instant; an_result : LoadResult }.

(** A call of [cached_lookup], by where it waits: for the lock, for a load's
    channel; or returned. *)
Inductive CallAt :=
| CallLocking
| CallAwaiting (load : N) (stale : option RouteHits)
| CallReturned (result : LoadResult).
(** [cl_now] is the clock it read first; the keys' invalidations it knows of
    are those before it. *)
Record Call := mkCall {
  cl_candidates : RouteCandidates;
  cl_now : Instant;
  cl_at : CallAt;
  cl_inval : RouteKey → Instant;
}.
Definition call_at (call : Call) (a : CallAt) : Call :=
  mkCall (cl_candidates call) (cl_now call) a (cl_inval call).

(** The cache, the clock, the running loads, the channels that were answered,
    the calls and the metrics; as ghosts, when each key was last invalidated
    and the metrics that each call recorded itself. *)
Record CachedStore := mkCachedStore {
  cs_state : CacheState;
  cs_now : Instant;
  cs_loads : gmap N Load;
  cs_channels : gmap N Answer;
  cs_calls : gmap N Call;
  cs_events : list CacheEvent;
  cs_inval : RouteKey → Instant;
  cs_told : gmap N (list CacheEvent);
}.
Definition store_init : CachedStore := mkCachedStore CacheState.empty 0 ∅ ∅ ∅ [] (λ _, 0) ∅.
Definition told (w : CachedStore) (n : N) : list CacheEvent := default [] (cs_told w !! n).

Section Store.
Context (hash_one : N → N) (config : CacheConfig).
(** What the store holds at each instant. *)
Context (table_at : Instant → gmap RouteKey Backend).

(** One poll of a call: the state, where it waits now, the load it started and
    the metrics it recorded. *)
Definition call_poll (s : CacheState) (channels : gmap N Answer) (call : Call) :
    section (CacheState * CallAt * option N * list CacheEvent) :=
  match cl_at call with
  | CallLocking =>
    '(s, r) ← lookup_begin config s (cl_candidates call) (cl_now call);
    match r with
    | Served hits event => Ok (s, CallReturned (Ok hits), None, [event])
    | Waiting load stale event =>
      Ok (s, CallAwaiting load stale, if decide (event = Miss) then Some load else None, [event])
    | Shed stale => let '(result, events) := shed stale in Ok (s, CallReturned result, None, events)
    end
  | CallAwaiting load stale =>
    match channels !! load with
    | None => Ok (s, cl_at call, None, [])
    | Some answer =>
      let '(result, events) := lookup_end (Some (an_result answer)) stale in
      Ok (s, CallReturned result, None, events)
    end
  | CallReturned _ => Ok (s, cl_at call, None, [])
  end.

(** A load may answer what the store held at some instant while it ran. *)
Definition read_between (c : RouteCandidates) (hits : RouteHits) (start finish : Instant) : Prop :=
  ∃ t, start ≤ t ≤ finish ∧ literal (table_at t) c hits.

Inductive store_step (w : CachedStore) : CachedStore → Prop :=
| store_clock now :
  cs_now w ≤ now →
  store_step w (mkCachedStore (cs_state w) now (cs_loads w) (cs_channels w) (cs_calls w) (cs_events w)
    (cs_inval w) (cs_told w))
| store_call n c :
  cs_calls w !! n = None →
  store_step w (mkCachedStore (cs_state w) (cs_now w) (cs_loads w) (cs_channels w)
    (<[n := mkCall c (cs_now w) CallLocking (cs_inval w)]> (cs_calls w)) (cs_events w) (cs_inval w)
    (<[n := []]> (cs_told w)))
| store_poll n call s' a started events :
  cs_calls w !! n = Some call →
  call_poll (cs_state w) (cs_channels w) call = Ok (s', a, started, events) →
  store_step w (mkCachedStore s' (cs_now w)
    (match started with
     | Some load => <[load := mkLoad (cl_candidates call) (cs_now w)]> (cs_loads w)
     | None => cs_loads w
     end)
    (cs_channels w) (<[n := call_at call a]> (cs_calls w)) (cs_events w ++ events) (cs_inval w)
    (<[n := told w n ++ events]> (cs_told w)))
| store_drop n :
  store_step w (mkCachedStore (cs_state w) (cs_now w) (cs_loads w) (cs_channels w) (delete n (cs_calls w))
    (cs_events w) (cs_inval w) (cs_told w))
(** A load ends: with an answer, timed out, or aborted by a panic. *)
| store_finish id load result s' :
  cs_loads w !! id = Some load → returns result →
  (∀ hits, result = Ok hits → read_between (ld_candidates load) hits (ld_start load) (cs_now w)) →
  finish hash_one config (cs_state w) (ld_candidates load) id result (cs_now w) = Ok s' →
  store_step w (mkCachedStore s' (cs_now w) (delete id (cs_loads w))
    (<[id := mkAnswer load (cs_now w) result]> (cs_channels w)) (cs_calls w)
    (cs_events w ++ if succeeded result then [] else [LoadError]) (cs_inval w) (cs_told w))
| store_invalidate key :
  store_step w (mkCachedStore (invalidate (cs_state w) key) (cs_now w) (cs_loads w) (cs_channels w) (cs_calls w)
    (cs_events w) (λ k, if decide (k = key) then cs_now w else cs_inval w k) (cs_told w))
| store_clear :
  store_step w (mkCachedStore (clear (cs_state w)) (cs_now w) (cs_loads w) (cs_channels w) (cs_calls w)
    (cs_events w) (λ _, cs_now w) (cs_told w)).

Inductive store_reachable : CachedStore → Prop :=
| store_start : store_reachable store_init
| store_next w w' : store_reachable w → store_step w w' → store_reachable w'.

(** ** The invariant *)

(** [a] was answered by a load of [c] that started no earlier than [inval] says
    any of the keys was invalidated. *)
Definition after_invalidation (inval : RouteKey → Instant) (c : RouteCandidates) (load : Load) : Prop :=
  ld_candidates load = c ∧ ∀ k, k ∈ RouteCandidates.keys c → inval k ≤ ld_start load.
Definition answer_ok (now : Instant) (a : Answer) : Prop :=
  ld_start (an_load a) ≤ an_finish a ≤ now ∧ returns (an_result a) ∧
  ∀ hits, an_result a = Ok hits → read_between (ld_candidates (an_load a)) hits (ld_start (an_load a)) (an_finish a).

(** How long after the load that found them finished a call may still be served
    hits: their TTL, with its jitter; and the stale window besides, if it may
    serve them stale. *)
Definition in_time (hits : RouteHits) (stale : bool) (began finished : Instant) : Prop :=
  ∃ id, began < finished + (entry_ttl hash_one config hits id + if stale then default 0 (stale_if_error config) else 0).

(** Hits a call that began at [began], knowing of [inval], may return: what a
    load answered on its channel that started after the invalidations, and that
    ended after the call began or is in time for it. *)
Definition recent (w : CachedStore) (inval : RouteKey → Instant) (c : RouteCandidates) (began : Instant)
    (stale : bool) (hits : RouteHits) : Prop :=
  ∃ load a, cs_channels w !! load = Some a ∧ answer_ok (cs_now w) a ∧ an_result a = Ok hits ∧
    after_invalidation inval c (an_load a) ∧ (began ≤ an_finish a ∨ in_time hits stale began (an_finish a)).

(** [own]: the metrics the call recorded; it may have served stale hits only if
    it says so. *)
Definition call_ok (w : CachedStore) (own : list CacheEvent) (call : Call) : Prop :=
  let c := cl_candidates call in
  cl_now call ≤ cs_now w ∧ (∀ k, cl_inval call k ≤ cs_inval w k) ∧
  match cl_at call with
  | CallLocking => True
  | CallAwaiting load stale =>
    (∃ l, after_invalidation (cl_inval call) c l ∧
       (cs_loads w !! load = Some l ∨
        ∃ a, cs_channels w !! load = Some a ∧ an_load a = l ∧ cl_now call ≤ an_finish a)) ∧
    ∀ hits, stale = Some hits → recent w (cl_inval call) c (cl_now call) true hits
  | CallReturned result =>
    returns result ∧ ∀ hits, result = Ok hits →
      recent w (cl_inval call) c (cl_now call) (bool_decide (StaleServed ∈ own)) hits
  end.

Record store_wf (w : CachedStore) : Prop := {
  st_cache : cache_wf config (cs_state w);
  st_running : running_loads (cs_state w) = N.of_nat (size (cs_loads w));
  st_bound : running_loads (cs_state w) ≤ max_inflight_loads config;
  st_inval : ∀ k, cs_inval w k ≤ cs_now w;
  st_loads : ∀ id l, cs_loads w !! id = Some l →
    id < next_id (cs_state w) ∧ ld_start l ≤ cs_now w ∧ cs_channels w !! id = None;
  st_channels : ∀ id a, cs_channels w !! id = Some a → id < next_id (cs_state w) ∧ answer_ok (cs_now w) a;
  st_inflight : ∀ c id, inflight (cs_state w) !! c = Some id →
    ∃ l, cs_loads w !! id = Some l ∧ after_invalidation (cs_inval w) c l;
  st_entries : ∀ c e, entries (cs_state w) !! c = Some e →
    ∃ load a, cs_channels w !! load = Some a ∧ answer_ok (cs_now w) a ∧ an_result a = Ok (ce_hits e) ∧
      after_invalidation (cs_inval w) c (an_load a) ∧ made_of hash_one config (ce_hits e) (an_finish a) e;
  st_calls : ∀ n call, cs_calls w !! n = Some call → call_ok w (told w n) call;
  st_misses : len (List.filter (λ e, bool_decide (e = Miss)) (cs_events w)) =
    N.of_nat (size (cs_loads w)) + N.of_nat (size (cs_channels w));
  st_errors : len (List.filter (λ e, bool_decide (e = LoadError)) (cs_events w)) =
    N.of_nat (size (filter (λ x, succeeded (an_result x.2) = false) (cs_channels w)));
}.

(** *** Facts that last *)
Lemma answer_ok_mono now now' a : now ≤ now' → answer_ok now a → answer_ok now' a.
Proof. intros Hle ([H1 H2] & H3 & H4). split_and!; [done|lia|done|done]. Qed.
Lemma after_invalidation_mono inval inval' c l :
  (∀ k, k ∈ RouteCandidates.keys c → inval' k ≤ inval k) → after_invalidation inval c l → after_invalidation inval' c l.
Proof. intros Hle [H1 H2]. split; [done|]. intros k Hk. specialize (Hle k Hk). specialize (H2 k Hk). lia. Qed.
Lemma in_time_stale hits stale began finished : in_time hits false began finished → in_time hits stale began finished.
Proof. intros [id H]. exists id. destruct stale; [lia|done]. Qed.
Lemma recent_stale w inval c began stale hits : recent w inval c began false hits → recent w inval c began stale hits.
Proof.
  intros (load & a & H1 & H2 & H3 & H4 & H5). exists load, a. split_and!; [done..|].
  destruct H5; [by left|right; by apply in_time_stale].
Qed.
Lemma recent_mono w w' inval inval' c began stale hits :
  cs_now w ≤ cs_now w' → (∀ id a, cs_channels w !! id = Some a → cs_channels w' !! id = Some a) →
  (∀ k, k ∈ RouteCandidates.keys c → inval' k ≤ inval k) →
  recent w inval c began stale hits → recent w' inval' c began stale hits.
Proof.
  intros Hn Hch Hi (load & a & H1 & H2 & H3 & H4 & H5). exists load, a.
  split_and!; [by apply Hch|by eapply answer_ok_mono|done|by eapply after_invalidation_mono|done].
Qed.

(** A call stays as it is while the clock, the loads and the channels go on. *)
Lemma call_ok_mono w w' own call :
  cs_now w ≤ cs_now w' → (∀ k, cs_inval w k ≤ cs_inval w' k) →
  (∀ id l, cs_loads w !! id = Some l →
     cs_loads w' !! id = Some l ∨ ∃ a, cs_channels w' !! id = Some a ∧ an_load a = l ∧ cs_now w ≤ an_finish a) →
  (∀ id a, cs_channels w !! id = Some a → cs_channels w' !! id = Some a) →
  call_ok w own call → call_ok w' own call.
Proof.
  intros Hnow Hinval Hloads Hchan (H1 & H2 & H3). unfold call_ok.
  assert (∀ stale hits, recent w (cl_inval call) (cl_candidates call) (cl_now call) stale hits →
    recent w' (cl_inval call) (cl_candidates call) (cl_now call) stale hits) as Hrec
    by (intros stale hits; by apply recent_mono).
  split; [lia|]. split; [intros k; specialize (Hinval k); specialize (H2 k); lia|].
  destruct (cl_at call) as [|load stale|result]; [done| |].
  - destruct H3 as [(l & Hl & Hcase) H3]. split; [|by eauto]. exists l. split; [done|].
    destruct Hcase as [Hrun|(a & Ha & Hla & Hfin)].
    + destruct (Hloads _ _ Hrun) as [Hrun'|(a & Ha & Hla & Hfin)]; [by left|right]. exists a. split_and!; [done..|lia].
    + right. exists a. eauto.
  - destruct H3 as [H3 H4]. split; [done|]. eauto.
Qed.

Lemma later_le i d e : later i d = Ok e → e ≤ i + d.
Proof.
  rewrite later_cases. destruct (N.leb_spec (i + d) instant_max); [intros [= <-]; lia|].
  destruct (N.leb_spec (i + century) instant_max); [intros [= <-]; lia|done].
Qed.
(** What an entry holds is recent for a call that finds it alive: fresh, or
    within its stale window. *)
Lemma entry_recent w c e inval began (stale : bool) :
  store_wf w → entries (cs_state w) !! c = Some e → (∀ k, inval k ≤ cs_inval w k) →
  began < (if stale then ce_stale_until e else ce_expires e) →
  recent w inval c began stale (ce_hits e).
Proof.
  intros Hw He Hinval Hb.
  destruct (st_entries _ Hw c e He) as (load & a & Hch & Ha & Hres & Hinv & (_ & Hexp%later_le & Hst%later_le)).
  exists load, a. split_and!; [done..|by eapply after_invalidation_mono; [intros k _; apply Hinval|]|right].
  exists (ce_id e). destruct stale; lia.
Qed.

(** What a returned call's hits are. *)
Lemma returned_recent w n call hits :
  store_wf w → cs_calls w !! n = Some call → cl_at call = CallReturned (Ok hits) →
  recent w (cl_inval call) (cl_candidates call) (cl_now call) (bool_decide (StaleServed ∈ told w n)) hits.
Proof.
  intros Hw Hcall Hat. pose proof (st_calls _ Hw _ _ Hcall) as (_ & _ & Hok). rewrite Hat in Hok.
  destruct Hok as [_ Hok]. by apply Hok.
Qed.

(** *** One poll of a call *)
Lemma poll_begin_ok w own call s' r :
  store_wf w → call_ok w own call → cl_at call = CallLocking →
  lookup_begin config (cs_state w) (cl_candidates call) (cl_now call) = Ok (s', r) →
  let may stale := recent w (cl_inval call) (cl_candidates call) (cl_now call) stale in
  match r with
  | Served hits event => may false hits
  | Waiting load stale event =>
    (∀ hits, stale = Some hits → may true hits) ∧
    (event = Coalesced → ∃ l, cs_loads w !! load = Some l ∧ after_invalidation (cl_inval call) (cl_candidates call) l)
  | Shed stale => ∀ hits, stale = Some hits → may true hits
  end.
Proof.
  intros Hw (_ & Hinval & _) _ Hr%lookup_begin_cases may.
  assert (∀ e hits, entries (cs_state w) !! cl_candidates call = Some e → ce_hits e = hits → cl_now call < ce_stale_until e →
    may true hits) as Hrec.
  { intros e hits He <- Hlt. by eapply entry_recent. }
  destruct r as [hits event|load stale event|stale].
  - destruct Hr as (_ & (e & He & <- & Hlt) & _). by eapply entry_recent.
  - destruct Hr as (Hst & Hcase). split; [intros hits (e & He & Hh & Hlt)%Hst; by eapply Hrec|].
    intros ->. destruct Hcase as [(_ & _ & Hin)|([=] & _)].
    destruct (st_inflight _ Hw _ _ Hin) as (l & Hl & Hinv). exists l. split; [done|].
    eapply after_invalidation_mono; [|done]. done.
  - destruct Hr as (_ & _ & _ & Hst). intros hits (e & He & Hh & Hlt)%Hst. by eapply Hrec.
Qed.

(** *** Steps *)
Definition count_event (e : CacheEvent) (events : list CacheEvent) : N :=
  len (List.filter (λ e', bool_decide (e' = e)) events).
Lemma count_event_app e es es' : count_event e (es ++ es') = count_event e es + count_event e es'.
Proof. unfold count_event. by rewrite List.filter_app, len_app. Qed.

(** A step that leaves the cache, the loads and the channels alone. *)
Lemma store_wf_frame w now calls events tolds :
  store_wf w → cs_now w ≤ now → count_event Miss events = 0 → count_event LoadError events = 0 →
  let w' := mkCachedStore (cs_state w) now (cs_loads w) (cs_channels w) calls (cs_events w ++ events) (cs_inval w) tolds in
  (∀ n call, calls !! n = Some call →
     cs_calls w !! n = Some call ∧ told w' n = told w n ∨ call_ok w' (told w' n) call) → store_wf w'.
Proof.
  intros Hw Hnow HM HL w' Hcalls. pose proof Hw as [H1 H2 H3 H4 H5 H6 H7 H8 H9 H10 H11].
  assert (∀ own call, call_ok w own call → call_ok w' own call) as Hmono.
  { intros own call. apply call_ok_mono; [done|intros k; cbn; lia|by left|done]. }
  split; cbn [cs_state cs_now cs_loads cs_channels cs_calls cs_events cs_inval cs_told w']; try done.
  - intros k. specialize (H4 k). lia.
  - intros id l (Ha & Hb & Hc)%H5. split_and!; [done|lia|done].
  - intros id a (Ha & Hb)%H6. split; [done|by eapply answer_ok_mono].
  - intros c e (load & a & Ha & Hb & Hc)%H8. exists load, a. split_and!; [done|by eapply answer_ok_mono|apply Hc..].
  - intros n call [[Hcall Htold]|Hcall]%Hcalls; [rewrite Htold; by eapply Hmono, H9|done].
  - fold (count_event Miss (cs_events w ++ events)). rewrite count_event_app, HM. unfold count_event. lia.
  - fold (count_event LoadError (cs_events w ++ events)). rewrite count_event_app, HL. unfold count_event. lia.
Qed.

(** A call that finds nothing spawns a load. *)
Lemma store_wf_miss w n call s' load stale :
  store_wf w → cs_calls w !! n = Some call → cl_at call = CallLocking →
  lookup_begin config (cs_state w) (cl_candidates call) (cl_now call) = Ok (s', Waiting load stale Miss) →
  store_wf (mkCachedStore s' (cs_now w) (<[load := mkLoad (cl_candidates call) (cs_now w)]> (cs_loads w))
    (cs_channels w) (<[n := call_at call (CallAwaiting load stale)]> (cs_calls w)) (cs_events w ++ [Miss])
    (cs_inval w) (<[n := told w n ++ [Miss]]> (cs_told w))).
Proof.
  intros Hw Hcall Hat Hb. pose proof Hw as [H1 H2 H3 H4 H5 H6 H7 H8 H9 H10 H11].
  pose proof (H9 _ _ Hcall) as Hok. destruct (poll_begin_ok _ _ _ _ _ Hw Hok Hat Hb) as [Hstale _].
  apply lookup_begin_cases in Hb as (_ & [([=] & _)|(_ & Hnone & Hlt & -> & He & Hx & Ho & Hi & Hn & Hr)]).
  set (c := cl_candidates call) in *. set (id := next_id (cs_state w)) in *.
  assert (cs_loads w !! id = None) as Hfresh.
  { destruct (cs_loads w !! id) eqn:Hl; [|done]. apply H5 in Hl as [Hl _]. unfold id in Hl. lia. }
  assert (cs_channels w !! id = None) as Hchan.
  { destruct (cs_channels w !! id) eqn:Hl; [|done]. apply H6 in Hl as [Hl _]. unfold id in Hl. lia. }
  assert (after_invalidation (cs_inval w) c (mkLoad c (cs_now w))) as Hafter by (split; [done|intros k _; apply H4]).
  set (w' := mkCachedStore _ _ _ _ _ _ _ _).
  assert (∀ own call, call_ok w own call → call_ok w' own call) as Hmono.
  { intros own cl. apply call_ok_mono; cbn; [lia|intros k; lia| |done]. intros i l Hl. left.
    rewrite lookup_insert_ne; [done|congruence]. }
  split; cbn [cs_state cs_now cs_loads cs_channels cs_calls cs_events cs_inval cs_told w']; try done.
  - eapply cache_wf_loads; [exact H1|done..|unfold id in *; lia|]. rewrite Hi, Hn.
    apply map_Forall_insert_2; [unfold id; lia|]. eapply map_Forall_impl; [apply H1|]. simpl. lia.
  - rewrite Hr, map_size_insert_None by done. lia.
  - lia.
  - intros i l. rewrite Hn. intros [[<- <-]|[Hne (Ha & Hb & Hc)%H5]]%lookup_insert_Some;
      (split_and!; [unfold id; lia|cbn; lia|done]).
  - intros i a (Ha & Hb)%H6. split; [lia|done].
  - intros c' i. rewrite Hi. intros [[<- <-]|[Hne (l & Hl & Hinv)%H7]]%lookup_insert_Some.
    + eexists. by rewrite lookup_insert_eq.
    + exists l. rewrite lookup_insert_ne by congruence. done.
  - intros c' e. rewrite He. apply H8.
  - intros n' cl [[<- <-]|[Hne Hcl%H9]]%lookup_insert_Some.
    2: { unfold told. cbn [cs_told w']. rewrite lookup_insert_ne by done. by apply Hmono. }
    destruct Hok as (Hc1 & Hc2 & _). split; [done|]. split; [done|]. cbn [cl_at call_at cs_now w']. split; [|done].
    eexists. split; [|left; cbn; by rewrite lookup_insert_eq].
    eapply after_invalidation_mono; [|exact Hafter]. intros k _. apply Hc2.
  - fold (count_event Miss (cs_events w ++ [Miss])). rewrite count_event_app, map_size_insert_None by done.
    unfold count_event in *. cbn [List.filter]. rewrite bool_decide_eq_true_2 by done. rewrite H10. len_lia.
  - fold (count_event LoadError (cs_events w ++ [Miss])). rewrite count_event_app. unfold count_event in *.
    cbn [List.filter]. rewrite bool_decide_eq_false_2 by done. rewrite H11. len_lia.
Qed.

(** A poll that spawns nothing leaves the cache alone. *)
Lemma call_poll_quiet w n call s' a events :
  store_wf w → cs_calls w !! n = Some call →
  call_poll (cs_state w) (cs_channels w) call = Ok (s', a, None, events) →
  s' = cs_state w ∧ count_event Miss events = 0 ∧ count_event LoadError events = 0 ∧
  call_ok w (told w n ++ events) (call_at call a).
Proof.
  intros Hw Hcall Hp. pose proof (st_calls _ Hw _ _ Hcall) as Hok. pose proof Hok as (Hc1 & Hc2 & Hc3).
  unfold call_poll in Hp. destruct (cl_at call) as [|load stale|result] eqn:Hat.
  - apply bind_Ok in Hp as ([s r] & Hb & Hp). pose proof (poll_begin_ok _ _ _ _ _ Hw Hok Hat Hb) as Hrec.
    apply lookup_begin_cases in Hb. destruct r as [hits event|load stale event|stale].
    + injection Hp as <- <- <-. destruct Hb as (-> & _ & ->). split; [done|]. unfold count_event.
      split; [by destruct (is_empty hits)|]. split; [by destruct (is_empty hits)|].
      split; [done|]. split; [done|]. split; [by intros st|]. intros h [= <-]. by apply recent_stale.
    + injection Hp as <- <- Hn <-. destruct Hb as (_ & [(-> & -> & _)|(-> & _)]); [|by rewrite decide_True in Hn].
      destruct Hrec as [Hst Hco]. destruct (Hco eq_refl) as (l & Hl & Hinv).
      do 3 (split; [done|]). do 2 (split; [done|]). split; [|done]. exists l. split; [done|by left].
    + destruct Hb as (-> & _). destruct stale as [stale|]; cbn in Hp; injection Hp as <- <- <-;
        do 3 (split; [done|]); do 2 (split; [done|]); (split; [by intros st|]); [|done]. intros h [= <-].
      rewrite bool_decide_eq_true_2 by set_solver. by apply Hrec.
  - destruct Hc3 as [(l & Hl & Hcase) Hst]. destruct (cs_channels w !! load) as [an|] eqn:Hch.
    + destruct Hcase as [Hrun|(an' & [= <-] & Hla & Hfin)].
      { destruct (st_loads _ Hw _ _ Hrun) as (_ & _ & Hnone). congruence. }
      destruct (st_channels _ Hw _ _ Hch) as (_ & Ha).
      assert (∀ stale hits, an_result an = Ok hits → recent w (cl_inval call) (cl_candidates call) (cl_now call) stale hits) as Hrec.
      { intros st hits Hres. exists load, an. do 3 (split; [done|]). split; [by rewrite Hla|by left]. }
      destruct Ha as (_ & Hret & _). unfold lookup_end in Hp. cbn [default] in Hp.
      destruct (an_result an) as [hits|e|p] eqn:Hres; [| |by destruct (Hret p)].
      * injection Hp as <- <- <-. do 3 (split; [done|]). do 2 (split; [done|]). split; [by intros st|].
        intros h [= <-]. by apply Hrec.
      * destruct stale as [stale|]; injection Hp as <- <- <-; do 3 (split; [done|]); do 2 (split; [done|]);
          (split; [by intros st|]); [|done]. intros h [= <-].
        rewrite bool_decide_eq_true_2 by set_solver. by apply Hst.
    + injection Hp as <- <- <-. do 3 (split; [done|]). do 2 (split; [done|]). cbn [cl_at call_at]. split; [|done].
      exists l. by rewrite Hch.
  - injection Hp as <- <- <-. rewrite app_nil_r. do 3 (split; [done|]). done.
Qed.

Lemma call_ok_state w w' own call :
  cs_now w' = cs_now w → cs_inval w' = cs_inval w → cs_loads w' = cs_loads w → cs_channels w' = cs_channels w →
  call_ok w own call → call_ok w' own call.
Proof. unfold call_ok, recent. by intros -> -> -> ->. Qed.

Lemma store_wf_poll w n call s' a started events :
  store_wf w → cs_calls w !! n = Some call →
  call_poll (cs_state w) (cs_channels w) call = Ok (s', a, started, events) →
  store_wf (mkCachedStore s' (cs_now w)
    (match started with
     | Some load => <[load := mkLoad (cl_candidates call) (cs_now w)]> (cs_loads w)
     | None => cs_loads w
     end)
    (cs_channels w) (<[n := call_at call a]> (cs_calls w)) (cs_events w ++ events) (cs_inval w)
    (<[n := told w n ++ events]> (cs_told w))).
Proof.
  intros Hw Hcall Hp. destruct started as [load|].
  - unfold call_poll in Hp. destruct (cl_at call) as [|load' stale|result] eqn:Hat.
    + apply bind_Ok in Hp as ([s r] & Hb & Hp). destruct r as [|load' stale event|stale]; [done| |by destruct stale].
      destruct (decide (event = Miss)) as [->|]; [|done]. injection Hp as <- <- <- <-. by eapply store_wf_miss.
    + destruct (cs_channels w !! load'); [destruct (lookup_end _ _)|]; done.
    + done.
  - destruct (call_poll_quiet _ _ _ _ _ _ Hw Hcall Hp) as (-> & HM & HL & Hok).
    apply store_wf_frame; [done|lia|done|done|].
    intros n' cl [[<- <-]|[Hne Hcl]]%lookup_insert_Some; unfold told; cbn [cs_told].
    + right. rewrite lookup_insert_eq. by eapply call_ok_state; [..|exact Hok].
    + left. by rewrite lookup_insert_ne.
Qed.

(** Dropping entries and in-flight slots, as invalidation and clearing do. *)
Lemma store_wf_drop w s' inval' :
  store_wf w → cache_wf config s' → running_loads s' = running_loads (cs_state w) → next_id s' = next_id (cs_state w) →
  (∀ k, cs_inval w k ≤ inval' k ≤ cs_now w) →
  (∀ c e, entries s' !! c = Some e → entries (cs_state w) !! c = Some e ∧ ∀ k, k ∈ RouteCandidates.keys c → inval' k = cs_inval w k) →
  (∀ c id, inflight s' !! c = Some id → inflight (cs_state w) !! c = Some id ∧ ∀ k, k ∈ RouteCandidates.keys c → inval' k = cs_inval w k) →
  store_wf (mkCachedStore s' (cs_now w) (cs_loads w) (cs_channels w) (cs_calls w) (cs_events w) inval' (cs_told w)).
Proof.
  intros Hw Hwf Hr Hn Hinval He Hi. pose proof Hw as [H1 H2 H3 H4 H5 H6 H7 H8 H9 H10 H11].
  set (w' := mkCachedStore _ _ _ _ _ _ _ _).
  split; cbn [cs_state cs_now cs_loads cs_channels cs_calls cs_events cs_inval cs_told w'];
    rewrite ?Hr, ?Hn; try done.
  - intros k. apply Hinval.
  - intros c id [(l & Hl & Hinv)%H7 Hk]%Hi. exists l. split; [done|].
    eapply after_invalidation_mono; [|exact Hinv]. intros k Hin. rewrite Hk by done. lia.
  - intros c e [(load & a & Ha & Hb & Hc & Hinv & Hm)%H8 Hk]%He. exists load, a. split_and!; try done.
    eapply after_invalidation_mono; [|exact Hinv]. intros k Hin. rewrite Hk by done. lia.
  - intros n call Hcall%H9. revert Hcall. apply call_ok_mono; [cbn; lia|intros k; apply Hinval|by left|done].
Qed.

Hypothesis Hconfig : config_ok config.

Lemma store_wf_finish w id load result s' :
  store_wf w → cs_loads w !! id = Some load → returns result →
  (∀ hits, result = Ok hits → read_between (ld_candidates load) hits (ld_start load) (cs_now w)) →
  finish hash_one config (cs_state w) (ld_candidates load) id result (cs_now w) = Ok s' →
  store_wf (mkCachedStore s' (cs_now w) (delete id (cs_loads w))
    (<[id := mkAnswer load (cs_now w) result]> (cs_channels w)) (cs_calls w)
    (cs_events w ++ if succeeded result then [] else [LoadError]) (cs_inval w) (cs_told w)).
Proof.
  intros Hw Hload Hret Hread Hf. pose proof Hw as [H1 H2 H3 H4 H5 H6 H7 H8 H9 H10 H11].
  destruct (H5 _ _ Hload) as (Hid & Hst & Hnone).
  apply finish_wf in Hf as (Hr1 & Hc' & Hr' & Hn' & Hin' & He'); [|done|done|].
  2: { intros c' (l & Hl & [Hlc _])%H7. congruence. }
  set (an := mkAnswer load (cs_now w) result). assert (answer_ok (cs_now w) an) as Han by (split_and!; [done|cbn; lia|done|done]).
  set (c := ld_candidates load) in *. set (w' := mkCachedStore _ _ _ _ _ _ _ _).
  split; cbn [cs_state cs_now cs_loads cs_channels cs_calls cs_events cs_inval cs_told w']; try done.
  - rewrite map_size_delete_Some by by eexists. lia.
  - lia.
  - intros i l [Hne Hl]%lookup_delete_Some. destruct (H5 _ _ Hl) as (Ha & Hb & Hc).
    split_and!; [lia|done|by rewrite lookup_insert_ne].
  - intros i a [[<- <-]|[Hne Ha]]%lookup_insert_Some; [split; [lia|done]|].
    destruct (H6 _ _ Ha). split; [lia|done].
  - intros c' i [Hi Hne]%Hin'. destruct (H7 _ _ Hi) as (l & Hl & Hinv). exists l. by rewrite lookup_delete_ne.
  - intros c' e Hce%He'.
    destruct (decide (inflight (cs_state w) !! c = Some id ∧ succeeded result = true ∧ c' = c)) as [(Ho & Hs & ->)|Hno].
    + destruct Hce as (hits & Hres & Hm). pose proof Hm as (Hh & _). exists id, an.
      rewrite lookup_insert_eq, Hh. do 3 (split; [done|]). split; [|done].
      destruct (H7 _ _ Ho) as (l & Hl & Hinv). by replace (an_load an) with l by (cbn; congruence).
    + destruct (H8 _ _ Hce) as (load' & a & Ha & Hb). exists load', a. split; [|done].
      rewrite lookup_insert_ne; [done|]. intros <-. congruence.
  - intros n call Hcall%H9. revert Hcall. apply call_ok_mono; cbn; [lia|intros k; lia| |].
    + intros i l Hl. destruct (decide (i = id)) as [->|Hne].
      * right. exists an. rewrite lookup_insert_eq. split_and!; [done|cbn; congruence|cbn; lia].
      * left. by rewrite lookup_delete_ne.
    + intros i a Ha. rewrite lookup_insert_ne; [done|congruence].
  - fold (count_event Miss (cs_events w ++ if succeeded result then [] else [LoadError])). rewrite count_event_app.
    unfold count_event in *. rewrite H10, map_size_delete_Some, map_size_insert_None by (done || by eexists).
    assert (size (cs_loads w) ≠ 0%nat).
    { intros He%map_size_empty_inv. by rewrite He in Hload. }
    by destruct (succeeded result); cbn [List.filter]; rewrite ?bool_decide_eq_false_2 by done; len_lia.
  - fold (count_event LoadError (cs_events w ++ if succeeded result then [] else [LoadError])).
    rewrite count_event_app. unfold count_event in *. rewrite H11. destruct (succeeded result) eqn:Hs; cbn [List.filter].
    + rewrite map_filter_insert_False by (cbn; congruence). rewrite delete_id; [len_lia|done].
    + rewrite map_filter_insert_True by done. rewrite map_size_insert_None.
      * rewrite bool_decide_eq_true_2 by done. len_lia.
      * apply map_lookup_filter_None. by left.
Qed.

Lemma store_wf_init : store_wf store_init.
Proof.
  split; cbn [cs_state cs_now cs_loads cs_channels cs_calls cs_events cs_inval cs_told store_init]; try done.
  - apply cache_wf_empty.
  - cbn. lia.
Qed.

Lemma store_wf_step w w' : store_wf w → store_step w w' → store_wf w'.
Proof.
  intros Hw [now Hnow|n c Hn|n call s' a started events Hcall Hp|n|id load result s' H1 H2 H3 H4|key|].
  - rewrite <- (app_nil_r (cs_events w)). apply store_wf_frame; [done..|]. by left.
  - rewrite <- (app_nil_r (cs_events w)). apply store_wf_frame; [done|lia|done|done|].
    intros n' call [[<- <-]|[Hne Hcall]]%lookup_insert_Some; unfold told; cbn [cs_told].
    + right. split; [cbn; lia|]. split; [done|done].
    + left. by rewrite lookup_insert_ne.
  - by apply store_wf_poll.
  - rewrite <- (app_nil_r (cs_events w)). apply store_wf_frame; [done|lia|done|done|].
    intros n' call [_ Hcall]%lookup_delete_Some. by left.
  - by eapply store_wf_finish.
  - destruct (invalidate_spec config (cs_state w) key (st_cache _ Hw)) as (Hc & Hr & Hnx & He & Hi).
    pose proof (st_inval _ Hw) as Hinv. apply store_wf_drop; [done..| | |].
    + intros k. specialize (Hinv k). case_decide; lia.
    + intros c e [He' Hk]%He. split; [done|]. intros k Hin. rewrite decide_False; [done|congruence].
    + intros c id [Hi' Hk]%Hi. split; [done|]. intros k Hin. rewrite decide_False; [done|congruence].
  - pose proof (st_inval _ Hw) as Hinv. apply store_wf_drop; [done| |done|done|intros k; specialize (Hinv k); lia| |].
    + destruct (st_cache _ Hw) as [_ _ (_ & _ & Hf) _ _].
      eapply cache_wf_loads; [apply cache_wf_empty|done|done|done|simpl; lia|by intros ?].
    + by intros c e.
    + by intros c id.
Qed.

Lemma store_reachable_wf w : store_reachable w → store_wf w.
Proof. induction 1; [apply store_wf_init|by eapply store_wf_step]. Qed.

(** ** Progress *)

(** An awaiting call's load is running or has answered; the poll after the
    answer returns. *)
Lemma awaiting_polls w n call load stale an :
  store_wf w → cs_calls w !! n = Some call → cl_at call = CallAwaiting load stale →
  cs_channels w !! load = Some an →
  let r := lookup_end (Some (an_result an)) stale in
  call_poll (cs_state w) (cs_channels w) call = Ok (cs_state w, CallReturned r.1, None, r.2).
Proof.
  intros Hw Hcall Hat Han. unfold call_poll. rewrite Hat, Han. by destruct (lookup_end _ _).
Qed.
Lemma awaiting_returns w n call load stale an :
  store_wf w → cs_calls w !! n = Some call → cl_at call = CallAwaiting load stale →
  cs_channels w !! load = Some an →
  ∃ w', store_step w w' ∧
    cs_calls w' !! n = Some (call_at call (CallReturned (lookup_end (Some (an_result an)) stale).1)).
Proof.
  intros Hw Hcall Hat Han. eexists. split; [eapply store_poll; [done|by eapply awaiting_polls]|].
  cbn [cs_calls]. apply lookup_insert_eq.
Qed.

(** A running load can always end, at the latest by its timeout. *)
Lemma load_ends w id l e :
  store_wf w → cs_loads w !! id = Some l →
  ∃ w', store_step w w' ∧ cs_calls w' = cs_calls w ∧ cs_channels w' !! id = Some (mkAnswer l (cs_now w) (Err e)).
Proof.
  intros Hw Hl. assert (1 ≤ running_loads (cs_state w)) as Hr.
  { rewrite (st_running _ Hw). assert (size (cs_loads w) ≠ 0%nat); [|lia].
    intros He%map_size_empty_inv. by rewrite He in Hl. }
  destruct (finish_error hash_one config (cs_state w) (ld_candidates l) id e (cs_now w) Hr) as [s' Hs].
  eexists. split; [by apply (store_finish w id l (Err e) s' Hl)|].
  split; [done|]. apply lookup_insert_eq.
Qed.

Lemma awaiting_progress w n call load stale :
  store_wf w → cs_calls w !! n = Some call → cl_at call = CallAwaiting load stale →
  ∃ w' result, rtc store_step w w' ∧ cs_calls w' !! n = Some (call_at call (CallReturned result)).
Proof.
  intros Hw Hcall Hat. pose proof (st_calls _ Hw _ _ Hcall) as (_ & _ & Hok). rewrite Hat in Hok.
  destruct Hok as [(l & _ & [Hrun|(a & Ha & _)]) _].
  - destruct (load_ends w load l load_aborted Hw Hrun) as (w1 & Hs1 & Hc1 & Ha1).
    pose proof (store_wf_step _ _ Hw Hs1) as Hw1. rewrite <- Hc1 in Hcall.
    destruct (awaiting_returns _ _ _ _ _ _ Hw1 Hcall Hat Ha1) as (w2 & Hs2 & Hc2).
    exists w2. eexists. split; [by eapply rtc_l, rtc_once|exact Hc2].
  - destruct (awaiting_returns _ _ _ _ _ _ Hw Hcall Hat Ha) as (w2 & Hs2 & Hc2).
    exists w2. eexists. split; [by eapply rtc_once|exact Hc2].
Qed.
Lemma locking_progress w n call :
  store_wf w → cs_calls w !! n = Some call → cl_at call = CallLocking →
  next_id (cs_state w) < usize_max → max_inflight_loads config < usize_max →
  ∃ w' result, rtc store_step w w' ∧ cs_calls w' !! n = Some (call_at call (CallReturned result)).
Proof.
  intros Hw Hcall Hat Hid Hmax.
  destruct (lookup_begin_returns config (cs_state w) (cl_candidates call) (cl_now call) Hid (st_bound _ Hw) Hmax)
    as (s' & r & Hb).
  assert (∃ a started events, call_poll (cs_state w) (cs_channels w) call = Ok (s', a, started, events) ∧
    a ≠ CallLocking) as (a & started & events & Hp & Ha).
  { unfold call_poll. rewrite Hat, Hb. destruct r as [| |[]]; do 3 eexists; (split; [reflexivity|done]). }
  pose proof (store_poll w _ _ _ _ _ _ Hcall Hp) as Hs. pose proof (store_wf_step _ _ Hw Hs) as Hw'.
  set (w1 := mkCachedStore _ _ _ _ _ _ _ _) in Hs, Hw'.
  assert (cs_calls w1 !! n = Some (call_at call a)) as Hcall1 by apply lookup_insert_eq.
  destruct a as [|load stale|result]; [done| |].
  - destruct (awaiting_progress w1 n _ load stale Hw' Hcall1 eq_refl) as (w2 & result & H1 & H2).
    exists w2, result. split; [by eapply rtc_l|done].
  - exists w1, result. split; [by apply rtc_once|done].
Qed.
End Store.

(** Selecting from literal hits. *)
Lemma literal_route t host hits m :
  wf_table t → literal t (candidate_keys host) hits →
  matched (select_route (candidate_keys host) hits) = Some m ↔ best_route t host m.
Proof. intros Hwf Hlit. rewrite (select_route_contract t) by exact Hlit. by apply table_route_best. Qed.

(** ** An example: one call, its load, and its answer *)
Definition example_tables : Instant → gmap RouteKey Backend := λ _, im_routes example_routes.
Lemma example_call_returned table_at :
  table_at 0 = im_routes example_routes →
  ∃ w call, store_reachable (λ _, 2 ^ 63) CacheConfig_default table_at w ∧ cs_calls w !! 0 = Some call ∧
    cl_at call = CallReturned (Ok example_hits) ∧ cl_candidates call = example_host_candidates ∧
    cs_state w = example_cached ∧ cs_now w = 1 ∧ cs_calls w !! 1 = None.
Proof.
  intros Htable. do 2 eexists. split.
  - eapply store_next; [eapply store_next; [eapply store_next; [eapply store_next; [eapply store_next; [apply store_start|]|]|]|]|].
    + apply (store_call _ _ _ store_init 0 example_host_candidates). done.
    + apply (store_poll _ _ _ _ 0 (mkCall example_host_candidates 0 CallLocking (λ _, 0)) example_loading
        (CallAwaiting 0 None) (Some 0) [Miss]); [done|].
      unfold call_poll. cbn [cl_at cl_candidates cl_now cs_state store_init]. by rewrite example_loading_eq.
    + apply (store_clock _ _ _ _ 1). cbn. lia.
    + apply (store_finish _ _ _ _ 0 (mkLoad example_host_candidates 0) (Ok example_hits) example_cached).
      * apply lookup_insert_eq.
      * by intros p.
      * intros hits [= <-]. exists 0. split; [cbn; lia|]. rewrite Htable. intros k b. apply in_memory_hits_elem.
      * exact example_cached_eq.
    + eapply (store_poll _ _ _ _ 0).
      * cbn [cs_calls]. apply lookup_insert_eq.
      * unfold call_poll. cbn [cl_at call_at cs_channels]. rewrite lookup_insert_eq. reflexivity.
  - split_and!; [apply lookup_insert_eq|done..].
Qed.
(** The call before its first poll. *)
Lemma example_call_started :
  ∃ w call, store_reachable (λ _, 2 ^ 63) CacheConfig_default example_tables w ∧ cs_calls w !! 0 = Some call ∧
    next_id (cs_state w) = 0.
Proof.
  do 2 eexists. split; [eapply store_next; [apply store_start|apply (store_call _ _ _ store_init 0 example_host_candidates); done]|].
  split; [apply lookup_insert_eq|done].
Qed.

(** ** Properties *)

(** C25: bounded staleness over a changing store.  [cs_channels] records what each
    load answered, and when it ended.  Whatever calls, loads, timeouts,
    invalidations and clears interleave while the store's table changes, hits
    returned by [cached_lookup] are what one of those loads answered for the very
    candidates: what the store held at an instant [t] while it ran.  That load
    started after every invalidation (of a candidate key, or of all) made before
    the call; and it ended after the call began, or the call began within the TTL
    of its end, with its jitter.  Only a call that recorded [StaleServed] may
    have begun later, within the configured stale window after the TTL.  So a
    host routed by the returned hits goes to the best route of the table of that
    instant. *)
Theorem cached_lookup_recent hash_one config table_at w n call hits :
  config_ok config → store_reachable hash_one config table_at w →
  cs_calls w !! n = Some call → cl_at call = CallReturned (Ok hits) →
  let c := cl_candidates call in
  ∃ load a t, cs_channels w !! load = Some a ∧ an_result a = Ok hits ∧ ld_candidates (an_load a) = c ∧
    ld_start (an_load a) ≤ t ≤ an_finish a ∧ an_finish a ≤ cs_now w ∧
    (∀ k, k ∈ RouteCandidates.keys c → cl_inval call k ≤ ld_start (an_load a)) ∧
    (cl_now call ≤ an_finish a ∨
     ∃ id, cl_now call < an_finish a + (entry_ttl hash_one config hits id +
       if bool_decide (StaleServed ∈ told w n) then default 0 (stale_if_error config) else 0)) ∧
    literal (table_at t) c hits ∧
    (∀ host m, c = candidate_keys host → wf_table (table_at t) →
       matched (select_route c hits) = Some m ↔ best_route (table_at t) host m).
Proof.
  intros Hconfig Hr Hcall Hat c. pose proof (store_reachable_wf _ _ _ Hconfig _ Hr) as Hw.
  destruct (returned_recent _ _ _ _ _ _ _ Hw Hcall Hat)
    as (load & a & Hch & ([H1 H2] & _ & Hread) & Hres & (Hlc & Hinv) & Hage).
  destruct (Hread _ Hres) as (t & Ht & Hlit). rewrite Hlc in Hlit.
  exists load, a, t. do 8 (split; [done|]). intros host m Hc Hwf. subst c. rewrite Hc in Hlit |- *.
  by apply literal_route.
Qed.
(** The example's call began at 0 and its load ended at 1. *)
Lemma cached_lookup_recent_witness :
  ∃ w load a, cs_channels w !! load = Some a ∧ an_result a = Ok example_hits ∧ an_finish a ≤ 1.
Proof.
  destruct (example_call_returned example_tables eq_refl) as (w & call & Hw & Hcall & Hat & _ & _ & Hnow & _).
  destruct (cached_lookup_recent _ _ _ w 0 call example_hits default_config_ok Hw Hcall Hat)
    as (load & a & t & Hch & Hres & _ & _ & Hfin & _).
  exists w, load, a. split; [exact Hch|]. split; [exact Hres|]. rewrite <- Hnow. exact Hfin.
Defined.

(** C35: no call is left waiting for nobody.  A call that waits for a load waits
    for one that still runs or has answered, and after the answer its next poll
    returns it, or the stale hits instead of an error; a running load can end at
    any time, its timeout at the latest; so every call can return, whatever
    was invalidated, cleared or dropped meanwhile. *)
Theorem cached_call_progress hash_one config table_at w n call :
  config_ok config → store_reachable hash_one config table_at w → cs_calls w !! n = Some call →
  next_id (cs_state w) < usize_max → max_inflight_loads config < usize_max →
  (∀ load stale, cl_at call = CallAwaiting load stale →
     (∃ l, cs_loads w !! load = Some l ∧
        ∀ error, ∃ w', store_step hash_one config table_at w w' ∧ cs_channels w' !! load = Some (mkAnswer l (cs_now w) (Err error))) ∨
     (∃ answer, cs_channels w !! load = Some answer ∧
        let r := lookup_end (Some (an_result answer)) stale in
        call_poll config (cs_state w) (cs_channels w) call = Ok (cs_state w, CallReturned r.1, None, r.2))) ∧
  ∃ w' result, rtc (store_step hash_one config table_at) w w' ∧
    cs_calls w' !! n = Some (call_at call (CallReturned result)).
Proof.
  intros Hconfig Hr Hcall Hid Hmax. pose proof (store_reachable_wf _ _ _ Hconfig _ Hr) as Hw.
  pose proof (st_calls _ _ _ _ Hw _ _ Hcall) as (_ & _ & Hok). split.
  { intros load stale Hat. rewrite Hat in Hok. destruct Hok as [(l & _ & [Hrun|(a & Ha & _)]) _]; [left|right].
    - exists l. split; [done|]. intros error. destruct (load_ends _ _ _ w load l error Hw Hrun) as (w' & H1 & _ & H2). eauto.
    - exists a. split; [done|]. by eapply awaiting_polls. }
  destruct (cl_at call) as [|load stale|result] eqn:Hat.
  - by eapply locking_progress.
  - by eapply awaiting_progress.
  - exists w, result. split; [done|]. rewrite Hcall, <- Hat. by destruct call.
Qed.
Lemma cached_call_progress_witness :
  ∃ w call result, cs_calls w !! 0 = Some (call_at call (CallReturned result)).
Proof.
  destruct example_call_started as (w & call & Hw & Hcall & Hid).
  destruct (cached_call_progress _ _ _ w 0 call default_config_ok Hw Hcall) as (_ & w' & result & _ & H).
  - rewrite Hid. reflexivity.
  - reflexivity.
  - exists w', call, result. exact H.
Defined.

(** What the cache's metrics count: a miss for every load started, a load error
    for every load that ended without an answer. *)
Lemma cache_metrics_count hash_one config table_at w :
  config_ok config → store_reachable hash_one config table_at w →
  count_event Miss (cs_events w) = N.of_nat (size (cs_loads w)) + N.of_nat (size (cs_channels w)) ∧
  count_event LoadError (cs_events w) =
    N.of_nat (size (filter (λ x, succeeded (an_result x.2) = false) (cs_channels w))).
Proof.
  intros Hconfig Hr. pose proof (store_reachable_wf _ _ _ Hconfig _ Hr) as Hw.
  split; [apply (st_misses _ _ _ _ Hw)|apply (st_errors _ _ _ _ Hw)].
Qed.

(** ** A new route behind a wildcard *)

(** The store of the example gains an exact route for the host. *)
Definition example_new_route : RouteMatch :=
  mkRouteMatch (RouteKey.exact (mkHostname (lit "a.b.c"))) (mkBackend (Dns (lit "x")) 443).
Definition example_changing (t : Instant) : gmap RouteKey Backend :=
  if t <=? 1 then im_routes example_routes
  else <[match_key example_new_route := match_backend example_new_route]> (im_routes example_routes).

Lemma example_served_at now :
  now ≤ from_secs 30 →
  lookup_begin CacheConfig_default example_cached example_host_candidates now =
  Ok (example_cached, Served example_hits Hit).
Proof.
  intros Hnow. unfold lookup_begin. destruct example_entry as (e & -> & Hh & He). simpl. rewrite He, Hh.
  destruct (N.ltb_spec now (from_secs 30 + 1)); [done|lia].
Qed.

(** A route is "newly added" for the cache only when nothing covered the host:
    an exact route added behind a cached wildcard hit is not seen within
    [negative_ttl].  Twenty seconds after it is in the store, four times
    [negative_ttl], a call still returns the wildcard's backend. *)
Theorem new_route_hidden_by_wildcard :
  ∃ w call, store_reachable (λ _, 2 ^ 63) CacheConfig_default example_changing w ∧
    cs_calls w !! 1 = Some call ∧ cl_candidates call = candidate_keys (mkHostname (lit "a.b.c")) ∧
    cl_at call = CallReturned (Ok example_hits) ∧
    2 + 4 * negative_ttl CacheConfig_default ≤ cl_now call ∧
    (∀ t, 2 ≤ t → best_route (example_changing t) (mkHostname (lit "a.b.c")) example_new_route) ∧
    matched (select_route (cl_candidates call) example_hits) =
      Some (mkRouteMatch (mkRouteKey (lit "*.b.c") true) (mkBackend (Dns (lit "w")) 443)).
Proof.
  destruct (example_call_returned example_changing eq_refl) as (w & _ & Hw & _ & _ & _ & Hs & Hnow & Hfree).
  do 2 eexists. split.
  - eapply store_next; [eapply store_next; [eapply store_next; [exact Hw|]|]|].
    + apply (store_clock _ _ _ _ (2 + from_secs 20)). rewrite Hnow. vm_compute. discriminate.
    + eapply (store_call _ _ _ _ 1 example_host_candidates). exact Hfree.
    + eapply (store_poll _ _ _ _ 1); [cbn [cs_calls]; apply lookup_insert_eq|].
      unfold call_poll. cbn [cl_at cl_candidates cl_now cs_state cs_now]. rewrite Hs, example_served_at; [reflexivity|].
      vm_compute. discriminate.
  - split; [apply lookup_insert_eq|]. split; [reflexivity|]. split; [reflexivity|].
    split; [vm_compute; discriminate|]. split; [|vm_compute; reflexivity].
    intros t Ht. unfold example_changing. destruct (N.leb_spec t 1); [lia|].
    apply table_route_best; [|vm_compute; reflexivity]. unfold wf_table. vm_decide.
Qed.
