(* ===== verification/CacheTests.v ===== *)
(** * The cache's own tests, evaluated on the model ([cache.rs], [mod tests])

    A harness that runs calls of the cache and their loads on tokio's paused
    clock, one event at a time, and each test of the module as a function that
    panics where the test's [unwrap] would and says whether its assertions
    hold. *)

From S2P Require Import Prelude Async F64 Jitter Str Net Names Lookup Routing Metrics Testing Cache CacheProofs CacheStore.
From Stdlib Require Import SpecFloat.
Import CacheState.

(** A load: the id of its channel, its candidates, when it ends and with what. *)
Record RunningLoad := mkRunningLoad {
  rl_id : N;
  rl_candidates : RouteCandidates;
  rl_ends : Instant;
  rl_result : LoadResult;
}.

(** The cache over a scripted lookup, the recorded metrics and the clock. *)
Record Harness := mkHarness {
  h_inner : ScriptedLookup;
  h_state : CacheState;
  h_metrics : RecordingMetrics;
  h_config : CacheConfig;
  h_now : Instant;
  h_loads : list RunningLoad;
  h_sent : gmap N LoadResult;
}.
(** A call under way. *)
Inductive Pending := Answered (result : LoadResult) | WaitsFor (load : N) (stale : option RouteHits).

Section Harness.
Context (hash_one : N → N).

Definition record_cache (es : list CacheEvent) (m : RecordingMetrics) : RecordingMetrics :=
  record_all m (CacheMetric <$> es).

Definition cache (behavior : LookupBehavior) (config : CacheConfig) : Harness :=
  mkHarness (ScriptedLookup.new behavior) CacheState.empty RecordingMetrics.new config 0 [] ∅.

(** A load ends: [LoadGuard::finish], then the send. *)
Definition end_load (l : RunningLoad) (h : Harness) : section Harness :=
  s ← finish hash_one (h_config h) (h_state h) (rl_candidates l) (rl_id l) (rl_result l) (rl_ends l);
  Ok (mkHarness (h_inner h) s
    (record_cache (if succeeded (rl_result l) then [] else [LoadError]) (h_metrics h)) (h_config h) (rl_ends l)
    (List.filter (λ l', negb (rl_id l' =? rl_id l)) (h_loads h)) (<[rl_id l := rl_result l]> (h_sent h))).

(** The running load that ends first, by [until]. *)
Definition next_load (until : Instant) (loads : list RunningLoad) : option RunningLoad :=
  foldr (λ l best, if rl_ends l <=? match best with Some b => rl_ends b | None => until end then Some l else best)
    None loads.
Fixpoint end_loads (fuel : nat) (until : Instant) (h : Harness) : section Harness :=
  match fuel, next_load until (h_loads h) with
  | S fuel, Some l => h ← end_load l h; end_loads fuel until h
  | _, _ => Ok (mkHarness (h_inner h) (h_state h) (h_metrics h) (h_config h) until (h_loads h) (h_sent h))
  end.
(** [tokio::time::advance] and [sleep]: the loads due by then end first. *)
Definition advance (d : Duration) (h : Harness) : section Harness :=
  end_loads (length (h_loads h)) (h_now h + d) h.

(** A load of the scripted lookup: it ends with its answer or at its timeout;
    a panic drops its guard. *)
Definition spawn_load (id : N) (c : RouteCandidates) (h : Harness) : Harness :=
  let '(answer, inner) := ScriptedLookup.lookup (h_inner h) c in
  let result := match load_result (H0 := simple_timeout) (h_config h) (h_inner h) c with
                | Stuck _ => Err load_aborted
                | result => result
                end in
  let ends := h_now h + match fut_after answer with
                        | Some after => after `min` load_timeout (h_config h)
                        | None => load_timeout (h_config h)
                        end in
  mkHarness inner (h_state h) (h_metrics h) (h_config h) (h_now h)
    (h_loads h ++ [mkRunningLoad id c ends result]) (h_sent h).

(** A call of [cached_lookup], up to where it waits. *)
Definition start_lookup (c : RouteCandidates) (h : Harness) : section (Pending * Harness) :=
  '(s, r) ← lookup_begin (h_config h) (h_state h) c (h_now h);
  let after es := mkHarness (h_inner h) s (record_cache es (h_metrics h)) (h_config h) (h_now h) (h_loads h) (h_sent h) in
  match r with
  | Served hits event => Ok (Answered (Ok hits), after [event])
  | Waiting load stale event =>
    Ok (WaitsFor load stale, if decide (event = Miss) then spawn_load load c (after [event]) else after [event])
  | Shed stale => let '(result, es) := shed stale in Ok (Answered result, after es)
  end.

(** What the call returns once its load has answered; the load must be running
    or over. *)
Definition finish_lookup (load : N) (stale : option RouteHits) (h : Harness) : section (LoadResult * Harness) :=
  let '(result, es) := lookup_end (h_sent h !! load) stale in
  Ok (result, mkHarness (h_inner h) (h_state h) (record_cache es (h_metrics h)) (h_config h) (h_now h) (h_loads h) (h_sent h)).
Definition ends_of (load : N) (h : Harness) : option Instant :=
  rl_ends <$> List.find (λ l, rl_id l =? load) (h_loads h).
Definition await (p : Pending) (h : Harness) : section (LoadResult * Harness) :=
  match p with
  | Answered result => Ok (result, h)
  | WaitsFor load stale =>
    h ← match ends_of load h with
        | Some ends => advance (ends - h_now h) h
        | None => Ok h
        end;
    finish_lookup load stale h
  end.
Definition lookup_for (c : RouteCandidates) (h : Harness) : section (LoadResult * Harness) :=
  '(p, h) ← start_lookup c h; await p h.
(** [timeout(d, cache.lookup(c))]: [None] when it elapsed. *)
Definition lookup_timeout (d : Duration) (c : RouteCandidates) (h : Harness) : section (option LoadResult * Harness) :=
  '(p, h) ← start_lookup c h;
  let late := match p with
              | Answered _ => false
              | WaitsFor load _ => match ends_of load h with Some ends => h_now h + d <? ends | None => false end
              end in
  if late then h ← advance d h; Ok (None, h)
  else '(result, h) ← await p h; Ok (Some result, h).

Definition with_behavior (b : LookupBehavior) (h : Harness) : Harness :=
  mkHarness (ScriptedLookup.set_behavior b (h_inner h)) (h_state h) (h_metrics h) (h_config h) (h_now h) (h_loads h) (h_sent h).
Definition with_state (s : CacheState) (h : Harness) : Harness :=
  mkHarness (h_inner h) s (h_metrics h) (h_config h) (h_now h) (h_loads h) (h_sent h).
Definition calls (h : Harness) : N := scripted_calls (h_inner h).
Definition count_cache (e : CacheEvent) (h : Harness) : N := RecordingMetrics.count_cache e (h_metrics h).

(** [unwrap] and [is_err] of what a lookup returned. *)
Definition unwrap (r : LoadResult * Harness) : section (RouteHits * Harness) :=
  match r.1 with Ok hits => Ok (hits, r.2) | _ => Stuck SPanic end.
Definition is_err (r : LoadResult) : bool := match r with Err _ => true | _ => false end.
Definition hits_for (c : RouteCandidates) (h : Harness) : section (RouteHits * Harness) :=
  r ← lookup_for c h; unwrap r.

(** ** The tests' fixtures *)
Definition ROUTES : list (bytes * bytes) := [(lit "a.test", lit "a:1"); (lit "b.test", lit "b:1"); (lit "c.test", lit "c:1")].
Definition candidates (name : bytes) : section RouteCandidates :=
  match Hostname.parse name with Ok host => Ok (RouteCandidates.for_hostname host) | _ => Stuck SPanic end.
Definition found : section LookupBehavior := t ← route_table ROUTES; Ok (Routes t).
Definition delayed (routes : list (bytes * bytes)) : section LookupBehavior :=
  t ← route_table routes; Ok (Delayed (from_millis 100) t).
Definition no_jitter : CacheConfig :=
  mkCacheConfig (ttl CacheConfig_default) (negative_ttl CacheConfig_default) (as_f64 0)
    (max_entries CacheConfig_default) (stale_if_error CacheConfig_default) (load_timeout CacheConfig_default)
    (max_inflight_loads CacheConfig_default).
(** [no_jitter] with some fields set. *)
Definition with_stale (d : Duration) (c : CacheConfig) : CacheConfig :=
  mkCacheConfig (ttl c) (negative_ttl c) (jitter c) (max_entries c) (Some d) (load_timeout c) (max_inflight_loads c).
Definition with_loads (limit : N) (load_timeout : Duration) (c : CacheConfig) : CacheConfig :=
  mkCacheConfig (ttl c) (negative_ttl c) (jitter c) (max_entries c) (stale_if_error c) load_timeout limit.
Definition with_max_entries (n : N) (c : CacheConfig) : CacheConfig :=
  mkCacheConfig (ttl c) (negative_ttl c) (jitter c) n (stale_if_error c) (load_timeout c) (max_inflight_loads c).

(** ** The tests *)
Definition second_lookup_is_served_from_cache : section bool :=
  behavior ← found; key ← candidates (lit "a.test");
  '(first, h) ← hits_for key (cache behavior no_jitter);
  '(second, h) ← hits_for key h;
  Ok ((len first =? 1) && (len second =? 1) && (calls h =? 1) &&
      bool_decide (RecordingMetrics.cache_events (h_metrics h) = [Miss; Hit])).

Definition entries_expire_after_ttl : section bool :=
  behavior ← found; key ← candidates (lit "a.test");
  '(_, h) ← hits_for key (cache behavior no_jitter);
  h ← advance (from_secs 29) h; '(_, h) ← hits_for key h;
  let cached := calls h =? 1 in
  h ← advance (from_secs 2) h; '(_, h) ← hits_for key h;
  Ok (cached && (calls h =? 2)).

Definition jitter_keeps_ttl_within_bounds : section bool :=
  behavior ← found; key ← candidates (lit "a.test");
  '(_, h) ← hits_for key (cache behavior CacheConfig_default);
  h ← advance (from_millis 26900) h; '(_, h) ← hits_for key h;
  let cached := calls h =? 1 in
  h ← advance (from_millis 6200) h; '(_, h) ← hits_for key h;
  Ok (cached && (calls h =? 2)).

Definition misses_are_cached_for_negative_ttl : section bool :=
  behavior ← found; key ← candidates (lit "missing.test");
  '(first, h) ← hits_for key (cache behavior no_jitter);
  '(second, h) ← hits_for key h;
  let cached := is_empty first && is_empty second && (calls h =? 1) && (count_cache NegativeHit h =? 1) in
  h ← advance (from_secs 6) h; '(_, h) ← hits_for key h;
  Ok (cached && (calls h =? 2)).

Definition errors_are_not_cached : section bool :=
  key ← candidates (lit "a.test");
  '(first, h) ← lookup_for key (cache (FailWith (lit "down")) no_jitter);
  '(second, h) ← lookup_for key h;
  Ok (is_err first && is_err second && (calls h =? 2) && (count_cache LoadError h =? 2) && (cache_len (h_state h) =? 0)).

(** [n] calls spawned at once, then awaited in order. *)
Fixpoint start_lookups (n : nat) (key : RouteCandidates) (h : Harness) : section (list Pending * Harness) :=
  match n with
  | O => Ok ([], h)
  | S n => '(p, h) ← start_lookup key h; '(ps, h) ← start_lookups n key h; Ok (p :: ps, h)
  end.
Fixpoint await_all (ps : list Pending) (h : Harness) : section (list RouteHits * Harness) :=
  match ps with
  | [] => Ok ([], h)
  | p :: ps => r ← await p h; '(hits, h) ← unwrap r; '(all, h) ← await_all ps h; Ok (hits :: all, h)
  end.
Definition concurrent_misses_share_one_load : section bool :=
  behavior ← delayed ROUTES; key ← candidates (lit "a.test");
  '(waiters, h) ← start_lookups 100 key (cache behavior no_jitter);
  '(answers, h) ← await_all waiters h;
  Ok (forallb (λ hits, len hits =? 1) answers && (calls h =? 1) && (count_cache Miss h =? 1) &&
      (count_cache Coalesced h =? 99)).

Definition cancelled_first_caller_does_not_cancel_the_load : section bool :=
  behavior ← delayed ROUTES; key ← candidates (lit "a.test");
  '(gave_up, h) ← lookup_timeout (from_millis 10) key (cache behavior no_jitter);
  '(hits, h) ← hits_for key h;
  Ok (bool_decide (gave_up = None) && (len hits =? 1) && (calls h =? 1)).

Definition load_completes_and_caches_with_no_waiters_left : section bool :=
  behavior ← delayed ROUTES; key ← candidates (lit "a.test");
  '(_, h) ← lookup_timeout (from_millis 10) key (cache behavior no_jitter);
  h ← advance (from_millis 200) h; '(_, h) ← hits_for key h;
  Ok ((calls h =? 1) && bool_decide (list.last (RecordingMetrics.cache_events (h_metrics h)) = Some Hit)).

Definition panicking_load_wakes_waiters_and_next_lookup_starts_fresh : section bool :=
  behavior ← found; key ← candidates (lit "a.test");
  '(first, h) ← lookup_for key (cache PanicOnCall no_jitter);
  '(hits, h) ← hits_for key (with_behavior behavior h);
  Ok (is_err first && (len hits =? 1) && (calls h =? 2)).

Definition hung_load_is_abandoned_after_load_timeout : section bool :=
  behavior ← found; key ← candidates (lit "a.test");
  '(_, h) ← lookup_timeout (from_millis 100) key
    (cache Hang (with_loads (max_inflight_loads no_jitter) (from_secs 1) no_jitter));
  h ← advance (from_secs 2) h;
  let abandoned := count_cache LoadError h =? 1 in
  '(hits, h) ← hits_for key (with_behavior behavior h);
  Ok (abandoned && (len hits =? 1) && (calls h =? 2)).

(** [cache.invalidate] and [cache.clear]. *)
Definition invalidate_key (name : bytes) (h : Harness) : section Harness :=
  match RouteKey.parse name with Ok key => Ok (with_state (invalidate (h_state h) key) h) | _ => Stuck SPanic end.
(** The backend of the first hit, as text; [unwrap]ped. *)
Definition first_backend (hits : RouteHits) : section bytes :=
  match hits with (_, backend) :: _ => Ok (Backend.fmt backend) | [] => Stuck SPanic end.

Definition lookup_after_invalidate_does_not_join_older_load : section bool :=
  old ← delayed [(lit "a.test", lit "old:1")]; new ← delayed [(lit "a.test", lit "new:1")];
  key ← candidates (lit "a.test");
  '(before, h) ← start_lookup key (cache old no_jitter);
  h ← advance (from_millis 10) h;
  h ← invalidate_key (lit "a.test") (with_behavior new h);
  '(after, h) ← hits_for key h; after ← first_backend after;
  r ← await before h; '(before, h) ← unwrap r; before ← first_backend before;
  let twice := calls h =? 2 in
  '(cached, h) ← hits_for key h; cached ← first_backend cached;
  Ok (bool_decide (after = lit "new:1") && bool_decide (before = lit "old:1") && twice &&
      bool_decide (cached = lit "new:1")).

Definition invalidating_one_key_still_caches_unrelated_loads : section bool :=
  behavior ← delayed ROUTES; b ← candidates (lit "b.test");
  '(loading, h) ← start_lookup b (cache behavior no_jitter);
  h ← advance (from_millis 10) h;
  h ← invalidate_key (lit "a.test") h;
  r ← await loading h; '(_, h) ← unwrap r;
  '(_, h) ← hits_for b h;
  Ok (calls h =? 1).

(** Lookups of the names, one after the other, each given ten milliseconds. *)
Fixpoint try_each (names : list bytes) (h : Harness) : section Harness :=
  match names with
  | [] => Ok h
  | name :: names => c ← candidates name; '(_, h) ← lookup_timeout (from_millis 10) c h; try_each names h
  end.
Definition saturated_loads_fail_closed_without_starting_more : section bool :=
  behavior ← found;
  h ← try_each [lit "a.test"; lit "b.test"; lit "c.test"; lit "d.test"]
    (cache Hang (with_loads 2 (from_secs 5) no_jitter));
  let saturated := (calls h =? 2) && (count_cache ShedEvent h =? 2) in
  h ← advance (from_secs 6) h;
  c ← candidates (lit "c.test"); '(hits, h) ← hits_for c (with_behavior behavior h);
  Ok (saturated && (len hits =? 1)).

Definition saturated_loads_serve_stale_when_allowed : section bool :=
  behavior ← found; a ← candidates (lit "a.test"); b ← candidates (lit "b.test");
  '(_, h) ← hits_for a (cache behavior (with_loads 1 (load_timeout no_jitter) (with_stale (from_secs 60) no_jitter)));
  h ← advance (from_secs 31) h;
  '(_, h) ← lookup_timeout (from_millis 10) b (with_behavior Hang h);
  '(hits, h) ← hits_for a h;
  Ok ((len hits =? 1) && (count_cache StaleServed h =? 1)).

Definition huge_ttls_do_not_panic : section bool :=
  behavior ← found; a ← candidates (lit "a.test"); missing ← candidates (lit "missing.test");
  '(_, h) ← hits_for a (cache behavior
    (mkCacheConfig duration_max duration_max (jitter CacheConfig_default) (max_entries no_jitter) (Some duration_max)
      (load_timeout no_jitter) (max_inflight_loads no_jitter)));
  '(_, h) ← hits_for missing h;
  '(_, h) ← hits_for a h;
  Ok (calls h =? 2).

Definition stale_entry_is_served_when_reload_fails_within_window : section bool :=
  behavior ← found; key ← candidates (lit "a.test");
  '(_, h) ← hits_for key (cache behavior (with_stale (from_secs 10) no_jitter));
  h ← advance (from_secs 31) (with_behavior (FailWith (lit "down")) h);
  '(hits, h) ← hits_for key h;
  let served := (len hits =? 1) && (count_cache StaleServed h =? 1) in
  h ← advance (from_secs 10) h;
  '(late, h) ← lookup_for key h;
  Ok (served && is_err late).

Definition stale_is_not_served_by_default : section bool :=
  behavior ← found; key ← candidates (lit "a.test");
  '(_, h) ← hits_for key (cache behavior no_jitter);
  h ← advance (from_secs 31) (with_behavior (FailWith (lit "down")) h);
  '(late, h) ← lookup_for key h;
  Ok (is_err late).

(** Lookups of the names, each of which must succeed and leave [check] true. *)
Fixpoint lookup_each (check : Harness → bool) (names : list bytes) (h : Harness) : section (bool * Harness) :=
  match names with
  | [] => Ok (true, h)
  | name :: names =>
    c ← candidates name; '(_, h) ← hits_for c h; '(rest, h') ← lookup_each check names h; Ok (check h && rest, h')
  end.
Definition full_cache_evicts_oldest_first : section bool :=
  behavior ← found;
  '(_, h) ← lookup_each (λ _, true) [lit "a.test"; lit "b.test"; lit "c.test"]
    (cache behavior (with_max_entries 2 no_jitter));
  let full := cache_len (h_state h) =? 2 in
  '(_, h) ← lookup_each (λ _, true) [lit "c.test"; lit "b.test"] h;
  let kept := calls h =? 3 in
  '(_, h) ← lookup_each (λ _, true) [lit "a.test"] h;
  Ok (full && kept && (calls h =? 4)).

Definition full_cache_purges_expired_before_evicting_live : section bool :=
  behavior ← found;
  '(_, h) ← lookup_each (λ _, true) [lit "missing.test"; lit "a.test"] (cache behavior (with_max_entries 2 no_jitter));
  h ← advance (from_secs 6) h;
  '(_, h) ← lookup_each (λ _, true) [lit "b.test"; lit "a.test"] h;
  Ok (calls h =? 3).

(** Index records exist for exactly the cached entries' keys. *)
Definition index_consistent (h : Harness) : bool :=
  let s := h_state h in
  let expected := foldl (λ idx c, foldl (index_key c) idx (RouteCandidates.keys c)) ∅ (map_to_list (entries s)).*1 in
  bool_decide (index s = expected).
Definition index_tracks_inserts_evictions_purges_and_invalidations : section bool :=
  routes ← route_table [(lit "a.test", lit "a:1"); (lit "*.w.test", lit "w:1"); (lit "b.test", lit "b:1")];
  '(tracked, h) ← lookup_each index_consistent
    [lit "a.test"; lit "x.w.test"; lit "y.w.test"; lit "missing.test"; lit "b.test"]
    (cache (Routes routes) (with_max_entries 3 no_jitter));
  h ← advance (from_secs 6) h;
  '(purged, h) ← lookup_each index_consistent [lit "z.w.test"] h;
  h ← invalidate_key (lit "*.w.test") h;
  let invalidated := index_consistent h &&
    forallb (λ c, bool_decide (RouteKey.as_str <$> rc_wildcard c ≠ Some (lit "*.w.test")))
      (map_to_list (entries (h_state h))).*1 in
  Ok (tracked && purged && invalidated && index_consistent (with_state (clear (h_state h)) h)).

Definition invalidate_drops_entries_for_a_key : section bool :=
  behavior ← found;
  '(_, h) ← lookup_each (λ _, true) [lit "x.a.test"; lit "b.test"] (cache behavior no_jitter);
  h ← invalidate_key (lit "*.a.test") h;
  '(_, h) ← lookup_each (λ _, true) [lit "x.a.test"; lit "b.test"] h;
  Ok (calls h =? 3).

Definition load_started_before_invalidation_is_not_cached : section bool :=
  behavior ← delayed ROUTES; key ← candidates (lit "a.test");
  '(first, h) ← start_lookup key (cache behavior no_jitter);
  h ← advance (from_millis 10) h;
  '(first, h) ← await first (with_state (clear (h_state h)) h);
  '(_, h) ← hits_for key h;
  Ok (negb (is_err first) && (calls h =? 2)).
End Harness.

(** Draws of the jitter's hash: the middle and both ends. *)
Definition draws : list (N → N) := [λ _, 0; λ _, 2 ^ 63; λ _, 2 ^ 64 - 1].
Definition passes (test : (N → N) → section bool) : bool :=
  forallb (λ draw, match test draw with Ok holds => holds | _ => false end) draws.

Lemma cache_tests_pass :
  forallb passes
    [second_lookup_is_served_from_cache; entries_expire_after_ttl; jitter_keeps_ttl_within_bounds;
     misses_are_cached_for_negative_ttl; errors_are_not_cached; concurrent_misses_share_one_load;
     cancelled_first_caller_does_not_cancel_the_load; load_completes_and_caches_with_no_waiters_left;
     panicking_load_wakes_waiters_and_next_lookup_starts_fresh; hung_load_is_abandoned_after_load_timeout;
     lookup_after_invalidate_does_not_join_older_load; invalidating_one_key_still_caches_unrelated_loads;
     saturated_loads_fail_closed_without_starting_more; saturated_loads_serve_stale_when_allowed;
     huge_ttls_do_not_panic; stale_entry_is_served_when_reload_fails_within_window; stale_is_not_served_by_default;
     full_cache_evicts_oldest_first; full_cache_purges_expired_before_evicting_live;
     index_tracks_inserts_evictions_purges_and_invalidations; invalidate_drops_entries_for_a_key;
     load_started_before_invalidation_is_not_cached] = true.
Proof. vm_compute. reflexivity. Qed.
