(* ===== verification/Embedded.v ===== *)
(** * A router embedded over a cached store (docs/knowledge/embedding.md)

    The library's parts put together: the pipeline of a connection, whose routes
    are answered by calls of the caching lookup over a store that changes, and
    whose backend names are resolved by calls of the resolver. *)

From S2P Require Import Prelude Async F64 Jitter Str Net Names Lookup Routing Protocol Reader Hello Records.
From S2P Require Import Framing Builder Parser HelloReader Metrics Gate Metered Splice SpliceProofs.
From S2P Require Import Proxy Resolver ResolverProofs Connection Pipeline ResolverCalls.
From S2P Require Import Cache CacheProofs CacheStore.

(** The lookup a connection makes: a call of [cached_lookup] in a run of the cache
    over the store, and how long it took to return; it never does while it
    waits. *)
Record CachedCall := mkCachedCall { cc_store : CachedStore; cc_call : N; cc_after : option Duration }.
#[global] Instance CachedCall_lookup : RouteLookup CachedCall := λ l c,
  match cs_calls (cc_store l) !! cc_call l with
  | Some call =>
    match decide (cl_candidates call = c), cl_at call with
    | left _, CallReturned result => mkFut result (cc_after l)
    | _, _ => mkFut (Err load_aborted) None
    end
  | None => mkFut (Err load_aborted) None
  end.
(** A call of the run [w], made at [since] or later. *)
Definition call_since (w : CachedStore) (since : Instant) (l : CachedCall) : Prop :=
  cc_store l = w ∧ ∃ call, cs_calls w !! cc_call l = Some call ∧ since ≤ cl_now call.

(** A name's addresses are what a call of [resolve] in the run [d] returned, made
    at [since] or later. *)
Definition resolved_since {Up Sem} (d : CallsWorld Sem) (since : Instant) (net : Net Up) : Prop :=
  ∀ name port addrs, resolve net name port = inr addrs →
  ∃ i c, dw_calls d !! i = Some c ∧ rc_key c = (name, port) ∧ since ≤ rc_began c ∧ rc_at c = Gave (inr addrs).

(** The route was selected from the hits a call of [w] returned, made at [since]
    or later; those are what a load of [w] answered that started after the
    invalidations made before the call, and [m] is the best route of the table
    the store held at an instant while that load ran; the load ended after the
    call began, or at most the jittered TTL before, or the stale window more if
    the call says it was served stale. *)
Definition recent_route (hash_one : N → N) (config : CacheConfig) (table_at : Instant → gmap RouteKey Backend)
    (w : CachedStore) (since : Instant) (host : Hostname) (m : RouteMatch) : Prop :=
  ∃ i call hits load a t,
    cs_calls w !! i = Some call ∧ since ≤ cl_now call ∧ cl_candidates call = candidate_keys host ∧
    cl_at call = CallReturned (Ok hits) ∧ matched (select_route (candidate_keys host) hits) = Some m ∧
    cs_channels w !! load = Some a ∧ an_result a = Ok hits ∧
    (∀ k, k ∈ RouteCandidates.keys (candidate_keys host) → cl_inval call k ≤ ld_start (an_load a)) ∧
    ld_start (an_load a) ≤ t ≤ an_finish a ∧ best_route (table_at t) host m ∧
    (cl_now call ≤ an_finish a ∨
     ∃ id, cl_now call < an_finish a + (jittered hash_one (ttl config) (jitter config) id +
       if bool_decide (StaleServed ∈ told w i) then default 0 (stale_if_error config) else 0)).

Lemma cached_call_lookup w i after call r :
  cs_calls w !! i = Some call → cl_at call = CallReturned r →
  lookup (mkCachedCall w i after) (cl_candidates call) = mkFut r after.
Proof. intros Hi Hat. unfold lookup, CachedCall_lookup. cbn. rewrite Hi. destruct (decide _); [by rewrite Hat|done]. Qed.
Lemma cached_call_Ok w since l c hits :
  call_since w since l → fut_value (lookup l c) = Ok hits →
  ∃ call, cs_calls w !! cc_call l = Some call ∧ since ≤ cl_now call ∧ cl_candidates call = c ∧
    cl_at call = CallReturned (Ok hits).
Proof.
  intros (<- & call & Hi & Hs). unfold lookup, CachedCall_lookup. rewrite Hi.
  destruct (decide _) as [Hc|]; [|done]. destruct (cl_at call) as [| |r] eqn:Hat; [done..|]. cbn. intros ->. by exists call.
Qed.

Lemma cached_route `{TimeoutSpec} hash_one config table_at w since l host limit m :
  config_ok config → (∀ t, wf_table (table_at t)) → store_reachable hash_one config table_at w →
  call_since w since l → resolve_route l host limit = Ok m → recent_route hash_one config table_at w since host m.
Proof.
  intros Hconfig Hwf Hw Hl (hits & Ha & Hm)%resolve_route_Ok.
  destruct (cached_call_Ok _ _ _ _ _ Hl Ha) as (call & Hi & Hs & Hc & Hat).
  pose proof (store_reachable_wf _ _ _ Hconfig _ Hw) as Hwf'.
  destruct (returned_recent _ _ _ _ _ _ _ Hwf' Hi Hat)
    as (load & a & Hch & ([H1 H2] & _ & Hread) & Hres & (Hlc & Hinv) & Hage). rewrite Hc in *.
  destruct (Hread _ Hres) as (t & Ht & Hlit). rewrite Hlc in Hlit.
  exists (cc_call l), call, hits, load, a, t. do 9 (split; [done|]). split; [by apply (literal_route _ _ hits)|].
  assert (hits ≠ []) as Hne.
  { intros ->. by apply find_map_Some in Hm as (l1 & x & l2 & _ & Hx & _). }
  destruct hits; [done|exact Hage].
Qed.
(** The address of a backend whose name was resolved by a call of the run. *)
Lemma resolved_recently `{SemaphoreSpec Sem free} {Up} system ttl0 max_concurrent (d : CallsWorld Sem) since
    (net : Net Up) b addr :
  calls_reachable system ttl0 max_concurrent d → resolved_since d since net → backend_address net b addr →
  match backend_host b with
  | Ip ip => addr = (ip, backend_port b)
  | Dns name => ∃ addrs t0 t, system t0 (name, backend_port b) (inr addrs) ∧ t0 ≤ t ∧
      ((name, backend_port b), addrs, t) ∈ rw_answers (dw_world d) ∧
      since < t + ttl0 + STALE_IF_ERROR + NEGATIVE_TTL ∧ addr ∈ addrs
  end.
Proof.
  intros Hd%(calls_reachable_wf (free := free)) Hnet Hadr. unfold backend_address in Hadr.
  destruct (backend_host b) as [ip|name]; [done|]. destruct Hadr as (addrs & Hr & Hin).
  destruct (Hnet _ _ _ Hr) as (i & c & Hn & Hk & Hs & Hat). pose proof (cw_calls _ _ _ _ Hd _ _ Hn) as Hok.
  unfold resolve_call_ok in Hok. rewrite Hat, Hk in Hok. destruct (Hok _ eq_refl) as (l & Hp & _ & t & Hans & Hlt).
  destruct (cw_answers _ _ _ _ Hd _ _ _ Hans) as (_ & t0 & Ht & Hsys). exists l, t0, t.
  split_and!; [done..|unfold Instant in *; lia|by rewrite <- Hp].
Qed.

(** ** An example: the lookup of [Pipeline.example_done], cached *)
Definition example_in_store : Instant → gmap RouteKey Backend := λ _, im_routes example_store.
Definition example_keys : RouteCandidates := candidate_keys (mkHostname (lit "a.test")).
Lemma example_cached_call :
  ∃ w call, store_reachable (λ _, 2 ^ 63) CacheConfig_default example_in_store w ∧ cs_calls w !! 0 = Some call ∧
    cl_candidates call = example_keys ∧
    cl_at call = CallReturned (Ok (InMemoryLookup.hits example_store example_keys)).
Proof.
  set (c := example_keys). set (hits := InMemoryLookup.hits example_store c).
  assert (∃ s, lookup_begin CacheConfig_default CacheState.empty c 0 = Ok (s, Waiting 0 None Miss) ∧
    running_loads s = 1 ∧ next_id s = 1) as (s & Hb & Hr & Hn).
  { eexists. split; [|split]; reflexivity. }
  destruct (finish_returns (λ _, 2 ^ 63) CacheConfig_default s c 0 (Ok hits) 0) as [s' Hf].
  { rewrite Hr. reflexivity. }
  { vm_compute. discriminate. }
  { rewrite Hn. reflexivity. }
  { left. vm_compute. discriminate. }
  { intros id. left. vm_compute. discriminate. }
  do 2 eexists. split.
  - eapply store_next; [eapply store_next; [eapply store_next; [eapply store_next; [apply store_start|]|]|]|].
    + apply (store_call _ _ _ store_init 0 c). done.
    + apply (store_poll _ _ _ _ 0 (mkCall c 0 CallLocking (λ _, 0)) s (CallAwaiting 0 None) (Some 0) [Miss]); [done|].
      unfold call_poll. cbn [cl_at cl_candidates cl_now cs_state store_init]. by rewrite Hb.
    + apply (store_finish _ _ _ _ 0 (mkLoad c 0) (Ok hits) s').
      * apply lookup_insert_eq.
      * by intros p.
      * intros hits' [= <-]. exists 0. split; [cbn; lia|]. intros k b. apply in_memory_hits_elem.
      * exact Hf.
    + eapply (store_poll _ _ _ _ 0).
      * cbn [cs_calls]. apply lookup_insert_eq.
      * unfold call_poll. cbn [cl_at call_at cs_channels]. rewrite lookup_insert_eq. reflexivity.
  - split; [apply lookup_insert_eq|]. split; reflexivity.
Qed.
Lemma example_cached_honest w call :
  cs_calls w !! 0 = Some call → cl_candidates call = example_keys →
  cl_at call = CallReturned (Ok (InMemoryLookup.hits example_store example_keys)) →
  Forall (honest (H1 := simple_timeout) RouterConfig_default example_stream (call_since w 0)
    (λ net, net = example_upstream_net)) example_done.
Proof.
  intros Hi Hc Hat. repeat (apply Forall_cons; split); try exact I; try apply Forall_nil_2.
  - cbn [honest]. vm_compute. reflexivity.
  - exists (mkCachedCall w 0 (Some 0)). split; [split; [done|]; exists call; split; [done|lia]|].
    unfold resolve_route. change (candidate_keys (mkHostname (lit "a.test"))) with example_keys.
    rewrite <- Hc at 1. rewrite (cached_call_lookup _ _ _ _ _ Hi Hat). vm_compute. reflexivity.
  - exists example_upstream_net. split; [reflexivity|]. vm_compute. reflexivity.
Qed.

(** ** The property *)

(** C2: a router embedded over a cached store, end to end.  [w] is a run of the
    cache over the store and [d] one of the resolver; the connection's lookups
    are calls of theirs made at [since], when it was accepted, or later.
    Whatever the client sends, however it is cut, however the store's table
    changes and whatever is invalidated: a connection that is proxied began with
    a ClientHello naming a host; its route was selected from what such a call
    returned, and is the best one for that host in the table the store held while
    a load of [w] ran that ended after the call began or at most its TTL, with
    its jitter, before (the stale window more if the call was served stale); the
    upstream is the route's IP address, or an address of an answer the system
    lookup gave for the backend's name and port, stored in [d] less than the
    TTL, the stale window and the negative TTL before [since] or later; and it
    was sent exactly the bytes that [read_client_hello] returned for the
    connection. *)
Theorem embedded_router `{ByteSource Src content, TimeoutSpec, SemaphoreSpec Sem free}
    {Up} (peer : Up → SocketAddr) (sent : Up → bytes) config listener (stream : Src)
    (nets : Net Up → Prop) hash_one cache table_at w system (d : CallsWorld Sem) since done u n k :
  wire_bound (hello_limits config) ≤ isize_max → config_ok cache → (∀ t, wf_table (table_at t)) →
  store_reachable hash_one cache table_at w →
  calls_reachable system (dns_cache_ttl config) (max_concurrent_dns_lookups config) d →
  (∀ net, nets net → NetSpec net peer sent ∧ resolved_since d since net) →
  trace (run config listener) done (AwaitProxy u n k) →
  Forall (honest config stream (call_since w since) nets) done →
  ∃ info host m rest,
    hello_result (hello_limits config) (content stream) = Ok info ∧ sni info = Some host ∧
    recent_route hash_one cache table_at w since host m ∧
    match backend_host (match_backend m) with
    | Ip ip => peer u = (ip, backend_port (match_backend m))
    | Dns name => ∃ addrs t0 t, system t0 (name, backend_port (match_backend m)) (inr addrs) ∧ t0 ≤ t ∧
        ((name, backend_port (match_backend m)), addrs, t) ∈ rw_answers (dw_world d) ∧
        since < t + dns_cache_ttl config + STALE_IF_ERROR + NEGATIVE_TTL ∧ peer u ∈ addrs
    end ∧
    replayed content (hello_limits config) stream (sent u) info rest.
Proof.
  intros Hmax Hcache Hwf Hw Hd Hnets Ht Hhonest.
  destruct (proxied_answers peer sent config listener stream (call_since w since) nets done u n k Hmax
    (λ net Hnet, proj1 (Hnets net Hnet)) Ht Hhonest)
    as (info & host & m & l & net & rest & Hhello & Hsni & Hl & Hroute & Hnet & Hadr & Hsent).
  exists info, host, m, rest. do 2 (split; [done|]). split; [by eapply cached_route|]. split; [|done].
  eapply (resolved_recently (free := free)); [exact Hd|by apply Hnets|exact Hadr].
Qed.
Lemma embedded_router_witness :
  ∃ w host m rest, sni example_info = Some host ∧
    recent_route (λ _, 2 ^ 63) CacheConfig_default example_in_store w 0 host m ∧
    replayed (concat (A := _)) HelloLimits.default example_stream example_wire example_info rest.
Proof.
  destruct example_trace as [k Hk]. destruct example_cached_call as (w & call & Hw & Hi & Hc & Hat).
  destruct (example_resolve_call (lit "b", 443)) as (d & Hd & Hn & _).
  destruct (embedded_router (H2 := simple_timeout_spec) (Sem := N) (free := λ n, n)
    fst snd RouterConfig_default example_listener example_stream
    (λ net, net = example_upstream_net) (λ _, 2 ^ 63) CacheConfig_default example_in_store w example_system d 0
    example_done example_up 32768 k) as (info & host & m & rest & Hhello & Hsni & Hroute & _ & Hsent).
  - vm_decide.
  - exact default_config_ok.
  - intros t. unfold wf_table. vm_decide.
  - exact Hw.
  - exact Hd.
  - intros net ->. split; [apply example_net_spec|]. intros name port addrs Hr. cbn in Hr.
    case_decide as Hname; [|discriminate Hr]. injection Hr as <-. injection Hname as -> ->.
    eexists 0, _. split; [exact Hn|]. split; [reflexivity|]. split; [vm_decide|reflexivity].
  - exact Hk.
  - exact (example_cached_honest w call Hi Hc Hat).
  - assert (hello_result HelloLimits.default (concat example_stream) = Ok example_info) as He by (vm_compute; reflexivity).
    assert (info = example_info) as -> by (pose proof (eq_trans (eq_sym He) Hhello) as [=]; congruence).
    exists w, host, m, rest. split; [exact Hsni|]. split; [exact Hroute|exact Hsent].
Defined.
